(* ===== verification/_CoqProject ===== *)
-Q . S2P
Prelude.v
WaitStrategy.v
BoundedQueue.v
RWLock.v
ObjectPool.v
HashMaps.v
DataBuffers.v
DataFlow.v
Queues.v
ThreadPool.v
Signal.v
TimingWheel.v
Routine.v
Contexts.v
Scheduler.v
Processor.v
Shm.v
Segment.v
Notifier.v
NotifierLife.v
RecordFile.v
RecordFlush.v
Record.v
RecordViewer.v
RecordWriter.v
Message.v
Listener.v
Dispatcher.v
Transmitters.v
Receivers.v
Logger.v
LogFile.v
Time.v
Traits.v
Poller.v
Session.v
Tasks.v
SchedulerConf.v
File.v
GlobalInfo.v
ProtoFactory.v
Rtps.v
Transport.v
Runtime.v
PerfEvents.v
