(* ===== verification/Prelude.v ===== *)
(** * CyberRT: a verification library of its core

    CyberRT ([src/cyber/]) is the runtime under Apollo's components: coroutines
    are scheduled on threads, messages travel between processes, buffers and
    fusion stand between the two, timers, records and logs beside them.  This
    library translates that core from the C++ and proves what makes it correct.
    Paths in the headings of the files are relative to [src/].

    ** How the program's parts interact

    A writer gives a message to its [Transmitter]; the hybrid one picks, for each
    reader, the medium that fits (same process, shared memory, Fast-RTPS).  The
    dispatcher of that medium finds the channel's listener handler, which emits a
    signal; the receiver's listener puts the message into the channel's buffers
    through the data dispatcher, and the notifier wakes the coroutine that waits
    for them.  The scheduler keeps the coroutine in a queue of its policy, a
    processor takes it from there and resumes it, and its data visitor fetches
    one message or a fused tuple.  Queues, pools, maps, locks and signals carry
    all of this; timers re-arm themselves on a timing wheel; the recorder writes
    messages to files that the viewer merges again.

    ** Files

    - [Prelude]: machine integers and their wrap-around, labelled transition
      systems ([run], [reachable] and rule induction), tactics ([split_step],
      [unwrap], ..), hints, lemmas on lists, maps and bytes.
    - [WaitStrategy], [BoundedQueue] (cyber/base/wait_strategy.h,
      bounded_queue.h): the ring with tickets; first in, first out in every
      interleaving, and no access outside the ring.
    - [Queues] (thread_safe_queue.h, unbounded_queue.h), [ThreadPool]
      (thread_pool.h), [Signal] (signal.h), [RWLock] (atomic_rw_lock.h,
      reentrant_rw_lock.h), [ObjectPool] (concurrent_object_pool.h,
      object_pool.h), [HashMaps] (atomic_hash_map.h, concurrent_hash_map.h): the
      containers and locks.  Lost wake-ups, mutual exclusion and freedom from
      deadlock, exclusive ownership of pooled objects, refinement of finite maps.
      [HashMaps] gives the interface [IntMap] that [DataFlow] and [Dispatcher]
      are proved against.
    - [DataBuffers] (cyber/data/cache_buffer.h, channel_buffer.h), [DataFlow]
      (data_notifier.h, data_dispatcher.h, data_visitor.h, fusion/): what a
      reader gets of a channel, and that a fusing visitor serves what the
      specification says.
    - [TimingWheel] (cyber/timer/): wheels, ticks, cascades and timers, the calls
      of [AddTask] access by access next to the thread; when a task fires in the
      tick its duration asks for, and when not.
    - [Routine] (cyber/croutine/), [Contexts], [Scheduler] (cyber/scheduler/,
      cyber/common/global_data.cc), [Processor] (processor.cc): the state of
      coroutines, how a processor picks one, the queues of both policies under
      any clients, and the threads of the processors that share a group's queues
      and condition variable, visit by visit.  [Scheduler] is written over the
      interface [Policy] with laws [PolicyLaws] that both policies discharge.
    - [Shm], [Segment], [Notifier] (cyber/transport/shm/): block locks, layout,
      growing and remapping of a channel's segment, the ring of notifications.
    - [RecordFile], [RecordFlush], [Record], [RecordViewer], [RecordWriter]
      (cyber/record/): the file format, the writer with its flush thread, reader,
      viewer and segmentation, over the interfaces [Proto] (the protobuf
      encoding, with a round-trip law), [MessageReader] and [FileWriter].
    - [Message], [Listener], [Dispatcher], [Transmitters], [Receivers]
      (cyber/transport/common, message, dispatcher, transmitter, receiver): from
      an endpoint's identity to the theorem that a sent message calls a receiver
      exactly once, over the interfaces [MessageType], [BlockWriter] and
      [BlockReader].
    - [Logger], [LogFile] (cyber/logger/): the asynchronous logger with its
      threads, and the files it writes, whose names must be new.
    - [Time] (cyber/time/, cyber/common/time_conversion.h): [Duration], [Time]
      and [Rate] on 64-bit numbers with their wrap-around, and [Conversion],
      the leap-second table between UNIX and GPS time; not the functions on
      double.
    - [Traits] (cyber/message/): [MessageHeader], the header of 192 bytes;
      [Traits], a type class of what a message type may offer with the
      functions of message_traits.h on it; [RawMessage] and [PyMessageWrap],
      its instances, which keep the contract [Message]; [HC], a message with
      its header in one block of memory.
    - [Poller] (cyber/io/poller.cc): [Epoll], the kernel as an interface;
      [Poller], the operations and the thread as steps, each [epoll_ctl] one of
      its own; [PollerInterest], what the kernel has registered; [PollerTimeouts].
    - [Session] (cyber/io/poll_handler.cc, session.cc): [PollHandler], a
      routine that waits, with its processor and the poller's callback as
      steps, over [Routine.CRoutine]; [Session], the operations on sockets
      over an interface of the system calls.
    - [Tasks] (cyber/task/task_manager.cc): [TaskManager], callers, workers'
      routines and Shutdown as steps over [BoundedQueue] and [CRoutine].
    - [SchedulerConf] (scheduler.cc, processor.cc, both policies' constructors,
      scheduler_factory.cc): from the configuration to processors; when the
      construction succeeds, and that the invariants of [Scheduler] hold from the
      state it leaves.
    - [NotifierLife] (condition_notifier.cc, multicast_notifier.cc,
      notifier_factory.cc): the interface [NotifierBase] with its laws, and both
      kinds of notifiers from their constructor to [Shutdown], over segments of any
      size.
    - [File] (cyber/common/file.cc, environment.h): [Paths]; [FileSystem], the
      calls of the C library as an interface with laws, and [Directories],
      [Files] and [ProtoFiles] over it; [Tree], a file system in memory.
    - [GlobalInfo] (cyber/common/global_data.cc): the host, the process and their
      configuration, over [File].
    - [ProtoFactory] (cyber/message/protobuf_factory.cc): descriptions of
      message types, over [Protobuf], an interface of descriptor pools with laws.
    - [Rtps] (cyber/transport/rtps/, qos/): [Qos], profiles and the attributes
      that are made of them; [UnderlayMessage] over [Cdr], an interface of
      Fast-CDR with laws; [Participant], its life as steps of threads.
    - [Transport] (cyber/transport/transport.h, transport.cc): the object that
      creates transmitters and receivers and shuts everything down, over
      [NotifierBase] and the components above.
    - [Runtime] (cyber/state.h, cyber/init.cc, cyber/cyber.cc): the state of the
      process under [Init], [Clear] and signals, and the order of the end.
    - [PerfEvents] (cyber/event/): [PerfEvent], events and their lines;
      [PerfEventCache], the threads around the queue of events.

    ** How the code is translated

    A class is a [Record] of its fields, a method a function on it; a method that
    can fail returns its result next to the state, one that reads memory that may
    not be there an [option].  Unsigned and signed integers are [Z] with their
    wrap-around written out ([u64], [u32], [i32], [i64]).  Where threads
    interleave, an executable function [step] on labels gives every access to
    shared state (or every critical section, when a mutex covers it) as one step;
    the label says which thread moves and carries what the outside decides: a
    spurious failure of [compare_exchange_weak], a timeout, the answer of a system
    call.  Sequential consistency is assumed of the atomics.  A [shared_ptr] to an
    object that several own is an index into a store.  [std::hash], protobuf's
    encoding, Fast-RTPS, the clock and the file system are arguments.

    ** What the theorems show

    - Nothing is lost or doubled: queues, buffers, fusion, dispatch and the whole
      way from transmitter to receiver, the record and its reader, the logger.
    - Nobody sleeps for ever: consumers of a queue, coroutines with data, the
      processor that a notification wakes, threads in [Flush]; locks are free of
      deadlock; threads return after [Stop], except a processor's in the window
      that [Processor] shows.
    - Exclusion: locks, block locks, pooled objects, written blocks.
    - State stays well formed under any sequence of operations: the run queues,
      the media in use, the wheel, the segments of a record.
    - Refinement: maps, dispatchers, listener handlers and fusion answer as their
      specifications; bytes written are read back.
    - The errors the code has, each as a theorem about the translated code; those
      that are not a property of the manifest keep their theorem in the file of
      their component.

    ** Bounds and fuel

    A loop without a structural measure has fuel; the theorems that use it say
    how much is enough (the walk over a hash bucket: its length; the probe for a
    free block: the number of blocks; a round over sections: the length of the
    file).  Counters that the code lets wrap (tickets, sequence numbers, ticks)
    are wrapped; a theorem that needs them not to says so, with the bound
    ([2 ^ 64] steps, tickets less than the ring apart).

    ** Not modelled

    - cyber/croutine/detail/: the context switch is assembly.
    - main/, reference/, cyber/io/example/: examples.
    - cyber/common/log.h, macros.h, cyber/base/macros.h: calls of glog and the
      preprocessor.
    - The lock-free interleavings of [AtomicHashMap] (one operation at a time
      here), weak memory orders, and destruction while other threads still use an
      object, except where a component is about exactly that. *)

From stdpp Require Export base numbers list gmap option fin_maps strings.
From Stdlib Require Export Lia ZArith.

#[global] Set Default Goal Selector "!".

(** ** Machine integers

    Fixed-width integers are [Z] together with the wrap-around of their C++
    type, written out where the source computes. *)

Definition u64 (z : Z) : Z := z mod 2 ^ 64.
Definition u32 (z : Z) : Z := z mod 2 ^ 32.
Definition i32 (z : Z) : Z := (z + 2 ^ 31) mod 2 ^ 32 - 2 ^ 31.
Definition i64 (z : Z) : Z := (z + 2 ^ 63) mod 2 ^ 64 - 2 ^ 63.

Declare Scope cyber_scope.
Delimit Scope cyber_scope with cyber.
Notation "a +64 b" := (u64 (a + b)) (at level 50, left associativity) : cyber_scope.
Notation "a -64 b" := (u64 (a - b)) (at level 50, left associativity) : cyber_scope.
Notation "a +32 b" := (u32 (a + b)) (at level 50, left associativity) : cyber_scope.
Notation "a -32 b" := (u32 (a - b)) (at level 50, left associativity) : cyber_scope.

Create HintDb cyber discriminated.
Create Rewrite HintDb cyber_word.

Section words.
Local Open Scope Z_scope.

Lemma u64_small z : 0 <= z < 2 ^ 64 → u64 z = z.
Proof. apply Z.mod_small. Qed.

Lemma u64_range z : 0 <= u64 z < 2 ^ 64.
Proof. apply Z.mod_pos_bound. lia. Qed.

Lemma u32_small z : 0 <= z < 2 ^ 32 → u32 z = z.
Proof. apply Z.mod_small. Qed.

Lemma u32_range z : 0 <= u32 z < 2 ^ 32.
Proof. apply Z.mod_pos_bound. lia. Qed.

Lemma i32_small z : - 2 ^ 31 <= z < 2 ^ 31 → i32 z = z.
Proof. intros. unfold i32. rewrite Z.mod_small; lia. Qed.

Lemma i64_small z : - 2 ^ 63 <= z < 2 ^ 63 → i64 z = z.
Proof. intros. unfold i64. rewrite Z.mod_small; lia. Qed.

Lemma u64_add_mod a b : u64 (u64 a + b) = u64 (a + b).
Proof. unfold u64. by rewrite Zplus_mod_idemp_l. Qed.

Lemma u64_sub_mod a b : u64 (u64 a - b) = u64 (a - b).
Proof. unfold u64. by rewrite Zminus_mod_idemp_l. Qed.

(** Two numbers less than [m] apart with the same residue are equal: the
    argument behind every ring buffer of the library. *)
Lemma mod_window_inj m a b :
  0 < m → a mod m = b mod m → - m < a - b < m → a = b.
Proof.
  intros Hm Heq Hwin.
  pose proof (Z.div_mod a m). pose proof (Z.div_mod b m).
  assert (m * (a `div` m - b `div` m) = a - b) as Hd by lia.
  assert (a `div` m - b `div` m = 0) by nia. nia.
Qed.

Lemma land_mask k z : 0 <= k → Z.land z (2 ^ k - 1) = z mod 2 ^ k.
Proof. intros. rewrite Z.sub_1_r, <- Z.ones_equiv. by apply Z.land_ones. Qed.

Lemma lor_shiftl a l : 0 <= l < 2 ^ 32 → Z.lor (Z.shiftl a 32) l = a * 2 ^ 32 + l.
Proof.
  intros Hl. rewrite Z.shiftl_mul_pow2 by lia.
  assert (Z.land (a * 2 ^ 32) l = 0) as H0.
  { apply Z.bits_inj'. intros n Hn. rewrite Z.land_spec, Z.bits_0. destruct (Z.lt_ge_cases n 32) as [Hlt|Hge].
    - by rewrite Z.mul_pow2_bits_low.
    - rewrite <- (Z.mod_small l (2 ^ 32)), Z.mod_pow2_bits_high by lia. by rewrite andb_false_r. }
  by rewrite <- Z.lxor_lor, <- Z.add_nocarry_lxor.
Qed.

(** The halves of a 64-bit number. *)
Lemma land_low z : Z.land z 0xFFFFFFFF = z mod 2 ^ 32.
Proof. by apply (land_mask 32). Qed.

Lemma land_high z : 0 <= z < 2 ^ 64 → Z.shiftr (Z.land z 0xFFFFFFFF00000000) 32 = z / 2 ^ 32.
Proof.
  intros Hz. rewrite Z.shiftr_land. change (Z.shiftr 0xFFFFFFFF00000000 32) with (2 ^ 32 - 1).
  rewrite land_mask, Z.shiftr_div_pow2 by lia. apply Z.mod_small.
  split; [apply Z.div_pos; lia|apply Z.div_lt_upper_bound; lia].
Qed.

(** [num - (num / m) * m] is the remainder ("faster than %"). *)
Lemma sub_div_mod a m : m ≠ 0 → a - a `div` m * m = a mod m.
Proof. intros. rewrite Z.mod_eq by done. lia. Qed.
End words.

#[export] Hint Rewrite u64_small u32_small i32_small i64_small using lia : cyber_word.
#[export] Hint Resolve u64_range u32_range : cyber.

(** ** Labelled transition systems

    A component whose operations interleave is given by an executable step
    function on labels: [step l s = None] says that [l] is not enabled in
    [s].  Nondeterminism (which thread moves, a spurious failure of
    [compare_exchange_weak], a value chosen by the environment) is carried by
    the label. *)

Section lts.
Context {S L : Type} (step : L → S → option S).

Fixpoint run (ls : list L) (s : S) : option S :=
  match ls with
  | [] => Some s
  | l :: ls' => s' ← step l s; run ls' s'
  end.

Inductive reachable (s0 : S) : S → Prop :=
| reach_init : reachable s0 s0
| reach_step s l s' : reachable s0 s → step l s = Some s' → reachable s0 s'.

Lemma run_app ls1 ls2 s : run (ls1 ++ ls2) s = (s' ← run ls1 s; run ls2 s').
Proof.
  revert s. induction ls1 as [|l ls1 IH]; intros s; simpl; [done|].
  destruct (step l s); simpl; [apply IH | done].
Qed.

Lemma run_snoc ls l s : run (ls ++ [l]) s = (s' ← run ls s; step l s').
Proof. rewrite run_app. destruct (run ls s) as [s'|]; simpl; [|done]. by destruct (step l s'). Qed.

Lemma run_reachable_from s0 s ls s' :
  reachable s0 s → run ls s = Some s' → reachable s0 s'.
Proof.
  revert s. induction ls as [|l ls IH]; simpl; intros s Hr Hrun; [by simplify_eq|].
  destruct (step l s) as [s1|] eqn:E; simpl in Hrun; [|done].
  eapply IH; [|done]. by econstructor.
Qed.

Lemma run_reachable s0 ls s' : run ls s0 = Some s' → reachable s0 s'.
Proof. apply run_reachable_from. constructor. Qed.

Lemma reachable_run s0 s : reachable s0 s → ∃ ls, run ls s0 = Some s.
Proof.
  induction 1 as [|s l s' _ [ls IH] Hs]; [by exists []|].
  exists (ls ++ [l]). rewrite run_app, IH. simpl. by rewrite Hs.
Qed.

(** Rule induction for invariants. *)
Lemma reachable_inv (I : S → Prop) s0 s :
  I s0 → (∀ l s1 s2, I s1 → step l s1 = Some s2 → I s2) →
  reachable s0 s → I s.
Proof. intros H0 Hstep. induction 1; eauto. Qed.

(** The same for an invariant that holds while a resource [P] has not been
    exhausted ([P] is downward closed along steps). *)
Lemma reachable_inv_while (P I : S → Prop) s0 s :
  I s0 →
  (∀ l s1 s2, step l s1 = Some s2 → P s2 → P s1) →
  (∀ l s1 s2, I s1 → P s1 → P s2 → step l s1 = Some s2 → I s2) →
  reachable s0 s → P s → I s.
Proof. intros H0 Hdown Hstep. induction 1; eauto. Qed.
End lts.

(** ** Strings as bytes *)
Definition string_bytes (s : string) : list Z := (λ c, Z.of_nat (Ascii.nat_of_ascii c)) <$> String.list_ascii_of_string s.

(** ** Tactics *)

(** Splits every [match] of a hypothesis [H : f .. = Some _]. *)
Ltac split_step H :=
  repeat (progress (unfold mbind, option_bind in H; cbn beta iota in H) ||
    match type of H with
    | context [match ?x with _ => _ end] =>
        lazymatch x with
        | context [match _ with _ => _ end] => fail
        | _ => destruct x eqn:?
        end
    end); try discriminate H; simplify_eq.

(** Removes wrap-arounds whose argument is in range by [lia]. *)
Ltac unwrap_one :=
  match goal with
  | |- context [u64 ?z] => rewrite (u64_small z) by lia
  | |- context [u32 ?z] => rewrite (u32_small z) by lia
  | |- context [i32 ?z] => rewrite (i32_small z) by lia
  | |- context [i64 ?z] => rewrite (i64_small z) by lia
  | H : context [u64 ?z] |- _ => rewrite (u64_small z) in H by lia
  | H : context [u32 ?z] |- _ => rewrite (u32_small z) in H by lia
  | H : context [i32 ?z] |- _ => rewrite (i32_small z) in H by lia
  | H : context [i64 ?z] |- _ => rewrite (i64_small z) in H by lia
  end.
Ltac unwrap := repeat unwrap_one.

(** ** Lists and maps *)

Section lists.
Context {A : Type}.
Implicit Types l : list A.

Lemma lookup_snoc_lt l x i : i < length l → (l ++ [x]) !! i = l !! i.
Proof. apply lookup_app_l. Qed.

Lemma lookup_snoc_eq l x : (l ++ [x]) !! length l = Some x.
Proof. rewrite lookup_app_r by lia. by rewrite Nat.sub_diag. Qed.

Lemma take_snoc_lookup l i x : l !! i = Some x → take (S i) l = take i l ++ [x].
Proof. intros. by apply take_S_r. Qed.

Lemma filter_ext_in (P Q : A → Prop) `{∀ x, Decision (P x)} `{∀ x, Decision (Q x)} l :
  (∀ x, x ∈ l → P x ↔ Q x) → filter P l = filter Q l.
Proof.
  induction l as [|x l IH]; intros HPQ; [done|]. rewrite !filter_cons, IH by (intros y Hy; apply HPQ; by right).
  pose proof (HPQ x ltac:(by left)). by destruct (decide (P x)), (decide (Q x)); try tauto.
Qed.

Lemma prefix_take l1 l2 : l1 `prefix_of` l2 → l1 = take (length l1) l2.
Proof. intros [k ->]. by rewrite take_app_length. Qed.
End lists.

(** ** Bytes

    A byte is a [Z] below 256; [bytes_of n z] is the little-endian image of an
    [n]-byte integer in memory (the byte order of the machines the library runs
    on). *)
Definition byte (b : Z) : Prop := (0 <= b < 256)%Z.

Fixpoint bytes_of (n : nat) (z : Z) : list Z :=
  match n with O => [] | S n => (z mod 256 :: bytes_of n (z / 256))%Z end.
Fixpoint of_bytes (l : list Z) : Z :=
  match l with [] => 0 | b :: l => b + 256 * of_bytes l end%Z.

Section bytes.
Local Open Scope Z_scope.

Lemma length_bytes_of n z : length (bytes_of n z) = n.
Proof. revert z. induction n; intros; cbn; auto. Qed.

Lemma of_bytes_of n z : 0 <= z < 256 ^ Z.of_nat n → of_bytes (bytes_of n z) = z.
Proof.
  revert z. induction n as [|n IH]; intros z Hz; [cbn in *; lia|]. cbn [bytes_of of_bytes].
  rewrite IH; [pose proof (Z.div_mod z 256); lia|].
  rewrite Nat2Z.inj_succ, Z.pow_succ_r in Hz by lia. split; [apply Z.div_pos; lia|]. apply Z.div_lt_upper_bound; lia.
Qed.

Lemma bytes_of_of l : Forall byte l → bytes_of (length l) (of_bytes l) = l.
Proof.
  unfold byte. induction 1 as [|b l Hb Hl IH]; [done|]. cbn [length of_bytes bytes_of].
  replace ((b + 256 * of_bytes l) mod 256) with b by (rewrite Z.mul_comm, Z_mod_plus_full, Z.mod_small; lia).
  replace ((b + 256 * of_bytes l) / 256) with (of_bytes l); [by rewrite IH|].
  rewrite Z.mul_comm, Z.div_add, Z.div_small by lia. lia.
Qed.

Lemma of_bytes_bounds l : Forall byte l → 0 <= of_bytes l < 256 ^ Z.of_nat (length l).
Proof.
  unfold byte. induction 1 as [|b l Hb _ IH]; [cbn; lia|]. cbn [of_bytes length]. rewrite Nat2Z.inj_succ, Z.pow_succ_r; lia.
Qed.
End bytes.

(** Counting the elements of a list that satisfy a test. *)
Definition countb {A} (f : A → bool) (l : list A) : Z :=
  foldr (λ x n, Z.b2z (f x) + n)%Z 0%Z l.

Section countb.
Context {A : Type} (f : A → bool).
Local Open Scope Z_scope.

Lemma countb_bounds l : 0 <= countb f l <= Z.of_nat (length l).
Proof. induction l as [|x l IH]; simpl; [lia|]. destruct (f x); simpl; lia. Qed.

Lemma countb_insert l i x y :
  l !! i = Some y → countb f (<[i := x]> l) = countb f l - Z.b2z (f y) + Z.b2z (f x).
Proof.
  revert i. induction l as [|z l IH]; intros [|i] Hi; simplify_eq/=; [lia|].
  rewrite (IH _ Hi). lia.
Qed.

Lemma countb_lookup l i y : l !! i = Some y → f y = true → 1 <= countb f l.
Proof.
  revert i. induction l as [|z l IH]; intros [|i] Hi Hy; simplify_eq/=.
  - rewrite Hy. pose proof (countb_bounds l). simpl. lia.
  - pose proof (IH _ Hi Hy). destruct (f z); simpl; lia.
Qed.

Lemma countb_lookup_two l i j x y :
  l !! i = Some x → l !! j = Some y → f x = true → f y = true → i ≠ j → 2 <= countb f l.
Proof.
  revert i j. induction l as [|z l IH]; intros [|i] [|j] Hi Hj Hx Hy Hne; simplify_eq/=.
  - rewrite Hx. pose proof (countb_lookup l j y Hj Hy). simpl. lia.
  - rewrite Hy. pose proof (countb_lookup l i x Hi Hx). simpl. lia.
  - pose proof (IH i j Hi Hj Hx Hy ltac:(congruence)). destruct (f z); simpl; lia.
Qed.

Lemma countb_exists l : countb f l ≠ 0 → ∃ i x, l !! i = Some x ∧ f x = true.
Proof.
  induction l as [|z l IH]; simpl; [done|]. destruct (f z) eqn:Hz.
  - intros _. by exists 0%nat, z.
  - intros H. destruct IH as (i & x & ? & ?); [exact H|]. by exists (S i), x.
Qed.

Lemma countb_none l i x : countb f l = 0 → l !! i = Some x → f x = false.
Proof.
  intros H Hi. destruct (f x) eqn:E; [|done]. pose proof (countb_lookup _ _ _ Hi E). lia.
Qed.

Lemma countb_replicate n x : f x = false → countb f (replicate n x) = 0.
Proof. intros Hx. induction n; simpl; [done|]. rewrite Hx, IHn. done. Qed.
End countb.
#[global] Arguments countb {_} _ _ : simpl never.

(** Invariants quantified over the threads of a map. *)
Lemma map_Forall_insert_mono {A} (P Q : nat → A → Prop) (m : gmap nat A) t x :
  map_Forall P m → (∀ t' y, t' ≠ t → m !! t' = Some y → P t' y → Q t' y) → Q t x →
  map_Forall Q (<[t := x]> m).
Proof.
  intros HP Himp Hx t' y. rewrite lookup_insert. case_decide as Heq; intros Hy.
  - by simplify_eq.
  - eapply Himp; eauto.
Qed.

Lemma map_Forall_delete_mono {A} (P Q : nat → A → Prop) (m : gmap nat A) t :
  map_Forall P m → (∀ t' y, t' ≠ t → m !! t' = Some y → P t' y → Q t' y) →
  map_Forall Q (delete t m).
Proof.
  intros HP Himp t' y [Hne Hy]%lookup_delete_Some. eapply Himp; eauto.
Qed.
