(* ===== verification/WaitStrategy.v ===== *)
(** * Wait strategies ([cyber/base/wait_strategy.h])

    The strategy objects a [BoundedQueue] blocks on.  [NotifyOne] and
    [BreakAllWait] only wake threads that are inside a condition variable;
    since [std::condition_variable::wait] may also return spuriously, a waiting
    thread of the model may resume at any time and the two calls have no
    effect on the modelled state. *)

From S2P Require Import Prelude.

Local Open Scope Z_scope.

Module WaitStrategy.
(** The subclasses of [WaitStrategy] with their fields. *)
Inductive t :=
| BlockWaitStrategy
| SleepWaitStrategy (sleep_time_us_ : Z)
| YieldWaitStrategy
| BusySpinWaitStrategy
| TimeoutBlockWaitStrategy (time_out_ : Z).

(** [SleepWaitStrategy()]: the default of [sleep_time_us_]. *)
Definition default_sleep : t := SleepWaitStrategy 10000.

(** [EmptyWait]: what the caller sees when it resumes.  [timed_out] is the
    answer [std::cv_status::timeout] of [wait_for]. *)
Definition EmptyWait (s : t) (timed_out : bool) : bool :=
  match s with
  | BlockWaitStrategy => true
  | SleepWaitStrategy _ => true
  | YieldWaitStrategy => true
  | BusySpinWaitStrategy => true
  | TimeoutBlockWaitStrategy _ => negb timed_out
  end.

Definition SetSleepTimeMicroSecends (us : Z) (s : t) : t :=
  match s with SleepWaitStrategy _ => SleepWaitStrategy us | _ => s end.

Definition SetTimeout (ms : Z) (s : t) : t :=
  match s with TimeoutBlockWaitStrategy _ => TimeoutBlockWaitStrategy ms | _ => s end.
End WaitStrategy.
