(* ===== verification/BoundedQueue.v ===== *)
(** * The bounded MPMC queue ([cyber/base/bounded_queue.h])

    [BoundedQueue<T>] is a ring of [size + 2] slots with three atomic counters:
    [tail_] hands out tickets to producers, [commit_] publishes filled slots in
    ticket order, [head_] is advanced by consumers.  The file gives

    - the state and the operations run by one thread without interference
      ([Enqueue], [Dequeue], [Size], ...), and
    - the concurrent machine: every atomic access of the source is one step of a
      thread, any number of threads interleave, and [compare_exchange_weak] may
      fail spuriously.

    The ghost fields [hist] and [out] of the machine record the elements that
    obtained a ticket and the elements handed out, in the order of the
    successful [compare_exchange]s; they do not influence the steps. *)

From S2P Require Import Prelude WaitStrategy.

Local Open Scope Z_scope.

Module BoundedQueue.
Section bounded_queue.
Context {T : Type} (dflt : T).

(** The fields; [pool_ = []] before [Init], [wait_strategy_ = None] for a null
    pointer. *)
Record t := mk {
  head_ : Z;
  tail_ : Z;
  commit_ : Z;
  pool_size_ : Z;
  pool_ : list T;
  wait_strategy_ : option WaitStrategy.t;
  break_all_wait_ : bool;
}.

Definition BoundedQueue : t := mk 0 1 1 0 [] None false.

Definition set_head (h : Z) (q : t) : t :=
  mk h (tail_ q) (commit_ q) (pool_size_ q) (pool_ q) (wait_strategy_ q) (break_all_wait_ q).
Definition set_tail (n : Z) (q : t) : t :=
  mk (head_ q) n (commit_ q) (pool_size_ q) (pool_ q) (wait_strategy_ q) (break_all_wait_ q).
Definition set_commit (n : Z) (q : t) : t :=
  mk (head_ q) (tail_ q) n (pool_size_ q) (pool_ q) (wait_strategy_ q) (break_all_wait_ q).
Definition set_pool (p : list T) (q : t) : t :=
  mk (head_ q) (tail_ q) (commit_ q) (pool_size_ q) p (wait_strategy_ q) (break_all_wait_ q).

(** [Init(size, strategy)]; [calloc_ok] is the outcome of [std::calloc]. *)
Definition Init (calloc_ok : bool) (size : Z) (strategy : WaitStrategy.t) (q : t) : bool * t :=
  let pool_size := u64 (size + 2) in
  if calloc_ok then
    (true, mk (head_ q) (tail_ q) (commit_ q) pool_size
             (replicate (Z.to_nat pool_size) dflt) (Some strategy) (break_all_wait_ q))
  else
    (false, mk (head_ q) (tail_ q) (commit_ q) pool_size [] (wait_strategy_ q)
              (break_all_wait_ q)).

(** [Init(size)]. *)
Definition Init_default (calloc_ok : bool) (size : Z) (q : t) : bool * t :=
  Init calloc_ok size WaitStrategy.default_sleep q.

Definition GetIndex (q : t) (num : Z) : Z :=
  u64 (num - u64 (num / pool_size_ q * pool_size_ q)).

(** [pool_[i] = x] and [pool_[i]]; [None] is an access outside the pool. *)
Definition pool_write (q : t) (i : Z) (x : T) : option t :=
  if decide (Z.to_nat i < length (pool_ q))%nat
  then Some (set_pool (<[Z.to_nat i := x]> (pool_ q)) q) else None.
Definition pool_read (q : t) (i : Z) : option T := pool_ q !! Z.to_nat i.

Definition Size (q : t) : Z := u64 (u64 (tail_ q - head_ q) - 1).
Definition Empty (q : t) : bool := Size q =? 0.
Definition SetWaitStrategy (s : WaitStrategy.t) (q : t) : t :=
  mk (head_ q) (tail_ q) (commit_ q) (pool_size_ q) (pool_ q) (Some s) (break_all_wait_ q).
Definition BreakAllWait (q : t) : option t :=
  _ ← wait_strategy_ q;
  Some (mk (head_ q) (tail_ q) (commit_ q) (pool_size_ q) (pool_ q) (wait_strategy_ q) true).

(** ** One thread alone

    [None] is undefined behaviour: an access outside the pool or a null wait
    strategy.  The commit loop spins until the earlier tickets are committed;
    alone, it returns only when [commit_] is the own ticket. *)
Definition Enqueue (q : t) (x : T) : option (bool * t) :=
  let old_tail := tail_ q in
  let new_tail := u64 (old_tail + 1) in
  if GetIndex q new_tail =? GetIndex q (head_ q) then Some (false, q)
  else
    q1 ← pool_write (set_tail new_tail q) (GetIndex q old_tail) x;
    if commit_ q1 =? old_tail then
      _ ← wait_strategy_ q1; Some (true, set_commit new_tail q1)
    else None.

Definition Dequeue (q : t) : option (option T * t) :=
  let new_head := u64 (head_ q + 1) in
  if new_head =? commit_ q then Some (None, q)
  else x ← pool_read q (GetIndex q new_head); Some (Some x, set_head new_head q).

(** ** The concurrent machine *)

(** The operation a thread is in; [e] is the current content of the output
    parameter [*element] ([None]: not written yet). *)
Inductive op := OEnq (x : T) | ODeq (e : option T).

(** Program counters.  [w] says that the call came from [WaitEnqueue] or
    [WaitDequeue]; [ot] and [oh] are the locals [old_tail] and [old_head]. *)
Inductive pc :=
| PEnqLoad (w : bool) (x : T)
| PEnqCheck (w : bool) (x : T) (ot : Z)
| PEnqCas (w : bool) (x : T) (ot : Z)
| PEnqWrite (x : T) (ot : Z)
| PEnqCommit (x : T) (ot : Z)
| PEnqNotify
| PDeqLoad (w : bool) (e : option T)
| PDeqCheck (w : bool) (oh : Z) (e : option T)
| PDeqRead (w : bool) (oh : Z)
| PDeqCas (w : bool) (oh : Z) (v : T)
| PWaitHead (o : op)
| PEmptyWait (o : op)
| PRet (ok : bool) (e : option T).

Definition op_elem (o : op) : option T :=
  match o with OEnq _ => None | ODeq e => e end.
Definition op_start (w : bool) (o : op) : pc :=
  match o with OEnq x => PEnqLoad w x | ODeq e => PDeqLoad w e end.
(** [Enqueue]/[Dequeue] returned false: to the caller, or to the wait loop. *)
Definition op_fail (w : bool) (o : op) : pc :=
  if w then PEmptyWait o else PRet false (op_elem o).

Inductive event := EvEnq (x : T) | EvDeq (x : T).

(** One step of a thread; [b] makes a [compare_exchange_weak] fail spuriously
    and is the time-out of [EmptyWait]. *)
Definition tstep (b : bool) (q : t) (p : pc) : option (t * pc * option event) :=
  match p with
  | PEnqLoad w x => Some (q, PEnqCheck w x (tail_ q), None)
  | PEnqCheck w x ot =>
      if GetIndex q (u64 (ot + 1)) =? GetIndex q (head_ q)
      then Some (q, op_fail w (OEnq x), None)
      else Some (q, PEnqCas w x ot, None)
  | PEnqCas w x ot =>
      if negb b && (tail_ q =? ot)
      then Some (set_tail (u64 (ot + 1)) q, PEnqWrite x ot, Some (EvEnq x))
      else Some (q, PEnqCheck w x (tail_ q), None)
  | PEnqWrite x ot =>
      q1 ← pool_write q (GetIndex q ot) x; Some (q1, PEnqCommit x ot, None)
  | PEnqCommit x ot =>
      if negb b && (commit_ q =? ot)
      then Some (set_commit (u64 (ot + 1)) q, PEnqNotify, None)
      else Some (q, PEnqCommit x ot, None)
  | PEnqNotify => _ ← wait_strategy_ q; Some (q, PRet true None, None)
  | PDeqLoad w e => Some (q, PDeqCheck w (head_ q) e, None)
  | PDeqCheck w oh e =>
      if u64 (oh + 1) =? commit_ q then Some (q, op_fail w (ODeq e), None)
      else Some (q, PDeqRead w oh, None)
  | PDeqRead w oh =>
      v ← pool_read q (GetIndex q (u64 (oh + 1))); Some (q, PDeqCas w oh v, None)
  | PDeqCas w oh v =>
      if negb b && (head_ q =? oh)
      then Some (set_head (u64 (oh + 1)) q, PRet true (Some v), Some (EvDeq v))
      else Some (q, PDeqCheck w (head_ q) (Some v), None)
  | PWaitHead o =>
      if break_all_wait_ q then Some (q, PRet false (op_elem o), None)
      else Some (q, op_start true o, None)
  | PEmptyWait o =>
      s ← wait_strategy_ q;
      if WaitStrategy.EmptyWait s b then Some (q, PWaitHead o, None)
      else Some (q, PRet false (op_elem o), None)
  | PRet _ _ => None
  end.

Record state := mkst {
  sq : t;
  thr : gmap nat pc;
  hist : list T;
  out : list T;
}.

Inductive label :=
| LCall (i : nat) (w : bool) (o : op)
| LStep (i : nat) (b : bool)
| LRet (i : nat)
| LBreakAllWait.

Definition record (ev : option event) (h o : list T) : list T * list T :=
  match ev with
  | None => (h, o)
  | Some (EvEnq x) => (h ++ [x], o)
  | Some (EvDeq x) => (h, o ++ [x])
  end.

Definition step (l : label) (s : state) : option state :=
  match l with
  | LCall i w o =>
      match thr s !! i with
      | Some _ => None
      | None => Some (mkst (sq s)
            (<[i := if w then PWaitHead o else op_start false o]> (thr s)) (hist s) (out s))
      end
  | LStep i b =>
      p ← thr s !! i;
      '(q', p', ev) ← tstep b (sq s) p;
      let '(h', o') := record ev (hist s) (out s) in
      Some (mkst q' (<[i := p']> (thr s)) h' o')
  | LRet i =>
      match thr s !! i with
      | Some (PRet _ _) => Some (mkst (sq s) (delete i (thr s)) (hist s) (out s))
      | _ => None
      end
  | LBreakAllWait =>
      q' ← BreakAllWait (sq s); Some (mkst q' (thr s) (hist s) (out s))
  end.

Definition initial (size : Z) (strategy : WaitStrategy.t) : state :=
  mkst (snd (Init true size strategy BoundedQueue)) ∅ [] [].
End bounded_queue.
Arguments t : clear implicits.
Arguments state : clear implicits.
Arguments label : clear implicits.
Arguments pc : clear implicits.
Arguments op : clear implicits.

(** ** Invariant of the concurrent machine *)

Section invariant.
Context {T : Type} (dflt : T) (size : Z) (strategy : WaitStrategy.t).
Implicit Types (q : t T) (s : state T) (p : pc T) (h : list T).

(** Facts about the locals of a thread, relative to the shared state. *)
Definition thread_inv q h p : Prop :=
  match p with
  | PEnqCheck _ _ ot => 1 <= ot <= tail_ q
  | PEnqCas _ _ ot =>
      1 <= ot <= tail_ q ∧ (ot = tail_ q → tail_ q + 1 - head_ q < pool_size_ q)
  | PEnqWrite x ot =>
      commit_ q <= ot < tail_ q ∧ h !! Z.to_nat (ot - 1) = Some x
  | PEnqCommit x ot =>
      commit_ q <= ot < tail_ q ∧ h !! Z.to_nat (ot - 1) = Some x ∧
      pool_ q !! Z.to_nat (ot mod pool_size_ q) = Some x
  | PDeqCheck _ oh _ => 0 <= oh <= head_ q
  | PDeqRead _ oh => 0 <= oh <= head_ q ∧ (oh = head_ q → oh + 1 < commit_ q)
  | PDeqCas _ oh v =>
      0 <= oh <= head_ q ∧ (oh = head_ q → oh + 1 < commit_ q ∧ h !! Z.to_nat oh = Some v)
  | _ => True
  end.

(** The ticket a producer holds between its [compare_exchange] on [tail_] and
    the one on [commit_]. *)
Definition ticket p : option Z :=
  match p with PEnqWrite _ ot | PEnqCommit _ ot => Some ot | _ => None end.

Record queue_inv q h (o : list T) : Prop := {
  qi_size : pool_size_ q = size + 2;
  qi_pool : Z.of_nat (length (pool_ q)) = size + 2;
  qi_strategy : is_Some (wait_strategy_ q);
  qi_tail : tail_ q = 1 + Z.of_nat (length h);
  qi_head : head_ q = Z.of_nat (length o);
  qi_fifo : o = take (length o) h;
  qi_order : head_ q < commit_ q <= tail_ q;
  qi_window : tail_ q - head_ q < pool_size_ q;
  qi_slots : ∀ i, head_ q < i < commit_ q →
    pool_ q !! Z.to_nat (i mod pool_size_ q) = h !! Z.to_nat (i - 1);
}.

Record inv s : Prop := {
  inv_queue : queue_inv (sq s) (hist s) (out s);
  inv_thr : map_Forall (λ _, thread_inv (sq s) (hist s)) (thr s);
  inv_tickets : ∀ i j p1 p2 ot,
    thr s !! i = Some p1 → thr s !! j = Some p2 →
    ticket p1 = Some ot → ticket p2 = Some ot → i = j;
}.

(** The number of tickets that fit a 64-bit counter. *)
Definition in_range s : Prop := 2 + Z.of_nat (length (hist s)) < 2 ^ 64.

Hypothesis size_nonneg : 0 <= size.
Hypothesis size_fits : size + 2 < 2 ^ 64.

Lemma GetIndex_mod q num :
  0 < pool_size_ q → 0 <= num < 2 ^ 64 → GetIndex q num = num mod pool_size_ q.
Proof.
  intros Hps Hn. unfold GetIndex.
  pose proof (Z.mul_div_le num (pool_size_ q) Hps).
  pose proof (Z.mod_pos_bound num (pool_size_ q) Hps).
  pose proof (Z.div_pos num (pool_size_ q)).
  pose proof (sub_div_mod num (pool_size_ q)).
  rewrite (u64_small (num / pool_size_ q * pool_size_ q)) by nia.
  rewrite u64_small by nia. lia.
Qed.

(** Different positions inside the window use different slots. *)
Lemma slot_neq q i j :
  0 < pool_size_ q → i ≠ j → - pool_size_ q < i - j < pool_size_ q →
  Z.to_nat (i mod pool_size_ q) ≠ Z.to_nat (j mod pool_size_ q).
Proof.
  intros Hps Hne Hwin Heq. apply Hne.
  apply (mod_window_inj (pool_size_ q)); [done| |done].
  pose proof (Z.mod_pos_bound i (pool_size_ q) Hps).
  pose proof (Z.mod_pos_bound j (pool_size_ q) Hps). lia.
Qed.

Lemma slot_in_pool q h o i :
  queue_inv q h o → (Z.to_nat (i mod pool_size_ q) < length (pool_ q))%nat.
Proof.
  intros []. pose proof (Z.mod_pos_bound i (pool_size_ q)). lia.
Qed.

Lemma bq_initial_inv : inv (initial dflt size strategy).
Proof.
  split; simpl; [|apply map_Forall_empty|set_solver].
  assert (u64 (size + 2) = size + 2) as E by (apply u64_small; lia).
  split; simpl; rewrite ?E, ?length_replicate; try done; try lia.
Qed.

Lemma bq_record_length ev (h o h' o' : list T) :
  record ev h o = (h', o') → (length h <= length h')%nat.
Proof. destruct ev as [[]|]; simpl; intros; simplify_eq; rewrite ?length_app; lia. Qed.

Lemma bq_step_in_range l s1 s2 : step l s1 = Some s2 → in_range s2 → in_range s1.
Proof.
  unfold in_range. destruct l; intros H; cbn in H; split_step H; cbn; try lia.
  match goal with H : record _ _ _ = _ |- _ => apply bq_record_length in H end. lia.
Qed.

(** The four mutations of the shared state. *)
Lemma take_ticket q h o x :
  queue_inv q h o → tail_ q + 1 - head_ q < pool_size_ q →
  queue_inv (set_tail (tail_ q + 1) q) (h ++ [x]) o.
Proof.
  intros [] Hroom. split; simpl; try done; try lia.
  - rewrite length_app. simpl. lia.
  - rewrite take_app_le by lia. done.
  - intros i Hi. rewrite lookup_app_l by lia. by apply qi_slots0.
Qed.

Lemma write_slot q h o ot x :
  queue_inv q h o → commit_ q <= ot < tail_ q →
  queue_inv (set_pool (<[Z.to_nat (ot mod pool_size_ q) := x]> (pool_ q)) q) h o.
Proof.
  intros [] Hot. split; simpl; try done; rewrite ?length_insert; try lia.
  intros i Hi. rewrite list_lookup_insert_ne; [by apply qi_slots0|].
  apply slot_neq; lia.
Qed.

Lemma publish q h o :
  queue_inv q h o → commit_ q < tail_ q →
  pool_ q !! Z.to_nat (commit_ q mod pool_size_ q) = h !! Z.to_nat (commit_ q - 1) →
  queue_inv (set_commit (commit_ q + 1) q) h o.
Proof.
  intros [] Hc Hslot. split; simpl; try done; try lia.
  intros i Hi. destruct (decide (i = commit_ q)) as [->|]; [done|]. apply qi_slots0. lia.
Qed.

Lemma hand_out q h o v :
  queue_inv q h o → head_ q + 1 < commit_ q → h !! Z.to_nat (head_ q) = Some v →
  queue_inv (set_head (head_ q + 1) q) h (o ++ [v]).
Proof.
  intros [] Hc Hv. split; simpl; try done; rewrite ?length_app; simpl; try lia.
  - rewrite Nat.add_1_r. rewrite (take_snoc_lookup _ _ v); [by f_equal|].
    by replace (length o) with (Z.to_nat (head_ q)) by lia.
  - intros i Hi. apply qi_slots0. lia.
Qed.

(** What a mutation leaves true of a thread other than the mutating one. *)
Ltac solve_other :=
  intros; destruct_and?; split_and?;
  first [done | lia | by apply lookup_app_l_Some
        | match goal with H : ?P → _, H' : ?P |- _ => specialize (H H') end; solve_other
        | match goal with H : _ = _ → _ |- _ => specialize (H ltac:(lia)) end; solve_other].

Lemma other_ticket q h o p x :
  queue_inv q h o → thread_inv q h p → thread_inv (set_tail (tail_ q + 1) q) (h ++ [x]) p.
Proof. intros [] Hp. destruct p; simpl in *; solve_other. Qed.

Lemma other_write q h o p ot x :
  queue_inv q h o → thread_inv q h p → commit_ q <= ot < tail_ q → ticket p ≠ Some ot →
  thread_inv (set_pool (<[Z.to_nat (ot mod pool_size_ q) := x]> (pool_ q)) q) h p.
Proof.
  intros [] Hp Hot Hne. destruct p; simpl in *; try solve_other.
  destruct Hp as (? & ? & ?). split_and?; try done; try lia.
  rewrite list_lookup_insert_ne; [done|].
  apply slot_neq; [lia|congruence|lia].
Qed.

Lemma other_publish q h o p :
  queue_inv q h o → thread_inv q h p → ticket p ≠ Some (commit_ q) →
  thread_inv (set_commit (commit_ q + 1) q) h p.
Proof.
  intros [] Hp Hne.
  assert (∀ ot, ticket p = Some ot → ot ≠ commit_ q) by congruence.
  destruct p as [| | |x ot|x ot| | | | | | | |]; simpl in *;
    try (assert (ot ≠ commit_ q) by auto); solve_other.
Qed.

Lemma other_hand_out q h o p :
  queue_inv q h o → thread_inv q h p → thread_inv (set_head (head_ q + 1) q) h p.
Proof. intros [] Hp. destruct p; simpl in *; solve_other. Qed.

(** The "full" test of line 114 and the read of line 163. *)
Lemma room_check q h o :
  queue_inv q h o → 2 + Z.of_nat (length h) < 2 ^ 64 →
  GetIndex q (u64 (tail_ q + 1)) ≠ GetIndex q (head_ q) →
  tail_ q + 1 - head_ q < pool_size_ q.
Proof.
  intros [] Hr Hne. rewrite u64_small, !GetIndex_mod in Hne by lia.
  destruct (decide (tail_ q + 1 - head_ q = pool_size_ q)) as [E|]; [|lia].
  exfalso. replace (tail_ q + 1) with (head_ q + 1 * pool_size_ q) in Hne by lia.
  rewrite Z.mod_add in Hne by lia. done.
Qed.

Lemma full_check q h o :
  queue_inv q h o → 2 + Z.of_nat (length h) < 2 ^ 64 →
  GetIndex q (u64 (tail_ q + 1)) = GetIndex q (head_ q) →
  tail_ q + 1 - head_ q = pool_size_ q.
Proof.
  intros [] Hr Heq. rewrite u64_small, !GetIndex_mod in Heq by lia.
  replace (tail_ q + 1) with (tail_ q + 1 - pool_size_ q + 1 * pool_size_ q) in Heq by lia.
  rewrite Z.mod_add in Heq by lia.
  apply mod_window_inj in Heq; lia.
Qed.

Lemma read_slot q h o :
  queue_inv q h o → 2 + Z.of_nat (length h) < 2 ^ 64 → head_ q + 1 < commit_ q →
  pool_read q (GetIndex q (u64 (head_ q + 1))) = h !! Z.to_nat (head_ q).
Proof.
  intros [] Hr Hc. unfold pool_read. rewrite u64_small, GetIndex_mod by lia.
  rewrite qi_slots0 by lia. by rewrite Z.add_simpl_r.
Qed.

(** One step of a thread: the queue keeps its invariant, the thread satisfies
    the facts of its new program point, and every other thread that holds a
    different ticket keeps its own. *)
Lemma tstep_preserves b q p q' p' ev h o h' o' :
  queue_inv q h o → thread_inv q h p → 2 + Z.of_nat (length h') < 2 ^ 64 →
  tstep b q p = Some (q', p', ev) → record ev h o = (h', o') →
  queue_inv q' h' o' ∧ thread_inv q' h' p' ∧
  (∀ p2, thread_inv q h p2 → (∀ ot, ticket p = Some ot → ticket p2 ≠ Some ot) →
     thread_inv q' h' p2).
Proof.
  intros Hq Hp Hr Hs Hrec. pose proof Hq as [].
  assert (length h <= length h')%nat by eauto using bq_record_length.
  destruct p; cbn in Hs; split_step Hs; simpl in *; simplify_eq;
    repeat match goal with
    | H : _ && _ = true |- _ => apply andb_true_iff in H as [? ?]
    | H : (_ =? _) = true |- _ => apply Z.eqb_eq in H
    | H : (_ =? _) = false |- _ => apply Z.eqb_neq in H
    end; simplify_eq; destruct_and?.
  - split_and!; try done; lia.
  - (* the queue looked full *) split_and!; [done|by destruct w|done].
  - split_and!; try lia; try done. intros ->. by eapply room_check.
  - (* the ticket is taken *) rewrite length_app in *; simpl in *.
    rewrite u64_small in * by lia. split_and!; try lia.
    + by apply take_ticket; auto.
    + replace (Z.to_nat (tail_ q - 1)) with (length h) by lia. apply lookup_snoc_eq.
    + intros. by eapply other_ticket.
  - split_and!; try done; lia.
  - (* the slot is written *)
    unfold pool_write in *. case_decide; simplify_eq. rewrite GetIndex_mod in * by lia.
    split_and!; simpl; try lia; try done.
    + by apply write_slot.
    + by apply list_lookup_insert_eq.
    + intros. eapply other_write; eauto.
  - (* the slot is published *)
    rewrite u64_small by lia. split_and!; [|done|].
    + apply publish; [done|lia|congruence].
    + intros. eapply other_publish; eauto.
  - done.
  - done.
  - split_and!; try done; lia.
  - split_and!; [done|by destruct w|done].
  - rewrite u64_small in * by lia. split_and!; try done. intros ->. lia.
  - split_and!; try done. intros ->.
    match goal with H : _ = _ → _ |- _ => specialize (H eq_refl) end.
    split; [done|]. by erewrite <- read_slot.
  - (* an element is handed out *)
    rewrite u64_small in * by lia. match goal with H : _ = _ → _ |- _ => destruct (H eq_refl) end.
    split_and!; [by apply hand_out|done|intros; by eapply other_hand_out].
  - split_and!; try done; lia.
  - done.
  - split_and!; [done|by destruct o0|done].
  - done.
  - done.
Qed.

Lemma tstep_ticket b q p q' p' ev ot :
  tstep b q p = Some (q', p', ev) → ticket p' = Some ot →
  ticket p = Some ot ∨ (ticket p = None ∧ ot = tail_ q).
Proof.
  intros Hs Ht. destruct p; cbn in Hs; split_step Hs; simpl in *; simplify_eq; auto.
  - by destruct w.
  - right. split; [done|].
    match goal with H : _ && _ = true |- _ => apply andb_true_iff in H as [_ ?%Z.eqb_eq] end. done.
  - by destruct w.
  - by destruct o.
Qed.

Lemma ticket_bound q h p ot :
  thread_inv q h p → ticket p = Some ot → ot < tail_ q.
Proof. destruct p; simpl; intros; simplify_eq; lia. Qed.

Lemma bq_inv_step l s1 s2 :
  inv s1 → in_range s2 → step l s1 = Some s2 → inv s2.
Proof.
  intros [Hq Hthr Htk] Hr Hs. destruct l as [i w o|i b|i|]; cbn in Hs.
  - destruct (thr s1 !! i) eqn:Hi; simplify_eq. split; simpl; [done| |].
    + eapply map_Forall_insert_mono; [done|by auto|]. by destruct w, o.
    + intros i1 i2 p1 p2 ot. rewrite !lookup_insert.
      repeat case_decide; intros; simplify_eq; eauto;
        destruct w, o; simpl in *; simplify_eq.
  - destruct (thr s1 !! i) as [p|] eqn:Hi; [|done]. simpl in Hs.
    destruct (tstep b (sq s1) p) as [[[q' p'] ev]|] eqn:Ht; [|done]. simpl in Hs.
    destruct (record ev (hist s1) (out s1)) as [h' o'] eqn:Hrec; simplify_eq.
    edestruct tstep_preserves as (Hq' & Hp' & Hother); [done|by eapply Hthr|done|done|done|].
    split; simpl; [done| |].
    + eapply map_Forall_insert_mono; [done| |done]. intros j p2 Hne Hj Hp2. apply Hother; [done|].
      intros ot Hot1 Hot2. apply Hne. eapply Htk; eauto.
    + intros i1 i2 p1 p2 ot. rewrite !lookup_insert.
      assert (∀ j p2, thr s1 !! j = Some p2 → ticket p2 = Some ot → ticket p' = Some ot → j = i) as Hfresh.
      { intros j p2' Hj Hj1 Hj2. destruct (tstep_ticket _ _ _ _ _ _ _ Ht Hj2) as [|[_ ->]]; [by eauto|].
        apply Hthr in Hj. pose proof (ticket_bound _ _ _ _ Hj Hj1). lia. }
      repeat case_decide; intros; simplify_eq; eauto. symmetry; eauto.
  - split_step Hs. split; simpl; [done| |].
    + eapply map_Forall_delete_mono; eauto.
    + intros i1 i2 p1 p2 ot [_ ?]%lookup_delete_Some [_ ?]%lookup_delete_Some. eauto.
  - unfold BreakAllWait in Hs. split_step Hs. split; simpl; [destruct Hq; split; simpl; by eauto| |done].
    eapply map_Forall_impl; [done|]. intros ? p. by destruct p.
Qed.

Lemma bq_reachable_inv s :
  reachable step (initial dflt size strategy) s → in_range s → inv s.
Proof.
  apply (reachable_inv_while step in_range inv).
  - apply bq_initial_inv.
  - eauto using bq_step_in_range.
  - eauto using bq_inv_step.
Qed.

(** No step of a thread touches memory outside the pool or a null strategy. *)
Lemma tstep_defined b q p h o :
  queue_inv q h o → thread_inv q h p → 2 + Z.of_nat (length h) < 2 ^ 64 →
  (∀ ok e, p ≠ PRet ok e) → is_Some (tstep b q p).
Proof.
  intros Hq Hp Hr Hret. pose proof Hq as [? ? [st Hst]].
  destruct p; simpl in *; try (case_match; by eauto); try by eauto.
  - rewrite GetIndex_mod by lia. unfold pool_write.
    rewrite decide_True by (by eapply slot_in_pool). by eauto.
  - rewrite Hst. by eauto.
  - rewrite GetIndex_mod by (rewrite ?u64_small; lia). unfold pool_read.
    destruct (lookup_lt_is_Some_2 (pool_ q)
      (Z.to_nat (u64 (oh + 1) mod pool_size_ q))) as [v ->]; [by eapply slot_in_pool|].
    by eauto.
  - rewrite Hst. simpl. case_match; by eauto.
  - naive_solver.
Qed.

(** ** One thread alone: the queue as a bounded list

    [represents q n l]: no operation is under way, [n] elements were enqueued
    since [Init], and [l] are the elements in the queue, oldest first. *)
Definition represents q (n : nat) (l : list T) : Prop :=
  ∃ h o, queue_inv q h o ∧ commit_ q = tail_ q ∧ n = length h ∧ h = o ++ l.

Lemma represents_size q n l :
  represents q n l → 2 + Z.of_nat n < 2 ^ 64 → Size q = Z.of_nat (length l) ∧ Z.of_nat (length l) <= size.
Proof.
  intros (h & o & [] & Hc & -> & ->) Hr. rewrite length_app in *. unfold Size.
  rewrite !u64_small; rewrite ?u64_small; lia.
Qed.

Lemma represents_enqueue q n l x :
  represents q n l → 2 + Z.of_nat n < 2 ^ 64 →
  if decide (Z.of_nat (length l) < size)
  then ∃ q', Enqueue q x = Some (true, q') ∧ represents q' (S n) (l ++ [x])
  else Enqueue q x = Some (false, q).
Proof.
  intros (h & o & Hq & Hc & -> & Hh) Hr. pose proof Hq as [].
  assert (length h = length o + length l)%nat by (subst h; apply length_app).
  unfold Enqueue. destruct (GetIndex q _ =? GetIndex q _) eqn:Hfull.
  - apply Z.eqb_eq in Hfull. eapply full_check in Hfull; [|done..].
    rewrite decide_False by lia. done.
  - apply Z.eqb_neq in Hfull. eapply room_check in Hfull; [|done..].
    rewrite decide_True by lia. rewrite (u64_small (tail_ q + 1)) by lia.
    unfold pool_write. simpl. rewrite GetIndex_mod by lia.
    rewrite decide_True by (by eapply slot_in_pool). simpl.
    replace (commit_ q =? tail_ q) with true by lia.
    destruct (wait_strategy_ q) as [st|] eqn:Hst; [|by destruct qi_strategy0]. simpl.
    eexists. split; [done|]. exists (h ++ [x]), o. split_and!; simpl; [|done| |].
    + pose proof (take_ticket q h o x Hq Hfull) as Hq1.
      pose proof (write_slot _ _ _ (tail_ q) x Hq1 ltac:(simpl; lia)) as Hq2.
      apply publish in Hq2; simpl in *.
      * by rewrite Hc in Hq2.
      * lia.
      * rewrite Hc. rewrite list_lookup_insert_eq; [|by eapply slot_in_pool].
        replace (Z.to_nat (tail_ q - 1)) with (length h) by lia. by rewrite lookup_snoc_eq.
    + rewrite length_app. simpl. lia.
    + subst h. by rewrite app_assoc.
Qed.

Lemma represents_dequeue q n l :
  represents q n l → 2 + Z.of_nat n < 2 ^ 64 →
  match l with
  | [] => Dequeue q = Some (None, q)
  | x :: l' => ∃ q', Dequeue q = Some (Some x, q') ∧ represents q' n l'
  end.
Proof.
  intros (h & o & Hq & Hc & -> & Hh) Hr. pose proof Hq as [].
  assert (length h = length o + length l)%nat by (subst h; apply length_app).
  unfold Dequeue. destruct l as [|x l']; simpl in *.
  - replace (u64 (head_ q + 1) =? commit_ q) with true; [done|].
    rewrite u64_small by lia. symmetry. apply Z.eqb_eq. lia.
  - replace (u64 (head_ q + 1) =? commit_ q) with false;
      [|rewrite u64_small by lia; symmetry; apply Z.eqb_neq; lia].
    assert (h !! Z.to_nat (head_ q) = Some x) as Hx.
    { rewrite Hh, lookup_app_r by lia.
      by replace (Z.to_nat (head_ q) - length o)%nat with 0%nat by lia. }
    erewrite read_slot by (done || lia). rewrite Hx. simpl. eexists. split; [done|].
    rewrite u64_small by lia. exists h, (o ++ [x]). split_and!; simpl; [|done|done|].
    + apply hand_out; [done|lia|done].
    + by rewrite <- app_assoc.
Qed.

Lemma represents_initial : represents (sq (initial dflt size strategy)) 0 [].
Proof. exists [], []. split_and!; try done. apply bq_initial_inv. Qed.
End invariant.

(** ** Properties *)

(** C1: linearizable FIFO order.  In every interleaving of any number of
  producers and consumers, including spurious failures of
  [compare_exchange_weak], the elements handed out are exactly the first
  elements that obtained a ticket, in ticket order: nothing is lost,
  duplicated or reordered, and no more than [size] elements are held. *)
Theorem bounded_queue_fifo {T} (dflt : T) size strategy (s : state T) :
0 <= size → size + 2 < 2 ^ 64 →
reachable step (initial dflt size strategy) s → in_range s →
out s `prefix_of` hist s ∧
Z.of_nat (length (hist s)) - Z.of_nat (length (out s)) <= size.
Proof.
intros H1 H2 Hreach Hr.
destruct (inv_queue _ _ (bq_reachable_inv dflt size strategy H1 H2 s Hreach Hr)).
split; [|lia]. rewrite qi_fifo0. exists (drop (length (out s)) (hist s)). by rewrite take_drop.
Qed.

(** Memory safety.  A thread inside an operation can always take its next
  step, whichever way the environment chooses: every slot access is inside
  the pool and the wait strategy is never null. *)
Theorem bounded_queue_safe {T} (dflt : T) size strategy (s : state T) i p b :
0 <= size → size + 2 < 2 ^ 64 →
reachable step (initial dflt size strategy) s → in_range s →
thr s !! i = Some p → (∀ ok e, p ≠ PRet ok e) →
is_Some (step (LStep i b) s).
Proof.
intros H1 H2 Hreach Hr Hi Hp.
destruct (bq_reachable_inv dflt size strategy H1 H2 s Hreach Hr) as [Hq Hthr _].
apply Hthr in Hi as Hti. simpl. rewrite Hi. simpl.
destruct (tstep_defined _ H1 b _ _ _ _ Hq Hti Hr Hp) as [[[q' p'] ev] ->].
simpl. destruct (record ev _ _). by eauto.
Qed.

(** [Dequeue] reports "empty" only when every published element has been
  handed out at the moment of its test, and [Enqueue] with an up-to-date
  [old_tail] reports "full" only when [size] tickets are outstanding. *)
Theorem bounded_queue_fail_exact {T} (dflt : T) size strategy (s : state T) i p s' :
0 <= size → size + 2 < 2 ^ 64 →
reachable step (initial dflt size strategy) s → in_range s →
thr s !! i = Some p → step (LStep i false) s = Some s' →
match p with
| PDeqCheck w oh e =>
    thr s' !! i = Some (op_fail w (ODeq e)) → commit_ (sq s) = head_ (sq s) + 1
| PEnqCheck w x ot =>
    ot = tail_ (sq s) → thr s' !! i = Some (op_fail w (OEnq x)) →
    Z.of_nat (length (hist s)) - Z.of_nat (length (out s)) = size
| _ => True
end.
Proof.
intros H1 H2 Hreach Hr Hi Hs.
destruct (bq_reachable_inv dflt size strategy H1 H2 s Hreach Hr) as [Hq Hthr _].
apply Hthr in Hi as Hti. simpl in Hs. rewrite Hi in Hs. simpl in Hs. pose proof Hq as [].
unfold in_range in Hr. destruct p; try done; simpl in *; case_match eqn:E; simplify_eq/=;
  rewrite lookup_insert_eq; try (by destruct w).
- intros -> _. apply Z.eqb_eq in E. eapply full_check in E; [|done..]. lia.
- intros _. apply Z.eqb_eq in E. rewrite u64_small in E by lia. lia.
Qed.

(** The sequential behaviour refines a bounded FIFO list: [Enqueue] succeeds
  exactly below [size] elements, [Dequeue] returns the oldest element, [Size]
  is the number of elements. *)
Theorem bounded_queue_refines_list {T} size (q : t T) n l x :
0 <= size → size + 2 < 2 ^ 64 → represents size q n l → 2 + Z.of_nat n < 2 ^ 64 →
Size q = Z.of_nat (length l) ∧
(if decide (Z.of_nat (length l) < size)
 then ∃ q', Enqueue q x = Some (true, q') ∧ represents size q' (S n) (l ++ [x])
 else Enqueue q x = Some (false, q)) ∧
match l with
| [] => Dequeue q = Some (None, q)
| y :: l' => ∃ q', Dequeue q = Some (Some y, q') ∧ represents size q' n l'
end.
Proof.
intros H1 H2 Hq Hn. split_and!.
- by eapply represents_size.
- by apply represents_enqueue.
- by apply represents_dequeue.
Qed.

(** ** Concrete runs *)

(** Two producers race for the tickets: thread 1 wins, thread 0 loses its first
  [compare_exchange], both fill and publish, and thread 2 dequeues. *)
Definition demo_trace : list (label nat) :=
[LCall 0 false (OEnq 7%nat); LCall 1 false (OEnq 8%nat); LStep 0 false; LStep 1 false;
 LStep 0 false; LStep 1 false; LStep 1 false; LStep 0 false; LStep 0 false; LStep 0 false;
 LStep 0 false; LStep 1 false; LStep 0 false; LStep 1 false; LStep 0 false; LStep 1 false;
 LCall 2 false (ODeq None); LStep 2 false; LStep 2 false; LStep 2 false; LStep 2 true;
 LStep 2 false; LStep 2 false; LStep 2 false].

Lemma bounded_queue_fifo_witness :
∃ s, run step demo_trace (initial 0%nat 2 WaitStrategy.BusySpinWaitStrategy) = Some s ∧
  out s = [8%nat] ∧ hist s = [8%nat; 7%nat] ∧
  (out s `prefix_of` hist s ∧ Z.of_nat (length (hist s)) - Z.of_nat (length (out s)) <= 2).
Proof.
eexists. split; [vm_compute; reflexivity|]. split; [reflexivity|]. split; [reflexivity|].
apply (bounded_queue_fifo 0%nat 2 WaitStrategy.BusySpinWaitStrategy); [lia|lia| |vm_compute; reflexivity].
apply (run_reachable step _ demo_trace). vm_compute. reflexivity.
Defined.

Lemma bounded_queue_safe_witness :
∃ s, run step (take 10 demo_trace) (initial 0%nat 2 WaitStrategy.BusySpinWaitStrategy) = Some s ∧
  is_Some (step (LStep 0 false) s).
Proof.
eexists. split; [vm_compute; reflexivity|].
apply (bounded_queue_safe 0%nat 2 WaitStrategy.BusySpinWaitStrategy _ 0 (PEnqWrite 7%nat 2));
  [lia|lia| |vm_compute; reflexivity|vm_compute; reflexivity|discriminate].
apply (run_reachable step _ (take 10 demo_trace)). vm_compute. reflexivity.
Defined.

Lemma bounded_queue_fail_exact_witness :
∃ s s', run step [LCall 0 false (ODeq None); LStep 0 false]
    (initial 0%nat 2 WaitStrategy.BusySpinWaitStrategy) = Some s ∧
  step (LStep 0 false) s = Some s' ∧
  (thr s' !! 0%nat = Some (op_fail false (ODeq None)) → commit_ (sq s) = head_ (sq s) + 1).
Proof.
eexists. eexists. split; [vm_compute; reflexivity|]. split; [vm_compute; reflexivity|].
apply (bounded_queue_fail_exact 0%nat 2 WaitStrategy.BusySpinWaitStrategy _ 0
         (PDeqCheck false 0 None));
  [lia|lia| |vm_compute; reflexivity|vm_compute; reflexivity|vm_compute; reflexivity].
apply (run_reachable step _ [LCall 0 false (ODeq None); LStep 0 false]). vm_compute. reflexivity.
Defined.

Lemma bounded_queue_refines_list_witness :
Size (sq (initial 0%nat 2 WaitStrategy.BusySpinWaitStrategy)) = 0 ∧
Enqueue (sq (initial 0%nat 2 WaitStrategy.BusySpinWaitStrategy)) 5%nat ≠ None.
Proof.
destruct (bounded_queue_refines_list 2
  (sq (initial 0%nat 2 WaitStrategy.BusySpinWaitStrategy)) 0 [] 5%nat) as (H1 & H2 & _).
- lia.
- lia.
- apply represents_initial; lia.
- vm_compute; reflexivity.
- split; [exact H1|]. destruct H2 as (q' & -> & _). discriminate.
Defined.

(** A producer whose [old_tail] is stale can be told that the queue is full while
  the queue is empty: thread 0 loads [tail_ = 1]; thread 1 enqueues and
  dequeues two elements, so [head_ = 2]; the test of thread 0 compares the
  slots of [1 + 1] and [2]. *)
Definition spurious_full_trace : list (label nat) :=
let enq := LCall 1 false (OEnq 9%nat) :: replicate 6 (LStep 1 false) ++ [LRet 1] in
let deq := LCall 1 false (ODeq None) :: replicate 4 (LStep 1 false) ++ [LRet 1] in
[LCall 0 false (OEnq 7%nat); LStep 0 false] ++ enq ++ deq ++ enq ++ deq ++ [LStep 0 false].

(** [Enqueue] may return false on an empty queue (stale [old_tail]). *)
Theorem enqueue_spuriously_full :
∃ s, run step spurious_full_trace (initial 0%nat 5 WaitStrategy.BusySpinWaitStrategy) = Some s ∧
  thr s !! 0%nat = Some (PRet false None) ∧ hist s = out s ∧ Size (sq s) = 0.
Proof. eexists. split; [vm_compute; reflexivity|]. split_and!; vm_compute; reflexivity. Qed.
End BoundedQueue.
