(* ===== verification/RWLock.v ===== *)
(** * Reader-writer locks ([cyber/base/atomic_rw_lock.h],
    [cyber/base/reentrant_rw_lock.h], [cyber/base/rw_lock_guard.h])

    Both locks are spin locks over one signed 32-bit counter: [0] free, [n > 0]
    held by [n] readers, [-1] (and, for the reentrant lock, [-k]) held by a
    writer.  Each is a machine in which every atomic access is a step, any
    number of threads interleave and [compare_exchange_weak] may fail spuriously
    (the boolean of a step).  The guards of [rw_lock_guard.h] appear as the
    discipline of the labels: a thread unlocks what it holds. *)

From S2P Require Import Prelude.

Local Open Scope Z_scope.

Definition RW_LOCK_FREE : Z := 0.
Definition WRITE_EXCLUSIVE : Z := -1.
Definition MAX_RETRY_TIMES : Z := 5.

(** [if (++retry_times == MAX_RETRY_TIMES) { yield(); retry_times = 0; }] *)
Definition next_retry (retry_times : Z) : Z :=
  let r := u32 (retry_times + 1) in if r =? MAX_RETRY_TIMES then 0 else r.

Module AtomicRWLock.
(** The fields of [AtomicRWLock]. *)
Record t := mk {
  write_lock_wait_num_ : Z;
  lock_num_ : Z;
  write_first_ : bool;
}.

Definition AtomicRWLock (write_first : bool) : t := mk 0 0 write_first.

(** Program points of a thread; [rt] is [retry_times], [n] the local
    [lock_num]. *)
Inductive pc :=
| Idle
| RLoad
| RTest (rt n : Z)
| RReload (rt : Z)
| RCas (rt n : Z)
| Reading
| WInc
| WCas (rt : Z)
| WDec
| Writing.

Definition tstep (b : bool) (k : t) (p : pc) : option (t * pc) :=
  match p with
  | Idle => None
  (* ReadLock *)
  | RLoad => Some (k, RTest 0 (lock_num_ k))
  | RTest rt n =>
      if (n <? RW_LOCK_FREE) || (write_first_ k && (0 <? write_lock_wait_num_ k))
      then Some (k, RReload (next_retry rt)) else Some (k, RCas rt n)
  | RReload rt => Some (k, RTest rt (lock_num_ k))
  | RCas rt n =>
      if negb b && (lock_num_ k =? n)
      then Some (mk (write_lock_wait_num_ k) (i32 (n + 1)) (write_first_ k), Reading)
      else Some (k, RTest rt (lock_num_ k))
  (* ReadUnlock *)
  | Reading => Some (mk (write_lock_wait_num_ k) (i32 (lock_num_ k - 1)) (write_first_ k), Idle)
  (* WriteLock *)
  | WInc =>
      Some (mk (u32 (write_lock_wait_num_ k + 1)) (lock_num_ k) (write_first_ k), WCas 0)
  | WCas rt =>
      if negb b && (lock_num_ k =? RW_LOCK_FREE)
      then Some (mk (write_lock_wait_num_ k) WRITE_EXCLUSIVE (write_first_ k), WDec)
      else Some (k, WCas (next_retry rt))
  | WDec =>
      Some (mk (u32 (write_lock_wait_num_ k - 1)) (lock_num_ k) (write_first_ k), Writing)
  (* WriteUnlock *)
  | Writing => Some (mk (write_lock_wait_num_ k) (i32 (lock_num_ k + 1)) (write_first_ k), Idle)
  end.

Record state := mkst { lk : t; thr : list pc }.

(** A step of thread [i] in the current operation ([b]: spurious failure), or the
    construction of a read or write guard by an idle thread. *)
Inductive label := LStep (i : nat) (b : bool) | LRead (i : nat) | LWrite (i : nat).

Definition step (l : label) (s : state) : option state :=
  match l with
  | LStep i b =>
      p ← thr s !! i; '(k', p') ← tstep b (lk s) p; Some (mkst k' (<[i := p']> (thr s)))
  | LRead i =>
      match thr s !! i with
      | Some Idle => Some (mkst (lk s) (<[i := RLoad]> (thr s))) | _ => None end
  | LWrite i =>
      match thr s !! i with
      | Some Idle => Some (mkst (lk s) (<[i := WInc]> (thr s))) | _ => None end
  end.

Definition initial (write_first : bool) (n : nat) : state :=
  mkst (AtomicRWLock write_first) (replicate n Idle).

(** Who is inside. *)
Definition reads (p : pc) : bool := match p with Reading => true | _ => false end.
Definition writes (p : pc) : bool := match p with WDec | Writing => true | _ => false end.
Definition waits (p : pc) : bool := match p with WCas _ | WDec => true | _ => false end.

(** The counter tells exactly who holds the lock, the other counter how many
    writers are between their two updates of it. *)
Record inv (n : nat) (s : state) : Prop := {
  li_len : length (thr s) = n;
  li_writer : countb writes (thr s) <= 1;
  li_lock : lock_num_ (lk s) = countb reads (thr s) - countb writes (thr s);
  li_excl : countb writes (thr s) = 1 → countb reads (thr s) = 0;
  li_wait : write_lock_wait_num_ (lk s) = countb waits (thr s);
  li_cas : ∀ i rt m, thr s !! i = Some (RCas rt m) → 0 <= m;
}.

Lemma rwlock_initial_inv wf n : inv n (initial wf n).
Proof.
  split; simpl; rewrite ?length_replicate, ?countb_replicate by done; try done; try lia.
  by intros ??? [? _]%lookup_replicate.
Qed.

Lemma rwlock_inv_step n l s1 s2 :
  Z.of_nat n < 2 ^ 31 - 1 → inv n s1 → step l s1 = Some s2 → inv n s2.
Proof.
  intros Hn [Hlen Hw Hl Hx Hwt Hc] Hs.
  pose proof (countb_bounds reads (thr s1)). pose proof (countb_bounds writes (thr s1)).
  pose proof (countb_bounds waits (thr s1)).
  destruct l as [i b|i|i]; cbn in Hs.
  1: destruct (thr s1 !! i) as [p|] eqn:Hi; [|done]; simpl in Hs;
     destruct p; cbn in Hs.
all: split_step Hs; cbn in *.
all: repeat match goal with
    | H : _ && _ = true |- _ => apply andb_true_iff in H as [? ?%Z.eqb_eq]
    end.
all: match goal with H : thr _ !! _ = Some _ |- _ =>
      pose proof (countb_lookup reads _ _ _ H); pose proof (countb_lookup writes _ _ _ H);
      pose proof (countb_lookup waits _ _ _ H);
      try pose proof (Hc _ _ _ H);
      split; cbn; rewrite ?length_insert, ?(countb_insert _ _ _ _ _ H); cbn in * end.
all: unfold RW_LOCK_FREE, WRITE_EXCLUSIVE in *.
all: try done; try lia.
all: try (rewrite i32_small by lia; lia).
all: try (rewrite u32_small by lia; lia).
all: intros j ? ?; rewrite list_lookup_insert; case_decide; intros; simplify_eq; eauto.
all: match goal with H : _ || _ = false |- _ => apply orb_false_iff in H as [? _] end; lia.
Qed.

Lemma rwlock_reachable_inv wf n s :
  Z.of_nat n < 2 ^ 31 - 1 → reachable step (initial wf n) s → inv n s.
Proof.
  intros Hn. apply reachable_inv; [apply rwlock_initial_inv|eauto using rwlock_inv_step].
Qed.

(** [k] undisturbed steps of one thread. *)
Fixpoint solo (k : nat) (lk : t) (p : pc) : option (t * pc) :=
  match k with
  | O => Some (lk, p)
  | S k' => '(lk', p') ← tstep false lk p; solo k' lk' p'
  end.

Lemma run_solo k s i p lk' p' :
  thr s !! i = Some p → solo k (lk s) p = Some (lk', p') →
  run step (replicate k (LStep i false)) s = Some (mkst lk' (<[i := p']> (thr s))).
Proof.
  revert s p. induction k as [|k IH]; intros s p Hi Hk; simpl in *.
  - simplify_eq. rewrite list_insert_id by done. by destruct s.
  - rewrite Hi. simpl. destruct (tstep false (lk s) p) as [[lk1 p1]|] eqn:E; [|done].
    simpl in *. erewrite IH; [|by apply list_lookup_insert_eq; eapply lookup_lt_Some|done].
    simpl. by rewrite list_insert_insert_eq.
Qed.

(** The phase a thread is in is finished when it holds what it asked for, or has
    given back what it held. *)
Definition finished (p p' : pc) : Prop :=
  match p with
  | Idle => False
  | Reading | Writing => p' = Idle
  | RLoad | RTest _ _ | RReload _ | RCas _ _ => p' = Reading
  | WInc | WCas _ | WDec => p' = Writing
  end.

Definition busy (p : pc) : bool := match p with Idle => false | _ => true end.
Definition wants_write (p : pc) : bool :=
  match p with WInc | WCas _ => true | _ => false end.

(** With nobody inside and no writer waiting, a reader gets in within five steps;
    with nobody inside a writer does within three. *)
Lemma solo_reader lk p :
  lock_num_ lk = 0 → write_lock_wait_num_ lk = 0 →
  match p with RLoad | RTest _ _ | RReload _ => True | RCas _ n => 0 <= n | _ => False end →
  ∃ k lk', solo k lk p = Some (lk', Reading).
Proof.
  intros Hl Hw Hp.
  assert (∀ rt, ∃ lk', solo 2 lk (RTest rt 0) = Some (lk', Reading)) as Ht.
  { intros rt. simpl. rewrite Hw, andb_false_r. simpl. rewrite Hl. by eexists. }
  assert (∀ rt, ∃ lk', solo 3 lk (RReload rt) = Some (lk', Reading)) as Hr.
  { intros rt. destruct (Ht rt) as [lk' E]. exists lk'. simpl. simpl in E. by rewrite Hl. }
  assert (∀ rt n, ∃ k lk', solo k lk (RCas rt n) = Some (lk', Reading)) as Hc.
  { intros rt n. destruct (decide (n = 0)) as [->|Hn].
    - exists 1%nat. simpl. rewrite Hl. simpl. by eexists.
    - exists 3%nat. destruct (Ht rt) as [lk' E]. exists lk'. simpl. rewrite Hl.
      replace (0 =? n) with false by lia. simpl. apply E. }
  destruct p; try done.
  - destruct (Ht 0) as [lk' E]. exists 3%nat, lk'. simpl. rewrite Hl. apply E.
  - destruct (n <? 0) eqn:Hn.
    + destruct (Hr (next_retry rt)) as [lk' E]. exists 4%nat, lk'. simpl.
      unfold RW_LOCK_FREE. rewrite Hn. apply E.
    + destruct (Hc rt n) as (k & lk' & E). exists (S k), lk'. simpl.
      unfold RW_LOCK_FREE. rewrite Hn, Hw. simpl. rewrite andb_false_r. apply E.
  - destruct (Hr rt) as [lk' E]. by exists 3%nat, lk'.
Qed.

Lemma solo_writer lk p :
  lock_num_ lk = 0 → wants_write p = true → ∃ k lk', solo k lk p = Some (lk', Writing).
Proof.
  intros Hl Hp. destruct p; try done.
  - exists 3%nat. simpl. rewrite Hl. simpl. by eexists.
  - exists 2%nat. simpl. rewrite Hl. simpl. by eexists.
Qed.

Lemma rwlock_progress n s :
  inv n s → countb busy (thr s) ≠ 0 →
  ∃ i p k lk' p', thr s !! i = Some p ∧ solo k (lk s) p = Some (lk', p') ∧ finished p p'.
Proof.
  intros [Hlen Hw Hl Hx Hwt Hc] Hb.
  destruct (decide (countb reads (thr s) = 0)) as [Hr0|Hr].
  2: { apply countb_exists in Hr as (i & p & Hi & Hp). destruct p; try done.
       exists i, Reading, 1%nat. simpl. by do 2 eexists. }
  destruct (decide (countb writes (thr s) = 0)) as [Hw0|Hw1].
  2: { apply countb_exists in Hw1 as (i & p & Hi & Hp).
       exists i, p, 1%nat. destruct p; try done; simpl; by do 2 eexists. }
  destruct (decide (countb wants_write (thr s) = 0)) as [Hww|Hww].
  - apply countb_exists in Hb as (i & p & Hi & Hp).
    assert (write_lock_wait_num_ (lk s) = 0) as Hz.
    { rewrite Hwt. destruct (decide (countb waits (thr s) = 0)) as [|Hne]; [done|].
      apply countb_exists in Hne as (j & q & Hj & Hq).
      pose proof (countb_none _ _ _ _ Hww Hj). pose proof (countb_none _ _ _ _ Hw0 Hj).
      by destruct q. }
    pose proof (countb_none _ _ _ _ Hww Hi). pose proof (countb_none _ _ _ _ Hw0 Hi).
    pose proof (countb_none _ _ _ _ Hr0 Hi).
    destruct (solo_reader (lk s) p) as (k & lk' & E); [lia|done|destruct p; try done; eauto|].
    exists i, p, k, lk', Reading. by destruct p.
  - apply countb_exists in Hww as (i & p & Hi & Hp).
    destruct (solo_writer (lk s) p) as (k & lk' & E); [lia|done|].
    exists i, p, k, lk', Writing. by destruct p.
Qed.

(** C2: mutual exclusion.  While a thread is between winning the counter in
    [WriteLock] and [WriteUnlock], no other thread holds the lock for reading or
    writing; the counter always says who is inside. *)
Theorem atomic_rwlock_exclusion wf n s i j p q :
  Z.of_nat n < 2 ^ 31 - 1 → reachable step (initial wf n) s →
  thr s !! i = Some p → writes p = true → thr s !! j = Some q → i ≠ j →
  reads q = false ∧ writes q = false ∧ lock_num_ (lk s) = WRITE_EXCLUSIVE.
Proof.
  intros Hn Hs Hi Hp Hj Hne. destruct (rwlock_reachable_inv wf n s Hn Hs).
  pose proof (countb_lookup _ _ _ _ Hi Hp). split_and!.
  - eapply countb_none; [|done]. lia.
  - destruct (writes q) eqn:E; [|done].
    pose proof (countb_lookup_two _ _ _ _ _ _ Hi Hj Hp E Hne). lia.
  - unfold WRITE_EXCLUSIVE. lia.
Qed.

(** Deadlock freedom.  Whenever some thread is inside an operation or holds
    the lock, some thread can finish what it is doing by its own steps. *)
Theorem atomic_rwlock_deadlock_free wf n s i p :
  Z.of_nat n < 2 ^ 31 - 1 → reachable step (initial wf n) s →
  thr s !! i = Some p → p ≠ Idle →
  ∃ j q k s', thr s !! j = Some q ∧ run step (replicate k (LStep j false)) s = Some s' ∧
    ∃ q', thr s' !! j = Some q' ∧ finished q q'.
Proof.
  intros Hn Hs Hi Hp. destruct (rwlock_progress n s) as (j & q & k & lk' & q' & Hj & Hk & Hf).
  - by eapply rwlock_reachable_inv.
  - assert (busy p = true) as Hb by (by destruct p). pose proof (countb_lookup _ _ _ _ Hi Hb). lia.
  - exists j, q, k. eexists. split_and!; [done|by eapply run_solo|].
    exists q'. split; [|done]. simpl. apply list_lookup_insert_eq. by eapply lookup_lt_Some.
Qed.

(** A write-first lock lets a reader past its test only when no writer is
    between announcing itself and owning the lock. *)
Theorem atomic_rwlock_write_first n s i rt m s' j q :
  Z.of_nat n < 2 ^ 31 - 1 → reachable step (initial true n) s →
  thr s !! i = Some (RTest rt m) → step (LStep i false) s = Some s' →
  thr s' !! i = Some (RCas rt m) → thr s !! j = Some q → waits q = false.
Proof.
  intros Hn Hs Hi Hstep Hi' Hj. destruct (rwlock_reachable_inv _ _ _ Hn Hs).
  assert (write_first_ (lk s) = true) as Hwf.
  { revert Hs. apply (reachable_inv step (λ s, write_first_ (lk s) = true)); [done|].
    intros l s1 s2 H1 H2.
    destruct l as [i0 b| |]; cbn in H2; split_step H2; cbn; try done.
    destruct p; cbn in *; repeat case_match; simplify_eq/=; done. }
  cbn in Hstep. rewrite Hi in Hstep. cbn in Hstep. rewrite Hwf in Hstep.
  eapply countb_none; [|done]. rewrite <- li_wait0.
  pose proof (countb_bounds waits (thr s)).
  destruct (0 <? write_lock_wait_num_ (lk s)) eqn:E; [|lia].
  cbn in Hstep. rewrite orb_true_r in Hstep. cbn in Hstep. simplify_eq. simpl in Hi'.
  rewrite list_lookup_insert_eq in Hi' by (by eapply lookup_lt_Some). done.
Qed.

Definition demo_trace : list label :=
  [LWrite 0; LRead 1; LStep 0 false; LStep 1 false; LStep 0 true; LStep 0 false].

Lemma atomic_rwlock_exclusion_witness :
  ∃ s, run step demo_trace (initial true 2) = Some s ∧
    (reads (RTest 0 0) = false ∧ writes (RTest 0 0) = false ∧ lock_num_ (lk s) = WRITE_EXCLUSIVE).
Proof.
  eexists. split; [vm_compute; reflexivity|].
  apply (atomic_rwlock_exclusion true 2 _ 0 1 WDec (RTest 0 0)).
  - lia.
  - apply (run_reachable step _ demo_trace). vm_compute. reflexivity.
  - reflexivity.
  - reflexivity.
  - reflexivity.
  - discriminate.
Defined.

Lemma atomic_rwlock_deadlock_free_witness :
  ∃ s, run step demo_trace (initial true 2) = Some s ∧
  ∃ j q k s', thr s !! j = Some q ∧ run step (replicate k (LStep j false)) s = Some s' ∧
    ∃ q', thr s' !! j = Some q' ∧ finished q q'.
Proof.
  eexists. split; [vm_compute; reflexivity|].
  apply (atomic_rwlock_deadlock_free true 2 _ 0 WDec).
  - lia.
  - apply (run_reachable step _ demo_trace). vm_compute. reflexivity.
  - reflexivity.
  - discriminate.
Defined.

Lemma atomic_rwlock_write_first_witness :
  ∃ s, run step [LRead 0; LStep 0 false] (initial true 2) = Some s ∧ waits Idle = false.
Proof.
  eexists. split; [vm_compute; reflexivity|].
  eapply (atomic_rwlock_write_first 2 _ 0 0 0 _ 1 Idle).
  - lia.
  - apply (run_reachable step _ [LRead 0; LStep 0 false]). vm_compute. reflexivity.
  - vm_compute. reflexivity.
  - vm_compute. reflexivity.
  - vm_compute. reflexivity.
  - vm_compute. reflexivity.
Defined.
End AtomicRWLock.

(** ** The reentrant lock *)
Module ReentrantRWLock.
(** The fields of [ReentrantRWLock]; [write_thread_id_ = None] is
    [NULL_THREAD_ID].  [write_thread_id_] is not atomic in the source: its reads
    and writes are steps of their own. *)
Record t := mk {
  write_thread_id_ : option nat;
  write_lock_wait_num_ : Z;
  lock_num_ : Z;
  write_first_ : bool;
}.

Definition ReentrantRWLock (write_first : bool) : t := mk None 0 0 write_first.

Definition set_id (i : option nat) (k : t) : t :=
  mk i (write_lock_wait_num_ k) (lock_num_ k) (write_first_ k).
Definition set_wait (w : Z) (k : t) : t :=
  mk (write_thread_id_ k) w (lock_num_ k) (write_first_ k).
Definition set_lock (n : Z) (k : t) : t :=
  mk (write_thread_id_ k) (write_lock_wait_num_ k) n (write_first_ k).

(** The guards a thread has on its stack. *)
Inductive mode := MRead | MWrite.

Inductive pc :=
| Idle
| RStart | RLoad | RTest (rt n : Z) | RReload (rt : Z) | RCas (rt n : Z)
| WStart | WNest | WInc | WCas (rt : Z) | WSetId | WDec
| RUStart | RUSub
| WUAdd | WUClear.

(** The next program point, with what happens to the stack of guards. *)
Inductive outcome := Goto (p : pc) | Got (m : mode) | GaveBack.

Definition is_self (k : t) (self : nat) : bool := bool_decide (write_thread_id_ k = Some self).

Definition tstep (b : bool) (self : nat) (k : t) (p : pc) : option (t * outcome) :=
  match p with
  | Idle => None
  (* ReadLock *)
  | RStart => Some (k, if is_self k self then Got MRead else Goto RLoad)
  | RLoad => Some (k, Goto (RTest 0 (lock_num_ k)))
  | RTest rt n =>
      if (n <? RW_LOCK_FREE) || (write_first_ k && (0 <? write_lock_wait_num_ k))
      then Some (k, Goto (RReload (next_retry rt))) else Some (k, Goto (RCas rt n))
  | RReload rt => Some (k, Goto (RTest rt (lock_num_ k)))
  | RCas rt n =>
      if negb b && (lock_num_ k =? n) then Some (set_lock (i32 (n + 1)) k, Got MRead)
      else Some (k, Goto (RTest rt (lock_num_ k)))
  (* WriteLock *)
  | WStart => Some (k, Goto (if is_self k self then WNest else WInc))
  | WNest => Some (set_lock (i32 (lock_num_ k - 1)) k, Got MWrite)
  | WInc => Some (set_wait (u32 (write_lock_wait_num_ k + 1)) k, Goto (WCas 0))
  | WCas rt =>
      if negb b && (lock_num_ k =? RW_LOCK_FREE)
      then Some (set_lock WRITE_EXCLUSIVE k, Goto WSetId)
      else Some (k, Goto (WCas (next_retry rt)))
  | WSetId => Some (set_id (Some self) k, Goto WDec)
  | WDec => Some (set_wait (u32 (write_lock_wait_num_ k - 1)) k, Got MWrite)
  (* ReadUnlock *)
  | RUStart => Some (k, if is_self k self then GaveBack else Goto RUSub)
  | RUSub => Some (set_lock (i32 (lock_num_ k - 1)) k, GaveBack)
  (* WriteUnlock *)
  | WUAdd =>
      Some (set_lock (i32 (lock_num_ k + 1)) k,
            if lock_num_ k =? WRITE_EXCLUSIVE then Goto WUClear else GaveBack)
  | WUClear => Some (set_id None k, GaveBack)
  end.

(** A thread: its program point and its stack of guards (innermost first). *)
Record thread := mkthr { at_ : pc; held : list mode }.
Record state := mkst { lk : t; thr : list thread }.

(** [LLock i m] builds a guard, [LUnlock i] destroys the innermost one. *)
Inductive label := LStep (i : nat) (b : bool) | LLock (i : nat) (m : mode) | LUnlock (i : nat).

Definition apply_outcome (o : outcome) (th : thread) : thread :=
  match o with
  | Goto p => mkthr p (held th)
  | Got m => mkthr Idle (m :: held th)
  | GaveBack => mkthr Idle (tail (held th))
  end.

Definition step (l : label) (s : state) : option state :=
  match l with
  | LStep i b =>
      th ← thr s !! i; '(k', o) ← tstep b i (lk s) (at_ th);
      Some (mkst k' (<[i := apply_outcome o th]> (thr s)))
  | LLock i m =>
      match thr s !! i with
      | Some (mkthr Idle h) =>
          Some (mkst (lk s)
            (<[i := mkthr (match m with MRead => RStart | MWrite => WStart end) h]> (thr s)))
      | _ => None
      end
  | LUnlock i =>
      match thr s !! i with
      | Some (mkthr Idle (m :: h)) =>
          Some (mkst (lk s)
            (<[i := mkthr (match m with MRead => RUStart | MWrite => WUAdd end) (m :: h)]> (thr s)))
      | _ => None
      end
  end.

Definition initial (write_first : bool) (n : nat) : state :=
  mkst (ReentrantRWLock write_first) (replicate n (mkthr Idle [])).

Definition steps (i k : nat) : list label := replicate k (LStep i false).

(** [WriteUnlock] releases the counter before it clears [write_thread_id_].
    Thread 0 unlocks but has not yet cleared the id; thread 1 takes the write
    lock, records its id and takes a nested read lock, which is free for the
    writer; thread 0 then clears the id of thread 1; thread 1 gives both locks
    back. *)
Definition lost_id_trace : list label :=
  LLock 0 MWrite :: steps 0 5 ++ LUnlock 0 :: steps 0 1 ++
  LLock 1 MWrite :: steps 1 5 ++ LLock 1 MRead :: steps 1 1 ++
  steps 0 1 ++
  LUnlock 1 :: steps 1 2 ++ LUnlock 1 :: steps 1 1.

(** What is left behind: nobody holds or is acquiring the lock, and the counter
    is negative. *)
Definition outside (th : thread) : Prop :=
  held th = [] ∧
  match at_ th with
  | RCas _ n => 0 <= n
  | WSetId | WDec | WNest | RUStart | RUSub | WUAdd | WUClear => False
  | _ => True
  end.
Definition dead (s : state) : Prop :=
  lock_num_ (lk s) < 0 ∧ write_thread_id_ (lk s) = None ∧ Forall outside (thr s).

Lemma dead_step l s s' : dead s → step l s = Some s' → dead s'.
Proof.
  intros (Hneg & Hid & Hthr) Hs.
  assert (∀ i th, thr s !! i = Some th → outside th) as Hget
    by (intros; by eapply Forall_lookup_1).
  assert (∀ i, is_self (lk s) i = false) as Hself.
  { intros i. unfold is_self. by rewrite Hid. }
  destruct l as [i b|i m|i]; cbn in Hs.
  - destruct (thr s !! i) as [[p h]|] eqn:Hi; [|done]. simpl in Hs.
    destruct (Hget _ _ Hi) as [Hh Hp]. simpl in Hh, Hp. subst h.
    destruct p; cbn in Hs; rewrite ?Hself in Hs; split_step Hs; try done;
      try (match goal with H : _ && _ = true |- _ => apply andb_true_iff in H as [? ?%Z.eqb_eq] end;
           unfold RW_LOCK_FREE in *; lia).
    all: split_and!; cbn; try done; (apply Forall_insert; [done|]); split; try done.
    simpl. match goal with H : _ || _ = false |- _ => apply orb_false_iff in H as [? _] end.
    unfold RW_LOCK_FREE in *. lia.
  - destruct (thr s !! i) as [[[] h]|] eqn:Hi; try done. simplify_eq.
    destruct (Hget _ _ Hi) as [Hh _]. simpl in Hh. subst h.
    split_and!; cbn; try done. apply Forall_insert; [done|]. by destruct m.
  - destruct (thr s !! i) as [[[] [|m h]]|] eqn:Hi; try done.
    destruct (Hget _ _ Hi) as [Hh _]. done.
Qed.

(** The lock can be lost for ever.  The hand-over race of [WriteUnlock] reaches a
    state in which no thread holds the lock, and from which no thread ever
    acquires it again, whatever the threads do. *)
Theorem reentrant_rwlock_can_die :
  ∃ s, run step lost_id_trace (initial true 2) = Some s ∧ lock_num_ (lk s) = -1 ∧
    thr s = [mkthr Idle []; mkthr Idle []] ∧
    ∀ s', reachable step s s' → Forall (λ th, held th = []) (thr s').
Proof.
  eexists. split; [vm_compute; reflexivity|]. split; [reflexivity|]. split; [reflexivity|].
  intros s' Hs'.
  assert (dead s') as (_ & _ & Hthr).
  { revert Hs'. apply (reachable_inv step dead); [|eauto using dead_step].
    split_and!; [done|done|]. by repeat constructor. }
  eapply Forall_impl; [exact Hthr|]. by intros th [? _].
Qed.
End ReentrantRWLock.
