(* ===== verification/ObjectPool.v ===== *)
(** * Object pools ([cyber/base/concurrent_object_pool.h],
    [cyber/base/object_pool.h])

    A pool is an arena of nodes threaded on a free list.  [CCObjectPool] pops and
    pushes with [compare_exchange_weak] on a head that carries a modification
    counter against the ABA problem; it is modelled as a machine in which every
    access to the head or to a [next] field is one step.  [ObjectPool] is the
    single-threaded variant.  A node is its index in the arena.  The objects live
    in the nodes; constructing and destroying them happens in memory owned by the
    caller and is not part of the state. *)

From S2P Require Import Prelude.

Local Open Scope Z_scope.

Module CCObjectPool.
(** [struct Head]. *)
Record Head := mkHead { count : Z; net : Z; node : option nat }.
#[global] Instance Head_eq_dec : EqDecision Head.
Proof. solve_decision. Defined.

(** [free_head_], the [next] fields of [node_arena_] and [capacity_]. *)
Record t := mk { free_head_ : Head; next_ : list (option nat); capacity_ : Z }.

(** [CCObjectPool(size)]; [None] for size 0, where the loop bound
    [capacity_ - 1] wraps around and the constructor writes outside the arena. *)
Definition CCObjectPool (size : Z) : option t :=
  if size =? 0 then None
  else Some (mk (mkHead 0 0 (Some 0%nat))
    ((Some <$> seq 1 (Z.to_nat (size - 1))) ++ [None]) size).

(** [size()]: the conversion of [net] to 32 bits. *)
Definition size (p : t) : Z := u32 (net (free_head_ p)).

(** Program points.  [fresh] tells [ConstructObject] from [GetObject]. *)
Inductive pc :=
| Idle
| GetLoad (fresh : bool)
| GetTest (fresh : bool) (old : Head)
| GetCas (fresh : bool) (old : Head) (n : nat) (nxt : option nat)
| RelLoad (n : nat)
| RelSet (n : nat) (old : Head)
| RelCas (n : nat) (old : Head).

(** What a step reports: a node handed out, or a null [shared_ptr]. *)
Inductive event := EvGot (fresh : bool) (n : nat) | EvNull | EvReleased (n : nat).

Definition set_head (h : Head) (p : t) : t := mk h (next_ p) (capacity_ p).

(** One step of [FindFreeHead] (with [GetObject], [ConstructObject]) or of
    [ReleaseObject]; [None]: an access outside the arena. *)
Definition tstep (b : bool) (p : t) (c : pc) : option (t * pc * option event) :=
  match c with
  | Idle => None
  | GetLoad f => Some (p, GetTest f (free_head_ p), None)
  | GetTest f old =>
      match node old with
      | None => Some (p, Idle, Some EvNull)
      | Some n => nxt ← next_ p !! n; Some (p, GetCas f old n nxt, None)
      end
  | GetCas f old n nxt =>
      if negb b && bool_decide (free_head_ p = old)
      then Some (set_head (mkHead (u64 (count old + 1)) (i64 (net old + 1)) nxt) p, Idle,
                 Some (EvGot f n))
      else Some (p, GetTest f (free_head_ p), None)
  | RelLoad n => Some (p, RelSet n (free_head_ p), None)
  | RelSet n old =>
      if decide (n < length (next_ p))%nat
      then Some (mk (free_head_ p) (<[n := node old]> (next_ p)) (capacity_ p), RelCas n old, None)
      else None
  | RelCas n old =>
      if negb b && bool_decide (free_head_ p = old)
      then Some (set_head (mkHead (u64 (count old + 1)) (i64 (net old - 1)) (Some n)) p, Idle,
                 Some (EvReleased n))
      else Some (p, RelSet n (free_head_ p), None)
  end.

(** Ghost state: the nodes the clients own, and the number of successful
    exchanges of the head. *)
Record state := mkst { pool : t; thr : list pc; owned : list nat; ops : nat }.

(** A client gives a node back through the deleter of its [shared_ptr], which
    runs once: the node leaves [owned]. *)
Inductive label := LGet (i : nat) (fresh : bool) | LRelease (i n : nat) | LStep (i : nat) (b : bool).

Definition step (l : label) (s : state) : option state :=
  match l with
  | LGet i f =>
      match thr s !! i with
      | Some Idle => Some (mkst (pool s) (<[i := GetLoad f]> (thr s)) (owned s) (ops s))
      | _ => None
      end
  | LRelease i n =>
      match thr s !! i with
      | Some Idle =>
          if decide (n ∈ owned s)
          then Some (mkst (pool s) (<[i := RelLoad n]> (thr s))
                          (filter (λ m, m ≠ n) (owned s)) (ops s))
          else None
      | _ => None
      end
  | LStep i b =>
      c ← thr s !! i;
      '(p', c', ev) ← tstep b (pool s) c;
      Some (mkst p' (<[i := c']> (thr s))
        (match ev with Some (EvGot _ n) => n :: owned s | _ => owned s end)
        (match ev with Some (EvGot _ _) | Some (EvReleased _) => S (ops s) | _ => ops s end))
  end.

Definition initial (p : t) (n : nat) : state := mkst p (replicate n Idle) [] 0.

(** ** Invariant *)

(** The nodes reached from [o] through [next_]. *)
Inductive chain (nx : list (option nat)) : option nat → list nat → Prop :=
| chain_nil : chain nx None []
| chain_cons n o l : nx !! n = Some o → chain nx o l → chain nx (Some n) (n :: l).

Definition transit (c : pc) : option nat :=
  match c with RelLoad n | RelSet n _ | RelCas n _ => Some n | _ => None end.

(** A locally remembered head is not newer than the head, and is the head when
    the counters agree: no ABA. *)
Definition stale (p : t) (old : Head) : Prop :=
  count old <= count (free_head_ p) ∧ (count old = count (free_head_ p) → old = free_head_ p).

Definition thread_inv (p : t) (c : pc) : Prop :=
  match c with
  | GetTest _ old => stale p old ∧ (∀ n, node old = Some n → (n < length (next_ p))%nat)
  | GetCas _ old n nxt =>
      stale p old ∧ node old = Some n ∧ (old = free_head_ p → next_ p !! n = Some nxt)
  | RelSet _ old => stale p old
  | RelCas n old => stale p old ∧ next_ p !! n = Some (node old)
  | _ => True
  end.

Record inv (cap : nat) (s : state) (fl : list nat) : Prop := {
  pi_len : length (next_ (pool s)) = cap;
  pi_chain : chain (next_ (pool s)) (node (free_head_ (pool s))) fl;
  pi_all : fl ++ owned s ++ omap transit (thr s) ≡ₚ seq 0 cap;
  pi_count : count (free_head_ (pool s)) = Z.of_nat (ops s);
  pi_net : net (free_head_ (pool s)) = Z.of_nat cap - Z.of_nat (length fl);
  pi_thr : ∀ i c, thr s !! i = Some c → thread_inv (pool s) c;
}.

Lemma chain_insert nx n o x l : n ∉ l → chain nx o l → chain (<[n := x]> nx) o l.
Proof.
  intros Hn. induction 1 as [|m o l Hm Hc IH]; [constructor|].
  apply not_elem_of_cons in Hn as [Hne Hn]. econstructor; [|by apply IH].
  by rewrite list_lookup_insert_ne.
Qed.

Lemma omap_insert_perm (l : list pc) i c c' :
  l !! i = Some c → ∃ rest, omap transit l ≡ₚ option_list (transit c) ++ rest ∧
    omap transit (<[i := c']> l) ≡ₚ option_list (transit c') ++ rest.
Proof.
  intros Hi. exists (omap transit (take i l) ++ omap transit (drop (S i) l)).
  pose proof (lookup_lt_Some _ _ _ Hi).
  split.
  - rewrite <- (take_drop_middle l i c) at 1 by done. rewrite omap_app. simpl.
    destruct (transit c); simpl; [|done]. by rewrite Permutation_middle.
  - rewrite insert_take_drop by done. rewrite omap_app. simpl.
    destruct (transit c'); simpl; [|done]. by rewrite Permutation_middle.
Qed.

(** The node a thread is releasing is in nobody else's hands. *)
Lemma transit_private cap s fl i c n :
  inv cap s fl → thr s !! i = Some c → transit c = Some n →
  n ∉ fl ∧ n ∉ owned s ∧ (n < cap)%nat ∧
  ∀ j c', j ≠ i → thr s !! j = Some c' → transit c' ≠ Some n.
Proof.
  intros Hinv Hi Ht. destruct (omap_insert_perm (thr s) i c Idle Hi) as (rest & H1 & H2).
  rewrite Ht in H1. simpl in H1, H2.
  assert (NoDup (n :: fl ++ owned s ++ rest) ∧ (n < cap)%nat) as [[Hn _]%NoDup_cons Hc].
  { assert (n :: fl ++ owned s ++ rest ≡ₚ seq 0 cap) as Hp.
    { rewrite <- (pi_all _ _ _ Hinv), H1, !Permutation_middle. done. }
    split; [rewrite Hp; apply NoDup_seq|].
    assert (n ∈ seq 0 cap) as Hin by (rewrite <- Hp; left). apply elem_of_seq in Hin. lia. }
  rewrite !not_elem_of_app in Hn. destruct Hn as (? & ? & Hr). split_and!; try done.
  intros j c' Hne Hj Hj'. apply Hr. rewrite <- H2. apply list_elem_of_omap.
  exists c'. split; [|done]. apply list_elem_of_lookup. exists j.
  by rewrite list_lookup_insert_ne.
Qed.

Lemma pool_thr_step (Q : t → pc → Prop) p p' (l : list pc) i c' :
  (∀ j c, l !! j = Some c → Q p c) → Q p' c' →
  (∀ j c, j ≠ i → l !! j = Some c → Q p c → Q p' c) →
  ∀ j c, <[i := c']> l !! j = Some c → Q p' c.
Proof.
  intros Hall Hnew Hother j c. rewrite list_lookup_insert. case_decide as Hd; intros; simplify_eq.
  - done.
  - destruct (decide (j = i)) as [->|]; [|by eapply Hother; eauto].
    apply not_and_l in Hd as [|Hlt]; [done|]. apply lookup_lt_Some in H. lia.
Qed.

(** Advancing the counter keeps remembered heads older than the head. *)
Lemma thread_inv_head p h c :
  count h = count (free_head_ p) + 1 → thread_inv p c → thread_inv (set_head h p) c.
Proof.
  intros Hh Hc. destruct c; simpl in *; unfold stale in *; simpl in *; try done.
  - destruct Hc as [[? ?] ?]. split; [|done]. split; [lia|]. intros. lia.
  - destruct Hc as ([? ?] & ? & ?). split_and!; try done; try lia.
    intros ->. lia.
  - destruct Hc as [? ?]. split; [lia|]. intros. lia.
  - destruct Hc as [[? ?] ?]. split; [|done]. split; [lia|]. intros. lia.
Qed.

Lemma stale_refl p : stale p (free_head_ p).
Proof. split; [lia|done]. Qed.

Lemma inv_frame cap s fl i c c' :
  inv cap s fl → thr s !! i = Some c → transit c' = transit c → thread_inv (pool s) c' →
  inv cap (mkst (pool s) (<[i := c']> (thr s)) (owned s) (ops s)) fl.
Proof.
  intros [] Hi Ht Hc'. split; simpl; try done.
  - destruct (omap_insert_perm (thr s) i c c' Hi) as (rest & H1 & H2).
    by rewrite H2, Ht, <- H1.
  - by apply (pool_thr_step thread_inv (pool s)).
Qed.

Lemma free_bound cap s fl : inv cap s fl → (length fl <= cap)%nat.
Proof.
  intros []. apply Permutation_length in pi_all0. rewrite length_seq, length_app in pi_all0. lia.
Qed.

(** [FindFreeHead] wins the exchange. *)
Lemma inv_got cap s fl i f n nxt :
  inv cap s fl → Z.of_nat (S (ops s)) < 2 ^ 64 → Z.of_nat cap < 2 ^ 63 →
  thr s !! i = Some (GetCas f (free_head_ (pool s)) n nxt) →
  ∃ fl', inv cap (mkst (set_head (mkHead (u64 (count (free_head_ (pool s)) + 1))
      (i64 (net (free_head_ (pool s)) + 1)) nxt) (pool s)) (<[i := Idle]> (thr s))
      (n :: owned s) (S (ops s))) fl'.
Proof.
  intros Hinv Hr Hcap Hi. pose proof (free_bound _ _ _ Hinv). destruct Hinv.
  destruct (pi_thr0 _ _ Hi) as (_ & Hn & Hx). specialize (Hx eq_refl).
  rewrite Hn in pi_chain0. inversion pi_chain0 as [|? o l Ho Hch]; subst. simplify_eq.
  exists l. rewrite u64_small, i64_small by (simpl in *; lia). split; simpl; try done; try lia.
  - destruct (omap_insert_perm (thr s) i _ Idle Hi) as (rest & H1 & H2).
    rewrite H2. simpl in *. rewrite <- pi_all0, H1. by rewrite <- Permutation_middle.
  - simpl in *. lia.
  - apply (pool_thr_step thread_inv (pool s)); [done|done|].
    intros. by apply thread_inv_head.
Qed.

(** [ReleaseObject] writes the [next] field. *)
Lemma inv_set cap s fl i n old :
  inv cap s fl → thr s !! i = Some (RelSet n old) →
  (n < length (next_ (pool s)))%nat ∧
  inv cap (mkst (mk (free_head_ (pool s)) (<[n := node old]> (next_ (pool s))) (capacity_ (pool s)))
      (<[i := RelCas n old]> (thr s)) (owned s) (ops s)) fl.
Proof.
  intros Hinv Hi. destruct (transit_private _ _ _ _ _ n Hinv Hi eq_refl) as (Hfl & _ & Hlt & Hpriv).
  destruct Hinv. split; [lia|]. split; simpl; try done.
  - by rewrite length_insert.
  - by apply chain_insert.
  - destruct (omap_insert_perm (thr s) i _ (RelCas n old) Hi) as (rest & H1 & H2).
    by rewrite H2, <- pi_all0, H1.
  - apply (pool_thr_step thread_inv (pool s)); [done| |].
    + simpl. split; [by apply (pi_thr0 _ _ Hi)|]. rewrite list_lookup_insert_eq; [done|lia].
    + intros j c Hne Hj Hc. pose proof (Hpriv j c Hne Hj) as Hpj.
      destruct c; simpl in *; rewrite ?length_insert; try done.
      * destruct Hc as (? & Hn & Hx). split_and!; try done. intros ->.
        rewrite list_lookup_insert_ne; [by apply Hx|]. intros ->.
        rewrite Hn in pi_chain0. inversion pi_chain0; subst. apply Hfl. left.
      * rewrite list_lookup_insert_ne by congruence. done.
Qed.

(** [ReleaseObject] wins the exchange. *)
Lemma inv_released cap s fl i n :
  inv cap s fl → Z.of_nat (S (ops s)) < 2 ^ 64 → Z.of_nat cap < 2 ^ 63 →
  thr s !! i = Some (RelCas n (free_head_ (pool s))) →
  inv cap (mkst (set_head (mkHead (u64 (count (free_head_ (pool s)) + 1))
      (i64 (net (free_head_ (pool s)) - 1)) (Some n)) (pool s)) (<[i := Idle]> (thr s))
      (owned s) (S (ops s))) (n :: fl).
Proof.
  intros [] Hr Hcap Hi. destruct (pi_thr0 _ _ Hi) as [_ Hx].
  destruct (omap_insert_perm (thr s) i _ Idle Hi) as (rest & H1 & H2). simpl in *.
  assert (n :: fl ++ owned s ++ rest ≡ₚ seq 0 cap) as Hall.
  { rewrite <- pi_all0, H1, !Permutation_middle. done. }
  assert (S (length fl) <= cap)%nat.
  { apply Permutation_length in Hall. rewrite length_seq in Hall. simpl in Hall.
    rewrite length_app in Hall. lia. }
  rewrite u64_small, i64_small by lia. split; simpl; try done; try lia.
  - by econstructor.
  - by rewrite H2.
  - apply (pool_thr_step thread_inv (pool s)); [done|done|]. intros. by apply thread_inv_head.
Qed.

Lemma remove_perm (l : list nat) n :
  NoDup l → n ∈ l → l ≡ₚ n :: filter (λ m, m ≠ n) l.
Proof.
  intros Hnd Hin. apply NoDup_Permutation; [done| |].
  - apply NoDup_cons. rewrite list_elem_of_filter. split; [naive_solver|by apply NoDup_filter].
  - intros x. rewrite elem_of_cons, list_elem_of_filter. destruct (decide (x = n)); naive_solver.
Qed.

Lemma inv_release_call cap s fl i n :
  inv cap s fl → thr s !! i = Some Idle → n ∈ owned s →
  inv cap (mkst (pool s) (<[i := RelLoad n]> (thr s)) (filter (λ m, m ≠ n) (owned s)) (ops s)) fl.
Proof.
  intros [] Hi Hn. split; simpl; try done.
  - destruct (omap_insert_perm (thr s) i _ (RelLoad n) Hi) as (rest & H1 & H2).
    rewrite H2. simpl in *. rewrite <- pi_all0, H1.
    assert (NoDup (owned s)) as Hnd.
    { pose proof (NoDup_seq 0 cap) as Hs. rewrite <- pi_all0 in Hs.
      by apply NoDup_app in Hs as (_ & _ & [? _]%NoDup_app). }
    rewrite (remove_perm (owned s) n Hnd Hn) at 2. simpl. by rewrite Permutation_middle.
  - by apply (pool_thr_step thread_inv (pool s)).
Qed.

Definition in_range (s : state) : Prop := Z.of_nat (ops s) < 2 ^ 64.

Lemma pool_step_in_range l s1 s2 : step l s1 = Some s2 → in_range s2 → in_range s1.
Proof.
  unfold in_range. destruct l; intros H; cbn in H; split_step H; cbn; try lia.
Qed.

Lemma pool_inv_step cap l s1 s2 fl :
  Z.of_nat cap < 2 ^ 63 → inv cap s1 fl → in_range s2 → step l s1 = Some s2 →
  ∃ fl', inv cap s2 fl'.
Proof.
  intros Hcap Hinv Hr Hs. pose proof Hinv as [].
  destruct l as [i f|i n|i b]; cbn in Hs.
  - destruct (thr s1 !! i) as [[]|] eqn:Hi; try done. simplify_eq.
    exists fl. by eapply inv_frame.
  - destruct (thr s1 !! i) as [[]|] eqn:Hi; try done. case_decide; [|done]. simplify_eq.
    exists fl. by apply inv_release_call.
  - destruct (thr s1 !! i) as [c|] eqn:Hi; [|done]. pose proof (pi_thr0 _ _ Hi) as Hc.
    destruct c as [|f|f old|f old n nxt|n|n old|n old]; cbn in Hs.
    + done.
    + simplify_eq. exists fl. eapply inv_frame; [done..|]. simpl. split; [apply stale_refl|].
      intros n Hn. rewrite Hn in pi_chain0. inversion pi_chain0; subst. by eapply lookup_lt_Some.
    + destruct Hc as [Hst Hlt]. destruct (node old) as [n|] eqn:Hn.
      * destruct (next_ (pool s1) !! n) as [nxt|] eqn:Hnx; [|done]. simplify_eq/=.
        exists fl. eapply inv_frame; [done..|]. simpl. by split_and!.
      * simplify_eq/=. exists fl. by eapply inv_frame.
    + destruct (negb b && bool_decide (free_head_ (pool s1) = old)) eqn:E; simplify_eq/=.
      * apply andb_true_iff in E as [_ <-%bool_decide_eq_true]. by eapply inv_got.
      * exists fl. eapply inv_frame; [done..|]. simpl. split; [apply stale_refl|].
        intros m Hm. rewrite Hm in pi_chain0. inversion pi_chain0; subst. by eapply lookup_lt_Some.
    + simplify_eq/=. exists fl. eapply inv_frame; [done..|]. apply stale_refl.
    + destruct (inv_set _ _ _ _ _ _ Hinv Hi) as [Hlt Hinv'].
      rewrite decide_True in Hs by done. simplify_eq/=. by exists fl.
    + destruct (negb b && bool_decide (free_head_ (pool s1) = old)) eqn:E; simplify_eq/=.
      * apply andb_true_iff in E as [_ <-%bool_decide_eq_true].
        exists (n :: fl). by apply inv_released.
      * exists fl. eapply inv_frame; [done..|]. apply stale_refl.
Qed.

Lemma constructor_chain size p :
  1 <= size → CCObjectPool size = Some p →
  chain (next_ p) (node (free_head_ p)) (seq 0 (Z.to_nat size)).
Proof.
  intros Hs Hp. unfold CCObjectPool in Hp. destruct (size =? 0) eqn:E; [done|]. simplify_eq/=.
  assert (∀ k i, (i + S k = Z.to_nat size)%nat →
    chain ((Some <$> seq 1 (Z.to_nat (size - 1))) ++ [None]) (Some i) (seq i (S k))) as H.
  { induction k as [|k IH]; intros i Hi; simpl; econstructor.
    - rewrite lookup_app_r by (rewrite length_fmap, length_seq; lia).
      rewrite length_fmap, length_seq. by replace (i - _)%nat with 0%nat by lia.
    - constructor.
    - rewrite lookup_app_l by (rewrite length_fmap, length_seq; lia).
      by rewrite list_lookup_fmap, lookup_seq_lt by lia.
    - apply IH. lia. }
  replace (Z.to_nat size) with (S (Z.to_nat size - 1)) by lia. apply H. lia.
Qed.

Lemma pool_initial_inv size p n :
  1 <= size → CCObjectPool size = Some p →
  inv (Z.to_nat size) (initial p n) (seq 0 (Z.to_nat size)).
Proof.
  intros Hs Hp. pose proof (constructor_chain _ _ Hs Hp) as Hch.
  unfold CCObjectPool in Hp. destruct (size =? 0) eqn:E; [done|]. simplify_eq. split; simpl; try done.
  - rewrite length_app, length_fmap, length_seq. simpl. lia.
  - assert (omap transit (replicate n Idle) = []) as -> by (induction n; done).
    by rewrite app_nil_r.
  - rewrite length_seq. lia.
  - by intros i c [-> _]%lookup_replicate.
Qed.

Lemma pool_reachable_inv size p n s :
  1 <= size < 2 ^ 63 → CCObjectPool size = Some p → reachable step (initial p n) s → in_range s →
  ∃ fl, inv (Z.to_nat size) s fl.
Proof.
  intros Hs Hp. apply (reachable_inv_while step in_range (λ s, ∃ fl, inv (Z.to_nat size) s fl)).
  - eexists. apply pool_initial_inv; [lia|done].
  - eauto using pool_step_in_range.
  - intros l s1 s2 [fl Hinv] _ Hr Hstep. eapply pool_inv_step; [|done..]. lia.
Qed.

(** C3: no node is handed out twice.  In every interleaving the nodes owned by
    clients are distinct and inside the arena, none of them is on the free
    list, and owned, returning and free nodes always add up to the capacity: no
    ABA, no double allocation, no leak. *)
Theorem object_pool_exclusive size p n s :
  1 <= size < 2 ^ 63 → CCObjectPool size = Some p →
  reachable step (initial p n) s → in_range s →
  ∃ fl, chain (next_ (pool s)) (node (free_head_ (pool s))) fl ∧
    NoDup (fl ++ owned s) ∧ Forall (λ m, m < Z.to_nat size)%nat (owned s) ∧
    Z.of_nat (length fl) + Z.of_nat (length (owned s)) +
      Z.of_nat (length (omap transit (thr s))) = size ∧
    net (free_head_ (pool s)) = size - Z.of_nat (length fl).
Proof.
  intros Hs Hp Hreach Hr. destruct (pool_reachable_inv size p n s Hs Hp Hreach Hr) as [fl []].
  exists fl. split_and!; [done| | | |lia].
  - pose proof (NoDup_seq 0 (Z.to_nat size)) as Hnd. rewrite <- pi_all0, (assoc (++)) in Hnd.
    by apply NoDup_app in Hnd as (? & _ & _).
  - apply Forall_forall. intros m Hm.
    assert (m ∈ seq 0 (Z.to_nat size)) as Hin by (rewrite <- pi_all0; set_solver).
    apply elem_of_seq in Hin. lia.
  - apply Permutation_length in pi_all0. rewrite length_seq, !length_app in pi_all0. lia.
Qed.

(** Memory safety and an exact failure: every step of an operation in
    progress is defined (all accesses stay in the arena), and with an up-to-date
    head [GetObject] returns null only when no node is free. *)
Theorem object_pool_safe size p n s i c b :
  1 <= size < 2 ^ 63 → CCObjectPool size = Some p →
  reachable step (initial p n) s → in_range s →
  thr s !! i = Some c → c ≠ Idle →
  ∃ s', step (LStep i b) s = Some s' ∧
    (∀ f, c = GetTest f (free_head_ (pool s)) → thr s' !! i = Some Idle →
       Z.of_nat (length (owned s)) + Z.of_nat (length (omap transit (thr s))) = size).
Proof.
  intros Hs Hp Hreach Hr Hi Hidle.
  destruct (pool_reachable_inv size p n s Hs Hp Hreach Hr) as [fl Hinv]. pose proof Hinv as [].
  pose proof (pi_thr0 _ _ Hi) as Hc. simpl. rewrite Hi. simpl.
  destruct c as [|f|f old|f old m nxt|m|m old|m old]; simpl; try done.
  - by eexists.
  - destruct Hc as [_ Hlt]. destruct (node old) as [m|] eqn:Hm.
    + destruct (lookup_lt_is_Some_2 (next_ (pool s)) m) as [nxt ->]; [by apply Hlt|].
      simpl. eexists. split; [done|]. simpl. intros f' [= -> ->].
      rewrite list_lookup_insert_eq by (by eapply lookup_lt_Some). done.
    + eexists. split; [done|]. intros f' [= -> ->] _. rewrite Hm in pi_chain0.
      inversion pi_chain0; subst. apply Permutation_length in pi_all0.
      rewrite length_seq, !length_app in pi_all0. simpl in pi_all0. lia.
  - case_match; by eexists.
  - by eexists.
  - destruct (inv_set _ _ _ _ _ _ Hinv Hi) as [Hlt _]. rewrite decide_True by done. by eexists.
  - case_match; by eexists.
Qed.

(** Two clients race for the first node; client 1 wins with node 0, client 0
    retries and gets node 1; then client 1 gives node 0 back. *)
Definition demo_trace : list label :=
  [LGet 0 false; LStep 0 false; LStep 0 false; LGet 1 true; LStep 1 false; LStep 1 false;
   LStep 1 false; LStep 0 false; LStep 0 false; LStep 0 true; LStep 0 false; LStep 0 false;
   LRelease 1 0; LStep 1 false; LStep 1 false].

Definition demo_pool : t :=
  mk (mkHead 0 0 (Some 0%nat)) [Some 1%nat; Some 2%nat; None] 3.

Lemma object_pool_exclusive_witness :
  ∃ s, run step demo_trace (initial demo_pool 2) = Some s ∧ owned s = [1%nat] ∧
  ∃ fl, chain (next_ (pool s)) (node (free_head_ (pool s))) fl ∧
    NoDup (fl ++ owned s) ∧ Forall (λ m, m < Z.to_nat 3)%nat (owned s) ∧
    Z.of_nat (length fl) + Z.of_nat (length (owned s)) +
      Z.of_nat (length (omap transit (thr s))) = 3 ∧
    net (free_head_ (pool s)) = 3 - Z.of_nat (length fl).
Proof.
  eexists. split; [vm_compute; reflexivity|]. split; [reflexivity|].
  apply (object_pool_exclusive 3 demo_pool 2).
  - lia.
  - reflexivity.
  - apply (run_reachable step _ demo_trace). vm_compute. reflexivity.
  - reflexivity.
Defined.

Lemma object_pool_safe_witness :
  ∃ s, run step demo_trace (initial demo_pool 2) = Some s ∧
  ∃ s', step (LStep 1 false) s = Some s' ∧
    (∀ f, RelCas 0 (free_head_ (pool s)) = GetTest f (free_head_ (pool s)) →
       thr s' !! 1%nat = Some Idle →
       Z.of_nat (length (owned s)) + Z.of_nat (length (omap transit (thr s))) = 3).
Proof.
  eexists. split; [vm_compute; reflexivity|].
  apply (object_pool_safe 3 demo_pool 2).
  - lia.
  - reflexivity.
  - apply (run_reachable step _ demo_trace). vm_compute. reflexivity.
  - reflexivity.
  - reflexivity.
  - discriminate.
Defined.
End CCObjectPool.

(** ** The single-threaded pool *)
Module ObjectPool.
(** [num_objects_], the [next] fields of the arena and [free_head_]. *)
Record t := mk { num_objects_ : Z; next_ : list (option nat); free_head_ : option nat }.

(** One round of the constructor's loop: the new node is pushed. *)
Definition push_new (i : nat) (p : t) : t :=
  mk (num_objects_ p) (<[i := free_head_ p]> (next_ p)) (Some i).

(** The constructors; [calloc_ok = false] is [std::bad_alloc].  The second one
    also runs the client's [InitFunc] on every object, which does not see the
    list. *)
Definition ObjectPool (calloc_ok : bool) (num_objects : Z) : option t :=
  if calloc_ok then
    Some (foldl (λ p i, push_new i p)
      (mk num_objects (replicate (Z.to_nat num_objects) None) None) (seq 0 (Z.to_nat num_objects)))
  else None.

Definition GetObject (p : t) : option (option nat * t) :=
  match free_head_ p with
  | None => Some (None, p)
  | Some n => nxt ← next_ p !! n; Some (Some n, mk (num_objects_ p) (next_ p) nxt)
  end.

(** [ReleaseObject(object)]; a null pointer is ignored. *)
Definition ReleaseObject (object : option nat) (p : t) : option t :=
  match object with
  | None => Some p
  | Some n =>
      if decide (n < length (next_ p))%nat
      then Some (mk (num_objects_ p) (<[n := free_head_ p]> (next_ p)) (Some n)) else None
  end.

(** The pool is a stack of free nodes. *)
Definition stack (p : t) (fl : list nat) : Prop :=
  CCObjectPool.chain (next_ p) (free_head_ p) fl ∧ NoDup fl ∧
  Forall (λ n, n < length (next_ p))%nat fl.

Lemma push_stack p fl n :
  stack p fl → n ∉ fl → (n < length (next_ p))%nat → stack (push_new n p) (n :: fl).
Proof.
  intros (Hc & Hnd & Hall) Hn Hlt. split_and!.
  - simpl. econstructor; [by apply list_lookup_insert_eq|]. by apply CCObjectPool.chain_insert.
  - by constructor.
  - constructor; simpl; rewrite length_insert; [done|]. done.
Qed.

(** A new pool holds all its nodes; [GetObject] pops the node released last,
    or reports an empty pool; [ReleaseObject] pushes, and what is popped is not
    free any more. *)
Theorem object_pool_stack :
  (∀ num p, ObjectPool true num = Some p → stack p (rev (seq 0 (Z.to_nat num)))) ∧
  (∀ p fl, stack p fl →
    match fl with
    | [] => GetObject p = Some (None, p)
    | n :: fl' => n ∉ fl' ∧ ∃ p', GetObject p = Some (Some n, p') ∧ stack p' fl'
    end) ∧
  (∀ p fl n, stack p fl → n ∉ fl → (n < length (next_ p))%nat →
    ∃ p', ReleaseObject (Some n) p = Some p' ∧ stack p' (n :: fl)).
Proof.
  split_and!.
  - intros num p [= <-].
    assert (∀ k, (k <= Z.to_nat num)%nat →
      let q := foldl (λ p i, push_new i p)
        (mk num (replicate (Z.to_nat num) None) None) (seq 0 k) in
      length (next_ q) = Z.to_nat num ∧ stack q (rev (seq 0 k))) as H.
    { induction k as [|k IH]; intros Hk.
      - simpl. rewrite length_replicate. split; [done|]. repeat constructor.
      - rewrite seq_S, foldl_app, rev_unit. simpl. destruct IH as [Hl Hst]; [lia|].
        split; [by rewrite length_insert|]. apply push_stack; [done| |lia].
        rewrite list_elem_of_In, <- in_rev, <- list_elem_of_In, elem_of_seq. lia. }
    by apply H.
  - intros p fl (Hc & Hnd & Hall). unfold GetObject. destruct fl as [|n fl'].
    + by inversion Hc.
    + inversion Hc as [|? o ? Hn Hc']; subst. apply NoDup_cons in Hnd as [? ?].
      apply Forall_cons in Hall as [? ?]. split; [done|]. rewrite Hn. simpl. by eexists.
  - intros p fl n Hst Hn Hlt. unfold ReleaseObject. rewrite decide_True by done.
    eexists. split; [done|]. by apply (push_stack p fl n).
Qed.
End ObjectPool.
