(* ===== verification/HashMaps.v ===== *)
(** * Fixed-size hash maps ([cyber/base/atomic_hash_map.h],
    [cyber/base/concurrent_hash_map.h])

    Both maps have [TableSize = 2^k] buckets, the bucket of a key being
    [key & (TableSize - 1)].  [AtomicHashMap] keeps each bucket as a linked list
    sorted by key, [ConcurrentHashMap] as an unsorted list behind a reader-writer
    lock (one operation at a time, see [RWLock]).  The operations are given as
    functions on the buckets, and both maps implement the interface [IntMap]: a
    finite map from integers. *)

From S2P Require Import Prelude.
From Stdlib Require Import Sorting.Sorted.

Local Open Scope Z_scope.

(** ** The interface *)

(** A map with [Has], [Get] and [Set] that represents a finite map. *)
Class IntMap (M V : Type) := {
  im_Has : Z → M → bool;
  im_Get : Z → M → option V;
  im_Set : Z → V → M → M;
  im_rep : M → gmap Z V → Prop;
  im_Get_spec t m key : im_rep t m → im_Get key t = m !! key;
  im_Has_spec t m key : im_rep t m → im_Has key t = bool_decide (is_Some (m !! key));
  im_Set_spec t m key v : im_rep t m → im_rep (im_Set key v t) (<[key := v]> m);
}.

Section clients.
Context {M V : Type} `{IntMap M V}.

(** Any sequence of [Set]s behaves as the same sequence of insertions. *)
Lemma im_replay t m (kvs : list (Z * V)) :
  im_rep t m →
  im_rep (foldl (λ t kv, im_Set kv.1 kv.2 t) t kvs) (foldl (λ m kv, <[kv.1 := kv.2]> m) m kvs).
Proof.
  revert t m. induction kvs as [|[k v] kvs IH]; intros t m Ht; simpl; [done|].
  by apply IH, im_Set_spec.
Qed.
End clients.

(** ** The table of buckets, shared by the two maps *)
Section table.
Context {B V : Type}.

(** [uint64_t index = key & mode_num_], the key converted to 64 bits. *)
Definition bucket_index (TableSize : Z) (key : Z) : nat :=
  Z.to_nat (Z.land (u64 key) (u64 (TableSize - 1))).

(** What a bucket must provide: [bk_ok] is its invariant. *)
Record bucket_laws (empty : B) (bget : Z → B → option V) (bset : Z → V → B → B)
    (bk_ok : B → Prop) : Prop := {
  bl_empty_ok : bk_ok empty;
  bl_empty key : bget key empty = None;
  bl_set_ok key v b : bk_ok b → bk_ok (bset key v b);
  bl_set key v b key' : bk_ok b →
    bget key' (bset key v b) = if decide (key' = key) then Some v else bget key' b;
}.

Context (empty : B) (bget : Z → B → option V) (bset : Z → V → B → B) (bk_ok : B → Prop).
Context (laws : bucket_laws empty bget bset bk_ok).
Context (k : Z) (Hk : 0 <= k < 64).

Definition table_rep (t : list B) (m : gmap Z V) : Prop :=
  length t = Z.to_nat (2 ^ k) ∧
  ∀ i b, t !! i = Some b → bk_ok b ∧
    ∀ key, bget key b = if decide (bucket_index (2 ^ k) key = i) then m !! key else None.

Lemma bucket_index_lt key : (bucket_index (2 ^ k) key < Z.to_nat (2 ^ k))%nat.
Proof.
  unfold bucket_index. pose proof (Z.pow_pos_nonneg 2 k).
  assert (2 ^ k <= 2 ^ 63) by (apply Z.pow_le_mono_r; lia).
  rewrite (u64_small (2 ^ k - 1)) by lia. rewrite land_mask by lia.
  pose proof (Z.mod_pos_bound (u64 key) (2 ^ k)). lia.
Qed.

Lemma table_lookup t m key :
  table_rep t m → ∃ b, t !! bucket_index (2 ^ k) key = Some b ∧ bk_ok b ∧ bget key b = m !! key.
Proof.
  intros [Hlen Hall]. pose proof (bucket_index_lt key).
  destruct (lookup_lt_is_Some_2 t (bucket_index (2 ^ k) key)) as [b Hb]; [lia|].
  exists b. split; [done|]. destruct (Hall _ _ Hb) as [? Hg]. split; [done|].
  by rewrite Hg, decide_True.
Qed.

Lemma table_set t m key v b :
  table_rep t m → t !! bucket_index (2 ^ k) key = Some b →
  table_rep (<[bucket_index (2 ^ k) key := bset key v b]> t) (<[key := v]> m).
Proof.
  intros [Hlen Hall] Hb. split; [by rewrite length_insert|].
  intros i b'. rewrite list_lookup_insert. case_decide as Hd; intros Hb'.
  - destruct Hd as [<- _]. simplify_eq. destruct (Hall _ _ Hb) as [Hok Hg].
    split; [by eapply bl_set_ok|]. intros key'. erewrite bl_set by done.
    rewrite lookup_insert, Hg. destruct (decide (key' = key)) as [->|Hne].
    + by rewrite !decide_True.
    + by rewrite (decide_False (P := key = key')).
  - destruct (Hall _ _ Hb') as [Hok Hg]. split; [done|]. intros key'. rewrite Hg.
    case_decide as Hi; [|done]. rewrite lookup_insert_ne; [done|]. intros ->.
    apply Hd. split; [done|]. rewrite Hi. by eapply lookup_lt_Some.
Qed.

Lemma table_empty : table_rep (replicate (Z.to_nat (2 ^ k)) empty) ∅.
Proof.
  split; [by rewrite length_replicate|]. intros i b [-> _]%lookup_replicate.
  split; [by eapply bl_empty_ok|]. intros key. erewrite bl_empty by done.
  rewrite lookup_empty. by case_decide.
Qed.
End table.

(** ** [AtomicHashMap] *)
Module AtomicHashMap.
Section atomic.
Context {V : Type}.

(** The entries of a bucket after the sentinel [head_], in [next] order. *)
Definition Bucket : Type := list (Z * V).

Fixpoint Has (key : Z) (b : Bucket) : bool :=
  match b with
  | [] => false
  | (k, _) :: b' => if k <? key then Has key b' else k =? key
  end.

(** [Find]: found or not, the entries up to [*prev_ptr], the entries from
    [*target_ptr] on. *)
Fixpoint Find (key : Z) (b : Bucket) : bool * Bucket * Bucket :=
  match b with
  | [] => (false, [], [])
  | (k, v) :: b' =>
      if k =? key then (true, [], b)
      else if key <? k then (false, [], b)
      else let '(found, prev, target) := Find key b' in (found, (k, v) :: prev, target)
  end.

(** [Insert(key, value)]: replaces the value of [target], or links a new entry
    between [prev] and [target]. *)
Definition Insert (key : Z) (value : V) (b : Bucket) : Bucket :=
  match Find key b with
  | (true, prev, (k, _) :: rest) => prev ++ (k, value) :: rest
  | (_, prev, target) => prev ++ (key, value) :: target
  end.

Definition BGet (key : Z) (b : Bucket) : option V :=
  match Find key b with
  | (true, _, (_, v) :: _) => Some v
  | _ => None
  end.

(** The table. *)
Definition t : Type := list Bucket.
Definition AtomicHashMap (TableSize : Z) : t := replicate (Z.to_nat TableSize) [].

Definition map_Has (TableSize key : Z) (m : list Bucket) : bool :=
  default false (Has key <$> m !! bucket_index TableSize key).
Definition map_Get (TableSize key : Z) (m : list Bucket) : option V :=
  m !! bucket_index TableSize key ≫= BGet key.
(** [Set(key, value)]; [Set(key)] stores [V()]. *)
Definition map_Set (TableSize key : Z) (value : V) (m : list Bucket) : t :=
  match m !! bucket_index TableSize key with
  | Some b => <[bucket_index TableSize key := Insert key value b]> m
  | None => m
  end.

Definition sorted (b : Bucket) : Prop := StronglySorted (λ e1 e2, e1.1 < e2.1) b.

Lemma Find_split key b found prev target :
  sorted b → Find key b = (found, prev, target) →
  b = prev ++ target ∧ Forall (λ e, e.1 < key) prev ∧
  (if found then ∃ v rest, target = (key, v) :: rest else Forall (λ e, key < e.1) target).
Proof.
  revert found prev target. induction b as [|[k v] b IH]; simpl; intros found prev target Hs Hf.
  - simplify_eq. done.
  - inversion Hs as [|? ? Hs' Hall]; subst. destruct (Z.eqb_spec k key) as [->|Hne].
    { simplify_eq. split_and!; [done|done|]. by eexists _, _. }
    destruct (Z.ltb_spec key k) as [Hlt|Hge].
    + simplify_eq. split_and!; [done|done|]. constructor; [done|].
      eapply Forall_impl; [exact Hall|]. intros [] ?; simpl in *. lia.
    + destruct (Find key b) as [[f p] s] eqn:E. simplify_eq.
      destruct (IH _ _ _ Hs' eq_refl) as (-> & Hp & Ht).
      split_and!; [done| |done]. constructor; [simpl; lia|done].
Qed.

Lemma sorted_app (p s : Bucket) :
  sorted (p ++ s) ↔ sorted p ∧ sorted s ∧ ∀ x y, x ∈ p → y ∈ s → x.1 < y.1.
Proof.
  unfold sorted. induction p as [|x p IH]; simpl.
  - split; [intros; split_and!; [constructor|done|set_solver]|by intros (? & ? & ?)].
  - split.
    + inversion 1 as [|? ? Hs Hall]; subst. apply IH in Hs as (? & ? & Hlt).
      apply Forall_app in Hall as [Hfp Hfs]. split_and!; [by constructor|done|].
      intros a b [->|Ha]%elem_of_cons Hb; [|by apply Hlt].
      rewrite Forall_forall in Hfs. by apply Hfs.
    + intros (Hs & Ht & Hlt). inversion Hs; subst. constructor.
      * apply IH. split_and!; [done|done|]. intros. apply Hlt; [by right|done].
      * apply Forall_app. split; [done|]. rewrite Forall_forall.
        intros y Hy. apply Hlt; [left|done].
Qed.

Lemma BGet_sorted key b v : sorted b → BGet key b = Some v ↔ (key, v) ∈ b.
Proof.
  intros Hs. unfold BGet. destruct (Find key b) as [[f p] s] eqn:E.
  destruct (Find_split _ _ _ _ _ Hs E) as (-> & Hp & Ht). rewrite elem_of_app.
  rewrite Forall_forall in Hp. destruct f.
  - destruct Ht as (v' & rest & ->). apply sorted_app in Hs as (_ & Hs & _).
    inversion Hs as [|? ? Hs' Hall]; subst. rewrite Forall_forall in Hall.
    rewrite elem_of_cons. split; [intros; simplify_eq; auto|].
    intros [Hin|[?|Hin]]; simplify_eq; try done.
    + apply Hp in Hin. simpl in Hin. lia.
    + apply Hall in Hin. simpl in Hin. lia.
  - rewrite Forall_forall in Ht. split; [by destruct s|].
    intros [Hin|Hin]; [apply Hp in Hin|apply Ht in Hin]; simpl in Hin; lia.
Qed.

Lemma Insert_sorted key v b : sorted b → sorted (Insert key v b).
Proof.
  intros Hs. unfold Insert. destruct (Find key b) as [[f p] s] eqn:E.
  destruct (Find_split _ _ _ _ _ Hs E) as (-> & Hp & Ht). rewrite Forall_forall in Hp.
  apply sorted_app in Hs as (Hsp & Hss & Hlt). destruct f.
  - destruct Ht as (v' & rest & ->). apply sorted_app. split_and!; [done| |].
    { inversion Hss; subst. by constructor. }
    intros x y Hx [->|Hy]%elem_of_cons; [by apply Hp|]. apply Hlt; [done|by right].
  - apply sorted_app. split_and!; [done| |].
    + unfold sorted. simpl. by constructor.
    + intros x y Hx [->|Hy]%elem_of_cons; [by apply Hp|]. by apply Hlt.
Qed.

Lemma BGet_Insert key v b key' :
  sorted b →
  BGet key' (Insert key v b) = if decide (key' = key) then Some v else BGet key' b.
Proof.
  intros Hs. apply option_eq. intros w. pose proof (Insert_sorted key v b Hs) as Hs'.
  rewrite BGet_sorted by done.
  assert ((if decide (key' = key) then Some v else BGet key' b) = Some w ↔
    if decide (key' = key) then v = w else (key', w) ∈ b) as ->.
  { case_decide; [naive_solver|by apply BGet_sorted]. }
  unfold Insert. destruct (Find key b) as [[f p] s] eqn:E.
  destruct (Find_split _ _ _ _ _ Hs E) as (-> & Hp & Ht). rewrite Forall_forall in Hp.
  apply sorted_app in Hs as (_ & Hss & _). destruct f.
  - destruct Ht as (v' & rest & ->). inversion Hss as [|? ? _ Hall]; subst.
    rewrite Forall_forall in Hall.
    case_decide as Hk; subst; rewrite !elem_of_app, !elem_of_cons.
    2: { split; (intros [?|[?|?]]; [by left|by simplify_eq|by right; right]). }
    split; [|intros ->; by right; left]. intros [Hin|[?|Hin]]; simplify_eq; try done.
    + apply Hp in Hin. simpl in Hin. lia.
    + apply Hall in Hin. simpl in Hin. lia.
  - rewrite Forall_forall in Ht.
    case_decide as Hk; subst; rewrite !elem_of_app, !elem_of_cons.
    2: { split; [intros [?|[?|?]]; [by left|by simplify_eq|by right]|].
         intros [?|?]; [by left|by right; right]. }
    split; [|intros ->; by right; left]. intros [Hin|[?|Hin]]; simplify_eq; try done.
    + apply Hp in Hin. simpl in Hin. lia.
    + apply Ht in Hin. simpl in Hin. lia.
Qed.

Lemma Has_BGet key b : sorted b → Has key b = bool_decide (is_Some (BGet key b)).
Proof.
  intros Hs. assert (Has key b = true ↔ ∃ v, (key, v) ∈ b) as H.
  { induction b as [|[k v] b IH]; simpl; [split; [done|set_solver]|].
    inversion Hs as [|? ? Hs' Hall]; subst. rewrite Forall_forall in Hall.
    destruct (Z.ltb_spec k key).
    - rewrite IH by done. setoid_rewrite elem_of_cons. split; [naive_solver|].
      intros [w [?|?]]; [simplify_eq; lia|by exists w].
    - setoid_rewrite elem_of_cons. destruct (Z.eqb_spec k key) as [->|Hne].
      + split; [|done]. intros _. exists v. by left.
      + split; [done|]. intros [w [?|Hin]]; [simplify_eq|]. apply Hall in Hin. simpl in Hin. lia. }
  apply Bool.eq_true_iff_eq. rewrite H, bool_decide_eq_true. split.
  - intros [v Hv]. exists v. by apply BGet_sorted.
  - intros [v Hv]. exists v. by apply BGet_sorted.
Qed.

Lemma atomic_bucket_laws : bucket_laws [] BGet Insert sorted.
Proof.
  split; [constructor|done|apply Insert_sorted|]. intros. by apply BGet_Insert.
Qed.

Section interface.
Context (k : Z) (Hk : 0 <= k < 64).

Definition atomic_rep : t → gmap Z V → Prop := table_rep BGet sorted k.

Lemma atomic_Get_spec m g key : atomic_rep m g → map_Get (2 ^ k) key m = g !! key.
Proof.
  intros Hm. destruct (table_lookup _ _ _ Hk m g key Hm) as (b & Hb & _ & Hg).
  unfold map_Get. by rewrite Hb.
Qed.

Lemma atomic_Has_spec m g key :
  atomic_rep m g → map_Has (2 ^ k) key m = bool_decide (is_Some (g !! key)).
Proof.
  intros Hm. destruct (table_lookup _ _ _ Hk m g key Hm) as (b & Hb & Hok & Hg).
  unfold map_Has. rewrite Hb, <- Hg. simpl. by apply Has_BGet.
Qed.

Lemma atomic_Set_spec m g key v :
  atomic_rep m g → atomic_rep (map_Set (2 ^ k) key v m) (<[key := v]> g).
Proof.
  intros Hm. destruct (table_lookup _ _ _ Hk m g key Hm) as (b & Hb & _).
  unfold map_Set. rewrite Hb. by apply (table_set _ _ _ _ atomic_bucket_laws).
Qed.

Lemma atomic_empty_rep : atomic_rep (AtomicHashMap (2 ^ k)) ∅.
Proof. apply (table_empty _ _ _ _ atomic_bucket_laws). Qed.

#[export] Instance atomic_IntMap : IntMap t V := {
  im_Has := map_Has (2 ^ k);
  im_Get := map_Get (2 ^ k);
  im_Set := map_Set (2 ^ k);
  im_rep := atomic_rep;
  im_Get_spec := atomic_Get_spec;
  im_Has_spec := atomic_Has_spec;
  im_Set_spec := atomic_Set_spec;
}.
End interface.
End atomic.
End AtomicHashMap.

(** ** [ConcurrentHashMap] *)
Module ConcurrentHashMap.
Section concurrent.
Context {V : Type}.

(** [data_] of a bucket. *)
Definition Bucket : Type := list (Z * V).

(** [find_entry_for]: the position of the first entry with the key;
    [length data_] plays [data_.end()]. *)
Fixpoint find_entry_for (key : Z) (b : Bucket) : nat :=
  match b with
  | [] => 0
  | (k, _) :: b' => if k =? key then 0 else S (find_entry_for key b')
  end.

Definition Has (key : Z) (b : Bucket) : bool :=
  negb (find_entry_for key b =? length b)%nat.

Definition BGet (key : Z) (b : Bucket) : option V :=
  snd <$> b !! find_entry_for key b.

Definition Insert (key : Z) (value : V) (b : Bucket) : Bucket :=
  let i := find_entry_for key b in
  if (i =? length b)%nat then b ++ [(key, value)]
  else alter (λ e, (e.1, value)) i b.

Definition Erase (key : Z) (b : Bucket) : Bucket :=
  let i := find_entry_for key b in
  if (i =? length b)%nat then b else delete i b.

Definition t : Type := list Bucket.
Definition ConcurrentHashMap (TableSize : Z) : t := replicate (Z.to_nat TableSize) [].

Definition map_Has (TableSize key : Z) (m : list Bucket) : bool :=
  default false (Has key <$> m !! bucket_index TableSize key).
Definition map_Get (TableSize key : Z) (m : list Bucket) : option V :=
  m !! bucket_index TableSize key ≫= BGet key.
Definition map_Set (TableSize key : Z) (value : V) (m : list Bucket) : t :=
  match m !! bucket_index TableSize key with
  | Some b => <[bucket_index TableSize key := Insert key value b]> m
  | None => m
  end.

(** No key occurs twice. *)
Definition distinct (b : Bucket) : Prop := NoDup b.*1.

Lemma find_cons_ne k v key b :
  k ≠ key → find_entry_for key ((k, v) :: b) = S (find_entry_for key b).
Proof. intros. simpl. by destruct (Z.eqb_spec k key). Qed.

Lemma find_cons_eq v key b : find_entry_for key ((key, v) :: b) = 0%nat.
Proof. simpl. by rewrite Z.eqb_refl. Qed.

Lemma Insert_cons_ne k v key w b :
  k ≠ key → Insert key w ((k, v) :: b) = (k, v) :: Insert key w b.
Proof.
  intros Hne. unfold Insert. rewrite find_cons_ne by done. simpl. by case_match.
Qed.

Lemma Insert_cons_eq v key w b : Insert key w ((key, v) :: b) = (key, w) :: b.
Proof. unfold Insert. by rewrite find_cons_eq. Qed.

Lemma BGet_cons k v key b :
  BGet key ((k, v) :: b) = if decide (k = key) then Some v else BGet key b.
Proof.
  unfold BGet. case_decide as H; [subst; by rewrite find_cons_eq|].
  by rewrite find_cons_ne.
Qed.

Lemma bucket_get_insert key v b key' :
  BGet key' (Insert key v b) = if decide (key' = key) then Some v else BGet key' b.
Proof.
  induction b as [|[k w] b IH].
  - unfold Insert. simpl. rewrite BGet_cons. repeat case_decide; congruence.
  - destruct (decide (k = key)) as [->|Hne].
    + rewrite Insert_cons_eq, !BGet_cons. repeat case_decide; congruence.
    + rewrite Insert_cons_ne, !BGet_cons, IH by done. repeat case_decide; congruence.
Qed.

Lemma Insert_keys key v b x : x ∈ (Insert key v b).*1 ↔ x = key ∨ x ∈ b.*1.
Proof.
  induction b as [|[k w] b IH].
  - unfold Insert. simpl. rewrite list_elem_of_singleton, elem_of_nil. tauto.
  - destruct (decide (k = key)) as [->|Hne].
    + rewrite Insert_cons_eq. simpl. rewrite !elem_of_cons. tauto.
    + rewrite Insert_cons_ne by done. simpl. rewrite !elem_of_cons, IH. tauto.
Qed.

Lemma Insert_distinct key v b : distinct b → distinct (Insert key v b).
Proof.
  unfold distinct. induction b as [|[k w] b IH]; intros Hd.
  - unfold Insert. simpl. apply NoDup_singleton.
  - simpl in Hd. apply NoDup_cons in Hd as [Hk Hd]. destruct (decide (k = key)) as [->|Hne].
    + rewrite Insert_cons_eq. simpl. by constructor.
    + rewrite Insert_cons_ne by done. simpl. constructor; [|by apply IH].
      rewrite Insert_keys. by intros [?|?].
Qed.

Lemma bucket_has_get key b : Has key b = bool_decide (is_Some (BGet key b)).
Proof.
  unfold Has. induction b as [|[k v] b IH]; [done|]. rewrite BGet_cons.
  case_decide as H.
  - subst. by rewrite find_cons_eq.
  - rewrite find_cons_ne by done. apply IH.
Qed.

Lemma Erase_cons_ne k v key b : k ≠ key → Erase key ((k, v) :: b) = (k, v) :: Erase key b.
Proof.
  intros Hne. unfold Erase. rewrite find_cons_ne by done. simpl. by case_match.
Qed.

Lemma Erase_cons_eq v key b : Erase key ((key, v) :: b) = b.
Proof. unfold Erase. by rewrite find_cons_eq. Qed.

Lemma BGet_not_in key b : key ∉ b.*1 → BGet key b = None.
Proof.
  induction b as [|[k v] b IH]; [done|]. simpl. rewrite not_elem_of_cons, BGet_cons.
  intros [? ?]. rewrite decide_False by congruence. auto.
Qed.

Lemma Erase_BGet key b key' :
  distinct b → BGet key' (Erase key b) = if decide (key' = key) then None else BGet key' b.
Proof.
  unfold distinct. induction b as [|[k v] b IH]; intros Hd; [by case_decide|].
  simpl in Hd. apply NoDup_cons in Hd as [Hk Hd]. destruct (decide (k = key)) as [->|Hne].
  - rewrite Erase_cons_eq, BGet_cons.
    repeat case_decide; subst; try congruence. by apply BGet_not_in.
  - rewrite Erase_cons_ne, !BGet_cons, (IH Hd) by done. repeat case_decide; congruence.
Qed.

Lemma Erase_distinct key b : distinct b → distinct (Erase key b).
Proof.
  unfold distinct, Erase. intros Hd. case_match; [done|].
  eapply sublist_NoDup; [exact Hd|]. apply fmap_sublist, sublist_delete.
Qed.

Lemma concurrent_bucket_laws : bucket_laws [] BGet Insert distinct.
Proof.
  split; [constructor|done|apply Insert_distinct|]. intros. apply bucket_get_insert.
Qed.

Section interface.
Context (k : Z) (Hk : 0 <= k < 64).

Definition concurrent_rep : t → gmap Z V → Prop := table_rep BGet distinct k.

Lemma concurrent_Get_spec m g key : concurrent_rep m g → map_Get (2 ^ k) key m = g !! key.
Proof.
  intros Hm. destruct (table_lookup _ _ _ Hk m g key Hm) as (b & Hb & _ & Hg).
  unfold map_Get. by rewrite Hb.
Qed.

Lemma concurrent_Has_spec m g key :
  concurrent_rep m g → map_Has (2 ^ k) key m = bool_decide (is_Some (g !! key)).
Proof.
  intros Hm. destruct (table_lookup _ _ _ Hk m g key Hm) as (b & Hb & _ & Hg).
  unfold map_Has. rewrite Hb, <- Hg. simpl. apply bucket_has_get.
Qed.

Lemma concurrent_Set_spec m g key v :
  concurrent_rep m g → concurrent_rep (map_Set (2 ^ k) key v m) (<[key := v]> g).
Proof.
  intros Hm. destruct (table_lookup _ _ _ Hk m g key Hm) as (b & Hb & _).
  unfold map_Set. rewrite Hb. by apply (table_set _ _ _ _ concurrent_bucket_laws).
Qed.

Lemma concurrent_empty_rep : concurrent_rep (ConcurrentHashMap (2 ^ k)) ∅.
Proof. apply (table_empty _ _ _ _ concurrent_bucket_laws). Qed.

#[export] Instance concurrent_IntMap : IntMap t V := {
  im_Has := map_Has (2 ^ k);
  im_Get := map_Get (2 ^ k);
  im_Set := map_Set (2 ^ k);
  im_rep := concurrent_rep;
  im_Get_spec := concurrent_Get_spec;
  im_Has_spec := concurrent_Has_spec;
  im_Set_spec := concurrent_Set_spec;
}.
End interface.
End concurrent.
End ConcurrentHashMap.

(** ** Properties *)

(** C36: after any sequence of [Set]s on an empty [AtomicHashMap] of [2^k]
    buckets, [Get] and [Has] answer as the finite map with the same insertions. *)
Theorem atomic_hash_map_refines {V} k (kvs : list (Z * V)) key :
  0 <= k < 64 →
  let m := foldl (λ m kv, AtomicHashMap.map_Set (2 ^ k) kv.1 kv.2 m)
             (AtomicHashMap.AtomicHashMap (2 ^ k)) kvs in
  let g := foldl (λ g kv, <[kv.1 := kv.2]> g) (∅ : gmap Z V) kvs in
  AtomicHashMap.map_Get (2 ^ k) key m = g !! key ∧
  AtomicHashMap.map_Has (2 ^ k) key m = bool_decide (is_Some (g !! key)) ∧
  (∀ i b, m !! i = Some b → AtomicHashMap.sorted b).
Proof.
  intros Hk m g.
  assert (AtomicHashMap.atomic_rep k m g) as Hm.
  { apply (im_replay (H := AtomicHashMap.atomic_IntMap k Hk)). by apply AtomicHashMap.atomic_empty_rep. }
  split_and!; [by apply AtomicHashMap.atomic_Get_spec|by apply AtomicHashMap.atomic_Has_spec|].
  intros i b Hb. exact (proj1 (proj2 Hm i b Hb)).
Qed.

(** The same for [ConcurrentHashMap], and no bucket holds a key twice. *)
Theorem concurrent_hash_map_refines {V} k (kvs : list (Z * V)) key :
  0 <= k < 64 →
  let m := foldl (λ m kv, ConcurrentHashMap.map_Set (2 ^ k) kv.1 kv.2 m)
             (ConcurrentHashMap.ConcurrentHashMap (2 ^ k)) kvs in
  let g := foldl (λ g kv, <[kv.1 := kv.2]> g) (∅ : gmap Z V) kvs in
  ConcurrentHashMap.map_Get (2 ^ k) key m = g !! key ∧
  ConcurrentHashMap.map_Has (2 ^ k) key m = bool_decide (is_Some (g !! key)) ∧
  (∀ i b, m !! i = Some b → ConcurrentHashMap.distinct b).
Proof.
  intros Hk m g.
  assert (ConcurrentHashMap.concurrent_rep k m g) as Hm.
  { apply (im_replay (H := ConcurrentHashMap.concurrent_IntMap k Hk)).
    by apply ConcurrentHashMap.concurrent_empty_rep. }
  split_and!; [by apply ConcurrentHashMap.concurrent_Get_spec
              |by apply ConcurrentHashMap.concurrent_Has_spec|].
  intros i b Hb. exact (proj1 (proj2 Hm i b Hb)).
Qed.

(** Keys 1, 129 and -127 share a bucket of the default table. *)
Definition demo_sets : list (Z * nat) := [(129, 1%nat); (1, 2%nat); (-127, 3%nat); (129, 4%nat)].

Lemma atomic_hash_map_refines_witness :
  AtomicHashMap.map_Get (2 ^ 7) 129
    (foldl (λ m kv, AtomicHashMap.map_Set (2 ^ 7) kv.1 kv.2 m)
       (AtomicHashMap.AtomicHashMap (2 ^ 7)) demo_sets) = Some 4%nat.
Proof.
  destruct (atomic_hash_map_refines 7 demo_sets 129) as (H & _ & _); [lia|].
  rewrite H. vm_compute. reflexivity.
Defined.

Lemma concurrent_hash_map_refines_witness :
  ConcurrentHashMap.map_Get (2 ^ 7) (-127)
    (foldl (λ m kv, ConcurrentHashMap.map_Set (2 ^ 7) kv.1 kv.2 m)
       (ConcurrentHashMap.ConcurrentHashMap (2 ^ 7)) demo_sets) = Some 3%nat.
Proof.
  destruct (concurrent_hash_map_refines 7 demo_sets (-127)) as (H & _ & _); [lia|].
  rewrite H. vm_compute. reflexivity.
Defined.
