(* ===== verification/DataBuffers.v ===== *)
(** * Message buffers ([cyber/data/cache_buffer.h], [cyber/data/channel_buffer.h])

    [CacheBuffer] is a ring that keeps the last [size] messages of a channel;
    [ChannelBuffer] reads it with an index that each reader keeps for itself.
    Positions are 64-bit counters: the first message filled in has position 1,
    and a buffer that received the messages [hist] has [tail_ = length hist].
    The mutex of a buffer makes every operation atomic. *)

From S2P Require Import Prelude.

Local Open Scope Z_scope.
Local Open Scope cyber_scope.

Module CacheBuffer.
Section cache.
(** [A]: the messages (a slot without one holds a null pointer).  [C]: the
    closures installed as fusion callback. *)
Context {A C : Type}.

Record t := mk {
  head_ : Z;
  tail_ : Z;
  capacity_ : Z;
  buffer_ : list (option A);
  fusion_callback_ : option C;
}.

Definition CacheBuffer (size : Z) : t :=
  let capacity := size +64 1 in
  mk 0 0 capacity (replicate (Z.to_nat capacity) None) None.

Definition GetIndex (b : t) (pos : Z) : nat := Z.to_nat (pos mod capacity_ b).

(** [at], [operator[]]. *)
Definition at_ (b : t) (pos : Z) : option A := mjoin (buffer_ b !! GetIndex b pos).

Definition Head (b : t) : Z := head_ b +64 1.
Definition Tail (b : t) : Z := tail_ b.
Definition Size (b : t) : Z := tail_ b -64 head_ b.
Definition Front (b : t) : option A := at_ b (head_ b +64 1).
Definition Back (b : t) : option A := at_ b (tail_ b).
Definition Empty (b : t) : bool := tail_ b =? 0.
Definition Full (b : t) : bool := capacity_ b -64 1 =? tail_ b -64 head_ b.
Definition Capacity (b : t) : Z := capacity_ b.

Definition SetFusionCallback (cb : C) (b : t) : t :=
  mk (head_ b) (tail_ b) (capacity_ b) (buffer_ b) (Some cb).

(** [Fill(value)]: with a fusion callback the buffer only calls it, which is
    reported to the caller; without one the value is stored. *)
Definition store_value (value : A) (b : t) : t :=
  if Full b
  then mk (head_ b +64 1) (tail_ b +64 1) (capacity_ b)
         (<[GetIndex b (head_ b) := Some value]> (buffer_ b)) (fusion_callback_ b)
  else mk (head_ b) (tail_ b +64 1) (capacity_ b)
         (<[GetIndex b (tail_ b +64 1) := Some value]> (buffer_ b)) (fusion_callback_ b).

Definition Fill (value : A) (b : t) : t + C :=
  match fusion_callback_ b with
  | Some callback => inr callback
  | None => inl (store_value value b)
  end.

(** ** What a buffer of [size] holds after the messages [hist]: the ring keeps
    the last [size + 1] of them, the last [size] of which are readable. *)
Definition hist_at (hist : list A) (pos : Z) : option A :=
  if decide (1 <= pos) then hist !! Z.to_nat (pos - 1) else None.

Record holds (size : Z) (hist : list A) (b : t) : Prop := {
  h_size : 0 <= size < 2 ^ 64 - 1;
  h_cap : capacity_ b = size + 1;
  h_len : Z.of_nat (length (buffer_ b)) = size + 1;
  h_tail : tail_ b = Z.of_nat (length hist);
  h_head : head_ b = Z.max 0 (Z.of_nat (length hist) - size);
  h_slots pos : Z.of_nat (length hist) - size <= pos <= Z.of_nat (length hist) → 1 <= pos →
    buffer_ b !! GetIndex b pos = Some (hist_at hist pos);
}.

Lemma hist_at_snoc hist v pos :
  hist_at (hist ++ [v]) pos =
    if decide (pos = Z.of_nat (length hist) + 1) then Some v else hist_at hist pos.
Proof.
  unfold hist_at. case_decide; case_decide as Hd; try lia; [| |done].
  - subst. replace (Z.to_nat _) with (length hist) by lia. apply lookup_snoc_eq.
  - destruct (decide (Z.to_nat (pos - 1) < length hist)%nat).
    + by apply lookup_snoc_lt.
    + rewrite !lookup_ge_None_2; [done|lia|]. rewrite length_app. simpl. lia.
Qed.

Lemma hist_at_is_Some hist pos : is_Some (hist_at hist pos) ↔ 1 <= pos <= Z.of_nat (length hist).
Proof.
  unfold hist_at. case_decide.
  - rewrite lookup_lt_is_Some. lia.
  - split; [by intros []|lia].
Qed.

Lemma cache_new_holds size : 0 <= size < 2 ^ 64 - 1 → holds size [] (CacheBuffer size).
Proof.
  intros Hs. assert (size +64 1 = size + 1) as Hc by (apply u64_small; lia).
  split; cbn [CacheBuffer head_ tail_ capacity_ buffer_ length]; rewrite ?Hc; try lia.
  rewrite length_replicate. lia.
Qed.

Lemma GetIndex_lt size hist b pos :
  holds size hist b → (GetIndex b pos < length (buffer_ b))%nat.
Proof.
  intros []. unfold GetIndex. rewrite h_cap0.
  pose proof (Z.mod_pos_bound pos (size + 1)). lia.
Qed.

(** Both branches of [Fill] write the slot of the next position. *)
Lemma store_value_slot size hist b v :
  holds size hist b → Z.of_nat (length hist) < 2 ^ 64 - 1 →
  store_value v b =
    mk (Z.max 0 (Z.of_nat (length hist) + 1 - size)) (Z.of_nat (length hist) + 1) (size + 1)
      (<[GetIndex b (Z.of_nat (length hist) + 1) := Some v]> (buffer_ b)) (fusion_callback_ b).
Proof.
  intros [] Hlt. unfold store_value, Full. rewrite h_cap0, h_tail0.
  assert (0 <= head_ b <= Z.of_nat (length hist)) by lia.
  unwrap. destruct (Z.eqb_spec (size + 1 - 1) (Z.of_nat (length hist) - head_ b)) as [He|He].
  - f_equal; [lia|]. f_equal. unfold GetIndex. rewrite h_cap0. f_equal.
    replace (Z.of_nat (length hist) + 1) with (head_ b + 1 * (size + 1)) by lia.
    by rewrite Z_mod_plus_full.
  - f_equal. lia.
Qed.

Lemma cache_store_holds size hist b v :
  holds size hist b → Z.of_nat (length hist) < 2 ^ 64 - 1 →
  holds size (hist ++ [v]) (store_value v b).
Proof.
  intros Hh Hlt. rewrite (store_value_slot size hist) by done. pose proof Hh as [].
  assert (Z.of_nat (length (hist ++ [v])) = Z.of_nat (length hist) + 1) as Hl
    by (rewrite length_app; simpl; lia).
  split; cbn [head_ tail_ capacity_ buffer_]; rewrite ?Hl, ?length_insert; try done; try lia.
  intros pos Hpos H1. rewrite hist_at_snoc.
  change (GetIndex (mk _ _ _ _ _) pos) with (Z.to_nat (pos mod (size + 1))).
  unfold GetIndex. rewrite h_cap0. case_decide as Hd.
  - subst. apply list_lookup_insert_eq. pose proof (GetIndex_lt _ _ _ (Z.of_nat (length hist) + 1) Hh).
    unfold GetIndex in *. by rewrite h_cap0 in *.
  - rewrite list_lookup_insert_ne.
    + rewrite <- h_slots0 by lia. unfold GetIndex. by rewrite h_cap0.
    + intros Heq. apply Hd. symmetry. apply (mod_window_inj (size + 1)); [lia| |lia].
      pose proof (Z.mod_pos_bound pos (size + 1)).
      pose proof (Z.mod_pos_bound (Z.of_nat (length hist) + 1) (size + 1)). lia.
Qed.

Lemma holds_at size hist b pos :
  holds size hist b → Z.of_nat (length hist) - size <= pos <= Z.of_nat (length hist) → 1 <= pos →
  at_ b pos = hist_at hist pos.
Proof. intros [] ? ?. unfold at_. by rewrite h_slots0. Qed.

Lemma holds_callback size hist b cb :
  holds size hist b → holds size hist (SetFusionCallback cb b).
Proof. intros []. by split. Qed.

(** The buffer after a sequence of [Fill]s. *)
Definition fill_all (vs : list A) (b : t) : t := foldl (λ b v, store_value v b) b vs.

Lemma fill_all_holds size vs hist b :
  holds size hist b → Z.of_nat (length hist + length vs) < 2 ^ 64 →
  holds size (hist ++ vs) (fill_all vs b).
Proof.
  revert hist b. induction vs as [|v vs IH]; intros hist b Hh Hlt; simpl in *.
  - by rewrite app_nil_r.
  - rewrite (cons_middle v hist vs), (assoc (++)). apply IH.
    + apply cache_store_holds; [done|lia].
    + rewrite length_app. simpl. lia.
Qed.

(** A buffer of [size] that was filled with [hist] reports the right size and
    positions, and at every readable position the message filled in there. *)
Theorem cache_buffer_window size hist :
  0 <= size < 2 ^ 64 - 1 → Z.of_nat (length hist) < 2 ^ 64 - 1 →
  let b := fill_all hist (CacheBuffer size) in
  Size b = Z.min size (Z.of_nat (length hist)) ∧
  Tail b = Z.of_nat (length hist) ∧
  Head b = Tail b - Size b + 1 ∧
  (Empty b = true ↔ hist = []) ∧
  (Full b = true ↔ size <= Z.of_nat (length hist)) ∧
  (hist ≠ [] → Back b = last hist) ∧
  (0 < Size b → Front b = hist_at hist (Head b)) ∧
  (∀ pos, Head b <= pos <= Tail b → at_ b pos = hist_at hist pos ∧ is_Some (at_ b pos)).
Proof.
  intros Hs Hlt b. assert (holds size hist b) as Hh.
  { apply (fill_all_holds size hist []); [by apply cache_new_holds|simpl; lia]. }
  pose proof Hh as []. unfold Size, Head, Tail, Empty, Full, Front, Back.
  rewrite h_cap0, h_tail0, h_head0. unwrap.
  assert (∀ pos, 1 <= pos → Z.of_nat (length hist) - size <= pos <= Z.of_nat (length hist) →
    at_ b pos = hist_at hist pos) as Hat by (intros; by apply (holds_at size)).
  split_and!; [lia|done|lia| |rewrite Z.eqb_eq; lia| | |].
  - rewrite Z.eqb_eq. destruct hist; [done|]. simpl. split; [lia|done].
  - intros Hne. assert (length hist ≠ 0%nat) by (by destruct hist).
    rewrite Hat by lia. unfold hist_at. rewrite decide_True by lia.
    rewrite last_lookup. f_equal. lia.
  - intros ?. apply Hat; lia.
  - intros pos Hpos. rewrite Hat by lia. split; [done|]. apply hist_at_is_Some. lia.
Qed.
End cache.
#[global] Arguments t : clear implicits.

(** A ring of two: message 1 has been overwritten, 2 is past the window. *)
Lemma cache_buffer_window_witness :
  at_ (C := unit) (fill_all [10; 20; 30; 40] (CacheBuffer 2)) 3 = Some 30.
Proof.
  destruct (cache_buffer_window (C := unit) 2 [10; 20; 30; 40])
    as (_ & _ & _ & _ & _ & _ & _ & H); [lia|simpl; lia|].
  destruct (H 3) as [-> _]; [vm_compute; split; discriminate|]. reflexivity.
Defined.
End CacheBuffer.

(** ** [ChannelBuffer]: the operations under the buffer's mutex, as functions of
    the [CacheBuffer] it points to *)
Module ChannelBuffer.
Import CacheBuffer.
Section channel.
Context {A C : Type}.
Implicit Types b : CacheBuffer.t A C.

(** [Fetch(&index, m)]: the answer, the new index, the message. *)
Definition Fetch (index : Z) b : bool * Z * option A :=
  if Empty b then (false, index, None)
  else if index =? 0 then (true, Tail b, at_ b (Tail b))
  else if index =? Tail b +64 1 then (false, index, None)
  else if index <? Head b then (true, Tail b, at_ b (Tail b))
  else (true, index, at_ b index).

Definition Latest b : option (option A) :=
  if Empty b then None else Some (Back b).

(** The loop of [FetchMulti], with fuel. *)
Fixpoint fetch_loop (fuel : nat) (index : Z) b : option (list (option A)) :=
  if index <=? Tail b then
    match fuel with
    | O => None
    | S fuel => vec ← fetch_loop fuel (index +64 1) b; Some (at_ b index :: vec)
    end
  else Some [].

Definition FetchMulti (fuel : nat) (fetch_size : Z) b : option (option (list (option A))) :=
  if Empty b then Some None
  else
    let num := Z.min (Size b) fetch_size in
    vec ← fetch_loop fuel (Tail b -64 num +64 1) b; Some (Some vec).

(** *** What a reader sees of the messages [hist] *)

Definition fetch_spec (size : Z) (hist : list A) (index : Z) : bool * Z * option A :=
  let n := Z.of_nat (length hist) in
  if n =? 0 then (false, index, None)
  else if index =? n + 1 then (false, index, None)
  else if (index =? 0) || (index <=? n - size) then (true, n, hist_at hist n)
  else (true, index, hist_at hist index).

Lemma Fetch_spec size hist b index :
  holds size hist b → Z.of_nat (length hist) < 2 ^ 64 - 1 →
  0 <= index <= Z.of_nat (length hist) + 1 →
  Fetch index b = fetch_spec size hist index.
Proof.
  intros Hh Hlt Hi. pose proof Hh as []. unfold Fetch, fetch_spec, Empty, Tail, Head.
  rewrite h_tail0, h_head0. unwrap.
  destruct (Z.eqb_spec (Z.of_nat (length hist)) 0) as [Hz|Hz]; [done|].
  destruct (Z.eqb_spec index 0) as [->|Hi0]; cbn [orb].
  { rewrite (proj2 (Z.eqb_neq _ _)) by lia. by rewrite (holds_at size hist) by (done || lia). }
  destruct (Z.eqb_spec index (Z.of_nat (length hist) + 1)) as [|Hi1]; [done|].
  destruct (Z.ltb_spec index (Z.max 0 (Z.of_nat (length hist) - size) + 1)) as [Hd|Hd];
    destruct (Z.leb_spec index (Z.of_nat (length hist) - size)) as [He|He]; try lia;
    by rewrite (holds_at size hist) by (done || lia).
Qed.

Lemma Latest_spec size hist b :
  holds size hist b → Z.of_nat (length hist) < 2 ^ 64 - 1 →
  Latest b = match hist with [] => None | _ => Some (last hist) end.
Proof.
  intros Hh Hlt. pose proof Hh as []. unfold Latest, Empty, Back. rewrite h_tail0.
  destruct hist as [|x hist]; [done|]. rewrite (proj2 (Z.eqb_neq _ _)) by (simpl; lia).
  rewrite (holds_at size (x :: hist)) by (done || simpl; lia). unfold hist_at.
  rewrite decide_True by (simpl; lia). rewrite last_lookup. do 2 f_equal. simpl. lia.
Qed.

Lemma fetch_loop_spec size hist b k :
  holds size hist b → Z.of_nat (length hist) < 2 ^ 64 - 1 →
  Z.of_nat k <= Z.min size (Z.of_nat (length hist)) →
  ∀ fuel, (k <= fuel)%nat →
  fetch_loop fuel (Z.of_nat (length hist) - Z.of_nat k + 1) b =
    Some (Some <$> drop (length hist - k) hist).
Proof.
  intros Hh Hlt. pose proof Hh as []. induction k as [|k IH]; intros Hk fuel Hf.
  - rewrite Nat.sub_0_r, drop_all.
    destruct fuel; simpl; unfold Tail; rewrite h_tail0, (proj2 (Z.leb_gt _ _)) by lia; done.
  - destruct fuel as [|fuel]; [lia|]. simpl. unfold Tail. rewrite h_tail0.
    rewrite (proj2 (Z.leb_le _ _)) by lia. rewrite u64_small by lia.
    replace (Z.of_nat (length hist) - Z.of_nat (S k) + 1 + 1)
      with (Z.of_nat (length hist) - Z.of_nat k + 1) by lia.
    rewrite IH by lia. simpl. f_equal.
    destruct (lookup_lt_is_Some_2 hist (length hist - S k)) as [x Hx]; [lia|].
    rewrite (drop_S hist x (length hist - S k)) by done.
    replace (S (length hist - S k)) with (length hist - k)%nat by lia. simpl. f_equal.
    rewrite (holds_at size hist) by (done || lia). unfold hist_at.
    rewrite decide_True by lia. rewrite <- Hx. f_equal. lia.
Qed.

(** Reading.  [Latest] is the newest message; [FetchMulti(k)] the last
    [min k size] messages, oldest first, and its loop ends; [Fetch] serves the
    message at the reader's index, jumps to the newest one when the index is new
    or the message was dropped, and fails without a change when there is no
    message at the index yet. *)
Theorem channel_buffer_reads size hist index fetch_size fuel :
  0 <= size < 2 ^ 64 - 1 → Z.of_nat (length hist) < 2 ^ 64 - 1 →
  0 <= index <= Z.of_nat (length hist) + 1 → 0 <= fetch_size →
  Z.min size (Z.of_nat (length hist)) <= Z.of_nat fuel →
  let b := fill_all (C := C) hist (CacheBuffer size) in
  Fetch index b = fetch_spec size hist index ∧
  Latest b = match hist with [] => None | _ => Some (last hist) end ∧
  FetchMulti fuel fetch_size b = Some
    match hist with
    | [] => None
    | _ => Some (Some <$> drop (length hist - Z.to_nat (Z.min size fetch_size)) hist)
    end.
Proof.
  intros Hs Hlt Hi Hf Hfuel b. assert (holds size hist b) as Hh.
  { apply (fill_all_holds size hist []); [by apply cache_new_holds|simpl; lia]. }
  split_and!; [by apply Fetch_spec|by apply (Latest_spec size)|].
  pose proof Hh as []. unfold FetchMulti, Empty, Size, Tail. rewrite h_tail0, h_head0.
  destruct (decide (hist = [])) as [->|Hne]; [done|].
  assert (length hist ≠ 0%nat) by (by destruct hist).
  rewrite (proj2 (Z.eqb_neq _ _)) by lia. unwrap.
  remember (Z.min (Z.of_nat (length hist) - Z.max 0 (Z.of_nat (length hist) - size)) fetch_size) as num eqn:Hnum.
  replace (Z.of_nat (length hist) - num + 1)
    with (Z.of_nat (length hist) - Z.of_nat (Z.to_nat num) + 1) by lia.
  rewrite (fetch_loop_spec size hist) by (done || lia). simpl.
  destruct hist; [done|]. do 4 f_equal. lia.
Qed.

(** *** A reader in step with a writer *)

(** [TryFetch] of a [DataVisitor]: [Fetch] at [next_msg_index_], which then moves
    on.  The events of one channel with one reader: a message is filled in, or
    the reader fetches. *)
Inductive event := Publish (m : A) | TryFetch.

Definition try_fetch (next_msg_index_ : Z) b : Z * option (option A) :=
  match Fetch next_msg_index_ b with
  | (true, index, m) => (index +64 1, Some m)
  | (false, index, _) => (index, None)
  end.

(** The state, and the messages fetched so far with their positions. *)
Record reader := mkreader { buf : CacheBuffer.t A C; next : Z; got : list (Z * option A) }.

Definition do_event (r : reader) (e : event) : reader :=
  match e with
  | Publish m => mkreader (store_value m (buf r)) (next r) (got r)
  | TryFetch =>
      let '(next', m) := try_fetch (next r) (buf r) in
      mkreader (buf r) next'
        (match m with Some m => got r ++ [(next' -64 1, m)] | None => got r end)
  end.

Definition published (es : list event) : list A :=
  omap (λ e, match e with Publish m => Some m | TryFetch => None end) es.

Definition new_reader (size : Z) : reader := mkreader (CacheBuffer size) 0 [].

Record reader_ok (size : Z) (hist : list A) (r : reader) : Prop := {
  ro_holds : holds size hist (buf r);
  ro_next : 0 <= next r <= Z.of_nat (length hist) + 1;
  ro_got i pos m : got r !! i = Some (pos, m) → 1 <= pos < next r ∧ m = hist_at hist pos;
  ro_sorted i j p q m m' : (i < j)%nat →
    got r !! i = Some (p, m) → got r !! j = Some (q, m') → p < q;
}.

(** The position a fetch serves, if any. *)
Definition served (size : Z) (hist : list A) (index : Z) : option Z :=
  let n := Z.of_nat (length hist) in
  if (n =? 0) || (index =? n + 1) then None
  else Some (if (index =? 0) || (index <=? n - size) then n else index).

Lemma served_range size hist index pos :
  0 <= index <= Z.of_nat (length hist) + 1 → served size hist index = Some pos →
  1 <= pos <= Z.of_nat (length hist) ∧ index <= pos.
Proof.
  unfold served. intros Hi Hs.
  destruct (Z.eqb_spec (Z.of_nat (length hist)) 0), (Z.eqb_spec index (Z.of_nat (length hist) + 1)),
    (Z.eqb_spec index 0), (Z.leb_spec index (Z.of_nat (length hist) - size)); simplify_eq/=; lia.
Qed.

Lemma do_fetch size hist r :
  reader_ok size hist r → Z.of_nat (length hist) < 2 ^ 64 - 2 →
  do_event r TryFetch =
    match served size hist (next r) with
    | Some pos => mkreader (buf r) (pos + 1) (got r ++ [(pos, hist_at hist pos)])
    | None => r
    end.
Proof.
  intros [] Hlt. unfold do_event, try_fetch. rewrite (Fetch_spec size hist) by (done || lia).
  unfold fetch_spec, served.
  destruct (Z.eqb_spec (Z.of_nat (length hist)) 0); [by destruct r|].
  destruct (Z.eqb_spec (next r) (Z.of_nat (length hist) + 1)); [by destruct r|].
  cbn [orb].
  destruct (Z.eqb_spec (next r) 0), (Z.leb_spec (next r) (Z.of_nat (length hist) - size));
    cbn [orb]; unwrap; f_equal; (repeat f_equal; lia).
Qed.

Lemma reader_ok_fetch size hist r :
  reader_ok size hist r → Z.of_nat (length hist) < 2 ^ 64 - 2 →
  reader_ok size hist (do_event r TryFetch).
Proof.
  intros Hok Hlt. rewrite (do_fetch size hist) by done. pose proof Hok as [].
  destruct (served size hist (next r)) as [pos|] eqn:Hs; [|done].
  apply served_range in Hs as [Hp Hle]; [|done].
  split; cbn; [done|lia| |].
  - intros i p m [Hi|[_ Hi]]%lookup_app_Some.
    + destruct (ro_got0 _ _ _ Hi). split; [lia|done].
    + apply list_lookup_singleton_Some in Hi as [_ ?]. simplify_eq. split; [lia|done].
  - intros i j p q m m' Hij [Hi|[Hi' Hi]]%lookup_app_Some [Hj|[Hj' Hj]]%lookup_app_Some.
    + by eapply (ro_sorted0 i j).
    + apply list_lookup_singleton_Some in Hj as [_ ?]. simplify_eq.
      destruct (ro_got0 _ _ _ Hi). lia.
    + apply lookup_lt_Some in Hj. lia.
    + apply list_lookup_singleton_Some in Hi as [? _], Hj as [? _]. lia.
Qed.

Lemma reader_ok_publish size hist r v :
  reader_ok size hist r → Z.of_nat (length hist) < 2 ^ 64 - 1 →
  reader_ok size (hist ++ [v]) (do_event r (Publish v)).
Proof.
  intros [] Hlt. split; cbn; [by apply cache_store_holds| | |done].
  - rewrite length_app. simpl. lia.
  - intros i pos m Hi. destruct (ro_got0 _ _ _ Hi) as [Hp ->]. split; [done|].
    rewrite hist_at_snoc, decide_False; [done|lia].
Qed.

Lemma reader_run size es hist r :
  reader_ok size hist r → Z.of_nat (length hist + length (published es)) < 2 ^ 64 - 2 →
  reader_ok size (hist ++ published es) (foldl do_event r es).
Proof.
  revert hist r. induction es as [|[v|] es IH]; intros hist r Hok Hlt; simpl in *.
  - by rewrite app_nil_r.
  - rewrite (cons_middle v hist), (assoc (++)). apply IH.
    + apply reader_ok_publish; [done|]. unfold published in *. simpl in *. lia.
    + rewrite length_app. unfold published in *. simpl in *. lia.
  - apply IH; [|done]. apply reader_ok_fetch; [done|lia].
Qed.

Lemma new_reader_ok size : 0 <= size < 2 ^ 64 - 1 → reader_ok size [] (new_reader size).
Proof. intros. split; simpl; [by apply cache_new_holds|lia|done|done]. Qed.

(** C8: delivery.  In any history of publications and fetches the reader gets
    published messages only, in publication order and none twice; and the next
    fetch delivers exactly the message at the reader's position unless that
    one is unpublished (no delivery) or out of the window (the newest one). *)
Theorem reader_delivery size es :
  0 <= size < 2 ^ 64 - 1 → Z.of_nat (length (published es)) < 2 ^ 64 - 2 →
  let r := foldl do_event (new_reader size) es in
  let hist := published es in
  (∀ i pos m, got r !! i = Some (pos, m) → m = hist_at hist pos ∧ is_Some m) ∧
  (∀ i j p q m m', (i < j)%nat →
     got r !! i = Some (p, m) → got r !! j = Some (q, m') → p < q) ∧
  got (do_event r TryFetch) = got r ++
    match served size hist (next r) with
    | Some pos => [(pos, hist_at hist pos)]
    | None => []
    end.
Proof.
  intros Hs Hlt r hist.
  assert (reader_ok size hist r) as Hok.
  { apply (reader_run size es []); [by apply new_reader_ok|done]. }
  rewrite (do_fetch size hist) by done. destruct Hok. split_and!.
  - intros i pos m Hi. destruct (ro_got0 _ _ _ Hi) as [? ->]. split; [done|].
    apply hist_at_is_Some. lia.
  - done.
  - case_match; simpl; [done|by rewrite app_nil_r].
Qed.

Lemma reader_burst_fetches size hist vs r k :
  reader_ok size (hist ++ vs) r → Z.of_nat (length (hist ++ vs)) < 2 ^ 64 - 2 →
  Z.of_nat (length vs) <= size → (k <= length vs)%nat → (0 < length (hist ++ vs))%nat →
  next r = Z.of_nat (length (hist ++ vs)) - Z.of_nat k + 1 →
  got (foldl do_event r (replicate k TryFetch)) =
    got r ++ imap (λ i v, (next r + Z.of_nat i, Some v)) (drop (length vs - k) vs).
Proof.
  revert r. induction k as [|k IH]; intros r Hok Hlt Hsz Hk Hpos Hn.
  - rewrite Nat.sub_0_r, drop_all. simpl. by rewrite app_nil_r.
  - cbn [replicate foldl]. rewrite length_app in *.
    destruct (lookup_lt_is_Some_2 vs (length vs - S k)) as [x Hx]; [lia|].
    rewrite (drop_S vs x) by done. replace (S (length vs - S k)) with (length vs - k)%nat by lia.
    assert (served size (hist ++ vs) (next r) = Some (next r)) as Hserved.
    { unfold served. rewrite length_app.
      rewrite (proj2 (Z.eqb_neq (Z.of_nat _) 0)), (proj2 (Z.eqb_neq (next r) _)),
        (proj2 (Z.eqb_neq (next r) 0)), (proj2 (Z.leb_gt (next r) _)) by lia. done. }
    assert (hist_at (hist ++ vs) (next r) = Some x) as Hat.
    { unfold hist_at. rewrite decide_True by lia. rewrite lookup_app_r by lia.
      rewrite <- Hx. f_equal. lia. }
    pose proof (reader_ok_fetch _ _ _ Hok ltac:(rewrite length_app; lia)) as Hok'.
    rewrite (do_fetch size (hist ++ vs)), Hserved in * by (done || rewrite length_app; lia).
    rewrite IH; cbn [next got]; try done; try (rewrite ?length_app; lia).
    rewrite Hat, <- (assoc (++)). f_equal. simpl. f_equal; [f_equal; lia|].
    apply imap_ext. intros i y _. simpl. f_equal. lia.
Qed.

(** No loss within the window.  A reader that is up to date and lets at most
    [size] messages pass gets all of them, in order, from as many fetches. *)
Theorem reader_burst size es vs :
  0 <= size < 2 ^ 64 - 1 →
  let r := foldl do_event (new_reader size) es in
  Z.of_nat (length (published es) + length vs) < 2 ^ 64 - 2 →
  published es ≠ [] → next r = Z.of_nat (length (published es)) + 1 →
  Z.of_nat (length vs) <= size →
  got (foldl do_event r ((Publish <$> vs) ++ replicate (length vs) TryFetch)) =
    got r ++ imap (λ i v, (next r + Z.of_nat i, Some v)) vs.
Proof.
  intros Hs r Hlt Hne Hn Hsz.
  assert (reader_ok size (published es) r) as Hok.
  { apply (reader_run size es []); [by apply new_reader_ok|simpl; lia]. }
  assert (∀ ws r, got (foldl do_event r (Publish <$> ws)) = got r ∧
    next (foldl do_event r (Publish <$> ws)) = next r) as Hpub.
  { induction ws as [|w ws IH]; intros r'; simpl; [done|]. apply (IH (mkreader _ _ _)). }
  assert (published (Publish <$> vs) = vs) as Hp.
  { unfold published. clear. induction vs as [|v vs IH]; simpl; [done|]. by f_equal. }
  rewrite foldl_app.
  pose proof (reader_run size (Publish <$> vs) _ _ Hok) as Hok'. rewrite Hp in Hok'.
  assert (length (published es) ≠ 0%nat) by (by destruct (published es)).
  destruct (Hpub vs r) as [Hg Hnx].
  rewrite (reader_burst_fetches size (published es) vs);
    rewrite ?Hg, ?Hnx, ?length_app; try done; try lia.
  - by rewrite Nat.sub_diag.
  - apply Hok'. lia.
Qed.
End channel.
#[global] Arguments reader : clear implicits.
#[global] Arguments event : clear implicits.

Lemma channel_buffer_reads_witness :
  FetchMulti (C := unit) 3 5 (fill_all [10; 20; 30; 40] (CacheBuffer 3)) =
    Some (Some [Some 20; Some 30; Some 40]) ∧
  Fetch (C := unit) 1 (fill_all [10; 20; 30; 40] (CacheBuffer 3)) = (true, 4, Some 40).
Proof.
  destruct (channel_buffer_reads (C := unit) 3 [10; 20; 30; 40] 1 5 3) as (HF & _ & HM);
    [lia|simpl; lia|simpl; lia|lia|simpl; lia|].
  split; [rewrite HM|rewrite HF]; reflexivity.
Defined.

(** The reader joins at message 2, misses 3 and 4 and gets 5. *)
Definition demo_events : list (event Z) :=
  [Publish 1; Publish 2; TryFetch; TryFetch; Publish 3; Publish 4; Publish 5; TryFetch; TryFetch].

Lemma reader_delivery_witness :
  got (foldl do_event (new_reader (C := unit) 2) demo_events) = [(2, Some 2); (5, Some 5)] ∧
  Some 5 = hist_at [1; 2; 3; 4; 5] 5.
Proof.
  split; [vm_compute; reflexivity|].
  destruct (reader_delivery (C := unit) 2 demo_events) as (H & _ & _);
    [lia|vm_compute; reflexivity|].
  destruct (H 1%nat 5 (Some 5)) as [H5 _]; [vm_compute; reflexivity|]. exact H5.
Defined.

Lemma reader_burst_witness :
  got (foldl do_event (foldl do_event (new_reader (C := unit) 2) demo_events)
    ((Publish <$> [6; 7]) ++ replicate (length [6; 7]) TryFetch)) =
  [(2, Some 2); (5, Some 5); (6, Some 6); (7, Some 7)].
Proof.
  rewrite (reader_burst (C := unit) 2 demo_events [6; 7]).
  - vm_compute. reflexivity.
  - lia.
  - vm_compute. reflexivity.
  - discriminate.
  - vm_compute. reflexivity.
  - vm_compute. discriminate.
Defined.
End ChannelBuffer.
