(* ===== verification/DataFlow.v ===== *)
(** * From a dispatched message to a component ([cyber/data/data_notifier.h],
    [cyber/data/data_dispatcher.h], [cyber/data/fusion/all_latest.h],
    [cyber/data/data_visitor.h])

    The objects share buffers through pointers: a [DataVisitor] creates one
    buffer per channel and registers it with the dispatcher (a weak pointer);
    with two to four channels its [AllLatest] installs a callback on the first
    buffer, which reads the others and fills a buffer of fused tuples.  The model
    is a store of objects, addressed by numbers.  An operation is [None] when it
    would dereference an object that is not alive.  The templates for one to four
    channels are one definition over the list of channels. *)

From S2P Require Import Prelude DataBuffers.
Import CacheBuffer.

Local Open Scope Z_scope.
Local Open Scope cyber_scope.

Module DataFlow.
Section flow.
(** Messages. *)
Context {M : Type}.

(** The key of a buffer vector: [DataDispatcher<T>] is one object per message
    type [T], its map is keyed by the channel id. *)
Definition key : Type := nat * Z.

Record VisitorConfig := mkcfg { message_type : nat; channel_id : Z; queue_size : Z }.
Definition cfg_key (c : VisitorConfig) : key := (message_type c, channel_id c).

(** [ChannelBuffer]: the channel and the shared buffer. *)
Record Channel := mkchan { chan_id : Z; chan_buffer : nat }.

(** A buffer of messages; its fusion callback is the lambda of [AllLatest],
    whose captured [this] is an address. *)
#[local] Notation MBuf := (CacheBuffer.t M nat).

(** [FusionDataType] is a tuple; the fused buffer has no callback. *)
#[local] Notation FBuf := (CacheBuffer.t (list (option M)) Empty_set).

Record AllLatest := mkal {
  buffer_m0_ : Channel;
  buffer_rest : list Channel;
  buffer_fusion_ : FBuf;
}.

Record DataVisitor := mkvis {
  data_fusion_ : option nat;
  buffers_ : list Channel;
  next_msg_index_ : Z;
  notifier_ : nat;
}.

Record store := mkstore {
  next_addr : nat;
  bufs : gmap nat MBuf;
  fusions : gmap nat AllLatest;
  (** [Notifier] objects with their callback, if one is registered *)
  notifiers : gmap nat (option nat);
  (** [DataDispatcher<T>::buffers_map_] of every [T] *)
  buffers_map_ : gmap key (list nat);
  (** [DataNotifier::notifies_map_] *)
  notifies_map_ : gmap Z (list nat);
  is_shutdown : bool;
}.

Definition set_bufs (m : gmap nat MBuf) (st : store) : store :=
  mkstore (next_addr st) m (fusions st) (notifiers st) (buffers_map_ st) (notifies_map_ st) (is_shutdown st).
Definition set_fusions (m : gmap nat AllLatest) (st : store) : store :=
  mkstore (next_addr st) (bufs st) m (notifiers st) (buffers_map_ st) (notifies_map_ st) (is_shutdown st).

Definition empty_store : store := mkstore 0 ∅ ∅ ∅ ∅ ∅ false.

(** ** [DataNotifier] *)
Definition AddNotifier (channel : Z) (notifier : nat) (st : store) : store :=
  mkstore (next_addr st) (bufs st) (fusions st) (notifiers st) (buffers_map_ st)
    (match notifies_map_ st !! channel with
     | None => <[channel := [notifier]]> (notifies_map_ st)
     | Some v => <[channel := v ++ [notifier]]> (notifies_map_ st)
     end) (is_shutdown st).

(** [Notify]: the answer and the callbacks called, in order. *)
Definition Notify (channel : Z) (st : store) : bool * list nat :=
  match notifies_map_ st !! channel with
  | None => (false, [])
  | Some v => (true, omap (λ n, mjoin (notifiers st !! n)) v)
  end.

(** ** [AllLatest] *)

(** [Latest] on the other buffers in turn; the inner [None] is a buffer that is
    still empty. *)
Fixpoint latest_all (st : store) (chans : list Channel) : option (option (list (option M))) :=
  match chans with
  | [] => Some (Some [])
  | c :: chans =>
      b ← bufs st !! chan_buffer c;
      match ChannelBuffer.Latest b with
      | None => Some None
      | Some m => r ← latest_all st chans; Some (r' ← r; Some (m :: r'))
      end
  end.

(** The lambda installed by [SetFusionCallback]. *)
Definition fusion_lambda (this : nat) (m0 : M) (st : store) : option store :=
  al ← fusions st !! this;
  r ← latest_all st (buffer_rest al);
  match r with
  | None => Some st
  | Some ms =>
      match Fill (Some m0 :: ms) (buffer_fusion_ al) with
      | inl b => Some (set_fusions (<[this := mkal (buffer_m0_ al) (buffer_rest al) b]> (fusions st)) st)
      | inr e => match e with end
      end
  end.

(** The constructor of [AllLatest] for the object at address [this]. *)
Definition AllLatest_new (this : nat) (m0 : Channel) (rest : list Channel) (st : store) :
    option store :=
  b0 ← bufs st !! chan_buffer m0;
  Some (set_bufs (<[chan_buffer m0 := SetFusionCallback this b0]> (bufs st))
    (set_fusions (<[this := mkal m0 rest (CacheBuffer (Capacity b0 -64 1))]> (fusions st)) st)).

Definition Fusion (this : nat) (index : Z) (st : store) : option (bool * Z * list (option M)) :=
  al ← fusions st !! this;
  match ChannelBuffer.Fetch index (buffer_fusion_ al) with
  | (false, index, _) => Some (false, index, [])
  | (true, index, fusion_data) => ms ← fusion_data; Some (true, index, ms)
  end.

(** ** [DataDispatcher] *)
Definition AddBuffer (T : nat) (c : Channel) (st : store) : store :=
  mkstore (next_addr st) (bufs st) (fusions st) (notifiers st)
    (match buffers_map_ st !! (T, chan_id c) with
     | None => <[(T, chan_id c) := [chan_buffer c]]> (buffers_map_ st)
     | Some v => <[(T, chan_id c) := v ++ [chan_buffer c]]> (buffers_map_ st)
     end) (notifies_map_ st) (is_shutdown st).

(** One round of the loop of [Dispatch]: the weak pointer may have expired. *)
Definition fill_buffer (msg : M) (st : store) (id : nat) : option store :=
  match bufs st !! id with
  | None => Some st
  | Some b =>
      match Fill msg b with
      | inl b' => Some (set_bufs (<[id := b']> (bufs st)) st)
      | inr this => fusion_lambda this msg st
      end
  end.

Fixpoint fill_buffers (msg : M) (st : store) (ids : list nat) : option store :=
  match ids with
  | [] => Some st
  | id :: ids => st' ← fill_buffer msg st id; fill_buffers msg st' ids
  end.

(** [Dispatch]: the answer, the callbacks called, the new store. *)
Definition Dispatch (k : key) (msg : M) (st : store) : option (bool * list nat * store) :=
  if is_shutdown st then Some (false, [], st)
  else match buffers_map_ st !! k with
  | None => Some (false, [], st)
  | Some buffers => st' ← fill_buffers msg st buffers; Some (Notify k.2 st', st')
  end.

(** ** [DataVisitor] *)
Definition new_notifier (st : store) : nat * store :=
  (next_addr st,
   mkstore (S (next_addr st)) (bufs st) (fusions st) (<[next_addr st := None]> (notifiers st))
     (buffers_map_ st) (notifies_map_ st) (is_shutdown st)).

Definition new_buffer (c : VisitorConfig) (st : store) : Channel * store :=
  (mkchan (channel_id c) (next_addr st),
   mkstore (S (next_addr st)) (<[next_addr st := CacheBuffer (queue_size c)]> (bufs st)) (fusions st)
     (notifiers st) (buffers_map_ st) (notifies_map_ st) (is_shutdown st)).

Fixpoint new_buffers (cs : list VisitorConfig) (st : store) : list Channel * store :=
  match cs with
  | [] => ([], st)
  | c :: cs =>
      let '(ch, st) := new_buffer c st in
      let '(chs, st) := new_buffers cs st in (ch :: chs, st)
  end.

Definition add_buffers (cs : list VisitorConfig) (chs : list Channel) (st : store) : store :=
  foldl (λ st cc, AddBuffer (message_type cc.1) cc.2 st) st (zip cs chs).

(** The constructors: one channel, or two to four with a fusion. *)
Definition DataVisitor_new (c0 : VisitorConfig) (cs : list VisitorConfig) (st : store) :
    option (DataVisitor * store) :=
  let '(notifier, st) := new_notifier st in
  let '(ch0, st) := new_buffer c0 st in
  let '(chs, st) := new_buffers cs st in
  let st := add_buffers (c0 :: cs) (ch0 :: chs) st in
  let st := AddNotifier (chan_id ch0) notifier st in
  match chs with
  | [] => Some (mkvis None [ch0] 0 notifier, st)
  | _ =>
      let this := next_addr st in
      let st := mkstore (S this) (bufs st) (fusions st) (notifiers st) (buffers_map_ st)
                  (notifies_map_ st) (is_shutdown st) in
      st ← AllLatest_new this ch0 chs st;
      Some (mkvis (Some this) (ch0 :: chs) 0 notifier, st)
  end.

Definition RegisterNotifyCallback (callback : nat) (v : DataVisitor) (st : store) : store :=
  mkstore (next_addr st) (bufs st) (fusions st) (<[notifier_ v := Some callback]> (notifiers st))
    (buffers_map_ st) (notifies_map_ st) (is_shutdown st).

Definition TryFetch (v : DataVisitor) (st : store) :
    option (bool * list (option M) * DataVisitor) :=
  r ← match data_fusion_ v with
      | Some this => Fusion this (next_msg_index_ v) st
      | None =>
          c ← head (buffers_ v);
          b ← bufs st !! chan_buffer c;
          let '(ok, index, m) := ChannelBuffer.Fetch (next_msg_index_ v) b in Some (ok, index, if (ok : bool) then [m] else [])
      end;
  let '(ok, index, ms) := r in
  Some (ok, ms, mkvis (data_fusion_ v) (buffers_ v) (if (ok : bool) then index +64 1 else index)
                  (notifier_ v)).

(** [~DataVisitor]: its body deletes the fusion; the members are destroyed
    after it, which releases the buffers. *)
Definition delete_fusion (v : DataVisitor) (st : store) : store :=
  match data_fusion_ v with
  | Some this => set_fusions (delete this (fusions st)) st
  | None => st
  end.

Definition release_members (v : DataVisitor) (st : store) : store :=
  set_bufs (foldr (λ c m, delete (chan_buffer c) m) (bufs st) (buffers_ v)) st.

(** ** What a visitor of several channels sees

    The messages dispatched under a key, and the tuples a visitor with the
    channel [k0] first and the channels [ks] after it should get: one for each
    message of [k0], with the latest message of every other channel, once each
    of them has one. *)
Definition message : Type := key * M.

Definition dispatched (k : key) (evs : list message) : list M :=
  omap (λ e, if decide (e.1 = k) then Some e.2 else None) evs.

Definition latest_of (ks : list key) (pre : list message) : option (list M) :=
  mapM (λ k, last (dispatched k pre)) ks.

Fixpoint fused (k0 : key) (ks : list key) (pre evs : list message) : list (list (option M)) :=
  match evs with
  | [] => []
  | e :: evs =>
      (if decide (e.1 = k0) then
         match latest_of ks pre with Some ms => [Some e.2 :: (Some <$> ms)] | None => [] end
       else []) ++ fused k0 ks (pre ++ [e]) evs
  end.

Lemma dispatched_snoc k pre e :
  dispatched k (pre ++ [e]) = dispatched k pre ++ (if decide (e.1 = k) then [e.2] else []).
Proof. unfold dispatched. rewrite omap_app. simpl. by case_decide. Qed.

Lemma dispatched_cons k e evs :
  dispatched k (e :: evs) = (if decide (e.1 = k) then [e.2] else []) ++ dispatched k evs.
Proof. unfold dispatched. simpl. by case_decide. Qed.

Lemma dispatched_length k evs : (length (dispatched k evs) <= length evs)%nat.
Proof.
  induction evs as [|e evs IH]; [done|]. rewrite dispatched_cons, length_app.
  case_decide; simpl; lia.
Qed.

Lemma fused_app k0 ks pre evs1 evs2 :
  fused k0 ks pre (evs1 ++ evs2) = fused k0 ks pre evs1 ++ fused k0 ks (pre ++ evs1) evs2.
Proof.
  revert pre. induction evs1 as [|e evs1 IH]; intros pre; simpl.
  - by rewrite app_nil_r.
  - rewrite IH, <- !(assoc (++)). done.
Qed.

Lemma fused_length k0 ks pre evs : (length (fused k0 ks pre evs) <= length evs)%nat.
Proof.
  revert pre. induction evs as [|e evs IH]; intros pre; simpl; [lia|].
  rewrite length_app. specialize (IH (pre ++ [e])). repeat case_match; simpl; lia.
Qed.

(** The buffers of the channels after the first one: key, size and address. *)
Record member := mkmem { mem_key : key; mem_size : Z; mem_id : nat }.
Definition mem_chan (m : member) : Channel := mkchan (mem_key m).2 (mem_id m).
Definition registered (ms : list member) (k : key) : list nat :=
  omap (λ m, if decide (mem_key m = k) then Some (mem_id m) else None) ms.
Definition as_entry (l : list nat) : option (list nat) :=
  match l with [] => None | _ => Some l end.

Definition mem_ok (pre : list message) (B : gmap nat MBuf) (m : member) : Prop :=
  ∃ b, B !! mem_id m = Some b ∧ fusion_callback_ b = None ∧
    holds (mem_size m) (dispatched (mem_key m) pre) b.

(** The store of one visitor after the messages [pre]. *)
Record flow_inv (this : nat) (m0 : member) (ms : list member) (cb : option nat) (n : nat)
    (pre : list message) (st : store) : Prop := {
  fi_shutdown : is_shutdown st = false;
  fi_nodup : NoDup (mem_id <$> m0 :: ms);
  fi_map k : buffers_map_ st !! k = as_entry (registered (m0 :: ms) k);
  fi_b0 : ∃ b0, bufs st !! mem_id m0 = Some b0 ∧ fusion_callback_ b0 = Some this;
  fi_mems : Forall (mem_ok pre (bufs st)) ms;
  fi_fusion : ∃ fb, fusions st !! this = Some (mkal (mem_chan m0) (mem_chan <$> ms) fb) ∧
    holds (mem_size m0) (fused (mem_key m0) (mem_key <$> ms) [] pre) fb;
  fi_notify c : notifies_map_ st !! c = if decide (c = (mem_key m0).2) then Some [n] else None;
  fi_notifier : notifiers st !! n = Some cb;
}.

Lemma latest_all_spec st ms pre :
  Forall (mem_ok pre (bufs st)) ms → Z.of_nat (length pre) < 2 ^ 64 - 1 →
  latest_all st (mem_chan <$> ms) =
    Some match latest_of (mem_key <$> ms) pre with Some l => Some (Some <$> l) | None => None end.
Proof.
  intros Hms Hlt. unfold latest_of.
  induction Hms as [|m ms (b & Hb & _ & Hh) _ IH]; [done|]. cbn. rewrite Hb. cbn.
  pose proof (dispatched_length (mem_key m) pre).
  rewrite (ChannelBuffer.Latest_spec _ _ _ Hh) by lia.
  destruct (dispatched (mem_key m) pre) as [|x l] eqn:E; [done|].
  rewrite IH. simpl. rewrite last_cons. destruct (last l); simpl; by case_match.
Qed.

Lemma mem_ok_other pre e B m :
  mem_key m ≠ e.1 → mem_ok pre B m → mem_ok (pre ++ [e]) B m.
Proof.
  intros Hne (b & Hb & Hc & Hh). exists b. split_and!; [done..|].
  rewrite dispatched_snoc, decide_False by congruence. by rewrite app_nil_r.
Qed.

Lemma mem_ok_store pre e B m b :
  mem_key m = e.1 → Z.of_nat (length pre) < 2 ^ 64 - 1 →
  B !! mem_id m = Some b → mem_ok pre B m →
  mem_ok (pre ++ [e]) (<[mem_id m := store_value e.2 b]> B) m.
Proof.
  intros Hk Hlt Hb (b' & Hb' & Hc & Hh). simplify_eq. exists (store_value e.2 b).
  rewrite lookup_insert_eq. split_and!; [done| |].
  - rewrite (store_value_slot _ _ _ _ Hh); [done|]. pose proof (dispatched_length (mem_key m) pre). lia.
  - rewrite dispatched_snoc, decide_True by done. apply cache_store_holds; [done|].
    pose proof (dispatched_length (mem_key m) pre). lia.
Qed.

Lemma mem_ok_frame pre B B' m :
  B' !! mem_id m = B !! mem_id m → mem_ok pre B m → mem_ok pre B' m.
Proof. intros Heq (b & Hb & ?). exists b. by rewrite Heq. Qed.

Lemma mems_frame pre B B' ms :
  (∀ id, id ∈ (mem_id <$> ms) → B' !! id = B !! id) →
  Forall (mem_ok pre B) ms → Forall (mem_ok pre B') ms.
Proof.
  rewrite !Forall_forall. intros Heq Hms m Hm. eapply mem_ok_frame; [|by apply Hms].
  apply Heq. apply list_elem_of_fmap. by exists m.
Qed.

(** A dispatched message reaches the buffers registered under its key. *)
Lemma fill_members ms pre st e :
  NoDup (mem_id <$> ms) → Z.of_nat (length pre) < 2 ^ 64 - 1 →
  Forall (mem_ok pre (bufs st)) ms →
  ∃ B, fill_buffers e.2 st (registered ms e.1) = Some (set_bufs B st) ∧
    Forall (mem_ok (pre ++ [e]) B) ms ∧
    ∀ id, id ∉ (mem_id <$> ms) → B !! id = bufs st !! id.
Proof.
  intros Hnd Hlt. revert st. induction ms as [|m ms IH]; intros st Hms.
  { exists (bufs st). by destruct st. }
  rewrite fmap_cons in Hnd. apply NoDup_cons in Hnd as [Hnin Hnd].
  apply Forall_cons in Hms as [Hm Hms]. unfold registered. simpl.
  setoid_rewrite not_elem_of_cons. destruct (decide (mem_key m = e.1)) as [Hk|Hk].
  - pose proof Hm as (b & Hb & Hc & Hh). cbn [fill_buffers]. unfold fill_buffer, Fill.
    rewrite Hb, Hc. simpl.
    destruct (IH Hnd (set_bufs (<[mem_id m := store_value e.2 b]> (bufs st)) st))
      as (B & HB & Hok & Hfr).
    { eapply mems_frame; [|exact Hms]. intros id Hid. simpl. apply lookup_insert_ne. congruence. }
    exists B. simpl in Hfr. split_and!; [done| |].
    + constructor; [|done]. eapply mem_ok_frame; [|by apply (mem_ok_store pre e (bufs st) m b)].
      by apply Hfr.
    + intros id [Hne Hid]. rewrite Hfr by done. by apply lookup_insert_ne.
  - destruct (IH Hnd st Hms) as (B & HB & Hok & Hfr). exists B. split_and!; [done| |].
    + constructor; [|done]. apply mem_ok_other; [done|]. eapply mem_ok_frame; [|exact Hm].
      by apply Hfr.
    + intros id [_ Hid]. by apply Hfr.
Qed.

Definition notified (cb : option nat) : list nat := match cb with Some c => [c] | None => [] end.

Lemma notify_spec this m0 ms cb n pre st c :
  flow_inv this m0 ms cb n pre st →
  Notify c st = (bool_decide (c = (mem_key m0).2),
    if decide (c = (mem_key m0).2) then notified cb else []).
Proof.
  intros []. unfold Notify. rewrite fi_notify0. case_decide as Hd.
  - rewrite bool_decide_true by done. simpl. rewrite fi_notifier0. by destruct cb.
  - by rewrite bool_decide_false.
Qed.

(** The fusion step: a message of the first channel. *)
Lemma fusion_step this m0 ms cb n pre st e :
  flow_inv this m0 ms cb n pre st → Z.of_nat (length pre) < 2 ^ 64 - 2 → e.1 = mem_key m0 →
  ∃ F, fill_buffer e.2 st (mem_id m0) = Some (set_fusions F st) ∧
    ∃ fb, F !! this = Some (mkal (mem_chan m0) (mem_chan <$> ms) fb) ∧
      holds (mem_size m0) (fused (mem_key m0) (mem_key <$> ms) [] (pre ++ [e])) fb.
Proof.
  intros [] Hlt He. destruct fi_b1 as (b0 & Hb0 & Hc0). destruct fi_fusion0 as (fb & Hfb & Hh).
  unfold fill_buffer, Fill. rewrite Hb0, Hc0. unfold fusion_lambda. rewrite Hfb. simpl.
  rewrite (latest_all_spec st ms pre) by (done || lia). simpl.
  rewrite fused_app. simpl. rewrite decide_True by done. rewrite app_nil_r.
  destruct (latest_of (mem_key <$> ms) pre) as [l|].
  - simpl. unfold Fill.
    assert (fusion_callback_ fb = None) as -> by (destruct (fusion_callback_ fb) as [[]|]; done).
    eexists. split; [done|]. eexists. rewrite lookup_insert_eq. split; [done|].
    apply cache_store_holds; [done|]. pose proof (fused_length (mem_key m0) (mem_key <$> ms) [] pre). lia.
  - exists (fusions st). split; [by destruct st|]. exists fb. by rewrite app_nil_r.
Qed.

Lemma registered_nil ms k : registered ms k = [] ↔ k ∉ (mem_key <$> ms).
Proof.
  unfold registered. induction ms as [|m ms IH]; simpl; [split; [intros _; apply not_elem_of_nil|done]|].
  rewrite not_elem_of_cons, <- IH. case_decide as H.
  - split; [done|]. intros [Hn _]. congruence.
  - split; [|by intros []]. intros Hnil. split; [congruence|done].
Qed.

(** [Dispatch] answers whether a notifier is attached to the channel of the
    message, provided some buffer is registered under its key. *)
Definition answer (ks : list key) (k0 k : key) : bool :=
  bool_decide (k ∈ k0 :: ks) && bool_decide (k.2 = k0.2).

Lemma flow_dispatch this m0 ms cb n pre st e :
  flow_inv this m0 ms cb n pre st → Z.of_nat (length pre) < 2 ^ 64 - 2 →
  ∃ st', Dispatch e.1 e.2 st =
      Some (answer (mem_key <$> ms) (mem_key m0) e.1,
            if answer (mem_key <$> ms) (mem_key m0) e.1 then notified cb else [], st') ∧
    flow_inv this m0 ms cb n (pre ++ [e]) st'.
Proof.
  intros Hinv Hlt. pose proof Hinv as []. unfold Dispatch. rewrite fi_shutdown0, fi_map0.
  assert (∃ F, (if decide (e.1 = mem_key m0) then fill_buffer e.2 st (mem_id m0) else Some st) =
      Some (set_fusions F st) ∧
    ∃ fb, F !! this = Some (mkal (mem_chan m0) (mem_chan <$> ms) fb) ∧
      holds (mem_size m0) (fused (mem_key m0) (mem_key <$> ms) [] (pre ++ [e])) fb)
    as (F & HF & HF').
  { destruct (decide (e.1 = mem_key m0)) as [He|He]; [by eapply fusion_step|].
    exists (fusions st). split; [by destruct st|]. rewrite fused_app. simpl.
    rewrite decide_False by done. by rewrite app_nil_r. }
  rewrite fmap_cons in fi_nodup0. apply NoDup_cons in fi_nodup0 as [Hnin Hnd].
  destruct (fill_members ms pre (set_fusions F st) e Hnd ltac:(lia) fi_mems0) as (B & HB & HBm & HBf).
  assert (fill_buffers e.2 st (registered (m0 :: ms) e.1) = Some (set_bufs B (set_fusions F st))) as Hfill.
  { unfold registered in *. simpl. destruct (decide (e.1 = mem_key m0)) as [He|He].
    - rewrite (decide_True (P := mem_key m0 = e.1)) by done. cbn [fill_buffers]. rewrite HF. exact HB.
    - rewrite (decide_False (P := mem_key m0 = e.1)) by congruence.
      assert (set_fusions F st = st) as HFst by congruence. rewrite HFst in *. exact HB. }
  assert (flow_inv this m0 ms cb n (pre ++ [e]) (set_bufs B (set_fusions F st))) as Hinv'.
  { split; simpl; try done.
    - by constructor.
    - rewrite HBf by done. done. }
  assert (answer (mem_key <$> ms) (mem_key m0) e.1 =
    match as_entry (registered (m0 :: ms) e.1) with Some _ => bool_decide (e.1.2 = (mem_key m0).2) | None => false end) as Hans.
  { unfold answer. destruct (registered (m0 :: ms) e.1) eqn:Hr; simpl.
    - rewrite bool_decide_false; [done|]. by apply registered_nil in Hr.
    - rewrite bool_decide_true; [done|]. apply dec_stable. intros Hn.
      assert (registered (m0 :: ms) e.1 = []) by (by apply registered_nil). congruence. }
  exists match registered (m0 :: ms) e.1 with [] => st | _ => set_bufs B (set_fusions F st) end.
  rewrite Hans. destruct (registered (m0 :: ms) e.1) eqn:Hr.
  - split; [done|]. simpl in Hfill. by injection Hfill as ->.
  - cbn [as_entry]. rewrite Hfill. simpl. rewrite (notify_spec _ _ _ _ _ _ _ _ Hinv').
    split; [|done]. case_bool_decide; by repeat case_decide.
Qed.

Fixpoint dispatch_all (evs : list message) (st : store) : option (list (bool * list nat) * store) :=
  match evs with
  | [] => Some ([], st)
  | e :: evs =>
      r ← Dispatch e.1 e.2 st;
      r' ← dispatch_all evs r.2; Some (r.1 :: r'.1, r'.2)
  end.

Lemma flow_dispatch_all this m0 ms cb n evs pre st :
  flow_inv this m0 ms cb n pre st → Z.of_nat (length pre + length evs) < 2 ^ 64 - 2 →
  ∃ st', dispatch_all evs st =
      Some ((λ e, let a := answer (mem_key <$> ms) (mem_key m0) e.1 in
                  (a, if a then notified cb else [])) <$> evs, st') ∧
    flow_inv this m0 ms cb n (pre ++ evs) st'.
Proof.
  revert pre st. induction evs as [|e evs IH]; intros pre st Hinv Hlt; simpl in *.
  - exists st. by rewrite app_nil_r.
  - destruct (flow_dispatch _ _ _ _ _ _ _ e Hinv) as (st1 & -> & Hinv1); [lia|]. simpl.
    destruct (IH _ _ Hinv1) as (st2 & -> & Hinv2); [rewrite length_app; simpl; lia|]. simpl.
    exists st2. split; [done|]. by rewrite <- (assoc (++)) in Hinv2.
Qed.
(** *** The constructor *)

Fixpoint members_at (a : nat) (cs : list VisitorConfig) : list member :=
  match cs with
  | [] => []
  | c :: cs => mkmem (cfg_key c) (queue_size c) a :: members_at (S a) cs
  end.

Lemma members_ids a cs : mem_id <$> members_at a cs = seq a (length cs).
Proof. revert a. induction cs as [|c cs IH]; intros a; simpl; [done|]. f_equal. apply IH. Qed.

Lemma members_keys a cs : mem_key <$> members_at a cs = cfg_key <$> cs.
Proof. revert a. induction cs as [|c cs IH]; intros a; simpl; [done|]. f_equal. apply IH. Qed.

Definition with_bufs (n : nat) (B : gmap nat MBuf) (st : store) : store :=
  mkstore n B (fusions st) (notifiers st) (buffers_map_ st) (notifies_map_ st) (is_shutdown st).

Lemma new_buffers_spec cs st :
  ∃ B, new_buffers cs st =
      (mem_chan <$> members_at (next_addr st) cs, with_bufs (next_addr st + length cs) B st) ∧
    Forall (λ m, B !! mem_id m = Some (CacheBuffer (mem_size m))) (members_at (next_addr st) cs) ∧
    ∀ id, (id < next_addr st)%nat → B !! id = bufs st !! id.
Proof.
  revert st. induction cs as [|c cs IH]; intros st; simpl.
  - exists (bufs st). rewrite Nat.add_0_r. split_and!; [by destruct st|constructor|done].
  - set (st1 := mkstore _ _ _ _ _ _ _). destruct (IH st1) as (B & -> & HB & Hfr).
    exists B. simpl in *. split_and!.
    + unfold with_bufs. simpl. by rewrite Nat.add_succ_r.
    + constructor; [|done]. simpl. rewrite Hfr by lia. apply lookup_insert_eq.
    + intros id Hid. rewrite Hfr by lia. apply lookup_insert_ne. lia.
Qed.

Definition with_map (m : gmap key (list nat)) (st : store) : store :=
  mkstore (next_addr st) (bufs st) (fusions st) (notifiers st) m (notifies_map_ st) (is_shutdown st).

Lemma as_entry_app l x : as_entry (l ++ [x]) = Some (l ++ [x]).
Proof. by destruct l. Qed.

Lemma add_buffers_spec cs a st pre :
  (∀ k, buffers_map_ st !! k = as_entry (registered pre k)) →
  ∃ m, add_buffers cs (mem_chan <$> members_at a cs) st = with_map m st ∧
    ∀ k, m !! k = as_entry (registered (pre ++ members_at a cs) k).
Proof.
  revert a st pre. induction cs as [|c cs IH]; intros a st pre Hpre.
  - exists (buffers_map_ st). split; [by destruct st|]. intros k. simpl. by rewrite app_nil_r.
  - unfold add_buffers. simpl. set (st1 := AddBuffer _ _ st).
    destruct (IH (S a) st1 (pre ++ [mkmem (cfg_key c) (queue_size c) a])) as (m & Hm & Hl).
    + intros k. unfold registered in *. rewrite omap_app. simpl.
      unfold st1, AddBuffer. simpl. rewrite Hpre.
      change (message_type c, channel_id c) with (cfg_key c).
      case_decide as Hk; [subst k|rewrite app_nil_r; rewrite <- Hpre].
      * rewrite as_entry_app. destruct (omap _ pre); simpl; by rewrite lookup_insert_eq.
      * case_match; by rewrite lookup_insert_ne.
    + exists m. split; [exact Hm|].
      intros k. rewrite Hl, <- (assoc (++)). done.
Qed.

Lemma members_sizes a cs :
  Forall (λ c, 0 <= queue_size c < 2 ^ 32) cs →
  Forall (λ m, 0 <= mem_size m < 2 ^ 32) (members_at a cs).
Proof. intros Hsz. revert a. induction Hsz; intros a; simpl; constructor; auto. Qed.

Lemma visitor_new_inv c0 cs :
  cs ≠ [] → 0 <= queue_size c0 < 2 ^ 32 → Forall (λ c, 0 <= queue_size c < 2 ^ 32) cs →
  ∃ v st, DataVisitor_new c0 cs empty_store = Some (v, st) ∧
    notifier_ v = 0%nat ∧ data_fusion_ v = Some (2 + length cs)%nat ∧
    buffers_ v = mem_chan <$> mkmem (cfg_key c0) (queue_size c0) 1 :: members_at 2 cs ∧
    flow_inv (2 + length cs) (mkmem (cfg_key c0) (queue_size c0) 1) (members_at 2 cs) None 0 [] st.
Proof.
  intros Hne Hs0 Hsz. unfold DataVisitor_new. cbn [new_notifier new_buffer next_addr empty_store].
  set (st1 := mkstore _ _ _ _ _ _ _).
  destruct (new_buffers_spec cs st1) as (B & -> & HB & Hfr). change (next_addr st1) with 2%nat in *.
  destruct (add_buffers_spec (c0 :: cs) 1 (with_bufs (2 + length cs) B st1) [])
    as (m & Hm & Hl); [done|].
  change (mem_chan <$> members_at 1 (c0 :: cs))
    with (mkchan (channel_id c0) 1 :: (mem_chan <$> members_at 2 cs)) in Hm. rewrite Hm.
  assert (B !! 1%nat = Some (CacheBuffer (queue_size c0))) as HB1 by (rewrite Hfr by lia; done).
  pose proof (members_ids 2 cs) as Hids. pose proof (members_sizes 2 cs Hsz) as Hms.
  assert (1%nat ∉ (mem_id <$> members_at 2 cs)) as Hnin by (rewrite Hids, elem_of_seq; lia).
  destruct (mem_chan <$> members_at 2 cs) as [|ch chs] eqn:E; [by destruct cs|]. rewrite <- E in *.
  unfold AllLatest_new. cbn -[Nat.add members_at length CacheBuffer Capacity u64]. rewrite HB1. cbn -[Nat.add members_at length CacheBuffer Capacity u64].
  eexists _, _. split_and!; [done..|].
  assert (Capacity (CacheBuffer (A := M) (C := nat) (queue_size c0)) -64 1 = queue_size c0) as ->.
  { unfold Capacity, CacheBuffer. cbn. unwrap. lia. }
  split; cbn -[Nat.add members_at length CacheBuffer Capacity u64]; try done.
  - change (NoDup (1%nat :: (mem_id <$> members_at 2 cs))). rewrite Hids. constructor; [rewrite elem_of_seq; simpl; lia|apply NoDup_seq].
  - eexists. by rewrite lookup_insert_eq.
  - rewrite Forall_forall in *. intros x Hx. exists (CacheBuffer (mem_size x)).
    rewrite lookup_insert_ne, (HB x) by set_solver. split_and!; [done..|].
    apply cache_new_holds. specialize (Hms x Hx). simpl in Hms. lia.
  - eexists. rewrite lookup_insert_eq. split; [done|]. apply cache_new_holds. simpl. lia.
  - intros ch'. rewrite lookup_empty, lookup_insert, lookup_empty.
    repeat case_decide; congruence.
Qed.

(** ** The theorems *)

Lemma register_inv this m0 ms n pre st v cb :
  notifier_ v = n → flow_inv this m0 ms None n pre st →
  flow_inv this m0 ms (Some cb) n pre (RegisterNotifyCallback cb v st).
Proof.
  intros Hn []. split; simpl; try done. rewrite Hn. apply lookup_insert_eq.
Qed.

Lemma TryFetch_spec this m0 ms cb n pre st v index :
  flow_inv this m0 ms cb n pre st → data_fusion_ v = Some this →
  Z.of_nat (length pre) < 2 ^ 64 - 2 →
  let F := fused (mem_key m0) (mem_key <$> ms) [] pre in
  0 <= index <= Z.of_nat (length F) + 1 →
  TryFetch (mkvis (data_fusion_ v) (buffers_ v) index (notifier_ v)) st =
    let '(ok, index', tuple) := ChannelBuffer.fetch_spec (mem_size m0) F index in
    Some (ok, default [] tuple,
      mkvis (data_fusion_ v) (buffers_ v) (if ok then index' + 1 else index) (notifier_ v)).
Proof.
  intros [] Hv Hlt F Hi. destruct fi_fusion0 as (fb & Hfb & Hh). unfold TryFetch. simpl.
  rewrite Hv. unfold Fusion. rewrite Hfb. simpl.
  pose proof (fused_length (mem_key m0) (mem_key <$> ms) [] pre) as Hlen. fold F in Hlen, Hh.
  rewrite (ChannelBuffer.Fetch_spec _ _ _ _ Hh) by lia.
  unfold ChannelBuffer.fetch_spec.
  destruct (Z.eqb_spec (Z.of_nat (length F)) 0); [done|].
  destruct (Z.eqb_spec index (Z.of_nat (length F) + 1)); [done|].
  assert (∀ pos, 1 <= pos <= Z.of_nat (length F) → ∃ t, hist_at F pos = Some t) as Hat.
  { intros pos Hpos. by apply hist_at_is_Some. }
  destruct (_ || _) eqn:E.
  - destruct (Hat (Z.of_nat (length F))) as [t ->]; [lia|]. simpl. by unwrap.
  - apply orb_false_iff in E as [?%Z.eqb_neq ?]. destruct (Hat index) as [t ->]; [lia|].
    simpl. by unwrap.
Qed.

(** C10: fusion.  A visitor of several channels is created and a callback is
    registered; then any messages are dispatched, each under a type and a
    channel.  No access goes wrong; [Dispatch] answers true, and calls the callback,
    exactly for the messages of the first channel; and a fetch serves the
    sequence of fused tuples - one for each message of the first channel, with
    the latest message of every other channel at that moment, none as long as
    some channel is silent - through a window of the first channel's size. *)
Theorem visitor_fuses c0 cs cb evs :
  cs ≠ [] → 0 <= queue_size c0 < 2 ^ 32 → Forall (λ c, 0 <= queue_size c < 2 ^ 32) cs →
  Z.of_nat (length evs) < 2 ^ 64 - 2 →
  ∃ v st st', DataVisitor_new c0 cs empty_store = Some (v, st) ∧
    dispatch_all evs (RegisterNotifyCallback cb v st) =
      Some ((λ e, let a := answer (cfg_key <$> cs) (cfg_key c0) e.1 in
                  (a, if a then [cb] else [])) <$> evs, st') ∧
    let F := fused (cfg_key c0) (cfg_key <$> cs) [] evs in
    ∀ index, 0 <= index <= Z.of_nat (length F) + 1 →
      TryFetch (mkvis (data_fusion_ v) (buffers_ v) index (notifier_ v)) st' =
        let '(ok, index', tuple) := ChannelBuffer.fetch_spec (queue_size c0) F index in
        Some (ok, default [] tuple,
          mkvis (data_fusion_ v) (buffers_ v) (if ok then index' + 1 else index) (notifier_ v)).
Proof.
  intros Hne Hs0 Hs Hlt.
  destruct (visitor_new_inv c0 cs Hne Hs0 Hs) as (v & st & Hnew & Hn & Hf & Hbufs & Hinv).
  pose proof (register_inv _ _ _ _ _ _ v cb Hn Hinv) as Hinv1.
  destruct (flow_dispatch_all _ _ _ _ _ evs _ _ Hinv1) as (st' & Hd & Hinv2); [simpl; lia|].
  simpl in Hd. rewrite members_keys in Hd.
  exists v, st, st'. split_and!; [done|exact Hd|]. intros F index Hi.
  pose proof (TryFetch_spec _ _ _ _ _ _ _ v index Hinv2 Hf Hlt) as HT.
  simpl in HT. rewrite members_keys in HT. by apply HT.
Qed.

Lemma fill_expired msg st ids :
  Forall (λ id, bufs st !! id = None) ids → fill_buffers msg st ids = Some st.
Proof.
  induction 1 as [|id ids Hid _ IH]; [done|]. cbn [fill_buffers]. unfold fill_buffer.
  rewrite Hid. exact IH.
Qed.

Lemma registered_ids ms k : Forall (λ id, id ∈ (mem_id <$> ms)) (registered ms k).
Proof.
  unfold registered. induction ms as [|m ms IH]; simpl; [constructor|].
  assert (Forall (λ id, id ∈ mem_id m :: (mem_id <$> ms)) (registered ms k)).
  { eapply Forall_impl; [exact IH|]. intros id Hid. by right. }
  case_decide; [|done]. constructor; [left|done].
Qed.

Lemma released_lookup ms (B : gmap nat MBuf) id :
  id ∈ (mem_id <$> ms) → foldr (λ c B, delete (chan_buffer c) B) B (mem_chan <$> ms) !! id = None.
Proof.
  induction ms as [|m ms IH]; simpl; [intros H; by apply elem_of_nil in H|].
  intros [->|Hid]%elem_of_cons; [apply lookup_delete_eq|].
  apply lookup_delete_None. right. by apply IH.
Qed.

(** The destructor of a visitor of several channels deletes the fusion
    before it releases the buffers.  A message of the first channel dispatched
    in between runs the callback on the deleted object: from every state of the
    flow the dispatch is undefined. *)
Theorem visitor_destructor_race c0 cs cb evs m :
  cs ≠ [] → 0 <= queue_size c0 < 2 ^ 32 → Forall (λ c, 0 <= queue_size c < 2 ^ 32) cs →
  Z.of_nat (length evs) < 2 ^ 64 - 2 →
  ∃ v st r st', DataVisitor_new c0 cs empty_store = Some (v, st) ∧
    dispatch_all evs (RegisterNotifyCallback cb v st) = Some (r, st') ∧
    Dispatch (cfg_key c0) m (delete_fusion v st') = None ∧
    is_Some (Dispatch (cfg_key c0) m (release_members v (delete_fusion v st'))).
Proof.
  intros Hne Hs0 Hs Hlt.
  destruct (visitor_new_inv c0 cs Hne Hs0 Hs) as (v & st & Hnew & Hn & Hf & Hbufs & Hinv).
  pose proof (register_inv _ _ _ _ _ _ v cb Hn Hinv) as Hinv1.
  destruct (flow_dispatch_all _ _ _ _ _ evs _ _ Hinv1) as (st' & Hd & Hinv2); [simpl; lia|].
  eexists v, st, _, st'. split_and!; [done|exact Hd| |].
  - destruct Hinv2. destruct fi_b1 as (b0 & Hb0 & Hc0).
    unfold Dispatch, delete_fusion. rewrite Hf. simpl. rewrite fi_shutdown0, fi_map0.
    unfold registered. simpl. rewrite decide_True by done. simpl.
    unfold fill_buffer, Fill. simpl in *. rewrite Hb0, Hc0.
    unfold fusion_lambda. simpl. by rewrite lookup_delete_eq.
  - unfold Dispatch, release_members. rewrite Hbufs. unfold delete_fusion. rewrite Hf. simpl.
    destruct Hinv2. rewrite fi_shutdown0, fi_map0.
    destruct (as_entry _) as [l|] eqn:E; [|by eexists].
    rewrite fill_expired; [by eexists|].
    assert (l = registered (mkmem (cfg_key c0) (queue_size c0) 1 :: members_at 2 cs) (cfg_key c0)) as ->.
    { destruct (registered _ _) in *; simpl in E; congruence. }
    eapply Forall_impl; [apply registered_ids|]. intros id Hid. simpl.
    exact (released_lookup (mkmem (cfg_key c0) (queue_size c0) 1 :: members_at 2 cs) (bufs st') id Hid).
Qed.
End flow.

(** Two channels, the second one silent at first. *)
Definition demo_cfgs : VisitorConfig * list VisitorConfig := (mkcfg 0 7 2, [mkcfg 1 8 1]).
Definition demo_evs : list (key * Z) :=
  [((0%nat, 7), 10); ((1%nat, 8), 20); ((0%nat, 7), 11); ((1%nat, 8), 21); ((0%nat, 7), 12)].

Lemma visitor_fuses_witness :
  fused (0%nat, 7) [(1%nat, 8)] [] demo_evs = [[Some 11; Some 20]; [Some 12; Some 21]] ∧
  ∃ (v : DataVisitor) (st st' : store (M := Z)),
    DataVisitor_new demo_cfgs.1 demo_cfgs.2 empty_store = Some (v, st) ∧
    dispatch_all demo_evs (RegisterNotifyCallback 5 v st) =
      Some ([(true, [5%nat]); (false, []); (true, [5%nat]); (false, []); (true, [5%nat])], st').
Proof.
  split; [reflexivity|].
  destruct (visitor_fuses (mkcfg 0 7 2) [mkcfg 1 8 1] 5 demo_evs) as (v & st & st' & Hn & Hd & _).
  - discriminate.
  - simpl. lia.
  - repeat constructor; simpl; lia.
  - vm_compute. reflexivity.
  - exists v, st, st'. split; [exact Hn|exact Hd].
Defined.

Lemma visitor_destructor_race_witness :
  ∃ (v : DataVisitor) (st : store (M := Z)) r st',
    DataVisitor_new demo_cfgs.1 demo_cfgs.2 empty_store = Some (v, st) ∧
    dispatch_all demo_evs (RegisterNotifyCallback 5 v st) = Some (r, st') ∧
    Dispatch (0%nat, 7) 13 (delete_fusion v st') = None ∧
    is_Some (Dispatch (0%nat, 7) 13 (release_members v (delete_fusion v st'))).
Proof.
  apply (visitor_destructor_race (mkcfg 0 7 2) [mkcfg 1 8 1] 5 demo_evs 13).
  - discriminate.
  - simpl. lia.
  - repeat constructor; simpl; lia.
  - vm_compute. reflexivity.
Defined.
End DataFlow.
