(* ===== verification/Queues.v ===== *)
(** * Unbounded queues ([cyber/base/thread_safe_queue.h],
    [cyber/base/unbounded_queue.h])

    [ThreadSafeQueue] is a [std::queue] under a mutex with a condition variable;
    [UnboundedQueue] is a linked list with atomic head and tail and reference
    counted nodes.  Both are machines: for the first one the steps are the
    critical sections, the tests of [WaitDequeue] and the two halves of
    [BreakAllWait] (which does not take the mutex); for the second one every
    atomic access is a step, and a step on a deleted node is undefined. *)

From S2P Require Import Prelude.

Local Open Scope Z_scope.
Local Open Scope cyber_scope.

Module ThreadSafeQueue.
Section queue.
Context {A : Type}.

(** The fields; [mutex_] is its owner. *)
Record t := mk {
  break_all_wait_ : bool;
  mutex_ : option nat;
  queue_ : list A;
}.

Definition ThreadSafeQueue : t := mk false None [].

(** ** The operations by themselves *)
Definition Enqueue (element : A) (q : t) : t :=
  mk (break_all_wait_ q) (mutex_ q) (queue_ q ++ [element]).

Definition Dequeue (q : t) : option A * t :=
  match queue_ q with
  | [] => (None, q)
  | x :: queue => (Some x, mk (break_all_wait_ q) (mutex_ q) queue)
  end.

Definition Size (q : t) : Z := Z.of_nat (length (queue_ q)).
Definition Empty (q : t) : bool := match queue_ q with [] => true | _ => false end.

(** ** The machine *)

(** Program points: of [WaitDequeue] (asking for the mutex, at the predicate,
    about to sleep, asleep in the condition variable, at the test after the
    wait) and of [BreakAllWait]. *)
Inductive pc :=
| Idle
| WLock
| WPred
| WSleep
| Asleep
| WTest
| BSet
| BNotify.

Record state := mkst { que : t; thr : list pc; hist : list A; out : list A }.

(** [LEnqueue v w]: [notify_one] wakes the sleeper [w], if there is one.
    [LSpurious i]: a spurious wake-up. *)
Inductive label :=
| LEnqueue (v : A) (w : option nat)
| LDequeue
| LWait (i : nat)
| LBreak (i : nat)
| LStep (i : nat)
| LSpurious (i : nat).

Definition asleep (p : pc) : bool := match p with Asleep => true | _ => false end.
Definition awake (p : pc) : bool := match p with WLock | WPred | WTest => true | _ => false end.
Definition sleepy (p : pc) : bool := match p with Asleep | WSleep => true | _ => false end.

Definition set_thr (i : nat) (p : pc) (s : state) : state :=
  mkst (que s) (<[i := p]> (thr s)) (hist s) (out s).
Definition set_mutex (o : option nat) (s : state) : state :=
  mkst (mk (break_all_wait_ (que s)) o (queue_ (que s))) (thr s) (hist s) (out s).

(** [notify_all]. *)
Definition wake_all (l : list pc) : list pc := (λ p, if asleep p then WLock else p) <$> l.

Definition notify_one (w : option nat) (l : list pc) : option (list pc) :=
  match w with
  | None => if existsb asleep l then None else Some l
  | Some i => match l !! i with Some Asleep => Some (<[i := WLock]> l) | _ => None end
  end.

Definition dequeue (s : state) : option (A * state) :=
  match queue_ (que s) with
  | [] => None
  | x :: queue =>
      Some (x, mkst (mk (break_all_wait_ (que s)) (mutex_ (que s)) queue) (thr s) (hist s) (out s ++ [x]))
  end.

Definition tstep (i : nat) (p : pc) (s : state) : option state :=
  match p with
  | WLock =>
      match mutex_ (que s) with
      | None => Some (set_mutex (Some i) (set_thr i WPred s))
      | Some _ => None
      end
  | WPred =>
      if break_all_wait_ (que s) || negb (Empty (que s)) then Some (set_thr i WTest s)
      else Some (set_thr i WSleep s)
  | WSleep => Some (set_mutex None (set_thr i Asleep s))
  | WTest =>
      if break_all_wait_ (que s) then Some (set_mutex None (set_thr i Idle s))
      else '(_, s') ← dequeue s; Some (set_mutex None (set_thr i Idle s'))
  | BSet =>
      Some (mkst (mk true (mutex_ (que s)) (queue_ (que s))) (<[i := BNotify]> (thr s)) (hist s) (out s))
  | BNotify =>
      Some (mkst (que s) (<[i := Idle]> (wake_all (thr s))) (hist s) (out s))
  | Idle | Asleep => None
  end.

Definition step (l : label) (s : state) : option state :=
  match l with
  | LEnqueue v w =>
      match mutex_ (que s) with
      | None =>
          l' ← notify_one w (thr s);
          Some (mkst (Enqueue v (que s)) l' (hist s ++ [v]) (out s))
      | Some _ => None
      end
  | LDequeue =>
      match mutex_ (que s) with
      | None => match dequeue s with Some (_, s') => Some s' | None => Some s end
      | Some _ => None
      end
  | LWait i => match thr s !! i with Some Idle => Some (set_thr i WLock s) | _ => None end
  | LBreak i => match thr s !! i with Some Idle => Some (set_thr i BSet s) | _ => None end
  | LStep i => p ← thr s !! i; tstep i p s
  | LSpurious i => match thr s !! i with Some Asleep => Some (set_thr i WLock s) | _ => None end
  end.

Definition initial (n : nat) : state := mkst ThreadSafeQueue (replicate n Idle) [] [].

(** ** The invariant *)

Definition in_section (p : pc) : bool := match p with WPred | WSleep | WTest => true | _ => false end.

Record inv (s : state) : Prop := {
  ti_fifo : hist s = out s ++ queue_ (que s);
  ti_mutex i p : thr s !! i = Some p → in_section p = true ↔ mutex_ (que s) = Some i;
  ti_owner o : mutex_ (que s) = Some o → ∃ p, thr s !! o = Some p ∧ in_section p = true;
  ti_test i : thr s !! i = Some WTest → break_all_wait_ (que s) = true ∨ queue_ (que s) ≠ [];
  ti_sleep i : thr s !! i = Some WSleep → queue_ (que s) = [];
  ti_notify i : thr s !! i = Some BNotify → break_all_wait_ (que s) = true;
  ti_wake : break_all_wait_ (que s) = false → countb sleepy (thr s) ≠ 0 →
    Z.of_nat (length (queue_ (que s))) <= countb awake (thr s);
}.

Lemma tsq_initial_inv n : inv (initial n).
Proof.
  split; simpl.
  - done.
  - intros i p [-> _]%lookup_replicate. done.
  - done.
  - intros i [? _]%lookup_replicate. done.
  - intros i [? _]%lookup_replicate. done.
  - intros i [? _]%lookup_replicate. done.
  - intros _ H. by rewrite countb_replicate in H.
Qed.

(** A thread moves; the queue and the flag stay, the mutex follows the
    critical section. *)
Lemma inv_move s i p q o :
  inv s → thr s !! i = Some p →
  o = (if in_section q then Some i else if in_section p then None else mutex_ (que s)) →
  (in_section q = true → in_section p = false → mutex_ (que s) = None) →
  (q = WTest → break_all_wait_ (que s) = true ∨ queue_ (que s) ≠ []) →
  (q = WSleep → queue_ (que s) = []) →
  (q = BNotify → break_all_wait_ (que s) = true) →
  (break_all_wait_ (que s) = false →
    Z.b2z (awake p) <= Z.b2z (awake q) ∧ Z.b2z (sleepy q) <= Z.b2z (sleepy p) ∨
    queue_ (que s) = []) →
  inv (set_mutex o (set_thr i q s)).
Proof.
  intros [] Hi Ho Hfree Htest Hsleep Hnotify Hwake. pose proof (ti_mutex0 _ _ Hi) as Hp.
  assert (∀ j r, <[i := q]> (thr s) !! j = Some r → j = i ∧ r = q ∨ j ≠ i ∧ thr s !! j = Some r) as Hget.
  { intros j r. rewrite list_lookup_insert. case_decide as Hd; intros; simplify_eq.
    - left. by destruct Hd.
    - destruct (decide (i = j)) as [->|]; [|by right]. destruct Hd. split; [done|].
      by eapply lookup_lt_Some. }
  split; simpl; [done|..].
  - intros j r Hj. destruct (Hget _ _ Hj) as [[-> ->]|[Hne Hj']].
    + subst o. destruct (in_section q) eqn:Eq; [naive_solver|].
      destruct (in_section p) eqn:Ep; [naive_solver|]. split; [done|]. intros H. by apply Hp in H.
    + rewrite (ti_mutex0 _ _ Hj'). subst o. destruct (in_section q) eqn:Eq.
      * destruct (in_section p) eqn:Ep.
        -- assert (mutex_ (que s) = Some i) as -> by (by apply Hp). done.
        -- rewrite Hfree by done. naive_solver.
      * destruct (in_section p) eqn:Ep; [|done].
        assert (mutex_ (que s) = Some i) as -> by (by apply Hp). naive_solver.
  - intros j Hj. subst o. destruct (in_section q) eqn:Eq.
    + injection Hj as <-. exists q. split; [|done]. apply list_lookup_insert_eq. by eapply lookup_lt_Some.
    + destruct (in_section p) eqn:Ep; [done|]. destruct (ti_owner0 _ Hj) as (r & Hr & Hsec).
      exists r. split; [|done]. rewrite list_lookup_insert_ne; [done|]. intros ->. congruence.
  - intros j Hj. destruct (Hget _ _ Hj) as [[_ <-]|[_ Hj']]; [by apply Htest|by eapply ti_test0].
  - intros j Hj. destruct (Hget _ _ Hj) as [[_ <-]|[_ Hj']]; [by apply Hsleep|by eapply ti_sleep0].
  - intros j Hj. destruct (Hget _ _ Hj) as [[_ <-]|[_ Hj']]; [by apply Hnotify|by eapply ti_notify0].
  - intros Hb. rewrite !(countb_insert _ _ _ _ _ Hi). intros Hn.
    pose proof (countb_bounds awake (thr s)). pose proof (countb_bounds sleepy (thr s)).
    destruct (Hwake Hb) as [[Ha Hs]|Hq].
    + assert (countb sleepy (thr s) ≠ 0) as Hn'.
      { destruct (sleepy p) eqn:Ep; [|simpl in *; destruct (sleepy q); simpl in *; lia].
        pose proof (countb_lookup sleepy _ _ _ Hi Ep). lia. }
      specialize (ti_wake0 Hb Hn'). lia.
    + rewrite Hq. simpl. destruct (awake p) eqn:Ep, (awake q); simpl; try lia.
      pose proof (countb_lookup awake _ _ _ Hi Ep). lia.
Qed.

Lemma inv_set_mutex_id s : set_mutex (mutex_ (que s)) s = s.
Proof. by destruct s as [[] ? ? ?]. Qed.

Lemma inv_move_out s i p q :
  inv s → thr s !! i = Some p → in_section p = false → in_section q = false →
  q ≠ BNotify → Z.b2z (awake p) <= Z.b2z (awake q) → Z.b2z (sleepy q) <= Z.b2z (sleepy p) →
  inv (set_thr i q s).
Proof.
  intros Hinv Hi Hp Hq Hn Ha Hs. rewrite <- (inv_set_mutex_id (set_thr i q s)).
  eapply inv_move; try done; rewrite ?Hp, ?Hq; try done; try (by intros ->); auto.
Qed.

Lemma inv_queue s queue hist' out' :
  inv s → mutex_ (que s) = None → hist' = out' ++ queue →
  (length queue <= length (queue_ (que s)))%nat →
  inv (mkst (mk (break_all_wait_ (que s)) (mutex_ (que s)) queue) (thr s) hist' out').
Proof.
  intros [] Hm Hf Hlen.
  assert (∀ i p, thr s !! i = Some p → in_section p = false) as Hout.
  { intros i p Hi. destruct (in_section p) eqn:E; [|done]. apply (ti_mutex0 _ _ Hi) in E. congruence. }
  split; simpl; try done.
  - intros i Hi. by apply Hout in Hi.
  - intros i Hi. by apply Hout in Hi.
  - intros Hb Hn. specialize (ti_wake0 Hb Hn). lia.
Qed.

Lemma inv_no_section s i p :
  inv s → mutex_ (que s) = None → thr s !! i = Some p → in_section p = false.
Proof.
  intros [] Hm Hi. destruct (in_section p) eqn:E; [|done]. apply (ti_mutex0 _ _ Hi) in E. congruence.
Qed.

Lemma inv_push s l v :
  inv s → mutex_ (que s) = None →
  (∀ i p, l !! i = Some p → in_section p = false ∧ (p = BNotify → thr s !! i = Some BNotify)) →
  (countb sleepy l ≠ 0 → break_all_wait_ (que s) = false →
    Z.of_nat (length (queue_ (que s))) + 1 <= countb awake l) →
  inv (mkst (Enqueue v (que s)) l (hist s ++ [v]) (out s)).
Proof.
  intros [] Hm Hl Hw. split; simpl.
  - by rewrite ti_fifo0, (assoc (++)).
  - intros i p Hi. destruct (Hl _ _ Hi) as [-> _]. rewrite Hm. done.
  - intros o Ho. congruence.
  - intros i Hi. by destruct (Hl _ _ Hi).
  - intros i Hi. by destruct (Hl _ _ Hi).
  - intros i Hi. eapply ti_notify0. by apply (Hl _ _ Hi).
  - intros Hb Hn. rewrite length_app. simpl. specialize (Hw Hn Hb). lia.
Qed.

Lemma inv_notify s l v w :
  inv s → mutex_ (que s) = None → notify_one w (thr s) = Some l →
  inv (mkst (Enqueue v (que s)) l (hist s ++ [v]) (out s)).
Proof.
  intros Hinv Hm Hn. pose proof Hinv as []. destruct w as [i|]; simpl in Hn.
  - destruct (thr s !! i) as [[]|] eqn:Hi; simplify_eq. apply inv_push; [done..| |].
    + intros j p. rewrite list_lookup_insert. case_decide; intros; simplify_eq; [done|].
      split; [by eapply inv_no_section|by intros ->].
    + rewrite !(countb_insert _ _ _ _ _ Hi). simpl. intros _ Hb.
      pose proof (countb_lookup sleepy _ _ _ Hi eq_refl). specialize (ti_wake0 Hb ltac:(lia)). lia.
  - destruct (existsb asleep (thr s)) eqn:E; simplify_eq. apply inv_push; [done..| |].
    + intros j p Hj. split; [by eapply inv_no_section|by intros ->].
    + intros Hs. apply countb_exists in Hs as (i & p & Hi & Hp).
      assert (existsb asleep (thr s) = true); [|congruence].
      apply existsb_exists. exists p. split; [by eapply list_elem_of_In, list_elem_of_lookup_2|].
      pose proof (inv_no_section _ _ _ Hinv Hm Hi). by destruct p.
Qed.

Lemma inv_broken s l :
  inv s → (∀ i p, thr s !! i = Some p → in_section p = true → l !! i = Some p) → (∀ i p, l !! i = Some p →
    thr s !! i = Some p ∨ in_section p = false ∧ ∃ p', thr s !! i = Some p' ∧ in_section p' = false) →
  inv (mkst (mk true (mutex_ (que s)) (queue_ (que s))) l (hist s) (out s)).
Proof.
  intros [] Hsec Hl. split; simpl; try done; try by left.
  - intros i p Hi. destruct (Hl _ _ Hi) as [Hi'|(Hp & p' & Hi' & Hp')]; [by apply ti_mutex0|].
    rewrite <- (ti_mutex0 _ _ Hi'), Hp, Hp'. done.
  - intros o Ho. destruct (ti_owner0 _ Ho) as (p & Hp & Hs). eauto.
  - intros i Hi. destruct (Hl _ _ Hi) as [Hi'|[? _]]; [by eapply ti_sleep0|done].
Qed.

Lemma inv_take s i x queue :
  inv s → thr s !! i = Some WTest → queue_ (que s) = x :: queue →
  inv (mkst (mk (break_all_wait_ (que s)) None queue) (<[i := Idle]> (thr s)) (hist s) (out s ++ [x])).
Proof.
  intros [] Hi Hq. assert (mutex_ (que s) = Some i) as Hm by (by apply (ti_mutex0 _ _ Hi)).
  assert (∀ j p, <[i := Idle]> (thr s) !! j = Some p → in_section p = false ∧ (p = BNotify → thr s !! j = Some BNotify)) as Hget.
  { intros j p. rewrite list_lookup_insert. case_decide as Hd; intros Hj; simplify_eq; [done|].
    split; [|by intros ->]. destruct (in_section p) eqn:E; [|done].
    apply (ti_mutex0 _ _ Hj) in E. rewrite Hm in E. simplify_eq. destruct Hd. split; [done|].
    by eapply lookup_lt_Some. }
  split; simpl.
  - by rewrite ti_fifo0, Hq, <- (assoc (++)).
  - intros j p Hj. by destruct (Hget _ _ Hj) as [-> _].
  - done.
  - intros j Hj. by destruct (Hget _ _ Hj).
  - intros j Hj. by destruct (Hget _ _ Hj).
  - intros j Hj. eapply ti_notify0. by apply (Hget _ _ Hj).
  - intros Hb. rewrite !(countb_insert _ _ _ _ _ Hi). simpl. intros Hn.
    specialize (ti_wake0 Hb ltac:(lia)). rewrite Hq in ti_wake0. simpl in ti_wake0. lia.
Qed.

Lemma tsq_inv_tstep s i p s' : inv s → thr s !! i = Some p → tstep i p s = Some s' → inv s'.
Proof.
  intros Hinv Hi Hs. pose proof Hinv as []. pose proof (ti_mutex0 _ _ Hi) as Hm.
  destruct p; simpl in Hs, Hm; try done.
  - destruct (mutex_ (que s)) eqn:Emx; simplify_eq. eapply inv_move; try done. all: try (intros; left; simpl; lia).
  - assert (mutex_ (que s) = Some i) as Emx by (by apply Hm).
    destruct (_ || _) eqn:E; simplify_eq; rewrite <- (inv_set_mutex_id (set_thr i _ s));
      (eapply inv_move; try done; simpl; [..|auto]).
    + intros _. apply orb_true_iff in E as [E|E]; [by left|right]. intros Hq. unfold Empty in E.
      by rewrite Hq in E.
    + intros _. left. done.
    + intros _. apply orb_false_iff in E as [_ E]. unfold Empty in E. by destruct (queue_ (que s)).
    + intros _. right. apply orb_false_iff in E as [_ E]. unfold Empty in E. by destruct (queue_ (que s)).
  - simplify_eq. eapply inv_move; try done. intros _. left. simpl. lia.
  - destruct (break_all_wait_ (que s)) eqn:Eb.
    + simplify_eq. eapply inv_move; try done. congruence.
    + unfold dequeue in Hs. destruct (queue_ (que s)) as [|x queue] eqn:Eq; simplify_eq/=.
      exact (inv_take s i x queue Hinv Hi Eq).
  - simplify_eq. apply inv_broken; [done| |].
    { intros j p Hj Hp. rewrite list_lookup_insert_ne; [done|]. intros ->. by simplify_eq. }
    intros j p. rewrite list_lookup_insert.
    case_decide as Hd; intros; simplify_eq; [|by left]. destruct Hd as [<- _]. right. eauto.
  - simplify_eq. pose proof (ti_notify0 _ Hi) as Hb.
    assert (que s = mk true (mutex_ (que s)) (queue_ (que s))) as Hq.
    { destruct (que s) as [b m q]. simpl in *. by subst. }
    rewrite Hq. apply inv_broken; [done| |].
    { intros j p Hj Hp. rewrite list_lookup_insert_ne by (intros ->; by simplify_eq).
      unfold wake_all. rewrite list_lookup_fmap, Hj. simpl. by destruct p. }
    intros j p. rewrite list_lookup_insert.
    case_decide as Hd; intros Hj; simplify_eq.
    + destruct Hd as [<- _]. right. eauto.
    + unfold wake_all in Hj. rewrite list_lookup_fmap in Hj.
      destruct (thr s !! j) as [p'|] eqn:Hj'; simplify_eq/=. destruct (asleep p') eqn:E; [|by left].
      right. split; [done|]. exists p'. split; [done|]. by destruct p'.
Qed.

Lemma tsq_inv_step l s s' : inv s → step l s = Some s' → inv s'.
Proof.
  intros Hinv Hs. destruct l as [v w| |i|i|i|i]; simpl in Hs.
  - destruct (mutex_ (que s)) eqn:E; [done|]. destruct (notify_one w (thr s)) eqn:En; simplify_eq/=.
    by eapply inv_notify.
  - destruct (mutex_ (que s)) eqn:E; [done|]. unfold dequeue in Hs.
    destruct (queue_ (que s)) as [|x queue] eqn:Eq; simplify_eq; [done|].
    apply inv_queue; [done..| |rewrite Eq; simpl; lia].
    rewrite (ti_fifo _ Hinv), Eq, <- (assoc (++)). done.
  - destruct (thr s !! i) as [[]|] eqn:Hi; simplify_eq. by eapply inv_move_out.
  - destruct (thr s !! i) as [[]|] eqn:Hi; simplify_eq. by eapply inv_move_out.
  - destruct (thr s !! i) as [p|] eqn:Hi; simplify_eq/=. by eapply tsq_inv_tstep.
  - destruct (thr s !! i) as [[]|] eqn:Hi; simplify_eq. by eapply inv_move_out.
Qed.

Lemma tsq_reachable_inv n s : reachable step (initial n) s → inv s.
Proof.
  apply (reachable_inv step inv); [apply tsq_initial_inv|]. eauto using tsq_inv_step.
Qed.

(** The queue is FIFO under any interleaving: what was enqueued is what was
    dequeued, in order, followed by what is queued; at most one thread is inside
    the mutex; and a [WaitDequeue] that has passed its wait finds an element
    unless the queue was told to break. *)
Theorem thread_safe_queue_fifo n s :
  reachable step (initial n) s →
  hist s = out s ++ queue_ (que s) ∧
  (∀ i j p q, thr s !! i = Some p → thr s !! j = Some q →
     in_section p = true → in_section q = true → i = j) ∧
  (∀ i, thr s !! i = Some WTest → is_Some (step (LStep i) s)).
Proof.
  intros [Hf Hm _ Ht _ _ _]%tsq_reachable_inv. split_and!; [done|..].
  - intros i j p q Hi Hj Hp Hq. apply (Hm _ _ Hi) in Hp. apply (Hm _ _ Hj) in Hq. congruence.
  - intros i Hi. simpl. rewrite Hi. simpl. destruct (break_all_wait_ (que s)) eqn:E; [by eexists|].
    unfold dequeue. destruct (Ht _ Hi) as [|Hq]; [congruence|].
    destruct (queue_ (que s)); [done|]. by eexists.
Qed.

Lemma step_self i p s s' :
  thr s !! i = Some p → tstep i p s = Some s' → step (LStep i) s = Some s'.
Proof. intros Hi Hs. simpl. by rewrite Hi. Qed.

Lemma take_progress s i x queue :
  thr s !! i = Some WTest → break_all_wait_ (que s) = false → queue_ (que s) = x :: queue →
  ∃ s', step (LStep i) s = Some s' ∧ out s' = out s ++ [x].
Proof.
  intros Hi Hb Hq. eexists. split; [eapply step_self; [done|]|].
  - simpl. rewrite Hb. unfold dequeue. by rewrite Hq.
  - done.
Qed.

Lemma pred_progress s i x queue :
  thr s !! i = Some WPred → break_all_wait_ (que s) = false → queue_ (que s) = x :: queue →
  ∃ s', run step [LStep i; LStep i] s = Some s' ∧ out s' = out s ++ [x].
Proof.
  intros Hi Hb Hq.
  assert (step (LStep i) s = Some (set_thr i WTest s)) as Hs1.
  { eapply step_self; [done|]. simpl. rewrite Hb. unfold Empty. by rewrite Hq. }
  destruct (take_progress (set_thr i WTest s) i x queue) as (s' & Hs2 & Ho); [|done..|].
  { apply list_lookup_insert_eq. by eapply lookup_lt_Some. }
  exists s'. split; [|done]. cbn [run]. rewrite Hs1. cbn. cbn in Hs2. by rewrite Hs2.
Qed.

(** C4: no lost wake-up.  Unless the queue was told to break, sleeping
    consumers never hold up a non-empty queue: at least as many consumers are
    awake as there are elements, and some of them, running alone, takes the
    first element within three steps. *)
Theorem thread_safe_queue_no_lost_wakeup n s i x queue :
  reachable step (initial n) s → break_all_wait_ (que s) = false →
  thr s !! i = Some Asleep → queue_ (que s) = x :: queue →
  Z.of_nat (length (queue_ (que s))) <= countb awake (thr s) ∧
  ∃ j k s', (k <= 3)%nat ∧ run step (replicate k (LStep j)) s = Some s' ∧ out s' = out s ++ [x].
Proof.
  intros Hr Hb Hi Hq. apply tsq_reachable_inv in Hr as [Hf Hm Ho Ht Hs _ Hw].
  assert (Z.of_nat (length (queue_ (que s))) <= countb awake (thr s)) as Hlen.
  { apply Hw; [done|]. pose proof (countb_lookup sleepy _ _ _ Hi eq_refl). lia. }
  split; [done|]. rewrite Hq in Hlen. simpl in Hlen.
  assert (∀ j p, thr s !! j = Some p → in_section p = true →
    ∃ k s', (k <= 3)%nat ∧ run step (replicate k (LStep j)) s = Some s' ∧ out s' = out s ++ [x]) as Hin.
  { intros j p Hj Hp. destruct p; try done.
    - destruct (pred_progress s j x queue) as (s' & Hrun & ?); [done..|]. exists 2%nat, s'. auto.
    - rewrite (Hs _ Hj) in Hq. done.
    - destruct (take_progress s j x queue) as (s' & Hrun & ?); [done..|]. exists 1%nat, s'.
      split_and!; [lia| |done]. cbn [run replicate]. by rewrite Hrun. }
  destruct (mutex_ (que s)) as [o|] eqn:Emx.
  { destruct (Ho _ eq_refl) as (p & Hj & Hp). exists o. eauto. }
  destruct (countb_exists awake (thr s)) as (j & p & Hj & Hp); [lia|]. exists j.
  destruct p; try done; try (by eapply Hin).
  assert (step (LStep j) s = Some (set_mutex (Some j) (set_thr j WPred s))) as Hs1.
  { eapply step_self; [done|]. simpl. by rewrite Emx. }
  destruct (pred_progress (set_mutex (Some j) (set_thr j WPred s)) j x queue) as (s' & Hrun & ?); [|done..|].
  { apply list_lookup_insert_eq. by eapply lookup_lt_Some. }
  exists 3%nat, s'. split_and!; [lia| |done].
  change (replicate 3 (LStep j)) with ([LStep j] ++ [LStep j; LStep j]).
  rewrite run_app. cbn [run]. rewrite Hs1. exact Hrun.
Qed.
End queue.

(** While nobody notifies, a sleeper sleeps. *)
Definition silent {A} (l : label (A := A)) : Prop :=
  match l with LDequeue | LWait _ | LStep _ => True | _ => False end.
Definition breaking (p : pc) : bool := match p with BSet | BNotify => true | _ => false end.

Lemma silent_step {A} (l : label (A := A)) s s' i :
  silent l → step l s = Some s' → countb breaking (thr s) = 0 → thr s !! i = Some Asleep →
  countb breaking (thr s') = 0 ∧ thr s' !! i = Some Asleep.
Proof.
  intros Hl Hs Hb Hi. destruct l as [v w| |j|j|j|j]; simpl in Hs; try done.
  - destruct (mutex_ _); [done|]. unfold dequeue in Hs.
    destruct (queue_ _); by simplify_eq.
  - destruct (thr s !! j) as [[]|] eqn:Hj; simplify_eq. simpl.
    rewrite (countb_insert _ _ _ _ _ Hj), list_lookup_insert_ne by congruence. simpl. split; [lia|done].
  - destruct (thr s !! j) as [p|] eqn:Hj; simplify_eq/=.
    pose proof (countb_none _ _ _ _ Hb Hj) as Hp.
    destruct p; simpl in Hs, Hp; try done; unfold dequeue in Hs; repeat case_match; simplify_eq/=;
      rewrite (countb_insert _ _ _ _ _ Hj), list_lookup_insert_ne by congruence; simpl; (split; [lia|done]).
Qed.

(** Thread 0 finds the queue empty; before it sleeps, thread 1 breaks the wait:
    the flag is set and all sleepers are notified - of which there are none yet. *)
Definition lost_break : list (label (A := Z)) :=
  [LWait 0; LStep 0; LStep 0; LBreak 1; LStep 1; LStep 1; LStep 0].

(** [BreakAllWait] can be lost.  It does not take the mutex, so it can fall
    between a consumer's test and its sleep: afterwards the flag is set, the call
    has returned, and the consumer sleeps; it stays asleep for ever if nobody
    enqueues or breaks again and no spurious wake-up occurs. *)
Theorem thread_safe_queue_break_lost :
  ∃ s, run step lost_break (initial 2) = Some s ∧ break_all_wait_ (que s) = true ∧
    thr s = [Asleep; Idle] ∧
    ∀ ls s', Forall silent ls → run step ls s = Some s' → thr s' !! 0%nat = Some Asleep.
Proof.
  eexists. split; [vm_compute; reflexivity|]. split; [reflexivity|]. split; [reflexivity|].
  assert (∀ ls (s s' : state (A := Z)), countb breaking (thr s) = 0 → thr s !! 0%nat = Some Asleep →
    Forall silent ls → run step ls s = Some s' → thr s' !! 0%nat = Some Asleep) as H.
  { induction ls as [|l ls IH]; intros s s' Hb H0 Hls Hrun; [by simplify_eq/=|].
    apply Forall_cons in Hls as [Hl Hls]. simpl in Hrun.
    destruct (step l s) as [s1|] eqn:E; [|done].
    destruct (silent_step _ _ _ _ Hl E Hb H0). by apply (IH s1). }
  intros ls s' Hls Hrun. eapply H; [| |exact Hls|exact Hrun]; reflexivity.
Qed.

Definition demo_wait : list (label (A := Z)) :=
  [LWait 0; LStep 0; LStep 0; LStep 0; LWait 1; LStep 1; LStep 1; LStep 1; LEnqueue 7 (Some 0%nat)].

Lemma thread_safe_queue_fifo_witness :
  ∃ s, run step demo_wait (initial 2) = Some s ∧ hist s = out s ++ queue_ (que s).
Proof.
  eexists. split; [vm_compute; reflexivity|].
  apply (thread_safe_queue_fifo 2). apply (run_reachable step _ demo_wait). vm_compute. reflexivity.
Defined.

Lemma thread_safe_queue_no_lost_wakeup_witness :
  ∃ s, run step demo_wait (initial 2) = Some s ∧
  ∃ j k s', (k <= 3)%nat ∧ run step (replicate k (LStep j)) s = Some s' ∧ out s' = [7].
Proof.
  eexists. split; [vm_compute; reflexivity|].
  refine (proj2 (thread_safe_queue_no_lost_wakeup 2 _ 1 7 [] _ _ _ _)).
  - apply (run_reachable step _ demo_wait). vm_compute. reflexivity.
  - reflexivity.
  - reflexivity.
  - reflexivity.
Defined.
End ThreadSafeQueue.

(** ** The linked queue *)
Module UnboundedQueue.
Section queue.
Context {A : Type}.

Record Node := mkNode { data : option A; ref_count : Z; next : option nat }.

(** The fields and the memory of the nodes; [fresh] is the next free address. *)
Record t := mk {
  head_ : nat;
  tail_ : nat;
  size_ : Z;
  mem : gmap nat Node;
  fresh : nat;
}.

Definition new_node (d : option A) : Node := mkNode d 2 None.
Definition UnboundedQueue : t := mk 0 0 0 {[0%nat := new_node None]} 1.

Definition set_mem (m : gmap nat Node) (q : t) : t := mk (head_ q) (tail_ q) (size_ q) m (fresh q).
Definition set_size (n : Z) (q : t) : t := mk (head_ q) (tail_ q) n (mem q) (fresh q).

(** The accesses of the operations; [None] is an access to a deleted node. *)
Definition alloc (element : A) (q : t) : nat * t :=
  (fresh q, mk (head_ q) (tail_ q) (size_ q) (<[fresh q := new_node (Some element)]> (mem q))
              (S (fresh q))).

Definition set_next (n m : nat) (q : t) : option t :=
  node ← mem q !! n; Some (set_mem (<[n := mkNode (data node) (ref_count node) (Some m)]> (mem q)) q).

(** [Node::release]: [ref_count.fetch_sub(1)], then the test of [load()]. *)
Definition release_sub (n : nat) (q : t) : option t :=
  node ← mem q !! n;
  Some (set_mem (<[n := mkNode (data node) (ref_count node -32 1) (next node)]> (mem q)) q).
Definition release_load (n : nat) (q : t) : option t :=
  node ← mem q !! n;
  Some (if ref_count node =? 0 then set_mem (delete n (mem q)) q else q).
Definition release (n : nat) (q : t) : option t := q ← release_sub n q; release_load n q.

(** ** The operations run alone *)
Definition Enqueue (element : A) (q : t) : option t :=
  let '(node, q) := alloc element q in
  let old_tail := tail_ q in
  let q := mk (head_ q) node (size_ q) (mem q) (fresh q) in
  q ← set_next old_tail node q;
  q ← release old_tail q;
  Some (set_size (size_ q +64 1) q).

Definition Dequeue (q : t) : option (option A * t) :=
  let old_head := head_ q in
  node ← mem q !! old_head;
  match next node with
  | None => Some (None, q)
  | Some head_next =>
      let q := mk head_next (tail_ q) (size_ q) (mem q) (fresh q) in
      node' ← mem q !! head_next;
      let q := set_size (size_ q -64 1) q in
      q ← release old_head q;
      x ← data node'; Some (Some x, q)
  end.

Definition Size (q : t) : Z := size_ q.
Definition Empty (q : t) : bool := size_ q =? 0.

(** [Clear()], the destructor, with fuel. *)
Fixpoint Clear (fuel : nat) (ite : option nat) (m : gmap nat Node) : option (gmap nat Node) :=
  match ite with
  | None => Some m
  | Some n =>
      match fuel with
      | O => None
      | S fuel => node ← m !! n; Clear fuel (next node) (delete n m)
      end
  end.

(** ** The machine: one atomic access per step *)
Inductive pc :=
| Idle
| ELoad (node : nat)
| ECas (node old_tail : nat)
| ELink (node old_tail : nat)
| ESub (old_tail : nat)
| ERel (old_tail : nat)
| ESize
| DLoad
| DNext (old_head : nat)
| DCas (old_head head_next : nat)
| DRead (old_head head_next : nat)
| DSize (old_head : nat)
| DSub (old_head : nat)
| DRel (old_head : nat).

Definition tstep (q : t) (p : pc) : option (t * pc) :=
  match p with
  | Idle => None
  | ELoad node => Some (q, ECas node (tail_ q))
  | ECas node old_tail =>
      if (tail_ q =? old_tail)%nat
      then Some (mk (head_ q) node (size_ q) (mem q) (fresh q), ELink node old_tail)
      else Some (q, ECas node (tail_ q))
  | ELink node old_tail => q ← set_next old_tail node q; Some (q, ESub old_tail)
  | ESub old_tail => q ← release_sub old_tail q; Some (q, ERel old_tail)
  | ERel old_tail => q ← release_load old_tail q; Some (q, ESize)
  | ESize => Some (set_size (size_ q +64 1) q, Idle)
  | DLoad => Some (q, DNext (head_ q))
  | DNext old_head =>
      node ← mem q !! old_head;
      Some (q, match next node with None => Idle | Some m => DCas old_head m end)
  | DCas old_head head_next =>
      if (head_ q =? old_head)%nat
      then Some (mk head_next (tail_ q) (size_ q) (mem q) (fresh q), DRead old_head head_next)
      else Some (q, DNext (head_ q))
  | DRead old_head head_next => node ← mem q !! head_next; Some (q, DSize old_head)
  | DSize old_head => Some (set_size (size_ q -64 1) q, DSub old_head)
  | DSub old_head => q ← release_sub old_head q; Some (q, DRel old_head)
  | DRel old_head => q ← release_load old_head q; Some (q, Idle)
  end.

Record state := mkst { que : t; thr : list pc }.
Inductive label := LEnqueue (i : nat) (v : A) | LDequeue (i : nat) | LStep (i : nat).

Definition step (l : label) (s : state) : option state :=
  match l with
  | LEnqueue i v =>
      match thr s !! i with
      | Some Idle => let '(node, q) := alloc v (que s) in Some (mkst q (<[i := ELoad node]> (thr s)))
      | _ => None
      end
  | LDequeue i =>
      match thr s !! i with Some Idle => Some (mkst (que s) (<[i := DLoad]> (thr s))) | _ => None end
  | LStep i => p ← thr s !! i; '(q, p') ← tstep (que s) p; Some (mkst q (<[i := p']> (thr s)))
  end.

Definition initial (n : nat) : state := mkst UnboundedQueue (replicate n Idle).

(** ** Run alone, the operations implement a list, and no node leaks *)

(** From node [n] on: the linked nodes with their elements.  Every node but the
    last has been released by the producer that linked its successor. *)
Fixpoint linked (m : gmap nat Node) (n : nat) (al : list (nat * A)) : Prop :=
  match al with
  | [] => ∃ d, m !! n = Some (mkNode d 2 None)
  | (n', x) :: al' =>
      (∃ d, m !! n = Some (mkNode d 1 (Some n'))) ∧
      (∃ r nx, m !! n' = Some (mkNode (Some x) r nx)) ∧ linked m n' al'
  end.

Definition last_addr (n : nat) (al : list (nat * A)) : nat := foldl (λ _ e, e.1) n al.

Record represents (q : t) (al : list (nat * A)) : Prop := {
  ur_linked : linked (mem q) (head_ q) al;
  ur_tail : tail_ q = last_addr (head_ q) al;
  ur_size : size_ q = Z.of_nat (length al);
  ur_nodup : NoDup (head_ q :: al.*1);
  ur_dom n : is_Some (mem q !! n) ↔ n ∈ head_ q :: al.*1;
  ur_fresh n : n ∈ head_ q :: al.*1 → (n < fresh q)%nat;
}.

Lemma last_addr_in n al : last_addr n al ∈ n :: al.*1.
Proof.
  unfold last_addr. revert n. induction al as [|[m x] al IH]; intros n; simpl; [set_solver|].
  right. apply IH.
Qed.

Lemma linked_frame m m' n al :
  (∀ k, k ∈ n :: al.*1 → m' !! k = m !! k) → linked m n al → linked m' n al.
Proof.
  revert n. induction al as [|[n' x] al IH]; intros n Heq; simpl.
  - intros [d Hd]. exists d. rewrite Heq; [done|left].
  - intros ([d Hd] & (r & nx & Hr) & Hl). split_and!.
    + exists d. rewrite Heq; [done|left].
    + exists r, nx. rewrite Heq; [done|right; left].
    + apply IH; [|done]. intros k Hk. apply Heq. by right.
Qed.

Lemma linked_snoc m n al f x :
  linked m n al → NoDup (n :: al.*1) → f ∉ n :: al.*1 →
  ∃ d, m !! last_addr n al = Some (mkNode d 2 None) ∧
    linked (<[last_addr n al := mkNode d 1 (Some f)]> (<[f := new_node (Some x)]> m)) n (al ++ [(f, x)]).
Proof.
  unfold last_addr. revert n. induction al as [|[n' y] al IH]; intros n Hl Hnd Hf; simpl in *.
  - destruct Hl as [d Hd]. exists d. split; [done|]. rewrite not_elem_of_cons in Hf. destruct Hf.
    split_and!.
    + exists d. apply lookup_insert_eq.
    + exists 2, None. rewrite lookup_insert_ne by congruence. apply lookup_insert_eq.
    + exists (Some x). rewrite lookup_insert_ne by congruence. apply lookup_insert_eq.
  - destruct Hl as ([d0 Hd0] & (r & nx & Hr) & Hl). apply NoDup_cons in Hnd as [Hn Hnd].
    apply not_elem_of_cons in Hf as [Hfn Hf].
    destruct (IH n' Hl Hnd Hf) as (d & Hd & Hl'). exists d. split; [done|].
    set (la := foldl _ n' al) in *.
    assert (la ∈ n' :: al.*1) as Hla by apply last_addr_in.
    split_and!; [| |done].
    + exists d0. rewrite !lookup_insert_ne; [done|congruence|]. intros Heq. by rewrite Heq in Hla.
    + destruct (decide (la = n')) as [Hlan|Hlan].
      * rewrite Hlan in *. rewrite Hr in Hd. simplify_eq. eexists _, _. apply lookup_insert_eq.
      * exists r, nx. rewrite !lookup_insert_ne; [done| |done].
        intros ->. apply Hf. left.
Qed.

Lemma unbounded_enqueue q al x :
  represents q al → Z.of_nat (length al) < 2 ^ 64 - 1 →
  ∃ q', Enqueue x q = Some q' ∧ represents q' (al ++ [(fresh q, x)]).
Proof.
  intros [] Hlt.
  assert (fresh q ∉ head_ q :: al.*1) as Hf by (intros Hin; apply ur_fresh0 in Hin; lia).
  pose proof (last_addr_in (head_ q) al) as Hla.
  assert (fresh q ≠ last_addr (head_ q) al) as Hne by congruence.
  destruct (linked_snoc (mem q) (head_ q) al (fresh q) x) as (d & Hd & Hl); [done..|].
  unfold Enqueue, alloc, set_next, release, release_sub, release_load, set_mem, set_size. cbn.
  rewrite ur_tail0, lookup_insert_ne, Hd by done. cbn.
  rewrite lookup_insert_eq. cbn. rewrite insert_insert_eq, lookup_insert_eq. cbn. change (2 -32 1) with 1. cbn.
  eexists. split; [done|].
  assert (head_ q :: (al ++ [(fresh q, x)]).*1 = (head_ q :: al.*1) ++ [fresh q]) as Hal.
  { by rewrite fmap_app. }
  split; cbn; rewrite ?Hal.
  - done.
  - unfold last_addr. by rewrite foldl_app.
  - rewrite length_app. simpl. rewrite ur_size0, u64_small by lia. lia.
  - apply NoDup_app. split_and!; [done| |apply NoDup_singleton].
    intros k Hk ->%list_elem_of_singleton. done.
  - intros k. rewrite elem_of_app, list_elem_of_singleton, <- ur_dom0.
    rewrite !lookup_insert. case_decide as H1; [|case_decide as H2].
    + subst k. split; [intros _; left; by eexists|by eexists].
    + split; [by right|by eexists].
    + split; [by left|]. intros [H3|H3]; [done|congruence].
  - intros k [Hk| ->%list_elem_of_singleton]%elem_of_app; [|lia]. apply ur_fresh0 in Hk. lia.
Qed.

Lemma unbounded_dequeue q al :
  represents q al → Z.of_nat (length al) < 2 ^ 64 →
  match al with
  | [] => Dequeue q = Some (None, q)
  | (_, x) :: al' => ∃ q', Dequeue q = Some (Some x, q') ∧ represents q' al'
  end.
Proof.
  intros [] Hlt. unfold Dequeue. destruct al as [|[n x] al]; simpl in *.
  - destruct ur_linked0 as [d ->]. done.
  - destruct ur_linked0 as ([d Hd] & (r & nx & Hr) & Hl). rewrite Hd. cbn. rewrite Hr. cbn.
    unfold release, release_sub, release_load, set_mem, set_size. cbn. rewrite Hd. cbn.
    rewrite lookup_insert_eq. cbn. change (1 -32 1) with 0. cbn. rewrite delete_insert_eq.
    eexists. split; [done|].
    apply NoDup_cons in ur_nodup0 as [Hnin Hnd].
    split; cbn.
    + eapply linked_frame; [|done]. intros k Hk. apply lookup_delete_ne. by intros <-.
    + done.
    + rewrite ur_size0, u64_small by lia. lia.
    + done.
    + intros k. rewrite lookup_delete. case_decide as Hk.
      * subst. split; [by intros []|done].
      * rewrite ur_dom0, elem_of_cons. naive_solver.
    + intros k Hk. apply ur_fresh0. by right.
Qed.

Lemma clear_all fuel m n al :
  linked m n al → NoDup (n :: al.*1) → (∀ k, is_Some (m !! k) ↔ k ∈ n :: al.*1) →
  (length al < fuel)%nat → Clear fuel (Some n) m = Some ∅.
Proof.
  revert fuel m n. induction al as [|[n' x] al IH]; intros [|fuel] m n Hl Hnd Hdom Hf; simpl in *; try lia.
  - destruct Hl as [d ->]. simpl. destruct fuel; f_equal; apply map_empty; intros k;
      rewrite lookup_delete; case_decide; try done; apply eq_None_not_Some; rewrite Hdom;
      by intros ->%list_elem_of_singleton.
  - destruct Hl as ([d Hd] & _ & Hl). rewrite Hd. simpl. apply NoDup_cons in Hnd as [Hnin Hnd].
    apply IH; [|done| |lia].
    + eapply linked_frame; [|done]. intros k Hk. apply lookup_delete_ne. by intros <-.
    + intros k. rewrite lookup_delete. case_decide as Hk.
      * subst. split; [by intros []|done].
      * rewrite Hdom, elem_of_cons. naive_solver.
Qed.

Lemma unbounded_new : represents UnboundedQueue [].
Proof.
  split; simpl; [by exists None|done|done|apply NoDup_singleton| |].
  - intros n. rewrite lookup_singleton, list_elem_of_singleton. case_decide as H.
    + split; [done|by eexists].
    + split; [by intros []|congruence].
  - intros n ->%list_elem_of_singleton. lia.
Qed.

(** What the queue holds. *)
Definition elements (q : t) (l : list A) : Prop := ∃ al, represents q al ∧ al.*2 = l.

(** Used by one thread the queue is a FIFO list: a new queue is empty,
    [Enqueue] appends, [Dequeue] takes the first element or reports an empty
    queue, no access goes wrong, every node is deleted exactly when it has been
    left behind, and the destructor deletes the rest. *)
Theorem unbounded_queue_refines_list :
  elements UnboundedQueue [] ∧
  ∀ q l, elements q l → Z.of_nat (length l) < 2 ^ 64 - 1 →
    Size q = Z.of_nat (length l) ∧ (Empty q = true ↔ l = []) ∧
    (∀ x, ∃ q', Enqueue x q = Some q' ∧ elements q' (l ++ [x])) ∧
    match l with
    | [] => Dequeue q = Some (None, q)
    | x :: l' => ∃ q', Dequeue q = Some (Some x, q') ∧ elements q' l'
    end ∧
    size (mem q) = S (length l) ∧
    Clear (S (length l)) (Some (head_ q)) (mem q) = Some ∅.
Proof.
  split; [exists []; split; [apply unbounded_new|done]|].
  intros q l (al & Hal & <-) Hlt. rewrite length_fmap in *.
  split_and!.
  - by destruct Hal.
  - unfold Empty. rewrite (ur_size _ _ Hal), Z.eqb_eq. destruct al; simpl; split; (done || lia).
  - intros x. destruct (unbounded_enqueue q al x Hal Hlt) as (q' & He & Hr). exists q'.
    split; [done|]. exists (al ++ [(fresh q, x)]). by rewrite fmap_app.
  - pose proof (unbounded_dequeue q al Hal ltac:(lia)) as Hd. destruct al as [|[n x] al]; [done|].
    destruct Hd as (q' & Hd & Hr). exists q'. split; [done|]. by exists al.
  - rewrite <- size_dom. destruct Hal.
    assert (dom (mem q) = list_to_set (head_ q :: al.*1)) as ->.
    { apply set_eq. intros n. rewrite elem_of_dom, elem_of_list_to_set. apply ur_dom0. }
    rewrite size_list_to_set by done. simpl. by rewrite length_fmap.
  - destruct Hal. eapply clear_all; [done..|lia].
Qed.
End queue.

(** One producer and one consumer.  The producer links element 7 and gives its
    reference to the old node back; the consumer takes the element, gives the
    other reference back and deletes the node. *)
Definition race_trace : list (label (A := Z)) :=
  [LEnqueue 0 7; LStep 0; LStep 0; LStep 0; LStep 0;
   LDequeue 1; LStep 1; LStep 1; LStep 1; LStep 1; LStep 1; LStep 1; LStep 1].

(** [Node::release] is not atomic.  Already with one producer and one consumer
    the producer's [ref_count.load()] can hit a node that the consumer has just
    deleted; on the way the size wraps to [2^64 - 1], as [Dequeue] may count down
    before [Enqueue] has counted up. *)
Theorem unbounded_queue_use_after_free :
  ∃ s, run step race_trace (initial 2) = Some s ∧
    thr s = [ERel 0; Idle] ∧ mem (que s) !! 0%nat = None ∧
    step (LStep 0) s = None ∧ size_ (que s) = 2 ^ 64 - 1.
Proof. eexists. split; [vm_compute; reflexivity|]. repeat split. Qed.
End UnboundedQueue.
