(* ===== verification/ThreadPool.v ===== *)
(** * The thread pool ([cyber/base/thread_pool.h])

    A pool is a [BoundedQueue] of tasks and workers that take them.  A task is a
    number; its future is its entry of [states].  The workers' rounds and the
    client's calls are given one after the other (the interleavings inside the
    queue are those of [BoundedQueue]). *)

From S2P Require Import Prelude WaitStrategy BoundedQueue.

Local Open Scope Z_scope.

Module ThreadPool.

(** The shared state of a future: no result yet, a result, or a promise that
    was destroyed without one ([std::future_error] on [get]). *)
Inductive status := Pending | Ready | Broken.

Record t := mk {
  task_queue_ : BoundedQueue.t nat;
  stop_ : bool;
  states : gmap nat status;
  ran : list nat;
}.

(** The constructor; [None] is the exception of a failed [Init]. *)
Definition ThreadPool (calloc_ok : bool) (max_task_num : Z) : option t :=
  let '(ok, q) :=
    BoundedQueue.Init 0%nat calloc_ok max_task_num WaitStrategy.BlockWaitStrategy
      BoundedQueue.BoundedQueue in
  if ok then Some (mk q false ∅ []) else None.

(** [Enqueue(f, args...)] for the new task [task]: is the future valid?  The
    answer of the queue is not looked at; a task that is not stored is
    destroyed on return. *)
Definition Enqueue (task : nat) (p : t) : option (bool * t) :=
  if stop_ p then Some (false, mk (task_queue_ p) (stop_ p) (<[task := Broken]> (states p)) (ran p))
  else
    '(stored, q) ← BoundedQueue.Enqueue (task_queue_ p) task;
    Some (true, mk q (stop_ p)
      (<[task := if (stored : bool) then Pending else Broken]> (states p)) (ran p)).

(** One round of a worker's loop; without a task it waits in [WaitDequeue]. *)
Definition worker_round (p : t) : option t :=
  if stop_ p then Some p
  else if BoundedQueue.break_all_wait_ (task_queue_ p) then Some p
  else
    '(task, q) ← BoundedQueue.Dequeue (task_queue_ p);
    match task with
    | Some task => Some (mk q (stop_ p) (<[task := Ready]> (states p)) (ran p ++ [task]))
    | None => Some p
    end.

(** The destructor up to the joins. *)
Definition stop (p : t) : option t :=
  if stop_ p then Some p
  else q ← BoundedQueue.BreakAllWait (task_queue_ p); Some (mk q true (states p) (ran p)).

(** The pool that holds the tasks [l] after [n] stored ones. *)
Record holds (max_task_num : Z) (n : nat) (l : list nat) (p : t) : Prop := {
  tp_queue : BoundedQueue.represents max_task_num (task_queue_ p) n l;
  tp_stop : stop_ p = false;
  tp_break : BoundedQueue.break_all_wait_ (task_queue_ p) = false;
}.

Lemma pool_new_holds max_task_num :
  0 <= max_task_num → max_task_num + 2 < 2 ^ 64 →
  ∃ p, ThreadPool true max_task_num = Some p ∧ holds max_task_num 0 [] p.
Proof.
  intros H1 H2. eexists. split; [done|]. split; [|done|done].
  by apply (BoundedQueue.represents_initial 0%nat max_task_num WaitStrategy.BlockWaitStrategy).
Qed.

Lemma enqueue_keeps_break (q : BoundedQueue.t nat) x ok q' :
  BoundedQueue.Enqueue q x = Some (ok, q') →
  BoundedQueue.break_all_wait_ q' = BoundedQueue.break_all_wait_ q.
Proof.
  unfold BoundedQueue.Enqueue, BoundedQueue.pool_write. intros H. split_step H; done.
Qed.

Lemma dequeue_keeps_break (q : BoundedQueue.t nat) r q' :
  BoundedQueue.Dequeue q = Some (r, q') →
  BoundedQueue.break_all_wait_ q' = BoundedQueue.break_all_wait_ q.
Proof. unfold BoundedQueue.Dequeue. intros H. split_step H; done. Qed.

(** Tasks.  Below [max_task_num] pending tasks a new one is stored; workers
    run the stored tasks in order, each once, and complete their futures.  With
    [max_task_num] pending tasks a new one is dropped: the caller still gets a
    valid future, whose promise is broken.  After [stop] nothing is run any
    more and new futures are invalid. *)
Theorem thread_pool_tasks max_task_num n l p task :
  0 <= max_task_num → 2 + Z.of_nat n < 2 ^ 64 →
  holds max_task_num n l p →
  (∃ p', Enqueue task p = Some (true, p') ∧
     if decide (Z.of_nat (length l) < max_task_num)
     then holds max_task_num (S n) (l ++ [task]) p' ∧ states p' !! task = Some Pending
     else holds max_task_num n l p' ∧ states p' !! task = Some Broken) ∧
  (∃ p', worker_round p = Some p' ∧
     match l with
     | [] => p' = p
     | x :: l' => holds max_task_num n l' p' ∧ ran p' = ran p ++ [x] ∧ states p' !! x = Some Ready
     end) ∧
  (∃ p', stop p = Some p' ∧ worker_round p' = Some p' ∧
     ∃ p'', Enqueue task p' = Some (false, p'') ∧ ran p'' = ran p).
Proof.
  intros H1 Hn [Hq Hs Hb]. split_and!.
  - unfold Enqueue. rewrite Hs.
    pose proof (BoundedQueue.represents_enqueue max_task_num H1 _ _ _ task Hq Hn) as He.
    case_decide.
    + destruct He as (q' & He & Hq'). rewrite He. simpl. eexists. split; [done|]. split.
      * split; [done|done|]. simpl. by rewrite (enqueue_keeps_break _ _ _ _ He).
      * apply lookup_insert_eq.
    + rewrite He. simpl. eexists. split; [done|]. split; [by split|]. apply lookup_insert_eq.
  - unfold worker_round. rewrite Hs, Hb.
    pose proof (BoundedQueue.represents_dequeue max_task_num _ _ _ Hq Hn) as Hd.
    destruct l as [|x l].
    + rewrite Hd. simpl. by eexists.
    + destruct Hd as (q' & Hd & Hq'). rewrite Hd. simpl. eexists. split; [done|]. split_and!.
      * split; [done|done|]. simpl. by rewrite (dequeue_keeps_break _ _ _ Hd).
      * done.
      * apply lookup_insert_eq.
  - unfold stop. rewrite Hs. unfold BoundedQueue.BreakAllWait.
    destruct Hq as (h & o & [] & _). destruct (BoundedQueue.wait_strategy_ _) eqn:E; [|done].
    simpl. eexists. split; [done|]. split; [done|]. by eexists.
Qed.

Lemma thread_pool_tasks_witness :
  ∃ p, ThreadPool true 2 = Some p ∧
  ∃ p', Enqueue 9 p = Some (true, p') ∧ states p' !! 9%nat = Some Pending.
Proof.
  eexists. split; [reflexivity|].
  destruct (thread_pool_tasks 2 0 [] (mk (BoundedQueue.sq
    (BoundedQueue.initial 0%nat 2 WaitStrategy.BlockWaitStrategy)) false ∅ []) 9)
    as ((p' & He & Hp & Hst) & _).
  - lia.
  - lia.
  - split; [|reflexivity|reflexivity]. apply BoundedQueue.represents_initial; lia.
  - exists p'. split; [exact He|exact Hst].
Defined.
End ThreadPool.
