(* ===== verification/Signal.v ===== *)
(** * Signals ([cyber/base/signal.h])

    A [Signal] keeps a list of shared [Slot]s; a [Connection] points to a slot and
    to its signal.  Slots live in a store.  Emitting copies the list under the
    mutex and runs the callbacks without it, so a callback may connect and
    disconnect: [react] gives what each callback does to the signal. *)

From S2P Require Import Prelude.

Module Signal.

(** [cb_] (a callback may be empty) and [connected_]. *)
Record Slot := mkslot { cb_ : option nat; connected_ : bool }.

Record t := mk { slots_ : list nat; heap : gmap nat Slot; fresh_ : nat }.

(** [signal_] is the address of this signal or null. *)
Record Connection := mkconn { slot_ : option nat; signal_ : bool }.

Definition Signal : t := mk [] ∅ 0.

(** ** [Slot] *)
Definition connected (s : t) (id : nat) : bool :=
  match heap s !! id with Some slot => connected_ slot | None => false end.
Definition Slot_Disconnect (id : nat) (h : gmap nat Slot) : gmap nat Slot :=
  alter (λ slot, mkslot (cb_ slot) false) id h.

(** ** [Connection] *)
Definition HasSlot (c : Connection) (id : nat) : bool :=
  match slot_ c with Some id' => (id' =? id)%nat | None => false end.
Definition IsConnected (s : t) (c : Connection) : bool :=
  match slot_ c with Some id => connected s id | None => false end.

(** ** [Signal] *)
Definition ClearDisconnectedSlots (s : t) : t :=
  mk (filter (λ id, connected s id = true) (slots_ s)) (heap s) (fresh_ s).

Definition Connect (cb : option nat) (s : t) : Connection * t :=
  (mkconn (Some (fresh_ s)) true,
   mk (slots_ s ++ [fresh_ s]) (<[fresh_ s := mkslot cb true]> (heap s)) (S (fresh_ s))).

(** The loop of [Disconnect]: found, and the slots after it. *)
Fixpoint disconnect_loop (c : Connection) (slots : list nat) (h : gmap nat Slot) :
    bool * gmap nat Slot :=
  match slots with
  | [] => (false, h)
  | id :: slots =>
      if HasSlot c id then (true, (disconnect_loop c slots (Slot_Disconnect id h)).2)
      else disconnect_loop c slots h
  end.

Definition Disconnect (c : Connection) (s : t) : bool * t :=
  let '(find, h) := disconnect_loop c (slots_ s) (heap s) in
  let s := mk (slots_ s) h (fresh_ s) in
  if find then (true, ClearDisconnectedSlots s) else (false, s).

Definition Connection_Disconnect (c : Connection) (s : t) : bool * t :=
  match signal_ c, slot_ c with
  | true, Some _ => Disconnect c s
  | _, _ => (false, s)
  end.

Definition DisconnectAllSlots (s : t) : t :=
  mk [] (foldr Slot_Disconnect (heap s) (slots_ s)) (fresh_ s).

(** What a callback does to the signal while it runs. *)
Inductive action := AConnect (cb : option nat) | ADisconnect (c : Connection) | ADisconnectAll.

Definition do_action (s : t) (a : action) : t :=
  match a with
  | AConnect cb => (Connect cb s).2
  | ADisconnect c => (Connection_Disconnect c s).2
  | ADisconnectAll => DisconnectAllSlots s
  end.

Section emission.
Context (react : nat → list action).

(** The loop over the local copy: the slots called, in order. *)
Fixpoint emit_loop (local : list nat) (s : t) : list nat * t :=
  match local with
  | [] => ([], s)
  | id :: local =>
      match heap s !! id with
      | Some (mkslot (Some cb) true) =>
          let '(calls, s') := emit_loop local (foldl do_action s (react cb)) in (id :: calls, s')
      | _ => emit_loop local s
      end
  end.

Definition emit (s : t) : list nat * t :=
  let '(calls, s') := emit_loop (slots_ s) s in (calls, ClearDisconnectedSlots s').
End emission.

(** ** Properties *)

Record wf (s : t) : Prop := {
  sg_nodup : NoDup (slots_ s);
  sg_slots id : id ∈ slots_ s → is_Some (heap s !! id);
  sg_fresh id : is_Some (heap s !! id) → (id < fresh_ s)%nat;
}.

(** Disconnection is final and slots keep their callback; listed slots are old
    ones or new ones. *)
Definition later (s s' : t) : Prop :=
  (fresh_ s <= fresh_ s')%nat ∧
  (∀ id, id ∈ slots_ s' → id ∈ slots_ s ∨ (fresh_ s <= id)%nat) ∧
  ∀ id slot, heap s !! id = Some slot →
    ∃ b, heap s' !! id = Some (mkslot (cb_ slot) b) ∧ (b = true → connected_ slot = true).

Lemma later_refl s : later s s.
Proof.
  split_and!; [lia|auto|]. intros id [cb b] Hid. exists b. auto.
Qed.

Lemma later_trans s1 s2 s3 : later s1 s2 → later s2 s3 → later s1 s3.
Proof.
  intros (Hf1 & Hs1 & Hh1) (Hf2 & Hs2 & Hh2). split_and!; [lia| |].
  - intros id [Hid|Hid]%Hs2; [|right; lia]. auto.
  - intros id slot Hid. destruct (Hh1 _ _ Hid) as (b & Hb & Hc).
    destruct (Hh2 _ _ Hb) as (b' & Hb' & Hc'). exists b'. simpl in *. auto.
Qed.

(** The slot of a connection is in a list. *)
Definition listed (c : Connection) (slots : list nat) : bool :=
  match slot_ c with Some id => bool_decide (id ∈ slots) | None => false end.

Lemma Slot_Disconnect_lookup k h id :
  Slot_Disconnect k h !! id =
    if decide (k = id) then (λ slot, mkslot (cb_ slot) false) <$> h !! id else h !! id.
Proof.
  unfold Slot_Disconnect. rewrite lookup_alter. by case_decide; subst.
Qed.

Lemma disconnect_loop_spec c slots h :
  (disconnect_loop c slots h).1 = listed c slots ∧
  ∀ id, (disconnect_loop c slots h).2 !! id =
    if decide (slot_ c = Some id ∧ id ∈ slots)
    then (λ slot, mkslot (cb_ slot) false) <$> h !! id else h !! id.
Proof.
  revert h. induction slots as [|k slots IH]; intros h; simpl.
  - unfold listed. split; [by destruct (slot_ c)|]. intros id.
    rewrite decide_False; [done|]. intros [_ H]. by apply elem_of_nil in H.
  - destruct (HasSlot c k) eqn:E; unfold HasSlot, listed in *.
    + destruct (slot_ c) as [k'|] eqn:Hc; [|done]. apply Nat.eqb_eq in E. subst k'.
      split; [symmetry; apply bool_decide_eq_true; left|].
      intros id. simpl. rewrite (proj2 (IH _)), Slot_Disconnect_lookup.
      destruct (decide (k = id)) as [->|Hne].
      * rewrite (decide_True (P := Some id = Some id ∧ id ∈ id :: slots)) by (split; [done|left]).
        destruct (decide (Some id = Some id ∧ id ∈ slots)); by destruct (h !! id).
      * rewrite !decide_False; [done|..]; intros [[= Heq] _]; congruence.
    + split.
      * rewrite (proj1 (IH h)). destruct (slot_ c) as [k'|]; [|done]. apply Nat.eqb_neq in E.
        apply bool_decide_ext. rewrite elem_of_cons. naive_solver.
      * intros id. rewrite (proj2 (IH h)). destruct (slot_ c) as [k'|].
        -- apply Nat.eqb_neq in E.
           destruct (decide (Some k' = Some id ∧ id ∈ slots)) as [[[= ->] Hin]|Hn].
           ++ rewrite decide_True; [done|]. split; [done|by right].
           ++ rewrite decide_False; [done|]. intros [[= ->] [->|Hin]%elem_of_cons]; auto.
        -- rewrite !decide_False; [done|..]; by intros [? _].
Qed.

Lemma clear_later s : later s (ClearDisconnectedSlots s).
Proof.
  split_and!; [done| |].
  - intros id [_ ?]%list_elem_of_filter. by left.
  - intros id [cb b] Hid. exists b. auto.
Qed.

Lemma disconnected_later s h :
  (∀ id, h !! id = heap s !! id ∨ h !! id = (λ slot, mkslot (cb_ slot) false) <$> heap s !! id) →
  later s (mk (slots_ s) h (fresh_ s)) ∧ (wf s → wf (mk (slots_ s) h (fresh_ s))).
Proof.
  intros Hh.
  assert (∀ id, is_Some (h !! id) ↔ is_Some (heap s !! id)) as Hsome.
  { intros id. destruct (Hh id) as [->| ->]; [done|apply fmap_is_Some]. }
  split.
  - split_and!; [done|by left|]. intros id [cb b] Hid. simpl.
    destruct (Hh id) as [->| ->]; rewrite Hid; [by exists b|]. by exists false.
  - intros []. split; simpl; [done|..].
    + intros id Hid. apply Hsome. auto.
    + intros id Hid. apply Hsome in Hid. auto.
Qed.

Lemma clear_wf s : wf s → wf (ClearDisconnectedSlots s).
Proof.
  intros []. split; simpl; [by apply NoDup_filter| |done].
  intros id [_ ?]%list_elem_of_filter. auto.
Qed.

Lemma Disconnect_later c s : later s (Disconnect c s).2 ∧ (wf s → wf (Disconnect c s).2).
Proof.
  unfold Disconnect. pose proof (disconnect_loop_spec c (slots_ s) (heap s)) as [_ Hh].
  destruct (disconnect_loop c (slots_ s) (heap s)) as [find h]. simpl in Hh.
  assert (later s (mk (slots_ s) h (fresh_ s)) ∧ (wf s → wf (mk (slots_ s) h (fresh_ s)))) as [Hl Hw].
  { apply disconnected_later. intros id. rewrite Hh. case_decide; auto. }
  destruct find; simpl; [|done]. split.
  - eapply later_trans; [exact Hl|apply clear_later].
  - intros. by apply clear_wf, Hw.
Qed.

Lemma action_later a s : wf s → later s (do_action s a) ∧ wf (do_action s a).
Proof.
  intros Hwf. destruct a as [cb|c|]; simpl.
  - destruct Hwf. split.
    + split_and!; simpl; [lia| |].
      * intros id [Hid|Hid]%elem_of_app; [by left|]. apply list_elem_of_singleton in Hid. subst. by right.
      * intros id [cb' b] Hid. exists b. rewrite lookup_insert_ne; [auto|]. intros Heq.
        assert (id < fresh_ s)%nat by (apply sg_fresh0; by eexists). lia.
    + split; simpl.
      * apply NoDup_app. split_and!; [done| |apply NoDup_singleton].
        intros id Hid Hf%list_elem_of_singleton. subst. apply sg_slots0, sg_fresh0 in Hid. lia.
      * intros id [Hid|Hid]%elem_of_app; rewrite lookup_insert; case_decide; try by eexists.
        -- by apply sg_slots0.
        -- apply list_elem_of_singleton in Hid. congruence.
      * intros id. rewrite lookup_insert. case_decide; [subst; lia|]. intros Hid%sg_fresh0. lia.
  - unfold Connection_Disconnect. destruct (signal_ c), (slot_ c); try by (split; [apply later_refl|]).
    destruct (Disconnect_later c s). auto.
  - assert (∀ slots id, foldr Slot_Disconnect (heap s) slots !! id = heap s !! id ∨
      foldr Slot_Disconnect (heap s) slots !! id = (λ slot, mkslot (cb_ slot) false) <$> heap s !! id) as Hh.
    { intros slots id. induction slots as [|k slots IH]; simpl; [by left|].
      rewrite Slot_Disconnect_lookup. case_decide; [|done]. right.
      destruct IH as [->| ->]; [done|]. by destruct (heap s !! id). }
    destruct (disconnected_later s _ (Hh (slots_ s))) as [Hl Hw]. specialize (Hw Hwf).
    split.
    + destruct Hl as (Hf & _ & Hheap). split_and!; [done| |done]. intros id Hid.
      by apply elem_of_nil in Hid.
    + destruct Hw. split; simpl; [constructor| |done]. intros id Hid. by apply elem_of_nil in Hid.
Qed.

Lemma actions_later l s : wf s → later s (foldl do_action s l) ∧ wf (foldl do_action s l).
Proof.
  revert s. induction l as [|a l IH]; intros s Hwf; simpl; [split; [apply later_refl|done]|].
  destruct (action_later a s Hwf) as [Hl Hw]. destruct (IH _ Hw). split; [|done].
  by eapply later_trans.
Qed.

Lemma emit_loop_spec react local s :
  wf s → (∀ id, id ∈ local → is_Some (heap s !! id)) →
  let r := emit_loop react local s in
  sublist r.1 local ∧ later s r.2 ∧ wf r.2 ∧
  (∀ id, id ∈ local → connected r.2 id = true →
     (∃ cb, cb_ <$> heap s !! id = Some (Some cb)) → id ∈ r.1) ∧
  (∀ id, id ∈ r.1 → connected s id = true).
Proof.
  revert s. induction local as [|id local IH]; intros s Hwf Hex; simpl.
  - split_and!; [done|apply later_refl|done|..]; intros id H; by apply elem_of_nil in H.
  - assert (∀ k, k ∈ local → is_Some (heap s !! k)) as Hex' by (intros; apply Hex; by right).
    destruct (heap s !! id) as [[[cb|] [|]]|] eqn:Hid.
    2-5: specialize (IH s Hwf Hex') as (Hsub & Hl & Hw & Hall & Hcon); split_and!;
      [by apply sublist_cons|done|done| |done].
    2-5: intros k [->|Hk]%elem_of_cons Hc [cb' Hcb]; [|apply Hall; eauto]; rewrite Hid in Hcb; try done.
    2: { destruct Hl as (_ & _ & Hh). destruct (Hh _ _ Hid) as (b & Hb & Hf).
         unfold connected in Hc. rewrite Hb in Hc. simpl in *. by apply Hf in Hc. }
    destruct (actions_later (react cb) s Hwf) as [Hl1 Hw1]. pose proof Hl1 as (_ & _ & Hh).
    specialize (IH _ Hw1) as (Hsub & Hl & Hw & Hall & Hcon).
    { intros k [slot Hs]%Hex'. destruct (Hh _ _ Hs) as (b & -> & _). by eexists. }
    destruct (emit_loop react local (foldl do_action s (react cb))) as [calls s']. simpl in *.
    split_and!; [by apply sublist_skip|by eapply later_trans|done|..].
    + intros k [->|Hk]%elem_of_cons Hc [cb' Hcb]; [left|right]. apply Hall; [done|done|].
      apply fmap_Some in Hcb as (slot & Hs & Heq).
      destruct (Hh _ _ Hs) as (b & -> & _). exists cb'. simpl. by rewrite Heq.
    + intros k [->|Hk]%elem_of_cons; [unfold connected; by rewrite Hid|].
      destruct (Hex' k) as [slot Hs]; [by eapply elem_of_sublist|].
      apply Hcon in Hk. unfold connected in *. rewrite Hs.
      destruct (Hh _ _ Hs) as (b & Hb & Hbc). rewrite Hb in Hk. auto.
Qed.

(** Emission.  Whatever the callbacks do to the signal, the slots called are
    slots that were in the list and connected when the emission began, in list
    order and each at most once; a slot with a callback that is still connected
    at the end was called; slots connected by a callback wait for the next
    emission; afterwards the list holds connected slots only. *)
Theorem signal_emission react s :
  wf s →
  let '(calls, s') := emit react s in
  sublist calls (slots_ s) ∧ NoDup calls ∧
  (∀ id, id ∈ calls → connected s id = true) ∧
  (∀ id cb, id ∈ slots_ s → cb_ <$> heap s !! id = Some (Some cb) →
     connected s' id = true → id ∈ calls) ∧
  (∀ id, id ∈ slots_ s' → connected s' id = true ∧ (id ∈ slots_ s ∨ id ∉ calls)) ∧
  wf s'.
Proof.
  intros Hwf. pose proof Hwf as [Hnd Hsl Hfr]. unfold emit.
  pose proof (emit_loop_spec react (slots_ s) s Hwf Hsl) as (Hsub & Hl & Hw & Hall & Hcon).
  destruct (emit_loop react (slots_ s) s) as [calls s1]. simpl in *. split_and!.
  - done.
  - by eapply sublist_NoDup.
  - done.
  - intros id cb Hid Hcb Hc. eapply Hall; eauto.
  - intros id [Hc Hid]%list_elem_of_filter. split; [done|].
    destruct Hl as (_ & Hs1 & _). destruct (Hs1 _ Hid) as [?|Hge]; [by left|right].
    intros Hcall. assert (id < fresh_ s)%nat; [|lia].
    apply Hfr, Hsl. by eapply elem_of_sublist.
  - by apply clear_wf.
Qed.

(** Connections.  [Connect] adds a connected slot at the end; [Disconnect] finds
    exactly the connections of listed slots, and afterwards the slot is neither
    connected nor listed, while every other slot keeps its place and its
    state. *)
Theorem signal_connections s c cb :
  wf s →
  (let '(c', s') := Connect cb s in
   slots_ s' = slots_ s ++ [fresh_ s] ∧ slot_ c' = Some (fresh_ s) ∧ IsConnected s' c' = true ∧ wf s') ∧
  let r := Connection_Disconnect c s in
  r.1 = signal_ c && listed c (slots_ s) ∧
  (r.1 = true → IsConnected r.2 c = false) ∧
  (∀ id, slot_ c ≠ Some id → connected r.2 id = connected s id) ∧
  slots_ r.2 = (if r.1 then filter (λ id, slot_ c ≠ Some id ∧ connected s id = true) (slots_ s)
                else slots_ s) ∧
  wf r.2.
Proof.
  intros Hwf. split.
  - simpl. split_and!; [done|done| |exact (proj2 (action_later (AConnect cb) s Hwf))].
    unfold IsConnected, connected. simpl. by rewrite lookup_insert_eq.
  - pose proof (proj2 (action_later (ADisconnect c) s Hwf)) as Hw. simpl in Hw.
    unfold Connection_Disconnect in *.
    destruct (signal_ c); [|by split_and!].
    destruct (slot_ c) as [k|] eqn:Hc; [|unfold listed; rewrite Hc; by split_and!].
    unfold Disconnect in *. pose proof (disconnect_loop_spec c (slots_ s) (heap s)) as [Hf Hh].
    destruct (disconnect_loop c (slots_ s) (heap s)) as [find h]. simpl in Hf, Hh.
    rewrite Hc in Hh.
    assert (∀ id, k ≠ id → h !! id = heap s !! id) as Hother.
    { intros id Hne. rewrite Hh, decide_False; [done|]. intros [[= ?] _]. congruence. }
    assert (find = true → ∀ (n : nat) l, connected (mk l h n) k = false) as Hk.
    { intros ->. intros n l. unfold listed in Hf. rewrite Hc in Hf. symmetry in Hf. apply bool_decide_eq_true in Hf.
      unfold connected. simpl. rewrite Hh, decide_True by done. by destruct (heap s !! k). }
    destruct find; simpl in *; split_and!; try done.
    + intros _. unfold IsConnected. rewrite Hc. unfold connected. simpl. by apply (Hk eq_refl 0%nat []).
    + intros id Hne. unfold connected. simpl. rewrite Hother; [done|congruence].
    + apply list_filter_iff. intros id. destruct (decide (k = id)) as [<-|Hne].
      * rewrite (Hk eq_refl). split; [done|]. by intros [? _].
      * unfold connected at 1. simpl. rewrite Hother by done. fold (connected s id). naive_solver.
    + intros id Hne. unfold connected. simpl. rewrite Hother; [done|congruence].
Qed.

Lemma signal_new_wf : wf Signal.
Proof.
  split; simpl; [constructor| |].
  - intros id H. by apply elem_of_nil in H.
  - intros id. rewrite lookup_empty. by intros [].
Qed.

(** Three slots; the callback of the first one disconnects the second and
    connects a fourth. *)
Definition demo_signal : t := (Connect (Some 2) (Connect (Some 1) (Connect (Some 0) Signal).2).2).2%nat.
Definition demo_react (cb : nat) : list action :=
  match cb with O => [ADisconnect (mkconn (Some 1%nat) true); AConnect (Some 3%nat)] | _ => [] end.

Lemma demo_signal_wf : wf demo_signal.
Proof.
  unfold demo_signal. repeat (apply (proj2 (action_later (AConnect _) _ ltac:(eassumption))) ||
    (refine (proj2 (action_later (AConnect _) _ _)))). apply signal_new_wf.
Qed.

Lemma signal_emission_witness :
  (emit demo_react demo_signal).1 = [0; 2]%nat ∧ NoDup (emit demo_react demo_signal).1.
Proof.
  split; [vm_compute; reflexivity|].
  pose proof (signal_emission demo_react demo_signal demo_signal_wf) as H.
  destruct (emit demo_react demo_signal) as [calls s']. exact (proj1 (proj2 H)).
Defined.

Lemma signal_connections_witness :
  (Connection_Disconnect (mkconn (Some 1%nat) true) demo_signal).1 = true ∧
  slots_ (Connection_Disconnect (mkconn (Some 1%nat) true) demo_signal).2 = [0; 2]%nat.
Proof.
  pose proof (proj2 (signal_connections demo_signal (mkconn (Some 1%nat) true) None demo_signal_wf)) as H.
  split; [vm_compute; reflexivity|].
  destruct H as (_ & _ & _ & Hs & _). rewrite Hs. vm_compute. reflexivity.
Defined.
End Signal.
