(* ===== verification/TimingWheel.v ===== *)
(** * The timing wheel and timers ([cyber/timer/timing_wheel.h],
    [cyber/timer/timing_wheel.cc], [cyber/timer/timer.cc])

    A work wheel of 512 buckets is ticked every millisecond; an assistant wheel of
    64 buckets holds the tasks of later rounds and is cascaded into the work wheel
    when that wraps around.  Buckets hold weak pointers to tasks: here ids, looked
    up in the map of live tasks.  [AddTask] runs on any thread and reads the two
    indices without a lock; the thread of [TickFunc] changes them and cascades.
    Every read, write and locked access of both is a step of its own, so an
    [AddTask] may fall anywhere inside an advance. *)

From S2P Require Import Prelude.

Local Open Scope Z_scope.
Local Open Scope cyber_scope.

Module TimingWheel.

Definition WORK_WHEEL_SIZE : Z := 512.
Definition ASSISTANT_WHEEL_SIZE : Z := 64.
Definition TIMER_MAX_INTERVAL_MS : Z := u64 (WORK_WHEEL_SIZE * ASSISTANT_WHEEL_SIZE).

(** The fields of a [TimerTask] that the wheel reads and writes; the others are
    for the statements only: the tick in which [AddTask] read the index, whether no
    rollover of the work wheel came between that and the end of [AddTask], the tick
    in which the task was put into a bucket, the first tick whose [Tick] had not
    begun then, and the tick in which the wheel will serve it. *)
Record TimerTask := mktask {
  remainder_interval_ms : Z;
  next_fire_duration_ms : Z;
  added_at : Z;
  calm : bool;
  put_at : Z;
  ready_at : Z;
  due : Z;
}.

(** [TimerBucket]: its task list. *)
#[local] Notation TimerBucket := (list nat).

Record t := mk {
  running_ : bool;
  work_wheel_ : list TimerBucket;
  assistant_wheel_ : list TimerBucket;
  current_work_wheel_index_ : Z;
  current_assistant_wheel_index_ : Z;
}.

Definition TimingWheel : t :=
  mk false (replicate (Z.to_nat WORK_WHEEL_SIZE) []) (replicate (Z.to_nat ASSISTANT_WHEEL_SIZE) []) 0 0.

Definition GetWorkWheelIndex (index : Z) : Z := Z.land index (WORK_WHEEL_SIZE - 1).
Definition GetAssistantWheelIndex (index : Z) : Z := Z.land index (ASSISTANT_WHEEL_SIZE - 1).

(** [TimerBucket::AddTask] on the bucket at an index. *)
Definition bucket_add (index : Z) (id : nat) (wheel : list TimerBucket) : list TimerBucket :=
  alter (λ b, b ++ [id]) (Z.to_nat index) wheel.

Definition set_work (w : t) (b : list TimerBucket) : t :=
  mk (running_ w) b (assistant_wheel_ w) (current_work_wheel_index_ w) (current_assistant_wheel_index_ w).
Definition set_assistant (w : t) (b : list TimerBucket) : t :=
  mk (running_ w) (work_wheel_ w) b (current_work_wheel_index_ w) (current_assistant_wheel_index_ w).
Definition set_running (w : t) (r : bool) : t :=
  mk r (work_wheel_ w) (assistant_wheel_ w) (current_work_wheel_index_ w) (current_assistant_wheel_index_ w).

(** The two writes of [TickFunc] to the indices. *)
Definition next_work_index (w : t) : t :=
  mk (running_ w) (work_wheel_ w) (assistant_wheel_ w)
    (GetWorkWheelIndex (current_work_wheel_index_ w +64 1)) (current_assistant_wheel_index_ w).
Definition next_assistant_index (w : t) : t :=
  mk (running_ w) (work_wheel_ w) (assistant_wheel_ w) (current_work_wheel_index_ w)
    (GetAssistantWheelIndex (current_assistant_wheel_index_ w +64 1)).

(** ** The machine *)

(** The thread of [TickFunc]: at the test of the loop; in [Tick], with the lock of
    the current bucket; in the sleep; at the write of the assistant index; at the
    call of [Cascade]; in [Cascade], with the lock of the assistant bucket. *)
Inductive thread_pc := AtTop | InTick | AtSleep | AtAssistant | AtCascade | InCascade.

(** A call of [AddTask]: at the test of [running_] and at the computation of the
    index, with the index read at the call; at the read of the assistant index;
    at the push into a bucket of either wheel. *)
Inductive add_pc :=
| AddStart (current_work_wheel_index : Z)
| AddIndex (current_work_wheel_index : Z)
| AddLater (assistant_ticks : Z)
| AddWork (work_wheel_index : Z)
| AddAssistant (assistant_wheel_index : Z).

(** [adds]: the calls under way, by their task, with their [calm] so far;
    [shutting]: a [Shutdown] holds [running_mutex_] and waits for the thread;
    [now] counts the writes of the work index; [fired]: tick, task id, task. *)
Record state := mkst {
  wheel : t;
  shutting : bool;
  tasks : gmap nat TimerTask;
  adds : gmap nat (add_pc * bool);
  thread : thread_pc;
  now : Z;
  fired : list (Z * nat * TimerTask);
}.

(** [LThread]: the thread of [TickFunc] moves; [LAdd id d]: the task gets
    [next_fire_duration_ms = d] and [AddTask] is called; [LAddStep id]: that call
    moves; [LDrop id]: the last owner of the task lets it go ([Timer::Stop]; a call
    of [AddTask] owns its task). *)
Inductive label :=
| LThread | LAdd (id : nat) (d : Z) | LAddStep (id : nat) | LDrop (id : nat) | LShutdown | LJoin.

(** Between the write of the work index and the end of the cascade it calls for. *)
Definition rollover (p : thread_pc) : bool :=
  match p with AtAssistant | AtCascade | InCascade => true | _ => false end.

(** What the wheel will do with a task put into a bucket now. *)
Definition next_tick (s : state) : Z :=
  match thread s with InTick | AtSleep => now s + 1 | _ => now s end.
Definition next_round (s : state) : Z :=
  match thread s with AtAssistant | AtCascade => now s / 512 | _ => now s / 512 + 1 end.
Definition work_due (i : Z) (s : state) : Z := next_tick s + (i - next_tick s) mod 512.
Definition assistant_due (j rem : Z) (s : state) : Z :=
  512 * (next_round s + (j - next_round s) mod 64) + rem.

(** [TickFunc], up to its next access. *)
Definition thread_step (s : state) : option state :=
  let w := wheel s in
  match thread s with
  | AtTop =>
      if running_ w then Some (mkst w (shutting s) (tasks s) (adds s) InTick (now s) (fired s)) else None
  | InTick =>
      let i := Z.to_nat (current_work_wheel_index_ w) in
      match work_wheel_ w !! i with
      | Some (id :: rest) =>
          Some (mkst (set_work w (<[i := rest]> (work_wheel_ w))) (shutting s) (tasks s) (adds s) InTick
                  (now s)
                  (fired s ++ match tasks s !! id with Some task => [(now s, id, task)] | None => [] end))
      | _ => Some (mkst w (shutting s) (tasks s) (adds s) AtSleep (now s) (fired s))
      end
  | AtSleep =>
      let w := next_work_index w in
      if current_work_wheel_index_ w =? 0
      then Some (mkst w (shutting s) (tasks s) ((λ a, (a.1, false)) <$> adds s) AtAssistant (now s + 1)
                   (fired s))
      else Some (mkst w (shutting s) (tasks s) (adds s) AtTop (now s + 1) (fired s))
  | AtAssistant =>
      Some (mkst (next_assistant_index w) (shutting s) (tasks s) (adds s) AtCascade (now s) (fired s))
  | AtCascade => Some (mkst w (shutting s) (tasks s) (adds s) InCascade (now s) (fired s))
  | InCascade =>
      let j := Z.to_nat (current_assistant_wheel_index_ w) in
      match assistant_wheel_ w !! j with
      | Some (id :: rest) =>
          let w := set_assistant w (<[j := rest]> (assistant_wheel_ w)) in
          let w := match tasks s !! id with
                   | Some task =>
                       set_work w (bucket_add (remainder_interval_ms task) id (work_wheel_ w))
                   | None => w
                   end in
          Some (mkst w (shutting s) (tasks s) (adds s) InCascade (now s) (fired s))
      | _ => Some (mkst w (shutting s) (tasks s) (adds s) AtTop (now s) (fired s))
      end
  end.

(** The test and the computation of [AddTask]: the task's new
    [remainder_interval_ms], if it is set, and where to go on. *)
Definition AddTask_index (current_work_wheel_index duration : Z) (w : t) : option Z * add_pc :=
  let work_wheel_index := current_work_wheel_index +64 duration in
  if WORK_WHEEL_SIZE <=? work_wheel_index then
    let real_work_wheel_index := GetWorkWheelIndex work_wheel_index in
    let assistant_ticks := work_wheel_index / WORK_WHEEL_SIZE in
    (Some real_work_wheel_index,
     if (assistant_ticks =? 1) && negb (real_work_wheel_index =? current_work_wheel_index_ w)
     then AddWork real_work_wheel_index else AddLater assistant_ticks)
  else (None, AddWork work_wheel_index).

(** [Start()]: it waits while a [Shutdown] holds [running_mutex_]. *)
Definition Start (s : state) : option state :=
  if shutting s then None
  else if running_ (wheel s) then Some s
  else Some (mkst (set_running (wheel s) true) false (tasks s) (adds s) (thread s) (now s) (fired s)).

(** [Shutdown()], up to the join of the thread, and its return. *)
Definition Shutdown (s : state) : option state :=
  if shutting s then None
  else if running_ (wheel s)
  then Some (mkst (set_running (wheel s) false) true (tasks s) (adds s) (thread s) (now s) (fired s))
  else Some s.
Definition Shutdown_joined (s : state) : option state :=
  match shutting s, thread s with
  | true, AtTop => Some (mkst (wheel s) false (tasks s) (adds s) AtTop (now s) (fired s))
  | _, _ => None
  end.

Definition goto (id : nat) (p : add_pc * bool) (s : state) : state :=
  mkst (wheel s) (shutting s) (tasks s) (<[id := p]> (adds s)) (thread s) (now s) (fired s).

Definition set_remainder (rem : Z) (task : TimerTask) : TimerTask :=
  mktask rem (next_fire_duration_ms task) (added_at task) (calm task) (put_at task) (ready_at task)
    (due task).

Definition place (c : bool) (due : Z) (s : state) (task : TimerTask) : TimerTask :=
  mktask (remainder_interval_ms task) (next_fire_duration_ms task) (added_at task) c (now s) (next_tick s)
    due.

Definition locked_work (i : Z) (s : state) : bool :=
  match thread s with InTick => i =? current_work_wheel_index_ (wheel s) | _ => false end.
Definition locked_assistant (j : Z) (s : state) : bool :=
  match thread s with InCascade => j =? current_assistant_wheel_index_ (wheel s) | _ => false end.

(** [AddTask(task, current_work_wheel_index)], up to its next access; [None] when
    it waits for [running_mutex_] or the mutex of a bucket. *)
Definition AddTask_step (id : nat) (s : state) : option state :=
  let w := wheel s in
  '(p, c) ← adds s !! id;
  task ← tasks s !! id;
  match p with
  | AddStart current =>
      s ← (if running_ w then Some s else Start s);
      Some (goto id (AddIndex current, c) s)
  | AddIndex current =>
      let '(rem, p) := AddTask_index current (next_fire_duration_ms task) w in
      Some (mkst w (shutting s) (<[id := set_remainder (default (remainder_interval_ms task) rem) task]> (tasks s))
              (<[id := (p, c)]> (adds s)) (thread s) (now s) (fired s))
  | AddLater ticks =>
      Some (goto id
              (AddAssistant (GetAssistantWheelIndex (current_assistant_wheel_index_ w +64 ticks)), c) s)
  | AddWork i =>
      if locked_work i s then None
      else Some (mkst (set_work w (bucket_add i id (work_wheel_ w))) (shutting s)
                   (<[id := place c (work_due i s) s task]> (tasks s)) (delete id (adds s)) (thread s) (now s)
                   (fired s))
  | AddAssistant j =>
      if locked_assistant j s then None
      else Some (mkst (set_assistant w (bucket_add j id (assistant_wheel_ w))) (shutting s)
                   (<[id := place c (assistant_due j (remainder_interval_ms task) s) s task]> (tasks s))
                   (delete id (adds s)) (thread s) (now s) (fired s))
  end.

(** [AddTask(task)]: the read of the work index. *)
Definition AddTask (id : nat) (d : Z) (s : state) : option state :=
  match adds s !! id with
  | Some _ => None
  | None =>
      let rem := match tasks s !! id with Some task => remainder_interval_ms task | None => 0 end in
      Some (mkst (wheel s) (shutting s) (<[id := mktask rem d (now s) false 0 0 0]> (tasks s))
              (<[id := (AddStart (current_work_wheel_index_ (wheel s)), negb (rollover (thread s)))]> (adds s))
              (thread s) (now s) (fired s))
  end.

Definition step (l : label) (s : state) : option state :=
  match l with
  | LThread => thread_step s
  | LAdd id d => AddTask id d s
  | LAddStep id => AddTask_step id s
  | LDrop id =>
      match adds s !! id with
      | Some _ => None
      | None =>
          Some (mkst (wheel s) (shutting s) (delete id (tasks s)) (adds s) (thread s) (now s) (fired s))
      end
  | LShutdown => Shutdown s
  | LJoin => Shutdown_joined s
  end.

Definition initial : state := mkst TimingWheel false ∅ ∅ AtTop 0 [].

(** How timers use the wheel: durations below [TIMER_MAX_INTERVAL_MS], and a task
    is not added while it waits in a bucket. *)
Definition waiting (id : nat) (w : t) : bool :=
  existsb (existsb (Nat.eqb id)) (work_wheel_ w ++ assistant_wheel_ w).

Definition admissible (l : label) (s : state) : bool :=
  match l with
  | LAdd id d => (1 <=? d) && (d <? TIMER_MAX_INTERVAL_MS) && negb (waiting id (wheel s))
  | _ => true
  end.

Definition timer_step (l : label) (s : state) : option state :=
  if admissible l s then step l s else None.

(** ** When a task fires

    A task with duration [d], added in tick [t0], should fire in tick [t0 + d].  Added
    without an advance in between it does, except that the test
    [real_work_wheel_index != current_work_wheel_index_] sends durations above one
    round that end within the next round to the work wheel, where they fire one
    round early. *)
Definition too_early (t0 d : Z) : bool := (512 <? d) && (t0 mod 512 + d <? 1024).
Definition fire_time (t0 d : Z) : Z := if too_early t0 d then t0 + d - 512 else t0 + d.

(** What [AddTask] makes of [t0 + d]: nothing, when it runs within a tick; one round
    early or (when it was held up until that tick was over) late, when no rollover
    falls into it; and at most 65 rounds after the push otherwise. *)
Definition placed_right (task : TimerTask) : Prop :=
  let t0 := added_at task in
  let d := next_fire_duration_ms task in
  (calm task = true → put_at task = t0 → due task = fire_time t0 d) ∧
  (calm task = true →
     due task = t0 + d ∨ (too_early t0 d = true ∧ due task = t0 + d - 512) ∨
     (t0 + d < ready_at task ∧ due task = t0 + d + 512)) ∧
  due task mod 512 = (t0 + d) mod 512 ∧
  ready_at task <= due task < ready_at task + 65 * 512 ∧
  t0 <= put_at task ∧ put_at task <= ready_at task <= put_at task + 1.

(** ** The invariant *)

Definition in_wheel (id : nat) (w : list TimerBucket) : Prop := ∃ i b, w !! i = Some b ∧ id ∈ b.

(** Entries of the work wheel: the next [Tick] of the bucket is the due one. *)
Definition work_ok (s : state) (i : nat) (id : nat) : Prop :=
  adds s !! id = None ∧
  ∀ task, tasks s !! id = Some task →
    due task mod 512 = Z.of_nat i ∧
    let n := match thread s with AtSleep => now s + 1 | _ => now s end in n <= due task < n + 512.

(** Entries of the assistant wheel: the next cascade of the bucket is the due one. *)
Definition assistant_ok (s : state) (j : nat) (id : nat) : Prop :=
  adds s !! id = None ∧
  ∀ task, tasks s !! id = Some task →
    remainder_interval_ms task = due task mod 512 ∧ (due task / 512) mod 64 = Z.of_nat j ∧
    let r := if rollover (thread s) then now s / 512 else now s / 512 + 1 in
    r <= due task / 512 < r + 64.

(** A call of [AddTask] between its accesses: what it has read. *)
Definition reread (tm t0 t2 : Z) : Prop := t0 <= t2 <= tm ∧ t2 / 512 = t0 / 512.

Definition pc_ok (tm : Z) (p : add_pc) (c : bool) (task : TimerTask) : Prop :=
  let t0 := added_at task in
  let d := next_fire_duration_ms task in
  let x := t0 mod 512 + d in
  match p with
  | AddStart current | AddIndex current => current = t0 mod 512
  | AddLater ticks =>
      remainder_interval_ms task = x mod 512 ∧ ticks = x / 512 ∧ 1 <= ticks <= 64 ∧
      (c = true → ticks = 1 → ∃ t2, reread tm t0 t2 ∧ x mod 512 = t2 mod 512)
  | AddAssistant j =>
      remainder_interval_ms task = x mod 512 ∧ 0 <= j < 64 ∧
      (c = true → j = (t0 / 512 + x / 512) mod 64 ∧ 1 <= x / 512 <= 64 ∧
        (x / 512 = 1 → ∃ t2, reread tm t0 t2 ∧ x mod 512 = t2 mod 512))
  | AddWork i =>
      i = x mod 512 ∧
      (c = true → x < 512 ∨ (512 <= x < 1024 ∧ ∃ t2, reread tm t0 t2 ∧ i ≠ t2 mod 512))
  end.

Definition add_ok (tm : Z) (roll : bool) (tks : gmap nat TimerTask) (id : nat) (a : add_pc * bool) : Prop :=
  ∃ task, tks !! id = Some task ∧ 0 <= added_at task <= tm ∧ 1 <= next_fire_duration_ms task < 32768 ∧
    (a.2 = true → roll = false ∧ tm / 512 = added_at task / 512) ∧ pc_ok tm a.1 a.2 task.

Definition settled (s : state) (id : nat) (task : TimerTask) : Prop :=
  placed_right task ∧
  (in_wheel id (work_wheel_ (wheel s)) ∨ in_wheel id (assistant_wheel_ (wheel s)) ∨
   (due task, id, task) ∈ fired s).

Record inv (s : state) : Prop := {
  tw_now : 0 <= now s;
  tw_work_len : length (work_wheel_ (wheel s)) = 512%nat;
  tw_assist_len : length (assistant_wheel_ (wheel s)) = 64%nat;
  tw_work_index : current_work_wheel_index_ (wheel s) = now s mod 512;
  tw_assist_index : current_assistant_wheel_index_ (wheel s) =
    (now s / 512 - match thread s with AtAssistant => 1 | _ => 0 end) mod 64;
  tw_rollover : rollover (thread s) = true → now s mod 512 = 0;
  tw_work i b id : work_wheel_ (wheel s) !! i = Some b → id ∈ b → work_ok s i id;
  tw_assist j b id : assistant_wheel_ (wheel s) !! j = Some b → id ∈ b → assistant_ok s j id;
  tw_adds : map_Forall (add_ok (now s) (rollover (thread s)) (tasks s)) (adds s);
  tw_live id task : tasks s !! id = Some task → adds s !! id = None → settled s id task;
  tw_fired tm id task : (tm, id, task) ∈ fired s → tm = due task ∧ placed_right task;
}.

(** ** Buckets *)

Lemma GetWorkWheelIndex_mod x : GetWorkWheelIndex x = x mod 512.
Proof. apply (land_mask 9). lia. Qed.

Lemma GetAssistantWheelIndex_mod x : GetAssistantWheelIndex x = x mod 64.
Proof. apply (land_mask 6). lia. Qed.

Lemma bucket_add_length k id w : length (bucket_add k id w) = length w.
Proof. apply length_alter. Qed.

Lemma bucket_add_lookup k id w i b :
  bucket_add k id w !! i = Some b →
  w !! i = Some b ∨ ∃ b', w !! i = Some b' ∧ b = b' ++ [id] ∧ i = Z.to_nat k.
Proof.
  unfold bucket_add. destruct (decide (Z.to_nat k = i)) as [<-|Hne].
  - rewrite list_lookup_alter_eq. intros (b' & ? & ->)%fmap_Some. right. eauto.
  - rewrite list_lookup_alter_ne by done. auto.
Qed.

Lemma in_wheel_add k id id' w : in_wheel id w → in_wheel id (bucket_add k id' w).
Proof.
  intros (i & b & Hi & Hb). destruct (decide (Z.to_nat k = i)) as [<-|Hne].
  - exists (Z.to_nat k), (b ++ [id']). unfold bucket_add. rewrite list_lookup_alter_eq, Hi.
    split; [done|]. set_solver.
  - exists i, b. unfold bucket_add. by rewrite list_lookup_alter_ne.
Qed.

Lemma in_wheel_added k id w : (Z.to_nat k < length w)%nat → in_wheel id (bucket_add k id w).
Proof.
  intros [b Hb]%lookup_lt_is_Some_2. exists (Z.to_nat k), (b ++ [id]). unfold bucket_add.
  rewrite list_lookup_alter_eq, Hb. split; [done|]. set_solver.
Qed.

Lemma waiting_spec id w :
  waiting id w = false →
  (∀ i b, work_wheel_ w !! i = Some b → id ∉ b) ∧ (∀ j b, assistant_wheel_ w !! j = Some b → id ∉ b).
Proof.
  intros Hw. unfold waiting in Hw.
  assert (∀ b, b ∈ work_wheel_ w ++ assistant_wheel_ w → id ∉ b) as H.
  { intros b Hb Hid. assert (existsb (existsb (Nat.eqb id)) (work_wheel_ w ++ assistant_wheel_ w) = true);
      [|congruence].
    apply existsb_exists. exists b. split; [by apply list_elem_of_In|].
    apply existsb_exists. exists id. split; [by apply list_elem_of_In|apply Nat.eqb_refl]. }
  split; intros i b Hi; apply H, elem_of_app; [left|right]; by eapply list_elem_of_lookup_2.
Qed.

Lemma succ_div_mod m n :
  0 < m → 0 <= n →
  ((n + 1) mod m = 0 ∧ (n + 1) / m = n / m + 1) ∨
  ((n + 1) mod m = n mod m + 1 ∧ (n + 1) / m = n / m).
Proof.
  intros Hm Hn. pose proof (Z.div_mod n m). pose proof (Z.mod_pos_bound n m).
  destruct (Z.eq_dec (n mod m) (m - 1)) as [He|He].
  - left. assert (n + 1 = m * (n / m + 1) + 0) as Hd by lia.
    split; symmetry; [apply (Z.mod_unique _ _ (n / m + 1)); lia|apply (Z.div_unique _ _ _ 0); lia].
  - right. assert (n + 1 = m * (n / m) + (n mod m + 1)) as Hd by lia.
    split; [symmetry; apply (Z.mod_unique _ _ (n / m)); lia|symmetry; apply (Z.div_unique _ _ _ (n mod m + 1)); lia].
Qed.

(** ** Where a push leads *)

Lemma next_congruent m n i :
  0 < m → let x := n + (i - n) mod m in x mod m = i mod m ∧ n <= x < n + m.
Proof.
  intros Hm x. pose proof (Z.mod_pos_bound (i - n) m Hm). split; [|lia].
  unfold x. rewrite Zplus_mod_idemp_r. f_equal. lia.
Qed.

Lemma divmod_of m q r x : 0 <= r < m → x = m * q + r → x / m = q ∧ x mod m = r.
Proof. intros Hr ->. split; symmetry; [eapply Z.div_unique|eapply Z.mod_unique]; eauto. Qed.

(** Without a rollover a push into the work wheel is served in [t0 + d], or one
    round away from it. *)
Lemma work_due_right tm late t0 d t2 due i :
  0 <= t0 <= tm → 1 <= d < 32768 → tm / 512 = t0 / 512 → (late = 0 ∨ late = 1) →
  due mod 512 = i → tm + late <= due < tm + late + 512 → i = (t0 mod 512 + d) mod 512 →
  t0 mod 512 + d < 512 ∨ (512 <= t0 mod 512 + d < 1024 ∧ reread tm t0 t2 ∧ i ≠ t2 mod 512) →
  (tm = t0 → due = fire_time t0 d) ∧
  (due = t0 + d ∨ (too_early t0 d = true ∧ due = t0 + d - 512) ∨ (t0 + d < tm + late ∧ due = t0 + d + 512)).
Proof.
  intros Ht Hd Hq Hl Hm Hr Hi Hc. unfold fire_time, too_early, reread in *.
  pose proof (Z.div_mod t0 512). pose proof (Z.mod_pos_bound t0 512).
  pose proof (Z.div_mod tm 512). pose proof (Z.mod_pos_bound tm 512).
  pose proof (Z.div_mod due 512). pose proof (Z.mod_pos_bound due 512).
  set (c := t0 mod 512) in *. set (q := t0 / 512) in *.
  destruct Hc as [Hc|(Hc & (Ht2 & Hq2) & Hne)].
  - rewrite Z.mod_small in Hi by lia. rewrite (proj2 (Z.ltb_ge 512 d)) by lia. simpl.
    assert (due / 512 = q ∨ due / 512 = q + 1) by lia. lia.
  - destruct (divmod_of 512 1 (c + d - 512) (c + d)) as [_ Hx]; [lia|lia|]. rewrite Hx in Hi.
    pose proof (Z.div_mod t2 512). pose proof (Z.mod_pos_bound t2 512).
    assert (due / 512 = q ∨ due / 512 = q + 1) as [Hdq|Hdq] by lia.
    + assert (512 < d).
      { destruct (Z.eq_dec d 512); [|lia]. assert (t2 = t0) by lia. subst t2. lia. }
      rewrite (proj2 (Z.ltb_lt 512 d)), (proj2 (Z.ltb_lt (c + d) 1024)) by lia. simpl. lia.
    + split; [|left; lia]. intros ->. assert (t2 = t0) as -> by lia. fold c in Hne.
      rewrite (proj2 (Z.ltb_ge 512 d)) by lia. simpl. lia.
Qed.

(** A push into the assistant wheel is served in [t0 + d]. *)
Lemma assistant_due_right tm t0 d :
  0 <= t0 <= tm → 1 <= d < 32768 → tm / 512 = t0 / 512 →
  let x := t0 mod 512 + d in
  1 <= x / 512 <= 64 → (x / 512 = 1 → ∃ t2, reread tm t0 t2 ∧ x mod 512 = t2 mod 512) →
  512 * (tm / 512 + 1 + ((t0 / 512 + x / 512) mod 64 - (tm / 512 + 1)) mod 64) + x mod 512 = t0 + d ∧
  (tm = t0 → t0 + d = fire_time t0 d).
Proof.
  intros Ht Hd Hq x Hx Hre. unfold fire_time, too_early, reread in *. fold x.
  pose proof (Z.div_mod t0 512). pose proof (Z.mod_pos_bound t0 512).
  pose proof (Z.div_mod x 512). pose proof (Z.mod_pos_bound x 512).
  split.
  - rewrite Hq, Zminus_mod_idemp_l.
    replace (t0 / 512 + x / 512 - (t0 / 512 + 1)) with (x / 512 - 1) by lia.
    rewrite Z.mod_small by lia. unfold x in *. lia.
  - intros ->. destruct (Z.ltb_spec 512 d), (Z.ltb_spec x 1024); simpl; try lia.
    destruct Hre as (t2 & (Ht2 & _) & He); [lia|]. assert (t2 = t0) as -> by lia. unfold x in *. lia.
Qed.

Lemma next_tick_range s : next_tick s = now s ∨ next_tick s = now s + 1.
Proof. unfold next_tick. destruct (thread s); auto. Qed.

Lemma work_due_spec i s :
  0 <= i < 512 → work_due i s mod 512 = i ∧ next_tick s <= work_due i s < next_tick s + 512.
Proof.
  intros Hi. destruct (next_congruent 512 (next_tick s) i) as [H1 H2]; [lia|].
  rewrite (Z.mod_small i) in H1 by lia. done.
Qed.

Lemma assistant_due_spec j rem s :
  0 <= j < 64 → 0 <= rem < 512 →
  assistant_due j rem s mod 512 = rem ∧ (assistant_due j rem s / 512) mod 64 = j ∧
  next_round s <= assistant_due j rem s / 512 < next_round s + 64.
Proof.
  intros Hj Hrem. destruct (next_congruent 64 (next_round s) j) as [H1 H2]; [lia|].
  rewrite (Z.mod_small j) in H1 by lia.
  destruct (divmod_of 512 (next_round s + (j - next_round s) mod 64) rem (assistant_due j rem s)) as [-> ->];
    [done|done|]. done.
Qed.

(** The tasks that [AddTask] has put into a bucket. *)
Lemma place_work s task i c :
  inv s → add_ok (now s) (rollover (thread s)) {[0%nat := task]} 0 (AddWork i, c) →
  placed_right (place c (work_due i s) s task) ∧ 0 <= i < 512.
Proof.
  intros [] (task' & Ht & H0 & Hd & Hcalm & Hi & Hc). simpl in *. apply lookup_singleton_Some in Ht as [_ <-].
  pose proof (Z.mod_pos_bound (added_at task mod 512 + next_fire_duration_ms task) 512).
  assert (0 <= i < 512) as Hi' by lia. destruct (work_due_spec i s Hi') as [Hm Hr].
  split; [|done]. pose proof (next_tick_range s) as Hn.
  assert (c = true →
    (now s = added_at task → work_due i s = fire_time (added_at task) (next_fire_duration_ms task)) ∧
    (work_due i s = added_at task + next_fire_duration_ms task ∨
     (too_early (added_at task) (next_fire_duration_ms task) = true ∧
       work_due i s = added_at task + next_fire_duration_ms task - 512) ∨
     (added_at task + next_fire_duration_ms task < next_tick s ∧
       work_due i s = added_at task + next_fire_duration_ms task + 512))) as Hright.
  { intros ->. destruct (Hcalm eq_refl) as [_ Hq]. destruct (Hc eq_refl) as [Hx|(Hx & t2 & Ht2)].
    - destruct Hn as [Hn|Hn]; rewrite Hn in *.
      + rewrite <- (Z.add_0_r (now s)) in Hr.
        eapply (work_due_right (now s) 0 _ _ 0) in Hr; eauto. by rewrite Z.add_0_r in Hr.
      + eapply (work_due_right (now s) 1 _ _ 0) in Hr; eauto.
    - destruct Hn as [Hn|Hn]; rewrite Hn in *.
      + rewrite <- (Z.add_0_r (now s)) in Hr.
        eapply (work_due_right (now s) 0 _ _ t2) in Hr; eauto. by rewrite Z.add_0_r in Hr.
      + eapply (work_due_right (now s) 1 _ _ t2) in Hr; eauto. }
  unfold placed_right, place. cbn. split_and!; [by intros ?; apply Hright|by intros ?; apply Hright|..]; try lia.
  rewrite Hm, Hi. by rewrite Zplus_mod_idemp_l.
Qed.

Lemma place_assistant s task j c :
  inv s → add_ok (now s) (rollover (thread s)) {[0%nat := task]} 0 (AddAssistant j, c) →
  placed_right (place c (assistant_due j (remainder_interval_ms task) s) s task) ∧
  0 <= j < 64 ∧ 0 <= remainder_interval_ms task < 512.
Proof.
  intros [] (task' & Ht & H0 & Hd & Hcalm & Hrem & Hj & Hc). simpl in *.
  apply lookup_singleton_Some in Ht as [_ <-].
  pose proof (Z.mod_pos_bound (added_at task mod 512 + next_fire_duration_ms task) 512).
  assert (0 <= remainder_interval_ms task < 512) as Hrem' by lia.
  destruct (assistant_due_spec j _ s Hj Hrem') as (Hm & _ & Hr). split; [|done].
  pose proof (next_tick_range s) as Hn. set (due := assistant_due j (remainder_interval_ms task) s) in *.
  pose proof (Z.div_mod due 512). pose proof (Z.div_mod (now s) 512). pose proof (Z.mod_pos_bound (now s) 512).
  assert (next_tick s <= due < next_tick s + 65 * 512) as Hb.
  { unfold next_tick, next_round in *. destruct (thread s); try lia; specialize (tw_rollover0 eq_refl); lia. }
  assert (c = true → due = added_at task + next_fire_duration_ms task ∧
    (now s = added_at task → due = fire_time (added_at task) (next_fire_duration_ms task))) as Hright.
  { intros ->. destruct (Hcalm eq_refl) as [Hroll Hq], (Hc eq_refl) as (-> & Hx & Hre).
    destruct (assistant_due_right (now s) _ _ H0 Hd Hq Hx Hre) as [E1 E2].
    assert (due = added_at task + next_fire_duration_ms task) as Ed.
    { rewrite <- E1. unfold due, assistant_due, next_round. rewrite Hrem. by destruct (thread s). }
    split; [done|]. intros En. rewrite Ed. by apply E2. }
  unfold placed_right, place. cbn. split_and!; try lia.
  - intros ?. by apply Hright.
  - intros ?. left. by apply Hright.
  - rewrite Hm, Hrem. by rewrite Zplus_mod_idemp_l.
Qed.

(** Nothing that the calls of [AddTask] have read is invalidated by the thread. *)
Lemma pc_ok_mono tm tm' p c task : tm <= tm' → pc_ok tm p c task → pc_ok tm' p c task.
Proof.
  intros Htm. unfold pc_ok, reread. destruct p; try done.
  - intros (? & ? & ? & H). split_and!; [done|done|lia|lia|]. intros Hc Ht.
    destruct (H Hc Ht) as (t2 & ? & ?). exists t2. split; [lia|done].
  - intros (? & H). split; [done|]. intros Hc. destruct (H Hc) as [?|(? & t2 & ? & ?)]; [by left|right].
    split; [done|]. exists t2. split; [lia|done].
  - intros (? & ? & H). split_and!; [done|lia|lia|]. intros Hc. destruct (H Hc) as (? & ? & H').
    split_and!; [done|lia|lia|]. intros Hx. destruct (H' Hx) as (t2 & ? & ?). exists t2. split; [lia|done].
Qed.

Lemma add_ok_mono tm tm' roll roll' tks id a :
  tm <= tm' → (a.2 = true → roll = false → roll' = false ∧ tm' / 512 = tm / 512) →
  add_ok tm roll tks id a → add_ok tm' roll' tks id a.
Proof.
  intros Htm Hroll (task & ? & ? & ? & Hc & Hp). exists task. split_and!; [done|lia|lia|lia|lia| |].
  - intros E. destruct (Hc E) as [Hr Hq]. destruct (Hroll E Hr) as [-> ->]. done.
  - by eapply pc_ok_mono.
Qed.

Lemma add_ok_tasks tm roll tks tks' id a : tks !! id = tks' !! id → add_ok tm roll tks id a → add_ok tm roll tks' id a.
Proof. intros E (task & Ht & ?). exists task. by rewrite <- E. Qed.

(** A bucket without its first entry. *)
Lemma pop_lookup i id rest (w : list TimerBucket) k b x :
  w !! i = Some (id :: rest) → <[i := rest]> w !! k = Some b → x ∈ b → ∃ b', w !! k = Some b' ∧ x ∈ b'.
Proof.
  intros Hi Hk Hx. apply list_lookup_insert_Some in Hk as [(-> & <- & _)|[_ Hk]]; [|eauto].
  exists (id :: rest). split; [done|by right].
Qed.

Lemma in_wheel_pop i id rest (w : list TimerBucket) x :
  w !! i = Some (id :: rest) → in_wheel x w → x = id ∨ in_wheel x (<[i := rest]> w).
Proof.
  intros Hi (k & b & Hk & Hx). destruct (decide (k = i)) as [->|Hne].
  - simplify_eq. apply elem_of_cons in Hx as [->|Hx]; [by left|right]. exists i, rest.
    split; [|done]. apply list_lookup_insert_eq. by eapply lookup_lt_Some.
  - right. exists k, b. by rewrite list_lookup_insert_ne.
Qed.

(** ** The invariant is kept *)

Lemma tw_initial_inv : inv initial.
Proof.
  split; try done; cbn [initial wheel TimingWheel work_wheel_ assistant_wheel_ adds tasks fired].
  intros ??? Hid. by apply elem_of_nil in Hid.
Qed.

(** A move of the thread that leaves the wheels alone. *)
Lemma tw_frame_inv s th :
  inv s → rollover th = rollover (thread s) →
  match th with AtAssistant => False | _ => True end →
  match thread s with AtAssistant => False | _ => True end →
  match th, thread s with AtSleep, AtSleep => True | AtSleep, _ => False | _, AtSleep => False | _, _ => True end →
  ∀ sh, inv (mkst (wheel s) sh (tasks s) (adds s) th (now s) (fired s)).
Proof.
  intros [] Hr Ha Ha' Hsl sh. split; cbn [wheel tasks now fired adds thread]; rewrite ?Hr; try done.
  - rewrite tw_assist_index0. by destruct th, (thread s).
  - intros i b id Hi Hid. destruct (tw_work0 _ _ _ Hi Hid) as [? H]. split; [done|].
    intros task Ht. destruct (H _ Ht) as [? Hb]. split; [done|]. cbn. by destruct th, (thread s).
  - intros i b id Hi Hid. destruct (tw_assist0 _ _ _ Hi Hid) as [? H]. split; [done|].
    intros task Ht. cbn. rewrite Hr. by apply H.
Qed.

(** [Tick]: the entries of the current bucket are due now. *)
Lemma tick_due s id i b task :
  inv s → thread s = InTick → work_wheel_ (wheel s) !! i = Some b → id ∈ b → tasks s !! id = Some task →
  i = Z.to_nat (now s mod 512) ↔ due task = now s.
Proof.
  intros [] Hth Hi Hid Ht. destruct (tw_work0 _ _ _ Hi Hid) as [_ H]. destruct (H _ Ht) as [Hm Hb].
  rewrite Hth in Hb. cbn in Hb. pose proof (Z.mod_pos_bound (now s) 512). split.
  - intros ->. apply (mod_window_inj 512); lia.
  - intros E. rewrite E in Hm. lia.
Qed.

Lemma tw_in_tick_inv s s' : inv s → thread s = InTick → thread_step s = Some s' → inv s'.
Proof.
  intros Hinv Hth Hs. pose proof Hinv as []. unfold thread_step in Hs. rewrite Hth, tw_work_index0 in Hs.
  pose proof (Z.mod_pos_bound (now s) 512).
  destruct (lookup_lt_is_Some_2 (work_wheel_ (wheel s)) (Z.to_nat (now s mod 512))) as [b Hb]; [lia|].
  rewrite Hb in Hs. destruct b as [|id rest]; simplify_eq.
  - split; cbn [wheel tasks now fired adds thread]; try done; rewrite ?Hth in *; try done.
    + intros i b k Hi Hk. destruct (tw_work0 _ _ _ Hi Hk) as [? H']. split; [done|].
      intros task Ht. cbn. destruct (H' _ Ht) as [? Hb']. rewrite Hth in Hb'. cbn in Hb'.
      assert (due task ≠ now s); [|lia]. intros E%(tick_due s k i b); [|done..]. subst i. simplify_eq.
      by apply elem_of_nil in Hk.
    + intros i b k Hi Hk. destruct (tw_assist0 _ _ _ Hi Hk) as [? H']. split; [done|]. by rewrite Hth in H'.
  - split; cbn [wheel tasks now fired adds thread work_wheel_ set_work assistant_wheel_]; try done;
      rewrite ?Hth, ?length_insert in *; try done.
    + intros i b k Hi Hk. destruct (pop_lookup _ _ _ _ _ _ _ Hb Hi Hk) as (b' & Hi' & Hk').
      destruct (tw_work0 _ _ _ Hi' Hk') as [? H']. split; [done|]. intros task Ht. cbn. rewrite Hth in H'. by apply H'.
    + intros i b k Hi Hk. destruct (tw_assist0 _ _ _ Hi Hk) as [? H']. split; [done|]. rewrite Hth in H'. done.
    + intros k task Ht Ha. destruct (tw_live0 _ _ Ht Ha) as [Hp Hin]. split; [done|].
      destruct Hin as [Hin|[?|?]]; [|by right; left|right; right; apply elem_of_app; by left].
      apply (in_wheel_pop _ _ _ _ _ Hb) in Hin as [->|?]; [|by left]. right. right. apply elem_of_app. right.
      rewrite Ht. rewrite <- (proj1 (tick_due s id _ _ task Hinv Hth Hb ltac:(left) Ht)) by done.
      apply list_elem_of_singleton. done.
    + intros tm k task [?|Hk]%elem_of_app; [by eapply tw_fired0|].
      destruct (tasks s !! id) as [task'|] eqn:Ht; [|by apply elem_of_nil in Hk].
      apply list_elem_of_singleton in Hk. simplify_eq.
      destruct (tw_work0 _ _ _ Hb ltac:(left)) as [Ha _]. destruct (tw_live0 _ _ Ht Ha) as [Hp _].
      split; [|done]. symmetry. by apply (tick_due s id _ _ task' Hinv Hth Hb ltac:(left) Ht).
Qed.

Lemma tw_ext s s' :
  work_wheel_ (wheel s') = work_wheel_ (wheel s) → assistant_wheel_ (wheel s') = assistant_wheel_ (wheel s) →
  current_work_wheel_index_ (wheel s') = current_work_wheel_index_ (wheel s) →
  current_assistant_wheel_index_ (wheel s') = current_assistant_wheel_index_ (wheel s) →
  tasks s' = tasks s → adds s' = adds s → thread s' = thread s → now s' = now s → fired s' = fired s →
  inv s → inv s'.
Proof.
  destruct s as [w sh tk ad th n f], s' as [w' sh' tk' ad' th' n' f'], w, w'. simpl. intros; subst.
  destruct H8. by split.
Qed.

(** The write of the work index. *)
Lemma tw_index_inv s s' : inv s → thread s = AtSleep → thread_step s = Some s' → inv s'.
Proof.
  intros Hinv Hth Hs. pose proof Hinv as []. unfold thread_step in Hs. rewrite Hth in Hs.
  unfold next_work_index in Hs. rewrite tw_work_index0, GetWorkWheelIndex_mod in Hs.
  pose proof (Z.mod_pos_bound (now s) 512). rewrite u64_small in Hs by lia.
  rewrite Zplus_mod_idemp_l in Hs. cbn [current_work_wheel_index_] in Hs.
  destruct (succ_div_mod 512 (now s)) as [[Hm Hq]|[Hm Hq]]; [lia|done|..].
  - rewrite Hm in Hs. simpl in Hs. simplify_eq. rewrite Hth in *.
    split; cbn [wheel tasks now fired adds thread work_wheel_ assistant_wheel_ current_work_wheel_index_
      current_assistant_wheel_index_]; try done.
    + lia.
    + rewrite tw_assist_index0, Hq. f_equal. lia.
    + intros i b id Hi Hid. destruct (tw_work0 _ _ _ Hi Hid) as [Ha H']. split; [simpl; by rewrite lookup_fmap, Ha|].
      intros task Ht. cbn. rewrite Hth in H'. destruct (H' _ Ht) as [? Hb]. cbn in Hb. split; [done|lia].
    + intros i b id Hi Hid. destruct (tw_assist0 _ _ _ Hi Hid) as [Ha H']. split; [simpl; by rewrite lookup_fmap, Ha|].
      intros task Ht. cbn. rewrite Hth in H'. destruct (H' _ Ht) as (? & ? & Hb). cbn in Hb. rewrite Hq. done.
    + intros id a Ha. apply lookup_fmap_Some in Ha as ([p c] & <- & Ha). apply tw_adds0 in Ha.
      destruct Ha as (task & ? & ? & ? & ? & Hp). exists task. simpl in *. split_and!; [done|lia..|lia|done|].
      apply (pc_ok_mono (now s)); [lia|]. unfold pc_ok in *. destruct p; intuition; congruence.
    + intros id task Ht Ha. rewrite lookup_fmap in Ha. destruct (adds s !! id) eqn:Ea; [done|].
      by apply (tw_live0 id).
  - rewrite Hm in Hs. rewrite (proj2 (Z.eqb_neq _ 0)) in Hs by lia. simplify_eq. rewrite Hth in *.
    split; cbn [wheel tasks now fired adds thread work_wheel_ assistant_wheel_ current_work_wheel_index_
      current_assistant_wheel_index_]; try done.
    + lia.
    + by rewrite Hq.
    + intros i b id Hi Hid. destruct (tw_work0 _ _ _ Hi Hid) as [Ha H']. split; [done|].
      intros task Ht. cbn. rewrite Hth in H'. destruct (H' _ Ht) as [? Hb]. cbn in Hb. split; [done|lia].
    + intros i b id Hi Hid. destruct (tw_assist0 _ _ _ Hi Hid) as [Ha H']. split; [done|].
      intros task Ht. cbn. rewrite Hth in H'. destruct (H' _ Ht) as (? & ? & Hb). cbn in Hb. rewrite Hq. done.
    + intros id a Ha. apply tw_adds0 in Ha. eapply add_ok_mono; [| |done]; [lia|]. intros _ _. by rewrite Hq.
Qed.

Lemma tw_assistant_inv s s' : inv s → thread s = AtAssistant → thread_step s = Some s' → inv s'.
Proof.
  intros [] Hth Hs. unfold thread_step in Hs. rewrite Hth in Hs. unfold next_assistant_index in Hs.
  rewrite tw_assist_index0, Hth, GetAssistantWheelIndex_mod in Hs.
  pose proof (Z.mod_pos_bound (now s / 512 - 1) 64). rewrite u64_small, Zplus_mod_idemp_l in Hs by lia.
  simplify_eq. rewrite Hth in *.
  split; cbn [wheel tasks now fired adds thread work_wheel_ assistant_wheel_ current_work_wheel_index_
    current_assistant_wheel_index_]; try done.
  - f_equal. lia.
  - intros i b id Hi Hid. destruct (tw_work0 _ _ _ Hi Hid) as [Ha H']. split; [done|]. by rewrite Hth in H'.
  - intros i b id Hi Hid. destruct (tw_assist0 _ _ _ Hi Hid) as [Ha H']. split; [done|]. by rewrite Hth in H'.
Qed.

(** [Cascade]: the entries of the current assistant bucket are due in this round. *)
Lemma cascade_due s id j b task :
  inv s → thread s = InCascade → assistant_wheel_ (wheel s) !! j = Some b → id ∈ b → tasks s !! id = Some task →
  j = Z.to_nat ((now s / 512) mod 64) ↔ due task / 512 = now s / 512.
Proof.
  intros [] Hth Hj Hid Ht. destruct (tw_assist0 _ _ _ Hj Hid) as [_ H]. destruct (H _ Ht) as (_ & Hm & Hb).
  rewrite Hth in Hb. cbn in Hb. pose proof (Z.mod_pos_bound (now s / 512) 64). split.
  - intros ->. apply (mod_window_inj 64); lia.
  - intros E. rewrite E in Hm. lia.
Qed.

(** The entry at the front of that bucket goes to the work wheel, or away if its
    task is dead. *)
Lemma tw_cascade_pop s id rest j :
  inv s → thread s = InCascade → j = Z.to_nat ((now s / 512) mod 64) →
  assistant_wheel_ (wheel s) !! j = Some (id :: rest) →
  let w := set_assistant (wheel s) (<[j := rest]> (assistant_wheel_ (wheel s))) in
  inv (mkst match tasks s !! id with
            | Some task => set_work w (bucket_add (remainder_interval_ms task) id (work_wheel_ w))
            | None => w
            end (shutting s) (tasks s) (adds s) InCascade (now s) (fired s)).
Proof.
  intros Hinv Hth Hj Hb w. pose proof Hinv as []. pose proof (tw_assist0 _ _ _ Hb ltac:(left)) as [Hadd Hok].
  assert (∀ i b k, assistant_wheel_ w !! i = Some b → k ∈ b → assistant_ok s i k) as Hass.
  { intros i b k Hi Hk. destruct (pop_lookup _ _ _ _ _ _ _ Hb Hi Hk) as (b' & Hi' & Hk'). by eapply tw_assist0. }
  assert (now s mod 512 = 0) as H0 by (apply tw_rollover0; by rewrite Hth).
  pose proof (Z.div_mod (now s) 512). unfold assistant_ok, work_ok in *. rewrite Hth in *. cbn [rollover] in *.
  destruct (tasks s !! id) as [task|] eqn:Ht.
  - destruct (Hok _ eq_refl) as (Hrem & _ & _).
    pose proof (proj1 (cascade_due s id _ _ task Hinv Hth Hb ltac:(left) Ht) Hj) as Hdue.
    pose proof (Z.div_mod (due task) 512). pose proof (Z.mod_pos_bound (due task) 512).
    split; cbn [wheel tasks now fired adds thread work_wheel_ assistant_wheel_ set_work w set_assistant
      current_work_wheel_index_ current_assistant_wheel_index_]; rewrite ?bucket_add_length, ?length_insert;
      try done.
    + intros i b k Hi Hk. unfold work_ok. cbn [adds thread now tasks].
      apply bucket_add_lookup in Hi as [Hi|(b' & Hi & -> & ->)]; [by eapply tw_work0|].
      apply elem_of_app in Hk as [Hk|Hk]; [by eapply tw_work0|]. apply list_elem_of_singleton in Hk as ->.
      split; [done|]. intros ? Ht'. simplify_eq. lia.
    + intros k task' Ht' Ha. destruct (tw_live0 _ _ Ht' Ha) as [? Hin]. split; [done|].
      destruct Hin as [Hin|[Hin|?]]; [left; by apply in_wheel_add| |by right; right].
      apply (in_wheel_pop _ _ _ _ _ Hb) in Hin as [->|Hin]; [|by right; left].
      simplify_eq. left. apply in_wheel_added. cbn. lia.
  - split; cbn [wheel tasks now fired adds thread work_wheel_ assistant_wheel_ set_work w set_assistant
      current_work_wheel_index_ current_assistant_wheel_index_]; rewrite ?length_insert; try done.
    intros k task' Ht' Ha. destruct (tw_live0 _ _ Ht' Ha) as [? Hin]. split; [done|].
    destruct Hin as [?|[Hin|?]]; [by left| |by right; right].
    apply (in_wheel_pop _ _ _ _ _ Hb) in Hin as [->|Hin]; [congruence|by right; left].
Qed.

Lemma tw_in_cascade_inv s s' : inv s → thread s = InCascade → thread_step s = Some s' → inv s'.
Proof.
  intros Hinv Hth Hs. pose proof Hinv as []. unfold thread_step in Hs. rewrite Hth, tw_assist_index0, Hth in Hs.
  rewrite Z.sub_0_r in Hs. pose proof (Z.mod_pos_bound (now s / 512) 64).
  destruct (lookup_lt_is_Some_2 (assistant_wheel_ (wheel s)) (Z.to_nat ((now s / 512) mod 64))) as [b Hb]; [lia|].
  rewrite Hb in Hs. destruct b as [|id rest]; simplify_eq; [|by apply tw_cascade_pop].
  split; cbn [wheel tasks now fired adds thread]; try done; rewrite ?Hth in *; try done.
  - intros i b k Hi Hk. destruct (tw_work0 _ _ _ Hi Hk) as [? H']. split; [done|]. by rewrite Hth in H'.
  - intros i b k Hi Hk. destruct (tw_assist0 _ _ _ Hi Hk) as [? H']. split; [done|].
    intros task Ht. cbn. destruct (H' _ Ht) as (? & ? & Hb'). rewrite Hth in Hb'. cbn in Hb'.
    assert (due task / 512 ≠ now s / 512); [|lia]. intros E%(cascade_due s k i b); [|done..]. subst i. simplify_eq.
    by apply elem_of_nil in Hk.
  - intros id a Ha. apply tw_adds0 in Ha. eapply add_ok_mono; [| |done]; done.
Qed.

Lemma tw_thread_inv s s' : inv s → thread_step s = Some s' → inv s'.
Proof.
  intros Hinv Hs. destruct (thread s) eqn:Hth; [|by eapply tw_in_tick_inv|by eapply tw_index_inv
    |by eapply tw_assistant_inv| |by eapply tw_in_cascade_inv].
  - unfold thread_step in Hs. rewrite Hth in Hs. case_match; simplify_eq. apply tw_frame_inv; by rewrite ?Hth.
  - unfold thread_step in Hs. rewrite Hth in Hs. simplify_eq. apply tw_frame_inv; by rewrite ?Hth.
Qed.

(** A task that no bucket holds may change, with the call of [AddTask] it is in. *)
Lemma tw_add_frame s id task a :
  inv s → (∀ i b, work_wheel_ (wheel s) !! i = Some b → id ∉ b) →
  (∀ j b, assistant_wheel_ (wheel s) !! j = Some b → id ∉ b) →
  add_ok (now s) (rollover (thread s)) {[id := task]} id a →
  ∀ w, work_wheel_ w = work_wheel_ (wheel s) → assistant_wheel_ w = assistant_wheel_ (wheel s) →
    current_work_wheel_index_ w = current_work_wheel_index_ (wheel s) →
    current_assistant_wheel_index_ w = current_assistant_wheel_index_ (wheel s) →
  inv (mkst w (shutting s) (<[id := task]> (tasks s)) (<[id := a]> (adds s)) (thread s) (now s) (fired s)).
Proof.
  intros [] Hnw Hna Hok w Ew Ea E1 E2.
  split; cbn [wheel tasks now fired adds thread]; rewrite ?Ew, ?Ea, ?E1, ?E2; try done.
  - intros i b k Hi Hk. assert (k ≠ id) by (intros ->; by eapply Hnw).
    unfold work_ok. cbn. rewrite !lookup_insert_ne by done. by eapply tw_work0.
  - intros i b k Hi Hk. assert (k ≠ id) by (intros ->; by eapply Hna).
    unfold assistant_ok. cbn. rewrite !lookup_insert_ne by done. by eapply tw_assist0.
  - eapply map_Forall_insert_mono; [done| |].
    + intros k a' Hne _. apply add_ok_tasks. by rewrite lookup_insert_ne.
    + eapply add_ok_tasks; [|done]. by rewrite lookup_insert_eq, lookup_singleton_eq.
  - intros k task' Ht Ha. apply lookup_insert_None in Ha as [Ha Hne]. rewrite lookup_insert_ne in Ht by done.
    unfold settled. cbn. rewrite Ew, Ea. by apply tw_live0.
Qed.

(** While it is added, a task is in no bucket. *)
Lemma adding_not_in s id a :
  inv s → adds s !! id = Some a →
  (∀ i b, work_wheel_ (wheel s) !! i = Some b → id ∉ b) ∧ (∀ j b, assistant_wheel_ (wheel s) !! j = Some b → id ∉ b).
Proof.
  intros [] Ha. split; intros i b Hi Hid; [destruct (tw_work0 _ _ _ Hi Hid)|destruct (tw_assist0 _ _ _ Hi Hid)]; congruence.
Qed.

Lemma tw_addtask_inv s id d s' :
  inv s → admissible (LAdd id d) s = true → AddTask id d s = Some s' → inv s'.
Proof.
  intros Hinv Ha Hs. unfold admissible in Ha. apply andb_true_iff in Ha as [[Hd1 Hd2]%andb_true_iff Hw].
  apply negb_true_iff, waiting_spec in Hw as [Hnw Hna]. change TIMER_MAX_INTERVAL_MS with 32768 in Hd2.
  unfold AddTask in Hs. destruct (adds s !! id) eqn:Eadd; [done|]. simplify_eq.
  apply tw_add_frame; try done. destruct Hinv. eexists. split; [by rewrite lookup_singleton_eq|]. simpl.
  split_and!; try lia. intros E. apply negb_true_iff in E. rewrite E. done.
Qed.

Lemma AddTask_index_ok s id task c current :
  inv s → add_ok (now s) (rollover (thread s)) {[id := task]} id (AddIndex current, c) →
  let '(rem, p) := AddTask_index current (next_fire_duration_ms task) (wheel s) in
  let task' := set_remainder (default (remainder_interval_ms task) rem) task in
  add_ok (now s) (rollover (thread s)) {[id := task']} id (p, c).
Proof.
  intros [] (task0 & Ht & H0 & Hd & Hc & ->). simpl in *. apply lookup_singleton_Some in Ht as [_ <-].
  unfold AddTask_index. pose proof (Z.mod_pos_bound (added_at task) 512).
  rewrite u64_small by lia. set (x := added_at task mod 512 + next_fire_duration_ms task) in *.
  pose proof (Z.mod_pos_bound x 512). pose proof (Z.div_mod x 512). unfold WORK_WHEEL_SIZE.
  rewrite GetWorkWheelIndex_mod, tw_work_index0.
  assert (∀ t2, t2 = now s → c = true → reread (now s) (added_at task) t2) as Hre.
  { intros t2 -> E. destruct (Hc E) as [_ ?]. unfold reread. lia. }
  destruct (Z.leb_spec 512 x) as [Hx|Hx].
  - destruct ((x / 512 =? 1) && negb (x mod 512 =? now s mod 512)) eqn:E;
      (eexists; split; [by rewrite lookup_singleton_eq|]); simpl; fold x; split_and!; try done; try lia.
    + apply andb_true_iff in E as [E1%Z.eqb_eq E2%negb_true_iff%Z.eqb_neq]. intros Ec. right.
      split; [lia|]. exists (now s). split; [by apply Hre|done].
    + intros Ec E1. rewrite E1 in E. simpl in E. apply negb_false_iff, Z.eqb_eq in E.
      exists (now s). split; [by apply Hre|done].
  - eexists. split; [by rewrite lookup_singleton_eq|]. simpl. fold x. split_and!; try done; lia.
Qed.

(** The push into a bucket of the work wheel, and of the assistant wheel. *)
Lemma tw_push_work s id task c i :
  inv s → adds s !! id = Some (AddWork i, c) → tasks s !! id = Some task → locked_work i s = false →
  inv (mkst (set_work (wheel s) (bucket_add i id (work_wheel_ (wheel s)))) (shutting s)
         (<[id := place c (work_due i s) s task]> (tasks s)) (delete id (adds s)) (thread s) (now s) (fired s)).
Proof.
  intros Hinv Ha Ht Hl. destruct (adding_not_in s id _ Hinv Ha) as [Hnw Hna]. pose proof Hinv as [].
  destruct (place_work s task i c Hinv) as [Hp Hi].
  { destruct (tw_adds0 _ _ Ha) as (task' & Ht' & H'). simplify_eq. exists task. by rewrite lookup_singleton_eq. }
  destruct (work_due_spec i s Hi) as [Hm Hr]. pose proof (Z.mod_pos_bound (now s) 512).
  split; cbn [wheel tasks now fired adds thread work_wheel_ assistant_wheel_ set_work
    current_work_wheel_index_ current_assistant_wheel_index_]; rewrite ?bucket_add_length; try done.
  - intros k b x Hk Hx. apply bucket_add_lookup in Hk as [Hk|(b' & Hk & -> & ->)].
    + assert (x ≠ id) by (intros ->; by eapply Hnw). unfold work_ok. cbn.
      rewrite lookup_delete_ne, lookup_insert_ne by done. by eapply tw_work0.
    + apply elem_of_app in Hx as [Hx|Hx].
      * assert (x ≠ id) by (intros ->; by eapply Hnw). unfold work_ok. cbn.
        rewrite lookup_delete_ne, lookup_insert_ne by done. by eapply tw_work0.
      * apply list_elem_of_singleton in Hx as ->. split; cbn; [apply lookup_delete_eq|].
        intros task'. rewrite lookup_insert_eq. intros. simplify_eq. simpl. split; [lia|].
        unfold next_tick, locked_work in *. destruct (thread s); try lia.
        rewrite tw_work_index0 in Hl. apply Z.eqb_neq in Hl.
        assert (work_due i s ≠ now s + 512); [|lia]. intros E. rewrite E in Hm.
        rewrite <- (Z.mul_1_l 512), Z_mod_plus_full in Hm at 1. done.
  - intros k b x Hk Hx. assert (x ≠ id) by (intros ->; by eapply Hna). unfold assistant_ok. cbn.
    rewrite lookup_delete_ne, lookup_insert_ne by done. by eapply tw_assist0.
  - eapply map_Forall_delete_mono; [done|]. intros k a Hne _. apply add_ok_tasks. by rewrite lookup_insert_ne.
  - intros k task' Ht' Ha'. destruct (decide (k = id)) as [->|Hne].
    + rewrite lookup_insert_eq in Ht'. simplify_eq. split; [done|]. left. apply in_wheel_added. lia.
    + rewrite lookup_insert_ne in Ht' by done. rewrite lookup_delete_ne in Ha' by done.
      destruct (tw_live0 _ _ Ht' Ha') as [? [?|[?|?]]]; (split; [done|]); [left; by apply in_wheel_add|by right; left|by right; right].
Qed.

Lemma tw_push_assistant s id task c j :
  inv s → adds s !! id = Some (AddAssistant j, c) → tasks s !! id = Some task → locked_assistant j s = false →
  inv (mkst (set_assistant (wheel s) (bucket_add j id (assistant_wheel_ (wheel s)))) (shutting s)
         (<[id := place c (assistant_due j (remainder_interval_ms task) s) s task]> (tasks s))
         (delete id (adds s)) (thread s) (now s) (fired s)).
Proof.
  intros Hinv Ha Ht Hl. destruct (adding_not_in s id _ Hinv Ha) as [Hnw Hna]. pose proof Hinv as [].
  destruct (place_assistant s task j c Hinv) as (Hp & Hj & Hrem).
  { destruct (tw_adds0 _ _ Ha) as (task' & Ht' & H'). simplify_eq. exists task. by rewrite lookup_singleton_eq. }
  destruct (assistant_due_spec j _ s Hj Hrem) as (Hm & Hq & Hr). pose proof (Z.mod_pos_bound (now s / 512) 64).
  split; cbn [wheel tasks now fired adds thread work_wheel_ assistant_wheel_ set_assistant
    current_work_wheel_index_ current_assistant_wheel_index_]; rewrite ?bucket_add_length; try done.
  - intros k b x Hk Hx. assert (x ≠ id) by (intros ->; by eapply Hnw). unfold work_ok. cbn.
    rewrite lookup_delete_ne, lookup_insert_ne by done. by eapply tw_work0.
  - intros k b x Hk Hx. destruct (decide (x = id)) as [->|Hne]; unfold assistant_ok; cbn.
    + apply bucket_add_lookup in Hk as [Hk|(b' & Hk & -> & ->)]; [by destruct (Hna _ _ Hk)|].
      split; [apply lookup_delete_eq|]. intros task'. rewrite lookup_insert_eq. intros. simplify_eq. simpl.
      split_and!; [done|lia|..]; unfold next_round, locked_assistant in *; destruct (thread s); simpl; try lia.
      rewrite tw_assist_index0, Z.sub_0_r in Hl. apply Z.eqb_neq in Hl.
      assert (assistant_due j (remainder_interval_ms task) s / 512 ≠ now s / 512 + 64); [|lia]. intros E.
      rewrite E in Hq. rewrite <- (Z.mul_1_l 64), Z_mod_plus_full in Hq at 1. done.
    + rewrite lookup_delete_ne, lookup_insert_ne by done.
      apply bucket_add_lookup in Hk as [Hk|(b' & Hk & -> & ->)]; [by eapply tw_assist0|].
      apply elem_of_app in Hx as [Hx|Hx]; [by eapply tw_assist0|]. by apply list_elem_of_singleton in Hx.
  - eapply map_Forall_delete_mono; [done|]. intros k a Hne _. apply add_ok_tasks. by rewrite lookup_insert_ne.
  - intros k task' Ht' Ha'. destruct (decide (k = id)) as [->|Hne].
    + rewrite lookup_insert_eq in Ht'. simplify_eq. split; [done|]. right. left. apply in_wheel_added. lia.
    + rewrite lookup_insert_ne in Ht' by done. rewrite lookup_delete_ne in Ha' by done.
      destruct (tw_live0 _ _ Ht' Ha') as [? [?|[?|?]]]; (split; [done|]); [by left|right; left; by apply in_wheel_add|by right; right].
Qed.

Lemma tw_addstep_inv s id s' : inv s → AddTask_step id s = Some s' → inv s'.
Proof.
  intros Hinv Hs. unfold AddTask_step in Hs. destruct (adds s !! id) as [[p c]|] eqn:Ha; [|done].
  destruct (tasks s !! id) as [task|] eqn:Ht; [|done]. simpl in Hs.
  destruct (adding_not_in s id _ Hinv Ha) as [Hnw Hna].
  assert (add_ok (now s) (rollover (thread s)) {[id := task]} id (p, c)) as Hok.
  { destruct (tw_adds _ Hinv _ _ Ha) as (task' & Ht' & H'). simplify_eq. exists task. by rewrite lookup_singleton_eq. }
  assert (<[id := task]> (tasks s) = tasks s) as Htks by by apply insert_id.
  destruct p as [cur|cur|ticks|i|j].
  - assert (inv (goto id (AddIndex cur, c) s)) as Hgoto.
    { unfold goto. rewrite <- Htks. by apply tw_add_frame. }
    unfold Start in Hs. destruct (running_ (wheel s)); simplify_eq/=; [done|].
    destruct (shutting s) eqn:Esh; simplify_eq/=. eapply tw_ext; [..|exact Hgoto]; done.
  - pose proof (AddTask_index_ok s id task c cur Hinv Hok) as Hidx.
    destruct (AddTask_index cur (next_fire_duration_ms task) (wheel s)) as [rem p]. simplify_eq.
    by apply tw_add_frame.
  - simplify_eq. unfold goto. rewrite <- Htks at 1. apply tw_add_frame; try done.
    destruct Hok as (task' & Ht' & ? & ? & Hc & Hrem & Htk & Htb & Hre). exists task'. simpl in *.
    split_and!; try done; try lia; rewrite GetAssistantWheelIndex_mod;
      pose proof (Z.mod_pos_bound (now s / 512) 64); destruct Hinv; rewrite tw_assist_index0.
    + apply Z.mod_pos_bound. lia.
    + apply Z.mod_pos_bound. lia.
    + intros E. destruct (Hc E) as [Hroll Hq]. split_and!; [|lia|lia|by rewrite <- Htk; apply Hre].
      assert (match thread s with AtAssistant => 1 | _ => 0 end = 0) as -> by by destruct (thread s).
      rewrite Z.sub_0_r, u64_small, Zplus_mod_idemp_l by lia. by rewrite Hq, Htk.
  - destruct (locked_work i s) eqn:Hl; simplify_eq. by apply tw_push_work.
  - destruct (locked_assistant j s) eqn:Hl; simplify_eq. by apply tw_push_assistant.
Qed.

Lemma tw_drop_inv s id s' : inv s → step (LDrop id) s = Some s' → inv s'.
Proof.
  intros [] Hs. simpl in Hs. destruct (adds s !! id) eqn:Ha; [done|]. simplify_eq.
  split; cbn [wheel tasks now fired adds thread]; try done.
  - intros i b k Hi Hk. destruct (tw_work0 _ _ _ Hi Hk) as [? H']. split; [done|].
    intros task Ht. cbn in Ht. apply lookup_delete_Some in Ht as [_ Ht]. by apply H'.
  - intros i b k Hi Hk. destruct (tw_assist0 _ _ _ Hi Hk) as [? H']. split; [done|].
    intros task Ht. cbn in Ht. apply lookup_delete_Some in Ht as [_ Ht]. by apply H'.
  - intros k a Hk. eapply add_ok_tasks; [|by apply tw_adds0]. rewrite lookup_delete_ne; [done|congruence].
  - intros k task [_ Ht]%lookup_delete_Some. by apply tw_live0.
Qed.

Lemma tw_shutdown_inv s s' : inv s → Shutdown s = Some s' ∨ Shutdown_joined s = Some s' → inv s'.
Proof.
  intros Hinv [Hs|Hs].
  - unfold Shutdown in Hs. repeat case_match; simplify_eq; [|done]. eapply tw_ext; [..|exact Hinv]; done.
  - unfold Shutdown_joined in Hs. repeat case_match; simplify_eq. eapply tw_ext; [..|exact Hinv]; done.
Qed.

Lemma tw_reachable_inv s : reachable timer_step initial s → inv s.
Proof.
  apply (reachable_inv timer_step inv); [apply tw_initial_inv|].
  intros l s1 s2 Hinv Hs. unfold timer_step in Hs. destruct (admissible l s1) eqn:Ha; [|done].
  destruct l; [by eapply tw_thread_inv|by eapply tw_addtask_inv|by eapply tw_addstep_inv|by eapply tw_drop_inv
    |eapply tw_shutdown_inv; [done|by left]|eapply tw_shutdown_inv; [done|by right]].
Qed.

(** ** The theorems *)

(** C12: tasks fire when they were placed to, and are placed right.  However the
    thread of [TickFunc] and any calls of [AddTask] interleave, access by access: a
    task fires in exactly the tick [due] that its push into a bucket fixed, and a
    task that is not being added has fired once the [Tick] of its [due] is over.  For
    a task of duration [d] added in tick [t0], [due] is [fire_time t0 d] when
    [AddTask] ends within that tick, outside a rollover; if no rollover falls into
    [AddTask] it is [t0 + d], or 512 less in the case [too_early], or 512 more if the
    push came after that tick's own [Tick]; and in every case it is congruent to
    [t0 + d] modulo 512 and less than 65 rounds after the push.  [fire_time t0 d] is
    [t0 + d] unless [d] exceeds one round and ends within the next. *)
Theorem timing_wheel_fires_on_time s :
  reachable timer_step initial s →
  (∀ tm id task, (tm, id, task) ∈ fired s → tm = due task ∧ placed_right task) ∧
  (∀ id task, tasks s !! id = Some task → adds s !! id = None →
     placed_right task ∧
     (due task < now s ∨ (due task = now s ∧ thread s = AtSleep) → (due task, id, task) ∈ fired s)) ∧
  (∀ t0 d, d <= 512 ∨ 1024 <= t0 mod 512 + d → fire_time t0 d = t0 + d).
Proof.
  intros Hr. apply tw_reachable_inv in Hr as []. split_and!; [done|..].
  - intros id task Htask Ha. destruct (tw_live0 _ _ Htask Ha) as [Hp Hin]. split; [done|]. intros Hdue.
    destruct Hin as [(i & b & Hi & Hb)|[(j & b & Hj & Hb)|?]]; [exfalso..|done].
    + destruct (tw_work0 _ _ _ Hi Hb) as [_ H]. destruct (H _ Htask) as [_ Hlb]. cbn in Hlb.
      destruct Hdue as [?|[? Ht]]; [destruct (thread s); lia|]. rewrite Ht in Hlb. lia.
    + destruct (tw_assist0 _ _ _ Hj Hb) as [_ H]. destruct (H _ Htask) as (_ & _ & Hlb).
      pose proof (Z.div_mod (due task) 512). pose proof (Z.mod_pos_bound (due task) 512).
      pose proof (Z.div_mod (now s) 512). pose proof (Z.mod_pos_bound (now s) 512).
      destruct (rollover (thread s)) eqn:Er; cbn in Hlb; [|lia]. specialize (tw_rollover0 eq_refl).
      destruct Hdue as [?|[_ Ht]]; [lia|]. by rewrite Ht in Er.
  - intros t0 d H. unfold fire_time, too_early.
    destruct (Z.ltb_spec 512 d), (Z.ltb_spec (t0 mod 512 + d) 1024); simpl; lia.
Qed.

(** The whole of [AddTask] into the work wheel, without interference, and rounds of
    the thread over empty buckets. *)
Definition add_now (id : nat) (d : Z) : list label := LAdd id d :: replicate 3 (LAddStep id).
Definition rounds (k : nat) : list label := replicate (3 * k) LThread.

(** The first exception is real: a task added in tick 0 for 600 ms fires in tick 88. *)
Theorem timing_wheel_one_round_early :
  ∃ s task, run timer_step (add_now 0 600 ++ rounds 88 ++ replicate 2 LThread) initial = Some s ∧
    now s = 88 ∧ fired s = [(88, 0%nat, task)] ∧ added_at task = 0 ∧ next_fire_duration_ms task = 600.
Proof. eexists _, _. split_and!; [vm_compute; reflexivity|reflexivity..]. Qed.

(** An [AddTask] across the rollover: it reads index 511, the thread writes 0, and
    the test finds the slot of a task of 1 ms equal to the current index; the task
    goes to the next round and fires 512 ms late. *)
Theorem timing_wheel_late_across_rollover :
  ∃ s task,
    run timer_step ([LAdd 1 1000; LAddStep 1] ++ rounds 511 ++ replicate 2 LThread ++
      [LAdd 0 1; LThread; LAddStep 0; LAddStep 0; LThread; LThread; LThread; LAddStep 0; LAddStep 0] ++
      rounds 511 ++ replicate 9 LThread) initial = Some s ∧
    fired s = [(1024, 0%nat, task)] ∧ added_at task = 511 ∧ next_fire_duration_ms task = 1.
Proof. eexists _, _. split_and!; [vm_compute; reflexivity|reflexivity..]. Qed.

(** A call inside the rollover reads the old assistant index and pushes into the
    bucket that has just been cascaded: the task, asked for tick 1024, waits for the
    assistant wheel to come round. *)
Theorem timing_wheel_cascade_missed :
  ∃ s task,
    run timer_step ([LAdd 1 1000; LAddStep 1] ++ rounds 511 ++ replicate 3 LThread ++
      [LAdd 0 512; LAddStep 0; LAddStep 0; LAddStep 0; LThread; LThread; LThread; LAddStep 0]) initial = Some s ∧
    adds s !! 0%nat = None ∧ tasks s !! 0%nat = Some task ∧
    added_at task = 512 ∧ next_fire_duration_ms task = 512 ∧ due task = 33280.
Proof. eexists _, _. split_and!; [vm_compute; reflexivity|reflexivity..]. Qed.

Lemma timing_wheel_fires_on_time_witness :
  ∃ s task, run timer_step (add_now 0 5 ++ rounds 5 ++ replicate 2 LThread) initial = Some s ∧
    fired s = [(5, 0%nat, task)] ∧ due task = 5 ∧ calm task = true ∧ put_at task = 0 ∧ placed_right task.
Proof.
  eexists _, _. split; [vm_compute; reflexivity|]. split_and!; [reflexivity..|].
  refine (proj2 (proj1 (timing_wheel_fires_on_time _ _) 5 0%nat _ _)).
  - apply (run_reachable timer_step initial (add_now 0 5 ++ rounds 5 ++ replicate 2 LThread)). vm_compute. reflexivity.
  - simpl. left.
Defined.
End TimingWheel.

(** ** Timers *)
Module Timer.
Import TimingWheel.

Record TimerOption := mkopt { period : Z; oneshot : bool }.

Record t := mk {
  timer_id_ : Z;
  timer_opt_ : TimerOption;
  task_ : option nat;
  started_ : bool;
}.

Definition Timer (id : Z) (opt : TimerOption) : t := mk id opt None false.
Definition SetTimerOption (opt : TimerOption) (tm : t) : t :=
  mk (timer_id_ tm) opt (task_ tm) (started_ tm).

(** [InitTimerTask]: the interval of the new task, or a refusal. *)
Definition InitTimerTask (tm : t) : option Z :=
  if period (timer_opt_ tm) =? 0 then None
  else if TIMER_MAX_INTERVAL_MS <=? period (timer_opt_ tm) then None
  else Some (period (timer_opt_ tm)).

(** [Start()], up to the call of [AddTask], which goes on with [LAddStep]; [id] is the
    task object that [InitTimerTask] allocates. *)
Definition Start (is_reality_mode : bool) (id : nat) (tm : t) (s : state) : option (t * state) :=
  if negb is_reality_mode then Some (tm, s)
  else if started_ tm then Some (tm, s)
  else
    match InitTimerTask tm with
    | None => Some (mk (timer_id_ tm) (timer_opt_ tm) (task_ tm) true, s)
    | Some interval =>
        s ← step (LAdd id interval) s;
        Some (mk (timer_id_ tm) (timer_opt_ tm) (Some id) true, s)
    end.

Definition Stop (tm : t) (s : state) : option (t * state) :=
  if started_ tm then
    s ← match task_ tm with Some id => step (LDrop id) s | None => Some s end;
    Some (mk (timer_id_ tm) (timer_opt_ tm) None false, s)
  else Some (tm, s).

(** *** The callback of a periodic timer *)

(** The fields of the task that it updates. *)
Record clock := mkclock {
  interval_ms : Z;
  accumulated_error_ns_ : Z;
  last_execute_time_ns_ : Z;
  next_fire_duration_ms : Z;
}.

Definition new_clock (interval : Z) : clock := mkclock interval 0 0 interval.

(** [llround(static_cast<double>(ns) / 1000000)]: the nearest integer, halves away
    from zero (the conversion is exact below [2^53] ns). *)
Definition llround_ms (ns : Z) : Z := Z.sgn ns * ((Z.abs ns + 500000) / 1000000).

(** The callback ran from [start] to [finish]. *)
Definition after_callback (start finish : Z) (c : clock) : clock :=
  let execute_time_ms := u64 (llround_ms (finish -64 start)) in
  let acc :=
    if last_execute_time_ns_ c =? 0 then accumulated_error_ns_ c
    else i64 (accumulated_error_ns_ c + (start - last_execute_time_ns_ c - interval_ms c * 1000000)) in
  let next :=
    if interval_ms c <=? execute_time_ms then 1
    else
      let accumulated_error_ms := llround_ms acc in
      if accumulated_error_ms <=? i64 (interval_ms c - execute_time_ms - 1)
      then u64 (interval_ms c - execute_time_ms - accumulated_error_ms) else 1 in
  mkclock (interval_ms c) acc start next.

Definition after_callbacks (runs : list (Z * Z)) (c : clock) : clock :=
  foldl (λ c r, after_callback r.1 r.2 c) c runs.

Definition run_ok (r : Z * Z) : Prop := 0 < r.1 <= r.2 ∧ r.2 < 2 ^ 53.

Lemma after_callback_keeps start finish c : interval_ms (after_callback start finish c) = interval_ms c.
Proof. done. Qed.

Lemma after_callbacks_drift runs interval first c :
  Forall run_ok runs → 1 <= interval < TIMER_MAX_INTERVAL_MS → 0 < first < 2 ^ 53 →
  ∀ n, Z.of_nat (n + length runs) < 2 ^ 23 →
  interval_ms c = interval → 0 < last_execute_time_ns_ c < 2 ^ 53 →
  accumulated_error_ns_ c = last_execute_time_ns_ c - first - Z.of_nat n * interval * 1000000 →
  let c' := after_callbacks runs c in
  interval_ms c' = interval ∧
  last_execute_time_ns_ c' = default (last_execute_time_ns_ c) (last runs.*1) ∧
  accumulated_error_ns_ c' =
    last_execute_time_ns_ c' - first - Z.of_nat (n + length runs) * interval * 1000000.
Proof.
  change TIMER_MAX_INTERVAL_MS with 32768.
  intros Hruns Hi Hf. revert c. induction Hruns as [|[st fin] runs [Hr1 Hr2] _ IH]; intros c n Hn Hci Hl Hacc.
  - simpl. rewrite Nat.add_0_r. done.
  - simpl in *. assert (accumulated_error_ns_ (after_callback st fin c) =
      st - first - Z.of_nat (S n) * interval * 1000000) as Hacc'.
    { unfold after_callback. cbn. rewrite (proj2 (Z.eqb_neq _ 0)) by lia. rewrite Hacc, Hci.
      rewrite i64_small; nia. }
    destruct (IH (after_callback st fin c) (S n)) as (H1 & H2 & H3); [lia|done|simpl; lia|done|].
    split_and!; [done| |].
    + rewrite H2, last_cons. change (list_fmap (Z * Z)%type Z fst runs) with (runs.*1). simpl.
      by destruct (last runs.*1).
    + rewrite H3. do 3 f_equal. lia.
Qed.

Lemma llround_whole k : llround_ms (k * 1000000) = k.
Proof.
  unfold llround_ms. assert ((Z.abs (k * 1000000) + 500000) / 1000000 = Z.abs k) as ->.
  { symmetry. apply (Z.div_unique _ _ _ 500000); lia. }
  destruct (Z.eq_dec k 0) as [->|]; [done|]. rewrite Z.sgn_mul, Z.mul_1_r. rewrite Z.mul_comm. apply Z.abs_sgn.
Qed.

Lemma llround_nonneg x : 0 <= x → 0 <= llround_ms x <= x / 1000000 + 1.
Proof.
  intros. unfold llround_ms. rewrite Z.abs_eq by lia.
  pose proof (Z.div_mod x 1000000). pose proof (Z.mod_pos_bound x 1000000).
  pose proof (Z.div_mod (x + 500000) 1000000). pose proof (Z.mod_pos_bound (x + 500000) 1000000).
  destruct (Z.eq_dec x 0) as [->|]; [simpl; lia|]. rewrite Z.sgn_pos by lia. lia.
Qed.

Lemma llround_bound x : - 2 ^ 60 < x < 2 ^ 60 → - 2 ^ 41 < llround_ms x < 2 ^ 41.
Proof.
  intros. unfold llround_ms.
  pose proof (Z.div_mod (Z.abs x + 500000) 1000000). pose proof (Z.mod_pos_bound (Z.abs x + 500000) 1000000).
  assert (0 <= (Z.abs x + 500000) / 1000000 < 2 ^ 41) by lia. nia.
Qed.

(** The duration for the next round, from the updated error. *)
Lemma after_callback_next start finish c :
  run_ok (start, finish) → 1 <= interval_ms c < 32768 →
  let c' := after_callback start finish c in
  - 2 ^ 60 < accumulated_error_ns_ c' < 2 ^ 60 →
  next_fire_duration_ms c' =
    if interval_ms c <=? llround_ms (finish - start) then 1
    else Z.max 1 (interval_ms c - llround_ms (finish - start) - llround_ms (accumulated_error_ns_ c')).
Proof.
  intros [H1 H2] Hi c' Hacc. simpl in H1, H2.
  assert (next_fire_duration_ms c' =
    if interval_ms c <=? u64 (llround_ms (finish -64 start)) then 1
    else if llround_ms (accumulated_error_ns_ c') <=? i64 (interval_ms c - u64 (llround_ms (finish -64 start)) - 1)
      then u64 (interval_ms c - u64 (llround_ms (finish -64 start)) - llround_ms (accumulated_error_ns_ c'))
      else 1) as -> by done.
  rewrite (u64_small (finish - start)) by lia.
  pose proof (llround_nonneg (finish - start)). pose proof (Z.div_mod (finish - start) 1000000).
  pose proof (Z.mod_pos_bound (finish - start) 1000000).
  pose proof (llround_bound _ Hacc). rewrite (u64_small (llround_ms (finish - start))) by lia.
  destruct (Z.leb_spec (interval_ms c) (llround_ms (finish - start))); [done|].
  rewrite i64_small by lia.
  destruct (Z.leb_spec (llround_ms (accumulated_error_ns_ c'))
    (interval_ms c - llround_ms (finish - start) - 1)); [|lia].
  rewrite u64_small by lia. lia.
Qed.

(** A periodic timer corrects its drift.  After any rounds of the callback
    the accumulated error is the distance of the last start from the ideal one
    ([first + k * interval]); the next duration is at least 1; and with times in
    whole milliseconds and a callback shorter than the interval the next start
    is ideal again, unless that moment has already passed. *)
Theorem timer_corrects_drift interval runs s1 f1 st fin pre :
  1 <= interval < TIMER_MAX_INTERVAL_MS → Forall run_ok runs → Z.of_nat (length runs) < 2 ^ 23 →
  head runs = Some (s1, f1) → runs = pre ++ [(st, fin)] →
  let k := Z.of_nat (length pre) in
  let c := after_callbacks runs (new_clock interval) in
  accumulated_error_ns_ c = st - s1 - k * interval * 1000000 ∧
  1 <= next_fire_duration_ms c ∧
  ∀ s1_ms st_ms fin_ms,
    s1 = s1_ms * 1000000 → st = st_ms * 1000000 → fin = fin_ms * 1000000 →
    fin_ms - st_ms < interval → fin_ms < s1_ms + (k + 1) * interval →
    fin_ms + next_fire_duration_ms c = s1_ms + (k + 1) * interval.
Proof.
  change TIMER_MAX_INTERVAL_MS with 32768. intros Hi Hruns Hlen Hhead Hlast k c.
  destruct runs as [|r1 rest]; simplify_eq/=. apply Forall_cons in Hruns as [H1 Hrest].
  pose proof H1 as [Hr1 Hr2]. simpl in Hr1, Hr2.
  set (c1 := after_callback s1 f1 (new_clock interval)).
  destruct (after_callbacks_drift rest interval s1 c1 Hrest Hi ltac:(lia) 0) as (Hci & Hcl & Hca);
    [simpl; lia|done|simpl; lia|simpl; lia|].
  change (after_callbacks rest c1) with c in Hci, Hcl, Hca.
  assert (length pre = length rest) as Hpre.
  { apply (f_equal length) in Hlast. rewrite length_app in Hlast. simpl in Hlast. lia. }
  assert (last_execute_time_ns_ c = st ∧ run_ok (st, fin) ∧
    ∃ c0, c = after_callback st fin c0 ∧ interval_ms c0 = interval) as (Hst & Hok & c0 & Hc0 & Hi0).
  { destruct pre as [|p pre]; simplify_eq/=.
    - split_and!; [done|done|]. by exists (new_clock interval).
    - apply Forall_app in Hrest as [_ Hok]. apply Forall_cons in Hok as [Hok _].
      assert (c = after_callback st fin (after_callbacks pre c1)) as Hc
        by (unfold c, after_callbacks; simpl; by rewrite foldl_app).
      split_and!; [by rewrite Hc|done|]. exists (after_callbacks pre c1). split; [done|]. by rewrite Hc in Hci. }
  assert (accumulated_error_ns_ c = st - s1 - k * interval * 1000000) as Hacc.
  { rewrite Hca, Hst. unfold k. rewrite Hpre. simpl. lia. }
  pose proof Hok as [Ho1 Ho2]. simpl in Ho1, Ho2.
  assert (- 2 ^ 60 < accumulated_error_ns_ c < 2 ^ 60) as Hb by (rewrite Hacc; unfold k; nia).
  pose proof (after_callback_next st fin c0 Hok ltac:(lia)) as Hnext. cbv zeta in Hnext.
  rewrite <- Hc0, Hi0 in Hnext. specialize (Hnext Hb).
  split_and!; [done| |].
  - rewrite Hnext. case_match; lia.
  - intros s1_ms st_ms fin_ms -> -> -> Hex Hfut. rewrite Hnext, Hacc.
    replace (fin_ms * 1000000 - st_ms * 1000000) with ((fin_ms - st_ms) * 1000000) by lia.
    replace (st_ms * 1000000 - s1_ms * 1000000 - k * interval * 1000000)
      with ((st_ms - s1_ms - k * interval) * 1000000) by lia.
    rewrite !llround_whole, (proj2 (Z.leb_gt _ _)) by lia. lia.
Qed.

(** Starting and stopping.  A timer whose period is 0 or at least
    [TIMER_MAX_INTERVAL_MS] is never added to the wheel; otherwise [Start] adds
    its task with that period, once, as the wheel requires; after [Stop] the
    task is not live, so it does not fire, and the timer can be started again. *)
Theorem timer_start_stop id tm s :
  started_ tm = false → task_ tm = None → waiting id (wheel s) = false → adds s !! id = None →
  0 <= period (timer_opt_ tm) →
  (∃ tm' s', Start true id tm s = Some (tm', s') ∧ started_ tm' = true ∧
     (if (1 <=? period (timer_opt_ tm)) && (period (timer_opt_ tm) <? TIMER_MAX_INTERVAL_MS)
      then task_ tm' = Some id ∧ timer_step (LAdd id (period (timer_opt_ tm))) s = Some s'
      else task_ tm' = None ∧ s' = s) ∧
     (∀ id' s'', Start true id' tm' s'' = Some (tm', s'')) ∧
     ∀ s'', adds s'' !! id = None →
       ∃ tm'' s3, Stop tm' s'' = Some (tm'', s3) ∧ started_ tm'' = false ∧ task_ tm'' = None ∧
         (task_ tm' = Some id → tasks s3 !! id = None)) ∧
  Start false id tm s = Some (tm, s) ∧ Stop tm s = Some (tm, s).
Proof.
  intros Hst Htask Hw Hadd Hp. split; [|split; [done|by unfold Stop; rewrite Hst]].
  unfold Start. rewrite Hst. simpl. unfold InitTimerTask.
  destruct (Z.eqb_spec (period (timer_opt_ tm)) 0) as [Hz|Hz].
  { rewrite (proj2 (Z.leb_gt 1 _)) by lia. simpl. eexists _, _. split_and!; [done|done|done|done|done|].
    intros s'' _. unfold Stop. simpl. rewrite Htask. by eexists _, _. }
  rewrite (proj2 (Z.leb_le 1 _)) by lia. cbn [andb].
  destruct (Z.leb_spec TIMER_MAX_INTERVAL_MS (period (timer_opt_ tm))).
  { rewrite (proj2 (Z.ltb_ge _ TIMER_MAX_INTERVAL_MS)) by lia. eexists _, _. split_and!; [done|done|done|done|done|].
    intros s'' _. unfold Stop. simpl. rewrite Htask. by eexists _, _. }
  rewrite (proj2 (Z.ltb_lt _ TIMER_MAX_INTERVAL_MS)) by lia. unfold timer_step, admissible. rewrite Hw.
  rewrite (proj2 (Z.leb_le 1 _)), (proj2 (Z.ltb_lt _ TIMER_MAX_INTERVAL_MS)) by lia. cbn [andb negb].
  unfold step. destruct (AddTask id (period (timer_opt_ tm)) s) as [s'|] eqn:E;
    [|unfold AddTask in E; by rewrite Hadd in E].
  cbn [mbind option_bind]. eexists _, _. split_and!; [done|done|done|done|done|].
  intros s'' Hs''. unfold Stop. simpl. rewrite Hs''. simpl. eexists _, _. split_and!; [done|done|done|].
  intros _. apply lookup_delete_eq.
Qed.

(** Starts at 100, 111 and 119 ms of a 10 ms timer whose callback takes 2 ms. *)
Lemma timer_corrects_drift_witness :
  let c := after_callbacks [(100000000, 102000000); (111000000, 113000000); (119000000, 121000000)]
             (new_clock 10) in
  121 + next_fire_duration_ms c = 130.
Proof.
  intros c.
  destruct (timer_corrects_drift 10 [(100000000, 102000000); (111000000, 113000000); (119000000, 121000000)]
    100000000 102000000 119000000 121000000 [(100000000, 102000000); (111000000, 113000000)])
    as (_ & _ & H).
  - vm_compute. split; [discriminate|reflexivity].
  - repeat constructor; simpl; lia.
  - simpl. lia.
  - reflexivity.
  - reflexivity.
  - apply (H 100 119 121); simpl; lia.
Defined.

Lemma timer_start_stop_witness :
  ∃ tm' s', Start true 4 (Timer 1 (mkopt 20 true)) initial = Some (tm', s') ∧ started_ tm' = true.
Proof.
  destruct (timer_start_stop 4 (Timer 1 (mkopt 20 true)) initial) as [(tm' & s' & H1 & H2 & _) _].
  - reflexivity.
  - reflexivity.
  - vm_compute. reflexivity.
  - reflexivity.
  - simpl. lia.
  - exists tm', s'. split; [exact H1|exact H2].
Defined.
End Timer.
