(* ===== verification/Routine.v ===== *)
(** * Coroutines and their wake-up ([cyber/croutine/croutine.h],
    [cyber/croutine/croutine.cc], [cyber/croutine/routine_factory.h])

    [CRoutine]: the scheduling state of a coroutine.  [DataRoutine]: the routine
    that [CreateRoutineFactory] makes for a [DataVisitor], together with the
    publishers that notify it; every access to shared state is a step.  The
    machine-level context switch is not modelled: a routine runs from [Resume]
    to its next [Yield]. *)

From S2P Require Import Prelude.

Local Open Scope Z_scope.

Module CRoutine.

Inductive RoutineState := READY | FINISHED | SLEEP | IO_WAIT | DATA_WAIT.

#[export] Instance RoutineState_eq_dec : EqDecision RoutineState.
Proof. solve_decision. Defined.

(** The fields.  [lock_] and [updated_] are the values of the atomic flags; a
    cleared [updated_] is a notification not yet seen. *)
Record t := mk {
  wake_time_ : Z;
  state_ : RoutineState;
  lock_ : bool;
  updated_ : bool;
  force_stop_ : bool;
  processor_id_ : Z;
  priority_ : Z;
  id_ : Z;
  name_ : string;
  group_name_ : string;
}.

Definition CRoutine (now : Z) : t := mk now READY false true false (-1) 0 0 "" "".

Definition set_state (s : RoutineState) (c : t) : t :=
  mk (wake_time_ c) s (lock_ c) (updated_ c) (force_stop_ c) (processor_id_ c) (priority_ c)
    (id_ c) (name_ c) (group_name_ c).
Definition set_lock (b : bool) (c : t) : t :=
  mk (wake_time_ c) (state_ c) b (updated_ c) (force_stop_ c) (processor_id_ c) (priority_ c)
    (id_ c) (name_ c) (group_name_ c).
Definition set_updated (b : bool) (c : t) : t :=
  mk (wake_time_ c) (state_ c) (lock_ c) b (force_stop_ c) (processor_id_ c) (priority_ c)
    (id_ c) (name_ c) (group_name_ c).
Definition set_wake_time (z : Z) (c : t) : t :=
  mk z (state_ c) (lock_ c) (updated_ c) (force_stop_ c) (processor_id_ c) (priority_ c)
    (id_ c) (name_ c) (group_name_ c).

Definition Acquire (c : t) : bool * t := (negb (lock_ c), set_lock true c).
Definition Release (c : t) : t := set_lock false c.
Definition SetUpdateFlag (c : t) : t := set_updated false c.
Definition Stop (c : t) : t :=
  mk (wake_time_ c) (state_ c) (lock_ c) (updated_ c) true (processor_id_ c) (priority_ c)
    (id_ c) (name_ c) (group_name_ c).
Definition Wake (c : t) : t := set_state READY c.
Definition set_processor_id (z : Z) (c : t) : t :=
  mk (wake_time_ c) (state_ c) (lock_ c) (updated_ c) (force_stop_ c) z (priority_ c)
    (id_ c) (name_ c) (group_name_ c).
Definition set_priority (z : Z) (c : t) : t :=
  mk (wake_time_ c) (state_ c) (lock_ c) (updated_ c) (force_stop_ c) (processor_id_ c) z
    (id_ c) (name_ c) (group_name_ c).
Definition set_id (z : Z) (c : t) : t :=
  mk (wake_time_ c) (state_ c) (lock_ c) (updated_ c) (force_stop_ c) (processor_id_ c) (priority_ c)
    z (name_ c) (group_name_ c).
Definition set_name (n : string) (c : t) : t :=
  mk (wake_time_ c) (state_ c) (lock_ c) (updated_ c) (force_stop_ c) (processor_id_ c) (priority_ c)
    (id_ c) n (group_name_ c).
Definition set_group_name (n : string) (c : t) : t :=
  mk (wake_time_ c) (state_ c) (lock_ c) (updated_ c) (force_stop_ c) (processor_id_ c) (priority_ c)
    (id_ c) (name_ c) n.

(** [Yield(state)], [HangUp], [Sleep] as seen from the scheduler: the state in
    which the routine leaves the processor. *)
Definition Yield (s : RoutineState) (c : t) : t := set_state s c.
Definition HangUp (c : t) : t := Yield DATA_WAIT c.
Definition Sleep (now duration : Z) (c : t) : t := Yield SLEEP (set_wake_time (now + duration) c).
(** [CRoutineEntry]: the function has returned. *)
Definition finish (c : t) : t := Yield FINISHED c.

(** [UpdateState()] at time [now]. *)
Definition UpdateState (now : Z) (c : t) : RoutineState * t :=
  if bool_decide (state_ c = SLEEP) && (wake_time_ c <? now) then (READY, set_state READY c)
  else
    let c' :=
      if negb (updated_ c) then
        if bool_decide (state_ c = DATA_WAIT) || bool_decide (state_ c = IO_WAIT)
        then set_state READY (set_updated true c) else set_updated true c
      else set_updated true c in
    (state_ c', c').

(** [Resume()]: [slice] is what the routine does until it yields. *)
Definition Resume (slice : t → t) (c : t) : RoutineState * t :=
  if force_stop_ c then (FINISHED, set_state FINISHED c)
  else if bool_decide (state_ c ≠ READY) then (state_ c, c)
  else let c' := slice c in (state_ c', c').

(** A processor takes the routine, runs a slice and gives it back
    ([Processor::Run] with the [Acquire] and [UpdateState] of [NextRoutine]). *)
Definition schedule (now : Z) (slice : t → t) (c : t) : t :=
  let '(ok, c1) := Acquire c in
  if ok then
    let '(s, c2) := UpdateState now c1 in
    if bool_decide (s = READY) then Release (Resume slice c2).2 else Release c2
  else c.

(** When a routine runs.  [UpdateState] makes a routine ready exactly if it
    was ready, its sleep is over, or it waited and a notification was pending
    (which is consumed); a finished routine never becomes ready again; a
    routine that is held by a processor is left alone; a stopped routine
    finishes without running; and a notification survives until the next
    update. *)
Theorem croutine_scheduling now slice c :
  ((UpdateState now c).1 = READY ↔
     state_ c = READY ∨ (state_ c = SLEEP ∧ wake_time_ c < now) ∨
     ((state_ c = DATA_WAIT ∨ state_ c = IO_WAIT) ∧ updated_ c = false)) ∧
  ((UpdateState now c).1 ≠ READY → (UpdateState now c).1 = state_ c) ∧
  (state_ c = FINISHED → state_ (schedule now slice c) = FINISHED) ∧
  (lock_ c = true → schedule now slice c = c) ∧
  (lock_ c = false → lock_ (schedule now slice c) = false) ∧
  (force_stop_ c = true → Resume slice c = (FINISHED, set_state FINISHED c)) ∧
  (state_ c = DATA_WAIT ∨ state_ c = IO_WAIT →
     (UpdateState now (SetUpdateFlag c)).1 = READY ∧ updated_ (UpdateState now c).2 = true).
Proof.
  destruct c as [w s l u f p pr i n g].
  unfold UpdateState, schedule, Acquire, SetUpdateFlag, UpdateState. simpl.
  split_and!.
  - destruct s, u; cbn; try destruct (Z.ltb_spec w now); cbn; split; intros; try done;
      repeat (match goal with H : _ ∨ _ |- _ => destruct H | H : _ ∧ _ |- _ => destruct H end);
      try done; auto; lia.
  - destruct s, u; cbn; try destruct (Z.ltb_spec w now); cbn; intros; done.
  - intros ->. destruct l, u; reflexivity.
  - intros ->. reflexivity.
  - intros ->. destruct s, u; cbn; try destruct (Z.ltb_spec w now); reflexivity.
  - intros ->. reflexivity.
  - intros [-> | ->]; destruct u; split; reflexivity.
Qed.
End CRoutine.

(** ** The routine of a data visitor *)
Module DataRoutine.
Import CRoutine.

(** The loop of [CreateRoutineFactory], from the scheduler's point of view:
    off the processor; taken, about to read the flag; after [test_and_set] (was
    a notification pending?); on the processor before [set_state(DATA_WAIT)],
    before [TryFetch], in the client's function, and before
    [Yield(READY)]. *)
Inductive pc :=
| Parked
| UTest
| UState (was_pending : bool)
| RWait
| RFetch
| RClient
| RYield.

(** A publisher in [DataDispatcher::Dispatch]: it has filled the buffer and is
    about to read the routine's state in [NotifyProcessor], or to set the
    flag. *)
Inductive pub := PIdle | PCheck | PSet.

(** [unread]: messages in the buffer beyond the visitor's index; [got]: how many
    were fetched. *)
Record state := mkst {
  cr : CRoutine.t;
  at_ : pc;
  pubs : list pub;
  unread : nat;
  got : nat;
}.

(** [LProc]: the processor's next step. *)
Inductive label := LFill (i : nat) | LPub (i : nat) | LProc.

Definition set_at (p : pc) (c : CRoutine.t) (s : state) : state :=
  mkst c p (pubs s) (unread s) (got s).

Definition proc_step (s : state) : option state :=
  let c := cr s in
  match at_ s with
  | Parked =>
      (* [NextRoutine]: [Acquire] *)
      if lock_ c then None else Some (set_at UTest (set_lock true c) s)
  | UTest => Some (set_at (UState (negb (updated_ c))) (set_updated true c) s)
  | UState was_pending =>
      let c1 :=
        if was_pending && (bool_decide (state_ c = DATA_WAIT) || bool_decide (state_ c = IO_WAIT))
        then CRoutine.set_state READY c else c in
      if bool_decide (state_ c1 = READY) then Some (set_at RWait c1 s)
      else Some (set_at Parked (Release c1) s)
  | RWait => Some (set_at RFetch (CRoutine.set_state DATA_WAIT c) s)
  | RFetch =>
      match unread s with
      | O => Some (set_at Parked (Release c) s)
      | S n => Some (mkst c RClient (pubs s) n (S (got s)))
      end
  | RClient => Some (set_at RYield c s)
  | RYield => Some (set_at Parked (Release (CRoutine.set_state READY c)) s)
  end.

Definition step (l : label) (s : state) : option state :=
  match l with
  | LFill i =>
      match pubs s !! i with
      | Some PIdle => Some (mkst (cr s) (at_ s) (<[i := PCheck]> (pubs s)) (S (unread s)) (got s))
      | _ => None
      end
  | LPub i =>
      match pubs s !! i with
      | Some PCheck =>
          if bool_decide (state_ (cr s) = DATA_WAIT) || bool_decide (state_ (cr s) = IO_WAIT)
          then Some (mkst (cr s) (at_ s) (<[i := PSet]> (pubs s)) (unread s) (got s))
          else Some (mkst (cr s) (at_ s) (<[i := PIdle]> (pubs s)) (unread s) (got s))
      | Some PSet =>
          Some (mkst (SetUpdateFlag (cr s)) (at_ s) (<[i := PIdle]> (pubs s)) (unread s) (got s))
      | _ => None
      end
  | LProc => proc_step s
  end.

Definition initial (n : nat) : state := mkst (CRoutine.CRoutine 0) Parked (replicate n PIdle) 0 0.

Definition notifying (p : pub) : bool := match p with PIdle => false | _ => true end.

(** The routine is bound to look at the buffer again. *)
Definition will_fetch (s : state) : bool :=
  match at_ s with
  | RWait | RFetch | RClient | RYield => true
  | UState was_pending => was_pending || bool_decide (state_ (cr s) = READY)
  | Parked | UTest => negb (updated_ (cr s)) || bool_decide (state_ (cr s) = READY)
  end.

Record inv (s : state) : Prop := {
  dr_state : state_ (cr s) =
    match at_ s with
    | RWait => READY
    | RFetch | RClient | RYield => DATA_WAIT
    | _ => state_ (cr s)
    end;
  dr_two : state_ (cr s) = READY ∨ state_ (cr s) = DATA_WAIT;
  dr_lock : lock_ (cr s) = match at_ s with Parked => false | _ => true end;
  dr_wake : unread s ≠ 0%nat →
    will_fetch s = true ∨ updated_ (cr s) = false ∨ countb notifying (pubs s) ≠ 0;
}.

Lemma dr_initial_inv n : inv (initial n).
Proof. split; simpl; auto; by intros []. Qed.

Lemma dr_fill_inv i s s' : inv s → step (LFill i) s = Some s' → inv s'.
Proof.
  intros [] Hs. simpl in Hs. destruct (pubs s !! i) as [[]|] eqn:Hi; simplify_eq.
  split; cbn; try done. intros _. right. right.
  pose proof (countb_bounds notifying (pubs s)). rewrite (countb_insert _ _ _ _ _ Hi). simpl. lia.
Qed.

Lemma dr_pub_inv i s s' : inv s → step (LPub i) s = Some s' → inv s'.
Proof.
  intros [] Hs. simpl in Hs. destruct (pubs s !! i) as [[]|] eqn:Hi; try done.
  - destruct (_ || _) eqn:E; simplify_eq; (split; cbn; try done); intros Hun.
    + right. right. pose proof (countb_lookup notifying _ _ _ Hi eq_refl). rewrite (countb_insert _ _ _ _ _ Hi).
      simpl. lia.
    + left. apply orb_false_iff in E as [E%bool_decide_eq_false _].
      destruct dr_two0 as [Hr|]; [|done]. unfold will_fetch in *. cbn.
      destruct (at_ s); try done; rewrite Hr, bool_decide_true by done; apply orb_true_r.
  - simplify_eq. split; cbn; try done. intros _. right. by left.
Qed.

Lemma dr_proc_inv s s' : inv s → step LProc s = Some s' → inv s'.
Proof.
  intros [] Hs. simpl in Hs. unfold proc_step in Hs. unfold will_fetch in *.
  destruct (cr s) as [w st l u f p pr ci n g] eqn:Ec. cbn in *.
  destruct (at_ s) eqn:Ea; cbn in *.
  - destruct l; simplify_eq. by split.
  - simplify_eq. split; cbn; try done. intros Hun. destruct (dr_wake0 Hun) as [H|[->|?]]; auto.
  - destruct dr_two0 as [-> | ->]; destruct was_pending; cbn in Hs;
      vm_compute in Hs; simplify_eq; split; cbn; auto.
    intros Hun. destruct (dr_wake0 Hun) as [H|H]; [|by right].
    exfalso. revert H. vm_compute. discriminate.
  - simplify_eq. split; cbn; auto.
  - destruct (unread s) eqn:Eu; simplify_eq; split; cbn; auto.
  - simplify_eq. split; cbn; auto.
  - simplify_eq. split; cbn; auto. intros _. left. apply orb_true_r.
Qed.

Lemma dr_inv_step l s s' : inv s → step l s = Some s' → inv s'.
Proof. destruct l; [apply dr_fill_inv|apply dr_pub_inv|apply dr_proc_inv]. Qed.

Lemma dr_reachable_inv n s : reachable step (initial n) s → inv s.
Proof. apply (reachable_inv step inv); [apply dr_initial_inv|]. eauto using dr_inv_step. Qed.

(** C14: no lost wake-up of a data routine.  Whatever the interleaving of the
    publishers with the routine and its processor: if there is an unread message
    and no publisher is between filling the buffer and notifying, then the
    routine is bound to look at the buffer again, and the processor, running
    alone, lets it fetch a message within seven steps. *)
Theorem data_routine_no_lost_wakeup n s :
  reachable step (initial n) s → unread s ≠ 0%nat → Forall (λ p, p = PIdle) (pubs s) →
  (will_fetch s = true ∨ updated_ (cr s) = false) ∧
  ∃ k s', (k <= 7)%nat ∧ run step (replicate k LProc) s = Some s' ∧ got s' = S (got s).
Proof.
  intros Hr Hun Hidle. apply dr_reachable_inv in Hr as [Hst Htwo Hlock Hwake].
  assert (will_fetch s = true ∨ updated_ (cr s) = false) as Hw.
  { destruct (Hwake Hun) as [?|[?|Hc]]; [by left|by right|].
    apply countb_exists in Hc as (i & p & Hi & Hp). rewrite Forall_lookup in Hidle.
    by rewrite (Hidle _ _ Hi) in Hp. }
  split; [done|]. destruct s as [[w st l u f p pr ci nm g] pc pbs un gt].
  destruct un as [|un]; [done|]. unfold will_fetch in Hw. cbn in *. subst l.
  assert (∀ k s', (k <= 7)%nat → run step (replicate k LProc) (mkst (CRoutine.mk w st
      match pc with Parked => false | _ => true end u f p pr ci nm g) pc pbs (S un) gt) = Some s' →
    got s' = S gt → ∃ k s', (k <= 7)%nat ∧ run step (replicate k LProc) (mkst (CRoutine.mk w st
      match pc with Parked => false | _ => true end u f p pr ci nm g) pc pbs (S un) gt) = Some s' ∧
    got s' = S gt) as Hex by eauto.
  destruct Htwo as [-> | ->]; destruct pc as [| |[] | | | |], u; cbn in Hst; try discriminate Hst;
    try (exfalso; destruct Hw as [Hw|Hw]; revert Hw; vm_compute; discriminate);
    first [ eapply (Hex 1%nat); [lia|vm_compute; reflexivity|reflexivity]
          | eapply (Hex 2%nat); [lia|vm_compute; reflexivity|reflexivity]
          | eapply (Hex 3%nat); [lia|vm_compute; reflexivity|reflexivity]
          | eapply (Hex 4%nat); [lia|vm_compute; reflexivity|reflexivity]
          | eapply (Hex 5%nat); [lia|vm_compute; reflexivity|reflexivity]
          | eapply (Hex 6%nat); [lia|vm_compute; reflexivity|reflexivity]
          | eapply (Hex 7%nat); [lia|vm_compute; reflexivity|reflexivity] ].
Qed.

(** The routine parks in [DATA_WAIT]; a message arrives and notifies it. *)
Definition demo_trace : list label := replicate 5 LProc ++ [LFill 0; LPub 0; LPub 0].

Lemma data_routine_no_lost_wakeup_witness :
  ∃ s, run step demo_trace (initial 1) = Some s ∧ state_ (cr s) = DATA_WAIT ∧ at_ s = Parked ∧
  ∃ k s', (k <= 7)%nat ∧ run step (replicate k LProc) s = Some s' ∧ got s' = 1%nat.
Proof.
  eexists. split; [vm_compute; reflexivity|]. split; [reflexivity|]. split; [reflexivity|].
  refine (proj2 (data_routine_no_lost_wakeup 1 _ _ _ _)).
  - apply (run_reachable step _ demo_trace). vm_compute. reflexivity.
  - discriminate.
  - repeat constructor.
Defined.
End DataRoutine.
