(* ===== verification/Contexts.v ===== *)
(** * How a processor picks a routine ([cyber/scheduler/policy/classic_context.cc],
    [cyber/scheduler/policy/choreography_context.cc],
    [cyber/scheduler/processor.cc])

    Coroutines are objects of a store, addressed by numbers; run queues hold
    addresses.  [NextRoutine] walks the queues: it takes a routine's flag, brings
    its state up to date, and returns the first routine that is ready, still
    held. *)

From stdpp Require Import sorting.
From S2P Require Import Prelude Routine.
Import CRoutine.

Local Open Scope Z_scope.

Abbreviation heap := (gmap nat CRoutine.t).

(** ** Walking one queue

    [note] is what the context does with a sleeping routine. *)
Section scan.
Context {S : Type} (note : CRoutine.t → S → S) (now : Z).

Fixpoint scan (q : list nat) (s : S) (crs : heap) : option (option nat * S * heap) :=
  match q with
  | [] => Some (None, s, crs)
  | a :: q =>
      c ← crs !! a;
      let '(ok, c1) := Acquire c in
      if ok then
        let '(st, c2) := UpdateState now c1 in
        if bool_decide (st = READY) then Some (Some a, s, <[a := c2]> crs)
        else
          let s := if bool_decide (state_ c2 = SLEEP) then note c2 s else s in
          scan q s (<[a := Release c2]> crs)
      else scan q s (<[a := c1]> crs)
  end.
End scan.

(** ** [ClassicContext] *)
Module ClassicContext.

Definition MAX_PRIO : nat := 20.
Definition DEFAULT_GROUP_NAME : string := "default_grp".

(** The queues of a group, by priority. *)
Definition MULTI_PRIO_QUEUE : Type := list (list nat).
Definition no_queues : list (list nat) := replicate MAX_PRIO [].

(** [cr_group_[group_name]]: [operator[]] of the map makes an empty entry. *)
Definition group_queues (g : gmap string MULTI_PRIO_QUEUE) (group_name : string) : list (list nat) :=
  default no_queues (g !! group_name).

Record t := mk {
  group_name : string;
  wake_time_ : Z;
  need_sleep_ : bool;
  stop_ : bool;
}.

Definition ClassicContext (group_name : string) : t := mk group_name 0 false false.

(** [if (!need_sleep_ || wake_time_ > cr->wake_time()) ...] *)
Definition note_sleep (c : CRoutine.t) (ctx : t) : t :=
  if negb (need_sleep_ ctx) || (CRoutine.wake_time_ c <? wake_time_ ctx)
  then mk (group_name ctx) (CRoutine.wake_time_ c) true (stop_ ctx) else ctx.

(** The loop over the priorities [i - 1, ..., 0]. *)
Fixpoint scan_prios (now : Z) (i : nat) (qs : list (list nat)) (ctx : t) (crs : heap) :
    option (option nat * t * heap) :=
  match i with
  | O => Some (None, ctx, crs)
  | S i =>
      q ← qs !! i;
      '(r, ctx, crs) ← scan note_sleep now q ctx crs;
      match r with
      | Some a => Some (Some a, ctx, crs)
      | None => scan_prios now i qs ctx crs
      end
  end.

Definition NextRoutine (now : Z) (g : gmap string MULTI_PRIO_QUEUE) (ctx : t) (crs : heap) :
    option (option nat * t * heap) :=
  if stop_ ctx then Some (None, ctx, crs)
  else scan_prios now MAX_PRIO (group_queues g (group_name ctx)) ctx crs.

Definition Shutdown (ctx : t) : t := mk (group_name ctx) (wake_time_ ctx) (need_sleep_ ctx) true.

(** [Wait()] at time [now], past the check of [stop_]: how long to wait at most
    ([None]: until notified), and the context when it is over. *)
Definition wait_on (now : Z) (ctx : t) : option Z * t :=
  if need_sleep_ ctx
  then (Some (wake_time_ ctx - now), mk (group_name ctx) (wake_time_ ctx) false (stop_ ctx))
  else (None, ctx).

Definition Wait (now : Z) (ctx : t) : option Z * t :=
  if stop_ ctx then (Some 0, ctx) else wait_on now ctx.
End ClassicContext.

(** ** [ChoreographyContext] *)
Module ChoreographyContext.

(** [cr_queue_]: a multimap with decreasing priorities, equal ones in insertion
    order. *)
Record t := mk {
  cr_queue_ : list (Z * nat);
  notified_ : bool;
  stop_ : bool;
}.

Definition ChoreographyContext : t := mk [] false false.

Fixpoint emplace (prio : Z) (a : nat) (q : list (Z * nat)) : list (Z * nat) :=
  match q with
  | [] => [(prio, a)]
  | (p, b) :: q' => if p <? prio then (prio, a) :: q else (p, b) :: emplace prio a q'
  end.

Definition Enqueue (prio : Z) (a : nat) (ctx : t) : bool * t :=
  (true, mk (emplace prio a (cr_queue_ ctx)) (notified_ ctx) (stop_ ctx)).

Definition NextRoutine (now : Z) (ctx : t) (crs : heap) : option (option nat * t * heap) :=
  if stop_ ctx then Some (None, ctx, crs)
  else
    '(r, _, crs) ← scan (λ _ (u : unit), u) now (snd <$> cr_queue_ ctx) tt crs;
    match r with
    | Some a => Some (Some a, ctx, crs)
    | None => Some (None, mk (cr_queue_ ctx) false (stop_ ctx), crs)
    end.

(** [Notify()]: is the condition variable notified? *)
Definition Notify (ctx : t) : bool * t :=
  (negb (notified_ ctx), mk (cr_queue_ ctx) true (stop_ ctx)).

Definition Shutdown (ctx : t) : t := mk (cr_queue_ ctx) (notified_ ctx) true.

(** The loop of [RemoveCRoutine]; [None] also when the routine is held by a
    processor, for then the call waits. *)
Fixpoint remove_loop (crid : Z) (q : list (Z * nat)) (crs : heap) :
    option (list (Z * nat) * heap) :=
  match q with
  | [] => Some ([], crs)
  | (p, a) :: q =>
      c ← crs !! a;
      if CRoutine.id_ c =? crid then
        let '(ok, c) := Acquire (Stop c) in
        if ok then Some (q, <[a := Release c]> crs) else None
      else '(q', crs) ← remove_loop crid q crs; Some ((p, a) :: q', crs)
  end.

Definition RemoveCRoutine (crid : Z) (ctx : t) (crs : heap) : option (t * heap) :=
  '(q, crs) ← remove_loop crid (cr_queue_ ctx) crs;
  Some (mk q (notified_ ctx) (stop_ ctx), crs).
End ChoreographyContext.

(** ** One round of [Processor::Run]: [slice] is what the routine does *)
Definition run_round (next : heap → option (option nat * heap)) (slice : CRoutine.t → CRoutine.t)
    (crs : heap) : option (bool * heap) :=
  '(r, crs) ← next crs;
  match r with
  | Some a => c ← crs !! a; Some (true, <[a := Release (Resume slice c).2]> crs)
  | None => Some (false, crs)
  end.

(** ** What a walk finds *)

(** A processor may run the routine at time [now]. *)
Definition runnable (now : Z) (c : CRoutine.t) : bool :=
  negb (lock_ c) && bool_decide ((UpdateState now c).1 = READY).

(** What a visit to a routine that is not ready leaves: the pending notification
    flag is set back, nothing else changes. *)
Lemma UpdateState_idle now c :
  (UpdateState now c).1 ≠ READY →
  (UpdateState now c).2 = set_updated true c ∧ (UpdateState now c).1 = state_ c.
Proof.
  destruct c as [w s l u f p pr i n g]. unfold UpdateState. cbn.
  destruct s, u; cbn; try destruct (Z.ltb_spec w now); cbn; intros; done.
Qed.

Lemma UpdateState_set_lock now b c :
  UpdateState now (set_lock b c) = ((UpdateState now c).1, set_lock b (UpdateState now c).2).
Proof.
  destruct c as [w s l u f p pr i n g]. unfold UpdateState. cbn.
  destruct s, u; cbn; try destruct (w <? now); reflexivity.
Qed.

Lemma runnable_set_updated now c :
  runnable now c = false → runnable now (set_updated true c) = false.
Proof.
  unfold runnable. cbn. intros H. destruct (lock_ c) eqn:Hl; [done|]. cbn in *.
  apply bool_decide_eq_false in H. apply bool_decide_eq_false.
  destruct c as [w s l u f p pr i n g]. unfold UpdateState in *. cbn in *.
  destruct s, u; cbn in *; try destruct (Z.ltb_spec w now); cbn in *; done.
Qed.

Lemma UpdateState_ready now b c :
  (UpdateState now c).1 = READY → state_ (set_lock b (UpdateState now c).2) = READY.
Proof.
  destruct c as [w s l u f p pr i n g]. unfold UpdateState. cbn.
  destruct s, u; cbn; try destruct (w <? now); cbn; intros; done.
Qed.

Definition runnable_at (now : Z) (crs : heap) (a : nat) : bool :=
  match crs !! a with Some c => runnable now c | None => false end.

(** Asleep, and not held by a processor: the next wake-up has to count it. *)
Definition sleeping_at (now : Z) (crs : heap) (a : nat) (w : Z) : Prop :=
  ∃ c, crs !! a = Some c ∧ lock_ c = false ∧ runnable now c = false ∧
    state_ c = SLEEP ∧ CRoutine.wake_time_ c = w.

(** From [crs] to [crs'] only idle routines were visited. *)
Definition swept (now : Z) (crs crs' : heap) : Prop :=
  ∀ a, crs' !! a = crs !! a ∨
    ∃ c, crs !! a = Some c ∧ runnable now c = false ∧ crs' !! a = Some (set_updated true c).

Lemma swept_refl now crs : swept now crs crs.
Proof. intros a. by left. Qed.

Lemma swept_trans now crs1 crs2 crs3 :
  swept now crs1 crs2 → swept now crs2 crs3 → swept now crs1 crs3.
Proof.
  intros H1 H2 a. destruct (H1 a) as [E1|(c & E1 & Hr & E2)], (H2 a) as [E3|(d & E3 & Hr' & E4)].
  - left. congruence.
  - right. exists d. split_and!; congruence.
  - right. exists c. split_and!; congruence.
  - right. exists c. split_and!; [done|done|]. rewrite E4. by simplify_eq.
Qed.

Lemma swept_runnable now crs crs' a : swept now crs crs' → runnable_at now crs' a = runnable_at now crs a.
Proof.
  unfold runnable_at. intros H. destruct (H a) as [-> |(c & -> & Hr & ->)]; [done|].
  rewrite Hr. by apply runnable_set_updated.
Qed.

Lemma swept_sleeping now crs crs' a w : swept now crs crs' → sleeping_at now crs a w → sleeping_at now crs' a w.
Proof.
  intros H (c & Hc & Hl & Hr & Hs & Hw). destruct (H a) as [E|(d & Hd & _ & E)].
  - exists c. by rewrite E.
  - simplify_eq. exists (set_updated true c). split_and!; auto. by apply runnable_set_updated.
Qed.

Lemma swept_is_Some now crs crs' a : swept now crs crs' → is_Some (crs !! a) → is_Some (crs' !! a).
Proof. intros H [c Hc]. destruct (H a) as [-> |(d & _ & _ & ->)]; eauto. Qed.

(** One visit of [scan]. *)
Lemma visit_held now (crs : heap) a c :
  crs !! a = Some c → lock_ c = true → <[a := (Acquire c).2]> crs = crs ∧ runnable_at now crs a = false.
Proof.
  intros Hc Hl. unfold runnable_at, runnable. rewrite Hc, Hl. split; [|done].
  apply insert_id. rewrite Hc. cbn. f_equal. rewrite <-Hl. by destruct c.
Qed.

Lemma visit_idle now (crs : heap) a c :
  crs !! a = Some c → lock_ c = false → (UpdateState now (Acquire c).2).1 ≠ READY →
  Release (UpdateState now (Acquire c).2).2 = set_updated true c ∧ runnable now c = false ∧
  swept now crs (<[a := set_updated true c]> crs).
Proof.
  cbn. intros Hc Hl. rewrite UpdateState_set_lock. cbn. intros Hs.
  destruct (UpdateState_idle _ _ Hs) as [-> _].
  assert (runnable now c = false) as Hr.
  { unfold runnable. rewrite Hl. by apply bool_decide_eq_false. }
  split_and!; [destruct c; cbn in *; by subst|done|].
  intros b. destruct (decide (b = a)) as [-> |].
  - right. exists c. by rewrite lookup_insert_eq.
  - left. by rewrite lookup_insert_ne by done.
Qed.

Lemma visit_ready now c :
  lock_ c = false → (UpdateState now (Acquire c).2).1 = READY →
  runnable now c = true ∧ (UpdateState now (Acquire c).2).2 = set_lock true (UpdateState now c).2.
Proof.
  cbn. intros Hl. rewrite UpdateState_set_lock. cbn. intros Hs. split; [|done].
  unfold runnable. rewrite Hl. by apply bool_decide_eq_true.
Qed.

Section scan_spec.
Context {S : Type} (note : CRoutine.t → S → S) (now : Z).

Lemma scan_spec q s crs r s' crs' :
  scan note now q s crs = Some (r, s', crs') →
  match r with
  | Some a => ∃ i crs1 c, q !! i = Some a ∧ (∀ j b, (j < i)%nat → q !! j = Some b → runnable_at now crs b = false) ∧
      swept now crs crs1 ∧ crs1 !! a = Some c ∧ runnable now c = true ∧
      crs' = <[a := set_lock true (UpdateState now c).2]> crs1
  | None => swept now crs crs' ∧ ∀ b, b ∈ q → runnable_at now crs b = false
  end.
Proof.
  revert s crs. induction q as [|a q IH]; intros s crs H; cbn in H.
  { simplify_eq. split; [apply swept_refl|]. intros b Hb. by apply elem_of_nil in Hb. }
  destruct (crs !! a) as [c|] eqn:Hc; [|done]. cbn in H.
  assert (∀ crs2 s2, swept now crs crs2 → runnable_at now crs a = false →
    scan note now q s2 crs2 = Some (r, s', crs') →
    match r with
    | Some x => ∃ i crs1 c, (a :: q) !! i = Some x ∧
        (∀ j b, (j < i)%nat → (a :: q) !! j = Some b → runnable_at now crs b = false) ∧
        swept now crs crs1 ∧ crs1 !! x = Some c ∧ runnable now c = true ∧
        crs' = <[x := set_lock true (UpdateState now c).2]> crs1
    | None => swept now crs crs' ∧ ∀ b, b ∈ a :: q → runnable_at now crs b = false
    end) as Hnext.
  { intros crs2 s2 Hsw Ha H2. apply IH in H2. destruct r as [x|].
    - destruct H2 as (i & crs1 & d & Hi & Hbefore & Hsw1 & Hd & Hrun & ->).
      exists (Datatypes.S i), crs1, d. split_and!; eauto using swept_trans. intros [|j] b Hj Hb; cbn in Hb; [by simplify_eq|].
      rewrite <-(swept_runnable _ _ _ _ Hsw). apply (Hbefore j); [lia|done].
    - destruct H2 as [Hsw' Hq]. split; [by eapply swept_trans|]. intros b [-> |Hb]%elem_of_cons; [done|].
      rewrite <-(swept_runnable _ _ _ _ Hsw). by apply Hq. }
  destruct (lock_ c) eqn:Hl; cbn [negb] in H.
  { destruct (visit_held now _ _ _ Hc Hl) as [E Hr]. unfold Acquire in E. cbn in E. rewrite E in H.
    by eapply Hnext; eauto using swept_refl. }
  destruct (UpdateState now (set_lock true c)) as [st c2] eqn:Hu.
  destruct (decide (st = READY)) as [-> |Hs].
  - rewrite bool_decide_true in H by done. simplify_eq.
    destruct (visit_ready now c Hl) as [Hr E]; [cbn; by rewrite Hu|]. cbn in E. rewrite Hu in E. cbn in E. subst c2.
    exists 0%nat, crs, c. split_and!; eauto using swept_refl. lia.
  - rewrite bool_decide_false in H by done.
    destruct (visit_idle now crs a c Hc Hl) as (E & Hr & Hsw); [cbn; by rewrite Hu|].
    cbn in E. rewrite Hu in E. cbn in E. rewrite E in H. eapply Hnext; eauto. unfold runnable_at. by rewrite Hc.
Qed.

(** The walk is total on existing routines. *)
Lemma scan_total q s crs :
  (∀ a, a ∈ q → is_Some (crs !! a)) → ∃ r s' crs', scan note now q s crs = Some (r, s', crs').
Proof.
  revert s crs. induction q as [|a q IH]; intros s crs H; cbn; [by eauto|].
  destruct (H a) as [c Hc]; [apply elem_of_cons; by left|]. rewrite Hc. cbn.
  assert (∀ crs2 : heap, (∀ b, is_Some (crs !! b) → is_Some (crs2 !! b)) → ∀ b, b ∈ q → is_Some (crs2 !! b)) as Hk.
  { intros crs2 H2 b Hb. apply H2, H, elem_of_cons. by right. }
  assert (∀ d b, is_Some (crs !! b) → is_Some (<[a := d]> crs !! b)) as Hi.
  { intros d b Hb. rewrite lookup_insert. by case_decide. }
  destruct (lock_ c); cbn [negb]; [by apply IH, Hk, Hi|].
  destruct (UpdateState now (set_lock true c)) as [st c2].
  case_bool_decide; [by eauto|]. apply IH, Hk, Hi.
Qed.
End scan_spec.

(** ** The classic policy *)
Module ClassicProofs.
Import ClassicContext.

(** The next timed wait ends no later than [w]. *)
Definition covers (ctx : t) (w : Z) : Prop := need_sleep_ ctx = true ∧ wake_time_ ctx <= w.

Lemma note_sleep_covers c ctx : covers (note_sleep c ctx) (CRoutine.wake_time_ c).
Proof.
  unfold note_sleep, covers. destruct (need_sleep_ ctx) eqn:En; cbn; [|split; [done|lia]].
  destruct (Z.ltb_spec (CRoutine.wake_time_ c) (wake_time_ ctx)); cbn; split; auto; lia.
Qed.

Lemma note_sleep_keeps c ctx w : covers ctx w → covers (note_sleep c ctx) w.
Proof.
  unfold note_sleep, covers. intros [Hn Hw]. rewrite Hn. cbn.
  destruct (Z.ltb_spec (CRoutine.wake_time_ c) (wake_time_ ctx)); cbn; split; auto; lia.
Qed.

Lemma scan_keeps_covers now q ctx crs r ctx' crs' w :
  scan note_sleep now q ctx crs = Some (r, ctx', crs') → covers ctx w → covers ctx' w.
Proof.
  revert ctx crs. induction q as [|a q IH]; intros ctx crs H Hw; cbn in H; [by simplify_eq|].
  destruct (crs !! a) as [c|]; [|done]. cbn in H. destruct (lock_ c); cbn [negb] in H; [by eauto|].
  destruct (UpdateState now (set_lock true c)) as [st c2]. case_bool_decide; [by simplify_eq|].
  eapply IH; [done|]. case_bool_decide; [by apply note_sleep_keeps|done].
Qed.

Lemma scan_covers now q ctx crs ctx' crs' :
  scan note_sleep now q ctx crs = Some (None, ctx', crs') →
  ∀ a w, a ∈ q → sleeping_at now crs a w → covers ctx' w.
Proof.
  revert ctx crs. induction q as [|a q IH]; intros ctx crs H b w Hb Hsl; [by apply elem_of_nil in Hb|].
  cbn in H. destruct (crs !! a) as [c|] eqn:Hc; [|done]. cbn in H.
  destruct (lock_ c) eqn:Hl; cbn [negb] in H.
  { destruct (visit_held now _ _ _ Hc Hl) as [E Hr]. cbn in E. rewrite E in H.
    apply elem_of_cons in Hb as [-> |Hb]; [|by eauto]. destruct Hsl as (d & Hd & ? & _). congruence. }
  destruct (UpdateState now (set_lock true c)) as [st c2] eqn:Hu.
  destruct (decide (st = READY)) as [-> |Hs]; [by rewrite bool_decide_true in H by done|].
  rewrite (bool_decide_false (st = READY)) in H by done.
  destruct (visit_idle now crs a c Hc Hl) as (E & Hr & Hsw); [cbn; by rewrite Hu|].
  destruct (UpdateState_idle now (set_lock true c)) as [E2 _]; [by rewrite Hu|].
  rewrite Hu in E2. cbn in E, E2. rewrite Hu in E. cbn in E. rewrite E in H.
  apply elem_of_cons in Hb as [-> |Hb]; [|eapply IH; eauto using swept_sleeping].
  destruct Hsl as (d & Hd & _ & _ & Hss & <-). rewrite Hc in Hd. simplify_eq.
  eapply scan_keeps_covers; [done|]. rewrite bool_decide_true by done.
  apply (note_sleep_covers (set_updated true (set_lock true _))).
Qed.

(** The position of a routine in the queues of the group. *)
Definition queued_at (qs : list (list nat)) (prio : nat) (i : nat) (a : nat) : Prop :=
  ∃ q, qs !! prio = Some q ∧ q !! i = Some a.

(** Strictly before position [(prio, i)] in the order of the walk. *)
Definition earlier (prio' i' prio i : nat) : Prop := (prio < prio')%nat ∨ prio' = prio ∧ (i' < i)%nat.

Lemma scan_prios_spec now n qs ctx crs r ctx' crs' :
  scan_prios now n qs ctx crs = Some (r, ctx', crs') →
  match r with
  | Some a => ∃ prio i crs1 c, (prio < n)%nat ∧ queued_at qs prio i a ∧
      (∀ prio' i' b, (prio' < n)%nat → earlier prio' i' prio i → queued_at qs prio' i' b →
         runnable_at now crs b = false) ∧
      swept now crs crs1 ∧ crs1 !! a = Some c ∧ runnable now c = true ∧
      crs' = <[a := set_lock true (UpdateState now c).2]> crs1
  | None => swept now crs crs' ∧
      (∀ prio i b, (prio < n)%nat → queued_at qs prio i b → runnable_at now crs b = false)
  end.
Proof.
  revert ctx crs. induction n as [|n IH]; intros ctx crs H; cbn in H.
  { simplify_eq. split; [apply swept_refl|]. lia. }
  destruct (qs !! n) as [q|] eqn:Hq; [|done]. cbn in H.
  destruct (scan note_sleep now q ctx crs) as [[[[a|] ctx1] crs1]|] eqn:Hsc; cbn in H; [| |done].
  - simplify_eq. apply scan_spec in Hsc as (i & crs1 & c & Hi & Hbef & Hsw & Hc & Hr & ->).
    exists n, i, crs1, c. split_and!; [lia|by exists q| |done..].
    intros prio' i' b Hlt [He|[-> He]] (q' & Hq' & Hb); [lia|]. simplify_eq. by eapply Hbef.
  - apply scan_spec in Hsc as [Hsw Hnone]. apply IH in H.
    assert (∀ prio' i' b, (n <= prio' < Datatypes.S n)%nat → queued_at qs prio' i' b → runnable_at now crs b = false) as Hn.
    { intros prio' i' b Hp (q' & Hq' & Hb). assert (prio' = n) as -> by lia. simplify_eq.
      apply Hnone, list_elem_of_lookup. eauto. }
    destruct r as [a|].
    + destruct H as (prio & i & crs2 & c & Hp & Hat & Hbef & Hsw2 & Hc & Hr & ->).
      exists prio, i, crs2, c. split_and!; eauto using swept_trans.
      intros prio' i' b Hlt He Hb. destruct (decide (prio' < n)%nat); [|eapply (Hn prio' i'); [lia|done]].
      rewrite <-(swept_runnable _ _ _ _ Hsw). by eapply Hbef.
    + destruct H as [Hsw2 Hbef]. split; [by eapply swept_trans|].
      intros prio' i' b Hlt Hb. destruct (decide (prio' < n)%nat); [|eapply (Hn prio' i'); [lia|done]].
      rewrite <-(swept_runnable _ _ _ _ Hsw). by eapply Hbef.
Qed.

Lemma scan_prios_keeps_covers now n qs ctx crs r ctx' crs' w :
  scan_prios now n qs ctx crs = Some (r, ctx', crs') → covers ctx w → covers ctx' w.
Proof.
  revert ctx crs. induction n as [|n IH]; intros ctx crs H Hw; cbn in H; [by simplify_eq|].
  destruct (qs !! n) as [q|]; [|done]. cbn in H.
  destruct (scan note_sleep now q ctx crs) as [[[[a|] ctx1] crs1]|] eqn:Hsc; cbn in H; [| |done].
  - simplify_eq. by eapply scan_keeps_covers.
  - eapply IH; [done|]. by eapply scan_keeps_covers.
Qed.

Lemma scan_prios_covers now n qs ctx crs ctx' crs' :
  scan_prios now n qs ctx crs = Some (None, ctx', crs') →
  ∀ prio i a w, (prio < n)%nat → queued_at qs prio i a → sleeping_at now crs a w → covers ctx' w.
Proof.
  revert ctx crs. induction n as [|n IH]; intros ctx crs H prio i a w Hp (q & Hq & Ha) Hsl; [lia|]. cbn in H.
  destruct (qs !! n) as [q'|] eqn:Hq'; [|done]. cbn in H.
  destruct (scan note_sleep now q' ctx crs) as [[[[b|] ctx1] crs1]|] eqn:Hsc; cbn in H; try done.
  destruct (decide (prio = n)) as [-> |].
  - simplify_eq. eapply scan_prios_keeps_covers; [done|]. eapply scan_covers; eauto.
    apply list_elem_of_lookup. eauto.
  - eapply (IH _ _ H prio i a); [lia|by exists q|]. eapply swept_sleeping; [|done].
    by apply scan_spec in Hsc as [? _].
Qed.

Lemma scan_prios_total now n qs ctx crs :
  (n <= length qs)%nat → (∀ prio i a, queued_at qs prio i a → is_Some (crs !! a)) →
  ∃ r ctx' crs', scan_prios now n qs ctx crs = Some (r, ctx', crs').
Proof.
  revert ctx crs. induction n as [|n IH]; intros ctx crs Hn Hall; cbn; [by eauto|].
  destruct (lookup_lt_is_Some_2 qs n) as [q Hq]; [lia|]. rewrite Hq. cbn.
  destruct (scan_total note_sleep now q ctx crs) as (r & ctx1 & crs1 & Hsc).
  { intros a [i Ha]%list_elem_of_lookup. eapply Hall. by exists q. }
  rewrite Hsc. cbn. destruct r; [by eauto|]. apply IH; [lia|]. intros prio i a Ha.
  apply scan_spec in Hsc as [Hsw _]. eapply swept_is_Some; eauto.
Qed.

(** The classic policy.  [NextRoutine] always returns when the queued
    routines exist.  If it returns a routine, that one may run, it is at the
    highest priority that has a routine that may run and first of them in its
    queue, and the processor now holds it, ready; if it returns none, no queued
    routine may run and the next timed wait ends no later than the earliest
    wake time of the sleeping ones.  Of all other routines at most the
    notification flag of an idle one has changed. *)
Theorem classic_next_routine now g ctx crs qs :
  stop_ ctx = false → group_queues g (group_name ctx) = qs → length qs = MAX_PRIO →
  (∀ prio i a, queued_at qs prio i a → is_Some (crs !! a)) →
  ∃ r ctx' crs', NextRoutine now g ctx crs = Some (r, ctx', crs') ∧
    match r with
    | Some a => ∃ prio i crs1 c, queued_at qs prio i a ∧ runnable_at now crs a = true ∧
        (∀ prio' i' b, earlier prio' i' prio i → queued_at qs prio' i' b → runnable_at now crs b = false) ∧
        swept now crs crs1 ∧ crs' = <[a := c]> crs1 ∧ lock_ c = true ∧
        (state_ c = READY)
    | None => swept now crs crs' ∧
        (∀ prio i b, queued_at qs prio i b → runnable_at now crs b = false) ∧
        (∀ prio i b w, queued_at qs prio i b → sleeping_at now crs b w → covers ctx' w)
    end.
Proof.
  intros Hst Hqs Hlen Hall.
  destruct (scan_prios_total now MAX_PRIO qs ctx crs) as (r & ctx' & crs' & H); [lia|done|].
  assert (∀ prio i b, queued_at qs prio i b → (prio < MAX_PRIO)%nat) as Hlt.
  { intros prio i b (q & Hq & _). rewrite <-Hlen. by eapply lookup_lt_Some. }
  exists r, ctx', crs'. unfold NextRoutine. rewrite Hst, Hqs. split; [done|].
  pose proof (scan_prios_spec _ _ _ _ _ _ _ _ H) as Hspec. destruct r as [a|].
  - destruct Hspec as (prio & i & crs1 & c & Hp & Hat & Hbef & Hsw & Hc & Hr & ->).
    exists prio, i, crs1, (set_lock true (UpdateState now c).2). split_and!; try done.
    + rewrite <-(swept_runnable _ _ _ _ Hsw). unfold runnable_at. by rewrite Hc.
    + intros prio' i' b He Hb. apply (Hbef prio' i'); eauto.
    + unfold runnable in Hr. apply andb_true_iff in Hr as [_ Hr%bool_decide_eq_true].
      by apply UpdateState_ready.
  - destruct Hspec as [Hsw Hbef]. split_and!; [done| |].
    + intros prio i b Hb. apply (Hbef prio i); eauto.
    + intros prio i b w Hb. eapply scan_prios_covers; eauto.
Qed.

(** Three routines: one sleeping at the top priority, one held, one ready below. *)
Definition demo_heap : heap :=
  <[0%nat := set_wake_time 50 (set_state SLEEP (CRoutine.CRoutine 0))]>
    (<[1%nat := set_lock true (CRoutine.CRoutine 0)]> (<[2%nat := CRoutine.CRoutine 0]> ∅)).
Definition demo_groups : gmap string (list (list nat)) :=
  {["default_grp" := <[19%nat := [0%nat]]> (<[3%nat := [1%nat; 2%nat]]> no_queues)]}.

Lemma demo_queued prio i a :
  queued_at (group_queues demo_groups DEFAULT_GROUP_NAME) prio i a → is_Some (demo_heap !! a).
Proof.
  intros (q & Hq & Ha).
  assert (Forall (Forall (λ a, is_Some (demo_heap !! a))) (group_queues demo_groups DEFAULT_GROUP_NAME)) as H.
  { apply (bool_decide_unpack _). vm_compute. exact I. }
  rewrite Forall_lookup in H. specialize (H _ _ Hq). rewrite Forall_lookup in H. eauto.
Qed.

Lemma classic_next_routine_witness :
  (NextRoutine 10 demo_groups (ClassicContext DEFAULT_GROUP_NAME) demo_heap ≫= λ x, Some (x.1)) =
    Some (Some 2%nat, mk DEFAULT_GROUP_NAME 50 true false) ∧
  ∃ r ctx' crs', NextRoutine 10 demo_groups (ClassicContext DEFAULT_GROUP_NAME) demo_heap = Some (r, ctx', crs').
Proof.
  split; [vm_compute; reflexivity|].
  destruct (classic_next_routine 10 demo_groups (ClassicContext DEFAULT_GROUP_NAME) demo_heap
    (group_queues demo_groups DEFAULT_GROUP_NAME)) as (r & ctx' & crs' & H & _);
    [reflexivity|reflexivity|reflexivity|exact demo_queued|by exists r, ctx', crs'].
Defined.
End ClassicProofs.

(** ** The choreography policy *)
Module ChoreographyProofs.
Import ChoreographyContext.

(** [std::greater]: priorities do not increase along the multimap. *)
Definition sorted (q : list (Z * nat)) : Prop := StronglySorted (λ x y, y.1 <= x.1) q.

Lemma emplace_perm p a q : emplace p a q ≡ₚ (p, a) :: q.
Proof.
  induction q as [|[p' b] q IH]; cbn; [done|]. destruct (p' <? p); [done|].
  rewrite IH. constructor.
Qed.

Lemma emplace_sorted p a q : sorted q → sorted (emplace p a q).
Proof.
  induction 1 as [|[p' b] q Hs IH Hall]; cbn; [by repeat constructor|].
  destruct (Z.ltb_spec p' p).
  - constructor; [by constructor|]. constructor; [cbn; lia|].
    eapply Forall_impl; [exact Hall|]. cbn. intros [] ?. cbn in *. lia.
  - constructor; [done|]. rewrite emplace_perm. constructor; [cbn; lia|done].
Qed.

Lemma remove_loop_sublist crid q crs q' crs' :
  remove_loop crid q crs = Some (q', crs') → q' `sublist_of` q.
Proof.
  revert q' crs'. induction q as [|[p a] q IH]; intros q' crs' H; cbn in H; [by simplify_eq|].
  destruct (crs !! a) as [c|]; [|done]. cbn in H. destruct (CRoutine.id_ c =? crid).
  - destruct (lock_ c); cbn in H; [done|]. simplify_eq. by constructor.
  - destruct (remove_loop crid q crs) as [[q1 crs1]|] eqn:E; cbn in H; [|done]. simplify_eq.
    constructor. by eapply IH.
Qed.

Lemma sublist_sorted q q' : q' `sublist_of` q → sorted q → sorted q'.
Proof.
  intros Hs H. induction Hs as [|x l k Hlk IH|x l k Hlk IH]; [done| |].
  - inversion H; subst. constructor; [by apply IH|].
    apply Forall_forall. intros y Hy. rewrite Forall_forall in H3. apply H3. by eapply elem_of_sublist.
  - inversion H; subst. by apply IH.
Qed.

(** Among equal priorities, insertion order. *)
Lemma emplace_fifo p a q p' :
  sorted q →
  filter (λ x, x.1 = p') (emplace p a q) = filter (λ x, x.1 = p') q ++ (if decide (p = p') then [(p, a)] else []).
Proof.
  induction 1 as [|[p1 b] q Hs IH Hall]; [cbn; by repeat case_decide|]. cbn [emplace].
  destruct (Z.ltb_spec p1 p) as [Hlt|Hge].
  - rewrite filter_cons. cbn [fst]. destruct (decide (p = p')) as [-> |]; [|by rewrite app_nil_r].
    assert (filter (λ x : Z * nat, x.1 = p') ((p1, b) :: q) = []) as ->; [|done].
    rewrite filter_cons_False by (cbn; lia). clear -Hall Hlt.
    induction Hall as [|x l Hx Hl IHl]; [done|]. rewrite filter_cons_False by (cbn in *; lia). done.
  - rewrite !filter_cons, IH. cbn [fst]. by destruct (decide (p1 = p')).
Qed.

Lemma remove_loop_spec crid q crs q' crs' :
  remove_loop crid q crs = Some (q', crs') →
  (q' = q ∧ crs' = crs ∧ (∀ p a c, (p, a) ∈ q → crs !! a = Some c → CRoutine.id_ c ≠ crid)) ∨
  (∃ q1 q2 p a c, q = q1 ++ (p, a) :: q2 ∧ q' = q1 ++ q2 ∧ crs !! a = Some c ∧ CRoutine.id_ c = crid ∧
     lock_ c = false ∧ crs' = <[a := Stop c]> crs).
Proof.
  revert q' crs'. induction q as [|[p a] q IH]; intros q' crs' H; cbn in H.
  { simplify_eq. left. split_and!; [done..|]. intros ??? []%elem_of_nil. }
  destruct (crs !! a) as [c|] eqn:Hc; [|done]. cbn in H. destruct (Z.eqb_spec (CRoutine.id_ c) crid) as [He|He].
  - right. destruct (lock_ c) eqn:Hl; cbn in H; [done|]. simplify_eq. exists [], q', p, a, c. split_and!; try done.
    f_equal. destruct c; cbn in *. by subst.
  - destruct (remove_loop crid q crs) as [[q1 crs1]|] eqn:E; cbn in H; [|done]. simplify_eq.
    destruct (IH _ _ eq_refl) as [(-> & -> & Hn)|(l1 & l2 & p0 & a0 & c0 & -> & -> & Hc0 & Hid & Hl & ->)].
    + left. split_and!; [done..|]. intros p0 a0 c0 [[= -> ->]|Hin]%elem_of_cons Hc0; [congruence|by eapply Hn].
    + right. exists ((p, a) :: l1), l2, p0, a0, c0. split_and!; done.
Qed.

(** The choreography policy.  The queue is kept by decreasing priority, and
    in insertion order within a priority: [Enqueue] appends to the routines of
    its priority, [RemoveCRoutine] takes out exactly the first routine with the
    id, stopped and not held by anybody.  On such a queue [NextRoutine] returns
    a routine that may run such that none of higher priority may, and none of
    equal priority inserted before; or it returns none, no queued routine may
    run, and the next notification is not swallowed. *)
Theorem choreography_next_routine now ctx crs :
  sorted (cr_queue_ ctx) → stop_ ctx = false →
  (∀ p a, (p, a) ∈ cr_queue_ ctx → is_Some (crs !! a)) →
  (∃ r ctx' crs', NextRoutine now ctx crs = Some (r, ctx', crs') ∧ cr_queue_ ctx' = cr_queue_ ctx ∧
    match r with
    | Some a => ∃ q1 p q2, cr_queue_ ctx = q1 ++ (p, a) :: q2 ∧ runnable_at now crs a = true ∧
        (∀ p' b, (p', b) ∈ q1 → runnable_at now crs b = false) ∧
        (∀ p' b, (p', b) ∈ cr_queue_ ctx → p < p' → runnable_at now crs b = false)
    | None => (∀ p b, (p, b) ∈ cr_queue_ ctx → runnable_at now crs b = false) ∧ (Notify ctx').1 = true
    end) ∧
  (∀ p a p', let q' := cr_queue_ (Enqueue p a ctx).2 in
     sorted q' ∧ filter (λ x, x.1 = p') q' = filter (λ x, x.1 = p') (cr_queue_ ctx) ++
       (if decide (p = p') then [(p, a)] else [])) ∧
  (∀ crid ctx' crs', RemoveCRoutine crid ctx crs = Some (ctx', crs') → sorted (cr_queue_ ctx') ∧
     ((ctx' = ctx ∧ ∀ p a c, (p, a) ∈ cr_queue_ ctx → crs !! a = Some c → CRoutine.id_ c ≠ crid) ∨
      (∃ q1 q2 p a c, cr_queue_ ctx = q1 ++ (p, a) :: q2 ∧ cr_queue_ ctx' = q1 ++ q2 ∧
         crs !! a = Some c ∧ CRoutine.id_ c = crid ∧ lock_ c = false ∧
         crs' = <[a := Stop c]> crs))).
Proof.
  intros Hs Hst Hall. split_and!.
  - destruct (scan_total (λ _ (u : unit), u) now (snd <$> cr_queue_ ctx) tt crs) as (r & u & crs' & H).
    { intros a ([p b] & -> & Hb)%list_elem_of_fmap. by eapply Hall. }
    unfold NextRoutine. rewrite Hst, H. cbn. pose proof (scan_spec _ _ _ _ _ _ _ _ H) as Hspec. destruct r as [a|].
    + eexists _, _, _. split_and!; [done|done|].
      destruct Hspec as (i & crs1 & c & Hi & Hbef & Hsw & Hc & Hr & ->).
      rewrite list_lookup_fmap_Some in Hi. destruct Hi as ([p a'] & Ha & Hi). cbn in Ha. subst a'.
      assert (∀ p' b, (p', b) ∈ take i (cr_queue_ ctx) → runnable_at now crs b = false) as Htake.
      { intros p' b (j & [Hj Hlt]%lookup_take_Some)%list_elem_of_lookup.
        apply (Hbef j); [lia|]. by rewrite list_lookup_fmap, Hj. }
      exists (take i (cr_queue_ ctx)), p, (drop (Datatypes.S i) (cr_queue_ ctx)). split_and!; [|
        rewrite <-(swept_runnable _ _ _ _ Hsw); unfold runnable_at; by rewrite Hc|exact Htake|].
      { by rewrite take_drop_middle. }
      intros p' b Hb Hp. rewrite <-(take_drop_middle _ _ _ Hi) in Hb, Hs.
      apply elem_of_app in Hb as [Hb|[[= -> ->]|Hb]%elem_of_cons]; [by eapply Htake|lia|].
      apply StronglySorted_app_1_r in Hs. inversion Hs as [|?? _ Hf]; subst.
      rewrite Forall_forall in Hf. apply Hf in Hb. cbn in Hb. lia.
    + eexists _, _, _. split_and!; [done|done|]. destruct Hspec as [Hsw Hn]. split; [|done].
      intros p b Hb. apply Hn, list_elem_of_fmap. by exists (p, b).
  - intros p a p'. split; [by apply emplace_sorted|by apply emplace_fifo].
  - intros crid ctx' crs' H. unfold RemoveCRoutine in H.
    destruct (remove_loop crid (cr_queue_ ctx) crs) as [[q1 crs1]|] eqn:E; cbn in H; [|done]. simplify_eq. cbn.
    split; [by eapply sublist_sorted; [eapply remove_loop_sublist|]|].
    apply remove_loop_spec in E as [(-> & -> & Hn)|Hex]; [left|right; exact Hex].
    split; [by destruct ctx|done].
Qed.

(** Priorities 1, 5, 5: the first of the two at 5 is held. *)
Definition demo_ctx : t := (Enqueue 5 2 (Enqueue 5 1 (Enqueue 1 0 ChoreographyContext).2).2).2.
Definition demo_heap : heap :=
  <[0%nat := CRoutine.CRoutine 0]>
    (<[1%nat := set_lock true (CRoutine.CRoutine 0)]> (<[2%nat := CRoutine.CRoutine 0]> ∅)).

Lemma choreography_next_routine_witness :
  cr_queue_ demo_ctx = [(5, 1%nat); (5, 2%nat); (1, 0%nat)] ∧
  (NextRoutine 0 demo_ctx demo_heap ≫= λ x, x.1.1) = Some 2%nat ∧
  sorted (cr_queue_ (Enqueue 7 4 demo_ctx).2).
Proof.
  split_and!; [reflexivity|vm_compute; reflexivity|].
  refine (proj1 (proj1 (proj2 (choreography_next_routine 0 demo_ctx demo_heap _ _ _)) 7 4%nat 7)).
  - vm_compute. repeat constructor; vm_compute; discriminate.
  - reflexivity.
  - intros p a H. change (cr_queue_ demo_ctx) with [(5, 1%nat); (5, 2%nat); (1, 0%nat)] in H.
    rewrite !elem_of_cons, elem_of_nil in H. destruct H as [[= -> ->]|[[= -> ->]|[[= -> ->]|[]]]]; by eexists.
Defined.
End ChoreographyProofs.
