(* ===== verification/Scheduler.v ===== *)
(** * The scheduler ([cyber/scheduler/scheduler.cc],
    [cyber/scheduler/policy/scheduler_classic.cc],
    [cyber/scheduler/policy/scheduler_choreography.cc],
    [cyber/common/global_data.cc])

    [GlobalData]: the registry of names.  [Scheduler]: the operations of the base
    class over an interface [Policy] (the virtual functions) with its laws
    [PolicyLaws].  [SchedulerClassic] and [SchedulerChoreography] implement the
    interface.  One call is one step: the per-id mutex serialises the calls for
    an id.  A call answers [None] when it would wait (for a processor to give a
    routine back), abort, or leave an array. *)

From S2P Require Import Prelude Routine Contexts.
Import CRoutine.

Local Open Scope Z_scope.

(** ** Names and their hashes *)
Module GlobalData.
Section hash.
Context (hash : string → Z).

Definition GenerateHashId (name : string) : Z := hash name.

(** [RegisterNode], [RegisterChannel], [RegisterService] and [RegisterTaskName]
    are this function, each on a map of its own; [None]: [CHECK] aborts. *)
Definition Register (name : string) (ids : gmap Z string) : option (Z * gmap Z string) :=
  let id := hash name in
  match ids !! id with
  | Some name' => if bool_decide (name = name') then Some (id, <[id := name]> ids) else None
  | None => Some (id, <[id := name]> ids)
  end.

Definition RegisterNode := Register.
Definition RegisterChannel := Register.
Definition RegisterService := Register.
Definition RegisterTaskName := Register.

Definition GetById (id : Z) (ids : gmap Z string) : string := default "" (ids !! id).
Definition GetNodeById := GetById.
Definition GetChannelById := GetById.
Definition GetServiceById := GetById.
Definition GetTaskNameById := GetById.

Fixpoint register_all (names : list string) (ids : gmap Z string) : option (gmap Z string) :=
  match names with
  | [] => Some ids
  | n :: names => '(_, ids) ← Register n ids; register_all names ids
  end.

Definition ids_ok (ids : gmap Z string) : Prop := ∀ id n, ids !! id = Some n → id = hash n.

Lemma Register_spec name ids id ids' :
  ids_ok ids → Register name ids = Some (id, ids') →
  id = hash name ∧ ids_ok ids' ∧ ids ⊆ ids' ∧ ids' !! id = Some name.
Proof.
  unfold Register. intros Hok H.
  assert (id = hash name ∧ ids' = <[hash name := name]> ids ∧ (ids !! hash name = None ∨ ids !! hash name = Some name)) as (-> & -> & Hold).
  { destruct (ids !! hash name) as [n'|] eqn:E; [|by simplify_eq; auto]. case_bool_decide; simplify_eq. auto. }
  split_and!; [done| | |by rewrite lookup_insert_eq].
  - intros i n. rewrite lookup_insert. case_decide; [by intros [= ->]|apply Hok].
  - destruct Hold as [Hn|Hs]; [by apply insert_subseteq|by rewrite insert_id].
Qed.

Lemma register_all_spec names ids ids' :
  ids_ok ids → register_all names ids = Some ids' →
  ids_ok ids' ∧ ids ⊆ ids' ∧ ∀ n, n ∈ names → ids' !! hash n = Some n.
Proof.
  revert ids. induction names as [|n names IH]; intros ids Hok H; cbn in H.
  { simplify_eq. split_and!; [done..|]. intros n []%elem_of_nil. }
  destruct (Register n ids) as [[id ids1]|] eqn:E; [|done]. cbn in H.
  apply Register_spec in E as (-> & Hok1 & Hsub & Hl); [|done].
  destruct (IH _ Hok1 H) as (Hok' & Hsub' & Hall). split_and!; [done|by etrans|].
  intros m [-> |Hm]%elem_of_cons; [|by apply Hall]. by eapply lookup_weaken.
Qed.

(** The name registry.  If registering a list of names does not abort, then
    looking up the id of any of them gives the name back, distinct names have
    distinct ids, and the id does not depend on the order of registration: it
    is the one that [GenerateHashId] computes without a registry. *)
Theorem registered_names names ids :
  register_all names ∅ = Some ids →
  (∀ n, n ∈ names → GetById (GenerateHashId n) ids = n) ∧
  (∀ n m, n ∈ names → m ∈ names → GenerateHashId n = GenerateHashId m → n = m) ∧
  (∀ n, n ∈ names → ∃ ids', Register n ids = Some (GenerateHashId n, ids') ∧ ids' = ids).
Proof.
  intros H. apply register_all_spec in H as (_ & _ & Hall); [|by intros i n; rewrite lookup_empty].
  unfold GetById, GenerateHashId. split_and!.
  - intros n Hn. by rewrite (Hall n Hn).
  - intros n m Hn Hm Heq. apply Hall in Hn, Hm. congruence.
  - intros n Hn. unfold Register. rewrite (Hall n Hn), bool_decide_true by done.
    rewrite insert_id by auto. eauto.
Qed.
End hash.

(** A hash with collisions: the length. *)
Definition demo_hash (s : string) : Z := Z.of_nat (String.length s).

Lemma registered_names_witness :
  register_all demo_hash ["a"; "bb"; "a"] ∅ = Some (<[2 := "bb"%string]> {[1 := "a"%string]}) ∧
  register_all demo_hash ["a"; "b"] ∅ = None ∧
  GetById (GenerateHashId demo_hash "bb") (<[2 := "bb"%string]> {[1 := "a"%string]}) = "bb"%string.
Proof.
  split_and!; [vm_compute; reflexivity|vm_compute; reflexivity|].
  apply (registered_names demo_hash ["a"; "bb"; "a"]); [vm_compute; reflexivity|].
  apply elem_of_cons. right. apply elem_of_cons. by left.
Defined.
End GlobalData.

(** ** The state of a scheduler *)

(** A processor's context. *)
Inductive pctx :=
| Choreography (ctx : ChoreographyContext.t)
| Classic (ctx : ClassicContext.t).

(** What a call signals: a group's condition variable, or that of a context. *)
Inductive signal := SGroup (g : string) | SContext (i : nat).

#[export] Instance signal_eq_dec : EqDecision signal.
Proof. solve_decision. Defined.

(** A [Processor] as [Scheduler::Shutdown] sees it: [running_], and whether its
    [thread_] can be joined; [Processor.Processor] is its thread. *)
Record proc := mkproc { running_ : bool; joinable_ : bool }.

Record sched := mk {
  stop_ : bool;
  id_cr_ : gmap Z nat;
  task_id_map_ : gmap Z string;
  crs : heap;
  cr_group_ : gmap string (list (list nat));
  pctxs_ : list pctx;
  signals : list signal;
  processors_ : list proc;
}.

Definition set_stop (b : bool) (s : sched) : sched :=
  mk b (id_cr_ s) (task_id_map_ s) (crs s) (cr_group_ s) (pctxs_ s) (signals s) (processors_ s).
Definition set_id_cr (m : gmap Z nat) (s : sched) : sched :=
  mk (stop_ s) m (task_id_map_ s) (crs s) (cr_group_ s) (pctxs_ s) (signals s) (processors_ s).
Definition set_task_ids (m : gmap Z string) (s : sched) : sched :=
  mk (stop_ s) (id_cr_ s) m (crs s) (cr_group_ s) (pctxs_ s) (signals s) (processors_ s).
Definition set_crs (h : heap) (s : sched) : sched :=
  mk (stop_ s) (id_cr_ s) (task_id_map_ s) h (cr_group_ s) (pctxs_ s) (signals s) (processors_ s).
Definition set_groups (g : gmap string (list (list nat))) (s : sched) : sched :=
  mk (stop_ s) (id_cr_ s) (task_id_map_ s) (crs s) g (pctxs_ s) (signals s) (processors_ s).
Definition set_pctxs (l : list pctx) (s : sched) : sched :=
  mk (stop_ s) (id_cr_ s) (task_id_map_ s) (crs s) (cr_group_ s) l (signals s) (processors_ s).
Definition add_signal (x : signal) (s : sched) : sched :=
  mk (stop_ s) (id_cr_ s) (task_id_map_ s) (crs s) (cr_group_ s) (pctxs_ s) (signals s ++ [x]) (processors_ s).
Definition set_processors (l : list proc) (s : sched) : sched :=
  mk (stop_ s) (id_cr_ s) (task_id_map_ s) (crs s) (cr_group_ s) (pctxs_ s) (signals s) l.

(** No processor holds a routine. *)
Definition unheld (s : sched) : Prop := ∀ a c, crs s !! a = Some c → lock_ c = false.

(** The routine registered under an id is in the store, under that id. *)
Definition ids_ok (s : sched) : Prop :=
  ∀ id a, id_cr_ s !! id = Some a → ∃ c, crs s !! a = Some c ∧ CRoutine.id_ c = id.

(** [ProcessorContext::Shutdown]. *)
Definition shutdown_ctx (p : pctx) : pctx :=
  match p with
  | Choreography ctx => Choreography (ChoreographyContext.Shutdown ctx)
  | Classic ctx => Classic (ClassicContext.Shutdown ctx)
  end.

(** What the scheduler looks at in a routine. *)
Definition same_identity (c c' : CRoutine.t) : Prop :=
  CRoutine.id_ c' = CRoutine.id_ c ∧ priority_ c' = priority_ c ∧ group_name_ c' = group_name_ c ∧
  processor_id_ c' = processor_id_ c ∧ CRoutine.name_ c' = CRoutine.name_ c.

#[export] Instance same_identity_dec c c' : Decision (same_identity c c').
Proof. apply _. Defined.

Lemma same_identity_sym c c' : same_identity c c' → same_identity c' c.
Proof. unfold same_identity. intuition. Qed.

(** ** The virtual functions of [Scheduler], and what they promise *)
Class Policy := {
  DispatchTask : nat → sched → option (bool * sched);
  NotifyProcessor : Z → sched → option (bool * sched);
  RemoveCRoutine : Z → sched → option (bool * sched);
}.

(** [wf]: the invariant of the policy. *)
Class PolicyLaws (P : Policy) (wf : sched → Prop) := {
  wf_ids s : wf s → ids_ok s;
  wf_new s a c : wf s → crs s !! a = None → wf (set_crs (<[a := c]> (crs s)) s);
  wf_task_ids s m : wf s → wf (set_task_ids m s);
  wf_stop s : wf s → wf (set_stop true (set_pctxs (shutdown_ctx <$> pctxs_ s) s));
  wf_run s a c c' : wf s → crs s !! a = Some c → same_identity c c' → wf (set_crs (<[a := c']> (crs s)) s);
  dispatch_new s a c :
    wf s → crs s !! a = Some c → processor_id_ c = -1 → 0 <= priority_ c → id_cr_ s !! CRoutine.id_ c = None →
    ∃ s', DispatchTask a s = Some (true, s') ∧ wf s' ∧
      id_cr_ s' = <[CRoutine.id_ c := a]> (id_cr_ s) ∧ stop_ s' = stop_ s ∧ task_id_map_ s' = task_id_map_ s ∧
      (unheld s → unheld s');
  dispatch_known s a c :
    wf s → crs s !! a = Some c → is_Some (id_cr_ s !! CRoutine.id_ c) →
    (∀ id, id_cr_ s !! id ≠ Some a) →
    ∃ s', DispatchTask a s = Some (false, s') ∧ wf s' ∧ id_cr_ s' = id_cr_ s ∧ stop_ s' = stop_ s ∧
      task_id_map_ s' = task_id_map_ s ∧ cr_group_ s' = cr_group_ s ∧ pctxs_ s' = pctxs_ s;
  remove_known s id a c :
    wf s → id_cr_ s !! id = Some a → crs s !! a = Some c → lock_ c = false →
    ∃ s', RemoveCRoutine id s = Some (true, s') ∧ wf s' ∧ (unheld s → unheld s') ∧ id_cr_ s' = delete id (id_cr_ s) ∧
      stop_ s' = stop_ s ∧ task_id_map_ s' = task_id_map_ s ∧ processors_ s' = processors_ s ∧
      (∀ c, crs s' !! a = Some c → force_stop_ c = true);
  remove_held s id a c :
    wf s → id_cr_ s !! id = Some a → crs s !! a = Some c → lock_ c = true → RemoveCRoutine id s = None;
  remove_unknown s id : wf s → id_cr_ s !! id = None → RemoveCRoutine id s = Some (false, s);
  notify_known s id a c :
    wf s → stop_ s = false → id_cr_ s !! id = Some a → crs s !! a = Some c →
    ∃ s', NotifyProcessor id s = Some (true, s') ∧ wf s' ∧ id_cr_ s' = id_cr_ s ∧
      stop_ s' = stop_ s ∧ task_id_map_ s' = task_id_map_ s ∧
      crs s' = (if bool_decide (state_ c = DATA_WAIT) || bool_decide (state_ c = IO_WAIT)
                then <[a := SetUpdateFlag c]> (crs s) else crs s);
  notify_unknown s id : wf s → stop_ s = false → id_cr_ s !! id = None → NotifyProcessor id s = Some (false, s);
}.

(** ** The base class *)
Module Scheduler.
Section scheduler.
Context `{P : Policy} (hash : string → Z).

(** [CreateTask] at time [now]; also answered: the id that the visitor's
    callback will notify. *)
Definition CreateTask (now : Z) (name : string) (visitor : bool) (s : sched) :
    option (bool * option Z * sched) :=
  if stop_ s then Some (false, None, s)
  else
    '(task_id, ids) ← GlobalData.RegisterTaskName hash name (task_id_map_ s);
    let a := fresh (dom (crs s)) in
    let cr := set_name name (set_id task_id (CRoutine.CRoutine now)) in
    let s := set_crs (<[a := cr]> (crs s)) (set_task_ids ids s) in
    '(ok, s) ← DispatchTask a s;
    if negb ok then Some (false, None, s)
    else Some (true, if visitor then Some task_id else None, s).

Definition NotifyTask (crid : Z) (s : sched) : option (bool * sched) :=
  if stop_ s then Some (true, s) else NotifyProcessor crid s.

Definition RemoveTask (name : string) (s : sched) : option (bool * sched) :=
  if stop_ s then Some (true, s)
  else RemoveCRoutine (GlobalData.GenerateHashId hash name) s.

Fixpoint remove_all (ids : list Z) (s : sched) : option sched :=
  match ids with
  | [] => Some s
  | id :: ids => '(_, s) ← RemoveCRoutine id s; remove_all ids s
  end.

(** The ids, through the routines, in the order of the hash table. *)
Definition cr_list (s : sched) : list Z :=
  omap (λ p, CRoutine.id_ <$> crs s !! p.2) (map_to_list (id_cr_ s)).

(** [Processor::Stop] of the processor at [i], whose context is that at [i]: it
    shuts the context down again and joins the thread, which waits for ever if the
    thread does not leave [Run]. *)
Definition stop_processor (leaves : bool) (i : nat) (p : proc) (s : sched) : option sched :=
  if running_ p then
    if joinable_ p && negb leaves then None
    else Some (set_processors (<[i := mkproc false false]> (processors_ s)) (set_pctxs (alter shutdown_ctx i (pctxs_ s)) s))
  else Some s.

Fixpoint stop_processors (leaves : nat → bool) (i : nat) (ps : list proc) (s : sched) : option sched :=
  match ps with
  | [] => Some s
  | p :: ps => s ← stop_processor (leaves i) i p s; stop_processors leaves (S i) ps s
  end.

(** [leaves i]: whether the thread of processor [i] leaves [Run] once [running_] is
    false and its context is shut down. *)
Definition Shutdown (leaves : nat → bool) (s : sched) : option sched :=
  if stop_ s then Some s
  else
    let s := set_stop true (set_pctxs (shutdown_ctx <$> pctxs_ s) s) in
    s ← remove_all (cr_list s) s;
    s ← stop_processors leaves 0 (processors_ s) s;
    Some (set_pctxs [] (set_processors [] s)).

(** ** Its behaviour, from the laws of the policy *)
Context (wf : sched → Prop) `{L : !PolicyLaws P wf}.

Lemma cr_list_keys s : wf s → cr_list s = (map_to_list (id_cr_ s)).*1.
Proof.
  intros Hwf%wf_ids. unfold cr_list.
  assert (∀ l, (∀ id a, (id, a) ∈ l → id_cr_ s !! id = Some a) →
    omap (λ p : Z * nat, CRoutine.id_ <$> crs s !! p.2) l = l.*1) as H.
  { induction l as [|[id a] l IH]; intros Hl; [done|]. cbn.
    destruct (Hwf id a) as (c & -> & Hid); [apply Hl, elem_of_cons; by left|]. cbn. rewrite Hid. f_equal.
    apply IH. intros i b Hb. apply Hl, elem_of_cons. by right. }
  apply H. intros id a. by rewrite elem_of_map_to_list.
Qed.

Lemma remove_all_spec ids s :
  wf s → unheld s → NoDup ids → (∀ id, id ∈ ids → is_Some (id_cr_ s !! id)) →
  ∃ s', remove_all ids s = Some s' ∧ wf s' ∧ stop_ s' = stop_ s ∧ processors_ s' = processors_ s ∧
    ∀ id, id_cr_ s' !! id = if decide (id ∈ ids) then None else id_cr_ s !! id.
Proof.
  revert s. induction ids as [|i ids IH]; intros s Hwf Hu Hnd Hreg; cbn [remove_all].
  { exists s. split_and!; auto. }
  apply NoDup_cons in Hnd as [Hi Hnd].
  destruct (Hreg i) as [a Ha]; [apply elem_of_cons; by left|].
  destruct (wf_ids s Hwf i a Ha) as (c & Hc & _).
  destruct (remove_known s i a c Hwf Ha Hc (Hu a c Hc)) as (s1 & -> & Hwf1 & Hu1 & Hid & Hst & _ & Hps & _). cbn.
  destruct (IH s1 Hwf1 (Hu1 Hu) Hnd) as (s' & -> & Hwf' & Hst' & Hps' & Hall).
  { intros j Hj. rewrite Hid, lookup_delete_ne by (intros ->; done). apply Hreg, elem_of_cons. by right. }
  exists s'. split_and!; [done|done|congruence|congruence|]. intros j. rewrite Hall, Hid.
  destruct (decide (j = i)) as [-> |].
  - rewrite lookup_delete_eq. destruct (decide (i ∈ ids)); [done|]. rewrite decide_True by (apply elem_of_cons; by left). done.
  - rewrite lookup_delete_ne by done. destruct (decide (j ∈ ids)) as [Hj|Hj], (decide (j ∈ i :: ids)) as [Hj'|Hj']; try done.
    + destruct Hj'. apply elem_of_cons. by right.
    + apply elem_of_cons in Hj' as [|]; done.
Qed.

(** The threads that [Shutdown] waits for. *)
Definition all_leave (leaves : nat → bool) (s : sched) : Prop :=
  ∀ i p, processors_ s !! i = Some p → running_ p = true → joinable_ p = true → leaves i = true.

Lemma stop_processors_spec leaves ps : ∀ i s,
  ((∀ j p, ps !! j = Some p → running_ p = true → joinable_ p = true → leaves (i + j)%nat = true) →
     ∃ s', stop_processors leaves i ps s = Some s' ∧ id_cr_ s' = id_cr_ s ∧ stop_ s' = stop_ s) ∧
  ((∃ j p, ps !! j = Some p ∧ running_ p = true ∧ joinable_ p = true ∧ leaves (i + j)%nat = false) →
     stop_processors leaves i ps s = None).
Proof.
  induction ps as [|p ps IH]; intros i s; cbn [stop_processors].
  { split; [by exists s|]. intros (j & q & Hj & _). by rewrite lookup_nil in Hj. }
  split.
  - intros Hall. assert (joinable_ p && negb (leaves i) = true → running_ p = false) as Hp.
    { intros [Hj Hl]%andb_true_iff. destruct (running_ p) eqn:Hr; [|done].
      specialize (Hall 0%nat p eq_refl Hr Hj). rewrite Nat.add_0_r in Hall. by rewrite Hall in Hl. }
    assert (∃ s1, stop_processor (leaves i) i p s = Some s1 ∧ id_cr_ s1 = id_cr_ s ∧ stop_ s1 = stop_ s) as (s1 & -> & E1 & E2).
    { unfold stop_processor. destruct (running_ p); [|by eexists]. destruct (joinable_ p && negb (leaves i)); [by discriminate Hp|].
      by eexists. }
    cbn [mbind option_bind]. destruct (proj1 (IH (S i) s1)) as (s2 & -> & E3 & E4).
    { intros j q Hj. rewrite Nat.add_succ_comm. by apply (Hall (S j)). }
    exists s2. split_and!; [done|congruence|congruence].
  - intros ([|j] & q & Hj & Hr & Hjo & Hl); cbn in Hj.
    + simplify_eq. rewrite Nat.add_0_r in Hl. unfold stop_processor. by rewrite Hr, Hjo, Hl.
    + destruct (stop_processor (leaves i) i p s) as [s1|]; [|done]. cbn [mbind option_bind].
      apply (proj2 (IH (S i) s1)). exists j, q. by rewrite <-Nat.add_succ_comm in Hl.
Qed.

(** C30: the life of a task.  On a running scheduler with an unused id,
    [CreateTask] registers a new routine under the name's id and arms the
    visitor's callback with that id; with a used id it changes no registration,
    queue or context; removing the task right after creating it, when no processor
    holds a routine, restores the registry.  [Shutdown], when no processor holds a
    routine, returns exactly if the thread of every running processor leaves [Run]
    (for when it does, see [Processor.processor_stop]): then the registry is empty
    and there are no contexts and processors, and from then on no task is created,
    notifications and removals do nothing, and shutting down again is a no-op. *)
Theorem scheduler_tasks now name visitor s id ids :
  wf s → stop_ s = false → GlobalData.RegisterTaskName hash name (task_id_map_ s) = Some (id, ids) →
  (id_cr_ s !! id = None →
     ∃ s1, CreateTask now name visitor s = Some (true, if visitor then Some id else None, s1) ∧ wf s1 ∧
       id_cr_ s1 = <[id := fresh (dom (crs s))]> (id_cr_ s) ∧ task_id_map_ s1 = ids ∧
       (unheld s → ∃ s2, RemoveTask name s1 = Some (true, s2) ∧ wf s2 ∧ id_cr_ s2 = id_cr_ s)) ∧
  (is_Some (id_cr_ s !! id) →
     ∃ s1, CreateTask now name visitor s = Some (false, None, s1) ∧ wf s1 ∧ id_cr_ s1 = id_cr_ s ∧
       cr_group_ s1 = cr_group_ s ∧ pctxs_ s1 = pctxs_ s) ∧
  (unheld s → ∀ leaves,
     (all_leave leaves s → ∃ s1, Shutdown leaves s = Some s1 ∧ id_cr_ s1 = ∅ ∧ pctxs_ s1 = [] ∧ processors_ s1 = [] ∧
        CreateTask now name visitor s1 = Some (false, None, s1) ∧ (∀ i, NotifyTask i s1 = Some (true, s1)) ∧
        RemoveTask name s1 = Some (true, s1) ∧ ∀ leaves', Shutdown leaves' s1 = Some s1) ∧
     ((∃ i p, processors_ s !! i = Some p ∧ running_ p = true ∧ joinable_ p = true ∧ leaves i = false) →
        Shutdown leaves s = None)).
Proof.
  intros Hwf Hst Hreg.
  assert (id = GlobalData.GenerateHashId hash name) as Hid.
  { unfold GlobalData.RegisterTaskName, GlobalData.Register in Hreg.
    destruct (task_id_map_ s !! hash name); [case_bool_decide|]; by simplify_eq. }
  set (a := fresh (dom (crs s))).
  set (cr := set_name name (set_id id (CRoutine.CRoutine now))).
  set (s0 := set_crs (<[a := cr]> (crs s)) (set_task_ids ids s)).
  assert (crs s !! a = None) as Ha by (apply not_elem_of_dom, is_fresh).
  assert (wf s0) as Hwf0 by (apply (wf_new (set_task_ids ids s)); [by apply wf_task_ids|done]).
  assert (crs s0 !! a = Some cr) as Hcr by (cbn; by rewrite lookup_insert_eq).
  assert (unheld s → unheld s0) as Hu0.
  { intros Hu b c. cbn. rewrite lookup_insert. case_decide; [by intros [= <-]|apply Hu]. }
  split_and!.
  - intros Hnone. destruct (dispatch_new s0 a cr Hwf0 Hcr) as (s1 & E & Hwf1 & Hids & Hst1 & Htask & Hu1); [done..|].
    exists s1. unfold CreateTask. rewrite Hst, Hreg. cbn. fold a cr s0. rewrite E. cbn. split_and!; [done..|].
    intros Hu. assert (id_cr_ s1 !! id = Some a) as Ha1 by (rewrite Hids; cbn; by rewrite lookup_insert_eq).
    destruct (wf_ids s1 Hwf1 id a Ha1) as (c1 & Hc1 & _).
    destruct (remove_known s1 id a c1 Hwf1 Ha1 Hc1 (Hu1 (Hu0 Hu) a c1 Hc1)) as (s2 & E2 & Hwf2 & _ & Hid2 & _).
    exists s2. unfold RemoveTask. rewrite Hst1. cbn. rewrite Hst, <-Hid, E2. split_and!; [done..|].
    rewrite Hid2, Hids. cbn. by rewrite delete_insert_eq, delete_id.
  - intros Hsome. destruct (dispatch_known s0 a cr Hwf0 Hcr) as (s1 & E & Hwf1 & Hids & _ & _ & Hg & Hp); [done| |].
    { intros i Hi. apply (wf_ids s Hwf) in Hi as (c & Hc & _). congruence. }
    exists s1. unfold CreateTask. rewrite Hst, Hreg. cbn. fold a cr s0. rewrite E. cbn. by split_and!.
  - intros Hu leaves. unfold Shutdown. rewrite Hst.
    set (s' := set_stop true (set_pctxs (shutdown_ctx <$> pctxs_ s) s)).
    assert (wf s') as Hwf' by by apply wf_stop.
    destruct (remove_all_spec (cr_list s') s' Hwf') as (s1 & E & _ & Hst1 & Hps & Hall).
    + exact Hu.
    + rewrite cr_list_keys by done. apply NoDup_fst_map_to_list.
    + intros i. rewrite cr_list_keys by done. intros ([j b] & -> & Hj)%list_elem_of_fmap.
      cbn. apply elem_of_map_to_list in Hj. by exists b.
    + cbn zeta. rewrite E. cbn [mbind option_bind]. rewrite Hps. change (processors_ s') with (processors_ s).
      destruct (stop_processors_spec leaves (processors_ s) 0 s1) as [Hgo Hblock].
      split; [intros Hl|intros Hl; by rewrite Hblock].
      destruct Hgo as (s2 & -> & Eid & Est); [done|]. cbn [mbind option_bind].
      eexists. split; [done|]. unfold CreateTask, NotifyTask, RemoveTask. cbn. rewrite Est, Hst1. cbn.
      split_and!; try done. apply map_eq. intros i. rewrite Eid, Hall, lookup_empty, cr_list_keys by done.
      case_decide as Hi; [done|]. destruct (id_cr_ s' !! i) as [b|] eqn:Eb; [|done].
      destruct Hi. apply list_elem_of_fmap. exists (i, b). split; [done|by apply elem_of_map_to_list].
Qed.
End scheduler.
End Scheduler.

(** ** A running scheduler

    Clients create, remove and notify tasks; processors and the routines
    themselves change anything of a routine but its identity. *)
Module Tasks.
Import Scheduler.
Section tasks.
Context `{P : Policy} (hash : string → Z).

Inductive label :=
| LCreate (now : Z) (name : string) (visitor : bool)
| LRemove (name : string)
| LNotify (id : Z)
| LRun (a : nat) (c' : CRoutine.t).

Definition step (l : label) (s : sched) : option sched :=
  match l with
  | LCreate now name visitor => '(_, _, s') ← CreateTask hash now name visitor s; Some s'
  | LRemove name => '(_, s') ← RemoveTask hash name s; Some s'
  | LNotify id => '(_, s') ← NotifyTask id s; Some s'
  | LRun a c' =>
      c ← crs s !! a;
      if bool_decide (same_identity c c') then Some (set_crs (<[a := c']> (crs s)) s) else None
  end.

Context (wf : sched → Prop) `{L : !PolicyLaws P wf}.

(** [task_id_map_] knows the names of the registered tasks. *)
Definition named (s : sched) : Prop :=
  GlobalData.ids_ok hash (task_id_map_ s) ∧ ∀ id, is_Some (id_cr_ s !! id) → is_Some (task_id_map_ s !! id).

Lemma remove_preserves s id ok s' :
  wf s → named s → RemoveCRoutine id s = Some (ok, s') → wf s' ∧ named s'.
Proof.
  intros Hwf [Hids Hn] E. destruct (id_cr_ s !! id) as [a|] eqn:Hid.
  - destruct (wf_ids s Hwf id a Hid) as (c & Hc & _). destruct (lock_ c) eqn:Hl.
    { by rewrite (remove_held s id a c Hwf Hid Hc Hl) in E. }
    destruct (remove_known s id a c Hwf Hid Hc Hl) as (s1 & E1 & Hwf1 & _ & Hids1 & _ & Ht & _ & _).
    rewrite E in E1. simplify_eq. split; [done|]. split; rewrite Ht; [done|]. intros i. rewrite Hids1.
    rewrite lookup_delete. case_decide; [by intros []|apply Hn].
  - rewrite remove_unknown in E by done. by simplify_eq.
Qed.

Lemma notify_preserves s id ok s' :
  wf s → named s → NotifyTask id s = Some (ok, s') → wf s' ∧ named s'.
Proof.
  intros Hwf Hn E. unfold NotifyTask in E. destruct (stop_ s) eqn:Hst; [by simplify_eq|].
  destruct (id_cr_ s !! id) as [a|] eqn:Hid.
  - destruct (wf_ids s Hwf id a Hid) as (c & Hc & _).
    destruct (notify_known s id a c Hwf Hst Hid Hc) as (s1 & E1 & Hwf1 & Hids1 & _ & Ht & _).
    rewrite E in E1. simplify_eq. split; [done|]. unfold named. by rewrite Ht, Hids1.
  - rewrite notify_unknown in E by done. by simplify_eq.
Qed.

Lemma create_preserves now name visitor s ok cb s' :
  wf s → named s → CreateTask hash now name visitor s = Some (ok, cb, s') → wf s' ∧ named s'.
Proof.
  intros Hwf [Hids Hn] E. unfold CreateTask in E. destruct (stop_ s); [by simplify_eq|].
  destruct (GlobalData.RegisterTaskName hash name (task_id_map_ s)) as [[id ids]|] eqn:Er; [|done]. cbn in E.
  apply GlobalData.Register_spec in Er as (-> & Hids' & Hsub & Hl); [|done].
  set (a := fresh (dom (crs s))) in *. set (cr := set_name name _) in *. set (s0 := set_crs _ _) in *.
  assert (crs s !! a = None) as Ha by (apply not_elem_of_dom, is_fresh).
  assert (wf s0) as Hwf0 by (apply (wf_new (set_task_ids ids s)); [by apply wf_task_ids|done]).
  assert (crs s0 !! a = Some cr) as Hcr by (cbn; by rewrite lookup_insert_eq).
  assert (∀ i, is_Some (id_cr_ s !! i) → is_Some (ids !! i)) as Hmono.
  { intros i [n Hi]%Hn. exists n. by eapply lookup_weaken. }
  destruct (id_cr_ s !! hash name) as [b|] eqn:Hb.
  - destruct (dispatch_known s0 a cr Hwf0 Hcr) as (s1 & E1 & Hwf1 & Hids1 & _ & Ht & _); [by exists b| |].
    { intros i Hi. apply (wf_ids s Hwf) in Hi as (c & Hc & _). congruence. }
    rewrite E1 in E. cbn in E. simplify_eq. split; [done|]. unfold named. rewrite Ht, Hids1. by split.
  - destruct (dispatch_new s0 a cr Hwf0 Hcr) as (s1 & E1 & Hwf1 & Hids1 & _ & Ht & _); [done..|].
    rewrite E1 in E. cbn in E. simplify_eq. split; [done|]. unfold named. rewrite Ht, Hids1. split; [done|].
    intros i. cbn. rewrite lookup_insert. case_decide; [subst; intros _; by exists name|apply Hmono].
Qed.

Lemma step_preserves l s s' : wf s ∧ named s → step l s = Some s' → wf s' ∧ named s'.
Proof.
  intros [Hwf Hn] E. destruct l as [now name visitor|name|id|a c']; cbn in E.
  - destruct (CreateTask hash now name visitor s) as [[[ok cb] s1]|] eqn:E1; [|done]. cbn in E. simplify_eq.
    by eapply create_preserves.
  - unfold RemoveTask in E. destruct (stop_ s); [cbn in E; simplify_eq; done|].
    destruct (RemoveCRoutine _ s) as [[ok s1]|] eqn:E1; [|done]. cbn in E. simplify_eq. by eapply remove_preserves.
  - destruct (NotifyTask id s) as [[ok s1]|] eqn:E1; [|done]. cbn in E. simplify_eq. by eapply notify_preserves.
  - destruct (crs s !! a) as [c|] eqn:Hc; [|done]. cbn in E. case_bool_decide; [|done]. simplify_eq.
    split; [by eapply wf_run|done].
Qed.

Lemma tasks_reachable s0 s : wf s0 → named s0 → reachable step s0 s → wf s ∧ named s.
Proof.
  intros Hwf Hn. apply (reachable_inv step (λ s, wf s ∧ named s)); [done|]. intros l s1 s2 H E. by eapply step_preserves.
Qed.
End tasks.
End Tasks.

(** ** The run queues that the classic contexts share *)
Module RunQueues.

Definition MAX_PRIO : Z := 20.

(** [cr_group_[g][prio]]. *)
Definition queue (gs : gmap string (list (list nat))) (g : string) (prio : nat) : list nat :=
  default [] (ClassicContext.group_queues gs g !! prio).

Definition set_queue (g : string) (prio : nat) (l : list nat) (gs : gmap string (list (list nat))) :
    gmap string (list (list nat)) :=
  <[g := <[prio := l]> (ClassicContext.group_queues gs g)]> gs.

(** [cr_group_[g][prio].emplace_back(cr)]. *)
Definition emplace_back (g : string) (prio : Z) (a : nat) (gs : gmap string (list (list nat))) :
    option (gmap string (list (list nat))) :=
  l ← ClassicContext.group_queues gs g !! Z.to_nat prio;
  Some (set_queue g (Z.to_nat prio) (l ++ [a]) gs).

(** The loop of [RemoveCRoutine] over a queue: the first routine with the id is
    stopped, taken from its processor, removed and given back. *)
Fixpoint erase_loop (crid : Z) (l : list nat) (h : heap) : option (bool * list nat * heap) :=
  match l with
  | [] => Some (false, [], h)
  | a :: l =>
      c ← h !! a;
      if CRoutine.id_ c =? crid then
        let '(ok, c) := Acquire (Stop c) in
        if ok then Some (true, l, <[a := Release c]> h) else None
      else
        '(ok, l', h) ← erase_loop crid l h; Some (ok, a :: l', h)
  end.

Definition erase (crid : Z) (g : string) (prio : Z) (gs : gmap string (list (list nat))) (h : heap) :
    option (bool * gmap string (list (list nat)) * heap) :=
  l ← ClassicContext.group_queues gs g !! Z.to_nat prio;
  '(ok, l, h) ← erase_loop crid l h;
  Some (ok, set_queue g (Z.to_nat prio) l gs, h).

Lemma queue_empty g prio : queue ∅ g prio = [].
Proof.
  assert (queue ∅ g prio = default [] (ClassicContext.no_queues !! prio)) as ->.
  { unfold queue, ClassicContext.group_queues. by rewrite lookup_empty. }
  unfold ClassicContext.no_queues.
  destruct (replicate ClassicContext.MAX_PRIO [] !! prio) as [l|] eqn:E; [|done].
  by apply lookup_replicate in E as [-> _].
Qed.

(** Every group has its array of queues. *)
Definition full (gs : gmap string (list (list nat))) : Prop :=
  ∀ g, length (ClassicContext.group_queues gs g) = ClassicContext.MAX_PRIO.

Lemma group_queues_insert gs g g' qs :
  ClassicContext.group_queues (<[g := qs]> gs) g' =
  if decide (g = g') then qs else ClassicContext.group_queues gs g'.
Proof. unfold ClassicContext.group_queues. rewrite lookup_insert. by case_decide. Qed.

Lemma set_queue_full g prio l gs : full gs → full (set_queue g prio l gs).
Proof.
  intros H g'. unfold set_queue. rewrite group_queues_insert. case_decide; [|done].
  by rewrite length_insert.
Qed.

Lemma queue_set_queue gs g prio l g' prio' :
  full gs → (prio < ClassicContext.MAX_PRIO)%nat →
  queue (set_queue g prio l gs) g' prio' =
  if decide (g = g' ∧ prio = prio') then l else queue gs g' prio'.
Proof.
  intros Hf Hp. unfold queue, set_queue. rewrite group_queues_insert.
  destruct (decide (g = g')) as [<-|Hg]; [|by rewrite decide_False by naive_solver].
  destruct (decide (prio = prio')) as [<-|Hp'].
  - rewrite decide_True by done. rewrite list_lookup_insert_eq; [done|]. by rewrite Hf.
  - rewrite decide_False by naive_solver. by rewrite list_lookup_insert_ne by done.
Qed.

Lemma queue_lookup gs g prio :
  full gs → (prio < ClassicContext.MAX_PRIO)%nat →
  ClassicContext.group_queues gs g !! prio = Some (queue gs g prio).
Proof.
  intros Hf Hp. unfold queue. destruct (lookup_lt_is_Some_2 (ClassicContext.group_queues gs g) prio) as [l ->];
    [by rewrite Hf|done].
Qed.

Lemma queue_overflow gs g prio : full gs → (ClassicContext.MAX_PRIO <= prio)%nat → queue gs g prio = [].
Proof. intros Hf Hp. unfold queue. rewrite lookup_ge_None_2; [done|by rewrite Hf]. Qed.

Lemma emplace_back_spec g prio a gs :
  full gs → 0 <= prio < MAX_PRIO →
  ∃ gs', emplace_back g prio a gs = Some gs' ∧ full gs' ∧
    ∀ g' prio', queue gs' g' prio' =
      if decide (g = g' ∧ Z.to_nat prio = prio') then queue gs g' prio' ++ [a] else queue gs g' prio'.
Proof.
  intros Hf Hp. assert (Z.to_nat prio < ClassicContext.MAX_PRIO)%nat by (unfold MAX_PRIO in Hp; cbv [ClassicContext.MAX_PRIO]; lia).
  unfold emplace_back. rewrite queue_lookup by done. cbn. eexists. split_and!; [done|by apply set_queue_full|].
  intros g' prio'. rewrite queue_set_queue by done. case_decide as Hd; [|done]. by destruct Hd as [<- <-].
Qed.

Lemma erase_loop_spec crid l (h : heap) :
  (∀ a, a ∈ l → is_Some (h !! a)) →
  (∃ l1 a l2 c, l = l1 ++ a :: l2 ∧ h !! a = Some c ∧ CRoutine.id_ c = crid ∧
     erase_loop crid l h = if lock_ c then None else Some (true, l1 ++ l2, <[a := Stop c]> h)) ∨
  ((∀ a c, a ∈ l → h !! a = Some c → CRoutine.id_ c ≠ crid) ∧ erase_loop crid l h = Some (false, l, h)).
Proof.
  induction l as [|a l IH]; intros Hall; cbn.
  { right. split; [|done]. intros a c []%elem_of_nil. }
  destruct (Hall a) as [c Hc]; [apply elem_of_cons; by left|]. rewrite Hc. cbn.
  destruct (Z.eqb_spec (CRoutine.id_ c) crid) as [He|He].
  - left. exists [], a, l, c. split_and!; try done. destruct (lock_ c) eqn:Hl; cbn; [done|]. do 3 f_equal.
    destruct c; cbn in *; by subst.
  - destruct IH as [(l1 & b & l2 & d & -> & Hd & Hid & ->)|[Hno ->]].
    + intros b Hb. apply Hall, elem_of_cons. by right.
    + left. exists (a :: l1), b, l2, d. split_and!; [done..|]. by destruct (lock_ d).
    + right. cbn. split; [|done]. intros b d [-> |Hb]%elem_of_cons Hd; [congruence|by eapply Hno].
Qed.
End RunQueues.

(** ** The registry and the queues agree

    [pooled c]: the policy keeps the routine in the shared queues.  Those hold
    exactly the registered pooled routines, each once, in the queue of its
    group and priority. *)
Module Pool.
Import RunQueues.
Section pool.
Context (pooled : CRoutine.t → Prop).

Record pool_ok (ids : gmap Z nat) (h : heap) (gs : gmap string (list (list nat))) : Prop := {
  po_full : full gs;
  po_ids : ∀ id a, ids !! id = Some a → ∃ c, h !! a = Some c ∧ CRoutine.id_ c = id;
  po_prio : ∀ id a c, ids !! id = Some a → h !! a = Some c → pooled c → 0 <= priority_ c < MAX_PRIO;
  po_queue : ∀ g prio a, a ∈ queue gs g prio ↔
    ∃ c, h !! a = Some c ∧ ids !! CRoutine.id_ c = Some a ∧ pooled c ∧ group_name_ c = g ∧
      Z.to_nat (priority_ c) = prio;
  po_nodup : ∀ g prio, NoDup (queue gs g prio);
}.

Context (pooled_same : ∀ c c', same_identity c c' → pooled c → pooled c').

(** Running routines and setting their flags do not disturb the agreement. *)
Lemma pool_ok_update ids h gs a c c' :
  pool_ok ids h gs → h !! a = Some c → same_identity c c' → pool_ok ids (<[a := c']> h) gs.
Proof.
  intros [Hf Hi Hp Hq Hn] Hc Hsame. pose proof Hsame as (Eid & Epr & Egr & _).
  split; [done| | | |done].
  - intros id b Hb. destruct (Hi id b Hb) as (d & Hd & Hid). rewrite lookup_insert. case_decide; [|by eauto].
    subst. exists c'. split; [done|]. congruence.
  - intros id b d Hb. rewrite lookup_insert. case_decide as Hab; [|by eapply Hp].
    subst. intros [= <-] Hpd. rewrite Epr. eapply Hp; [done..|]. eauto using same_identity_sym.
  - intros g prio b. rewrite Hq. rewrite lookup_insert. case_decide as Hab; [subst|done].
    split; intros (d & Hd & Hid & Hpd & Hg & Hpr); simplify_eq.
    + exists c'. rewrite Eid, Egr, Epr. split_and!; eauto.
    + exists c. rewrite Eid in Hid. rewrite Egr, Epr. split_and!; eauto using same_identity_sym.
Qed.

Lemma pool_ok_new ids h gs a c : pool_ok ids h gs → h !! a = None → pool_ok ids (<[a := c]> h) gs.
Proof.
  intros [Hf Hi Hp Hq Hn] Ha.
  assert (∀ id, ids !! id ≠ Some a) as Hfree by (intros id Hid; apply Hi in Hid as (d & ? & _); congruence).
  split; [done| | | |done].
  - intros id b Hb. rewrite lookup_insert_ne by (intros ->; by eapply Hfree). by apply Hi.
  - intros id b d Hb. rewrite lookup_insert_ne by (intros ->; by eapply Hfree). by apply (Hp id).
  - intros g prio b. rewrite Hq. rewrite lookup_insert. case_decide as Hab; [subst|done].
    split; intros (d & Hd & Hid & _); [congruence|by apply Hfree in Hid].
Qed.

(** A routine that no id leads to may change at will. *)
Lemma pool_ok_private ids h gs a c : pool_ok ids h gs → (∀ id, ids !! id ≠ Some a) → pool_ok ids (<[a := c]> h) gs.
Proof.
  intros [Hf Hi Hp Hq Hn] Hfree. split; [done| | | |done].
  - intros id b Hb. rewrite lookup_insert_ne by (intros ->; by eapply Hfree). by apply Hi.
  - intros id b d Hb. rewrite lookup_insert_ne by (intros ->; by eapply Hfree). by apply (Hp id).
  - intros g prio b. rewrite Hq. rewrite lookup_insert. case_decide as Hab; [subst|done].
    split; intros (d & Hd & Hid & _); by apply Hfree in Hid.
Qed.

(** Registering a routine. *)
Lemma pool_ok_add ids h gs a c gs' :
  pool_ok ids h gs → h !! a = Some c → ids !! CRoutine.id_ c = None → pooled c → 0 <= priority_ c < MAX_PRIO →
  emplace_back (group_name_ c) (priority_ c) a gs = Some gs' → pool_ok (<[CRoutine.id_ c := a]> ids) h gs'.
Proof.
  intros [Hf Hi Hp Hq Hn] Hc Hnew Hpool Hprio E.
  destruct (emplace_back_spec (group_name_ c) (priority_ c) a gs Hf Hprio) as (gs1 & E1 & Hf' & Hqs).
  rewrite E in E1. simplify_eq. split; [done| | | |].
  - intros id b. rewrite lookup_insert. case_decide; [intros; simplify_eq; eauto|apply Hi].
  - intros id b d. rewrite lookup_insert. case_decide; [intros; simplify_eq; done|apply Hp].
  - intros g prio b. rewrite Hqs. destruct (decide (b = a)) as [-> |Hb].
    + case_decide as Hd.
      * destruct Hd as [<- <-]. rewrite elem_of_app, list_elem_of_singleton. split; [|by right].
        intros _. exists c. by rewrite lookup_insert_eq.
      * rewrite Hq. split; intros (d & Hd' & Hid & Hpd & Hg & Hpr); simplify_eq.
        destruct Hd. done.
    + transitivity (b ∈ queue gs g prio).
      { case_decide; [|done]. rewrite elem_of_app, list_elem_of_singleton. naive_solver. }
      rewrite Hq. split; intros (d & Hd & Hid & Hrest); exists d; destruct Hrest as (? & ? & ?); (split_and!; [done| |done|done|done]).
      * rewrite lookup_insert_ne; [done|]. intros Heq. congruence.
      * rewrite lookup_insert in Hid. case_decide; [congruence|done].
  - intros g prio. rewrite Hqs. case_decide as Hd; [|done]. apply NoDup_app. split_and!; [done| |apply NoDup_singleton].
    intros b Hb ->%list_elem_of_singleton. apply Hq in Hb as (d & Hd' & Hid & _). simplify_eq.
Qed.

(** Registering a routine that the policy keeps elsewhere. *)
Lemma pool_ok_add_out ids h gs a c :
  pool_ok ids h gs → h !! a = Some c → ids !! CRoutine.id_ c = None → ¬ pooled c →
  pool_ok (<[CRoutine.id_ c := a]> ids) h gs.
Proof.
  intros [Hf Hi Hp Hq Hn] Hc Hnew Hpool. split; [done| | | |done].
  - intros id b. rewrite lookup_insert. case_decide; [intros; simplify_eq; eauto|apply Hi].
  - intros id b d. rewrite lookup_insert. case_decide; [intros; simplify_eq; done|apply Hp].
  - intros g prio b. rewrite Hq. split; intros (d & Hd & Hid & Hpd & Hrest); exists d; destruct Hrest; (split_and!; [done| |done|done|done]).
    + rewrite lookup_insert_ne; [done|]. intros Heq. congruence.
    + rewrite lookup_insert in Hid. case_decide; [|done]. simplify_eq. by destruct Hpool.
Qed.

(** Forgetting a routine that is not pooled. *)
Lemma pool_ok_remove_out ids h gs a c :
  pool_ok ids h gs → h !! a = Some c → ids !! CRoutine.id_ c = Some a → ¬ pooled c →
  pool_ok (delete (CRoutine.id_ c) ids) h gs.
Proof.
  intros [Hf Hi Hp Hq Hn] Hc Hid Hpool. split; [done| | | |done].
  - intros id b. rewrite lookup_delete. case_decide; [done|apply Hi].
  - intros id b d. rewrite lookup_delete. case_decide; [done|apply Hp].
  - intros g prio b. rewrite Hq. split; intros (d & Hd & Hidd & Hpd & Hrest); exists d; destruct Hrest; (split_and!; [done| |done|done|done]).
    + rewrite lookup_delete_ne; [done|]. intros Heq. rewrite <-Heq in Hidd. simplify_eq. done.
    + rewrite lookup_delete in Hidd. by case_decide.
Qed.

Lemma erase_spec crid ids h gs a c :
  pool_ok ids h gs → h !! a = Some c → ids !! crid = Some a → pooled c →
  ∃ gs', erase crid (group_name_ c) (priority_ c) gs h =
      (if lock_ c then None else Some (true, gs', <[a := Stop c]> h)) ∧
    pool_ok (delete crid ids) (<[a := Stop c]> h) gs'.
Proof.
  intros [Hf Hi Hp Hq Hn] Hc Hid Hpool.
  pose proof (Hp _ _ _ Hid Hc Hpool) as Hprio.
  destruct (Hi _ _ Hid) as (c0 & Hc0 & Hcid). simplify_eq.
  set (prio := Z.to_nat (priority_ c)).
  assert (prio < ClassicContext.MAX_PRIO)%nat as Hlt by (unfold prio, MAX_PRIO in *; cbv [ClassicContext.MAX_PRIO]; lia).
  set (l := queue gs (group_name_ c) prio).
  assert (∀ b d, b ∈ l → h !! b = Some d → ids !! CRoutine.id_ d = Some b) as Hl.
  { intros b d Hb Hd. apply Hq in Hb as (d' & Hd' & Hidd & _). congruence. }
  assert (a ∈ l) as Ha by (apply Hq; exists c; by split_and!).
  destruct (erase_loop_spec (CRoutine.id_ c) l h) as [(l1 & b & l2 & d & El & Hd & Hdid & E)|[Hno _]].
  { intros b Hb. apply Hq in Hb as (d & -> & _). by eexists. }
  2: { by destruct (Hno a c Ha Hc). }
  assert (b = a) as ->.
  { assert (ids !! CRoutine.id_ d = Some b) as Hb by (apply Hl; [rewrite El; set_solver|done]). congruence. }
  assert (d = c) as -> by congruence. unfold erase. rewrite queue_lookup by done. fold prio. fold l. cbn. rewrite E. cbn.
  exists (set_queue (group_name_ c) prio (l1 ++ l2) gs). split; [by destruct (lock_ c)|].
  pose proof (Hn (group_name_ c) prio) as Hnl. fold l in Hnl. rewrite El in Hnl.
  apply NoDup_app in Hnl as (Hn1 & Hn12 & [Han2 Hn2]%NoDup_cons).
  assert (∀ b, b ∈ l1 ++ l2 ↔ b ∈ l ∧ b ≠ a) as Hmem.
  { intros b. rewrite El, !elem_of_app, elem_of_cons. split; [|naive_solver].
    intros [Hb|Hb]; (split; [by auto|intros ->]); [|done]. apply (Hn12 a Hb), elem_of_cons. by left. }
  split.
  - by apply set_queue_full.
  - intros id b. rewrite lookup_delete. case_decide; [done|]. intros Hb.
    destruct (Hi _ _ Hb) as (d' & Hd' & Hid'). rewrite lookup_insert_ne by (intros ->; congruence). eauto.
  - intros id b d'. rewrite lookup_delete. case_decide; [done|]. intros Hb.
    rewrite lookup_insert_ne by (intros ->; destruct (Hi _ _ Hb) as (? & ? & ?); congruence). by eapply Hp.
  - intros g prio' b. rewrite queue_set_queue by done. destruct (decide (b = a)) as [-> |Hba].
    + split.
      * case_decide as Hcase; [rewrite Hmem; naive_solver|]. rewrite Hq.
        intros (d' & Hd' & _ & _ & Hg & Hpr). simplify_eq. by destruct Hcase.
      * rewrite lookup_insert_eq. intros (d' & [= <-] & Hidd & _). cbn in Hidd. by rewrite lookup_delete_eq in Hidd.
    + transitivity (b ∈ queue gs g prio').
      { case_decide as Hcase; [|done]. destruct Hcase as [<- <-]. fold l. rewrite Hmem. naive_solver. }
      rewrite Hq. rewrite lookup_insert_ne by done.
      split; intros (d' & Hd' & Hidd & Hrest); exists d'; destruct Hrest as (? & ? & ?); (split_and!; [done| |done|done|done]).
      * rewrite lookup_delete_ne; [done|]. intros Heq. congruence.
      * rewrite lookup_delete in Hidd. by case_decide.
  - intros g prio'. rewrite queue_set_queue by done. case_decide; [|done].
    apply NoDup_app. split_and!; [done| |done]. intros b Hb1 Hb2. apply (Hn12 b Hb1), elem_of_cons. by right.
Qed.
End pool.
End Pool.

(** Does [NotifyProcessor] set the flag? *)
Definition waiting (c : CRoutine.t) : bool :=
  bool_decide (state_ c = DATA_WAIT) || bool_decide (state_ c = IO_WAIT).

Definition flag (a : nat) (c : CRoutine.t) (s : sched) : sched :=
  if waiting c then set_crs (<[a := SetUpdateFlag c]> (crs s)) s else s.

(** ** [SchedulerClassic] *)
Module SchedulerClassic.
Import RunQueues Pool.

(** [cr_confs_]: priority and group by task name; [groups]: the names of the
    configured groups. *)
Record conf := mkconf {
  cr_confs_ : gmap string (N * string);
  groups : list string;
}.

Section classic.
Context (cf : conf).

(** Priority and group of a new routine; a configuration without a group is out
    of the array. *)
Definition configure (c : CRoutine.t) : option CRoutine.t :=
  c1 ← match cr_confs_ cf !! CRoutine.name_ c with
       | Some (prio, g) => Some (set_group_name g (set_priority (Z.of_N prio) c))
       | None => g ← head (groups cf); Some (set_group_name g c)
       end;
  Some (if MAX_PRIO <=? priority_ c1 then set_priority (MAX_PRIO - 1) c1 else c1).

Definition DispatchTask (a : nat) (s : sched) : option (bool * sched) :=
  c ← crs s !! a;
  match id_cr_ s !! CRoutine.id_ c with
  | Some _ => Some (false, s)
  | None =>
      let s := set_id_cr (<[CRoutine.id_ c := a]> (id_cr_ s)) s in
      c ← configure c;
      gs ← emplace_back (group_name_ c) (priority_ c) a (cr_group_ s);
      Some (true, add_signal (SGroup (group_name_ c)) (set_groups gs (set_crs (<[a := c]> (crs s)) s)))
  end.

Definition NotifyProcessor (crid : Z) (s : sched) : option (bool * sched) :=
  if stop_ s then Some (true, s)
  else
    match id_cr_ s !! crid with
    | Some a => c ← crs s !! a; Some (true, add_signal (SGroup (group_name_ c)) (flag a c s))
    | None => Some (false, s)
    end.

Definition RemoveCRoutine (crid : Z) (s : sched) : option (bool * sched) :=
  match id_cr_ s !! crid with
  | None => Some (false, s)
  | Some a =>
      c ← crs s !! a;
      let s := set_id_cr (delete crid (id_cr_ s)) (set_crs (<[a := Stop c]> (crs s)) s) in
      '(ok, gs, h) ← erase crid (group_name_ c) (priority_ c) (cr_group_ s) (crs s);
      Some (ok, set_groups gs (set_crs h s))
  end.

#[export] Instance policy : Policy :=
  { DispatchTask := DispatchTask; NotifyProcessor := NotifyProcessor; RemoveCRoutine := RemoveCRoutine }.

Definition pooled (_ : CRoutine.t) : Prop := True.
Definition wf (s : sched) : Prop := pool_ok pooled (id_cr_ s) (crs s) (cr_group_ s).

Lemma classic_configure_spec c :
  groups cf ≠ [] → 0 <= priority_ c →
  ∃ c', configure c = Some c' ∧ CRoutine.id_ c' = CRoutine.id_ c ∧ lock_ c' = lock_ c ∧ 0 <= priority_ c' < MAX_PRIO.
Proof.
  intros Hg Hp. unfold configure. destruct (groups cf) as [|g gs]; [done|]. unfold MAX_PRIO.
  destruct (cr_confs_ cf !! CRoutine.name_ c) as [[prio g']|]; cbn -[Z.leb];
    eexists; (split; [done|]); match goal with |- context [20 <=? ?x] => destruct (Z.leb_spec 20 x) end; cbn in *; (split_and!; [done|done|lia|lia]).
Qed.

Lemma classic_pooled_same c c' : same_identity c c' → pooled c → pooled c'.
Proof. done. Qed.

Lemma registered_once s a c id :
  wf s → crs s !! a = Some c → id_cr_ s !! CRoutine.id_ c = None → id_cr_ s !! id ≠ Some a.
Proof. intros Hwf Hc Hn Hid. destruct (po_ids _ _ _ _ Hwf _ _ Hid) as (d & ? & ?). congruence. Qed.

Lemma classic_remove_spec s id a c :
  wf s → id_cr_ s !! id = Some a → crs s !! a = Some c →
  ∃ gs, let s' := set_groups gs (set_crs (<[a := Stop (Stop c)]> (<[a := Stop c]> (crs s))) (set_id_cr (delete id (id_cr_ s)) s)) in
    RemoveCRoutine id s = (if lock_ c then None else Some (true, s')) ∧ wf s'.
Proof.
  intros Hwf Hid Hc.
  assert (pool_ok pooled (id_cr_ s) (<[a := Stop c]> (crs s)) (cr_group_ s)) as Hwf1.
  { eapply pool_ok_update; [exact classic_pooled_same|done|done|done]. }
  destruct (erase_spec pooled classic_pooled_same id (id_cr_ s) (<[a := Stop c]> (crs s)) (cr_group_ s) a (Stop c))
    as (gs & E & Hwf2); [done|by rewrite lookup_insert_eq|done|done|].
  exists gs. split; [|exact Hwf2]. unfold RemoveCRoutine. rewrite Hid, Hc. cbn. cbn in E. rewrite E. by destruct (lock_ c).
Qed.

#[export] Instance laws : groups cf ≠ [] → PolicyLaws policy wf.
Proof.
  intros Hgroups. split.
  - intros s Hwf. exact (po_ids _ _ _ _ Hwf).
  - intros s a c. apply pool_ok_new.
  - done.
  - done.
  - intros s a c c' Hwf Hc Hs. by eapply pool_ok_update; [exact classic_pooled_same|..].
  - intros s a c Hwf Hc _ Hp Hn. destruct (classic_configure_spec c Hgroups Hp) as (c' & Ec & Eid & El & Hp').
    assert (pool_ok pooled (id_cr_ s) (<[a := c']> (crs s)) (cr_group_ s)) as Hwf1.
    { apply pool_ok_private; [done|]. intros id. by eapply registered_once. }
    destruct (emplace_back_spec (group_name_ c') (priority_ c') a (cr_group_ s)) as (gs & Eg & _);
      [by apply (po_full _ _ _ _ Hwf)|done|].
    cbn. unfold DispatchTask. rewrite Hc. cbn. rewrite Hn, Ec. cbn. rewrite Eg. cbn.
    eexists. split_and!; [done| |done|done|done|].
    + rewrite <-Eid in *. eapply pool_ok_add; [exact Hwf1|cbn; by rewrite lookup_insert_eq|done|done|done|done].
    + intros Hu b d. cbn. rewrite lookup_insert. case_decide; [|apply Hu]. intros [= <-]. rewrite El. by eapply Hu.
  - intros s a c Hwf Hc [b Hb] _. exists s. cbn. unfold DispatchTask. rewrite Hc. cbn. rewrite Hb. by split_and!.
  - intros s id a c Hwf Hid Hc Hl. destruct (classic_remove_spec s id a c Hwf Hid Hc) as (gs & E & Hwf2).
    rewrite Hl in E. eexists. split_and!; [exact E|exact Hwf2| |done..|].
    + intros Hu b d. cbn. rewrite !lookup_insert. repeat case_decide; [intros [= <-]; exact Hl|apply Hu].
    + intros d. cbn. rewrite lookup_insert_eq. by intros [= <-].
  - intros s id a c Hwf Hid Hc Hl. destruct (classic_remove_spec s id a c Hwf Hid Hc) as (gs & E & _). by rewrite Hl in E.
  - intros s id Hwf Hid. cbn. unfold RemoveCRoutine. by rewrite Hid.
  - intros s id a c Hwf Hst Hid Hc. cbn. unfold NotifyProcessor. rewrite Hst, Hid, Hc. cbn. unfold flag.
    eexists. split_and!; [done| | | | |]; unfold waiting; destruct (_ || _); try done.
    unfold wf. cbn. eapply pool_ok_update; [exact classic_pooled_same|done|done|done].
  - intros s id Hwf Hst Hid. cbn. unfold NotifyProcessor. by rewrite Hst, Hid.
Qed.

Definition initial : sched := mk false ∅ ∅ ∅ ∅ [] [] [].

Lemma classic_initial_wf : wf initial.
Proof.
  split.
  - intros g. unfold ClassicContext.group_queues. cbn. by rewrite lookup_empty.
  - intros id a. cbn. by rewrite lookup_empty.
  - intros id a c. cbn. by rewrite lookup_empty.
  - intros g prio a. cbn [cr_group_ initial]. rewrite queue_empty.
    split; [by intros []%elem_of_nil|]. intros (c & Hc & _). cbn in Hc. by rewrite lookup_empty in Hc.
  - intros g prio. cbn [cr_group_ initial]. rewrite queue_empty. constructor.
Qed.

(** C20: the classic scheduler keeps track of its tasks.  Whatever clients
    create, remove and notify while processors run the routines, the queues
    that the processors walk hold exactly the registered routines, each once
    and in the queue of its group and priority, which is below [MAX_PRIO]; and
    every registered routine is found under its own id, whose name is known. *)
Theorem classic_queues_agree hash s g prio a :
  groups cf ≠ [] → reachable (Tasks.step hash) initial s →
  (a ∈ queue (cr_group_ s) g prio ↔
     ∃ c, crs s !! a = Some c ∧ id_cr_ s !! CRoutine.id_ c = Some a ∧ group_name_ c = g ∧
       Z.to_nat (priority_ c) = prio) ∧
  NoDup (queue (cr_group_ s) g prio) ∧
  (∀ id, id_cr_ s !! id = Some a → ∃ c n, crs s !! a = Some c ∧ CRoutine.id_ c = id ∧
     0 <= priority_ c < MAX_PRIO ∧ task_id_map_ s !! id = Some n ∧ id = GlobalData.GenerateHashId hash n).
Proof.
  intros Hg Hr. pose proof (laws Hg) as L.
  destruct (Tasks.tasks_reachable hash wf initial s classic_initial_wf) as [[Hf Hi Hp Hq Hn] [Hids Hnm]]; [|done|].
  { split; [intros i n; cbn; by rewrite lookup_empty|]. intros i. cbn. rewrite lookup_empty. by intros []. }
  split_and!.
  - rewrite Hq. split; intros (c & Hc & Hid & Hrest); exists c; unfold pooled in *; intuition.
  - apply Hn.
  - intros id Hid. destruct (Hi id a Hid) as (c & Hc & Hcid). destruct (Hnm id) as [n Hnid]; [by eexists|].
    exists c, n. destruct (Hp id a c Hid Hc I). split_and!; try done. by eapply Hids.
Qed.
End classic.

Definition demo_conf : conf := mkconf {["cam" := (25%N, "g2"%string)]} ["g1"; "g2"]%string.
Definition demo_trace : list Tasks.label :=
  [Tasks.LCreate 0 "cam" true; Tasks.LCreate 0 "lidar" true; Tasks.LCreate 0 "cam" false;
   Tasks.LNotify 3; Tasks.LRemove "lidar"].

Lemma classic_queues_agree_witness :
  ∃ s, run (Tasks.step (P := policy demo_conf) GlobalData.demo_hash) demo_trace initial = Some s ∧
    id_cr_ s = {[3 := 0%nat]} ∧ queue (cr_group_ s) "g2" 19 = [0%nat] ∧ NoDup (queue (cr_group_ s) "g2" 19).
Proof.
  eexists. split_and!; [vm_compute; reflexivity|vm_compute; reflexivity|vm_compute; reflexivity|].
  eapply (classic_queues_agree demo_conf GlobalData.demo_hash _ "g2" 19 0%nat); [done|].
  apply (run_reachable _ _ demo_trace). vm_compute. reflexivity.
Defined.
End SchedulerClassic.

(** [scheduler_tasks] on the classic scheduler. *)
Definition two_processors : sched :=
  set_processors [mkproc true true; mkproc true true] SchedulerClassic.initial.

Lemma scheduler_tasks_witness :
  (∃ s1, Scheduler.CreateTask (P := SchedulerClassic.policy SchedulerClassic.demo_conf) GlobalData.demo_hash 0 "cam"
    true two_processors = Some (true, Some 3, s1) ∧ id_cr_ s1 = {[3 := 0%nat]}) ∧
  (∃ s1, Scheduler.Shutdown (P := SchedulerClassic.policy SchedulerClassic.demo_conf) (λ _, true) two_processors = Some s1 ∧
    processors_ s1 = []) ∧
  Scheduler.Shutdown (P := SchedulerClassic.policy SchedulerClassic.demo_conf) (λ i, i =? 0)%nat two_processors = None.
Proof.
  pose proof (SchedulerClassic.laws SchedulerClassic.demo_conf ltac:(done)) as L.
  assert (GlobalData.RegisterTaskName GlobalData.demo_hash "cam" ∅ = Some (3, {[3 := "cam"%string]})) as Hr
    by (vm_compute; reflexivity).
  destruct (Scheduler.scheduler_tasks (P := SchedulerClassic.policy SchedulerClassic.demo_conf) GlobalData.demo_hash SchedulerClassic.wf 0 "cam" true
    two_processors 3 {[3 := "cam"%string]} SchedulerClassic.classic_initial_wf eq_refl Hr) as (H1 & _ & H3).
  assert (unheld two_processors) as Hu by (intros a c; cbn; by rewrite lookup_empty).
  split; [|split].
  - destruct H1 as (s1 & E & _ & Hid & _); [reflexivity|]. exists s1. split; [exact E|]. rewrite Hid. reflexivity.
  - destruct (proj1 (H3 Hu (λ _, true))) as (s1 & E & _ & _ & Hp & _); [done|]. exists s1. split; [exact E|exact Hp].
  - apply (proj2 (H3 Hu _)). exists 1%nat, (mkproc true true). split_and!; reflexivity.
Defined.

(** ** [SchedulerChoreography] *)
Module SchedulerChoreography.
Import RunQueues Pool.

(** [cr_confs_]: priority and, if set, processor by task name. *)
Record conf := mkconf {
  cr_confs_ : gmap string (N * option Z);
  proc_num_ : Z;
}.

Section choreography.
Context (cf : conf).

Definition configure (c : CRoutine.t) : CRoutine.t :=
  match cr_confs_ cf !! CRoutine.name_ c with
  | Some (prio, proc) =>
      let c := set_priority (Z.of_N prio) c in
      match proc with Some p => set_processor_id p c | None => c end
  | None => c
  end.

(** [static_cast<ChoreographyContext*>(pctxs_[pid].get())]: out of the vector, or
    on a context of the other class, the behaviour is undefined. *)
Definition choreography_ctx (pid : Z) (s : sched) : option (nat * ChoreographyContext.t) :=
  if bool_decide (0 <= pid) then
    match pctxs_ s !! Z.to_nat pid with
    | Some (Choreography ctx) => Some (Z.to_nat pid, ctx)
    | _ => None
    end
  else None.

Definition set_ctx (i : nat) (ctx : ChoreographyContext.t) (s : sched) : sched :=
  set_pctxs (<[i := Choreography ctx]> (pctxs_ s)) s.

Definition DispatchTask (a : nat) (s : sched) : option (bool * sched) :=
  c ← crs s !! a;
  let c := configure c in
  let s := set_crs (<[a := c]> (crs s)) s in
  match id_cr_ s !! CRoutine.id_ c with
  | Some _ => Some (false, s)
  | None =>
      let s := set_id_cr (<[CRoutine.id_ c := a]> (id_cr_ s)) s in
      let pid := u32 (processor_id_ c) in
      if pid <? proc_num_ cf then
        '(i, ctx) ← choreography_ctx pid s;
        Some (true, set_ctx i (ChoreographyContext.Enqueue (priority_ c) a ctx).2 s)
      else
        let c := if MAX_PRIO <=? priority_ c then set_priority (MAX_PRIO - 1) c else c in
        let c := set_group_name ClassicContext.DEFAULT_GROUP_NAME c in
        gs ← emplace_back ClassicContext.DEFAULT_GROUP_NAME (priority_ c) a (cr_group_ s);
        Some (true, set_groups gs (set_crs (<[a := c]> (crs s)) s))
  end.

Definition RemoveCRoutine (crid : Z) (s : sched) : option (bool * sched) :=
  match id_cr_ s !! crid with
  | None => Some (false, s)
  | Some a =>
      c ← crs s !! a;
      let pid := processor_id_ c in
      let s := set_id_cr (delete crid (id_cr_ s)) (set_crs (<[a := Stop c]> (crs s)) s) in
      if pid =? -1 then
        '(ok, gs, h) ← erase crid (group_name_ c) (priority_ c) (cr_group_ s) (crs s);
        Some (ok, set_groups gs (set_crs h s))
      else
        '(i, ctx) ← choreography_ctx pid s;
        '(ctx, h) ← ChoreographyContext.RemoveCRoutine crid ctx (crs s);
        Some (true, set_ctx i ctx (set_crs h s))
  end.

Definition NotifyProcessor (crid : Z) (s : sched) : option (bool * sched) :=
  if stop_ s then Some (true, s)
  else
    match id_cr_ s !! crid with
    | None => Some (false, s)
    | Some a =>
        c ← crs s !! a;
        let s := flag a c s in
        if negb (processor_id_ c =? -1) then
          '(i, ctx) ← choreography_ctx (processor_id_ c) s;
          let '(wake, ctx) := ChoreographyContext.Notify ctx in
          let s := set_ctx i ctx s in
          Some (true, if wake then add_signal (SContext i) s else s)
        else Some (true, add_signal (SGroup (group_name_ c)) s)
    end.

#[export] Instance policy : Policy :=
  { DispatchTask := DispatchTask; NotifyProcessor := NotifyProcessor; RemoveCRoutine := RemoveCRoutine }.

(** The configuration sends tasks to existing processors, or leaves them to the
    pool. *)
Definition conf_ok : Prop :=
  0 <= proc_num_ cf < 2 ^ 31 ∧
  ∀ name prio p, cr_confs_ cf !! name = Some (prio, Some p) → p = -1 ∨ 0 <= p < proc_num_ cf.

Definition pooled (c : CRoutine.t) : Prop := processor_id_ c = -1.

(** Registered, and bound to processor [i] with priority [p]. *)
Definition bound (ids : gmap Z nat) (h : heap) (i : nat) (p : Z) (a : nat) : Prop :=
  ∃ c, h !! a = Some c ∧ ids !! CRoutine.id_ c = Some a ∧ processor_id_ c = Z.of_nat i ∧ priority_ c = p.

Record ctx_ok (ids : gmap Z nat) (h : heap) (i : nat) (ctx : ChoreographyContext.t) : Prop := {
  co_sorted : ChoreographyProofs.sorted (ChoreographyContext.cr_queue_ ctx);
  co_nodup : NoDup (ChoreographyContext.cr_queue_ ctx);
  co_bound : ∀ p a, (p, a) ∈ ChoreographyContext.cr_queue_ ctx ↔ bound ids h i p a;
}.

Record wf (s : sched) : Prop := {
  cw_pool : pool_ok pooled (id_cr_ s) (crs s) (cr_group_ s);
  cw_pid : ∀ id a c, id_cr_ s !! id = Some a → crs s !! a = Some c →
    processor_id_ c = -1 ∨ 0 <= processor_id_ c < proc_num_ cf;
  cw_ctx : ∀ i, Z.of_nat i < proc_num_ cf →
    ∃ ctx, pctxs_ s !! i = Some (Choreography ctx) ∧ ctx_ok (id_cr_ s) (crs s) i ctx;
  cw_rest : ∀ i ctx, pctxs_ s !! i = Some (Choreography ctx) → Z.of_nat i < proc_num_ cf;
}.

Lemma choreography_pooled_same c c' : same_identity c c' → pooled c → pooled c'.
Proof. unfold pooled. by intros (_ & _ & _ & -> & _). Qed.

Lemma bound_update ids h i p b a c c' :
  h !! a = Some c → same_identity c c' → bound ids (<[a := c']> h) i p b ↔ bound ids h i p b.
Proof.
  intros Hc (Eid & Epr & _ & Epid & _). unfold bound. rewrite lookup_insert. case_decide; [subst b|done].
  split; intros (d & Hd & Hrest); simplify_eq; eexists; (split; [done|]); by rewrite Eid, Epr, Epid in *.
Qed.

Lemma bound_private ids h i p b a c :
  (∀ id, ids !! id ≠ Some a) → bound ids (<[a := c]> h) i p b ↔ bound ids h i p b.
Proof.
  intros Hfree. unfold bound. rewrite lookup_insert. case_decide; [subst b|done].
  split; intros (d & _ & Hid & _); by apply Hfree in Hid.
Qed.

Lemma bound_add ids h i p b a c :
  h !! a = Some c → ids !! CRoutine.id_ c = None →
  bound (<[CRoutine.id_ c := a]> ids) h i p b ↔
    bound ids h i p b ∨ (b = a ∧ processor_id_ c = Z.of_nat i ∧ priority_ c = p).
Proof.
  intros Hc Hn. unfold bound. split.
  - intros (d & Hd & Hid & Hp & Hpr). rewrite lookup_insert in Hid. case_decide; [right|left; eauto].
    simplify_eq. done.
  - intros [(d & Hd & Hid & Hrest)|(-> & Hp & Hpr)].
    + exists d. split_and!; try apply Hrest; [done|]. rewrite lookup_insert_ne; [done|]. intros E. congruence.
    + exists c. by rewrite lookup_insert_eq.
Qed.

Lemma bound_delete ids h i p b a c :
  h !! a = Some c → ids !! CRoutine.id_ c = Some a →
  bound (delete (CRoutine.id_ c) ids) h i p b ↔ bound ids h i p b ∧ b ≠ a.
Proof.
  intros Hc Hid. unfold bound. split.
  - intros (d & Hd & Hidd & Hrest). rewrite lookup_delete in Hidd. case_decide as E; [done|].
    split; [by exists d|]. intros ->. simplify_eq.
  - intros [(d & Hd & Hidd & Hrest) Hb]. exists d. split_and!; try apply Hrest; [done|].
    rewrite lookup_delete_ne; [done|]. intros E. congruence.
Qed.

(** Contexts do not change when the bound routines do not. *)
Lemma ctx_ok_ext ids h ids' h' i ctx :
  (∀ p a, bound ids' h' i p a ↔ bound ids h i p a) → ctx_ok ids h i ctx → ctx_ok ids' h' i ctx.
Proof. intros H [Hs Hn Hb]. split; [done|done|]. intros p a. by rewrite H. Qed.

Lemma remove_loop_case crid q (h : heap) :
  (∀ p a, (p, a) ∈ q → is_Some (h !! a)) →
  (∃ q1 p a q2 c, q = q1 ++ (p, a) :: q2 ∧ h !! a = Some c ∧ CRoutine.id_ c = crid ∧
     ChoreographyContext.remove_loop crid q h = if lock_ c then None else Some (q1 ++ q2, <[a := Stop c]> h)) ∨
  ((∀ p a c, (p, a) ∈ q → h !! a = Some c → CRoutine.id_ c ≠ crid)).
Proof.
  induction q as [|[p a] q IH]; intros Hall; cbn.
  { right. intros p a c []%elem_of_nil. }
  destruct (Hall p a) as [c Hc]; [apply elem_of_cons; by left|]. rewrite Hc. cbn.
  destruct (Z.eqb_spec (CRoutine.id_ c) crid) as [He|He].
  - left. exists [], p, a, q, c. split_and!; try done. destruct (lock_ c) eqn:Hl; cbn; [done|]. do 3 f_equal.
    destruct c; cbn in *; by subst.
  - destruct IH as [(q1 & p' & b & q2 & d & -> & Hd & Hid & ->)|Hno].
    + intros p' b Hb. eapply Hall, elem_of_cons. by right.
    + left. exists ((p, a) :: q1), p', b, q2, d. split_and!; [done..|]. by destruct (lock_ d).
    + right. intros p' b d [[= -> ->]|Hb]%elem_of_cons Hd; [congruence|by eapply Hno].
Qed.

Lemma ctx_remove ids h i ctx a c :
  ctx_ok ids h i ctx → h !! a = Some c → ids !! CRoutine.id_ c = Some a → processor_id_ c = Z.of_nat i →
  ∃ ctx', ChoreographyContext.RemoveCRoutine (CRoutine.id_ c) ctx h =
      (if lock_ c then None else Some (ctx', <[a := Stop c]> h)) ∧
    ctx_ok (delete (CRoutine.id_ c) ids) h i ctx'.
Proof.
  intros [Hs Hn Hb] Hc Hid Hpid.
  destruct (remove_loop_case (CRoutine.id_ c) (ChoreographyContext.cr_queue_ ctx) h)
    as [(q1 & p & b & q2 & d & El & Hd & Hdid & E)|Hno].
  { intros p b Hpb. apply Hb in Hpb as (d & -> & _). by eexists. }
  2: { destruct (Hno (priority_ c) a c); [|done..]. apply Hb. exists c. by split_and!. }
  assert (b = a) as ->.
  { assert ((p, b) ∈ ChoreographyContext.cr_queue_ ctx) as (d' & Hd' & Hidd & _)%Hb by (rewrite El; set_solver).
    congruence. }
  assert (d = c) as -> by congruence.
  exists (ChoreographyContext.mk (q1 ++ q2) (ChoreographyContext.notified_ ctx) (ChoreographyContext.stop_ ctx)).
  split; [unfold ChoreographyContext.RemoveCRoutine; rewrite E; by destruct (lock_ c)|].
  assert (q1 ++ q2 `sublist_of` ChoreographyContext.cr_queue_ ctx) as Hsub.
  { rewrite El. apply sublist_app; [done|]. by constructor. }
  split; cbn.
  - by eapply ChoreographyProofs.sublist_sorted.
  - by eapply sublist_NoDup.
  - intros p' b. rewrite (bound_delete _ _ _ _ _ _ _ Hc Hid), <-Hb. split.
    + intros Hin. split; [by eapply elem_of_sublist|]. intros ->.
      assert (p' = p) as ->.
      { assert ((p', a) ∈ ChoreographyContext.cr_queue_ ctx) as (d1 & Hd1 & _ & _ & <-)%Hb by (by eapply elem_of_sublist).
        assert ((p, a) ∈ ChoreographyContext.cr_queue_ ctx) as (d2 & Hd2 & _ & _ & <-)%Hb by (rewrite El; set_solver).
        congruence. }
      rewrite El in Hn. apply NoDup_app in Hn as (_ & H1 & [H2 _]%NoDup_cons).
      apply elem_of_app in Hin as [Hin|Hin]; [|done]. apply (H1 _ Hin), elem_of_cons. by left.
    + rewrite El, !elem_of_app, elem_of_cons. intros [[?|[[= -> ->]|?]] ?]; auto. done.
Qed.

Lemma ctx_enqueue ids h i ctx a c :
  ctx_ok ids h i ctx → h !! a = Some c → ids !! CRoutine.id_ c = None → (∀ id, ids !! id ≠ Some a) →
  processor_id_ c = Z.of_nat i →
  ctx_ok (<[CRoutine.id_ c := a]> ids) h i (ChoreographyContext.Enqueue (priority_ c) a ctx).2.
Proof.
  intros [Hs Hn Hb] Hc Hnone Hfree Hpid. split; cbn.
  - by apply ChoreographyProofs.emplace_sorted.
  - rewrite ChoreographyProofs.emplace_perm. apply NoDup_cons. split; [|done].
    intros (d & _ & Hid & _)%Hb. by apply Hfree in Hid.
  - intros p b. rewrite ChoreographyProofs.emplace_perm, elem_of_cons, Hb, (bound_add _ _ _ _ _ _ _ Hc Hnone).
    split; [intros [[= -> ->]|]; auto|]. intros [|(-> & _ & <-)]; auto.
Qed.

(** The contexts, when only that of processor [i] and the routines bound to it
    changed. *)
Lemma ctxs_update s ids' h' i ctx' :
  (∀ j, Z.of_nat j < proc_num_ cf → ∃ ctx, pctxs_ s !! j = Some (Choreography ctx) ∧ ctx_ok (id_cr_ s) (crs s) j ctx) →
  Z.of_nat i < proc_num_ cf → ctx_ok ids' h' i ctx' →
  (∀ j p b, j ≠ i → bound ids' h' j p b ↔ bound (id_cr_ s) (crs s) j p b) →
  ∀ j, Z.of_nat j < proc_num_ cf →
    ∃ ctx, <[i := Choreography ctx']> (pctxs_ s) !! j = Some (Choreography ctx) ∧ ctx_ok ids' h' j ctx.
Proof.
  intros Hctx Hi Hok Hother j Hj. destruct (decide (j = i)) as [-> |Hji].
  - destruct (Hctx i Hi) as (ctx & Hl & _). exists ctx'. split; [|done].
    apply list_lookup_insert_eq. by eapply lookup_lt_Some.
  - destruct (Hctx j Hj) as (ctx & Hl & Hc). exists ctx. rewrite list_lookup_insert_ne by done. split; [done|].
    eapply ctx_ok_ext; [|done]. intros p a. by apply Hother.
Qed.

Lemma rest_update s i ctx' :
  (∀ j ctx, pctxs_ s !! j = Some (Choreography ctx) → Z.of_nat j < proc_num_ cf) → Z.of_nat i < proc_num_ cf →
  ∀ j ctx, <[i := Choreography ctx']> (pctxs_ s) !! j = Some (Choreography ctx) → Z.of_nat j < proc_num_ cf.
Proof. intros Hrest Hi j ctx [(-> & _ & _)|[_ Hj]]%list_lookup_insert_Some; [done|by eapply Hrest]. Qed.

Lemma choreography_ctx_spec s pid :
  wf s → 0 <= pid < proc_num_ cf →
  ∃ ctx, choreography_ctx pid s = Some (Z.to_nat pid, ctx) ∧ pctxs_ s !! Z.to_nat pid = Some (Choreography ctx) ∧
    ctx_ok (id_cr_ s) (crs s) (Z.to_nat pid) ctx.
Proof.
  intros Hwf Hp. destruct (cw_ctx s Hwf (Z.to_nat pid)) as (ctx & Hl & Hok); [lia|]. exists ctx.
  unfold choreography_ctx. rewrite bool_decide_true by lia. by rewrite Hl.
Qed.

Lemma wf_update s a c c' :
  wf s → crs s !! a = Some c → same_identity c c' → wf (set_crs (<[a := c']> (crs s)) s).
Proof.
  intros [Hpool Hpid Hctx Hrest] Hc Hs. split; cbn.
  - by eapply pool_ok_update; [exact choreography_pooled_same|..].
  - intros id b d Hid. rewrite lookup_insert. case_decide; [|by eapply Hpid].
    intros [= <-]. subst b. destruct Hs as (_ & _ & _ & -> & _). by eapply Hpid.
  - intros i Hi. destruct (Hctx i Hi) as (ctx & Hl & Hok). exists ctx. split; [done|].
    eapply ctx_ok_ext; [|done]. intros p b. by eapply bound_update.
  - exact Hrest.
Qed.

Lemma wf_private s a c :
  wf s → (∀ id, id_cr_ s !! id ≠ Some a) → wf (set_crs (<[a := c]> (crs s)) s).
Proof.
  intros [Hpool Hpid Hctx Hrest] Hfree. split; cbn.
  - by apply pool_ok_private.
  - intros id b d Hid. rewrite lookup_insert_ne; [by apply (Hpid id)|]. intros ->. by eapply Hfree.
  - intros i Hi. destruct (Hctx i Hi) as (ctx & Hl & Hok). exists ctx. split; [done|].
    eapply ctx_ok_ext; [|done]. intros p b. by apply bound_private.
  - exact Hrest.
Qed.

Lemma flag_wf s a c : wf s → crs s !! a = Some c → wf (flag a c s).
Proof. intros Hwf Hc. unfold flag. destruct (waiting c); [|done]. by eapply wf_update. Qed.

Lemma choreography_configure_spec c :
  conf_ok → processor_id_ c = -1 → 0 <= priority_ c →
  CRoutine.id_ (configure c) = CRoutine.id_ c ∧ lock_ (configure c) = lock_ c ∧ 0 <= priority_ (configure c) ∧
  (processor_id_ (configure c) = -1 ∨ 0 <= processor_id_ (configure c) < proc_num_ cf).
Proof.
  intros [_ Hconf] Hpid Hp. unfold configure.
  destruct (cr_confs_ cf !! CRoutine.name_ c) as [[prio [p|]]|] eqn:E; cbn; (split_and!; [done|done|lia|]); auto.
  by eapply Hconf.
Qed.

(** The two ways of [DispatchTask]. *)
Lemma dispatch_pool s a c :
  conf_ok → wf s → crs s !! a = Some c → id_cr_ s !! CRoutine.id_ c = None →
  processor_id_ (configure c) = -1 → 0 <= priority_ (configure c) → CRoutine.id_ (configure c) = CRoutine.id_ c →
  ∃ s' c', DispatchTask a s = Some (true, s') ∧ wf s' ∧ id_cr_ s' = <[CRoutine.id_ c := a]> (id_cr_ s) ∧
    stop_ s' = stop_ s ∧ task_id_map_ s' = task_id_map_ s ∧ crs s' = <[a := c']> (<[a := configure c]> (crs s)) ∧
    lock_ c' = lock_ (configure c).
Proof.
  intros [Hpn _] Hwf Hc Hnone Hpid Hprio Hid.
  assert (∀ id, id_cr_ s !! id ≠ Some a) as Hfree.
  { intros id Hida. destruct (po_ids _ _ _ _ (cw_pool s Hwf) _ _ Hida) as (d & ? & ?). congruence. }
  unfold DispatchTask. rewrite Hc. cbn. rewrite Hid, Hnone, Hpid.
  assert ((u32 (-1) <? proc_num_ cf) = false) as -> by (apply Z.ltb_ge; change (u32 (-1)) with (2 ^ 32 - 1); lia).
  set (c1 := configure c) in *. set (c2 := if MAX_PRIO <=? priority_ c1 then _ else c1).
  set (c3 := set_group_name ClassicContext.DEFAULT_GROUP_NAME c2).
  assert (0 <= priority_ c3 < MAX_PRIO ∧ CRoutine.id_ c3 = CRoutine.id_ c ∧ processor_id_ c3 = -1 ∧ lock_ c3 = lock_ c1 ∧
    group_name_ c3 = ClassicContext.DEFAULT_GROUP_NAME) as (Hp3 & Hid3 & Hpid3 & Hl3 & Hg3).
  { unfold c3, c2, MAX_PRIO. destruct (Z.leb_spec 20 (priority_ c1)); cbn; (split_and!; [lia|lia|done..]). }
  change (priority_ c2) with (priority_ c3). change (set_group_name _ c2) with c3. clearbody c3. clear c2.
  pose proof (wf_private (set_crs (<[a := c1]> (crs s)) s) a c3 (wf_private s a c1 Hwf Hfree) Hfree) as Hwf3.
  cbn in Hwf3. destruct Hwf3 as [Hpool Hpids Hctx Hrest]. cbn in *.
  destruct (emplace_back_spec ClassicContext.DEFAULT_GROUP_NAME (priority_ c3) a (cr_group_ s)) as (gs & Eg & _);
    [by apply (po_full _ _ _ _ (cw_pool s Hwf))|done|].
  rewrite Eg. cbn.
  eexists _, c3. split_and!; try done.
  assert (<[a := c3]> (<[a := c1]> (crs s)) !! a = Some c3) as Hc3 by (by rewrite lookup_insert_eq).
  rewrite <-Hid3 in Hnone |- * . split; cbn.
  - apply (pool_ok_add pooled (id_cr_ s) _ (cr_group_ s) a c3); [exact Hpool|exact Hc3|exact Hnone|exact Hpid3|exact Hp3|by rewrite Hg3].
  - intros id b d. rewrite lookup_insert. case_decide; [|by apply (Hpids id)].
    intros [= <-] Hd. left. congruence.
  - intros i Hi. destruct (Hctx i Hi) as (ctx & Hl & Hok). exists ctx. split; [done|].
    eapply ctx_ok_ext; [|done]. intros p b. rewrite (bound_add _ _ _ _ _ _ _ Hc3 Hnone).
    split; [|by left]. intros [|(_ & Hbad & _)]; [done|lia].
  - exact Hrest.
Qed.

Lemma dispatch_bound s a c :
  conf_ok → wf s → crs s !! a = Some c → id_cr_ s !! CRoutine.id_ c = None →
  0 <= processor_id_ (configure c) < proc_num_ cf → CRoutine.id_ (configure c) = CRoutine.id_ c →
  ∃ s', DispatchTask a s = Some (true, s') ∧ wf s' ∧ id_cr_ s' = <[CRoutine.id_ c := a]> (id_cr_ s) ∧
    stop_ s' = stop_ s ∧ task_id_map_ s' = task_id_map_ s ∧ crs s' = <[a := configure c]> (crs s).
Proof.
  intros [Hpn _] Hwf Hc Hnone Hpid Hid.
  assert (∀ id, id_cr_ s !! id ≠ Some a) as Hfree.
  { intros id Hida. destruct (po_ids _ _ _ _ (cw_pool s Hwf) _ _ Hida) as (d & ? & ?). congruence. }
  unfold DispatchTask. rewrite Hc. cbn. rewrite Hid, Hnone.
  rewrite u32_small by lia. assert ((processor_id_ (configure c) <? proc_num_ cf) = true) as -> by lia.
  set (c1 := configure c) in *.
  pose proof (wf_private s a c1 Hwf Hfree) as Hwf1.
  destruct (choreography_ctx_spec _ _ Hwf1 Hpid) as (ctx & E & Hl & Hok).
  unfold choreography_ctx in *. cbn in *. rewrite E. cbn. clear E. eexists. split_and!; try done.
  destruct Hwf1 as [Hpool Hpids Hctx Hrest]. cbn in *.
  assert (<[a := c1]> (crs s) !! a = Some c1) as Hc1 by (by rewrite lookup_insert_eq).
  rewrite <-Hid in Hnone |- *. split; cbn.
  - eapply pool_ok_add_out; try done. unfold pooled. lia.
  - intros id b d. rewrite lookup_insert. case_decide; [|by apply (Hpids id)].
    intros [= <-] Hd. right. congruence.
  - apply (ctxs_update (set_crs (<[a := c1]> (crs s)) s)); [done|lia| |].
    + apply ctx_enqueue; try done. lia.
    + intros j p b Hj. rewrite (bound_add _ _ _ _ _ _ _ Hc1 Hnone). cbn. split; [|by left].
      intros [|(_ & Hbad & _)]; [done|]. lia.
  - apply rest_update; [exact Hrest|lia].
Qed.

Lemma choreography_remove_spec s id a c :
  wf s → id_cr_ s !! id = Some a → crs s !! a = Some c →
  ∃ s', RemoveCRoutine id s = (if lock_ c then None else Some (true, s')) ∧ wf s' ∧
    id_cr_ s' = delete id (id_cr_ s) ∧ stop_ s' = stop_ s ∧ task_id_map_ s' = task_id_map_ s ∧
    processors_ s' = processors_ s ∧ crs s' = <[a := Stop (Stop c)]> (<[a := Stop c]> (crs s)).
Proof.
  intros Hwf Hid Hc. destruct (po_ids _ _ _ _ (cw_pool s Hwf) _ _ Hid) as (c' & Hc' & Ecid).
  assert (c' = c) as -> by congruence. subst id.
  set (h1 := <[a := Stop c]> (crs s)).
  assert (wf (set_crs h1 s)) as Hwf1 by (by eapply wf_update).
  assert (wf (set_crs (<[a := Stop (Stop c)]> h1) s)) as Hwf2.
  { apply (wf_update (set_crs h1 s) a (Stop c)); [done|cbn; by unfold h1; rewrite lookup_insert_eq|done]. }
  assert (h1 !! a = Some (Stop c)) as Hc1 by (unfold h1; by rewrite lookup_insert_eq).
  unfold RemoveCRoutine. rewrite Hid, Hc. cbn. fold h1. destruct (Z.eqb_spec (processor_id_ c) (-1)) as [Hp|Hp].
  - destruct (erase_spec pooled choreography_pooled_same (CRoutine.id_ c) (id_cr_ s) h1 (cr_group_ s) a (Stop c))
      as (gs & E & Hpool); [exact (cw_pool _ Hwf1)|done|done|done|].
    cbn in E. rewrite E. eexists (set_groups gs (set_crs (<[a := Stop (Stop c)]> h1) _)).
    split; [by destruct (lock_ c)|]. split_and!; try done. destruct Hwf2 as [_ Hpids Hctx Hrest]. split; cbn in *.
    + done.
    + intros id b d. rewrite lookup_delete. case_decide; [done|apply Hpids].
    + intros i Hi. destruct (Hctx i Hi) as (ctx & Hl & Hok). exists ctx. split; [done|].
      eapply ctx_ok_ext; [|done]. intros p b.
      rewrite (bound_delete _ _ _ _ _ a (Stop (Stop c))); [|by rewrite lookup_insert_eq|done].
      split; [by intros []|]. intros Hb. split; [done|]. intros ->. destruct Hb as (d & Hd & _ & Hpd & _).
      rewrite lookup_insert_eq in Hd. injection Hd as <-. cbn in Hpd. lia.
    + exact Hrest.
  - assert (0 <= processor_id_ c < proc_num_ cf) as Hr by (destruct (cw_pid s Hwf _ _ _ Hid Hc); [done|lia]).
    destruct (choreography_ctx_spec _ _ Hwf1 Hr) as (ctx & E & Hl & Hok).
    unfold choreography_ctx in *. cbn in *. rewrite E. cbn. clear E.
    destruct (ctx_remove _ _ _ _ a (Stop c) Hok Hc1 Hid) as (ctx' & Er & Hok'); [cbn; lia|].
    cbn in Er. rewrite Er. exists (set_ctx (Z.to_nat (processor_id_ c)) ctx'
      (set_crs (<[a := Stop (Stop c)]> h1) (set_id_cr (delete (CRoutine.id_ c) (id_cr_ s)) s))).
    split; [by destruct (lock_ c)|]. split_and!; try done. destruct Hwf2 as [Hpool Hpids Hctx Hrest]. split; cbn in *.
    + apply (pool_ok_remove_out pooled _ _ _ a (Stop (Stop c))); [done|by rewrite lookup_insert_eq|done|done].
    + intros id b d. rewrite lookup_delete. case_decide; [done|apply Hpids].
    + apply (ctxs_update (set_crs (<[a := Stop (Stop c)]> h1) s)); [done|lia| |].
      * eapply ctx_ok_ext; [|exact Hok']. intros p b. by eapply bound_update.
      * intros j p b Hj. cbn. rewrite (bound_delete _ _ _ _ _ a (Stop (Stop c))); [|by rewrite lookup_insert_eq|done].
        split; [by intros []|]. intros Hb. split; [done|]. intros ->. destruct Hb as (d & Hd & _ & Hpd & _).
        rewrite lookup_insert_eq in Hd. injection Hd as <-. cbn in Hpd. lia.
    + apply rest_update; [exact Hrest|lia].
Qed.

Lemma choreography_notify_spec s id a c :
  wf s → stop_ s = false → id_cr_ s !! id = Some a → crs s !! a = Some c →
  ∃ s', NotifyProcessor id s = Some (true, s') ∧ wf s' ∧ id_cr_ s' = id_cr_ s ∧ stop_ s' = stop_ s ∧
    task_id_map_ s' = task_id_map_ s ∧ crs s' = crs (flag a c s).
Proof.
  intros Hwf Hst Hid Hc. unfold NotifyProcessor. rewrite Hst, Hid, Hc. cbn -[flag].
  pose proof (flag_wf s a c Hwf Hc) as Hwf1.
  assert (id_cr_ (flag a c s) = id_cr_ s ∧ stop_ (flag a c s) = stop_ s ∧ task_id_map_ (flag a c s) = task_id_map_ s)
    as (Ei & Es & Et) by (unfold flag; by destruct (waiting c)).
  set (s1 := flag a c s) in *. clearbody s1. destruct (Z.eqb_spec (processor_id_ c) (-1)) as [Hp|Hp]; cbn.
  - exists (add_signal (SGroup (group_name_ c)) s1). split_and!; try done; [destruct Hwf1; by split|cbn; congruence].
  - assert (0 <= processor_id_ c < proc_num_ cf) as Hr by (destruct (cw_pid s Hwf _ _ _ Hid Hc); [done|lia]).
    destruct (choreography_ctx_spec s1 _ Hwf1 Hr) as (ctx & -> & Hl & [Hs Hn Hb]). cbn.
    set (ctx' := ChoreographyContext.mk _ _ _).
    assert (wf (set_ctx (Z.to_nat (processor_id_ c)) ctx' s1)) as Hwf2.
    { destruct Hwf1 as [Hpool Hpids Hctx Hrest]. split; cbn; [done|done| |].
      - apply (ctxs_update s1); [done|lia|by split|done].
      - apply rest_update; [done|lia]. }
    eexists. split; [done|]. destruct (ChoreographyContext.notified_ ctx); cbn; split_and!; try done; try congruence.
    by destruct Hwf2.
Qed.

#[export] Instance laws : conf_ok → PolicyLaws policy wf.
Proof.
  intros Hcf. split.
  - intros s Hwf. exact (po_ids _ _ _ _ (cw_pool s Hwf)).
  - intros s a c Hwf Ha. apply wf_private; [done|]. intros id Hid.
    destruct (po_ids _ _ _ _ (cw_pool s Hwf) _ _ Hid) as (d & ? & ?). congruence.
  - intros s m []. by split.
  - intros s [Hpool Hpids Hctx Hrest]. split; [done|done| |].
    + intros i Hi. destruct (Hctx i Hi) as (ctx & Hl & [Hs Hn Hb]).
      exists (ChoreographyContext.Shutdown ctx). cbn. rewrite list_lookup_fmap, Hl. split; [done|by split].
    + intros i ctx Hi. cbn in Hi. rewrite list_lookup_fmap in Hi. apply fmap_Some in Hi as ([ctx0|ctx0] & Hi & [=]).
      by eapply Hrest.
  - intros s a c c'. apply wf_update.
  - intros s a c Hwf Hc Hpid Hprio Hn. destruct (choreography_configure_spec c Hcf Hpid Hprio) as (Hid & Hl & Hp & [Hpd|Hpd]).
    + destruct (dispatch_pool s a c) as (s' & c' & E & Hwf' & ? & ? & ? & Eh & Hl'); try done.
      exists s'. split_and!; try done. intros Hu b d. rewrite Eh, !lookup_insert.
      repeat case_decide; [intros [= <-]; rewrite Hl', Hl; by eapply Hu|apply Hu].
    + destruct (dispatch_bound s a c) as (s' & E & Hwf' & ? & ? & ? & Eh); try done.
      exists s'. split_and!; try done. intros Hu b d. rewrite Eh, lookup_insert.
      case_decide; [intros [= <-]; rewrite Hl; by eapply Hu|apply Hu].
  - intros s a c Hwf Hc [b Hb] Hfree. cbn. unfold DispatchTask. rewrite Hc. cbn.
    assert (CRoutine.id_ (configure c) = CRoutine.id_ c) as ->.
    { unfold configure. by destruct (cr_confs_ cf !! CRoutine.name_ c) as [[prio [p|]]|]. }
    rewrite Hb. eexists. split_and!; try done. by apply wf_private.
  - intros s id a c Hwf Hid Hc Hl. destruct (choreography_remove_spec s id a c Hwf Hid Hc) as (s' & E & Hwf' & ? & ? & ? & ? & Eh).
    rewrite Hl in E. exists s'. split_and!; try done.
    + intros Hu b d. rewrite Eh, !lookup_insert. repeat case_decide; [intros [= <-]; exact Hl|apply Hu].
    + intros d. rewrite Eh, lookup_insert_eq. by intros [= <-].
  - intros s id a c Hwf Hid Hc Hl. destruct (choreography_remove_spec s id a c Hwf Hid Hc) as (s' & E & _). by rewrite Hl in E.
  - intros s id Hwf Hid. cbn. unfold RemoveCRoutine. by rewrite Hid.
  - intros s id a c Hwf Hst Hid Hc. destruct (choreography_notify_spec s id a c Hwf Hst Hid Hc) as (s' & E & Hwf' & ? & ? & ? & Eh).
    exists s'. split_and!; try done. rewrite Eh. unfold flag, waiting. by destruct (_ || _).
  - intros s id Hwf Hst Hid. cbn. unfold NotifyProcessor. by rewrite Hst, Hid.
Qed.

(** [CreateProcessor]: contexts for the configured processors, then [pool] of
    them for the shared queues. *)
Definition initial (pool : nat) : sched :=
  mk false ∅ ∅ ∅ ∅
    (replicate (Z.to_nat (proc_num_ cf)) (Choreography ChoreographyContext.ChoreographyContext) ++
     replicate pool (Classic (ClassicContext.ClassicContext ClassicContext.DEFAULT_GROUP_NAME))) []
    (replicate (Z.to_nat (proc_num_ cf) + pool) (mkproc true true)).

Lemma choreography_initial_wf pool : wf (initial pool).
Proof.
  split; cbn.
  - split.
    + intros g. unfold ClassicContext.group_queues. by rewrite lookup_empty.
    + intros id a. by rewrite lookup_empty.
    + intros id a c. by rewrite lookup_empty.
    + intros g prio a. rewrite queue_empty. split; [by intros []%elem_of_nil|].
      intros (c & Hc & _). by rewrite lookup_empty in Hc.
    + intros g prio. rewrite queue_empty. constructor.
  - intros id a c. by rewrite lookup_empty.
  - intros i Hi. exists ChoreographyContext.ChoreographyContext. split.
    + rewrite lookup_app_l by (rewrite length_replicate; lia). apply lookup_replicate. split; [done|lia].
    + split; cbn; [constructor|constructor|]. intros p a. split; [by intros []%elem_of_nil|].
      intros (c & Hc & _). by rewrite lookup_empty in Hc.
  - intros i ctx [Hi|[_ Hi]]%lookup_app_Some; apply lookup_replicate in Hi as [? ?]; [lia|done].
Qed.

(** Where a routine is queued: in the pool's queue of a group and priority, or in a
    choreography context with a priority. *)
Definition in_pool (s : sched) (a : nat) (g : string) (p : nat) : Prop := a ∈ queue (cr_group_ s) g p.
Definition in_context (s : sched) (a : nat) (i : nat) (p : Z) : Prop :=
  ∃ ctx, pctxs_ s !! i = Some (Choreography ctx) ∧ (p, a) ∈ ChoreographyContext.cr_queue_ ctx.

Lemma in_pool_iff s a c g p :
  wf s → crs s !! a = Some c →
  in_pool s a g p ↔ id_cr_ s !! CRoutine.id_ c = Some a ∧ processor_id_ c = -1 ∧ group_name_ c = g ∧ Z.to_nat (priority_ c) = p.
Proof.
  intros Hwf Hc. unfold in_pool. rewrite (po_queue _ _ _ _ (cw_pool s Hwf)). split.
  - intros (d & Hd & ?). by simplify_eq.
  - intros ?. by exists c.
Qed.

Lemma in_context_iff s a c i p :
  wf s → crs s !! a = Some c →
  in_context s a i p ↔
    id_cr_ s !! CRoutine.id_ c = Some a ∧ processor_id_ c = Z.of_nat i ∧ Z.of_nat i < proc_num_ cf ∧ priority_ c = p.
Proof.
  intros Hwf Hc. split.
  - intros (ctx & Hl & Hin). pose proof (cw_rest s Hwf i ctx Hl) as Hi.
    destruct (cw_ctx s Hwf i Hi) as (ctx' & Hl' & [_ _ Hb]). simplify_eq. apply Hb in Hin as (d & Hd & ? & ? & ?). by simplify_eq.
  - intros (Hid & Hp & Hi & Hpr). destruct (cw_ctx s Hwf i Hi) as (ctx & Hl & [_ _ Hb]). exists ctx. split; [done|].
    apply Hb. by exists c.
Qed.

(** [Notify] of what [NotifyProcessor] finds. *)
Lemma choreography_notify_signals s id a c s' :
  wf s → stop_ s = false → id_cr_ s !! id = Some a → crs s !! a = Some c → NotifyProcessor id s = Some (true, s') →
  signals s' = signals s ++
    (if bool_decide (processor_id_ c = -1) then [SGroup (group_name_ c)]
     else match pctxs_ s !! Z.to_nat (processor_id_ c) with
          | Some (Choreography ctx) => if ChoreographyContext.notified_ ctx then [] else [SContext (Z.to_nat (processor_id_ c))]
          | _ => []
          end).
Proof.
  intros Hwf Hst Hid Hc. unfold NotifyProcessor. rewrite Hst, Hid, Hc. cbn -[flag].
  assert (signals (flag a c s) = signals s ∧ pctxs_ (flag a c s) = pctxs_ s) as [Es Ep] by (unfold flag; by destruct (waiting c)).
  destruct (Z.eqb_spec (processor_id_ c) (-1)) as [Hp|Hp]; cbn -[flag].
  - rewrite bool_decide_true by done. intros [= <-]. cbn -[flag]. by rewrite Es.
  - rewrite bool_decide_false by done. unfold choreography_ctx. rewrite Ep.
    destruct (bool_decide (0 <= processor_id_ c)); [|done].
    destruct (pctxs_ s !! Z.to_nat (processor_id_ c)) as [[ctx|ctx]|]; [|done..]. cbn -[flag].
    destruct (ChoreographyContext.notified_ ctx); cbn -[flag]; intros [= <-]; cbn -[flag]; by rewrite Es, ?app_nil_r.
Qed.

(** C28: the choreography scheduler keeps track of its tasks, provided the
    configuration names existing processors only.  A registered routine is in
    exactly one queue, once: bound to an existing processor, in that processor's
    context at its priority (contexts are sorted by decreasing priority), in no
    other context and not in the pool; or else in the pool's queue of its group and
    priority and in no context.  Notifying it sets its flag if it waits and signals
    its context, unless that was signalled already, or the pool; removing it, when
    no processor holds it, takes it off the registry and out of its queue, so that
    it is in none, and waits as long as one holds it. *)
Theorem choreography_queues_agree hash pool s id a c :
  conf_ok → reachable (Tasks.step hash) (initial pool) s →
  id_cr_ s !! id = Some a → crs s !! a = Some c →
  CRoutine.id_ c = id ∧
  ((processor_id_ c = -1 ∧ 0 <= priority_ c < MAX_PRIO ∧
      NoDup (queue (cr_group_ s) (group_name_ c) (Z.to_nat (priority_ c))) ∧
      (∀ g p, in_pool s a g p ↔ g = group_name_ c ∧ p = Z.to_nat (priority_ c)) ∧ (∀ i p, ¬ in_context s a i p)) ∨
   (0 <= processor_id_ c < proc_num_ cf ∧
      (∃ ctx, pctxs_ s !! Z.to_nat (processor_id_ c) = Some (Choreography ctx) ∧
         ChoreographyProofs.sorted (ChoreographyContext.cr_queue_ ctx) ∧ NoDup (ChoreographyContext.cr_queue_ ctx)) ∧
      (∀ i p, in_context s a i p ↔ i = Z.to_nat (processor_id_ c) ∧ p = priority_ c) ∧ (∀ g p, ¬ in_pool s a g p))) ∧
  (stop_ s = false → ∃ s', NotifyProcessor id s = Some (true, s') ∧
     crs s' = (if waiting c then <[a := SetUpdateFlag c]> (crs s) else crs s) ∧
     signals s' = signals s ++
       (if bool_decide (processor_id_ c = -1) then [SGroup (group_name_ c)]
        else match pctxs_ s !! Z.to_nat (processor_id_ c) with
             | Some (Choreography ctx) => if ChoreographyContext.notified_ ctx then [] else [SContext (Z.to_nat (processor_id_ c))]
             | _ => []
             end)) ∧
  (lock_ c = true → RemoveCRoutine id s = None) ∧
  (lock_ c = false → ∃ s', RemoveCRoutine id s = Some (true, s') ∧ id_cr_ s' = delete id (id_cr_ s) ∧
     (∀ b, b ≠ a → crs s' !! b = crs s !! b) ∧ (∀ g p, ¬ in_pool s' a g p) ∧ (∀ i p, ¬ in_context s' a i p)).
Proof.
  intros Hcf Hr Hid Hc. pose proof (laws Hcf) as L.
  destruct (Tasks.tasks_reachable hash wf (initial pool) s (choreography_initial_wf pool)) as [Hwf _]; [|done|].
  { split; [intros i n; cbn; by rewrite lookup_empty|]. intros i. cbn. rewrite lookup_empty. by intros []. }
  destruct (po_ids _ _ _ _ (cw_pool s Hwf) _ _ Hid) as (c' & Hc' & Hcid). assert (c' = c) as -> by congruence.
  split_and!; [done| | | |].
  - destruct (cw_pid s Hwf _ _ _ Hid Hc) as [Hp|Hp]; [left|right].
    + split_and!; [done|by eapply (po_prio _ _ _ _ (cw_pool s Hwf))..|apply (po_nodup _ _ _ _ (cw_pool s Hwf))| |].
      * intros g p. rewrite (in_pool_iff s a c g p Hwf Hc), Hcid. naive_solver.
      * intros i p. rewrite (in_context_iff s a c i p Hwf Hc). intros (_ & ? & _). lia.
    + split_and!; [lia|lia| | |].
      * destruct (cw_ctx s Hwf (Z.to_nat (processor_id_ c))) as (ctx & Hl & [Hs Hn _]); [lia|]. by exists ctx.
      * intros i p. rewrite (in_context_iff s a c i p Hwf Hc), Hcid. split; [intros (_ & ? & _ & ?); split; [lia|done]|].
        intros [-> ->]. split_and!; [done|lia|lia|done].
      * intros g p. rewrite (in_pool_iff s a c g p Hwf Hc). intros (_ & ? & _). lia.
  - intros Hst. destruct (choreography_notify_spec s id a c Hwf Hst Hid Hc) as (s' & E & _ & _ & _ & _ & Eh).
    exists s'. split_and!; [done| |by eapply choreography_notify_signals]. rewrite Eh. unfold flag. by destruct (waiting c).
  - intros Hl. destruct (choreography_remove_spec s id a c Hwf Hid Hc) as (s' & E & _). by rewrite Hl in E.
  - intros Hl. destruct (choreography_remove_spec s id a c Hwf Hid Hc) as (s' & E & Hwf' & Eid & _ & _ & _ & Eh).
    rewrite Hl in E. exists s'. assert (crs s' !! a = Some (Stop (Stop c))) as Ha by (rewrite Eh; apply lookup_insert_eq).
    assert (id_cr_ s' !! CRoutine.id_ (Stop (Stop c)) ≠ Some a) as Hno by (rewrite Eid; cbn; by rewrite Hcid, lookup_delete_eq).
    split_and!; [done|done|intros b Hb; by rewrite Eh, !lookup_insert_ne| |].
    + intros g p. rewrite (in_pool_iff s' a _ g p Hwf' Ha). by intros [? _].
    + intros i p. rewrite (in_context_iff s' a _ i p Hwf' Ha). by intros [? _].
Qed.
End choreography.

Definition demo_conf : conf := mkconf {["cam" := (25%N, Some 1)]} 2.
Definition demo_trace : list Tasks.label :=
  [Tasks.LCreate 0 "cam" true; Tasks.LCreate 0 "lidar" true; Tasks.LNotify 3; Tasks.LNotify 5].

Lemma demo_conf_ok : conf_ok demo_conf.
Proof.
  split; [cbn; lia|]. intros name prio p. cbn. rewrite lookup_singleton. case_decide; [|done].
  intros [= <- <-]. right. cbn. lia.
Qed.

Definition demo_end : sched :=
  default (initial demo_conf 1) (run (Tasks.step (P := policy demo_conf) GlobalData.demo_hash) demo_trace (initial demo_conf 1)).

Lemma choreography_queues_agree_witness :
  run (Tasks.step (P := policy demo_conf) GlobalData.demo_hash) demo_trace (initial demo_conf 1) = Some demo_end ∧
  id_cr_ demo_end = <[3 := 0%nat]> {[5 := 1%nat]} ∧ queue (cr_group_ demo_end) "default_grp" 0 = [1%nat] ∧
  in_context demo_end 0 1 25 ∧
  ∃ s', RemoveCRoutine 3 demo_end = Some (true, s') ∧ ∀ i p, ¬ in_context s' 0 i p.
Proof.
  split_and!; [vm_compute; reflexivity|vm_compute; reflexivity|vm_compute; reflexivity|..].
  { eexists. split; [vm_compute; reflexivity|]. by left. }
  edestruct (choreography_queues_agree demo_conf GlobalData.demo_hash 1 demo_end 3 0%nat) as (_ & _ & _ & _ & H);
    [exact demo_conf_ok|apply (run_reachable _ _ demo_trace); vm_compute; reflexivity|vm_compute; reflexivity|vm_compute; reflexivity|].
  destruct H as (s' & H1 & _ & _ & _ & H2); [reflexivity|]. exists s'. split; [exact H1|exact H2].
Defined.

(** With a processor that does not exist. *)
Definition stray_conf : conf := mkconf {["cam" := (1%N, Some 2)]} 2.

(** A task that the configuration binds to a processor beyond the last.
    [DispatchTask] silently puts it into the pool, but its processor number
    stays: every later notification and removal of the task indexes the
    contexts with that number — here that of a pool processor, which is cast to
    the wrong class; without pool processors it is out of the vector.  A task
    that is left to the pool, by contrast, is notified and removed. *)
Theorem choreography_stray_processor :
  (∃ s, run (Tasks.step (P := policy stray_conf) GlobalData.demo_hash) [Tasks.LCreate 0 "cam" true] (initial stray_conf 1)
      = Some s ∧ queue (cr_group_ s) "default_grp" 1 = [0%nat] ∧
    NotifyProcessor 3 s = None ∧ RemoveCRoutine 3 s = None ∧ lock_ <$> crs s !! 0%nat = Some false) ∧
  (∃ s, run (Tasks.step (P := policy stray_conf) GlobalData.demo_hash) [Tasks.LCreate 0 "gps" true] (initial stray_conf 1)
      = Some s ∧ queue (cr_group_ s) "default_grp" 0 = [0%nat] ∧
    is_Some (NotifyProcessor 3 s) ∧ is_Some (RemoveCRoutine 3 s) ∧ signals s = []).
Proof.
  split; eexists; (split_and!; [vm_compute; reflexivity|vm_compute; reflexivity|..]);
    try (vm_compute; by eexists); try (vm_compute; reflexivity).
Qed.
End SchedulerChoreography.
