(* ===== verification/Processor.v ===== *)
(** * The processor threads ([cyber/scheduler/processor.cc], with
    [NextRoutine], [Wait], [Notify] and [Shutdown] of
    [cyber/scheduler/policy/classic_context.cc])

    The loops of [Processor::Run] of all the processors of the classic policy,
    next to the clients of the scheduler.  The processors of a group share its
    queues, its mutex and its condition variable.  A walk of [NextRoutine] is not
    one step: taking the lock of a queue, taking a routine, bringing its state up
    to date and giving it back are steps of their own, so that notifications and
    the other processors come in between; so are a routine's slice, the check of
    [stop_] and the entry into the wait. *)

From S2P Require Import Prelude Routine Contexts Scheduler.
Import CRoutine.

Local Open Scope Z_scope.

Module Processor.
Import ClassicContext.

(** Where [Run] is: at the loop's condition; at the check of [stop_] in
    [NextRoutine]; before the queue of the priority below [i]; in the queue of
    priority [k], whose read lock it holds, before the routines [q]; with the
    routine [a], before [UpdateState], and before [Release]; returned from
    [NextRoutine] with a routine; before [Wait]; in [Wait], past the check of
    [stop_]; in [wait_for] until a time; in [wait]; returned. *)
Inductive pc :=
| PLoop | PNext | PPrio (i : nat) | PScan (k : nat) (q : list nat)
| PUpdate (k a : nat) (q : list nat) | PRelease (k a : nat) (q : list nat)
| PResume (a : nat) | PBeforeWait | PLock | PTimed (deadline : Z) | PBlocked | PReturned.

Record processor := mkp { context_ : ClassicContext.t; running_ : bool; at_ : pc }.

Record t := mk { sched_ : sched; procs : list processor }.

Definition goto (x : pc) (p : processor) : processor := mkp (context_ p) (running_ p) x.
Definition group (p : processor) : string := group_name (context_ p).

(** The thread of processor [i] moved on to [p] and left the routines as [h]. *)
Definition put (i : nat) (p : processor) (h : heap) (s : t) : t :=
  mk (set_crs h (sched_ s)) (<[i := p]> (procs s)).

(** The next step of a processor's thread at time [now], the queues being [gs] and
    the routines [h]; [slice] is what a routine does until it yields (it keeps its
    id, priority and group). *)
Definition thread_step (now : Z) (slice : CRoutine.t → CRoutine.t) (gs : gmap string (list (list nat))) (h : heap)
    (p : processor) : option (processor * heap) :=
  match at_ p with
  | PLoop => Some (goto (if running_ p then PNext else PReturned) p, h)
  | PNext => Some (goto (if stop_ (context_ p) then PBeforeWait else PPrio MAX_PRIO) p, h)
  | PPrio O => Some (goto PBeforeWait p, h)
  | PPrio (S k) => q ← group_queues gs (group p) !! k; Some (goto (PScan k q) p, h)
  | PScan k [] => Some (goto (PPrio k) p, h)
  | PScan k (a :: q) =>
      c ← h !! a;
      let '(ok, c') := Acquire c in Some (goto (if ok then PUpdate k a q else PScan k q) p, <[a := c']> h)
  | PUpdate k a q =>
      c ← h !! a;
      let '(st, c') := UpdateState now c in
      if bool_decide (st = READY) then Some (goto (PResume a) p, <[a := c']> h)
      else
        let ctx := if bool_decide (state_ c' = SLEEP) then note_sleep c' (context_ p) else context_ p in
        Some (mkp ctx (running_ p) (PRelease k a q), <[a := c']> h)
  | PRelease k a q => c ← h !! a; Some (goto (PScan k q) p, <[a := Release c]> h)
  | PResume a =>
      c ← h !! a;
      let c' := Release (Resume slice c).2 in
      if bool_decide (same_identity c c') then Some (goto PLoop p, <[a := c']> h) else None
  | PBeforeWait => Some (goto (if stop_ (context_ p) then PLoop else PLock) p, h)
  | PLock =>
      let '(timeout, ctx) := wait_on now (context_ p) in
      Some (mkp ctx (running_ p) (match timeout with Some d => PTimed (now + d) | None => PBlocked end), h)
  | PTimed _ | PBlocked | PReturned => None
  end.

Definition proc_step (i : nat) (now : Z) (slice : CRoutine.t → CRoutine.t) (s : t) : option t :=
  p ← procs s !! i;
  '(p', h') ← thread_step now slice (cr_group_ (sched_ s)) (crs (sched_ s)) p;
  Some (put i p' h' s).

(** In a wait on the condition variable of the group. *)
Definition waits (g : string) (p : processor) : bool :=
  match at_ p with PTimed _ | PBlocked => bool_decide (group p = g) | _ => false end.

(** [notify_one]: one of the processors that wait, any of them, if there is one. *)
Definition notify_one (g : string) (w : option nat) (ps : list processor) : option (list processor) :=
  match w with
  | Some i => p ← ps !! i; if waits g p then Some (<[i := goto PLoop p]> ps) else None
  | None => if existsb (waits g) ps then None else Some ps
  end.
Definition notify_all (g : string) (ps : list processor) : list processor :=
  (λ p, if waits g p then goto PLoop p else p) <$> ps.

(** The signals of a call, with the processor that each of them reaches. *)
Fixpoint deliver (l : list signal) (ws : list (option nat)) (ps : list processor) : option (list processor) :=
  match l, ws with
  | [], [] => Some ps
  | SGroup g :: l, w :: ws => ps ← notify_one g w ps; deliver l ws ps
  | _, _ => None
  end.

(** The queue whose read lock the thread holds. *)
Definition reads (p : processor) : option nat :=
  match at_ p with PScan k _ | PUpdate k _ _ | PRelease k _ _ => Some k | _ => None end.

(** No queue is written while a processor reads it. *)
Definition locks_ok (gs gs' : gmap string (list (list nat))) (ps : list processor) : bool :=
  forallb (λ p, match reads p with
                | Some k => bool_decide (RunQueues.queue gs' (group p) k = RunQueues.queue gs (group p) k)
                | None => true
                end) ps.

Definition wake_up (i : nat) (s : t) : option t :=
  p ← procs s !! i;
  match at_ p with PTimed _ | PBlocked => Some (mk (sched_ s) (<[i := goto PLoop p]> (procs s))) | _ => None end.

(** [ProcessorContext::Shutdown] of processor [i]'s context. *)
Definition shutdown (i : nat) (s : t) : option t :=
  p ← procs s !! i;
  Some (mk (sched_ s) (notify_all (group p) (<[i := mkp (Shutdown (context_ p)) (running_ p) (at_ p)]> (procs s)))).

(** [Processor::Stop] up to the [join]. *)
Definition stop (i : nat) (s : t) : option t :=
  p ← procs s !! i;
  if running_ p then shutdown i (mk (sched_ s) (<[i := mkp (context_ p) false (at_ p)]> (procs s))) else Some s.

(** [LStep i]: a step of processor [i]'s thread.  [LTimeout i now]: its timed
    wait is over.  [LSpurious i]: it leaves the wait for no reason.  [LClient l
    ws]: a client's call, whose signals reach [ws].  [LShutdown i], [LStop i]: from
    [Scheduler::Shutdown]. *)
Inductive label :=
| LStep (i : nat) (now : Z) (slice : CRoutine.t → CRoutine.t)
| LTimeout (i : nat) (now : Z)
| LSpurious (i : nat)
| LClient (l : Tasks.label) (ws : list (option nat))
| LShutdown (i : nat)
| LStop (i : nat).

Section processors.
Context (cf : SchedulerClassic.conf) (hash : string → Z).

Definition client (l : Tasks.label) (ws : list (option nat)) (s : t) : option t :=
  match l with
  | Tasks.LRun _ _ => None
  | _ =>
      sc ← Tasks.step (P := SchedulerClassic.policy cf) hash l (sched_ s);
      if locks_ok (cr_group_ (sched_ s)) (cr_group_ sc) (procs s) then
        ps ← deliver (drop (length (signals (sched_ s))) (signals sc)) ws (procs s); Some (mk sc ps)
      else None
  end.

Definition step (l : label) (s : t) : option t :=
  match l with
  | LStep i now slice => proc_step i now slice s
  | LTimeout i now =>
      p ← procs s !! i;
      match at_ p with PTimed deadline => if deadline <=? now then wake_up i s else None | _ => None end
  | LSpurious i => wake_up i s
  | LClient l ws => client l ws s
  | LShutdown i => shutdown i s
  | LStop i => stop i s
  end.

(** Processors of these groups, and no task. *)
Definition initial (gs : list string) : t :=
  mk SchedulerClassic.initial ((λ g, mkp (ClassicContext g) true PLoop) <$> gs).

(** ** The invariant: the queues agree with the registry, and a thread in a queue
    has a rest of that queue before it *)

Definition rest (p : processor) : option (nat * list nat) :=
  match at_ p with
  | PScan k q => Some (k, q)
  | PUpdate k a q | PRelease k a q => Some (k, a :: q)
  | _ => None
  end.

Definition reads_rest (gs : gmap string (list (list nat))) (p : processor) : Prop :=
  (∀ k q, rest p = Some (k, q) → q `suffix_of` RunQueues.queue gs (group p) k ∧ (k < MAX_PRIO)%nat) ∧
  (∀ i, at_ p = PPrio i → (i <= MAX_PRIO)%nat).

(** The routine whose flag the thread has taken. *)
Definition holds (p : processor) : option nat :=
  match at_ p with PUpdate _ a _ | PRelease _ a _ | PResume a => Some a | _ => None end.
Definition locked (h : heap) (a : nat) : Prop := ∃ c, h !! a = Some c ∧ lock_ c = true.

Record inv (s : t) : Prop := {
  iv_sched : SchedulerClassic.wf (sched_ s) ∧ Tasks.named hash (sched_ s);
  iv_reads : ∀ i p, procs s !! i = Some p → reads_rest (cr_group_ (sched_ s)) p;
  iv_held : ∀ i p a, procs s !! i = Some p → holds p = Some a → locked (crs (sched_ s)) a;
  iv_excl : ∀ i j p q a, procs s !! i = Some p → procs s !! j = Some q → holds p = Some a → holds q = Some a → i = j;
  iv_ready : ∀ i p a c, procs s !! i = Some p → at_ p = PResume a → crs (sched_ s) !! a = Some c → state_ c = READY }.

(** *** A step of a thread *)
Lemma same_identity_UpdateState now c : same_identity c (UpdateState now c).2.
Proof.
  destruct c as [w st l u f p pr i n g]. unfold UpdateState. cbn.
  destruct (_ && _); [done|]. destruct (negb u); [|done]. by destruct (_ || _).
Qed.

Lemma same_identity_keep now c st c' : UpdateState now c = (st, c') → same_identity c c' ∧ lock_ c' = lock_ c.
Proof.
  intros E. pose proof (same_identity_UpdateState now c) as H. pose proof (UpdateState_set_lock now (lock_ c) c) as Hl.
  assert (set_lock (lock_ c) c = c) as Hc by by destruct c. rewrite Hc, E in Hl. rewrite E in H.
  split; [exact H|]. injection Hl as Hl. by rewrite Hl.
Qed.

Lemma note_sleep_context c ctx :
  group_name (note_sleep c ctx) = group_name ctx ∧ stop_ (note_sleep c ctx) = stop_ ctx.
Proof. unfold note_sleep. by destruct (_ || _). Qed.

(** The steps of a thread, by what they do to the routines. *)
Inductive moves (now : Z) (slice : CRoutine.t → CRoutine.t) (gs : gmap string (list (list nat))) (h : heap) (p : processor) :
    processor → heap → Prop :=
| M_loop : at_ p = PLoop → moves now slice gs h p (goto (if running_ p then PNext else PReturned) p) h
| M_next : at_ p = PNext → moves now slice gs h p (goto (if stop_ (context_ p) then PBeforeWait else PPrio MAX_PRIO) p) h
| M_none : at_ p = PPrio 0 → moves now slice gs h p (goto PBeforeWait p) h
| M_lock k q : at_ p = PPrio (S k) → group_queues gs (group p) !! k = Some q → moves now slice gs h p (goto (PScan k q) p) h
| M_unlock k : at_ p = PScan k [] → moves now slice gs h p (goto (PPrio k) p) h
| M_skip k a q c : at_ p = PScan k (a :: q) → h !! a = Some c → lock_ c = true → moves now slice gs h p (goto (PScan k q) p) h
| M_take k a q c : at_ p = PScan k (a :: q) → h !! a = Some c → lock_ c = false →
    moves now slice gs h p (goto (PUpdate k a q) p) (<[a := set_lock true c]> h)
| M_ready k a q c c' : at_ p = PUpdate k a q → h !! a = Some c → UpdateState now c = (READY, c') →
    moves now slice gs h p (goto (PResume a) p) (<[a := c']> h)
| M_idle k a q c st c' ctx : at_ p = PUpdate k a q → h !! a = Some c → UpdateState now c = (st, c') → st ≠ READY →
    group_name ctx = group p → stop_ ctx = stop_ (context_ p) →
    moves now slice gs h p (mkp ctx (running_ p) (PRelease k a q)) (<[a := c']> h)
| M_release k a q c : at_ p = PRelease k a q → h !! a = Some c →
    moves now slice gs h p (goto (PScan k q) p) (<[a := Release c]> h)
| M_run a c c' : at_ p = PResume a → h !! a = Some c → c' = Release (Resume slice c).2 → same_identity c c' →
    moves now slice gs h p (goto PLoop p) (<[a := c']> h)
| M_wait : at_ p = PBeforeWait → moves now slice gs h p (goto (if stop_ (context_ p) then PLoop else PLock) p) h
| M_block ctx x : at_ p = PLock → group_name ctx = group p → stop_ ctx = stop_ (context_ p) →
    x = PBlocked ∨ (∃ d, x = PTimed d) → moves now slice gs h p (mkp ctx (running_ p) x) h.

Lemma thread_moves now slice gs h p p' h' :
  thread_step now slice gs h p = Some (p', h') → moves now slice gs h p p' h'.
Proof.
  unfold thread_step. intros E. destruct (at_ p) as [| |[|k]|k [|a q]|k a q|k a q|a| | | | |] eqn:Hat; try discriminate E.
  - simplify_eq. by constructor.
  - simplify_eq. by constructor.
  - simplify_eq. by constructor.
  - destruct (group_queues gs (group p) !! k) eqn:Hq; simplify_eq/=. by econstructor.
  - simplify_eq. by constructor.
  - destruct (h !! a) as [c|] eqn:Hc; [|done]. cbn in E. destruct (lock_ c) eqn:Hl; simplify_eq/=.
    + destruct (visit_held 0 h a c Hc Hl) as [Eh _]. cbn in Eh. rewrite Eh. by econstructor.
    + by econstructor.
  - destruct (h !! a) as [c|] eqn:Hc; [|done]. cbn in E. destruct (UpdateState now c) as [st c'] eqn:Eu.
    case_bool_decide; simplify_eq/=; [by econstructor|].
    econstructor; [done|done|done|done| |]; case_bool_decide; try done; apply note_sleep_context.
  - destruct (h !! a) as [c|] eqn:Hc; simplify_eq/=. by econstructor.
  - destruct (h !! a) as [c|] eqn:Hc; [|done]. cbn -[Resume] in E. case_bool_decide; simplify_eq. by econstructor.
  - simplify_eq. by constructor.
  - unfold wait_on in E. destruct (need_sleep_ (context_ p)); simplify_eq/=; econstructor; eauto.
Qed.

Lemma thread_keeps now slice gs h p p' h' :
  moves now slice gs h p p' h' →
  group p' = group p ∧ running_ p' = running_ p ∧ stop_ (context_ p') = stop_ (context_ p) ∧
  (h' = h ∨ ∃ a c c', h !! a = Some c ∧ same_identity c c' ∧ h' = <[a := c']> h).
Proof.
  destruct 1; (split_and!; [done..|]); try (by left); right; eexists _, _, _; (split_and!; [done| |done]); try done.
  - by eapply same_identity_keep.
  - by eapply same_identity_keep.
Qed.

Lemma thread_reads now slice gs h p p' h' :
  RunQueues.full gs → reads_rest gs p → moves now slice gs h p p' h' → reads_rest gs p'.
Proof.
  intros Hf [Hr Hb] H. unfold rest, group in *.
  destruct H; match goal with E : at_ p = _ |- _ => rewrite E in Hr, Hb end;
    try specialize (Hr _ _ eq_refl); try specialize (Hb _ eq_refl);
    try match goal with |- context [if ?b then _ else _] => destruct b end; try destruct H2 as [->|[? ->]];
    (split; [intros k' q'; cbn; intros Heq; simplify_eq|intros i'; cbn; intros Heq; simplify_eq]); try lia.
  - split; [|lia]. unfold RunQueues.queue, group in *. cbn. by rewrite H0.
  - split; [|lia]. etrans; [|apply Hr]. by exists [a].
  - exact Hr.
  - unfold group. cbn. rewrite H3. exact Hr.
  - split; [|lia]. etrans; [|apply Hr]. by exists [a].
Qed.

(** A thread holds what it has taken, and leaves what others hold alone. *)
Lemma thread_holds now slice gs h p p' h' :
  (∀ a, holds p = Some a → locked h a) → moves now slice gs h p p' h' →
  (∀ a, holds p' = Some a → locked h' a ∧ (holds p = Some a ∨ ¬ locked h a)) ∧
  (∀ a, holds p ≠ Some a → locked h a → h' !! a = h !! a).
Proof.
  intros Hl H. unfold holds in *.
  destruct H; match goal with E : at_ p = _ |- _ => rewrite E in Hl |- * end; cbn;
    try match goal with |- context [if ?b then _ else _] => destruct b end; try destruct H2 as [->|[? ->]];
    (split; [try done|try done]); intros b.
  - intros [= <-]. split; [eexists; by rewrite lookup_insert_eq|right]. intros (? & ? & ?). congruence.
  - intros _ (d & Hd & ?). rewrite lookup_insert_ne; [done|congruence].
  - intros [= <-]. split; [|by left]. destruct (Hl _ eq_refl) as (d & ? & ?). simplify_eq.
    eexists. rewrite lookup_insert_eq. split; [done|]. destruct (same_identity_keep _ _ _ _ H1) as [_ ->]. done.
  - intros ? _. rewrite lookup_insert_ne; [done|congruence].
  - intros [= <-]. split; [|by left]. destruct (Hl _ eq_refl) as (d & ? & ?). simplify_eq.
    eexists. rewrite lookup_insert_eq. split; [done|]. destruct (same_identity_keep _ _ _ _ H1) as [_ ->]. done.
  - intros ? _. rewrite lookup_insert_ne; [done|congruence].
  - intros ? _. rewrite lookup_insert_ne; [done|congruence].
  - intros ? _. rewrite lookup_insert_ne; [done|congruence].
Qed.

Lemma UpdateState_ready_state now c c' : UpdateState now c = (READY, c') → state_ c' = READY.
Proof.
  intros E. pose proof (UpdateState_ready now (lock_ c') c) as H. rewrite E in H. specialize (H eq_refl). by destruct c'.
Qed.

Lemma thread_ready now slice gs h p p' h' a c :
  moves now slice gs h p p' h' → at_ p' = PResume a → h' !! a = Some c → state_ c = READY.
Proof.
  destruct 1; cbn; try match goal with |- context [if ?b then _ else _] => destruct b end; try destruct H2 as [->|[? ->]]; try done.
  intros [= ->]. rewrite lookup_insert_eq. intros [= <-]. by eapply UpdateState_ready_state.
Qed.

(** *** A client's call *)

(** What a call may do to a routine: set its flag, or, if it is free, remove it. *)
Definition touched (l : Tasks.label) (c c' : CRoutine.t) : Prop :=
  c' = c ∨ c' = SetUpdateFlag c ∨ (lock_ c = false ∧ c' = Stop (Stop c) ∧ ∃ name, l = Tasks.LRemove name ∧ GlobalData.GenerateHashId hash name = CRoutine.id_ c).

Lemma touched_same l c c' : touched l c c' → lock_ c' = lock_ c ∧ state_ c' = state_ c.
Proof. by intros [->|[->|(? & -> & _)]]. Qed.

Context (groups_ok : SchedulerClassic.groups cf ≠ []).

Lemma dispatch_touches b s ok s' :
  SchedulerClassic.DispatchTask cf b s = Some (ok, s') →
  (∀ a, a ≠ b → crs s' !! a = crs s !! a) ∧ (∀ id a, id_cr_ s !! id = Some a → id_cr_ s' !! id = Some a).
Proof.
  unfold SchedulerClassic.DispatchTask. intros E. destruct (crs s !! b) as [c|]; [|done]. cbn -[SchedulerClassic.configure] in E.
  destruct (id_cr_ s !! CRoutine.id_ c) eqn:Hid; [by simplify_eq|].
  destruct (SchedulerClassic.configure cf c) as [c'|]; [|done]. cbn in E.
  destruct (RunQueues.emplace_back _ _ _ _); simplify_eq/=. split.
  - intros a Ha. by rewrite lookup_insert_ne.
  - intros id a Ha. rewrite lookup_insert_ne; [done|]. intros <-. congruence.
Qed.

Lemma client_touches l s s' a c :
  SchedulerClassic.wf s → (∀ b d, l ≠ Tasks.LRun b d) → Tasks.step (P := SchedulerClassic.policy cf) hash l s = Some s' →
  crs s !! a = Some c →
  (∃ c', crs s' !! a = Some c' ∧ touched l c c') ∧
  (∀ id, id_cr_ s !! id = Some a → id_cr_ s' !! id = Some a ∨ ∃ name, l = Tasks.LRemove name ∧ GlobalData.GenerateHashId hash name = id).
Proof.
  intros Hwf Hl E Hc.
  assert (crs s' !! a = Some c ∧ id_cr_ s' = id_cr_ s →
    (∃ c', crs s' !! a = Some c' ∧ touched l c c') ∧
    (∀ id, id_cr_ s !! id = Some a → id_cr_ s' !! id = Some a ∨ ∃ name, l = Tasks.LRemove name ∧ GlobalData.GenerateHashId hash name = id)) as Hsame.
  { intros [Ec ->]. split; [|by auto]. exists c. split; [done|by left]. }
  destruct l as [now name visitor|name|id|b d]; [| | |by destruct (Hl b d)]; cbn in E.
  - unfold Scheduler.CreateTask in E. destruct (Scheduler.stop_ s); [cbn in E; simplify_eq; by apply Hsame|].
    destruct (GlobalData.RegisterTaskName hash name (task_id_map_ s)) as [[tid ids]|]; [|done].
    cbn -[SchedulerClassic.DispatchTask] in E. destruct (SchedulerClassic.DispatchTask cf _ _) as [[ok s1]|] eqn:Ed; [|done].
    apply dispatch_touches in Ed as [Hcr Hid]. assert (s1 = s') as -> by (destruct ok; by simplify_eq/=).
    assert (a ≠ fresh (dom (crs s))) as Ha.
    { intros ->. apply (is_fresh (dom (crs s))). by eapply elem_of_dom_2. }
    split; [|intros i Hi; left; by apply Hid]. exists c. split; [|by left]. rewrite Hcr by done. cbn. by rewrite lookup_insert_ne.
  - unfold Scheduler.RemoveTask in E. destruct (Scheduler.stop_ s); [cbn in E; simplify_eq; by apply Hsame|]. cbn in E.
    destruct (id_cr_ s !! GlobalData.GenerateHashId hash name) as [b|] eqn:Hid.
    + destruct (Pool.po_ids _ _ _ _ Hwf _ _ Hid) as (d & Hd & Hdid).
      destruct (SchedulerClassic.classic_remove_spec s _ b d Hwf Hid Hd) as (gs & Er & _).
      unfold GlobalData.GenerateHashId in *. rewrite Er in E. destruct (lock_ d) eqn:Hld; [done|]. cbn in E. simplify_eq. cbn. split.
      * destruct (decide (b = a)) as [->|Hab].
        -- simplify_eq. eexists. rewrite lookup_insert_eq. split; [done|]. right; right. eauto.
        -- rewrite !lookup_insert_ne by done. exists c. split; [done|by left].
      * intros i Hi. destruct (decide (hash name = i)) as [<-|Hne]; [right; eauto|left; by rewrite lookup_delete_ne].
    + unfold SchedulerClassic.RemoveCRoutine in E. rewrite Hid in E. cbn in E. simplify_eq. by apply Hsame.
  - unfold Scheduler.NotifyTask in E. destruct (Scheduler.stop_ s) eqn:Hst; [cbn in E; simplify_eq; by apply Hsame|].
    cbn in E. unfold SchedulerClassic.NotifyProcessor in E. rewrite Hst in E.
    destruct (id_cr_ s !! id) as [b|]; [|cbn in E; simplify_eq; by apply Hsame].
    destruct (crs s !! b) as [d|] eqn:Hd; [|done]. cbn in E. simplify_eq. unfold flag in *. destruct (waiting d); [|by apply Hsame].
    cbn. split; [|by auto]. rewrite lookup_insert. case_decide as Hab; [|exists c; split; [done|by left]].
    simplify_eq. eexists. split; [done|]. by right; left.
Qed.

(** *** What a step does to the other processors *)

(** A processor that another thread may have woken or stopped. *)
Definition nudged (p p' : processor) : Prop :=
  group p' = group p ∧ (running_ p' = true → running_ p = true) ∧
  (stop_ (context_ p') = false → stop_ (context_ p) = false) ∧
  (at_ p' = at_ p ∨ (∃ g, waits g p = true) ∧ at_ p' = PLoop).

Definition nudges (ps ps' : list processor) : Prop := Forall2 nudged ps ps'.

Lemma nudged_refl p : nudged p p.
Proof. split_and!; auto. Qed.

Lemma nudges_refl ps : nudges ps ps.
Proof. induction ps; constructor; auto using nudged_refl. Qed.

Lemma nudges_insert ps i p p' : ps !! i = Some p → nudged p p' → nudges ps (<[i := p']> ps).
Proof.
  intros Hp Hn. rewrite <-(list_insert_id ps i p Hp) at 1. apply Forall2_insert; [apply nudges_refl|done].
Qed.

Lemma nudged_wake g p : waits g p = true → nudged p (goto PLoop p).
Proof. intros H. split_and!; eauto. Qed.

Lemma nudges_all g ps : nudges ps (notify_all g ps).
Proof.
  induction ps as [|p ps IH]; cbn; constructor; [|exact IH].
  destruct (waits g p) eqn:E; eauto using nudged_refl, nudged_wake.
Qed.

Lemma nudged_trans p1 p2 p3 : nudged p1 p2 → nudged p2 p3 → nudged p1 p3.
Proof.
  intros (G1 & R1 & S1 & A1) (G2 & R2 & S2 & A2). split_and!; [congruence|auto|auto|].
  destruct A1 as [A1|[W1 A1]], A2 as [A2|[[g W2] A2]]; [left; congruence| |right; split; [done|congruence]|by right].
  right. split; [|done]. exists g. unfold waits in *. rewrite A1, G1 in W2. exact W2.
Qed.

Lemma nudges_trans ps1 ps2 ps3 : nudges ps1 ps2 → nudges ps2 ps3 → nudges ps1 ps3.
Proof.
  unfold nudges. intros H. revert ps3. induction H; intros ps3; inversion 1; simplify_eq; constructor; eauto using nudged_trans.
Qed.

Lemma nudges_deliver l ws ps ps' : deliver l ws ps = Some ps' → nudges ps ps'.
Proof.
  revert ws ps. induction l as [|[g|i] l IH]; intros [|w ws] ps E; cbn in E; simplify_eq; [apply nudges_refl|].
  destruct (notify_one g w ps) as [ps1|] eqn:En; [|done]. cbn in E. apply IH in E.
  eapply nudges_trans; [|exact E]. unfold notify_one in En. destruct w as [i|].
  - destruct (ps !! i) as [p|] eqn:Hp; [|done]. cbn in En. destruct (waits g p) eqn:Hw; simplify_eq.
    eapply nudges_insert; [done|by eapply nudged_wake].
  - destruct (existsb _ _); simplify_eq. apply nudges_refl.
Qed.

Lemma nudges_wake_up i s s' : wake_up i s = Some s' → sched_ s' = sched_ s ∧ nudges (procs s) (procs s').
Proof.
  unfold wake_up. intros E. destruct (procs s !! i) as [p|] eqn:Hp; [|done]. cbn in E.
  assert (waits (group p) p = true → nudges (procs s) (<[i := goto PLoop p]> (procs s))) as H
    by (intros Hw; eapply nudges_insert; [done|by eapply nudged_wake]).
  unfold waits in H. destruct (at_ p); simplify_eq; rewrite bool_decide_true in H by done; auto.
Qed.

Lemma nudges_shutdown i s s' : shutdown i s = Some s' → sched_ s' = sched_ s ∧ nudges (procs s) (procs s').
Proof.
  unfold shutdown. intros E. destruct (procs s !! i) as [p|] eqn:Hp; [|done]. cbn in E. simplify_eq. split; [done|]. cbn.
  eapply nudges_trans; [|apply nudges_all]. eapply nudges_insert; [done|]. split_and!; [done..|by left].
Qed.

Lemma nudges_stop i s s' : stop i s = Some s' → sched_ s' = sched_ s ∧ nudges (procs s) (procs s').
Proof.
  unfold stop. intros E. destruct (procs s !! i) as [p|] eqn:Hp; [|done]. cbn in E.
  destruct (running_ p); simplify_eq; [|split; [done|apply nudges_refl]].
  apply nudges_shutdown in E as [-> Hn]. split; [done|]. eapply nudges_trans; [|exact Hn].
  eapply nudges_insert; [done|]. split_and!; [done..|by left].
Qed.

(** *** The invariant is kept *)

Lemma nudged_reads gs p p' : nudged p p' → reads_rest gs p → reads_rest gs p'.
Proof.
  intros (Hg & _ & _ & [Ha|[_ Ha]]) [H Hb]; unfold reads_rest, rest in *; rewrite Ha, ?Hg; [by split|by split].
Qed.

Lemma nudged_holds p p' a : nudged p p' → holds p' = Some a → holds p = Some a.
Proof. intros (_ & _ & _ & [Ha|[_ Ha]]); unfold holds; by rewrite Ha. Qed.

(** Waking and stopping processors, and changes of the scheduler that keep the
    queues that are being read and the flags that are taken. *)
Lemma inv_nudges s sc ps :
  inv s → nudges (procs s) ps → SchedulerClassic.wf sc ∧ Tasks.named hash sc →
  (∀ i p, procs s !! i = Some p → reads_rest (cr_group_ (sched_ s)) p → reads_rest (cr_group_ sc) p) →
  (∀ a c, crs (sched_ s) !! a = Some c → ∃ c', crs sc !! a = Some c' ∧ lock_ c' = lock_ c ∧ state_ c' = state_ c) → inv (mk sc ps).
Proof.
  intros [_ Hr Hh He Hrd] Hn Hsc Hq Hl. split; cbn; [done| | | |].
  - intros i p' Hp'. destruct (Forall2_lookup_r _ _ _ _ _ Hn Hp') as (p & Hp & Hnp). eauto using nudged_reads.
  - intros i p' a Hp' Ha. destruct (Forall2_lookup_r _ _ _ _ _ Hn Hp') as (p & Hp & Hnp).
    destruct (Hh i p a) as (c & Hc & Hlc); [done|by eapply nudged_holds|]. destruct (Hl a c Hc) as (c' & Hc' & El & _).
    exists c'. split; [done|congruence].
  - intros i j p' q' a Hp' Hq' Ha Ha'. destruct (Forall2_lookup_r _ _ _ _ _ Hn Hp') as (p & Hp & Hnp).
    destruct (Forall2_lookup_r _ _ _ _ _ Hn Hq') as (q & Hq0 & Hnq). eauto using nudged_holds.
  - intros i p' a c' Hp' Ha Hc'. destruct (Forall2_lookup_r _ _ _ _ _ Hn Hp') as (p & Hp & Hnp).
    assert (at_ p = PResume a) as Hpa by (destruct Hnp as (_ & _ & _ & [?|[_ ?]]); congruence).
    destruct (Hh i p a) as (c & Hc & _); [done|unfold holds; by rewrite Hpa|].
    destruct (Hl a c Hc) as (c2 & Hc2 & _ & Es). simplify_eq. rewrite Es. eauto.
Qed.

Lemma inv_put i now slice s p p' h' :
  inv s → procs s !! i = Some p → moves now slice (cr_group_ (sched_ s)) (crs (sched_ s)) p p' h' → inv (put i p' h' s).
Proof.
  intros [[Hwf Hn] Hr Hh He Hrd] Hp Hm. pose proof Hwf as Hwf'. destruct Hwf' as [Hf _ _ _ _].
  pose proof (thread_holds _ _ _ _ _ _ _ (λ a, Hh i p a Hp) Hm) as [Hown Hoth].
  assert (∀ j q, <[i:=p']> (procs s) !! j = Some q → (j = i ∧ q = p') ∨ (j ≠ i ∧ procs s !! j = Some q)) as Hl.
  { intros j q Hj. destruct (decide (j = i)) as [->|Hji]; [left|right].
    - rewrite list_lookup_insert_eq in Hj by (by eapply lookup_lt_Some). by simplify_eq.
    - by rewrite list_lookup_insert_ne in Hj. }
  split; cbn.
  - split; [|done]. destruct (thread_keeps _ _ _ _ _ _ _ Hm) as (_ & _ & _ & [->|(a & c & c' & Hc & Hs & ->)]); [done|].
    eapply Pool.pool_ok_update; [exact SchedulerClassic.classic_pooled_same|done|done|done].
  - intros j q [[-> ->]|[_ Hj]]%Hl; [|eauto]. eapply thread_reads; eauto.
  - intros j q a [[-> ->]|[Hji Hj]]%Hl Ha; [by apply Hown|].
    destruct (Hh j q a Hj Ha) as (c & Hc & Hlc). exists c. split; [|done]. rewrite Hoth; [done| |by exists c].
    intros Hpa. by apply Hji, (He j i q p a).
  - intros j k q r a [[-> ->]|[Hji Hj]]%Hl [[-> ->]|[Hki Hk]]%Hl Ha Ha'; [done| | |by eapply He].
    + destruct (Hown a Ha) as [_ [Hpa|Hnl]]; [by eapply He|]. destruct Hnl. by eapply Hh.
    + destruct (Hown a Ha') as [_ [Hpa|Hnl]]; [by eapply He|]. destruct Hnl. by eapply Hh.
  - intros j q a c [[-> ->]|[Hji Hj]]%Hl Ha Hc.
    + eapply thread_ready; eauto.
    + assert (holds q = Some a) as Hqa by (unfold holds; by rewrite Ha). rewrite Hoth in Hc; [by eapply Hrd| |by eapply Hh].
      intros Hpa. by apply Hji, (He j i q p a).
Qed.

Lemma locks_ok_spec gs gs' ps i p k :
  locks_ok gs gs' ps = true → ps !! i = Some p → reads p = Some k →
  RunQueues.queue gs' (group p) k = RunQueues.queue gs (group p) k.
Proof.
  unfold locks_ok. rewrite forallb_forall. intros H Hp Hk.
  specialize (H p). rewrite Hk in H. apply bool_decide_eq_true in H; [done|]. apply list_elem_of_In. by eapply list_elem_of_lookup_2.
Qed.

(** A client's call: it is no step of a routine, and ... *)
Lemma client_spec l ws s s' :
  client l ws s = Some s' →
  (∀ a d, l ≠ Tasks.LRun a d) ∧ Tasks.step (P := SchedulerClassic.policy cf) hash l (sched_ s) = Some (sched_ s') ∧
  locks_ok (cr_group_ (sched_ s)) (cr_group_ (sched_ s')) (procs s) = true ∧
  deliver (drop (length (signals (sched_ s))) (signals (sched_ s'))) ws (procs s) = Some (procs s').
Proof.
  unfold client. intros E.
  assert (∀ a d, l ≠ Tasks.LRun a d) as Hl by (intros a d ->; done).
  split; [done|]. assert (E' := E). clear E.
  destruct (Tasks.step hash l (sched_ s)) as [sc|]; [|by destruct l].
  destruct (locks_ok (cr_group_ (sched_ s)) (cr_group_ sc) (procs s)) eqn:Hlk; [|destruct l; cbn in E'; by rewrite ?Hlk in E'].
  destruct (deliver (drop (length (signals (sched_ s))) (signals sc)) ws (procs s)) as [ps|] eqn:Hd;
    [|destruct l; cbn in E'; rewrite ?Hlk in E'; cbn in E'; by rewrite ?Hd in E'].
  assert (s' = mk sc ps) as ->; [|by cbn].
  destruct l as [| | |a d]; [..|by destruct (Hl a d)]; cbn in E'; rewrite Hlk in E'; cbn in E'; rewrite Hd in E'; by simplify_eq/=.
Qed.

Lemma inv_client l ws s s' : inv s → client l ws s = Some s' → inv s'.
Proof.
  intros Hi E. destruct (client_spec _ _ _ _ E) as (Hl & Et & Hlk & Hd). destruct s' as [sc ps]. cbn in *.
  pose proof (SchedulerClassic.laws cf groups_ok) as L. destruct (iv_sched _ Hi) as [Hwf Hn].
  apply (inv_nudges s); [done|by eapply nudges_deliver|by apply (Tasks.step_preserves (P := SchedulerClassic.policy cf) hash SchedulerClassic.wf l (sched_ s))| |].
  - intros i p Hp [Hr Hb]. split; [|done]. intros k q Hkq. rewrite (locks_ok_spec _ _ _ _ _ k Hlk Hp); [by apply Hr|].
    unfold rest, reads in *. destruct (at_ p); by simplify_eq.
  - intros a c Hc. destruct (client_touches _ _ _ a c Hwf Hl Et Hc) as [(c' & Hc' & Ht) _].
    exists c'. split; [done|]. by eapply touched_same.
Qed.

Lemma inv_step l s s' : inv s → step l s = Some s' → inv s'.
Proof.
  intros Hi E. destruct l as [i now slice|i now|i|l ws|i|i]; cbn in E.
  - unfold proc_step in E. destruct (procs s !! i) as [p|] eqn:Hp; [|done]. cbn in E.
    destruct (thread_step _ _ _ _ p) as [[p' h']|] eqn:Et; simplify_eq/=. apply thread_moves in Et. by eapply inv_put.
  - destruct (procs s !! i) as [p|]; [|done]. cbn in E. destruct (at_ p); try done. destruct (_ <=? _); [|done].
    apply nudges_wake_up in E as [Es Hn]. destruct s'. cbn in *. subst. apply (inv_nudges s); eauto using iv_sched.
  - apply nudges_wake_up in E as [Es Hn]. destruct s'. cbn in *. subst. apply (inv_nudges s); eauto using iv_sched.
  - by eapply inv_client.
  - apply nudges_shutdown in E as [Es Hn]. destruct s'. cbn in *. subst. apply (inv_nudges s); eauto using iv_sched.
  - apply nudges_stop in E as [Es Hn]. destruct s'. cbn in *. subst. apply (inv_nudges s); eauto using iv_sched.
Qed.

Lemma inv_reachable gs s : reachable step (initial gs) s → inv s.
Proof.
  apply (reachable_inv step inv); [|exact inv_step].
  assert (∀ i p, procs (initial gs) !! i = Some p → at_ p = PLoop) as H.
  { intros i p Hp. cbn in Hp. rewrite list_lookup_fmap in Hp. by apply fmap_Some in Hp as (g & _ & ->). }
  split.
  - split; [apply SchedulerClassic.classic_initial_wf|]. split; [intros i n; cbn; by rewrite lookup_empty|].
    intros i. cbn. rewrite lookup_empty. by intros [].
  - intros i p Hp%H. split; [intros k q; unfold rest|intros k]; by rewrite Hp.
  - intros i p a Hp%H. unfold holds. by rewrite Hp.
  - intros i j p q a Hp%H _. unfold holds. by rewrite Hp.
  - intros i p a c Hp%H. by rewrite Hp.
Qed.

(** ** Properties *)

(** A routine that waits and has been notified: the next [UpdateState] makes it
    ready. *)
Definition owed (c : CRoutine.t) : bool := waiting c && negb (updated_ c).

(** The routine [a], [c0] at first, is registered, free, and owed a run. *)
Definition pending (id : Z) (a : nat) (c0 : CRoutine.t) (s : t) : bool :=
  bool_decide (id_cr_ (sched_ s) !! id = Some a) &&
  match crs (sched_ s) !! a with
  | Some c => bool_decide (same_identity c0 c) && negb (lock_ c) && owed c
  | None => false
  end.

(** Steps that leave it so. *)
Definition step_while (id : Z) (a : nat) (c0 : CRoutine.t) (l : label) (s : t) : option t :=
  s' ← step l s; if pending id a c0 s' then Some s' else None.

(** Neither looking for a routine nor with one. *)
Definition idle (p : processor) : bool :=
  match at_ p with PBeforeWait | PLock | PTimed _ | PBlocked | PReturned => true | _ => false end.

(** The thread will come to [a], in the queue of priority [k0], before its walk
    ends. *)
Definition ahead (k0 a : nat) (p : processor) : Prop :=
  match at_ p with
  | PLoop | PNext | PResume _ => True
  | PPrio i => (k0 < i)%nat
  | PScan k q | PRelease k _ q => (k0 < k)%nat ∨ (k = k0 ∧ a ∈ q)
  | PUpdate k b q => (k0 < k)%nat ∨ (k = k0 ∧ a ∈ b :: q)
  | _ => False
  end.

Lemma ahead_idle k0 a p : ahead k0 a p → idle p = false.
Proof. unfold ahead, idle. by destruct (at_ p). Qed.

Lemma UpdateState_owed now c : owed c = true → (UpdateState now c).1 = READY.
Proof.
  intros [Hw Hu%negb_true_iff]%andb_true_iff. unfold waiting in Hw. unfold UpdateState. rewrite Hu. cbn.
  destruct (_ && _); [done|]. by rewrite Hw.
Qed.

Lemma pending_spec id a c0 s :
  pending id a c0 s = true ↔ id_cr_ (sched_ s) !! id = Some a ∧
    ∃ c, crs (sched_ s) !! a = Some c ∧ same_identity c0 c ∧ lock_ c = false ∧ owed c = true.
Proof.
  unfold pending. rewrite andb_true_iff, bool_decide_eq_true. destruct (crs (sched_ s) !! a) as [c|].
  - rewrite !andb_true_iff, bool_decide_eq_true, negb_true_iff. split.
    + intros (? & (? & ?) & ?). split; [done|]. by exists c.
    + intros (? & d & ? & ? & ? & ?). simplify_eq. by split_and!.
  - split; [by intros []|]. by intros (_ & ? & ? & _).
Qed.

(** A registered routine is in the queue of its group and priority. *)
Lemma registered_queued s id a c :
  inv s → id_cr_ (sched_ s) !! id = Some a → crs (sched_ s) !! a = Some c →
  a ∈ RunQueues.queue (cr_group_ (sched_ s)) (group_name_ c) (Z.to_nat (priority_ c)) ∧
  (Z.to_nat (priority_ c) < MAX_PRIO)%nat.
Proof.
  intros [[[_ Hi Hp Hq _] _] _ _ _ _] Hid Hc. split.
  - apply Hq. exists c. destruct (Hi _ _ Hid) as (c' & Hc' & Hcid). split_and!; try done. congruence.
  - destruct (Hp _ _ _ Hid Hc I) as [? Hlt]. unfold RunQueues.MAX_PRIO in Hlt. cbv [MAX_PRIO]. lia.
Qed.

(** The walk does not pass the routine. *)
Lemma moves_ahead now slice gs h p p' h' k0 a c :
  moves now slice gs h p p' h' → running_ p = true → stop_ (context_ p) = false →
  a ∈ RunQueues.queue gs (group p) k0 → (k0 < MAX_PRIO)%nat → h !! a = Some c → owed c = true →
  lock_ c = false ∨ holds p = Some a → ahead k0 a p → ahead k0 a p'.
Proof.
  intros H Hrun Hstop Hq Hk Hc Ho Hl Ha. unfold ahead, holds in *.
  destruct H; match goal with E : at_ p = _ |- _ => rewrite E in Ha, Hl end; rewrite ?Hrun, ?Hstop; cbn; try done.
  - lia.
  - destruct (decide (k = k0)) as [->|]; [|left; lia]. right. split; [done|].
    unfold RunQueues.queue in Hq. by rewrite H0 in Hq.
  - destruct Ha as [?|[_ []%elem_of_nil]]. done.
  - destruct Ha as [?|[-> [->|Ha]%elem_of_cons]]; [by left| |by auto]. destruct Hl as [?|?]; [congruence|done].
  - destruct Ha as [?|[-> [->|Ha]%elem_of_cons]]; [by left| |by auto]. simplify_eq.
    pose proof (UpdateState_owed now _ Ho) as Hu. by rewrite H1 in Hu.
Qed.

(** *** A walk ends *)

Definition work (gs : gmap string (list (list nat))) (g : string) (i : nat) : nat :=
  sum_list_with (λ q, 3 * length q + 2)%nat (take i (group_queues gs g)).

Definition left (gs : gmap string (list (list nat))) (p : processor) : nat :=
  match at_ p with
  | PLoop => work gs (group p) MAX_PRIO + 3
  | PNext => work gs (group p) MAX_PRIO + 2
  | PPrio i => work gs (group p) i + 1
  | PScan k q => work gs (group p) k + 3 * length q + 2
  | PUpdate k _ q => work gs (group p) k + 3 * length q + 4
  | PRelease k _ q => work gs (group p) k + 3 * length q + 3
  | _ => 0
  end.

Lemma work_S gs g k q : group_queues gs g !! k = Some q → work gs g (S k) = (work gs g k + 3 * length q + 2)%nat.
Proof.
  intros H. unfold work. rewrite (take_S_r _ _ _ H), sum_list_with_app. cbn. lia.
Qed.

Lemma moves_left now slice gs h p p' h' :
  moves now slice gs h p p' h' → idle p = false → (∀ a, at_ p ≠ PResume a) → idle p' = false → (left gs p' < left gs p)%nat.
Proof.
  unfold left, idle. intros H Hi Hr. destruct H; match goal with E : at_ p = _ |- _ => rewrite E in Hi, Hr |- * end; cbn; try done;
    try match goal with |- context [if ?b then _ else _] => destruct b end; cbn; try done; intros _; unfold group in *; cbn; try lia.
  - rewrite (work_S _ _ _ _ H0). lia.
  - rewrite H3. lia.
  - by destruct (Hr a).
Qed.

(** The thread can take its step. *)
Lemma thread_total now slice s i p :
  inv s → procs s !! i = Some p → idle p = false → (∀ a, at_ p ≠ PResume a) →
  ∃ p' h', thread_step now slice (cr_group_ (sched_ s)) (crs (sched_ s)) p = Some (p', h').
Proof.
  intros [[Hwf _] Hr Hh _ _] Hp Hi Hn. destruct (Hr i p Hp) as [Hrest Hb]. pose proof (Hh i p) as Hheld.
  assert (∀ k q b, rest p = Some (k, q) → b ∈ q → is_Some (crs (sched_ s) !! b)) as Hex.
  { intros k q b Hq Hbq. destruct (Hrest k q Hq) as [[q' E] _].
    assert (b ∈ RunQueues.queue (cr_group_ (sched_ s)) (group p) k) as Hin by (rewrite E; apply elem_of_app; by right).
    apply (Pool.po_queue _ _ _ _ Hwf) in Hin as (c & ? & _). by exists c. }
  unfold idle, thread_step, rest, holds in *. destruct (at_ p) as [| |[|k]|k [|a q]|k a q|k a q|a| | | | |]; try done; try by eauto.
  - rewrite (RunQueues.queue_lookup _ _ _ (Pool.po_full _ _ _ _ Hwf)) by (specialize (Hb _ eq_refl); lia). cbn. by eauto.
  - destruct (Hex _ _ a eq_refl) as [c ->]; [by left|]. cbn. by eauto.
  - destruct (Hheld a Hp eq_refl) as (c & -> & _). cbn. destruct (UpdateState now c). case_bool_decide; by eauto.
  - destruct (Hheld a Hp eq_refl) as (c & -> & _). cbn. by eauto.
  - by destruct (Hn a).
Qed.

Lemma moves_owed now slice gs h p p' h' a c :
  moves now slice gs h p p' h' → (∀ b, at_ p ≠ PResume b) → h !! a = Some c → owed c = true →
  lock_ c = false ∨ holds p = Some a →
  (∃ b, at_ p' = PResume b) ∨
  ∃ c', h' !! a = Some c' ∧ owed c' = true ∧ same_identity c c' ∧ (lock_ c' = false ∨ holds p' = Some a).
Proof.
  intros H Hn Hc Ho Hl. unfold holds in *.
  destruct H; match goal with E : at_ p = _ |- _ => rewrite E in Hn, Hl end;
    try (by left; eauto); try (right; exists c; split_and!; [done|done|done|]; by destruct Hl; [left|]).
  - right. rewrite lookup_insert. case_decide; [|exists c; split_and!; try done; destruct Hl; solve [by left|done]].
    simplify_eq. eexists. split_and!; try done. by right.
  - right. rewrite lookup_insert. case_decide as Hab; [|exists c; split_and!; try done; destruct Hl; solve [by left|simplify_eq]].
    simplify_eq. pose proof (UpdateState_owed now _ Ho) as Hu. by rewrite H1 in Hu.
  - right. rewrite lookup_insert. case_decide as Hab; [|exists c; split_and!; try done; destruct Hl; solve [by left|simplify_eq]].
    simplify_eq. eexists. split_and!; try done. by left.
  - by destruct (Hn a0).
Qed.

(** The thread of processor [i] is on its way to [a]. *)
Definition sought (id : Z) (a i : nat) (s : t) (p : processor) : Prop :=
  procs s !! i = Some p ∧ running_ p = true ∧ stop_ (context_ p) = false ∧ id_cr_ (sched_ s) !! id = Some a ∧
  ∃ c, crs (sched_ s) !! a = Some c ∧ owed c = true ∧ group_name_ c = group p ∧
    ahead (Z.to_nat (priority_ c)) a p ∧ (lock_ c = false ∨ holds p = Some a).

Lemma sought_moves now slice id a i s p p' h' :
  inv s → sought id a i s p → (∀ b, at_ p ≠ PResume b) → moves now slice (cr_group_ (sched_ s)) (crs (sched_ s)) p p' h' →
  (∃ b, at_ p' = PResume b) ∨ sought id a i (put i p' h' s) p'.
Proof.
  intros Hi (Hp & Hrun & Hst & Hid & c & Hc & Ho & Hg & Ha & Hl) Hn Hm.
  destruct (registered_queued s id a c Hi Hid Hc) as [Hq Hk]. rewrite Hg in Hq.
  destruct (moves_owed _ _ _ _ _ _ _ _ _ Hm Hn Hc Ho Hl) as [?|(c' & Hc' & Ho' & Hs & Hl')]; [by left|right].
  pose proof (moves_ahead _ _ _ _ _ _ _ _ _ _ Hm Hrun Hst Hq Hk Hc Ho Hl Ha) as Ha'.
  destruct (thread_keeps _ _ _ _ _ _ _ Hm) as (Eg & Er & Es & _). destruct Hs as (_ & Epr & Egr & _).
  split; [cbn; apply list_lookup_insert_eq; by eapply lookup_lt_Some|].
  split_and!; [congruence|congruence|done|]. exists c'. rewrite Epr, Egr, Eg. by split_and!.
Qed.

(** Left to itself, it takes a routine. *)
Lemma sought_runs now slice id a i n : ∀ s p,
  inv s → sought id a i s p → (left (cr_group_ (sched_ s)) p < n)%nat →
  ∃ k s2 p2 b d, run step (replicate k (LStep i now slice)) s = Some s2 ∧ procs s2 !! i = Some p2 ∧ at_ p2 = PResume b ∧
    crs (sched_ s2) !! b = Some d ∧ state_ d = READY ∧ lock_ d = true.
Proof.
  induction n as [|n IH]; intros s p Hi Hs Hleft; [lia|]. pose proof Hs as (Hp & _ & _ & _ & c & _ & _ & _ & Ha & _).
  assert (∀ s p b, inv s → procs s !! i = Some p → at_ p = PResume b →
    ∃ d, crs (sched_ s) !! b = Some d ∧ state_ d = READY ∧ lock_ d = true) as Hdone.
  { intros s0 p0 b Hi0 Hp0 Hb. destruct (iv_held _ Hi0 i p0 b Hp0) as (d & Hd & Hld); [unfold holds; by rewrite Hb|].
    exists d. split_and!; [done|by eapply iv_ready|done]. }
  assert ((∃ b, at_ p = PResume b) ∨ ¬ ∃ b, at_ p = PResume b) as [[b Hb]|Hn]
    by (destruct (at_ p); try (left; by eexists); right; by intros []).
  { destruct (Hdone s p b Hi Hp Hb) as (d & ? & ? & ?). exists 0%nat, s, p, b, d. by split_and!. }
  assert (∀ b, at_ p ≠ PResume b) as Hnb by (intros b Hb; apply Hn; by exists b).
  destruct (thread_total now slice s i p Hi Hp) as (p' & h' & Et); [by eapply ahead_idle|done|].
  pose proof (thread_moves _ _ _ _ _ _ _ Et) as Hm. pose proof (inv_put _ _ _ _ _ _ _ Hi Hp Hm) as Hi'.
  assert (step (LStep i now slice) s = Some (put i p' h' s)) as Estep by (cbn; unfold proc_step; rewrite Hp; cbn; by rewrite Et).
  destruct (sought_moves _ _ _ _ _ _ _ _ _ Hi Hs Hnb Hm) as [[b Hb]|Hs'].
  - assert (procs (put i p' h' s) !! i = Some p') as Hp' by (cbn; apply list_lookup_insert_eq; by eapply lookup_lt_Some).
    destruct (Hdone _ p' b Hi' Hp' Hb) as (d & ? & ? & ?).
    exists 1%nat, (put i p' h' s), p', b, d. split_and!; try done. cbn -[step]. by rewrite Estep.
  - destruct (IH _ _ Hi' Hs') as (k & s2 & p2 & b & d & Hrun & Hrest).
    { assert (idle p' = false) as Hidle by (destruct Hs' as (_ & _ & _ & _ & c' & _ & _ & _ & Ha' & _); by eapply ahead_idle).
      pose proof (moves_left _ _ _ _ _ _ _ Hm (ahead_idle _ _ _ Ha) Hnb Hidle). cbn. lia. }
    exists (S k), s2, p2, b, d. split; [|done]. cbn -[step]. rewrite Estep. exact Hrun.
Qed.

(** *** Steps next to a pending routine *)

Lemma step_other i l s s' p :
  step l s = Some s' → (∀ now slice, l ≠ LStep i now slice) → procs s !! i = Some p →
  ∃ p', procs s' !! i = Some p' ∧ nudged p p'.
Proof.
  intros E Hl Hp.
  assert (nudges (procs s) (procs s') → ∃ p', procs s' !! i = Some p' ∧ nudged p p') as Hnudge.
  { intros Hn. destruct (Forall2_lookup_l _ _ _ _ _ Hn Hp) as (p' & ? & ?). by exists p'. }
  destruct l as [j now slice|j now|j|l ws|j|j]; cbn in E.
  - unfold proc_step in E. destruct (procs s !! j) as [q|]; [|done]. cbn in E.
    destruct (thread_step _ _ _ _ q) as [[q' h']|]; simplify_eq/=.
    exists p. rewrite list_lookup_insert_ne by (intros ->; by eapply Hl). eauto using nudged_refl.
  - destruct (procs s !! j) as [q|]; [|done]. cbn in E. destruct (at_ q); try done. destruct (_ <=? _); [|done].
    by apply Hnudge, (nudges_wake_up j).
  - by apply Hnudge, (nudges_wake_up j).
  - apply Hnudge. destruct (client_spec _ _ _ _ E) as (_ & _ & _ & Hd). by eapply nudges_deliver.
  - by apply Hnudge, (nudges_shutdown j).
  - by apply Hnudge, (nudges_stop j).
Qed.

Lemma ahead_nudged k0 a p p' : nudged p p' → ahead k0 a p → ahead k0 a p'.
Proof. intros (_ & _ & _ & [Ha|[_ Ha]]); unfold ahead; by rewrite Ha. Qed.

(** A processor that is to look for a routine does not give up. *)
Definition seeks (i a : nat) (c0 : CRoutine.t) (s : t) : Prop :=
  ∃ p, procs s !! i = Some p ∧ group p = group_name_ c0 ∧
    (running_ p = true → stop_ (context_ p) = false → ahead (Z.to_nat (priority_ c0)) a p).

Lemma seeks_step id i a c0 l s s' :
  inv s → pending id a c0 s = true → seeks i a c0 s → step l s = Some s' → seeks i a c0 s'.
Proof.
  intros Hi (Hid & c & Hc & (_ & Epr & Egr & _) & Hl & Ho)%pending_spec (p & Hp & Hg & Ha) E.
  assert ((∃ now slice, l = LStep i now slice) ∨ ∀ now slice, l ≠ LStep i now slice) as [(now & slice & ->)|Hl'].
  { destruct l as [j now slice| | | | |]; try by right. destruct (decide (j = i)) as [->|]; [left; eauto|right; congruence]. }
  - cbn in E. unfold proc_step in E. rewrite Hp in E. cbn in E.
    destruct (thread_step _ _ _ _ p) as [[p' h']|] eqn:Et; simplify_eq/=. apply thread_moves in Et.
    destruct (thread_keeps _ _ _ _ _ _ _ Et) as (Eg & Er & Es & _). destruct (registered_queued s id a c Hi Hid Hc) as [Hq Hk].
    exists p'. split_and!; [cbn; apply list_lookup_insert_eq; by eapply lookup_lt_Some|congruence|]. rewrite Er, Es. intros Hr Hs.
    rewrite <-Epr. rewrite Egr, <-Hg in Hq. eapply moves_ahead; eauto. rewrite Epr. by apply Ha.
  - destruct (step_other _ _ _ _ _ E Hl' Hp) as (p' & Hp' & Hn). pose proof Hn as (Eg & Er & Es & _).
    exists p'. split_and!; [done|congruence|]. intros Hr Hs. eapply ahead_nudged; [exact Hn|]. auto.
Qed.

Lemma seeks_while id i a c0 s1 s :
  inv s1 → pending id a c0 s1 = true → reachable (step_while id a c0) s1 s →
  inv s ∧ pending id a c0 s = true ∧ (seeks i a c0 s1 → seeks i a c0 s).
Proof.
  intros Hi Hp. apply (reachable_inv _ (λ s, inv s ∧ pending id a c0 s = true ∧ (seeks i a c0 s1 → seeks i a c0 s))); [done|].
  intros l s2 s3 (Hi2 & Hp2 & Hs2) E. unfold step_while in E. destruct (step l s2) as [s'|] eqn:Es; [|done]. cbn in E.
  destruct (pending id a c0 s') eqn:Hp'; simplify_eq. split_and!; [by eapply inv_step|done|].
  intros Hs. eapply seeks_step; [exact Hi2|exact Hp2|by apply Hs2|exact Es].
Qed.

Lemma sought_of_seeks id i a c0 s p :
  inv s → pending id a c0 s = true → seeks i a c0 s → procs s !! i = Some p → running_ p = true → stop_ (context_ p) = false →
  sought id a i s p.
Proof.
  intros Hi (Hid & c & Hc & (_ & Epr & Egr & _) & Hl & Ho)%pending_spec (p' & Hp' & Hg & Ha) Hp Hr Hs. simplify_eq.
  split_and!; try done. exists c. split_and!; [done..|congruence|rewrite Epr; auto|by left].
Qed.

(** A free routine is left alone by a thread, or taken. *)
Lemma moves_free now slice gs h p p' h' a c :
  moves now slice gs h p p' h' → holds p ≠ Some a → h !! a = Some c → lock_ c = false →
  h' !! a = Some c ∨ (h' !! a = Some (set_lock true c) ∧ ∃ k q, at_ p' = PUpdate k a q).
Proof.
  intros H Hn Hc Hl. unfold holds in Hn.
  destruct H; match goal with E : at_ p = _ |- _ => rewrite E in Hn end; try (by left);
    rewrite lookup_insert; case_decide; simplify_eq; auto. right. split; [done|]. cbn. eauto.
Qed.

Lemma pending_sched id a c0 s s' : sched_ s' = sched_ s → pending id a c0 s' = pending id a c0 s.
Proof. unfold pending. by intros ->. Qed.

Lemma nudging_sched l s s' :
  step l s = Some s' → (∀ i now slice, l ≠ LStep i now slice) → (∀ l' ws, l ≠ LClient l' ws) → sched_ s' = sched_ s.
Proof.
  intros E Hl Hc. destruct l as [i now slice|i now|i|l ws|i|i]; cbn in E; [by destruct (Hl i now slice)| | |by destruct (Hc l ws)|..].
  - destruct (procs s !! i) as [q|]; [|done]. cbn in E. destruct (at_ q); try done. destruct (_ <=? _); [|done].
    by apply (nudges_wake_up i).
  - by apply (nudges_wake_up i).
  - by apply (nudges_shutdown i).
  - by apply (nudges_stop i).
Qed.

(** Taken by a thread, which is about to bring its state up to date. *)
Definition taken (a : nat) (s : t) : Prop :=
  ∃ j p, procs s !! j = Some p ∧ holds p = Some a ∧ ∀ now slice, ∃ s' p',
    step (LStep j now slice) s = Some s' ∧ procs s' !! j = Some p' ∧ at_ p' = PResume a.

Lemma pending_ends id a c0 l s s' :
  inv s → pending id a c0 s = true → step l s = Some s' → pending id a c0 s' = false →
  taken a s' ∨ ∃ name ws, l = LClient (Tasks.LRemove name) ws ∧ GlobalData.GenerateHashId hash name = id.
Proof.
  intros Hi Hp E Hp'. pose proof Hp as (Hid & c & Hc & Hs & Hl & Ho)%pending_spec.
  assert (id_cr_ (sched_ s') !! id = Some a → (∃ c', crs (sched_ s') !! a = Some c' ∧ same_identity c0 c' ∧ lock_ c' = false ∧ owed c' = true) → False) as Hno.
  { intros Hid' Hc'. assert (pending id a c0 s' = true) by (by apply pending_spec). congruence. }
  destruct l as [j now slice|j now|j|l ws|j|j].
  2,3,5,6: apply nudging_sched in E; [|done..]; rewrite (pending_sched _ _ _ _ _ E) in Hp'; congruence.
  - left. cbn in E. unfold proc_step in E. destruct (procs s !! j) as [p|] eqn:Hj; [|done]. cbn in E.
    destruct (thread_step _ _ _ _ p) as [[p' h']|] eqn:Et; simplify_eq/=. apply thread_moves in Et.
    destruct (moves_free _ _ _ _ _ _ _ a c Et) as [Hc'|(Hc' & k & q & Hat)]; [|done|done| |].
    + intros Hh. destruct (iv_held _ Hi _ _ _ Hj Hh) as (d & ? & ?). congruence.
    + destruct Hno; [done|]. by exists c.
    + exists j, p'. cbn. assert (<[j:=p']> (procs s) !! j = Some p') as Hj' by (apply list_lookup_insert_eq; by eapply lookup_lt_Some).
      split_and!; [done|unfold holds; by rewrite Hat|]. intros now' slice'. cbn. unfold proc_step, thread_step.
      cbn. rewrite Hj'. cbn. rewrite Hat, Hc'. cbn.
      rewrite (surjective_pairing (UpdateState now' (set_lock true c))), (UpdateState_owed now' (set_lock true c)) by done.
      cbn. eexists _, _. split_and!; [done|cbn; apply list_lookup_insert_eq; by eapply lookup_lt_Some|done].
  - destruct (client_spec _ _ _ _ E) as (Hlr & Et & _). destruct (iv_sched _ Hi) as [Hwf _].
    destruct (client_touches _ _ _ a c Hwf Hlr Et Hc) as [(c' & Hc' & Ht) Hreg].
    destruct (Hreg id Hid) as [Hid'|(name & -> & Hname)]; [|by eauto].
    destruct Ht as [->|[->|(_ & _ & name & -> & Hname)]]; [| |right; exists name, ws; split; [done|]; rewrite Hname; by destruct (Pool.po_ids _ _ _ _ Hwf _ _ Hid) as (d & ? & ?); congruence].
    + destruct Hno; [done|]. by exists c.
    + destruct Hno; [done|]. exists (SetUpdateFlag c). split_and!; try done. unfold owed in *. apply andb_true_iff in Ho as [Hw _].
      apply andb_true_iff. by split.
Qed.

(** *** The notification *)

Lemma notify_signals sc id a c :
  Scheduler.stop_ sc = false → id_cr_ sc !! id = Some a → crs sc !! a = Some c →
  ∃ sc', SchedulerClassic.NotifyProcessor id sc = Some (true, sc') ∧
    signals sc' = signals sc ++ [SGroup (group_name_ c)] ∧ cr_group_ sc' = cr_group_ sc ∧ id_cr_ sc' = id_cr_ sc ∧
    crs sc' = (if waiting c then <[a := SetUpdateFlag c]> (crs sc) else crs sc).
Proof.
  intros Hst Hid Hc. unfold SchedulerClassic.NotifyProcessor. rewrite Hst, Hid, Hc. cbn. eexists.
  split; [done|]. unfold flag. by destruct (waiting c).
Qed.

Lemma locks_ok_same gs ps : locks_ok gs gs ps = true.
Proof. unfold locks_ok. apply forallb_forall. intros p _. destruct (reads p); [|done]. by apply bool_decide_eq_true. Qed.

(** Whom a notification may reach. *)
Definition reached (g : string) (ps ps' : list processor) : Prop :=
  (∃ i p, ps !! i = Some p ∧ waits g p = true ∧ ps' = <[i := goto PLoop p]> ps) ∨
  ((∀ i p, ps !! i = Some p → waits g p = false) ∧ ps' = ps).

Lemma notify_one_reached g w ps ps' : notify_one g w ps = Some ps' → reached g ps ps'.
Proof.
  unfold notify_one. destruct w as [i|].
  - destruct (ps !! i) as [p|] eqn:Hp; [|done]. cbn. destruct (waits g p) eqn:Hw; [|done]. intros [= <-]. left. by exists i, p.
  - destruct (existsb (waits g) ps) eqn:He; [done|]. intros [= <-]. right. split; [|done]. intros i p Hp.
    destruct (waits g p) eqn:Hw; [|done]. rewrite <-He. symmetry. apply existsb_exists. exists p.
    split; [|done]. apply list_elem_of_In. by eapply list_elem_of_lookup_2.
Qed.

Lemma notify_one_enabled g ps : ∃ w ps', notify_one g w ps = Some ps'.
Proof.
  unfold notify_one. destruct (existsb (waits g) ps) eqn:He.
  - apply existsb_exists in He as (p & Hp%list_elem_of_In & Hw). apply list_elem_of_lookup in Hp as [i Hp].
    exists (Some i). rewrite Hp. cbn. rewrite Hw. by eexists.
  - exists None. by eexists.
Qed.

Lemma notify_step s id a c :
  Scheduler.stop_ (sched_ s) = false → id_cr_ (sched_ s) !! id = Some a → crs (sched_ s) !! a = Some c →
  waiting c = true → lock_ c = false →
  (∃ ws s1, step (LClient (Tasks.LNotify id) ws) s = Some s1) ∧
  ∀ ws s1, step (LClient (Tasks.LNotify id) ws) s = Some s1 →
    pending id a c s1 = true ∧ reached (group_name_ c) (procs s) (procs s1).
Proof.
  intros Hst Hid Hc Hw Hl. destruct (notify_signals _ _ _ _ Hst Hid Hc) as (sc & En & Hsig & Hg & Hids & Hh). rewrite Hw in Hh.
  assert (∀ ws, step (LClient (Tasks.LNotify id) ws) s =
    (ps ← deliver [SGroup (group_name_ c)] ws (procs s); Some (mk sc ps))) as Estep.
  { intros ws. cbn -[deliver]. unfold Scheduler.NotifyTask. rewrite Hst. cbn -[deliver]. rewrite En. cbn -[deliver].
    rewrite Hg, locks_ok_same, Hsig, drop_app_length. done. }
  split.
  - destruct (notify_one_enabled (group_name_ c) (procs s)) as (w & ps & E). exists [w]. rewrite Estep. cbn. rewrite E. by eexists.
  - intros ws s1. rewrite Estep. destruct ws as [|w ws]; [done|]. cbn.
    destruct (notify_one (group_name_ c) w (procs s)) as [ps|] eqn:E; [|done]. destruct ws as [|w' ws]; [|done].
    intros [= <-]. split; [|by eapply notify_one_reached]. apply pending_spec. cbn. rewrite Hids, Hh. split; [done|].
    exists (SetUpdateFlag c). rewrite lookup_insert_eq. split_and!; try done. unfold owed. apply andb_true_iff. by split.
Qed.

(** C33: a notification of a routine that waits is not lost.  Processors of any
    groups and clients start without a task; after any interleaving, let a
    registered routine wait for data or I/O while no processor holds it.
    Notifying it is possible and wakes exactly one of the processors that wait
    on the condition variable of its group, if there is one.  From then on,
    whatever processors and clients do: the routine stays registered, notified and
    free until a processor takes it — that processor's next step then finds it
    ready and runs it — or a client removes its task; meanwhile the processor that
    was woken, unless it is stopped, does not go back to the wait, and whenever it
    is left to itself it comes to have a ready routine, held by it. *)
Theorem processor_notified_runs gs s id a c :
  reachable step (initial gs) s → Scheduler.stop_ (sched_ s) = false →
  id_cr_ (sched_ s) !! id = Some a → crs (sched_ s) !! a = Some c → waiting c = true → lock_ c = false →
  (∃ ws s1, step (LClient (Tasks.LNotify id) ws) s = Some s1) ∧
  ∀ ws s1, step (LClient (Tasks.LNotify id) ws) s = Some s1 →
    pending id a c s1 = true ∧ reached (group_name_ c) (procs s) (procs s1) ∧
    ∀ s2, reachable (step_while id a c) s1 s2 →
      (∀ l s3, step l s2 = Some s3 → pending id a c s3 = false →
         taken a s3 ∨ ∃ name ws, l = LClient (Tasks.LRemove name) ws ∧ GlobalData.GenerateHashId hash name = id) ∧
      ∀ i p p2, procs s !! i = Some p → procs s1 = <[i := goto PLoop p]> (procs s) → waits (group_name_ c) p = true →
        procs s2 !! i = Some p2 → running_ p2 = true → stop_ (context_ p2) = false →
        idle p2 = false ∧
        ∀ now slice, ∃ k s3 p3 b d, run step (replicate k (LStep i now slice)) s2 = Some s3 ∧ procs s3 !! i = Some p3 ∧
          at_ p3 = PResume b ∧ crs (sched_ s3) !! b = Some d ∧ state_ d = READY ∧ lock_ d = true.
Proof.
  intros Hr Hst Hid Hc Hw Hl. apply inv_reachable in Hr as Hi.
  destruct (notify_step s id a c Hst Hid Hc Hw Hl) as [Hex Hall]. split; [exact Hex|]. intros ws s1 E.
  destruct (Hall ws s1 E) as [Hp Hre]. pose proof (inv_step _ _ _ Hi E) as Hi1. split_and!; [done|done|]. intros s2 H2.
  destruct (seeks_while id 0 a c s1 s2 Hi1 Hp H2) as (Hi2 & Hp2 & _). split.
  { intros l s3. by apply pending_ends. }
  intros i p p2 Hpi Hps Hwt Hpi2 Hrun Hstop.
  destruct (seeks_while id i a c s1 s2 Hi1 Hp H2) as (_ & _ & Hs).
  assert (seeks i a c s2) as Hs2.
  { apply Hs. exists (goto PLoop p). split_and!; [rewrite Hps; apply list_lookup_insert_eq; by eapply lookup_lt_Some| |done].
    unfold waits in Hwt. destruct (at_ p); try done; by apply bool_decide_eq_true in Hwt. }
  pose proof (sought_of_seeks _ _ _ _ _ _ Hi2 Hp2 Hs2 Hpi2 Hrun Hstop) as Hso. split.
  - destruct Hso as (_ & _ & _ & _ & d & _ & _ & _ & Ha & _). by eapply ahead_idle.
  - intros now slice. eapply sought_runs; [exact Hi2|exact Hso|apply Nat.lt_succ_diag_r].
Qed.

(** *** Stopping a processor *)

Lemma lstep_put i now slice s p p' h' :
  procs s !! i = Some p → thread_step now slice (cr_group_ (sched_ s)) (crs (sched_ s)) p = Some (p', h') →
  step (LStep i now slice) s = Some (put i p' h' s) ∧ procs (put i p' h' s) !! i = Some p'.
Proof.
  intros Hp Et. split; [cbn; unfold proc_step; rewrite Hp; cbn; by rewrite Et|].
  cbn. apply list_lookup_insert_eq. by eapply lookup_lt_Some.
Qed.

(** The thread of processor [i], left to itself, returns. *)
Definition returns (i : nat) (now : Z) (slice : CRoutine.t → CRoutine.t) (s : t) : Prop :=
  ∃ k s2 p2, run step (replicate k (LStep i now slice)) s = Some s2 ∧ procs s2 !! i = Some p2 ∧ at_ p2 = PReturned.

Lemma returns_step i now slice s s1 :
  step (LStep i now slice) s = Some s1 → returns i now slice s1 → returns i now slice s.
Proof.
  intros E (k & s2 & p2 & Hrun & H). exists (S k), s2, p2. split; [|done]. cbn -[step]. rewrite E. exact Hrun.
Qed.

Lemma returns_loop i now slice s p :
  procs s !! i = Some p → running_ p = false → at_ p = PLoop → returns i now slice s.
Proof.
  intros Hp Hr Ha. destruct (lstep_put i now slice s p (goto PReturned p) (crs (sched_ s)) Hp) as [E Hp'].
  { unfold thread_step. by rewrite Ha, Hr. }
  eapply returns_step; [exact E|]. exists 0%nat. eexists _, _. by split_and!.
Qed.

Lemma moves_to_wait now slice gs h p p' h' :
  moves now slice gs h p p' h' → idle p = false → running_ p = false → idle p' = true →
  at_ p' = PBeforeWait ∨ at_ p' = PReturned.
Proof.
  unfold idle. intros H Hi Hr. destruct H; match goal with E : at_ p = _ |- _ => rewrite E in Hi end; try done; cbn; rewrite ?Hr; auto.
  destruct (stop_ _); auto. done.
Qed.

Lemma stopped_returns i now slice n :
  (∀ c, same_identity c (slice c)) →
  ∀ s p, inv s → procs s !! i = Some p → running_ p = false → stop_ (context_ p) = true →
  (idle p = true → at_ p = PBeforeWait ∨ at_ p = PReturned) → (left (cr_group_ (sched_ s)) p < n)%nat →
  returns i now slice s.
Proof.
  intros Hsl. induction n as [|n IH]; intros s p Hi Hp Hr Hs Hidle Hn; [lia|].
  assert (idle p = true ∨ (∃ b, at_ p = PResume b) ∨ (idle p = false ∧ ∀ b, at_ p ≠ PResume b)) as [Hid|[[b Hb]|[Hid Hb]]].
  { unfold idle. destruct (at_ p); auto; try (right; right; split; [done|]; by intros); right; left; eauto. }
  - destruct (Hidle Hid) as [Ha|Ha]; [|exists 0%nat, s, p; by split_and!].
    destruct (lstep_put i now slice s p (goto PLoop p) (crs (sched_ s)) Hp) as [E Hp']; [unfold thread_step; by rewrite Ha, Hs|].
    eapply returns_step; [exact E|]. by eapply returns_loop.
  - destruct (iv_held _ Hi i p b Hp) as (d & Hd & _); [unfold holds; by rewrite Hb|].
    destruct (lstep_put i now slice s p (goto PLoop p) (<[b := Release (Resume slice d).2]> (crs (sched_ s))) Hp) as [E Hp'].
    { unfold thread_step. rewrite Hb, Hd. cbn -[Resume]. rewrite bool_decide_true; [done|].
      unfold Resume. destruct (force_stop_ d); [done|]. case_bool_decide; [done|]. exact (Hsl d). }
    eapply returns_step; [exact E|]. by eapply returns_loop.
  - destruct (thread_total now slice s i p Hi Hp Hid Hb) as (p' & h' & Et).
    destruct (lstep_put _ _ _ _ _ _ _ Hp Et) as [E Hp']. apply thread_moves in Et as Hm.
    destruct (thread_keeps _ _ _ _ _ _ _ Hm) as (_ & Er & Es & _). eapply returns_step; [exact E|].
    assert (idle p' = true → at_ p' = PBeforeWait ∨ at_ p' = PReturned) as Hidle'.
    { by eapply moves_to_wait. }
    destruct (idle p') eqn:Hid'.
    + destruct (Hidle' eq_refl) as [Ha|Ha]; [|exists 0%nat; eexists _, _; by split_and!].
      destruct (lstep_put i now slice (put i p' h' s) p' (goto PLoop p') h') as [E2 Hp2]; [exact Hp'| |].
      { unfold thread_step. rewrite Ha, Es, Hs. reflexivity. }
      eapply returns_step; [exact E2|]. eapply returns_loop; [exact Hp2|cbn; congruence|done].
    + pose proof (moves_left _ _ _ _ _ _ _ Hm Hid Hb Hid'). eapply (IH _ p'); [by eapply inv_put|exact Hp'|congruence..|by rewrite Hid'|cbn; lia].
Qed.

(** [Processor::Stop] and the wait.  If the processor's thread is not between
    the check of [stop_] and the wait, then after [Stop] it returns, whatever it
    is doing, once it is left to itself and the routine it runs yields.  But in
    that window [Stop], which signals without holding the mutex, is missed: the
    thread enters the untimed wait, no step of its own is left, and [join] never
    returns unless something else wakes the group. *)
Theorem processor_stop gs s i p :
  reachable step (initial gs) s → procs s !! i = Some p → running_ p = true →
  ∃ s1, step (LStop i) s = Some s1 ∧
    (at_ p ≠ PLock → ∀ now slice, (∀ c, same_identity c (slice c)) → returns i now slice s1) ∧
    (at_ p = PLock → need_sleep_ (context_ p) = false →
       ∀ now slice, ∃ s2 p2, step (LStep i now slice) s1 = Some s2 ∧ procs s2 !! i = Some p2 ∧ running_ p2 = false ∧
         ∀ now' slice', step (LStep i now' slice') s2 = None ∧ step (LTimeout i now') s2 = None).
Proof.
  intros Hreach Hp Hr. apply inv_reachable in Hreach as Hi.
  set (q := mkp (Shutdown (context_ p)) false (at_ p)).
  set (q1 := if waits (group p) q then goto PLoop q else q).
  assert (i < length (procs s))%nat as Hlt by (by eapply lookup_lt_Some).
  assert (∃ s1, step (LStop i) s = Some s1 ∧ procs s1 !! i = Some q1) as (s1 & E & Hp1).
  { cbn. unfold stop. rewrite Hp. cbn. rewrite Hr. unfold shutdown. cbn. rewrite list_lookup_insert_eq by done. cbn.
    eexists. split; [done|]. cbn. unfold notify_all. rewrite list_lookup_fmap, list_insert_insert_eq, list_lookup_insert_eq by done. done. }
  pose proof (inv_step _ _ _ Hi E) as Hi1. exists s1. split_and!; [done| |].
  - intros Hat now slice Hsl. eapply (stopped_returns _ _ _ (S (left _ q1)) Hsl s1 q1); [done|done|..|apply Nat.lt_succ_diag_r];
      subst q1; destruct (waits (group p) q) eqn:Hw; try done.
    unfold idle, waits in *. cbn in *. destruct (at_ p); try done; auto; rewrite bool_decide_true in Hw by done; done.
  - intros Hat Hns now slice. assert (q1 = q) as Eq by (subst q1; unfold waits; cbn; by rewrite Hat). rewrite Eq in Hp1.
    edestruct (lstep_put i now slice s1 q) as [E2 Hp2]; [exact Hp1|unfold thread_step; cbn; rewrite Hat; unfold wait_on; cbn; rewrite Hns; done|].
    eexists _, _. split; [exact E2|]. split; [exact Hp2|]. split; [done|]. intros now' slice'. cbn -[put]. unfold proc_step. rewrite Hp2. done.
Qed.
End processors.

(** ** Two processors of the default group, one task *)
Definition demo_conf : SchedulerClassic.conf := SchedulerClassic.mkconf ∅ [DEFAULT_GROUP_NAME].
Definition demo_groups : list string := [DEFAULT_GROUP_NAME; DEFAULT_GROUP_NAME].
Definition demo_step : label → t → option t := step demo_conf GlobalData.demo_hash.

Lemma demo_groups_ok : SchedulerClassic.groups demo_conf ≠ [].
Proof. done. Qed.

Definition steps (n i : nat) : list label := replicate n (LStep i 0 HangUp).

(** The task is created; the first processor runs it until it waits for data (44
    steps); a processor that finds nothing ready takes 46 steps to the entry of the
    wait. *)
Definition demo_start : list label := LClient (Tasks.LCreate 0 "cam" true) [None] :: steps 44 0.
Definition demo_waiting : list label := demo_start ++ steps 48 0 ++ steps 48 1.
Definition notify (w : option nat) : label := LClient (Tasks.LNotify 3) [w].

Definition state_after (tr : list label) : t := default (initial demo_groups) (run demo_step tr (initial demo_groups)).

(** The states that [run] reaches, to be computed. *)
Definition demo_blocked : t := Eval vm_compute in state_after demo_waiting.
Definition demo_notified : t := Eval vm_compute in state_after (demo_waiting ++ [notify (Some 1%nat)]).
Definition demo_routine : CRoutine.t := Eval vm_compute in default (CRoutine.CRoutine 0) (crs (sched_ demo_blocked) !! 0%nat).

(** Everybody is blocked, no step of theirs is left, and the task is notified,
    free and waits to be run. *)
Definition all_blocked (s : t) : Prop :=
  (∀ i p, procs s !! i = Some p → at_ p = PBlocked ∧ running_ p = true) ∧ pending 3 0%nat demo_routine s = true ∧
  ∀ i now slice, demo_step (LStep i now slice) s = None ∧ demo_step (LTimeout i now) s = None.

Lemma all_blocked_intro s :
  forallb (λ p, bool_decide (running_ p = true) && match at_ p with PBlocked => true | _ => false end) (procs s) = true →
  pending 3 0%nat demo_routine s = true → all_blocked s.
Proof.
  intros H Hp. rewrite forallb_forall in H.
  assert (∀ i p, procs s !! i = Some p → at_ p = PBlocked ∧ running_ p = true) as Hb.
  { intros i p Hi. specialize (H p (proj1 (list_elem_of_In _ _) (list_elem_of_lookup_2 _ _ _ Hi))).
    apply andb_true_iff in H as [?%bool_decide_eq_true H]. by destruct (at_ p). }
  split_and!; [done|done|]. intros i now slice. cbn. unfold proc_step, thread_step.
  destruct (procs s !! i) as [p|] eqn:Hi; [|done]. cbn. by destruct (Hb i p Hi) as [-> _].
Qed.

(** A notification can be lost.  First, when it comes between the processors'
    walks and their waits, it reaches nobody, for [Notify] neither takes the mutex
    nor leaves a trace that [Wait] would test.  Second, when it comes while a
    processor visits the routine, past [UpdateState] and before [Release]: the
    processor that it wakes finds the routine held and passes on.  In both cases
    all processors end up blocked although the routine may run. *)
Theorem processor_lost_notification :
  (∃ s, run demo_step (demo_start ++ steps 47 0 ++ steps 47 1 ++ notify None :: steps 1 0 ++ steps 1 1)
     (initial demo_groups) = Some s ∧ all_blocked s) ∧
  (∃ s, run demo_step (demo_start ++ steps 48 1 ++ steps 43 0 ++ notify (Some 1%nat) :: steps 46 1 ++ steps 5 0)
     (initial demo_groups) = Some s ∧ all_blocked s).
Proof.
  split; eexists; (split; [vm_compute; reflexivity|]); apply all_blocked_intro; vm_compute; reflexivity.
Qed.

Lemma demo_blocked_reachable : reachable demo_step (initial demo_groups) demo_blocked.
Proof. apply (run_reachable _ _ demo_waiting). vm_compute. reflexivity. Qed.

(** Both processors are blocked; the second is woken, and takes the task. *)
Lemma processor_notified_runs_witness :
  run demo_step demo_waiting (initial demo_groups) = Some demo_blocked ∧
  demo_step (notify (Some 1%nat)) demo_blocked = Some demo_notified ∧
  ∃ k s3 p3 b, run demo_step (replicate k (LStep 1 0 HangUp)) demo_notified = Some s3 ∧ procs s3 !! 1%nat = Some p3 ∧
    at_ p3 = PResume b.
Proof.
  split_and!; [vm_compute; reflexivity|vm_compute; reflexivity|].
  destruct (processor_notified_runs demo_conf GlobalData.demo_hash demo_groups_ok demo_groups demo_blocked 3 0%nat demo_routine
    demo_blocked_reachable) as [_ H]; [vm_compute; reflexivity..|].
  destruct (H [Some 1%nat] demo_notified) as (_ & _ & H2); [vm_compute; reflexivity|].
  destruct (H2 demo_notified) as [_ H3]; [constructor|].
  set (p := mkp (ClassicContext DEFAULT_GROUP_NAME) true PBlocked).
  destruct (H3 1%nat p (goto PLoop p)) as [_ H4]; [vm_compute; reflexivity..|].
  destruct (H4 0 HangUp) as (k & s3 & p3 & b & d & H5 & H6 & H7 & _). by exists k, s3, p3, b.
Defined.

Definition demo_window : t := Eval vm_compute in state_after (demo_start ++ steps 47 0).

Lemma processor_stop_witness :
  run demo_step (demo_start ++ steps 47 0) (initial demo_groups) = Some demo_window ∧
  at_ <$> procs demo_window = [PLock; PLoop] ∧ ∃ s1, demo_step (LStop 0) demo_window = Some s1.
Proof.
  split_and!; [vm_compute; reflexivity|reflexivity|].
  edestruct (processor_stop demo_conf GlobalData.demo_hash demo_groups_ok demo_groups demo_window 0%nat) as (s1 & E & _);
    [apply (run_reachable _ _ (demo_start ++ steps 47 0)); vm_compute; reflexivity|vm_compute; reflexivity|reflexivity|].
  by exists s1.
Defined.
End Processor.
