(* ===== verification/Shm.v ===== *)
(** * Shared memory transport: sizes, records and locks
    ([cyber/transport/shm/shm_conf.cc], [readable_info.cc], [block.cc],
    [state.h])

    [ShmConf]: the layout of a segment for a message size.  [ReadableInfo]: the
    20 bytes that a writer sends to its readers.  [Block]: the lock of a block,
    every access a step.  [State]: the counters at the head of a segment. *)

From S2P Require Import Prelude.

Local Open Scope Z_scope.
Local Open Scope cyber_scope.

(** ** [ShmConf] *)
Module ShmConf.

Definition EXTRA_SIZE : Z := 1024 * 4.
Definition STATE_SIZE : Z := 1024.
Definition BLOCK_SIZE : Z := 1024.
Definition MESSAGE_INFO_SIZE : Z := 1024.
Definition BLOCK_NUM_16K : Z := 512.
Definition MESSAGE_SIZE_16K : Z := 1024 * 16.
Definition BLOCK_NUM_128K : Z := 128.
Definition MESSAGE_SIZE_128K : Z := 1024 * 128.
Definition BLOCK_NUM_1M : Z := 64.
Definition MESSAGE_SIZE_1M : Z := 1024 * 1024.
Definition BLOCK_NUM_8M : Z := 32.
Definition MESSAGE_SIZE_8M : Z := 1024 * 1024 * 8.
Definition BLOCK_NUM_16M : Z := 16.
Definition MESSAGE_SIZE_16M : Z := 1024 * 1024 * 16.
Definition BLOCK_NUM_MORE : Z := 8.
Definition MESSAGE_SIZE_MORE : Z := 1024 * 1024 * 32.

Record t := mk {
  ceiling_msg_size : Z;
  block_buf_size : Z;
  block_num : Z;
  managed_shm_size : Z;
}.

Definition GetCeilingMessageSize (real_msg_size : Z) : Z :=
  if real_msg_size <=? MESSAGE_SIZE_16K then MESSAGE_SIZE_16K
  else if real_msg_size <=? MESSAGE_SIZE_128K then MESSAGE_SIZE_128K
  else if real_msg_size <=? MESSAGE_SIZE_1M then MESSAGE_SIZE_1M
  else if real_msg_size <=? MESSAGE_SIZE_8M then MESSAGE_SIZE_8M
  else if real_msg_size <=? MESSAGE_SIZE_16M then MESSAGE_SIZE_16M
  else MESSAGE_SIZE_MORE.

Definition GetBlockBufSize (ceiling : Z) : Z := ceiling +64 MESSAGE_INFO_SIZE.

Definition GetBlockNum (ceiling : Z) : Z :=
  if ceiling =? MESSAGE_SIZE_16K then BLOCK_NUM_16K
  else if ceiling =? MESSAGE_SIZE_128K then BLOCK_NUM_128K
  else if ceiling =? MESSAGE_SIZE_1M then BLOCK_NUM_1M
  else if ceiling =? MESSAGE_SIZE_8M then BLOCK_NUM_8M
  else if ceiling =? MESSAGE_SIZE_16M then BLOCK_NUM_16M
  else if ceiling =? MESSAGE_SIZE_MORE then BLOCK_NUM_MORE
  else 0.

(** [Update(real_msg_size)], which is also the constructor. *)
Definition Update (real_msg_size : Z) : t :=
  let c := GetCeilingMessageSize real_msg_size in
  let b := GetBlockBufSize c in
  let n := GetBlockNum c in
  mk c b n (EXTRA_SIZE +64 STATE_SIZE +64 u64 ((BLOCK_SIZE +64 b) * n)).

Definition default_conf : t := Update MESSAGE_SIZE_16K.

(** The six layouts. *)
Definition sizes : list Z :=
  [MESSAGE_SIZE_16K; MESSAGE_SIZE_128K; MESSAGE_SIZE_1M; MESSAGE_SIZE_8M; MESSAGE_SIZE_16M; MESSAGE_SIZE_MORE].

Lemma ceiling_sizes real : GetCeilingMessageSize real ∈ sizes.
Proof. unfold GetCeilingMessageSize, sizes. repeat case_match; rewrite !elem_of_cons; tauto. Qed.

Lemma ceiling_update real : ceiling_msg_size (Update real) = GetCeilingMessageSize real.
Proof. done. Qed.

Lemma ceiling_fits real : real <= GetCeilingMessageSize real ↔ real <= 32 * 1024 * 1024.
Proof.
  unfold GetCeilingMessageSize, MESSAGE_SIZE_16K, MESSAGE_SIZE_128K, MESSAGE_SIZE_1M, MESSAGE_SIZE_8M,
    MESSAGE_SIZE_16M, MESSAGE_SIZE_MORE.
  repeat (match goal with |- context [?a <=? ?b] => destruct (Z.leb_spec a b) end; [lia|]). lia.
Qed.

Lemma ceiling_mono real real' : real <= real' → GetCeilingMessageSize real <= GetCeilingMessageSize real'.
Proof.
  unfold GetCeilingMessageSize, MESSAGE_SIZE_16K, MESSAGE_SIZE_128K, MESSAGE_SIZE_1M, MESSAGE_SIZE_8M,
    MESSAGE_SIZE_16M, MESSAGE_SIZE_MORE. intros H.
  destruct (Z.leb_spec real (1024 * 16)); [repeat match goal with |- context [?a <=? ?b] => destruct (Z.leb_spec a b) end; lia|].
  destruct (Z.leb_spec real' (1024 * 16)); [lia|].
  destruct (Z.leb_spec real (1024 * 128)); [repeat match goal with |- context [?a <=? ?b] => destruct (Z.leb_spec a b) end; lia|].
  destruct (Z.leb_spec real' (1024 * 128)); [lia|].
  destruct (Z.leb_spec real (1024 * 1024)); [repeat match goal with |- context [?a <=? ?b] => destruct (Z.leb_spec a b) end; lia|].
  destruct (Z.leb_spec real' (1024 * 1024)); [lia|].
  repeat match goal with |- context [?a <=? ?b] => destruct (Z.leb_spec a b) end; lia.
Qed.

(** What the rest of a layout is, by its ceiling. *)
#[export] Instance t_eq_dec : EqDecision t.
Proof. solve_decision. Defined.

Definition regular (real : Z) : bool :=
  let c := Update real in
  bool_decide (Update (ceiling_msg_size c) = c) && bool_decide (block_num c ∈ [8; 16; 32; 64; 128; 512]) &&
  (block_buf_size c =? ceiling_msg_size c + MESSAGE_INFO_SIZE) && (managed_shm_size c <? 2 ^ 32) &&
  (managed_shm_size c =? EXTRA_SIZE + STATE_SIZE + (BLOCK_SIZE + block_buf_size c) * block_num c) &&
  (0 <? ceiling_msg_size c).

Lemma Update_regular real : regular real = true.
Proof.
  assert (forallb (λ c, regular c && bool_decide (GetCeilingMessageSize c = c)) sizes = true) as H by (vm_compute; reflexivity).
  rewrite forallb_forall in H. specialize (H _ (proj1 (list_elem_of_In _ _) (ceiling_sizes real))).
  apply andb_true_iff in H as [H E%bool_decide_eq_true]. rewrite <-H. unfold regular, Update. by rewrite E.
Qed.

Record regular_conf (c : t) : Prop := {
  rc_update : Update (ceiling_msg_size c) = c;
  rc_num : block_num c ∈ [8; 16; 32; 64; 128; 512];
  rc_buf : block_buf_size c = ceiling_msg_size c + MESSAGE_INFO_SIZE;
  rc_small : managed_shm_size c < 2 ^ 32;
  rc_size : managed_shm_size c = EXTRA_SIZE + STATE_SIZE + (BLOCK_SIZE + block_buf_size c) * block_num c;
  rc_pos : 0 < ceiling_msg_size c;
}.

Lemma Update_conf real : regular_conf (Update real).
Proof.
  pose proof (Update_regular real) as H. unfold regular in H.
  repeat (apply andb_true_iff in H as [H ?]). split;
    repeat match goal with
    | H : bool_decide _ = true |- _ => apply bool_decide_eq_true in H
    | H : (_ =? _) = true |- _ => apply Z.eqb_eq in H
    | H : (_ <? _) = true |- _ => apply Z.ltb_lt in H
    end; done.
Qed.

Lemma block_num_pow2 c : regular_conf c → ∃ n, 3 <= n <= 9 ∧ block_num c = 2 ^ n.
Proof.
  intros Hc. pose proof (rc_num c Hc) as H. rewrite !elem_of_cons, elem_of_nil in H.
  destruct H as [-> |[-> |[-> |[-> |[-> |[-> |[]]]]]]];
    [exists 3|exists 4|exists 5|exists 6|exists 7|exists 9]; (split; [lia|reflexivity]).
Qed.

(** The layout of a segment.  The size classes are closed: the layout
    computed from a segment's own ceiling is the same again (so every process
    that opens the segment agrees with its creator), and a larger message never
    gets a smaller ceiling.  The number of blocks is a power of two, nothing
    overflows, and state, blocks and buffers lie one after the other inside the
    segment for every [State] and [Block] that fit their reserved sizes.  A
    message fits the ceiling exactly if it has at most 32 MiB. *)
Theorem shm_conf_layout real real' i state_size block_size :
  let c := Update real in
  Update (ceiling_msg_size c) = c ∧
  (real <= real' → ceiling_msg_size c <= ceiling_msg_size (Update real')) ∧
  (∃ n, 3 <= n <= 9 ∧ block_num c = 2 ^ n) ∧
  block_buf_size c = ceiling_msg_size c + MESSAGE_INFO_SIZE ∧
  (real <= ceiling_msg_size c ↔ real <= 32 * 1024 * 1024) ∧
  managed_shm_size c < 2 ^ 32 ∧
  (0 <= state_size <= STATE_SIZE → 0 <= block_size <= BLOCK_SIZE → 0 <= i < block_num c →
     0 <= state_size + block_num c * block_size + i * block_buf_size c ∧
     state_size + block_num c * block_size + (i + 1) * block_buf_size c <= managed_shm_size c).
Proof.
  intros c. pose proof (Update_conf real : regular_conf c) as Hc. split_and!.
  - apply Hc.
  - apply ceiling_mono.
  - by apply block_num_pow2.
  - apply Hc.
  - apply ceiling_fits.
  - apply Hc.
  - intros Hs Hb Hi. pose proof (rc_size c Hc) as Es. pose proof (rc_buf c Hc). pose proof (rc_pos c Hc).
    rewrite Es. cbv [EXTRA_SIZE STATE_SIZE BLOCK_SIZE MESSAGE_INFO_SIZE] in *. clearbody c. nia.
Qed.
End ShmConf.

(** ** [ReadableInfo] *)
Module ReadableInfo.

Record t := mk { host_id_ : Z; block_index_ : Z; channel_id_ : Z }.

Definition ReadableInfo : t := mk 0 0 0.
Definition kSize : nat := 8 * 2 + 4.

Definition SerializeTo (x : t) : list Z :=
  bytes_of 8 (host_id_ x) ++ bytes_of 4 (block_index_ x) ++ bytes_of 8 (channel_id_ x).

(** [DeserializeFrom(src, len)] into the object [x]. *)
Definition DeserializeFrom (src : list Z) (x : t) : bool * t :=
  if negb (length src =? kSize)%nat then (false, x)
  else (true, mk (of_bytes (take 8 src)) (of_bytes (take 4 (drop 8 src))) (of_bytes (take 8 (drop 12 src)))).

Definition well_typed (x : t) : Prop :=
  0 <= host_id_ x < 2 ^ 64 ∧ 0 <= block_index_ x < 2 ^ 32 ∧ 0 <= channel_id_ x < 2 ^ 64.

(** The record on the wire.  Serialising and deserialising gives the record
    back, whatever the receiving object held; every source of the right length
    is accepted and is the serialisation of what it is read as; and a source of
    any other length is refused and leaves the object alone. *)
Theorem readable_info_roundtrip x y src :
  well_typed x → Forall byte src →
  length (SerializeTo x) = kSize ∧
  DeserializeFrom (SerializeTo x) y = (true, x) ∧
  (length src = kSize → ∃ z, DeserializeFrom src y = (true, z) ∧ SerializeTo z = src) ∧
  (length src ≠ kSize → DeserializeFrom src y = (false, y)).
Proof.
  intros (H1 & H2 & H3) Hsrc.
  assert (length (SerializeTo x) = kSize) as Hlen.
  { unfold SerializeTo. by rewrite !length_app, !length_bytes_of. }
  split_and!; [done| | |].
  - unfold DeserializeFrom. rewrite Hlen. cbn [Nat.eqb negb kSize]. unfold SerializeTo.
    rewrite take_app_length' by (by rewrite length_bytes_of).
    rewrite drop_app_length' by (by rewrite length_bytes_of). rewrite take_app_length' by (by rewrite length_bytes_of).
    rewrite app_assoc, drop_app_length' by (by rewrite length_app, !length_bytes_of).
    rewrite take_ge by (by rewrite length_bytes_of). rewrite !of_bytes_of by lia. by destruct x.
  - intros Hl. unfold DeserializeFrom. rewrite Hl. cbn [Nat.eqb negb kSize]. eexists. split; [done|]. unfold SerializeTo. cbn [host_id_ block_index_ channel_id_].
    assert (∀ i n, (i + n <= 20)%nat → bytes_of n (of_bytes (take n (drop i src))) = take n (drop i src)) as Hb.
    { intros i n Hin. transitivity (bytes_of (length (take n (drop i src))) (of_bytes (take n (drop i src)))).
      - f_equal. rewrite length_take, length_drop. unfold kSize in Hl. lia.
      - apply bytes_of_of, Forall_take, Forall_drop, Hsrc. }
    pose proof (Hb 0%nat 8%nat) as H0. rewrite drop_0 in H0. rewrite H0, (Hb 8%nat 4%nat), (Hb 12%nat 8%nat) by lia.
    transitivity (take 8 src ++ drop 8 src); [|apply take_drop]. f_equal.
    transitivity (take 4 (drop 8 src) ++ drop 4 (drop 8 src)); [|apply take_drop]. f_equal.
    rewrite drop_drop. apply take_ge. rewrite length_drop. unfold kSize in Hl. lia.
  - intros Hl. unfold DeserializeFrom. by destruct (Nat.eqb_spec (length src) kSize).
Qed.

Definition demo : t := mk 258 7 (2 ^ 64 - 1).

Lemma readable_info_roundtrip_witness :
  take 12 (SerializeTo demo) = [2; 1; 0; 0; 0; 0; 0; 0; 7; 0; 0; 0] ∧
  DeserializeFrom (SerializeTo demo) ReadableInfo = (true, demo).
Proof.
  split; [vm_compute; reflexivity|].
  apply (readable_info_roundtrip demo ReadableInfo []); [|by constructor]. unfold well_typed, demo. cbn. lia.
Defined.
End ReadableInfo.

(** ** [Block] *)
Module Block.

Definition kRWLockFree : Z := 0.
Definition kWriteExclusive : Z := -1.
Definition kMaxTryLockTimes : nat := 5.

(** Where a thread is: outside; in [TryLockForRead] with the value it has read,
    before the [compare_exchange_weak], after so many failures; before reading
    the value again; with a read lock; with the write lock. *)
Inductive pc :=
| Out
| RCas (lock_num : Z) (try_times : nat)
| RLoad (try_times : nat)
| Reading
| Writing.

Record state := mk { lock_num_ : Z; thr : list pc }.

(** [spurious]: a [compare_exchange_weak] fails without a reason. *)
Inductive label :=
| TryLockForWrite (i : nat) (spurious : bool)
| TryLockForRead (i : nat)
| LStep (i : nat) (spurious : bool)
| ReleaseWriteLock (i : nat)
| ReleaseReadLock (i : nat).

Definition read_value (lock : Z) (tries : nat) : pc :=
  if lock <? kRWLockFree then Out else RCas lock tries.

Definition step (l : label) (s : state) : option state :=
  let to i p s := mk (lock_num_ s) (<[i := p]> (thr s)) in
  let to_lock i z p s := mk z (<[i := p]> (thr s)) in
  match l with
  | TryLockForWrite i spurious =>
      match thr s !! i with
      | Some Out =>
          if (lock_num_ s =? kRWLockFree) && negb spurious
          then Some (to_lock i kWriteExclusive Writing s) else Some (to i Out s)
      | _ => None
      end
  | TryLockForRead i =>
      match thr s !! i with
      | Some Out => Some (to i (read_value (lock_num_ s) 0) s)
      | _ => None
      end
  | LStep i spurious =>
      match thr s !! i with
      | Some (RCas v tries) =>
          if (lock_num_ s =? v) && negb spurious
          then Some (to_lock i (i32 (v + 1)) Reading s)
          else if (S tries =? kMaxTryLockTimes)%nat then Some (to i Out s) else Some (to i (RLoad (S tries)) s)
      | Some (RLoad tries) => Some (to i (read_value (lock_num_ s) tries) s)
      | _ => None
      end
  | ReleaseWriteLock i =>
      match thr s !! i with
      | Some Writing => Some (to_lock i (i32 (lock_num_ s + 1)) Out s)
      | _ => None
      end
  | ReleaseReadLock i =>
      match thr s !! i with
      | Some Reading => Some (to_lock i (i32 (lock_num_ s - 1)) Out s)
      | _ => None
      end
  end.

Definition initial (n : nat) : state := mk 0 (replicate n Out).

Definition reads (p : pc) : bool := match p with Reading => true | _ => false end.
Definition writes (p : pc) : bool := match p with Writing => true | _ => false end.

Record inv (n : nat) (s : state) : Prop := {
  bi_len : length (thr s) = n;
  bi_writer : countb writes (thr s) <= 1;
  bi_lock : lock_num_ s = countb reads (thr s) - countb writes (thr s);
  bi_excl : countb writes (thr s) = 1 → countb reads (thr s) = 0;
  bi_tries : ∀ i v k, thr s !! i = Some (RCas v k) → 0 <= v ∧ (k < kMaxTryLockTimes)%nat;
  bi_loads : ∀ i k, thr s !! i = Some (RLoad k) → (k < kMaxTryLockTimes)%nat;
}.

Lemma initial_inv n : inv n (initial n).
Proof.
  split; simpl; rewrite ?length_replicate, ?countb_replicate by done; try done; try lia.
  - intros i v k [? _]%lookup_replicate. done.
  - intros i k [? _]%lookup_replicate. done.
Qed.

(** Updating one thread. *)
Lemma inv_update n z i p q thr :
  inv n (mk z thr) → thr !! i = Some p →
  (∀ v k, q = RCas v k → 0 <= v ∧ (k < kMaxTryLockTimes)%nat) → (∀ k, q = RLoad k → (k < kMaxTryLockTimes)%nat) →
  ∀ z', (countb reads thr - Z.b2z (reads p) + Z.b2z (reads q)) - (countb writes thr - Z.b2z (writes p) + Z.b2z (writes q)) = z' →
  countb writes thr - Z.b2z (writes p) + Z.b2z (writes q) <= 1 →
  (countb writes thr - Z.b2z (writes p) + Z.b2z (writes q) = 1 → countb reads thr - Z.b2z (reads p) + Z.b2z (reads q) = 0) →
  inv n (mk z' (<[i := q]> thr)).
Proof.
  intros [H1 H2 H3 H4 H5 H6] Hi Hq1 Hq2 z' Hz Hw Hx. cbn in *.
  split; cbn; rewrite ?length_insert, ?(countb_insert _ _ _ _ _ Hi); [done|done|lia|done| |].
  - intros j v k. rewrite list_lookup_insert. case_decide as Hd; [|apply H5]. destruct Hd as [-> _].
    intros [= ->]. by apply Hq1.
  - intros j k. rewrite list_lookup_insert. case_decide as Hd; [|apply H6]. destruct Hd as [-> _].
    intros [= ->]. by apply Hq2.
Qed.

Lemma read_value_ok lock tries :
  (tries < kMaxTryLockTimes)%nat →
  (∀ v k, read_value lock tries = RCas v k → 0 <= v ∧ (k < kMaxTryLockTimes)%nat) ∧
  (∀ k, read_value lock tries = RLoad k → (k < kMaxTryLockTimes)%nat) ∧
  reads (read_value lock tries) = false ∧ writes (read_value lock tries) = false.
Proof.
  unfold read_value, kRWLockFree. intros Ht. destruct (Z.ltb_spec lock 0); split_and!; try done. by intros v k [= -> ->].
Qed.

Lemma step_inv n l s s' : Z.of_nat n < 2 ^ 31 - 1 → inv n s → step l s = Some s' → inv n s'.
Proof.
  intros Hn Hinv Hs. destruct s as [z th]. pose proof Hinv as [Hlen Hw Hz Hx Ht Hl]. cbn in Hlen, Hw, Hz, Hx, Ht, Hl.
  pose proof (countb_bounds reads th). pose proof (countb_bounds writes th).
  destruct l as [i sp|i|i sp|i|i]; cbn in Hs; destruct (th !! i) as [p|] eqn:Hi; try done;
    pose proof (countb_lookup reads _ _ _ Hi); pose proof (countb_lookup writes _ _ _ Hi);
    destruct p as [|v k|k| |]; try done; cbn in *.
  - destruct ((z =? kRWLockFree) && negb sp) eqn:E; simplify_eq.
    + apply andb_true_iff in E as [E%Z.eqb_eq _]. unfold kRWLockFree in E.
      eapply inv_update; try done; cbn; unfold kWriteExclusive; lia.
    + eapply inv_update; try done; cbn; lia.
  - simplify_eq. destruct (read_value_ok (countb reads th - countb writes th) 0) as (? & ? & Er & Ew); [cbv; lia|].
    eapply inv_update; try done; cbn; rewrite ?Er, ?Ew; cbn; lia.
  - destruct (Ht _ _ _ Hi) as [Hv Hk]. destruct ((z =? v) && negb sp) eqn:E.
    + apply andb_true_iff in E as [E%Z.eqb_eq _]. simplify_eq. rewrite i32_small by lia.
      eapply inv_update; try done; cbn; lia.
    + destruct (k =? 4)%nat eqn:Ek; simplify_eq; eapply inv_update; try done; cbn; try lia.
      apply Nat.eqb_neq in Ek. intros k' [= <-]. unfold kMaxTryLockTimes in *. lia.
  - simplify_eq. destruct (read_value_ok (countb reads th - countb writes th) k) as (? & ? & Er & Ew); [by eapply Hl|].
    eapply inv_update; try done; cbn; rewrite ?Er, ?Ew; cbn; lia.
  - simplify_eq. rewrite i32_small by lia. eapply inv_update; try done; cbn; lia.
  - simplify_eq. rewrite i32_small by lia. eapply inv_update; try done; cbn; lia.
Qed.

Lemma reachable_block n s : Z.of_nat n < 2 ^ 31 - 1 → reachable step (initial n) s → inv n s.
Proof. intros Hn. apply (reachable_inv step (inv n)); [apply initial_inv|]. intros l s1 s2. by apply step_inv. Qed.

(** The steps that a thread alone still has to make in [TryLockForRead]. *)
Definition fuel (p : pc) : nat :=
  match p with
  | RCas _ k => 1 + 2 * (kMaxTryLockTimes - 1 - k)
  | RLoad k => 2 + 2 * (kMaxTryLockTimes - 1 - k)
  | _ => 0
  end.

(** C22: the lock of a block.  Whatever the threads (fewer than 2{^31} - 1) and
    the failures of [compare_exchange_weak]: while one holds the write lock
    nobody else holds any lock; [lock_num_] is [kWriteExclusive] exactly while
    somebody writes, and otherwise the number of readers, so it is free again
    when all have released; a try to write succeeds exactly when nobody holds
    the block, spurious failures aside; and trying to read is wait-free: every
    step of a thread in [TryLockForRead] brings it closer to its end, which is
    at most ten steps away. *)
Theorem block_exclusion n s i p :
  Z.of_nat n < 2 ^ 31 - 1 → reachable step (initial n) s → thr s !! i = Some p →
  (p = Writing → ∀ j q, j ≠ i → thr s !! j = Some q → q ≠ Writing ∧ q ≠ Reading) ∧
  (lock_num_ s = kWriteExclusive ↔ ∃ j, thr s !! j = Some Writing) ∧
  (lock_num_ s ≠ kWriteExclusive → lock_num_ s = countb reads (thr s)) ∧
  (p = Out → ∃ s', step (TryLockForWrite i false) s = Some s' ∧
     (thr s' !! i = Some Writing ↔ ∀ j q, thr s !! j = Some q → q ≠ Writing ∧ q ≠ Reading)) ∧
  (fuel p <= 10)%nat ∧
  (∀ sp s', step (LStep i sp) s = Some s' → ∃ q, thr s' !! i = Some q ∧ (fuel q < fuel p)%nat).
Proof.
  intros Hn Hr Hi. apply reachable_block in Hr as [Hlen Hw Hz Hx Ht Hl]; [|done].
  pose proof (countb_bounds reads (thr s)) as Hrb. pose proof (countb_bounds writes (thr s)) as Hwb.
  assert ((∃ j, thr s !! j = Some Writing) → countb writes (thr s) = 1) as Hw1.
  { intros [j Hj]. pose proof (countb_lookup writes _ _ _ Hj eq_refl). lia. }
  assert (countb writes (thr s) ≠ 0 → ∃ j, thr s !! j = Some Writing) as Hw2.
  { intros (j & q & Hj & Hq)%countb_exists. exists j. by destruct q. }
  assert ((∀ j q, thr s !! j = Some q → q ≠ Writing ∧ q ≠ Reading) ↔ lock_num_ s = 0) as Hfree.
  { split.
    - intros Hno. destruct (decide (countb writes (thr s) = 0)) as [E|E];
        [|apply Hw2 in E as [j Hj]; by destruct (Hno _ _ Hj)].
      destruct (decide (countb reads (thr s) = 0)) as [E'|E']; [lia|].
      apply countb_exists in E' as (j & q & Hj & Hq). destruct (Hno _ _ Hj). by destruct q.
    - intros Hz0 j q Hj. assert (countb writes (thr s) = 0 ∧ countb reads (thr s) = 0) as [E1 E2] by lia.
      pose proof (countb_none _ _ _ _ E1 Hj). pose proof (countb_none _ _ _ _ E2 Hj). by destruct q. }
  split_and!.
  - intros -> j q Hji Hj. pose proof (Hw1 (ex_intro _ i Hi)) as E. split; intros ->.
    + pose proof (countb_lookup_two writes _ _ _ _ _ Hi Hj eq_refl eq_refl (not_eq_sym Hji)). lia.
    + pose proof (countb_lookup reads _ _ _ Hj eq_refl). lia.
  - unfold kWriteExclusive. split; [intros E; apply Hw2; lia|intros E%Hw1; lia].
  - unfold kWriteExclusive. lia.
  - intros ->. cbn. rewrite Hi, andb_true_r. unfold kRWLockFree.
    assert (i < length (thr s))%nat by by eapply lookup_lt_Some.
    destruct (Z.eqb_spec (lock_num_ s) 0) as [E|E]; (eexists; split; [done|]); cbn;
      rewrite list_lookup_insert_eq by done; rewrite Hfree; split; done.
  - destruct p as [|v k|k| |]; cbn; lia.
  - intros sp s' Hs. cbn in Hs. rewrite Hi in Hs. assert (i < length (thr s))%nat by by eapply lookup_lt_Some.
    destruct p as [|v k|k| |]; try done.
    + destruct (Ht _ _ _ Hi) as [_ Hk]. unfold kMaxTryLockTimes in *.
      destruct ((lock_num_ s =? v) && negb sp); [|destruct (k =? 4)%nat eqn:Ek; [|apply Nat.eqb_neq in Ek]];
        simplify_eq; cbn; rewrite list_lookup_insert_eq by done; (eexists; split; [done|]); cbn; lia.
    + specialize (Hl _ _ Hi). unfold kMaxTryLockTimes in *. simplify_eq. cbn.
      rewrite list_lookup_insert_eq by done. eexists; split; [done|]. unfold read_value. case_match; cbn; lia.
Qed.

(** One reads, another has seen the lock free but is overtaken. *)
Definition demo_trace : list label :=
  [TryLockForRead 1; LStep 1 false; TryLockForRead 0; LStep 0 true; TryLockForWrite 2 false; ReleaseReadLock 1;
   TryLockForWrite 2 false; LStep 0 false].

Lemma block_exclusion_witness :
  ∃ s, run step demo_trace (initial 3) = Some s ∧ thr s = [Out; Out; Writing] ∧ lock_num_ s = kWriteExclusive ∧
    ∀ j q, j ≠ 2%nat → thr s !! j = Some q → q ≠ Writing ∧ q ≠ Reading.
Proof.
  eexists. split_and!; [vm_compute; reflexivity|reflexivity|reflexivity|].
  refine (proj1 (block_exclusion 3 _ 2%nat Writing _ _ _) eq_refl); [lia| |reflexivity].
  apply (run_reachable step _ demo_trace). vm_compute. reflexivity.
Defined.
End Block.
