(* ===== verification/Segment.v ===== *)
(** * A channel's shared memory segment ([cyber/transport/shm/segment.cc],
    [cyber/transport/shm/state.h])

    [State]: the counters at the head of a segment.  [Segment]: one process's
    view of a channel's segment, over the shared memory objects that exist, by
    their identifiers.  A removed object stays as long as somebody has it
    mapped, so removal does not change the store.  What the system calls answer
    is an argument of the operations, so that the theorems hold for any order
    in which other processes create and remove segments. *)

From S2P Require Import Prelude Shm.

Local Open Scope Z_scope.
Local Open Scope cyber_scope.

(** ** Results: undefined behaviour, and a search that ran out of fuel *)
Inductive outcome (A : Type) :=
| Ok (a : A)
| Undefined
| Probing.
Arguments Ok {A} a.
Arguments Undefined {A}.
Arguments Probing {A}.

#[export] Instance outcome_ret : MRet outcome := @Ok.
#[export] Instance outcome_bind : MBind outcome := λ A B f x,
  match x with Ok a => f a | Undefined => Undefined | Probing => Probing end.

(** The value behind a pointer or an index. *)
Definition deref {A} (x : option A) : outcome A :=
  match x with Some a => Ok a | None => Undefined end.

(** ** [State] *)
Module State.

Record t := mk {
  need_remap_ : bool;
  wrote_num_ : Z;
  reference_count_ : Z;
  ceiling_msg_size_ : Z;
}.

Definition State (ceiling_msg_size : Z) : t := mk false 0 0 ceiling_msg_size.
Definition IncreaseWroteNum (s : t) : t :=
  mk (need_remap_ s) (wrote_num_ s +32 1) (reference_count_ s) (ceiling_msg_size_ s).
Definition ResetWroteNum (s : t) : t := mk (need_remap_ s) 0 (reference_count_ s) (ceiling_msg_size_ s).
Definition DecreaseReferenceCounts (s : t) : t :=
  if reference_count_ s =? 0 then s
  else mk (need_remap_ s) (wrote_num_ s) (reference_count_ s -32 1) (ceiling_msg_size_ s).
Definition IncreaseReferenceCounts (s : t) : t :=
  mk (need_remap_ s) (wrote_num_ s) (reference_count_ s +32 1) (ceiling_msg_size_ s).
Definition set_need_remap (b : bool) (s : t) : t :=
  mk b (wrote_num_ s) (reference_count_ s) (ceiling_msg_size_ s).
End State.

(** ** The shared objects, and the answers of the system *)

(** An object: its state and the locks of its blocks. *)
Record shm := mkshm { state_ : State.t; blocks_ : list Z }.

Abbreviation mem := (gmap Z shm).

(** [shmget(.., IPC_CREAT | IPC_EXCL)]: a new object, or [errno]. *)
Inductive created := Created (shmid : Z) | EINVAL | EEXIST | EOther.

(** The two tries of [OpenOrCreate]; the object that [OpenOnly] finds; whether
    [shmat] succeeds. *)
Record answers := mkans {
  create1 : created;
  create2 : created;
  opened : option Z;
  attached : bool;
}.

Module Segment.
Import ShmConf.

Inductive ReadWriteMode := READ_ONLY | WRITE_ONLY.

(** [managed_]: the mapped object; without one [state_] and [blocks_] are null. *)
Record t := mk {
  init_ : bool;
  mode_ : ReadWriteMode;
  conf_ : ShmConf.t;
  managed_ : option Z;
}.

Definition Segment (mode : ReadWriteMode) : t := mk false mode default_conf None.

Definition set_init (b : bool) (s : t) : t := mk b (mode_ s) (conf_ s) (managed_ s).
Definition set_conf (c : ShmConf.t) (s : t) : t := mk (init_ s) (mode_ s) c (managed_ s).
Definition set_managed (o : option Z) (s : t) : t := mk (init_ s) (mode_ s) (conf_ s) o.

Definition set_state (st : State.t) (sh : shm) : shm := mkshm st (blocks_ sh).

(** The mapped object, through [state_]. *)
Definition mapped (s : t) (m : mem) : outcome (Z * shm) :=
  id ← deref (managed_ s); sh ← deref (m !! id); Ok (id, sh).

Definition Reset (s : t) : t := set_managed None s.

Definition attach (id : Z) (sh : shm) (s : t) (m : mem) : bool * t * mem :=
  (true, set_init true (set_managed (Some id) (set_conf (Update (State.ceiling_msg_size_ (state_ sh))) s)),
   <[id := set_state (State.IncreaseReferenceCounts (state_ sh)) sh]> m).

Definition OpenOnly (a : answers) (s : t) (m : mem) : outcome (bool * t * mem) :=
  if init_ s then Ok (true, s, m)
  else
    match opened a with
    | None => Ok (false, s, m)
    | Some id =>
        if negb (attached a) then Ok (false, s, m)
        else sh ← deref (m !! id); Ok (attach id sh s m)
    end.

(** A new object, with the layout of [conf_]. *)
Definition create (id : Z) (a : answers) (s : t) (m : mem) : bool * t * mem :=
  if negb (attached a) then (false, s, m)
  else
    let ceiling := ceiling_msg_size (conf_ s) in
    attach id (mkshm (State.State ceiling) (replicate (Z.to_nat (block_num (Update ceiling))) Block.kRWLockFree)) s m.

Definition OpenOrCreate (a : answers) (s : t) (m : mem) : outcome (bool * t * mem) :=
  if init_ s then Ok (true, s, m)
  else
    match create1 a with
    | Created id => Ok (create id a s m)
    | EEXIST => OpenOnly a s m
    | EOther => Ok (false, s, m)
    | EINVAL =>
        let s := Reset s in
        match create2 a with
        | Created id => Ok (create id a s m)
        | EEXIST => OpenOnly a s m
        | EOther => Ok (false, s, m)
        | EINVAL => Ok (false, Reset s, m)
        end
    end.

Definition Init (a : answers) (s : t) (m : mem) : outcome (bool * t * mem) :=
  match mode_ s with READ_ONLY => OpenOnly a s m | WRITE_ONLY => OpenOrCreate a s m end.

Definition Remap (a : answers) (s : t) (m : mem) : outcome (bool * t * mem) :=
  OpenOnly a (Reset (set_init false s)) m.

Definition Recreate (a : answers) (s : t) (m : mem) : outcome (bool * t * mem) :=
  '(id, sh) ← mapped s m;
  let m := <[id := set_state (State.set_need_remap true (state_ sh)) sh]> m in
  OpenOrCreate a (Reset (set_init false s)) m.

(** The loop of [GetNextWritableBlockIndex]; [spurious]: how the
    [compare_exchange_weak] of each attempt fails without a reason. *)
Fixpoint probe (fuel : nat) (spurious : nat → bool) (num try_idx : Z) (blocks : list Z) : outcome Z :=
  match fuel with
  | O => Probing
  | S fuel =>
      let try_idx := if num <=? try_idx then Z.land try_idx (num -32 1) else try_idx in
      lock ← deref (blocks !! Z.to_nat try_idx);
      if (lock =? Block.kRWLockFree) && negb (spurious fuel) then Ok try_idx
      else probe fuel spurious num (try_idx +32 1) blocks
  end.

Definition GetNextWritableBlockIndex (fuel : nat) (spurious : nat → bool) (s : t) (m : mem) : outcome (Z * mem) :=
  '(id, sh) ← mapped s m;
  idx ← probe fuel spurious (block_num (conf_ s)) (State.wrote_num_ (state_ sh)) (blocks_ sh);
  Ok (idx, <[id := mkshm (State.IncreaseWroteNum (state_ sh))
              (<[Z.to_nat idx := Block.kWriteExclusive]> (blocks_ sh))]> m).

(** The last part of [AcquireBlockToWrite]. *)
Definition take_block (fuel : nat) (spurious : nat → bool) (result : bool) (s : t) (m : mem) :
    outcome (option Z * t * mem) :=
  if negb result then Ok (None, s, m)
  else '(idx, m) ← GetNextWritableBlockIndex fuel spurious s m; Ok (Some idx, s, m).

(** From the check of the message size on. *)
Definition grow (ar : answers) (fuel : nat) (spurious : nat → bool) (msg_size : Z) (result : bool) (s : t) (m : mem) :
    outcome (option Z * t * mem) :=
  if ceiling_msg_size (conf_ s) <? msg_size then
    '(result, s, m) ← Recreate ar (set_conf (Update msg_size) s) m;
    take_block fuel spurious result s m
  else take_block fuel spurious result s m.

(** [AcquireBlockToWrite(msg_size, ..)]; [ai], [am], [ar]: what the system
    answers in [Init], [Remap] and [Recreate].  The block's index, or [None] for
    false. *)
Definition AcquireBlockToWrite (ai am ar : answers) (fuel : nat) (spurious : nat → bool) (msg_size : Z)
    (s : t) (m : mem) : outcome (option Z * t * mem) :=
  '(ok, s, m) ← (if init_ s then Ok (true, s, m) else Init ai s m);
  if negb ok then Ok (None, s, m)
  else
    '(_, sh) ← mapped s m;
    '(result, s, m) ← (if State.need_remap_ (state_ sh) then Remap am s m else Ok (true, s, m));
    grow ar fuel spurious msg_size result s m.

(** Changing the lock of a block. *)
Definition add_lock (idx d : Z) (s : t) (m : mem) : outcome mem :=
  '(id, sh) ← mapped s m;
  lock ← deref (blocks_ sh !! Z.to_nat idx);
  Ok (<[id := mkshm (state_ sh) (<[Z.to_nat idx := i32 (lock + d)]> (blocks_ sh))]> m).

Definition ReleaseWrittenBlock (idx : Z) (s : t) (m : mem) : outcome mem :=
  if block_num (conf_ s) <=? idx then Ok m else add_lock idx 1 s m.

Definition ReleaseReadBlock (idx : Z) (s : t) (m : mem) : outcome mem :=
  if block_num (conf_ s) <=? idx then Ok m else add_lock idx (-1) s m.

Definition AcquireBlockToRead (ai am : answers) (idx : Z) (s : t) (m : mem) : outcome (bool * t * mem) :=
  '(ok, s, m) ← (if init_ s then Ok (true, s, m) else Init ai s m);
  if negb ok then Ok (false, s, m)
  else if block_num (conf_ s) <=? idx then Ok (false, s, m)
  else
    '(_, sh) ← mapped s m;
    '(result, s, m) ← (if State.need_remap_ (state_ sh) then Remap am s m else Ok (true, s, m));
    if negb result then Ok (false, s, m)
    else
      '(_, sh) ← mapped s m;
      lock ← deref (blocks_ sh !! Z.to_nat idx);
      if lock <? Block.kRWLockFree then Ok (false, s, m)
      else m ← add_lock idx 1 s m; Ok (true, s, m).

(** [Destroy()]; [removed]: does [Remove] succeed. *)
Definition Destroy (removed : bool) (s : t) (m : mem) : outcome (bool * t * mem) :=
  if negb (init_ s) then Ok (true, s, m)
  else
    '(id, sh) ← mapped s m;
    let st := State.DecreaseReferenceCounts (state_ sh) in
    let m := <[id := set_state st sh]> m in
    Ok (if State.reference_count_ st =? 0 then removed else true, set_init false s, m).

(** ** The search for a block *)
Section probe.
Context (num : Z) (blocks : list Z).
Hypothesis Hnum : ∃ n, 0 <= n <= 9 ∧ num = 2 ^ n.
Hypothesis Hlen : Z.of_nat (length blocks) = num.

Lemma num_bounds : 1 <= num <= 512.
Proof.
  destruct Hnum as (n & Hn & ->). split; [|change 512 with (2 ^ 9); apply Z.pow_le_mono_r; lia].
  change 1 with (2 ^ 0). apply Z.pow_le_mono_r; lia.
Qed.

Definition norm (try_idx : Z) : Z := if num <=? try_idx then Z.land try_idx (num -32 1) else try_idx.

Lemma norm_mod z : 0 <= z → norm z = z mod num.
Proof.
  intros Hz. pose proof num_bounds. unfold norm. destruct (Z.leb_spec num z); [|by rewrite Z.mod_small].
  rewrite u32_small by lia. destruct Hnum as (n & Hn & ->). rewrite land_mask; lia.
Qed.

Lemma norm_bounds z : 0 <= z → 0 <= norm z < num.
Proof. intros Hz. rewrite norm_mod by done. apply Z.mod_pos_bound. pose proof num_bounds. lia. Qed.

Lemma block_at z : 0 <= z < num → is_Some (blocks !! Z.to_nat z).
Proof. intros Hz. apply lookup_lt_is_Some_2. lia. Qed.

Definition free_at (z : Z) : Prop := blocks !! Z.to_nat z = Some Block.kRWLockFree.

#[local] Instance free_at_dec z : Decision (free_at z).
Proof. unfold free_at. apply _. Defined.

(** One attempt. *)
Lemma probe_step fuel spurious z :
  0 <= z →
  ∃ lock, blocks !! Z.to_nat (norm z) = Some lock ∧
    probe (S fuel) spurious num z blocks =
      if (lock =? Block.kRWLockFree) && negb (spurious fuel) then Ok (norm z)
      else probe fuel spurious num (norm z + 1) blocks.
Proof.
  intros Hz. pose proof (norm_bounds z Hz). pose proof num_bounds.
  destruct (block_at (norm z)) as [lock Hl]; [done|]. exists lock. split; [done|].
  cbn [probe]. fold (norm z). rewrite Hl. cbn. rewrite u32_small by lia. done.
Qed.

Lemma probe_sound fuel spurious z idx :
  0 <= z → probe fuel spurious num z blocks = Ok idx → 0 <= idx < num ∧ free_at idx.
Proof.
  revert z. induction fuel as [|fuel IH]; intros z Hz H; [done|].
  destruct (probe_step fuel spurious z Hz) as (lock & Hl & E). rewrite E in H. pose proof (norm_bounds z Hz).
  destruct (_ && _) eqn:Ef; [|by apply (IH (norm z + 1)); [lia|]].
  apply andb_true_iff in Ef as [->%Z.eqb_eq _]. by simplify_eq.
Qed.

Lemma probe_defined fuel spurious z : 0 <= z → probe fuel spurious num z blocks ≠ Undefined.
Proof.
  revert z. induction fuel as [|fuel IH]; intros z Hz; [done|].
  destruct (probe_step fuel spurious z Hz) as (lock & Hl & ->). pose proof (norm_bounds z Hz).
  destruct (_ && _); [done|]. apply IH. lia.
Qed.

Lemma probe_finds fuel spurious z k :
  0 <= z → (∀ i, spurious i = false) → (k < fuel)%nat →
  free_at ((z + Z.of_nat k) mod num) → (∀ j, (j < k)%nat → ¬ free_at ((z + Z.of_nat j) mod num)) →
  probe fuel spurious num z blocks = Ok ((z + Z.of_nat k) mod num).
Proof.
  revert z k. induction fuel as [|fuel IH]; intros z k Hz Hsp Hk Hfree Hbusy; [lia|].
  destruct (probe_step fuel spurious z Hz) as (lock & Hl & ->). rewrite Hsp, andb_true_r.
  pose proof (norm_bounds z Hz). pose proof num_bounds.
  destruct k as [|k].
  - rewrite Z.add_0_r, <-norm_mod in Hfree |- * by done. unfold free_at in Hfree. simplify_eq. done.
  - destruct (Z.eqb_spec lock Block.kRWLockFree) as [->|Hlock].
    { exfalso. apply (Hbusy 0%nat); [lia|]. by rewrite Z.add_0_r, <-norm_mod by done. }
    assert (∀ j, (norm z + 1 + j) mod num = (z + (j + 1)) mod num) as Hshift.
    { intros j. rewrite norm_mod by done. rewrite <-Z.add_assoc, Z.add_mod_idemp_l by lia. f_equal. lia. }
    rewrite (IH (norm z + 1) k); [rewrite Hshift; do 2 f_equal; lia|lia|done|lia| |].
    + rewrite Hshift. eapply eq_rect with (P := λ x, free_at (x mod num)); [exact Hfree|lia].
    + intros j Hj. rewrite Hshift. replace (Z.of_nat j + 1) with (Z.of_nat (S j)) by lia. apply Hbusy. lia.
Qed.

Lemma probe_never fuel spurious z : 0 <= z → (∀ i, ¬ free_at i) → probe fuel spurious num z blocks = Probing.
Proof.
  revert z. induction fuel as [|fuel IH]; intros z Hz Hno; [done|].
  destruct (probe_step fuel spurious z Hz) as (lock & Hl & ->). pose proof (norm_bounds z Hz).
  destruct (Z.eqb_spec lock Block.kRWLockFree) as [->|]; [by destruct (Hno (norm z))|]. apply IH; [lia|done].
Qed.

(** The first free block from [z] on, around the ring. *)
Lemma first_free z :
  0 <= z → (∃ i, 0 <= i < num ∧ free_at i) →
  ∃ k, (Z.of_nat k < num) ∧ free_at ((z + Z.of_nat k) mod num) ∧
    ∀ j, (j < k)%nat → ¬ free_at ((z + Z.of_nat j) mod num).
Proof.
  intros Hz (i & Hi & Hf). pose proof num_bounds.
  assert (∃ k, Z.of_nat k < num ∧ free_at ((z + Z.of_nat k) mod num)) as (k & Hk & Hfk).
  { exists (Z.to_nat ((i - z) mod num)). pose proof (Z.mod_pos_bound (i - z) num ltac:(lia)).
    rewrite Z2Nat.id by lia. split; [lia|]. rewrite Z.add_mod_idemp_r by lia.
    replace (z + (i - z)) with i by lia. by rewrite Z.mod_small. }
  clear Hf. revert Hk Hfk. induction k as [k IH] using lt_wf_ind. intros Hk Hfk.
  destruct (decide (Exists (λ j, free_at ((z + Z.of_nat j) mod num)) (seq 0 k))) as [Hex|Hno].
  - apply Exists_exists in Hex as (j & Hj%elem_of_seq & Hfj). apply (IH j); [lia|lia|done].
  - exists k. split_and!; [done|done|]. intros j Hj Hfj. apply Hno, Exists_exists. exists j. rewrite elem_of_seq. split; [lia|done].
Qed.
End probe.

(** Choosing a block.  On a segment with a power-of-two number of blocks,
    the search takes the first free block at or after [wrote_num_], around the
    ring, within as many attempts as there are blocks, locks exactly that block
    for writing and counts the write; but when every block is locked it never
    ends.  (Spurious failures aside.) *)
Theorem next_writable_block s m id sh fuel :
  regular_conf (conf_ s) → managed_ s = Some id → m !! id = Some sh →
  Z.of_nat (length (blocks_ sh)) = block_num (conf_ s) → 0 <= State.wrote_num_ (state_ sh) →
  let num := block_num (conf_ s) in
  let at_ k := (State.wrote_num_ (state_ sh) + Z.of_nat k) mod num in
  ((∃ i, 0 <= i < num ∧ free_at (blocks_ sh) i) → num <= Z.of_nat fuel →
     ∃ k, Z.of_nat k < num ∧ free_at (blocks_ sh) (at_ k) ∧ (∀ j, (j < k)%nat → ¬ free_at (blocks_ sh) (at_ j)) ∧
       GetNextWritableBlockIndex fuel (λ _, false) s m =
         Ok (at_ k, <[id := mkshm (State.IncreaseWroteNum (state_ sh))
                       (<[Z.to_nat (at_ k) := Block.kWriteExclusive]> (blocks_ sh))]> m)) ∧
  ((∀ i, ¬ free_at (blocks_ sh) i) → GetNextWritableBlockIndex fuel (λ _, false) s m = Probing).
Proof.
  intros Hconf Hm Hsh Hlen Hw num at_.
  assert (∃ n, 0 <= n <= 9 ∧ num = 2 ^ n) as Hnum.
  { destruct (block_num_pow2 _ Hconf) as (n & ? & ?). exists n. split; [lia|done]. }
  unfold GetNextWritableBlockIndex, mapped. rewrite Hm. cbn. rewrite Hsh. cbn. split.
  - intros Hfree Hfuel. destruct (first_free num (blocks_ sh) Hnum Hlen (State.wrote_num_ (state_ sh)) Hw Hfree)
      as (k & Hk & Hfk & Hbusy).
    exists k. split_and!; [done|done|done|]. fold num. erewrite (probe_finds num (blocks_ sh) Hnum Hlen _ _ _ k); try done. lia.
  - intros Hno. fold num. by rewrite (probe_never num (blocks_ sh) Hnum Hlen).
Qed.

(** ** Objects and views *)

(** An object was made for one of the ceilings, and has its blocks. *)
Definition shm_ok (sh : shm) : Prop :=
  GetCeilingMessageSize (State.ceiling_msg_size_ (state_ sh)) = State.ceiling_msg_size_ (state_ sh) ∧
  Z.of_nat (length (blocks_ sh)) = block_num (Update (State.ceiling_msg_size_ (state_ sh))) ∧
  0 <= State.wrote_num_ (state_ sh).

Definition mem_ok (m : mem) : Prop := ∀ id sh, m !! id = Some sh → shm_ok sh.

(** A process's [conf_] is that of the object it has mapped. *)
Definition view (s : t) (m : mem) : Prop :=
  ∃ id sh, managed_ s = Some id ∧ m !! id = Some sh ∧ conf_ s = Update (State.ceiling_msg_size_ (state_ sh)).

Definition seg_ok (s : t) (m : mem) : Prop :=
  (∃ real, conf_ s = Update real) ∧ (init_ s = true → view s m).

(** The objects of [m] are still there, with the same layout and locks. *)
Definition keeps (m m' : mem) : Prop :=
  ∀ id sh, m !! id = Some sh → ∃ sh', m' !! id = Some sh' ∧ blocks_ sh' = blocks_ sh ∧
    State.ceiling_msg_size_ (state_ sh') = State.ceiling_msg_size_ (state_ sh).

(** The system makes new objects under new identifiers and opens existing
    ones. *)
Definition opens_ok (a : answers) (m : mem) : Prop := ∀ id, opened a = Some id → is_Some (m !! id).
Definition answers_ok (a : answers) (m : mem) : Prop :=
  (∀ id, create1 a = Created id ∨ create2 a = Created id → m !! id = None) ∧ opens_ok a m.

Lemma keeps_refl m : keeps m m.
Proof. intros id sh H. by exists sh. Qed.

Lemma keeps_trans m1 m2 m3 : keeps m1 m2 → keeps m2 m3 → keeps m1 m3.
Proof.
  intros H1 H2 id sh H. destruct (H1 _ _ H) as (sh1 & E1 & Eb1 & Ec1).
  destruct (H2 _ _ E1) as (sh2 & E2 & Eb2 & Ec2). exists sh2. split_and!; congruence.
Qed.

Lemma keeps_update m id sh st :
  m !! id = Some sh → State.ceiling_msg_size_ st = State.ceiling_msg_size_ (state_ sh) →
  keeps m (<[id := set_state st sh]> m).
Proof.
  intros H Hc id' sh' H'. rewrite lookup_insert. case_decide; [|by exists sh'].
  subst. simplify_eq. eexists; split; [done|by split].
Qed.

Lemma mem_ok_insert m id sh : mem_ok m → shm_ok sh → mem_ok (<[id := sh]> m).
Proof. intros Hm Hs id' sh'. rewrite lookup_insert. case_decide; [by intros [= <-]|apply Hm]. Qed.

Lemma wrote_num_kept sh : 0 <= State.wrote_num_ (state_ sh) → 0 <= State.wrote_num_ (State.IncreaseWroteNum (state_ sh)).
Proof. intros _. apply u32_range. Qed.

(** What opening a segment leaves: [open_post b] says that [conf_] still has the
    ceiling it had if [b]. *)
Definition open_post (same_conf : bool) (s : t) (m : mem) (r : bool * t * mem) : Prop :=
  let '(ok, s', m') := r in
  mem_ok m' ∧ keeps m m' ∧ mode_ s' = mode_ s ∧ (∃ real, conf_ s' = Update real) ∧ init_ s' = ok ∧
  (ok = true → view s' m') ∧ (ok = true → same_conf = true → conf_ s' = conf_ s).

Lemma attach_post id sh s m b :
  mem_ok m → shm_ok sh → (m !! id = Some sh ∨ m !! id = None) →
  (b = true → conf_ s = Update (State.ceiling_msg_size_ (state_ sh))) →
  open_post b s m (attach id sh s m).
Proof.
  intros Hm Hsh Hid Hb. split_and!; cbn.
  - by apply mem_ok_insert.
  - destruct Hid as [Hid|Hid]; [by apply keeps_update|]. intros id' sh' H'. exists sh'.
    rewrite lookup_insert_ne by congruence. done.
  - done.
  - by eexists.
  - done.
  - intros _. exists id, (set_state (State.IncreaseReferenceCounts (state_ sh)) sh).
    by rewrite lookup_insert_eq.
  - intros _ H. by rewrite Hb.
Qed.

Lemma OpenOnly_post a s m :
  mem_ok m → opens_ok a m → init_ s = false → (∃ real, conf_ s = Update real) →
  ∃ r, OpenOnly a s m = Ok r ∧ open_post false s m r.
Proof.
  intros Hm Ha Hi Hc. unfold OpenOnly. rewrite Hi.
  assert (open_post false s m (false, s, m)) as Hfail by (split_and!; try done; apply keeps_refl).
  destruct (opened a) as [id|] eqn:Eo; [|by eexists]. destruct (attached a); cbn; [|by eexists].
  destruct (Ha id Eo) as [sh Hsh]. rewrite Hsh. cbn. eexists. split; [done|].
  apply attach_post; [done|by eapply Hm|by left|done].
Qed.

Lemma create_post id a s m :
  mem_ok m → m !! id = None → init_ s = false → (∃ real, conf_ s = Update real) →
  open_post true s m (create id a s m).
Proof.
  intros Hm Hid Hi [real Hc]. unfold create. destruct (attached a); cbn [negb].
  - pose proof (Update_conf real) as Hr. rewrite <-Hc in Hr. pose proof (rc_update _ Hr) as Hu.
    apply attach_post; [done| |by right|cbn; by rewrite Hu].
    unfold shm_ok. cbn [state_ blocks_ State.State State.ceiling_msg_size_ State.wrote_num_].
    split_and!; [|rewrite length_replicate; rewrite Hu|done].
    + rewrite <-ceiling_update. by rewrite Hu.
    + destruct (block_num_pow2 _ Hr) as (n & Hn & ->). rewrite Z2Nat.id; [done|]. apply Z.pow_nonneg. lia.
  - split_and!; try done; [apply keeps_refl|by eexists].
Qed.

(** No process has created the segment again in between. *)
Definition no_eexist (a : answers) : bool :=
  match create1 a, create2 a with EEXIST, _ => false | EINVAL, EEXIST => false | _, _ => true end.

Lemma open_post_weaken b s m r : open_post true s m r → open_post b s m r.
Proof. destruct r as [[ok s'] m']. intros (?&?&?&?&?&?&H). split_and!; try done. intros Hok _. by apply H. Qed.

Lemma OpenOrCreate_post a s m :
  mem_ok m → answers_ok a m → init_ s = false → (∃ real, conf_ s = Update real) →
  ∃ r, OpenOrCreate a s m = Ok r ∧ open_post (no_eexist a) s m r.
Proof.
  intros Hm Ha Hi Hc. unfold OpenOrCreate. rewrite Hi.
  assert (∀ b s', init_ s' = false → mode_ s' = mode_ s → conf_ s' = conf_ s → open_post b s m (false, s', m)) as Hfail.
  { intros b s' Hi' Hmo Hc'. split_and!; try done; [apply keeps_refl|by rewrite Hc']. }
  assert (∀ b s' r, mode_ s' = mode_ s → conf_ s' = conf_ s → open_post b s' m r → open_post b s m r) as Hreset.
  { intros b s' [[ok s1] m1] Hmo Hc'. cbn. rewrite Hmo, Hc'. done. }
  unfold no_eexist. destruct (create1 a) as [id| | |] eqn:E1.
  - eexists. split; [done|]. apply create_post; try done. apply Ha. by left.
  - destruct (create2 a) as [id| | |] eqn:E2.
    + eexists. split; [done|]. eapply Hreset; [| |apply create_post; try done]; try done. apply Ha. by right.
    + eexists. split; [done|]. by apply Hfail.
    + destruct (OpenOnly_post a (Reset s) m) as (r & -> & Hr); try done; [apply Ha|]. eexists. split; [done|]. by eapply Hreset.
    + eexists. split; [done|]. by apply Hfail.
  - destruct (OpenOnly_post a s m) as (r & -> & Hr); try done; [apply Ha|]. by eexists.
  - eexists. split; [done|]. by apply Hfail.
Qed.

Lemma Init_post a s m :
  mem_ok m → answers_ok a m → init_ s = false → (∃ real, conf_ s = Update real) →
  ∃ r, Init a s m = Ok r ∧ open_post false s m r.
Proof.
  intros Hm Ha Hi Hc. unfold Init. destruct (mode_ s); [apply OpenOnly_post; try done; apply Ha|].
  destruct (OpenOrCreate_post a s m) as (r & -> & Hr); try done. exists r. split; [done|].
  destruct r as [[ok s'] m']. destruct Hr as (?&?&?&?&?&?&?). by split_and!.
Qed.

Lemma OpenOnly_dom a s m ok s' m' id :
  OpenOnly a s m = Ok (ok, s', m') → m !! id = None → m' !! id = None.
Proof.
  intros E Hid. unfold OpenOnly in E. destruct (init_ s); [by simplify_eq|]. destruct (opened a) as [i|]; [|by simplify_eq].
  destruct (attached a); cbn in E; [|by simplify_eq]. destruct (m !! i) eqn:Ei; [|done]. unfold attach in E. cbn in E. simplify_eq.
  rewrite lookup_insert_ne by congruence. done.
Qed.

(** [Init] makes no object but the one the system created for it. *)
Lemma Init_dom a s m ok s' m' id :
  Init a s m = Ok (ok, s', m') → m !! id = None → create1 a ≠ Created id → create2 a ≠ Created id → m' !! id = None.
Proof.
  intros H Hid H1 H2.
  assert (∀ s0, OpenOnly a s0 m = Ok (ok, s', m') → m' !! id = None) as Hopen by (intros; by eapply OpenOnly_dom).
  assert (∀ i s0, i ≠ id → create i a s0 m = (ok, s', m') → m' !! id = None) as Hcreate.
  { intros i s0 Hi E. unfold create, attach in E. destruct (attached a); cbn in E; simplify_eq; [|done].
    by rewrite lookup_insert_ne. }
  unfold Init, OpenOrCreate in H. destruct (mode_ s); [by eapply Hopen|]. destruct (init_ s); [by simplify_eq|].
  destruct (create1 a) as [i| | |]; [injection H as H; eapply Hcreate; [|done]; congruence| |by eapply Hopen|by simplify_eq].
  destruct (create2 a) as [i| | |]; [injection H as H; eapply Hcreate; [|done]; congruence| |by eapply Hopen|]; by simplify_eq.
Qed.

Lemma need_remap_mem_ok m id sh :
  mem_ok m → m !! id = Some sh → mem_ok (<[id := set_state (State.set_need_remap true (state_ sh)) sh]> m).
Proof. intros Hm Hid. apply mem_ok_insert; [done|]. exact (Hm id sh Hid). Qed.

Lemma Recreate_post a s m r :
  mem_ok m → answers_ok a m → (∃ real, conf_ s = Update real) → Recreate a s m = Ok r →
  open_post (no_eexist a) s m r.
Proof.
  intros Hm [Ha1 Ha2] Hc H. unfold Recreate, mapped in H.
  destruct (managed_ s) as [id|]; [|done]. cbn in H. destruct (m !! id) as [sh|] eqn:Hid; [|done]. cbn in H.
  set (m1 := <[id := _]> m) in H. change (OpenOrCreate a (Reset (set_init false s)) m1 = Ok r) in H.
  assert (keeps m m1) as Hk by (by apply keeps_update).
  destruct (OpenOrCreate_post a (Reset (set_init false s)) m1) as (r' & E & Hr); try done.
  - by apply need_remap_mem_ok.
  - split.
    + intros i Hi. unfold m1. rewrite lookup_insert_ne; [by apply Ha1|]. intros ->. apply Ha1 in Hi. congruence.
    + intros i Hi. unfold m1. rewrite lookup_insert. case_decide; [by eexists|by apply Ha2].
  - rewrite E in H. simplify_eq. destruct r as [[ok s'] m']. destruct Hr as (?&?&?&?&?&?&?). split_and!; try done.
    by eapply keeps_trans.
Qed.

(** A block that was taken. *)
Definition taken (m : mem) (s' : t) (m' : mem) (idx : Z) : Prop :=
  ∃ id sh, managed_ s' = Some id ∧ m' !! id = Some sh ∧ 0 <= idx < block_num (conf_ s') ∧
    blocks_ sh !! Z.to_nat idx = Some Block.kWriteExclusive ∧
    (∀ sh0, m !! id = Some sh0 → blocks_ sh0 !! Z.to_nat idx = Some Block.kRWLockFree ∧
       blocks_ sh = <[Z.to_nat idx := Block.kWriteExclusive]> (blocks_ sh0)) ∧
    (∀ id' sh0, id' ≠ id → m !! id' = Some sh0 → ∃ sh', m' !! id' = Some sh' ∧ blocks_ sh' = blocks_ sh0).

Lemma take_block_spec fuel spurious s m idx s' m' :
  mem_ok m → view s m → take_block fuel spurious true s m = Ok (Some idx, s', m') →
  s' = s ∧ mem_ok m' ∧ view s m' ∧ taken m s m' idx.
Proof.
  intros Hm (id & sh & Hid & Hsh & Hconf) H. unfold take_block, GetNextWritableBlockIndex, mapped in H.
  rewrite Hid in H. cbn in H. rewrite Hsh in H. cbn in H.
  destruct (probe fuel spurious _ _ _) as [i| |] eqn:E; cbn in H; try done. simplify_eq.
  destruct (Hm _ _ Hsh) as (Hc & Hlen & Hw). rewrite <-Hconf in Hlen.
  pose proof (Update_conf (State.ceiling_msg_size_ (state_ sh))) as Hr. rewrite <-Hconf in Hr.
  assert (∃ n, 0 <= n <= 9 ∧ block_num (conf_ s') = 2 ^ n) as Hnum.
  { destruct (block_num_pow2 _ Hr) as (n & Hn & Hpow). exists n. split; [lia|done]. }
  destruct (probe_sound (block_num (conf_ s')) (blocks_ sh) Hnum Hlen _ _ _ _ Hw E) as [Hi Hfree]. unfold free_at in Hfree.
  assert (Z.to_nat idx < length (blocks_ sh))%nat as Hlt by (by eapply lookup_lt_Some).
  split_and!; [done| | |].
  - apply mem_ok_insert; [done|]. split_and!; cbn; [done|by rewrite length_insert, Hlen, Hconf|apply u32_range].
  - exists id. eexists. split_and!; [done|by rewrite lookup_insert_eq|done].
  - exists id. eexists. split_and!; [done|by rewrite lookup_insert_eq|lia|lia|cbn; by apply list_lookup_insert_eq| |].
    + intros sh0 E0. by simplify_eq.
    + intros id' sh0 Hne H0. exists sh0. by rewrite lookup_insert_ne.
Qed.

Lemma taken_keeps m0 m s m' idx : keeps m0 m → taken m s m' idx → taken m0 s m' idx.
Proof.
  intros Hk (id & sh & Hid & Hsh & Hi & Hl & Hsame & Hother). exists id, sh. split_and!; try done; try lia.
  - intros sh0 H0. destruct (Hk _ _ H0) as (sh1 & H1 & Eb & _). destruct (Hsame _ H1). by rewrite <-Eb.
  - intros id' sh0 Hne H0. destruct (Hk _ _ H0) as (sh1 & H1 & Eb & _). destruct (Hother _ _ Hne H1) as (sh' & ? & E).
    exists sh'. split; [done|]. congruence.
Qed.

Lemma grow_spec ar fuel spurious msg_size result s m idx s' m' :
  mem_ok m → answers_ok ar m → (∃ real, conf_ s = Update real) → init_ s = result → (result = true → view s m) →
  grow ar fuel spurious msg_size result s m = Ok (Some idx, s', m') →
  mem_ok m' ∧ seg_ok s' m' ∧ init_ s' = true ∧ taken m s' m' idx ∧
  (msg_size <= 32 * 1024 * 1024 → no_eexist ar = true → msg_size <= ceiling_msg_size (conf_ s')).
Proof.
  intros Hm Ha Hc Hi Hv H. unfold grow in H. destruct (Z.ltb_spec (ceiling_msg_size (conf_ s)) msg_size) as [Hlt|Hge].
  - destruct (Recreate ar _ m) as [[[ok s1] m1]| |] eqn:E; cbn in H; try done.
    apply Recreate_post in E as (Hm1 & Hk & _ & Hc1 & Hi1 & Hv1 & Hsame); [|done|done|by eexists].
    destruct ok; [|done]. specialize (Hv1 eq_refl).
    destruct (take_block_spec _ _ _ _ _ _ _ Hm1 Hv1 H) as (-> & Hm' & Hv' & Ht).
    split_and!; [done|by split|done|by eapply taken_keeps|].
    intros Hle Hne. rewrite Hsame by done. cbn. apply ceiling_fits. lia.
  - destruct result; [|done]. specialize (Hv eq_refl).
    destruct (take_block_spec _ _ _ _ _ _ _ Hm Hv H) as (-> & Hm' & Hv' & Ht). split_and!; try done; lia.
Qed.

Lemma Remap_dom a s m ok s' m' id :
  Remap a s m = Ok (ok, s', m') → m !! id = None → m' !! id = None.
Proof. apply OpenOnly_dom. Qed.

Lemma room s m msg_size :
  seg_ok s m → msg_size <= ceiling_msg_size (conf_ s) → msg_size + MESSAGE_INFO_SIZE <= block_buf_size (conf_ s).
Proof. intros [[real ->] _] H. rewrite (rc_buf _ (Update_conf real)). lia. Qed.

(** C21: taking a block to write.  Whatever the state of this process's view and
    of the shared objects, and whatever the system answers: if
    [AcquireBlockToWrite] returns a block, it is a block of the object that is
    now mapped, with the right layout; its lock was free (the object may also
    be new) and is now held for writing, and no other lock of any object has
    changed.  The block has room for the message and its info, provided the
    message has at most 32 MiB and, if the segment had to be recreated, nobody
    else created it in between. *)
Theorem segment_write_block ai am ar fuel spurious msg_size s m idx s' m' :
  mem_ok m → seg_ok s m → answers_ok ai m → opens_ok am m → answers_ok ar m →
  (∀ id, (create1 ai = Created id ∨ create2 ai = Created id) → create1 ar ≠ Created id ∧ create2 ar ≠ Created id) →
  AcquireBlockToWrite ai am ar fuel spurious msg_size s m = Ok (Some idx, s', m') →
  mem_ok m' ∧ seg_ok s' m' ∧ init_ s' = true ∧ taken m s' m' idx ∧
  (msg_size <= 32 * 1024 * 1024 → no_eexist ar = true →
     msg_size + MESSAGE_INFO_SIZE <= block_buf_size (conf_ s')).
Proof.
  intros Hm [Hc Hv] Hai Ham Har Hfresh H. unfold AcquireBlockToWrite in H.
  assert (∃ s1 m1, mem_ok m1 ∧ keeps m m1 ∧ (∃ real, conf_ s1 = Update real) ∧ init_ s1 = true ∧ view s1 m1 ∧
    opens_ok am m1 ∧ answers_ok ar m1 ∧
    ('(_, sh) ← mapped s1 m1;
     '(result, s, m) ← (if State.need_remap_ (state_ sh) then Remap am s1 m1 else Ok (true, s1, m1));
     grow ar fuel spurious msg_size result s m) = Ok (Some idx, s', m'))
    as (s1 & m1 & Hm1 & Hk1 & Hc1 & Hi1 & (id & sh & Hid & Hsh & Hconf) & Ham1 & Har1 & H1).
  { destruct (init_ s) eqn:Hi; [exists s, m; split_and!; try done; [apply keeps_refl|by apply Hv]|].
    destruct (Init_post ai s m) as ([[ok s1] m1] & E & (Hm1 & Hk & _ & Hc1 & Hi1 & Hv1 & _)); try done.
    rewrite E in H. cbn in H. destruct ok; [|done]. exists s1, m1. cbn in H.
    assert (∀ a, opens_ok a m → opens_ok a m1) as Hopens.
    { intros a Ha i [sh Hi']%Ha. destruct (Hk _ _ Hi') as (sh' & ? & _). by exists sh'. }
    split_and!; try done; [by apply Hv1|by apply Hopens|split; [|by apply Hopens, Har]].
    intros i Hi'. pose proof (proj1 Har i Hi') as Hn.
    eapply Init_dom; [done|done|intros Hc'; by destruct (Hfresh i (or_introl Hc')), Hi'|
      intros Hc'; by destruct (Hfresh i (or_intror Hc')), Hi']. }
  unfold mapped in H1. rewrite Hid in H1. cbn -[Remap grow] in H1. rewrite Hsh in H1. cbn -[Remap grow] in H1.
  destruct (State.need_remap_ (state_ sh)).
  - destruct (OpenOnly_post am (Reset (set_init false s1)) m1) as ([[ok2 s2] m2] & E & (Hm2 & Hk2 & _ & Hc2 & Hi2 & Hv2 & _)); try done.
    change (Remap am s1 m1 = Ok (ok2, s2, m2)) in E.
    rewrite E in H1. cbn -[grow] in H1.
    assert (answers_ok ar m2) as Har2.
    { split; [|intros i [sh' Hi']%Har1; destruct (Hk2 _ _ Hi') as (sh2 & ? & _); by exists sh2].
      intros i Hi'. pose proof (proj1 Har1 i Hi') as Hn. by eapply Remap_dom. }
    destruct (grow_spec _ _ _ _ _ _ _ _ _ _ Hm2 Har2 Hc2 Hi2 Hv2 H1) as (Hm' & Hs' & Hi' & Ht & Hsize).
    split_and!; [done|done|done|by eapply taken_keeps; [eapply keeps_trans|]|]. intros Hle Hne. eapply room; [done|by apply Hsize].
  - destruct (grow_spec _ _ _ _ _ _ _ _ _ _ Hm1 Har1 Hc1 Hi1 (λ _, ex_intro _ id (ex_intro _ sh (conj Hid (conj Hsh Hconf)))) H1)
      as (Hm' & Hs' & Hi' & Ht & Hsize).
    split_and!; [done|done|done|by eapply taken_keeps|]. intros Hle Hne. eapply room; [done|by apply Hsize].
Qed.

(** ** Concrete segments *)
Definition fail : answers := mkans EOther EOther None true.
Definition creates (id : Z) : answers := mkans (Created id) EOther None true.
Definition opens (id : Z) : answers := mkans EEXIST EOther (Some id) true.
Definition no_spurious (_ : nat) : bool := false.

(** An object for a ceiling, with these locks on its first blocks. *)
Definition object (need_remap : bool) (ceiling : Z) (locks : list Z) : shm :=
  mkshm (State.set_need_remap need_remap (State.State ceiling))
    (locks ++ replicate (Z.to_nat (block_num (Update ceiling)) - length locks) 0).

(** A process that has mapped object [id] for a ceiling. *)
Definition mapping (mode : ReadWriteMode) (id ceiling : Z) : t := mk true mode (Update ceiling) (Some id).

Lemma object_ok need_remap ceiling locks :
  GetCeilingMessageSize ceiling = ceiling → (length locks <= Z.to_nat (block_num (Update ceiling)))%nat →
  shm_ok (object need_remap ceiling locks).
Proof.
  intros Hc Hl. unfold shm_ok, object. cbn [state_ blocks_ State.set_need_remap State.State State.ceiling_msg_size_ State.wrote_num_].
  split_and!; [done| |lia]. rewrite length_app, length_replicate.
  destruct (block_num_pow2 _ (Update_conf ceiling)) as (n & Hn & E). rewrite E in *.
  assert (0 <= 2 ^ n) by (apply Z.pow_nonneg; lia). lia.
Qed.

Lemma segment_write_block_witness :
  match AcquireBlockToWrite (creates 1) fail fail 600 no_spurious 100 (Segment WRITE_ONLY) ∅ with
  | Ok (Some idx, s', m') => idx = 0 ∧ init_ s' = true ∧ taken ∅ s' m' idx
  | _ => False
  end.
Proof.
  destruct (AcquireBlockToWrite (creates 1) fail fail 600 no_spurious 100 (Segment WRITE_ONLY) ∅)
    as [[[[idx|] s'] m']| |] eqn:E; try (vm_compute in E; discriminate E).
  assert (idx = 0) as -> by (vm_compute in E; injection E; congruence).
  destruct (segment_write_block (creates 1) fail fail 600 no_spurious 100 (Segment WRITE_ONLY) ∅ 0 s' m')
    as (_ & _ & Hi & Ht & _); [| | | | | |exact E|].
  - intros id sh. by rewrite lookup_empty.
  - split; [by exists MESSAGE_SIZE_16K|done].
  - split; intros id; [intros _; apply lookup_empty|done].
  - done.
  - split; intros id; [by intros []|done].
  - intros id _. by split.
  - split_and!; [done|exact Hi|exact Ht].
Defined.

(** The object after two writes, the first still in progress. *)
Definition demo_object : shm :=
  mkshm (State.IncreaseWroteNum (State.IncreaseWroteNum (State.State MESSAGE_SIZE_MORE))) [-1; 0; 2; -1; 0; 0; 0; 0].

Lemma next_writable_block_witness :
  GetNextWritableBlockIndex 8 (λ _, false) (mapping WRITE_ONLY 1 MESSAGE_SIZE_MORE) {[1 := demo_object]} =
    Ok (4, {[1 := mkshm (State.mk false 3 0 MESSAGE_SIZE_MORE) [-1; 0; 2; -1; -1; 0; 0; 0]]}) ∧
  ∃ k r, GetNextWritableBlockIndex 8 (λ _, false) (mapping WRITE_ONLY 1 MESSAGE_SIZE_MORE) {[1 := demo_object]} =
    Ok (((2 + Z.of_nat k) mod 8), r).
Proof.
  split; [vm_compute; reflexivity|].
  assert (regular_conf (conf_ (mapping WRITE_ONLY 1 MESSAGE_SIZE_MORE))) as Hr by apply Update_conf.
  assert (({[1 := demo_object]} : mem) !! 1 = Some demo_object) as Hl by reflexivity.
  assert (0 <= State.wrote_num_ (state_ demo_object)) as Hw by (vm_compute; discriminate).
  destruct (proj1 (next_writable_block (mapping WRITE_ONLY 1 MESSAGE_SIZE_MORE) {[1 := demo_object]} 1 demo_object 8
    Hr eq_refl Hl eq_refl Hw)) as (k & _ & _ & _ & E).
  - exists 4. split; [vm_compute; split; [discriminate|reflexivity]|reflexivity].
  - vm_compute. discriminate.
  - exists k. eexists. exact E.
Defined.

(** Blocks that are too small.  A message of 33 MiB gets a block, without an
    error, whose buffer is smaller than the message (there is no ceiling above
    32 MiB); and a message of 100 KiB gets a block of 17 KiB when another writer
    has created the segment again between this writer's removal and creation. *)
Theorem segment_block_too_small :
  match AcquireBlockToWrite (creates 1) fail (creates 2) 600 no_spurious (33 * 1024 * 1024) (Segment WRITE_ONLY) ∅ with
  | Ok (Some idx, s', m') => block_buf_size (conf_ s') = 32 * 1024 * 1024 + 1024
  | _ => False
  end ∧
  match AcquireBlockToWrite fail fail (opens 2) 600 no_spurious (100 * 1024) (mapping WRITE_ONLY 1 MESSAGE_SIZE_16K)
    {[1 := object false MESSAGE_SIZE_16K []; 2 := object false MESSAGE_SIZE_16K []]} with
  | Ok (Some idx, s', m') => managed_ s' = Some 2 ∧ block_buf_size (conf_ s') = 17 * 1024
  | _ => False
  end.
Proof. split; vm_compute; [reflexivity|split; reflexivity]. Qed.

(** Remapping that goes wrong.  A writer whose segment was replaced and then
    removed answers false for a message that fits its old ceiling, but for a
    larger one goes on to [Recreate] and dereferences the null [state_].  A
    reader checks the block index against the old segment, remaps, and then
    uses the index in the new segment, beyond its blocks. *)
Theorem segment_remap_faults :
  let m : mem := {[1 := object true MESSAGE_SIZE_16K []]} in
  let s := mapping WRITE_ONLY 1 MESSAGE_SIZE_16K in
  (match AcquireBlockToWrite fail fail (creates 3) 600 no_spurious 100 s m with
   | Ok (None, _, _) => True
   | _ => False
   end) ∧
  AcquireBlockToWrite fail fail (creates 3) 600 no_spurious (100 * 1024) s m = Undefined ∧
  AcquireBlockToRead fail (opens 2) 300 (mapping READ_ONLY 1 MESSAGE_SIZE_16K)
    (<[2 := object false MESSAGE_SIZE_128K []]> m) = Undefined.
Proof. split_and!; vm_compute; [exact I|reflexivity|reflexivity]. Qed.

(** Taking a block to read, on a segment that needs no remapping.  The call
    succeeds exactly if the index is in range and nobody writes the block; it
    then counts one more reader, of that block only, and releasing restores the
    locks; likewise releasing a block taken for writing leaves it free.  A
    refusal changes nothing. *)
Theorem segment_read_block ai am s m id sh idx lock :
  mem_ok m → seg_ok s m → init_ s = true → managed_ s = Some id → m !! id = Some sh →
  State.need_remap_ (state_ sh) = false → 0 <= idx → blocks_ sh !! Z.to_nat idx = Some lock →
  -1 <= lock < 2 ^ 31 - 1 →
  (idx < block_num (conf_ s) ∧ 0 <= lock →
     ∃ m', AcquireBlockToRead ai am idx s m = Ok (true, s, m') ∧
       m' = <[id := mkshm (state_ sh) (<[Z.to_nat idx := lock + 1]> (blocks_ sh))]> m ∧
       ReleaseReadBlock idx s m' = Ok m) ∧
  (¬ (idx < block_num (conf_ s) ∧ 0 <= lock) → AcquireBlockToRead ai am idx s m = Ok (false, s, m)) ∧
  (idx < block_num (conf_ s) → lock = Block.kWriteExclusive →
     ReleaseWrittenBlock idx s m =
       Ok (<[id := mkshm (state_ sh) (<[Z.to_nat idx := Block.kRWLockFree]> (blocks_ sh))]> m)).
Proof.
  intros Hm [_ Hv] Hi Hid Hsh Hn Hidx Hl Hlock.
  assert (Z.to_nat idx < length (blocks_ sh))%nat as Hlt by (by eapply lookup_lt_Some).
  assert (∀ d, add_lock idx d s m = Ok (<[id := mkshm (state_ sh) (<[Z.to_nat idx := i32 (lock + d)]> (blocks_ sh))]> m)) as Hadd.
  { intros d. unfold add_lock, mapped. rewrite Hid. cbn. rewrite Hsh. cbn. rewrite Hl. done. }
  assert (AcquireBlockToRead ai am idx s m = if block_num (conf_ s) <=? idx then Ok (false, s, m)
    else if lock <? 0 then Ok (false, s, m) else m' ← add_lock idx 1 s m; Ok (true, s, m')) as Hread.
  { unfold AcquireBlockToRead. rewrite Hi. cbn -[add_lock]. case_match; [done|]. unfold mapped. rewrite Hid.
    cbn -[add_lock]. rewrite Hsh. cbn -[add_lock]. rewrite Hn. cbn -[add_lock]. rewrite Hid. cbn -[add_lock].
    rewrite Hsh. cbn -[add_lock]. rewrite Hl. done. }
  split_and!.
  - intros [Hr H0]. eexists. rewrite Hread, Hadd. rewrite i32_small by lia.
    rewrite (proj2 (Z.leb_gt _ _)), (proj2 (Z.ltb_ge _ _)) by lia. cbn. split_and!; [done|done|].
    unfold ReleaseReadBlock. rewrite (proj2 (Z.leb_gt _ _)) by lia. unfold add_lock, mapped. rewrite Hid. cbn.
    rewrite lookup_insert_eq. cbn. rewrite list_lookup_insert_eq by done. cbn. f_equal.
    rewrite insert_insert_eq, list_insert_insert_eq, i32_small by lia. replace (lock + 1 + -1) with lock by lia.
    rewrite list_insert_id by done. apply insert_id. rewrite Hsh. by destruct sh.
  - intros Hno. rewrite Hread. destruct (Z.leb_spec (block_num (conf_ s)) idx); [done|].
    destruct (Z.ltb_spec lock 0); [done|]. destruct Hno. lia.
  - intros Hr ->. unfold ReleaseWrittenBlock. rewrite (proj2 (Z.leb_gt _ _)) by lia. rewrite Hadd. done.
Qed.

Lemma segment_read_block_witness :
  (∃ m', AcquireBlockToRead fail fail 2 (mapping READ_ONLY 1 MESSAGE_SIZE_MORE) {[1 := demo_object]} =
     Ok (true, mapping READ_ONLY 1 MESSAGE_SIZE_MORE, m')) ∧
  AcquireBlockToRead fail fail 3 (mapping READ_ONLY 1 MESSAGE_SIZE_MORE) {[1 := demo_object]} =
    Ok (false, mapping READ_ONLY 1 MESSAGE_SIZE_MORE, {[1 := demo_object]}).
Proof.
  assert (mem_ok {[1 := demo_object]}) as Hm.
  { intros id sh. rewrite lookup_singleton. case_decide; [|done]. intros [= <-]. split_and!; vm_compute; done. }
  assert (seg_ok (mapping READ_ONLY 1 MESSAGE_SIZE_MORE) {[1 := demo_object]}) as Hs.
  { split; [by exists MESSAGE_SIZE_MORE|]. intros _. by exists 1, demo_object. }
  split; [|vm_compute; reflexivity].
  destruct (proj1 (segment_read_block fail fail (mapping READ_ONLY 1 MESSAGE_SIZE_MORE) {[1 := demo_object]} 1 demo_object 2 2
    Hm Hs eq_refl eq_refl eq_refl eq_refl ltac:(lia) eq_refl ltac:(lia))) as (m' & E & _).
  - split; [vm_compute; reflexivity|lia].
  - by exists m'.
Defined.
End Segment.
