(* ===== verification/Notifier.v ===== *)
(** * The notification ring in shared memory
    ([cyber/transport/shm/condition_notifier.cc])

    Writers of all processes announce blocks through one ring of records; every
    process listens with its own position.  [Notify] is three steps (taking a
    sequence number, writing the record, publishing the number), an attempt of
    [Listen] two (comparing the numbers, copying the record). *)

From S2P Require Import Prelude Shm.

Local Open Scope Z_scope.
Local Open Scope cyber_scope.

Module ConditionNotifier.

Definition kBufLength : Z := 4096.

Inductive writer := WIdle | WInfo (seq : Z) (info : ReadableInfo.t) | WSeq (seq : Z) (info : ReadableInfo.t).
Inductive listener := LIdle | LCopy.

(** [next_seq], [infos], [seqs]: the [Indicator]; [next_seq_]: the listener's
    position.  [hist]: the records in the order of their numbers; [heard]: what
    [Listen] has returned. *)
Record t := mk {
  next_seq : Z;
  infos : list ReadableInfo.t;
  seqs : list Z;
  next_seq_ : Z;
  lpc : listener;
  writers : list writer;
  hist : list ReadableInfo.t;
  heard : list ReadableInfo.t;
}.

Inductive label :=
| LNotify (i : nat) (info : ReadableInfo.t)
| LWrite (i : nat)
| LListen.

Definition slot (seq : Z) : nat := Z.to_nat (seq mod kBufLength).

Definition set_writer (i : nat) (w : writer) (s : t) : t :=
  mk (next_seq s) (infos s) (seqs s) (next_seq_ s) (lpc s) (<[i := w]> (writers s)) (hist s) (heard s).
Definition set_lpc (p : listener) (s : t) : t :=
  mk (next_seq s) (infos s) (seqs s) (next_seq_ s) p (writers s) (hist s) (heard s).

(** [Notify(info)] by writer [i]. *)
Definition notify_step (i : nat) (s : t) : option t :=
  match writers s !! i with
  | Some (WInfo seq info) =>
      Some (set_writer i (WSeq seq info)
        (mk (next_seq s) (<[slot seq := info]> (infos s)) (seqs s) (next_seq_ s) (lpc s) (writers s) (hist s) (heard s)))
  | Some (WSeq seq info) =>
      Some (set_writer i WIdle
        (mk (next_seq s) (infos s) (<[slot seq := seq]> (seqs s)) (next_seq_ s) (lpc s) (writers s) (hist s) (heard s)))
  | _ => None
  end.

(** One attempt of [Listen]; one that fails is repeated after a pause, until the
    timeout. *)
Definition listen_step (s : t) : option t :=
  match lpc s with
  | LIdle =>
      if negb (next_seq s =? next_seq_ s) then
        seq ← seqs s !! slot (next_seq_ s);
        Some (if seq =? next_seq_ s then set_lpc LCopy s else s)
      else Some s
  | LCopy =>
      info ← infos s !! slot (next_seq_ s);
      Some (mk (next_seq s) (infos s) (seqs s) (next_seq_ s +64 1) LIdle (writers s) (hist s) (heard s ++ [info]))
  end.

Definition step (l : label) (s : t) : option t :=
  match l with
  | LNotify i info =>
      match writers s !! i with
      | Some WIdle =>
          Some (mk (next_seq s +64 1) (infos s) (seqs s) (next_seq_ s) (lpc s)
            (<[i := WInfo (next_seq s) info]> (writers s)) (hist s ++ [info]) (heard s))
      | _ => None
      end
  | LWrite i => notify_step i s
  | LListen => listen_step s
  end.

(** [OpenOrCreate] by the first process: a ring of zeros. *)
Definition initial (n : nat) : t :=
  mk 0 (replicate (Z.to_nat kBufLength) ReadableInfo.ReadableInfo) (replicate (Z.to_nat kBufLength) 0) 0 LIdle
    (replicate n WIdle) [] [].

(** A process that starts to listen when nobody is notifying and [n0] records
    have been announced before. *)
Record starts (n0 : Z) (s : t) : Prop := {
  st_next : next_seq s = n0;
  st_next_ : next_seq_ s = n0;
  st_infos : Z.of_nat (length (infos s)) = kBufLength;
  st_seqs : Z.of_nat (length (seqs s)) = kBufLength;
  st_old : ∀ i v, seqs s !! i = Some v → v < n0;
  st_idle : Forall (λ w, w = WIdle) (writers s);
  st_lpc : lpc s = LIdle;
  st_hist : hist s = [] ∧ heard s = [];
}.

(** Executions in which the listener never falls further behind than the ring is
    long. *)
Definition within (s : t) : bool := next_seq s - next_seq_ s <=? kBufLength.
Definition step_within (l : label) (s : t) : option t :=
  s' ← step l s; if within s' then Some s' else None.

Definition pending (w : writer) : option (Z * ReadableInfo.t) :=
  match w with WIdle => None | WInfo k m | WSeq k m => Some (k, m) end.

(** Nobody is still writing number [k]. *)
Definition done_with (k : Z) (s : t) : Prop :=
  ∀ i w m, writers s !! i = Some w → pending w ≠ Some (k, m).

Definition recorded (n0 k : Z) (m : ReadableInfo.t) (s : t) : Prop :=
  n0 <= k ∧ hist s !! Z.to_nat (k - n0) = Some m.

Record inv (n0 : Z) (s : t) : Prop := {
  ni_within : next_seq s - next_seq_ s <= kBufLength;
  ni_infos : Z.of_nat (length (infos s)) = kBufLength;
  ni_seqs : Z.of_nat (length (seqs s)) = kBufLength;
  ni_next : next_seq s = n0 + Z.of_nat (length (hist s));
  ni_pos : n0 <= next_seq_ s <= next_seq s;
  ni_heard : heard s = take (Z.to_nat (next_seq_ s - n0)) (hist s);
  ni_writer : ∀ i w k m, writers s !! i = Some w → pending w = Some (k, m) →
    next_seq_ s <= k < next_seq s ∧ recorded n0 k m s ∧ seqs s !! slot k ≠ Some k;
  ni_wrote : ∀ i k m, writers s !! i = Some (WSeq k m) → infos s !! slot k = Some m;
  ni_uniq : ∀ i j w w' k m m', writers s !! i = Some w → writers s !! j = Some w' →
    pending w = Some (k, m) → pending w' = Some (k, m') → i = j;
  ni_done : ∀ k, next_seq_ s <= k < next_seq s → done_with k s →
    seqs s !! slot k = Some k ∧ ∃ m, recorded n0 k m s ∧ infos s !! slot k = Some m;
  ni_old : ∀ i v, seqs s !! i = Some v → v < next_seq s;
  ni_copy : lpc s = LCopy → next_seq_ s < next_seq s ∧ done_with (next_seq_ s) s;
}.

Lemma slot_inj a k k' :
  a <= k < a + kBufLength → a <= k' < a + kBufLength → slot k = slot k' → k = k'.
Proof.
  intros Hk Hk' H. unfold slot in H.
  pose proof (Z.mod_pos_bound k kBufLength ltac:(done)). pose proof (Z.mod_pos_bound k' kBufLength ltac:(done)).
  apply (mod_window_inj kBufLength); [done|lia|lia].
Qed.

Lemma slot_lt {A} (l : list A) k : Z.of_nat (length l) = kBufLength → (slot k < length l)%nat.
Proof. intros H. unfold slot. pose proof (Z.mod_pos_bound k kBufLength ltac:(done)). lia. Qed.

Lemma recorded_snoc n0 k m s s' x : hist s' = hist s ++ [x] → recorded n0 k m s → recorded n0 k m s'.
Proof. intros Hh [Hk Hm]. split; [done|]. rewrite Hh. by apply lookup_app_l_Some. Qed.

Lemma recorded_same n0 k m s s' : hist s' = hist s → recorded n0 k m s → recorded n0 k m s'.
Proof. intros Hh [Hk Hm]. split; [done|]. by rewrite Hh. Qed.

Lemma notify_inv n0 i m s s' :
  0 <= n0 → inv n0 s → step (LNotify i m) s = Some s' → within s' = true → n0 + Z.of_nat (length (hist s')) < 2 ^ 64 →
  inv n0 s'.
Proof.
  intros Hn0 [Hwi Hli Hls Hnx Hp Hh Hw Hwr Hu Hd Ho Hc] Hs Hwin Hb. cbn in Hs.
  destruct (writers s !! i) as [[]|] eqn:Hi; try done. simplify_eq. apply Z.leb_le in Hwin. cbn in Hwin, Hb.
  rewrite length_app in Hb. cbn in Hb. rewrite u64_small in * by lia.
  assert (∀ j w k x, <[i := WInfo (next_seq s) m]> (writers s) !! j = Some w → pending w = Some (k, x) →
    (j = i ∧ k = next_seq s ∧ x = m) ∨ (j ≠ i ∧ writers s !! j = Some w ∧ next_seq_ s <= k < next_seq s)) as Hcase.
  { intros j w k x Hj Hpd. rewrite list_lookup_insert in Hj. case_decide as Hd'.
    - destruct Hd' as [-> _]. simplify_eq/=. by left.
    - right. destruct (decide (j = i)) as [-> |]; [|split_and!; try done; by eapply Hw]. simplify_eq/=. }
  split; cbn; try done; try lia.
  - rewrite length_app. cbn. lia.
  - rewrite take_app_le by lia. done.
  - intros j w k x Hj Hpd. destruct (Hcase j w k x Hj Hpd) as [(-> & -> & ->)|(Hji & Hj' & Hk)].
    + split_and!; [lia|lia| |].
      * split; [lia|]. cbn. rewrite lookup_app_r by lia. by replace (_ - _)%nat with 0%nat by lia.
      * intros Heq. apply Ho in Heq. lia.
    + destruct (Hw _ _ _ _ Hj' Hpd) as (? & Hrec & Hs). split_and!; [lia|lia| |done]. by eapply recorded_snoc.
  - intros j k x Hj. destruct (Hcase j _ k x Hj eq_refl) as [(-> & -> & ->)|(Hji & Hj' & Hk)]; [|by eapply Hwr].
    rewrite list_lookup_insert in Hj. case_decide; simplify_eq.
  - intros j j' w w' k x x' Hj Hj' Hpd Hpd'.
    destruct (Hcase _ _ _ _ Hj Hpd) as [(-> & -> & ->)|(Hji & Hj1 & Hk)],
      (Hcase _ _ _ _ Hj' Hpd') as [(-> & E & ->)|(Hji' & Hj1' & Hk')]; [done|lia|lia|by eapply Hu].
  - intros k Hk Hdone. destruct (decide (k = next_seq s)) as [-> |Hne].
    + exfalso. eapply (Hdone i (WInfo (next_seq s) m) m); [|done]. cbn. apply list_lookup_insert_eq. by eapply lookup_lt_Some.
    + destruct (Hd k) as (? & x & Hrec & Hx); [lia| |].
      { intros j w x Hj Hpd. apply (Hdone j w x); [|done]. cbn. rewrite list_lookup_insert_ne; [done|].
        intros <-. by simplify_eq/=. }
      split; [done|]. exists x. split; [by eapply recorded_snoc|done].
  - intros j v Hv. apply Ho in Hv. lia.
  - intros Hl. destruct (Hc Hl) as [Hlt Hdone]. split; [lia|]. intros j w x Hj Hpd.
    destruct (Hcase _ _ _ _ Hj Hpd) as [(-> & Hk & ->)|(Hji & Hj' & Hk)]; [lia|]. by eapply Hdone.
Qed.

(** Writing the record: its slot was nobody else's.  Then publishing its number. *)
Lemma write_info_inv n0 i k m s s' :
  inv n0 s → writers s !! i = Some (WInfo k m) → step (LWrite i) s = Some s' → inv n0 s'.
Proof.
  intros [Hwi Hli Hls Hnx Hp Hh Hw Hwr Hu Hd Ho Hc] Hi Hs. cbn in Hs. unfold notify_step in Hs. rewrite Hi in Hs. simplify_eq.
  assert (∀ j w k' x, <[i := WSeq k m]> (writers s) !! j = Some w → pending w = Some (k', x) →
    (j = i ∧ k' = k ∧ x = m) ∨ (j ≠ i ∧ writers s !! j = Some w ∧ slot k ≠ slot k')) as Hcase.
  { intros j w k' x Hj Hpd. rewrite list_lookup_insert in Hj. case_decide as Hd'.
    * destruct Hd' as [-> _]. simplify_eq/=. by left.
    * right. destruct (decide (j = i)) as [-> |Hji].
      { destruct Hd'. split; [done|]. by eapply lookup_lt_Some. }
      split_and!; [done|done|]. intros Heq. destruct (Hw _ _ _ _ Hi eq_refl) as (? & _). destruct (Hw _ _ _ _ Hj Hpd) as (? & _).
      assert (k = k') as -> by (apply (slot_inj (next_seq_ s)); [lia|lia|done]).
      apply Hji. by eapply (Hu j i). }
  destruct (Hw _ _ _ _ Hi eq_refl) as (Hk & Hrec & Hsq).
  split; cbn; rewrite ?length_insert; try done.
  - intros j w k' x Hj Hpd. destruct (Hcase _ _ _ _ Hj Hpd) as [(-> & -> & ->)|(Hji & Hj' & _)]; [done|by eapply Hw].
  - intros j k' x Hj. destruct (Hcase _ _ _ _ Hj eq_refl) as [(-> & -> & ->)|(Hji & Hj' & Hne)].
    + apply list_lookup_insert_eq. by apply slot_lt.
    + rewrite list_lookup_insert_ne by done. by eapply Hwr.
  - intros j j' w w' k' x x' Hj Hj' Hpd Hpd'.
    destruct (Hcase _ _ _ _ Hj Hpd) as [(-> & -> & ->)|(Hji & Hj1 & Hk1)],
      (Hcase _ _ _ _ Hj' Hpd') as [(-> & E & ->)|(Hji' & Hj1' & Hk1')]; [done|done|congruence|by eapply Hu].
  - intros k' Hk' Hdone.
    assert (k' ≠ k) as Hne.
    { intros ->. apply (Hdone i (WSeq k m) m); [|done]. cbn. apply list_lookup_insert_eq. by eapply lookup_lt_Some. }
    destruct (Hd k') as (? & x & Hr & Hx); [lia| |].
    { intros j w x Hj Hpd. apply (Hdone j w x); [|done]. cbn. rewrite list_lookup_insert_ne; [done|].
      intros <-. simplify_eq/=. }
    split; [done|]. exists x. split; [done|]. rewrite list_lookup_insert_ne; [done|]. intros Heq. apply Hne.
    symmetry. apply (slot_inj (next_seq_ s)); [lia|lia|done].
  - intros Hl. destruct (Hc Hl) as [Hlt Hdone]. split; [done|]. intros j w x Hj Hpd.
    destruct (Hcase _ _ _ _ Hj Hpd) as [(-> & Hk' & ->)|(Hji & Hj' & _)]; [|by eapply Hdone].
    eapply (Hdone i (WInfo k m) m); [done|]. cbn. congruence.
Qed.

Lemma write_seq_inv n0 i k m s s' :
  inv n0 s → writers s !! i = Some (WSeq k m) → step (LWrite i) s = Some s' → inv n0 s'.
Proof.
  intros [Hwi Hli Hls Hnx Hp Hh Hw Hwr Hu Hd Ho Hc] Hi Hs. cbn in Hs. unfold notify_step in Hs. rewrite Hi in Hs. simplify_eq.
  assert (∀ j w k' x, <[i := WIdle]> (writers s) !! j = Some w → pending w = Some (k', x) →
    j ≠ i ∧ writers s !! j = Some w ∧ slot k ≠ slot k') as Hcase.
  { intros j w k' x Hj Hpd. rewrite list_lookup_insert in Hj. case_decide as Hd'; [by simplify_eq/=|].
    assert (j ≠ i) as Hji. { intros ->. destruct Hd'. split; [done|]. by eapply lookup_lt_Some. }
    split_and!; [done|done|]. intros Heq. destruct (Hw _ _ _ _ Hi eq_refl) as (? & _). destruct (Hw _ _ _ _ Hj Hpd) as (? & _).
    assert (k = k') as -> by (apply (slot_inj (next_seq_ s)); [lia|lia|done]).
    apply Hji. by eapply (Hu j i). }
  destruct (Hw _ _ _ _ Hi eq_refl) as (Hk & Hrec & Hsq).
  split; cbn; rewrite ?length_insert; try done.
  - intros j w k' x Hj Hpd. destruct (Hcase _ _ _ _ Hj Hpd) as (Hji & Hj' & Hne).
    rewrite list_lookup_insert_ne by done. by eapply Hw.
  - intros j k' x Hj. destruct (Hcase _ _ _ _ Hj eq_refl) as (Hji & Hj' & Hne). by eapply Hwr.
  - intros j j' w w' k' x x' Hj Hj' Hpd Hpd'.
    destruct (Hcase _ _ _ _ Hj Hpd) as (? & ? & _), (Hcase _ _ _ _ Hj' Hpd') as (? & ? & _). by eapply Hu.
  - intros k' Hk' Hdone. destruct (decide (k' = k)) as [-> |Hne].
    + split; [apply list_lookup_insert_eq; by apply slot_lt|]. exists m. split; [done|]. by eapply Hwr.
    + destruct (Hd k') as (? & x & Hr & Hx); [lia| |].
      { intros j w x Hj Hpd. destruct (decide (j = i)) as [-> |Hji]; [simplify_eq/=|].
        apply (Hdone j w x); [|done]. cbn. by rewrite list_lookup_insert_ne. }
      split; [|by exists x]. rewrite list_lookup_insert_ne; [done|]. intros Heq. apply Hne.
      symmetry. apply (slot_inj (next_seq_ s)); [lia|lia|done].
  - intros j v. rewrite list_lookup_insert. case_decide; [intros [= <-]; lia|apply Ho].
  - intros Hl. destruct (Hc Hl) as [Hlt Hdone]. split; [done|]. intros j w x Hj Hpd.
    destruct (Hcase _ _ _ _ Hj Hpd) as (Hji & Hj' & _). by eapply Hdone.
Qed.

Lemma write_inv n0 i s s' : inv n0 s → step (LWrite i) s = Some s' → inv n0 s'.
Proof.
  intros Hinv Hs. destruct (writers s !! i) as [[|k m|k m]|] eqn:Hi.
  2: by eapply write_info_inv.
  2: by eapply write_seq_inv.
  all: cbn in Hs; unfold notify_step in Hs; by rewrite Hi in Hs.
Qed.

Lemma listen_inv n0 s s' :
  0 <= n0 → inv n0 s → step LListen s = Some s' → n0 + Z.of_nat (length (hist s)) < 2 ^ 64 → inv n0 s'.
Proof.
  intros Hn0 Hinv Hs Hb. pose proof Hinv as [Hwi Hli Hls Hnx Hp Hh Hw Hwr Hu Hd Ho Hc].
  cbn in Hs. unfold listen_step in Hs. destruct (lpc s) eqn:Hl.
  - destruct (Z.eqb_spec (next_seq s) (next_seq_ s)) as [He|He]; cbn in Hs; [by simplify_eq|].
    destruct (seqs s !! slot (next_seq_ s)) as [q|] eqn:Hq; cbn in Hs; [|done].
    destruct (Z.eqb_spec q (next_seq_ s)) as [-> |Hne]; simplify_eq; [|done].
    split; cbn; try done. intros _. split; [lia|]. intros j w x Hj Hpd.
    by destruct (Hw _ _ _ _ Hj Hpd) as (_ & _ & Hsq).
  - destruct (Hc eq_refl) as [Hlt Hdone]. destruct (Hd (next_seq_ s)) as (Hsq & m & [Hr1 Hr2] & Hm); [lia|done|].
    rewrite Hm in Hs. cbn in Hs. simplify_eq. rewrite u64_small by lia.
    split; cbn; try done; try lia.
    + rewrite Hh. replace (Z.to_nat (next_seq_ s + 1 - n0)) with (S (Z.to_nat (next_seq_ s - n0))) by lia.
      symmetry. by apply take_snoc_lookup.
    + intros j w k x Hj Hpd. destruct (Hw _ _ _ _ Hj Hpd) as (Hk & Hrest). split; [|done].
      assert (k ≠ next_seq_ s) as Hne by (intros ->; by eapply Hdone). lia.
    + intros k Hk. apply Hd. lia.
Qed.

Lemma starts_inv n0 s : 0 <= n0 → starts n0 s → inv n0 s.
Proof.
  intros Hn0 [H1 H2 H3 H4 H5 H6 H7 [H8 H9]]. rewrite Forall_lookup in H6.
  split; rewrite ?H1, ?H2, ?H8, ?H9; cbn; try done; try lia.
  - by rewrite take_nil.
  - intros i w k m Hi Hpd. by rewrite (H6 _ _ Hi) in Hpd.
  - intros i k m Hi. by apply H6 in Hi.
  - intros i j w w' k m m' Hi Hj Hpd. by rewrite (H6 _ _ Hi) in Hpd.
  - intros Hl. congruence.
Qed.

Lemma hist_mono l s s' : step l s = Some s' → (length (hist s) <= length (hist s'))%nat.
Proof.
  intros Hs. destruct l as [i m|i|]; cbn in Hs; unfold notify_step, listen_step in Hs; split_step Hs; cbn; try done.
  rewrite length_app. cbn. lia.
Qed.

Lemma within_inv n0 s0 s :
  0 <= n0 → starts n0 s0 → reachable step_within s0 s → n0 + Z.of_nat (length (hist s)) < 2 ^ 64 → inv n0 s.
Proof.
  intros Hn0 H0. apply (reachable_inv_while step_within (λ s, n0 + Z.of_nat (length (hist s)) < 2 ^ 64) (inv n0)).
  - by apply starts_inv.
  - intros l s1 s2 Hs Hb. unfold step_within in Hs. destruct (step l s1) as [s'|] eqn:E; [|done]. cbn in Hs.
    case_match; [|done]. simplify_eq. apply hist_mono in E. lia.
  - intros l s1 s2 Hinv Hb1 Hb2 Hs. unfold step_within in Hs. destruct (step l s1) as [s'|] eqn:E; [|done]. cbn in Hs.
    destruct (within s') eqn:Ew; [|done]. simplify_eq.
    destruct l; [by eapply notify_inv|by eapply write_inv|by eapply listen_inv].
Qed.

(** C23: hearing notifications.  A process that starts to listen after at least
    one notification, while none is under way, and never falls behind by more than the length of the
    ring, hears every record announced since, each once, in the order of their
    sequence numbers and as it was written, whatever the interleaving of the
    writers; and when all announced records have been published, one attempt
    delivers the next. *)
Theorem condition_notifier_in_order n0 s0 s :
  1 <= n0 → starts n0 s0 → reachable step_within s0 s → n0 + Z.of_nat (length (hist s)) < 2 ^ 64 →
  heard s = take (Z.to_nat (next_seq_ s - n0)) (hist s) ∧ n0 <= next_seq_ s <= n0 + Z.of_nat (length (hist s)) ∧
  (lpc s = LIdle → Forall (λ w, w = WIdle) (writers s) → (length (heard s) < length (hist s))%nat →
     ∃ s' m, run step [LListen; LListen] s = Some s' ∧ hist s !! length (heard s) = Some m ∧ heard s' = heard s ++ [m]).
Proof.
  intros Hn0 H0 Hr Hb. destruct (within_inv n0 s0 s) as [Hwi Hli Hls Hnx Hp Hh Hw Hwr Hu Hd Ho Hc]; [lia|done..|].
  split_and!; [done|lia|lia|]. intros Hl Hidle Hlt. rewrite Forall_lookup in Hidle.
  assert (length (heard s) = Z.to_nat (next_seq_ s - n0)) as Hlh by (rewrite Hh, length_take; lia).
  destruct (Hd (next_seq_ s)) as (Hsq & m & [_ Hm] & Him); [lia| |].
  { intros j w x Hj. by rewrite (Hidle _ _ Hj). }
  assert (listen_step s = Some (set_lpc LCopy s)) as E1.
  { unfold listen_step. rewrite Hl, (proj2 (Z.eqb_neq _ _)) by lia. cbn. rewrite Hsq. cbn. by rewrite Z.eqb_refl. }
  eexists _, m. split; [|split; [by rewrite Hlh|]].
  - cbn [run step]. rewrite E1. cbn. rewrite Him. cbn. reflexivity.
  - done.
Qed.

(** ** Falling behind *)

(** The slot the listener waits for belongs to another number, and nobody will
    write its own. *)
Definition deaf (s : t) : Prop :=
  lpc s = LIdle ∧ next_seq_ s < next_seq s ∧ seqs s !! slot (next_seq_ s) ≠ Some (next_seq_ s) ∧
  done_with (next_seq_ s) s.

Lemma deaf_step l s s' :
  deaf s → step l s = Some s' → 0 <= next_seq s → next_seq s + 1 < 2 ^ 64 →
  deaf s' ∧ heard s' = heard s ∧ (next_seq s' = next_seq s + Z.of_nat (length (hist s') - length (hist s))).
Proof.
  intros (Hl & Hlt & Hsq & Hdone) Hs H0 Hb. destruct l as [i m|i|]; cbn in Hs.
  - destruct (writers s !! i) as [[]|] eqn:Hi; try done. simplify_eq. cbn. rewrite u64_small by lia.
    rewrite length_app. cbn. split_and!; [|done|lia]. split_and!; cbn; [done|lia|done|].
    intros j w x Hj Hpd. cbn in Hj. rewrite list_lookup_insert in Hj. case_decide; [|by eapply Hdone].
    simplify_eq/=. lia.
  - unfold notify_step in Hs. destruct (writers s !! i) as [[|k m|k m]|] eqn:Hi; try done; simplify_eq; cbn.
    + split_and!; [|done|lia]. split_and!; cbn; [done|done|done|]. intros j w x Hj Hpd. cbn in Hj.
      rewrite list_lookup_insert in Hj. case_decide; [|by eapply Hdone]. simplify_eq/=.
      by apply (Hdone i (WInfo (next_seq_ s) x) x).
    + split_and!; [|done|lia]. split_and!; cbn; [done|done| |].
      * rewrite list_lookup_insert. case_decide; [|done]. intros [= Hk]. by apply (Hdone i (WSeq k m) m); [|cbn; rewrite Hk].
      * intros j w x Hj Hpd. cbn in Hj. rewrite list_lookup_insert in Hj. case_decide; [|by eapply Hdone]. by simplify_eq/=.
  - unfold listen_step in Hs. rewrite Hl in Hs. rewrite (proj2 (Z.eqb_neq _ _)) in Hs by lia. cbn in Hs.
    destruct (seqs s !! slot (next_seq_ s)) as [q|] eqn:Hq; [|done]. cbn in Hs.
    destruct (Z.eqb_spec q (next_seq_ s)) as [-> |Hne]; [done|]. simplify_eq. split_and!; [|done|lia].
    split_and!; [done|done|by rewrite Hq|done].
Qed.

Lemma deaf_forever s s' :
  deaf s → reachable step s s' → 0 <= next_seq s →
  next_seq s + Z.of_nat (length (hist s') - length (hist s)) + 1 < 2 ^ 64 →
  (deaf s' ∧ heard s' = heard s) ∧ (length (hist s) <= length (hist s'))%nat ∧
  next_seq s' = next_seq s + Z.of_nat (length (hist s') - length (hist s)).
Proof.
  intros Hd Hr H0. induction Hr as [|s1 l s2 Hr IH Hs]; intros Hb; [split_and!; [done..|lia]|].
  pose proof (hist_mono _ _ _ Hs). destruct IH as ([Hd1 Hh1] & Hl1 & Hn1); [lia|].
  destruct (deaf_step l s1 s2 Hd1 Hs) as (Hd2 & Hh2 & Hn2); [lia|lia|]. split_and!; [done|congruence|lia|lia].
Qed.

(** One whole notification by writer [i]. *)
Definition notify (i : nat) (m : ReadableInfo.t) : list label := [LNotify i m; LWrite i; LWrite i].

Record quiet (i : nat) (s : t) : Prop := {
  qu_writer : writers s !! i = Some WIdle;
  qu_seqs : Z.of_nat (length (seqs s)) = kBufLength;
  qu_lpc : lpc s = LIdle;
  qu_done : done_with (next_seq_ s) s;
}.

Lemma notify_run i m s :
  quiet i s → 0 <= next_seq_ s <= next_seq s → next_seq s + 1 < 2 ^ 64 →
  ∃ s', run step (notify i m) s = Some s' ∧ quiet i s' ∧
    next_seq s' = next_seq s + 1 ∧ next_seq_ s' = next_seq_ s ∧ seqs s' = <[slot (next_seq s) := next_seq s]> (seqs s) ∧
    heard s' = heard s ∧ done_with (next_seq_ s) s' ∧ lpc s' = LIdle ∧ hist s' = hist s ++ [m] ∧
    writers s' !! i = Some WIdle.
Proof.
  intros [Hi Hls Hl Hd] Hp Hb. assert (i < length (writers s))%nat as Hlt by (by eapply lookup_lt_Some).
  assert (step (LNotify i m) s = Some (mk (next_seq s + 1) (infos s) (seqs s) (next_seq_ s) (lpc s)
    (<[i := WInfo (next_seq s) m]> (writers s)) (hist s ++ [m]) (heard s))) as E1.
  { cbn. rewrite Hi, u64_small by lia. done. }
  assert (∀ s1 k, writers s1 = <[i := WInfo k m]> (writers s) → step (LWrite i) s1 =
    Some (mk (next_seq s1) (<[slot k := m]> (infos s1)) (seqs s1) (next_seq_ s1) (lpc s1)
      (<[i := WSeq k m]> (writers s)) (hist s1) (heard s1))) as E2.
  { intros s1 k Hw. cbn. unfold notify_step. rewrite Hw, list_lookup_insert_eq by done. unfold set_writer. cbn.
    by rewrite list_insert_insert_eq. }
  assert (∀ s1 k, writers s1 = <[i := WSeq k m]> (writers s) → step (LWrite i) s1 =
    Some (mk (next_seq s1) (infos s1) (<[slot k := k]> (seqs s1)) (next_seq_ s1) (lpc s1)
      (writers s) (hist s1) (heard s1))) as E3.
  { intros s1 k Hw. cbn. unfold notify_step. rewrite Hw, list_lookup_insert_eq by done. unfold set_writer. cbn.
    rewrite list_insert_insert_eq, (list_insert_id (writers s) i WIdle Hi). done. }
  unfold notify. cbn [run mbind option_bind]. rewrite E1. cbn [mbind option_bind]. erewrite E2 by done. cbn [mbind option_bind]. erewrite E3 by done.
  eexists. split; [done|]. cbn. split_and!; try done. split; cbn; [done|by rewrite length_insert|done|done].
Qed.

Lemma notify_all_run i ms s :
  quiet i s → 0 <= next_seq_ s <= next_seq s → next_seq s + Z.of_nat (length ms) < 2 ^ 64 →
  ∃ s', run step (ms ≫= notify i) s = Some s' ∧ quiet i s' ∧ next_seq s' = next_seq s + Z.of_nat (length ms) ∧
    next_seq_ s' = next_seq_ s ∧ heard s' = heard s ∧ hist s' = hist s ++ ms.
Proof.
  revert s. induction ms as [|m ms IH]; intros s Hq Hp Hb; cbn [length] in Hb.
  { exists s. rewrite app_nil_r. cbn. split_and!; try done. lia. }
  destruct (notify_run i m s Hq Hp) as (s1 & E & Hq1 & Hn & Hp1 & _ & Hh & _ & _ & Hhist & _); [lia|].
  destruct (IH s1 Hq1) as (s' & E' & Hq' & Hn' & Hp' & Hh' & Hhist'); [lia|lia|].
  exists s'. cbn [mbind list_bind]. rewrite run_app, E. cbn. split_and!; [done|done|rewrite Hn'; cbn; lia|congruence|congruence|].
  by rewrite Hhist', Hhist, <-app_assoc.
Qed.

(** Falling behind is final.  Let a listener that has heard everything be
    overtaken by one writer that announces 4097 records before the listener
    looks again.  Then, whatever happens afterwards, it never hears anything
    again: the slot it waits for has been reused, and [Listen] only compares
    for equality. *)
Theorem condition_notifier_overrun i s ms :
  quiet i s → next_seq_ s = next_seq s → 0 <= next_seq s → length ms = Z.to_nat (kBufLength + 1) →
  next_seq s + kBufLength + 1 < 2 ^ 64 →
  ∃ s', run step (ms ≫= notify i) s = Some s' ∧ heard s' = heard s ∧ hist s' = hist s ++ ms ∧
    ∀ s'', reachable step s' s'' → next_seq s + Z.of_nat (length (hist s'')) + 1 < 2 ^ 64 → heard s'' = heard s.
Proof.
  intros Hq Heq H0 Hlen Hb.
  assert (ms ≠ []) as Hms by (intros ->; unfold kBufLength in Hlen; cbn [length] in Hlen; lia).
  destruct (List.exists_last Hms) as (ms' & m & ->).
  rewrite length_app in Hlen. cbn in Hlen. unfold kBufLength in Hlen, Hb.
  destruct (notify_all_run i ms' s Hq) as (s1 & E1 & Hq1 & Hn1 & Hp1 & Hh1 & Hhist1); [lia|lia|].
  destruct (notify_run i m s1 Hq1) as (s2 & E2 & Hq2 & Hn2 & Hp2 & Hs2 & Hh2 & Hd2 & Hl2 & Hhist2 & _); [lia|lia|].
  exists s2. rewrite bind_app, run_app, E1. cbn [mbind option_bind list_bind]. rewrite app_nil_r.
  split_and!; [done|congruence|by rewrite Hhist2, Hhist1, app_assoc|]. intros s'' Hr Hb'.
  assert (deaf s2) as Hdeaf.
  { split_and!; [done|lia| |by rewrite Hp2]. rewrite Hs2, Hp2. unfold slot.
    replace (next_seq s1 mod kBufLength) with (next_seq_ s1 mod kBufLength).
    - rewrite list_lookup_insert_eq; [intros [= Hx]; lia|]. apply (slot_lt _ _ (qu_seqs _ _ Hq1)).
    - replace (next_seq s1) with (next_seq_ s1 + 1 * kBufLength) by (unfold kBufLength; lia).
      by rewrite Z_mod_plus_full. }
  assert (Z.of_nat (length (hist s2)) = Z.of_nat (length (hist s)) + 4097) as Hl3.
  { rewrite Hhist2, Hhist1, !length_app. cbn. lia. }
  destruct (decide (length (hist s2) <= length (hist s''))%nat) as [Hle|Hgt].
  - destruct (deaf_forever s2 s'' Hdeaf Hr) as [[_ ->] _]; [lia|lia|congruence].
  - exfalso. apply Hgt. clear -Hr. induction Hr as [|s1 l s3 Hr IH Hs]; [done|]. apply hist_mono in Hs. lia.
Qed.

(** The very first notification can be heard before it is written.  In a new
    ring the sequence number 0 is already in its slot; between the writer's
    [fetch_add] and its writes a listener takes the record of zeros for the
    first notification, and the real one is never heard. *)
Theorem condition_notifier_first :
  ∃ s, run step ([LNotify 0 ReadableInfo.demo; LListen; LListen; LWrite 0; LWrite 0]) (initial 1) = Some s ∧
    hist s = [ReadableInfo.demo] ∧ heard s = [ReadableInfo.ReadableInfo] ∧ next_seq_ s = 1 ∧ writers s = [WIdle].
Proof. eexists. split_and!; [vm_compute; reflexivity|..]; vm_compute; reflexivity. Qed.

(** ** Concrete rings *)
Definition later (n : nat) : t :=
  mk 1 (replicate (Z.to_nat kBufLength) ReadableInfo.ReadableInfo) (replicate (Z.to_nat kBufLength) 0) 1 LIdle
    (replicate n WIdle) [] [].

Lemma later_starts n : starts 1 (later n).
Proof.
  split; [done|done| | | | |done|done]; cbn [later next_seq infos seqs writers].
  - by rewrite length_replicate.
  - by rewrite length_replicate.
  - intros i v Hv. apply lookup_replicate in Hv as [-> _]. lia.
  - by apply Forall_replicate.
Qed.

Definition demo_trace : list label := [LNotify 0 ReadableInfo.demo; LWrite 0; LWrite 0; LListen; LListen].

Lemma condition_notifier_in_order_witness :
  match run step_within demo_trace (later 1) with
  | Some s => heard s = [ReadableInfo.demo] ∧ heard s = take (Z.to_nat (next_seq_ s - 1)) (hist s)
  | None => False
  end.
Proof.
  destruct (run step_within demo_trace (later 1)) as [s|] eqn:E; [|by vm_compute in E].
  split.
  - assert (heard <$> run step_within demo_trace (later 1) = Some [ReadableInfo.demo]) as H by (vm_compute; reflexivity).
    rewrite E in H. injection H as ->. reflexivity.
  - apply (condition_notifier_in_order 1 (later 1) s); [done|apply later_starts|by apply (run_reachable step_within _ demo_trace)|].
    assert (length ∘ hist <$> run step_within demo_trace (later 1) = Some 1%nat) as H by (vm_compute; reflexivity).
    rewrite E in H. injection H as ->. done.
Defined.

Lemma condition_notifier_overrun_witness :
  ∃ s', run step (replicate (Z.to_nat (kBufLength + 1)) ReadableInfo.demo ≫= notify 0) (later 1) = Some s' ∧
    heard s' = [].
Proof.
  destruct (condition_notifier_overrun 0 (later 1) (replicate (Z.to_nat (kBufLength + 1)) ReadableInfo.demo))
    as (s' & E & Hh & _).
  - split; [reflexivity|exact (st_seqs _ _ (later_starts 1))|reflexivity|].
    intros [|i] w m Hi; [by injection Hi as <-|discriminate Hi].
  - reflexivity.
  - discriminate.
  - apply length_replicate.
  - reflexivity.
  - exists s'. split; [exact E|exact Hh].
Defined.
End ConditionNotifier.
