(* ===== verification/NotifierLife.v ===== *)
(** * The life of a notifier
    ([cyber/transport/shm/condition_notifier.cc], [multicast_notifier.cc],
    [notifier_factory.cc])

    [NotifierBase]: what the dispatcher of shared memory expects of a notifier.
    [ConditionLife]: opening and closing the ring in shared memory, [Notify] and
    [Listen] on it as whole calls, over the steps of [Notifier.ConditionNotifier],
    and all three calls access by access, on any number of threads.
    [MulticastNotifier]: the same over sockets.
    What the system calls answer is an argument. *)

From S2P Require Import Prelude Shm Segment Notifier.

Local Open Scope Z_scope.
Local Open Scope cyber_scope.

(** ** The interface *)

(** [N], [L]: what the outside does during a call. *)
Class NotifierBase (S N L : Type) := {
  is_down : S → bool;
  Shutdown : S → S;
  Notify : ReadableInfo.t → N → S → outcome (bool * N);
  Listen : Z → L → S → outcome (option ReadableInfo.t * S);
}.

(** A notifier that was shut down stays so and does nothing. *)
Class NotifierLaws (S N L : Type) `{NotifierBase S N L} := {
  shutdown_down s : is_down (Shutdown s) = true;
  shutdown_twice s : is_down s = true → Shutdown s = s;
  notify_down info n s : is_down s = true → Notify info n s = Ok (false, n);
  listen_down timeout l s : is_down s = true → Listen timeout l s = Ok (None, s);
}.

(** ** The ring in shared memory *)
Module ConditionLife.
Import ConditionNotifier.

(** The [Indicator]; the segments that exist, by their identifiers.  A segment that
    this code has made holds a whole one; [shmget] of an existing key asks for no
    size, so one that is opened may be smaller and hold less of the arrays. *)
Record ring := mkring { r_next : Z; r_infos : list ReadableInfo.t; r_seqs : list Z }.
Abbreviation rings := (gmap Z ring).

Definition Indicator : ring :=
  mkring 0 (replicate (Z.to_nat kBufLength) ReadableInfo.ReadableInfo) (replicate (Z.to_nat kBufLength) 0).

(** [shmat] that fails answers a pointer of its own. *)
Inductive pointer := Null | Failed | At (id : Z).

Record t := mk {
  managed_shm_ : pointer;
  indicator_ : option Z;
  next_seq_ : Z;
  is_shutdown_ : bool;
}.

Definition set_next (n : Z) (s : t) : t := mk (managed_shm_ s) (indicator_ s) n (is_shutdown_ s).
Definition set_shutdown (s : t) : t := mk (managed_shm_ s) (indicator_ s) (next_seq_ s) true.

Definition Reset (s : t) : t := mk Null None (next_seq_ s) (is_shutdown_ s).

Definition OpenOnly (a : answers) (s : t) : bool * t :=
  match opened a with
  | None => (false, s)
  | Some id =>
      if attached a then (true, mk (At id) (Some id) (next_seq_ s) (is_shutdown_ s))
      else (false, mk Failed (indicator_ s) (next_seq_ s) (is_shutdown_ s))
  end.

(** A new segment: a ring of zeros in it, if it can be mapped. *)
Definition create (id : Z) (a : answers) (s : t) (m : rings) : bool * t * rings :=
  if attached a then (true, mk (At id) (Some id) (next_seq_ s) (is_shutdown_ s), <[id := Indicator]> m)
  else (false, mk Failed (indicator_ s) (next_seq_ s) (is_shutdown_ s), m).

(** The tries of [OpenOrCreate]. *)
Fixpoint tries (l : list created) (a : answers) (s : t) (m : rings) : bool * t * rings :=
  match l with
  | [] => (false, s, m)
  | Created id :: _ => create id a s m
  | EINVAL :: l => tries l a (Reset s) m
  | EEXIST :: _ => (OpenOnly a s, m)
  | EOther :: _ => (false, s, m)
  end.
Definition OpenOrCreate (a : answers) (s : t) (m : rings) : bool * t * rings := tries [create1 a; create2 a] a s m.

(** The constructor, which goes on at the ring's present number. *)
Definition go_on (x : bool * t * rings) : outcome (t * rings) :=
  let '(ok, s, m) := x in
  if negb ok then Ok (set_shutdown s, m)
  else id ← deref (indicator_ s); r ← deref (m !! id); Ok (set_next (r_next r) s, m).
Definition ConditionNotifier (a : answers) (m : rings) : outcome (t * rings) :=
  go_on (OpenOrCreate a (mk Null None 0 false) m).

(** [Shutdown] by itself; its flag and, 100 ms later, [Reset] are separate steps
    below. *)
Definition Shutdown (s : t) : t := if is_shutdown_ s then s else Reset (set_shutdown s).

(** The ring behind [indicator_]. *)
Definition mapped (s : t) (m : rings) : outcome (Z * ring) :=
  id ← deref (indicator_ s); r ← deref (m !! id); Ok (id, r).

(** A write into an array of the ring; past the end of the segment there is no
    memory. *)
Definition store {A} (idx : nat) (x : A) (l : list A) : outcome (list A) :=
  _ ← deref (l !! idx); Ok (<[idx := x]> l).

(** [Notify] by itself. *)
Definition Notify (info : ReadableInfo.t) (m : rings) (s : t) : outcome (bool * rings) :=
  if is_shutdown_ s then Ok (false, m)
  else
    '(id, r) ← mapped s m;
    let seq := r_next r in
    let idx := slot seq in
    infos ← store idx info (r_infos r);
    seqs ← store idx seq (r_seqs r);
    Ok (true, <[id := mkring (seq +64 1) infos seqs]> m).

(** One round of [Listen]'s loop. *)
Definition attempt (s : t) (m : rings) : outcome (option ReadableInfo.t * t) :=
  '(_, r) ← mapped s m;
  if negb (r_next r =? next_seq_ s) then
    seq ← deref (r_seqs r !! slot (next_seq_ s));
    if seq =? next_seq_ s then
      info ← deref (r_infos r !! slot (next_seq_ s)); Ok (Some info, set_next (next_seq_ s +64 1) s)
    else Ok (None, s)
  else Ok (None, s).

(** The loop, with [timeout_us] left.  [env k]: the rings at the [k]th round, or
    nothing if another thread has set [is_shutdown_] by then. *)
Fixpoint listen_loop (fuel : nat) (timeout_us : Z) (k : nat) (env : nat → option rings) (s : t) :
    outcome (option ReadableInfo.t * t) :=
  match fuel with
  | O => Probing
  | S fuel =>
      match env k with
      | None => Ok (None, s)
      | Some m =>
          '(r, s) ← attempt s m;
          match r with
          | Some info => Ok (Some info, s)
          | None => if 0 <? timeout_us then listen_loop fuel (timeout_us - 50) (S k) env s else Ok (None, s)
          end
      end
  end.

(** Rounds that [timeout_us] allows. *)
Definition rounds (timeout_us : Z) : nat := S (Z.to_nat ((timeout_us + 49) / 50)).

(** Microseconds are counted in an [int]. *)
Definition Listen (timeout_ms : Z) (env : nat → option rings) (s : t) : outcome (option ReadableInfo.t * t) :=
  if is_shutdown_ s then Ok (None, s)
  else if (- 2 ^ 31 <=? timeout_ms * 1000) && (timeout_ms * 1000 <? 2 ^ 31) then
    listen_loop (rounds (timeout_ms * 1000)) (timeout_ms * 1000) 0 env s
  else Undefined.

#[export] Instance condition_notifier : NotifierBase t rings (nat → option rings) :=
  { is_down := is_shutdown_; Shutdown := Shutdown; Notify := Notify; Listen := Listen }.

#[export] Instance condition_laws : NotifierLaws t rings (nat → option rings).
Proof.
  split; cbn; intros.
  - unfold Shutdown. by destruct (is_shutdown_ s) eqn:E.
  - unfold Shutdown. by rewrite H.
  - unfold Notify. by rewrite H.
  - unfold Listen. by rewrite H.
Qed.

(** *** How long [Listen] takes *)

(** The first of [n] rounds that finds something, or the first at which the
    notifier is shut down. *)
Fixpoint first_found (n k : nat) (env : nat → option rings) (s : t) : outcome (option ReadableInfo.t * t) :=
  match n with
  | O => Ok (None, s)
  | S n =>
      match env k with
      | None => Ok (None, s)
      | Some m => '(r, s') ← attempt s m; match r with Some _ => Ok (r, s') | None => first_found n (S k) env s' end
      end
  end.

Lemma listen_rounds_step u : 0 < u → rounds u = S (rounds (u - 50)).
Proof.
  intros Hu. unfold rounds. f_equal. replace (u + 49) with (u - 50 + 49 + 1 * 50) by lia. rewrite Z.div_add by lia.
  assert (0 <= (u - 50 + 49) / 50) by (apply Z.div_pos; lia). lia.
Qed.

Lemma rounds_last u : u <= 0 → rounds u = 1%nat.
Proof. intros Hu. unfold rounds. assert ((u + 49) / 50 < 1) by (apply Z.div_lt_upper_bound; lia). lia. Qed.

Lemma listen_loop_found u k env s : listen_loop (rounds u) u k env s = first_found (rounds u) k env s.
Proof.
  remember (rounds u) as n eqn:Hn. revert u k s Hn. induction n as [|n IH]; intros u k s Hn; [unfold rounds in Hn; lia|].
  cbn. destruct (env k) as [m|]; [|done]. destruct (attempt s m) as [[[info|] s']| |]; cbn; [done| |done|done].
  destruct (Z.ltb_spec 0 u).
  - apply IH. rewrite (listen_rounds_step u) in Hn by done. by injection Hn.
  - rewrite (rounds_last u) in Hn by done. by injection Hn as ->.
Qed.

(** [Listen] looks twenty times in a millisecond and once more, whatever the
    other threads and processes do; once only if the timeout is not positive.
    It answers what the first look that finds something finds, and nothing if
    none of them does or the notifier is shut down in between. *)
Theorem listen_rounds timeout_ms env s :
  is_shutdown_ s = false → - 2147483 <= timeout_ms <= 2147483 →
  Listen timeout_ms env s = first_found (S (Z.to_nat (20 * timeout_ms))) 0 env s.
Proof.
  intros Hs Ht. unfold Listen. rewrite Hs, (proj2 (Z.leb_le _ _)), (proj2 (Z.ltb_lt _ _)) by lia. cbn [andb].
  rewrite listen_loop_found. f_equal. unfold rounds. do 2 f_equal.
  replace (timeout_ms * 1000 + 49) with (49 + 20 * timeout_ms * 50) by lia. rewrite Z.div_add by lia. reflexivity.
Qed.

(** *** The steps behind the calls *)

(** A segment that holds the whole [Indicator]. *)
Definition ring_ok (r : ring) : Prop :=
  Z.of_nat (length (r_infos r)) = kBufLength ∧ Z.of_nat (length (r_seqs r)) = kBufLength.

Lemma store_ok {A} idx (x : A) l : (idx < length l)%nat → store idx x l = Ok (<[idx := x]> l).
Proof. intros [y Hy]%lookup_lt_is_Some_2. unfold store. by rewrite Hy. Qed.

(** A ring with a listener at [pos], as the steps see it, when nobody is in the
    middle of a call. *)
Definition view (r : ring) (pos : Z) (n : nat) (hist heard : list ReadableInfo.t) : ConditionNotifier.t :=
  ConditionNotifier.mk (r_next r) (r_infos r) (r_seqs r) pos LIdle (replicate n WIdle) hist heard.

Lemma notify_steps info m s id r n hist heard i pos :
  is_shutdown_ s = false → mapped s m = Ok (id, r) → ring_ok r → (i < n)%nat →
  ∃ r', Notify info m s = Ok (true, <[id := r']> m) ∧
    run ConditionNotifier.step (ConditionNotifier.notify i info) (view r pos n hist heard) =
      Some (view r' pos n (hist ++ [info]) heard).
Proof.
  intros Hs Hm Hr Hi. unfold Notify. rewrite Hs, Hm. cbn [mbind outcome_bind].
  rewrite !store_ok by by apply slot_lt, Hr. cbn [mbind outcome_bind]. eexists. split; [done|].
  unfold ConditionNotifier.notify, view. cbn [run ConditionNotifier.step writers mbind option_bind].
  rewrite lookup_replicate_2 by done. cbn [mbind option_bind].
  unfold notify_step. cbn [writers]. rewrite list_lookup_insert_eq by (by rewrite length_replicate).
  unfold set_writer. cbn -[slot kBufLength]. rewrite list_insert_insert_eq.
  rewrite list_lookup_insert_eq by (by rewrite length_replicate). cbn -[slot kBufLength].
  rewrite list_insert_insert_eq, (list_insert_id (replicate n WIdle) i WIdle) by (by apply lookup_replicate_2). done.
Qed.

Lemma attempt_steps m s id r n hist heard :
  mapped s m = Ok (id, r) →
  match attempt s m with
  | Ok (Some info, s') =>
      run ConditionNotifier.step [LListen; LListen] (view r (next_seq_ s) n hist heard) =
        Some (view r (next_seq_ s') n hist (heard ++ [info])) ∧ managed_shm_ s' = managed_shm_ s ∧ indicator_ s' = indicator_ s
  | Ok (None, s') =>
      s' = s ∧ run ConditionNotifier.step [LListen] (view r (next_seq_ s) n hist heard) = Some (view r (next_seq_ s) n hist heard)
  | _ => True
  end.
Proof.
  intros Hm. unfold attempt. rewrite Hm. cbn -[slot]. unfold listen_step, view. cbn -[slot].
  destruct (negb (r_next r =? next_seq_ s)) eqn:Hne; [|done].
  destruct (r_seqs r !! slot (next_seq_ s)) as [q|] eqn:Hq; cbn -[slot]; [|done].
  destruct (Z.eqb_spec q (next_seq_ s)) as [-> |Hd].
  - destruct (r_infos r !! slot (next_seq_ s)) as [info|] eqn:Hi; cbn -[slot]; [|done].
    rewrite ?Z.eqb_refl. cbn -[slot]. rewrite Hi. done.
  - cbn -[slot]. by rewrite ?(proj2 (Z.eqb_neq _ _)).
Qed.

(** *** The calls, access by access

    Between two accesses of a call other threads move; the flag and [indicator_]
    are read at each of them. *)
Inductive pc :=
| NotifyTest (info : ReadableInfo.t)
| NotifyAdd (info : ReadableInfo.t)
| NotifyInfo (info : ReadableInfo.t) (seq : Z)
| NotifySeq (seq : Z)
| ListenTest (timeout_ms : Z)
| ListenLoop (timeout_us : Z)
| ListenNext (timeout_us : Z)
| ListenSeq (timeout_us : Z)
| ListenInfo
| ListenPause (timeout_us : Z)
| ShutdownFlag
| ShutdownReset.

(** One access of a call: where it goes on, if it does not return. *)
Definition access (p : pc) (s : t) (m : rings) : outcome (option pc * t * rings) :=
  match p with
  | NotifyTest info => Ok (if is_shutdown_ s then None else Some (NotifyAdd info), s, m)
  | NotifyAdd info =>
      '(id, r) ← mapped s m;
      Ok (Some (NotifyInfo info (r_next r)), s, <[id := mkring (r_next r +64 1) (r_infos r) (r_seqs r)]> m)
  | NotifyInfo info seq =>
      '(id, r) ← mapped s m;
      infos ← store (slot seq) info (r_infos r);
      Ok (Some (NotifySeq seq), s, <[id := mkring (r_next r) infos (r_seqs r)]> m)
  | NotifySeq seq =>
      '(id, r) ← mapped s m;
      seqs ← store (slot seq) seq (r_seqs r);
      Ok (None, s, <[id := mkring (r_next r) (r_infos r) seqs]> m)
  | ListenTest timeout_ms =>
      if is_shutdown_ s then Ok (None, s, m)
      else if (- 2 ^ 31 <=? timeout_ms * 1000) && (timeout_ms * 1000 <? 2 ^ 31)
      then Ok (Some (ListenLoop (timeout_ms * 1000)), s, m)
      else Undefined
  | ListenLoop timeout_us => Ok (if is_shutdown_ s then None else Some (ListenNext timeout_us), s, m)
  | ListenNext timeout_us =>
      '(_, r) ← mapped s m;
      Ok (Some (if negb (r_next r =? next_seq_ s) then ListenSeq timeout_us else ListenPause timeout_us), s, m)
  | ListenSeq timeout_us =>
      '(_, r) ← mapped s m;
      seq ← deref (r_seqs r !! slot (next_seq_ s));
      Ok (Some (if seq =? next_seq_ s then ListenInfo else ListenPause timeout_us), s, m)
  | ListenInfo =>
      '(_, r) ← mapped s m;
      _ ← deref (r_infos r !! slot (next_seq_ s));
      Ok (None, set_next (next_seq_ s +64 1) s, m)
  | ListenPause timeout_us =>
      Ok (if 0 <? timeout_us then Some (ListenLoop (timeout_us - 50)) else None, s, m)
  | ShutdownFlag => if is_shutdown_ s then Ok (None, s, m) else Ok (Some ShutdownReset, set_shutdown s, m)
  | ShutdownReset => Ok (None, Reset s, m)
  end.

(** Between its test of the flag and its end, or the next test. *)
Definition inside (p : pc) : bool :=
  match p with
  | NotifyAdd _ | NotifyInfo _ _ | NotifySeq _ | ListenNext _ | ListenSeq _ | ListenInfo => true
  | _ => false
  end.

(** A process: the segments, the notifiers, and the calls under way, by thread and
    with the notifier they are on. *)
Record machine := mkmachine { rings_ : rings; notifiers : list t; calls : gmap nat (nat * pc) }.

(** [LOutside]: other processes write into the segments, make and remove them. *)
Inductive label :=
| LNew (a : answers)
| LCall (th i : nat) (p : pc)
| LAccess (th : nat)
| LOutside (m : rings).

Definition starts (p : pc) : bool :=
  match p with NotifyTest _ | ListenTest _ | ShutdownFlag => true | _ => false end.

Definition step (l : label) (w : machine) : outcome machine :=
  match l with
  | LNew a =>
      '(s, m) ← ConditionNotifier a (rings_ w); Ok (mkmachine m (notifiers w ++ [s]) (calls w))
  | LCall th i p => Ok (mkmachine (rings_ w) (notifiers w) (<[th := (i, p)]> (calls w)))
  | LAccess th =>
      match calls w !! th with
      | None => Ok w
      | Some (i, p) =>
          s ← deref (notifiers w !! i);
          '(next, s, m) ← access p s (rings_ w);
          Ok (mkmachine m (<[i := s]> (notifiers w))
                match next with Some p => <[th := (i, p)]> (calls w) | None => delete th (calls w) end)
      end
  | LOutside m => Ok (mkmachine m (notifiers w) (calls w))
  end.

Definition whole (m : rings) (id : Z) : Prop := ∃ r, m !! id = Some r ∧ ring_ok r.

(** What the theorem asks of the outside.  A segment found under the key was made by
    this code: it is a whole [Indicator].  A thread makes one call at a time, on a
    notifier that exists, with a timeout whose microseconds fit an [int].  The 100 ms
    of [Shutdown] are enough: when it resets, no other call on that notifier is
    still behind its test.  A segment stays while it is mapped, with its size. *)
Definition allowed (l : label) (w : machine) : Prop :=
  match l with
  | LNew a => ∀ id, opened a = Some id → whole (rings_ w) id
  | LCall th i p =>
      calls w !! th = None ∧ (i < length (notifiers w))%nat ∧ starts p = true ∧
      match p with ListenTest timeout_ms => - 2147483 <= timeout_ms <= 2147483 | _ => True end
  | LAccess th =>
      ∀ i, calls w !! th = Some (i, ShutdownReset) → ∀ th' p, calls w !! th' = Some (i, p) → inside p = false
  | LOutside m =>
      ∀ i s id, notifiers w !! i = Some s → indicator_ s = Some id → whole (rings_ w) id → whole m id
  end.

(** The states of a process that starts with any segments in the system. *)
Inductive reached : machine → Prop :=
| reached_start m : reached (mkmachine m [] ∅)
| reached_step l w w' : reached w → allowed l w → step l w = Ok w' → reached w'.

(** *** No call reads memory that is not there *)

Definition on_ring (m : rings) (s : t) : Prop :=
  ∃ id r, managed_shm_ s = At id ∧ indicator_ s = Some id ∧ m !! id = Some r ∧ ring_ok r.

Definition pc_ok (m : rings) (s : t) (p : pc) : Prop :=
  (inside p = true → on_ring m s) ∧ (p = ShutdownReset → is_shutdown_ s = true) ∧
  match p with ListenTest timeout_ms => - 2147483 <= timeout_ms <= 2147483 | _ => True end.

Record machine_ok (w : machine) : Prop := {
  mo_live i s : notifiers w !! i = Some s → is_shutdown_ s = false → on_ring (rings_ w) s;
  mo_calls th i p : calls w !! th = Some (i, p) → ∃ s, notifiers w !! i = Some s ∧ pc_ok (rings_ w) s p;
}.

Lemma on_ring_mapped m s : on_ring m s → ∃ id r, mapped s m = Ok (id, r) ∧ m !! id = Some r ∧ ring_ok r.
Proof.
  intros (id & r & _ & Hi & Hr & Hok). exists id, r. split; [|done]. unfold mapped. rewrite Hi. cbn. by rewrite Hr.
Qed.

Lemma on_ring_insert m s id r : ring_ok r → on_ring m s → on_ring (<[id := r]> m) s.
Proof.
  intros Hr (id' & r' & ? & ? & ? & ?). destruct (decide (id = id')) as [->|].
  - exists id', r. by rewrite lookup_insert_eq.
  - exists id', r'. by rewrite lookup_insert_ne.
Qed.

Lemma Indicator_ok : ring_ok Indicator.
Proof. split; cbn [Indicator r_infos r_seqs]; by rewrite length_replicate. Qed.

(** What the constructor promises. *)
Definition constructed (m : rings) (s : t) (m' : rings) : Prop :=
  (is_shutdown_ s = false → on_ring m' s) ∧
  (m' = m ∨ ∃ id, m' = <[id := Indicator]> m ∧ indicator_ s = Some id ∧ next_seq_ s = 0) ∧
  (is_shutdown_ s = false → ∃ id r, mapped s m' = Ok (id, r) ∧ next_seq_ s = r_next r).

Lemma constructed_failed m s : is_shutdown_ s = true → constructed m s m.
Proof. intros Hs. split_and!; [by intros ?; congruence|by left|by intros ?; congruence]. Qed.

Lemma constructed_new id a s m : ∃ s' m', go_on (create id a s m) = Ok (s', m') ∧ constructed m s' m'.
Proof.
  unfold create. destruct (attached a); cbn [go_on negb indicator_ deref mbind outcome_bind].
  - rewrite lookup_insert_eq. cbn [deref mbind outcome_bind]. do 2 eexists. split; [done|]. split_and!.
    + intros _. exists id, Indicator. split_and!; [done..|by rewrite lookup_insert_eq|apply Indicator_ok].
    + right. by exists id.
    + intros _. exists id, Indicator. split; [|done]. unfold mapped. cbn. by rewrite lookup_insert_eq.
  - do 2 eexists. split; [done|]. by apply constructed_failed.
Qed.

Lemma constructed_open a s m :
  (∀ id, opened a = Some id → whole m id) → ∃ s' m', go_on (OpenOnly a s, m) = Ok (s', m') ∧ constructed m s' m'.
Proof.
  intros Ha. unfold OpenOnly. destruct (opened a) as [id|] eqn:Ho.
  - destruct (attached a); [|do 2 eexists; split; [done|]; by apply constructed_failed].
    destruct (Ha id eq_refl) as (r & Hr & Hok). cbn [go_on negb indicator_ deref mbind outcome_bind]. rewrite Hr.
    cbn [deref mbind outcome_bind]. do 2 eexists. split; [done|]. split_and!; [|by left|].
    + intros _. by exists id, r.
    + intros _. exists id, r. split; [|done]. unfold mapped. cbn. by rewrite Hr.
  - do 2 eexists. split; [done|]. by apply constructed_failed.
Qed.

(** Opening a ring that exists leaves it and its number alone; a new one is
    empty; a failure leaves a notifier that is shut down. *)
Lemma condition_constructed a m :
  (∀ id, opened a = Some id → whole m id) → ∃ s m', ConditionNotifier a m = Ok (s, m') ∧ constructed m s m'.
Proof.
  intros Ha. unfold ConditionNotifier, OpenOrCreate. cbn [tries].
  assert (∀ s, ∃ s' m', go_on (false, s, m) = Ok (s', m') ∧ constructed m s' m') as Hfail.
  { intros s. do 2 eexists. split; [done|]. by apply constructed_failed. }
  destruct (create1 a); [by apply constructed_new| |by apply constructed_open|apply Hfail].
  destruct (create2 a); [by apply constructed_new|apply Hfail|by apply constructed_open|apply Hfail].
Qed.

(** Writes keep the segments whole. *)
Lemma access_ok p s m :
  pc_ok m s p → (is_shutdown_ s = false → on_ring m s) →
  ∃ next s' m', access p s m = Ok (next, s', m') ∧
    (∀ s0, on_ring m s0 → on_ring m' s0) ∧
    (p ≠ ShutdownReset → on_ring m s → on_ring m' s') ∧
    (is_shutdown_ s' = false → is_shutdown_ s = false ∧ p ≠ ShutdownReset) ∧
    (∀ p', next = Some p' → pc_ok m' s' p').
Proof.
  intros (Hin & Hrs & Hms) Hlive.
  assert (∀ p', inside p' = false → p' ≠ ShutdownReset →
    match p' with ListenTest timeout_ms => - 2147483 <= timeout_ms <= 2147483 | _ => True end → pc_ok m s p') as Hout.
  { intros p' H1 H2 H3. split_and!; [by rewrite H1|done|done]. }
  assert (∀ p', on_ring m s → inside p' = true → pc_ok m s p') as Hgo.
  { intros p' H1 H2. split_and!; [done|by intros ->|by destruct p']. }
  destruct p as [info|info|info seq|seq|tm|us|us|us| |us| |]; cbn [access inside] in *.
  - do 3 eexists. split_and!; [done..|]. intros p' Hp'. destruct (is_shutdown_ s); simplify_eq. by apply Hgo; [apply Hlive|].
  - specialize (Hin eq_refl). destruct (on_ring_mapped m s Hin) as (id & r & -> & Hr & Hok). cbn [mbind outcome_bind].
    do 3 eexists. split_and!; [done|intros; by apply on_ring_insert|intros; by apply on_ring_insert|done|].
    intros p' [= <-]. split_and!; [|done|done]. intros _. by apply on_ring_insert.
  - specialize (Hin eq_refl). destruct (on_ring_mapped m s Hin) as (id & r & -> & Hr & Hok). cbn [mbind outcome_bind].
    rewrite store_ok by apply slot_lt, Hok. cbn [mbind outcome_bind].
    assert (ring_ok (mkring (r_next r) (<[slot seq := info]> (r_infos r)) (r_seqs r))) as Hok'
      by (split; cbn; rewrite ?length_insert; apply Hok).
    do 3 eexists. split_and!; [done|intros; by apply on_ring_insert|intros; by apply on_ring_insert|done|].
    intros p' [= <-]. split_and!; [|done|done]. intros _. by apply on_ring_insert.
  - specialize (Hin eq_refl). destruct (on_ring_mapped m s Hin) as (id & r & -> & Hr & Hok). cbn [mbind outcome_bind].
    rewrite store_ok by apply slot_lt, Hok. cbn [mbind outcome_bind].
    assert (ring_ok (mkring (r_next r) (r_infos r) (<[slot seq := seq]> (r_seqs r)))) as Hok'
      by (split; cbn; rewrite ?length_insert; apply Hok).
    do 3 eexists. split; [done|]. split_and!; [intros; by apply on_ring_insert..|done|done].
  - destruct (is_shutdown_ s) eqn:Hs;
      [do 3 eexists; split_and!; [done|done|done|by rewrite Hs|done]|].
    rewrite (proj2 (Z.leb_le _ _)), (proj2 (Z.ltb_lt _ _)) by lia. cbn [andb].
    do 3 eexists. split_and!; [done|done|done|by rewrite Hs|]. intros p' [= <-]. by apply Hout.
  - do 3 eexists. split_and!; [done..|]. intros p' Hp'. destruct (is_shutdown_ s); simplify_eq. by apply Hgo; [apply Hlive|].
  - specialize (Hin eq_refl). destruct (on_ring_mapped m s Hin) as (id & r & -> & Hr & Hok). cbn [mbind outcome_bind].
    do 3 eexists. split_and!; [done..|]. intros p' [= <-]. destruct (negb _); [by apply Hgo|by apply Hout].
  - specialize (Hin eq_refl). destruct (on_ring_mapped m s Hin) as (id & r & -> & Hr & Hok). cbn [mbind outcome_bind].
    destruct (lookup_lt_is_Some_2 (r_seqs r) (slot (next_seq_ s))) as [q ->]; [by apply slot_lt, Hok|]. cbn -[slot].
    do 3 eexists. split_and!; [done..|]. intros p' [= <-]. destruct (q =? _); [by apply Hgo|by apply Hout].
  - specialize (Hin eq_refl). destruct (on_ring_mapped m s Hin) as (id & r & -> & Hr & Hok). cbn [mbind outcome_bind].
    destruct (lookup_lt_is_Some_2 (r_infos r) (slot (next_seq_ s))) as [q ->]; [by apply slot_lt, Hok|]. cbn -[slot].
    by do 3 eexists; split_and!.
  - do 3 eexists. split_and!; [done..|]. intros p' Hp'. destruct (0 <? us); simplify_eq. by apply Hout.
  - destruct (is_shutdown_ s) eqn:Hs;
      [do 3 eexists; split_and!; [done|done|done|by rewrite Hs|done]|]. do 3 eexists. split_and!; [done|done|done|done|].
    intros p' [= <-]. by split_and!.
  - do 3 eexists. split_and!; [done|done|done| |done]. cbn. rewrite Hrs by done. done.
Qed.

Lemma life_pc_ok_mono m m' s p : (on_ring m s → on_ring m' s) → pc_ok m s p → pc_ok m' s p.
Proof. intros H (H1 & H2 & H3). split_and!; auto. Qed.

Lemma lookup_new {A} (l : list A) x i y : (l ++ [x]) !! i = Some y → l !! i = Some y ∨ (i = length l ∧ y = x).
Proof. intros [?|[? Hy]]%lookup_app_Some; [by left|right]. apply list_lookup_singleton_Some in Hy as [? ->]. split; [lia|done]. Qed.

Lemma access_machine_ok w th i p s :
  machine_ok w → allowed (LAccess th) w → calls w !! th = Some (i, p) → notifiers w !! i = Some s →
  ∃ w', step (LAccess th) w = Ok w' ∧ machine_ok w'.
Proof.
  intros Hw Ha Hth Hs. destruct (mo_calls w Hw th i p Hth) as (s0 & Hs0 & Hpc). simplify_eq.
  destruct (access_ok p s (rings_ w) Hpc (mo_live w Hw i s Hs)) as (next & s' & m' & Hacc & Hm & Hss & Hsd & Hnext).
  cbn [step]. rewrite Hth, Hs. cbn [deref mbind outcome_bind]. rewrite Hacc. cbn [mbind outcome_bind].
  eexists. split; [done|]. pose proof (lookup_lt_Some _ _ _ Hs) as Hlt.
  assert (∀ th' j q, th' ≠ th → calls w !! th' = Some (j, q) →
    ∃ s1, <[i := s']> (notifiers w) !! j = Some s1 ∧ pc_ok m' s1 q) as Hothers.
  { intros th' j q Hne Hq. destruct (mo_calls w Hw th' j q Hq) as (s1 & Hs1 & Hpq).
    destruct (decide (j = i)) as [->|Hji].
    - rewrite list_lookup_insert_eq by done. simplify_eq. exists s'. split; [done|].
      destruct Hpq as (Hq1 & Hq2 & Hq3). split_and!; [|intros ->; specialize (Hq2 eq_refl)|done].
      + intros Hin. apply Hss; [|by apply Hq1]. intros ->. cbn in Ha. rewrite (Ha i Hth th' q Hq) in Hin. done.
      + destruct (is_shutdown_ s') eqn:E; [done|]. destruct (Hsd eq_refl). congruence.
    - rewrite list_lookup_insert_ne by done. exists s1. split; [done|]. eapply life_pc_ok_mono; [apply Hm|done]. }
  constructor; cbn [rings_ notifiers calls].
  - intros j s1 Hj Hsh. destruct (decide (j = i)) as [->|Hji].
    + rewrite list_lookup_insert_eq in Hj by done. simplify_eq. destruct (Hsd Hsh). apply Hss; [done|]. by apply (mo_live w Hw i).
    + rewrite list_lookup_insert_ne in Hj by done. by eapply Hm, mo_live.
  - intros th' j q Hq. destruct next as [p'|].
    + apply lookup_insert_Some in Hq as [[<- E]|[Hne Hq]]; [|by eapply Hothers]. simplify_eq.
      exists s'. rewrite list_lookup_insert_eq by done. split; [done|]. by apply Hnext.
    + apply lookup_delete_Some in Hq as [Hne Hq]. by eapply Hothers.
Qed.

Lemma step_machine_ok l w : machine_ok w → allowed l w → ∃ w', step l w = Ok w' ∧ machine_ok w'.
Proof.
  intros Hw Ha. destruct l as [a|th i p|th|m].
  - cbn [step allowed] in *. destruct (condition_constructed a (rings_ w) Ha) as (s & m' & -> & Hlive & Hcase & _). cbn.
    assert (∀ s0, on_ring (rings_ w) s0 → on_ring m' s0) as Hm.
    { destruct Hcase as [->|(id & -> & _)]; [done|]. intros s0. apply on_ring_insert, Indicator_ok. }
    eexists. split; [done|]. constructor; cbn.
    + intros i s0 [Hi|[_ ->]]%lookup_new Hs0; [by eapply Hm, mo_live|by apply Hlive].
    + intros th i p Hth. destruct (mo_calls w Hw th i p Hth) as (s0 & Hs0 & Hp). exists s0.
      split; [by apply lookup_app_l_Some|]. eapply life_pc_ok_mono; [apply Hm|done].
  - destruct Ha as (Hth & [s Hs]%lookup_lt_is_Some_2 & Hst & Htm). eexists. split; [done|]. constructor; cbn.
    + intros. by eapply mo_live.
    + intros th' j q [[_ E]|[_ Hq]]%lookup_insert_Some; [|by eapply mo_calls]. simplify_eq. exists s. split; [done|].
      split_and!; [by destruct q|by intros ->|done].
  - destruct (calls w !! th) as [[i p]|] eqn:Hth.
    + destruct (mo_calls w Hw th i p Hth) as (s & Hs & _). by eapply access_machine_ok.
    + cbn [step]. rewrite Hth. by exists w.
  - cbn [step allowed] in *. eexists. split; [done|].
    assert (∀ i s, notifiers w !! i = Some s → on_ring (rings_ w) s → on_ring m s) as Hm.
    { intros i s Hs (id & r & ? & Hi & Hr & Hok). destruct (Ha i s id Hs Hi) as (r' & ? & ?); [by exists r|]. by exists id, r'. }
    constructor; cbn.
    + intros i s Hs Hsd. eapply Hm; [done|]. by eapply mo_live.
    + intros th i p Hth. destruct (mo_calls w Hw th i p Hth) as (s & Hs & Hp). exists s. split; [done|].
      eapply life_pc_ok_mono; [by apply (Hm i)|done].
Qed.

Lemma reached_ok w : reached w → machine_ok w.
Proof.
  induction 1 as [m|l w w' _ IH Ha Hs]; [constructor; cbn; [done|intros ??? H; by rewrite lookup_empty in H]|].
  destruct (step_machine_ok l w IH Ha) as (w1 & Hs1 & Hok). simplify_eq. congruence.
Qed.

(** C24: notifiers are safe while the segments under their key are their own and
    [Shutdown] sleeps long enough.  However notifiers are made, used by any number of
    threads and shut down, access by access, other processes write to the rings, and
    [shmget] and [shmat] succeed or fail: if every segment found under the key was
    made by this code, and no call is still behind its test of the flag when the
    [Reset] of [Shutdown] comes, then no access reads or writes memory that is not
    there, and every notifier that was not shut down is on a ring of 4096 slots.
    Neither condition can be dropped: see [small_segment_unsafe] and
    [late_reset_unsafe]. *)
Theorem condition_notifiers_safe w :
  reached w →
  (∀ i s, notifiers w !! i = Some s → is_shutdown_ s = false →
     ∃ id r, managed_shm_ s = At id ∧ indicator_ s = Some id ∧ rings_ w !! id = Some r ∧
       Z.of_nat (length (r_infos r)) = 4096 ∧ Z.of_nat (length (r_seqs r)) = 4096) ∧
  ∀ l, allowed l w → ∃ w', step l w = Ok w'.
Proof.
  intros Hr%reached_ok. split.
  - intros i s Hs Hsd. by apply (mo_live w Hr i s).
  - intros l Ha. destruct (step_machine_ok l w Hr Ha) as (w' & ? & _). by exists w'.
Qed.

(** Without interference the accesses of [Notify] do what [Notify] does as one call. *)
Lemma notify_accesses th i info w s id r :
  calls w !! th = None → notifiers w !! i = Some s → is_shutdown_ s = false →
  mapped s (rings_ w) = Ok (id, r) → ring_ok r →
  ∃ m, Notify info (rings_ w) s = Ok (true, m) ∧
    foldl (λ w l, w ← w; step l w) (Ok w) (LCall th i (NotifyTest info) :: replicate 4 (LAccess th)) =
      Ok (mkmachine m (notifiers w) (calls w)).
Proof.
  intros Hth Hs Hsd Hm [Hli Hlq]. unfold Notify. rewrite Hsd, Hm. cbn [mbind outcome_bind].
  rewrite !store_ok by by apply slot_lt. cbn [mbind outcome_bind]. eexists. split; [done|].
  unfold mapped in Hm. destruct (indicator_ s) as [id'|] eqn:Hi; [|done]. cbn in Hm.
  destruct (rings_ w !! id') as [r'|] eqn:Hr; [|done]. cbn in Hm. simplify_eq.
  cbn -[slot store Z.modulo]. rewrite lookup_insert_eq, Hs. cbn -[slot store]. rewrite Hsd. cbn -[slot store].
  rewrite (list_insert_id _ _ _ Hs), insert_insert_eq.
  rewrite lookup_insert_eq, Hs. cbn -[slot store]. unfold mapped. rewrite Hi. cbn -[slot store]. rewrite Hr. cbn -[slot store].
  rewrite (list_insert_id _ _ _ Hs), insert_insert_eq.
  rewrite lookup_insert_eq, Hs. cbn -[slot store]. unfold mapped. rewrite Hi. cbn -[slot store]. rewrite lookup_insert_eq. cbn -[slot store].
  rewrite store_ok by by apply slot_lt. cbn -[slot store].
  rewrite (list_insert_id _ _ _ Hs), !insert_insert_eq.
  rewrite lookup_insert_eq, Hs. cbn -[slot store]. unfold mapped. rewrite Hi. cbn -[slot store]. rewrite lookup_insert_eq. cbn -[slot store].
  rewrite store_ok by by apply slot_lt. cbn -[slot store].
  rewrite (list_insert_id _ _ _ Hs), !insert_insert_eq. by rewrite delete_insert_id.
Qed.

(** *** A machine *)
Definition first : answers := mkans (Created 7) EOther None true.
Definition second : answers := mkans EEXIST EOther (Some 7) true.
Definition nobody : machine := mkmachine ∅ [] ∅.
Definition info7 : ReadableInfo.t := ReadableInfo.demo.

Definition notify_all (th i : nat) : list label := LCall th i (NotifyTest info7) :: replicate 4 (LAccess th).
Definition after (ls : list label) (w : machine) : outcome machine := foldl (λ w l, w ← w; step l w) (Ok w) ls.
Definition run_to (ls : list label) : machine := match after ls nobody with Ok w => w | _ => nobody end.

(** Two notifiers on one ring; the first has sent, the second is listening, and the
    first is asleep in its [Shutdown]. *)
Definition two_labels : list label :=
  [LNew first; LNew second] ++ notify_all 0 0 ++
  [LCall 1 1 (ListenTest 10); LAccess 1; LAccess 1; LAccess 1; LCall 2 0 ShutdownFlag; LAccess 2].
Definition two : machine := run_to two_labels.

(** [allowed], computed (for processes that are alone). *)
Definition allowedb (l : label) (w : machine) : bool :=
  match l with
  | LNew a =>
      match opened a with
      | None => true
      | Some id =>
          match rings_ w !! id with
          | Some r => (Z.of_nat (length (r_infos r)) =? kBufLength) && (Z.of_nat (length (r_seqs r)) =? kBufLength)
          | None => false
          end
      end
  | LCall th i p =>
      bool_decide (calls w !! th = None) && (i <? length (notifiers w))%nat && starts p &&
      match p with ListenTest timeout_ms => (- 2147483 <=? timeout_ms) && (timeout_ms <=? 2147483) | _ => true end
  | LAccess th =>
      match calls w !! th with
      | Some (i, ShutdownReset) => forallb (λ c, negb ((c.2.1 =? i)%nat && inside c.2.2)) (map_to_list (calls w))
      | _ => true
      end
  | LOutside _ => false
  end.

Lemma allowedb_ok l w : allowedb l w = true → allowed l w.
Proof.
  destruct l as [a|th i p|th|m]; cbn; [| | |done].
  - destruct (opened a) as [id|]; [|done]. destruct (rings_ w !! id) as [r|] eqn:Hr; [|done].
    intros [H1%Z.eqb_eq H2%Z.eqb_eq]%andb_true_iff ? [= <-]. by exists r.
  - intros [[[H1%bool_decide_eq_true H2%Nat.ltb_lt]%andb_true_iff H3]%andb_true_iff H4]%andb_true_iff.
    split_and!; [done..|]. destruct p; lia.
  - intros H i Hth th' p Hp. rewrite Hth in H. apply forallb_forall with (x := (th', (i, p))) in H;
      [|by apply list_elem_of_In, elem_of_map_to_list].
    cbn in H. rewrite Nat.eqb_refl in H. by apply negb_true_iff in H.
Qed.

(** The state after labels that are all allowed. *)
Fixpoint guarded (ls : list label) (w : machine) : option machine :=
  match ls with
  | [] => Some w
  | l :: ls => if allowedb l w then match step l w with Ok w => guarded ls w | _ => None end else None
  end.

Lemma guarded_reached ls : ∀ w w', reached w → guarded ls w = Some w' → reached w'.
Proof.
  induction ls as [|l ls IH]; cbn; intros w w' Hw Hg; [by simplify_eq|].
  destruct (allowedb l w) eqn:Ha; [|done]. destruct (step l w) as [w1| |] eqn:Hs; [|done..].
  apply (IH w1); [|done]. eapply reached_step; [done|by apply allowedb_ok|done].
Qed.

Lemma two_reached : reached two.
Proof. apply (guarded_reached two_labels nobody); [apply reached_start|vm_compute; reflexivity]. Qed.

(** The listener, past its test when the flag was set, goes on safely. *)
Lemma condition_notifiers_safe_witness :
  calls two !! 1%nat = Some (1%nat, ListenSeq 10000) ∧ calls two !! 2%nat = Some (0%nat, ShutdownReset) ∧
  ∃ w', step (LAccess 1) two = Ok w'.
Proof.
  split; [vm_compute; reflexivity|]. split; [vm_compute; reflexivity|].
  apply (proj2 (condition_notifiers_safe two two_reached)). apply allowedb_ok. vm_compute. reflexivity.
Defined.

(** A segment under the key that is smaller than an [Indicator] (made by a program
    whose key hashes to the same 32 bits) is opened as if it were one; the first
    notification writes behind its end. *)
Definition small : rings := {[7 := mkring 0 (replicate 16 ReadableInfo.ReadableInfo) []]}.
Theorem small_segment_unsafe :
  ∃ w, after [LNew second; LCall 0 0 (NotifyTest info7); LAccess 0; LAccess 0; LAccess 0] (mkmachine small [] ∅) = Ok w ∧
    (∃ s, notifiers w !! 0%nat = Some s ∧ is_shutdown_ s = false) ∧ step (LAccess 0) w = Undefined.
Proof.
  eexists. split; [vm_compute; reflexivity|]. split; [eexists; split; reflexivity|]. vm_compute. reflexivity.
Qed.

(** A [Notify] that is held up for the 100 ms between its test and its first access
    goes through a pointer that [Shutdown] has cleared. *)
Theorem late_reset_unsafe :
  ∃ w, after [LNew first; LCall 0 0 (NotifyTest info7); LAccess 0; LCall 1 0 ShutdownFlag; LAccess 1; LAccess 1] nobody = Ok w ∧
    step (LAccess 0) w = Undefined.
Proof. eexists. split; [vm_compute; reflexivity|]. vm_compute. reflexivity. Qed.

(** A listener that finds the record at the third look. *)
Lemma listen_rounds_witness :
  Listen 1 (λ k, Some (if (k <? 2)%nat then rings_ (run_to [LNew first; LNew second]) else rings_ two)) (mk (At 7) (Some 7) 0 false) =
  Ok (Some info7, mk (At 7) (Some 7) 1 false).
Proof. rewrite listen_rounds by (cbn; lia || done). vm_compute. reflexivity. Defined.
End ConditionLife.

(** ** Datagrams *)
Module MulticastNotifier.

(** [sockaddr_in]; cleared, it is [None].  [INADDR_ANY] is no address. *)
Record sockaddr := mkaddr { sin_addr : option string; sin_port : Z }.

(** The answers of [socket] for both ends, and whether [fcntl], [setsockopt]
    (address reuse), [bind] and [setsockopt] (loop back, membership) succeed. *)
Record answers := mkans {
  a_notify : option Z; a_listen : option Z;
  a_nonblock : bool; a_reuse : bool; a_bind : bool; a_loop : bool; a_member : bool;
}.

(** [fds]: the descriptors of the process. *)
Record t := mk {
  notify_fd_ : Z;
  notify_addr_ : option sockaddr;
  listen_fd_ : Z;
  listen_addr_ : option sockaddr;
  is_shutdown_ : bool;
  fds : gset Z;
}.

(** The group of the configuration, or the default; a port has 16 bits. *)
Definition locator (conf : option (string * Z)) : string * Z :=
  match conf with Some (ip, port) => (ip, port mod 2 ^ 16) | None => ("239.255.0.100"%string, 8888) end.

(** [Init]: it gives up at the first call that fails. *)
Definition Init (conf : option (string * Z)) (a : answers) (s : t) : bool * t :=
  let '(ip, port) := locator conf in
  match a_notify a with
  | None => (false, mk (-1) (notify_addr_ s) (listen_fd_ s) (listen_addr_ s) (is_shutdown_ s) (fds s))
  | Some nfd =>
      let naddr := Some (mkaddr (Some ip) port) in
      match a_listen a with
      | None => (false, mk nfd naddr (-1) (listen_addr_ s) (is_shutdown_ s) ({[nfd]} ∪ fds s))
      | Some lfd =>
          let open laddr := mk nfd naddr lfd laddr (is_shutdown_ s) ({[lfd]} ∪ ({[nfd]} ∪ fds s)) in
          if negb (a_nonblock a) then (false, open (listen_addr_ s))
          else (a_reuse a && a_bind a && a_loop a && a_member a, open (Some (mkaddr None port)))
      end
  end.

(** Descriptors that are there are closed. *)
Definition close (fd : Z) (open : gset Z) : gset Z := if fd =? -1 then open else open ∖ {[fd]}.

Definition Shutdown (s : t) : t :=
  if is_shutdown_ s then s
  else mk (-1) None (-1) None true (close (listen_fd_ s) (close (notify_fd_ s) (fds s))).

Definition MulticastNotifier (conf : option (string * Z)) (a : answers) (open : gset Z) : t :=
  let '(ok, s) := Init conf a (mk (-1) None (-1) None false open) in if ok then s else Shutdown s.

(** The network: the datagrams sent, with their destinations, and what [sendto]
    answers. *)
Record network := mknet { sent : list (list Z * option sockaddr); nbytes : Z }.

Definition Notify (info : ReadableInfo.t) (n : network) (s : t) : outcome (bool * network) :=
  if is_shutdown_ s then Ok (false, n)
  else Ok (0 <? nbytes n, mknet (sent n ++ [(ReadableInfo.SerializeTo info, notify_addr_ s)]) (nbytes n)).

(** What [poll] answers, and [recvfrom]: the datagram, or -1. *)
Record arrival := mkarr { ready_num : Z; datagram : option (list Z) }.

(** The buffer has 32 bytes; what is longer is cut off. *)
Definition Listen (timeout_ms : Z) (x : arrival) (s : t) : outcome (option ReadableInfo.t * t) :=
  if is_shutdown_ s then Ok (None, s)
  else if 0 <? ready_num x then
    match datagram x with
    | None => Ok (None, s)
    | Some d =>
        let '(ok, info) := ReadableInfo.DeserializeFrom (take 32 d) ReadableInfo.ReadableInfo in
        Ok (if ok then Some info else None, s)
    end
  else Ok (None, s).

#[export] Instance multicast_notifier : NotifierBase t network arrival :=
  { is_down := is_shutdown_; Shutdown := Shutdown; Notify := Notify; Listen := Listen }.

#[export] Instance multicast_laws : NotifierLaws t network arrival.
Proof.
  split; cbn; intros.
  - unfold Shutdown. by destruct (is_shutdown_ s) eqn:E.
  - unfold Shutdown. by rewrite H.
  - unfold Notify. by rewrite H.
  - unfold Listen. by rewrite H.
Qed.

(** New descriptors are new. *)
Definition answers_ok (a : answers) (open : gset Z) : Prop :=
  (∀ fd, a_notify a = Some fd → 0 <= fd ∧ fd ∉ open) ∧
  (∀ fd, a_listen a = Some fd → 0 <= fd ∧ fd ∉ open ∧ a_notify a ≠ Some fd).

Definition succeeds (a : answers) : bool :=
  bool_decide (is_Some (a_notify a)) && bool_decide (is_Some (a_listen a)) && a_nonblock a && a_reuse a && a_bind a && a_loop a && a_member a.

(** No descriptor is lost.  The constructor leaves a notifier with two
    descriptors of its own, or, if any call fails, one that is shut down with
    the descriptors there were before; shutting it down, however often, closes
    its two and no others. *)
Theorem multicast_descriptors conf a open :
  answers_ok a open →
  let s := MulticastNotifier conf a open in
  is_shutdown_ s = negb (succeeds a) ∧
  (is_shutdown_ s = true → fds s = open) ∧
  (is_shutdown_ s = false → fds s = {[listen_fd_ s]} ∪ ({[notify_fd_ s]} ∪ open) ∧ size (fds s) = (size open + 2)%nat) ∧
  fds (Shutdown s) = open ∧ Shutdown (Shutdown s) = Shutdown s.
Proof.
  intros [Hn Hl]. cbv zeta.
  assert (∀ s, Shutdown (Shutdown s) = Shutdown s) as Htwice.
  { intros s. pose proof (shutdown_down s) as H1. exact (shutdown_twice _ H1). }
  unfold MulticastNotifier, Init. destruct (locator conf) as [ip port]. unfold succeeds.
  destruct (a_notify a) as [nfd|] eqn:En.
  2:{ cbn. by split_and!. }
  destruct (Hn nfd eq_refl) as [Hn0 Hno]. rewrite bool_decide_eq_true_2 by by eexists.
  assert (close nfd ({[nfd]} ∪ open) = open) as Hcn.
  { unfold close. rewrite (proj2 (Z.eqb_neq _ _)) by lia. set_solver. }
  destruct (a_listen a) as [lfd|] eqn:El.
  2:{ rewrite bool_decide_eq_false_2 by (by intros []). cbn [andb negb Shutdown is_shutdown_ fds listen_fd_ notify_fd_].
      rewrite Hcn. change (close (-1) open) with open. split_and!; done. }
  destruct (Hl lfd eq_refl) as (Hl0 & Hlo & Hne). rewrite bool_decide_eq_true_2 by by eexists. cbn [andb].
  assert (lfd ≠ nfd) as Hd by congruence.
  assert (close lfd (close nfd ({[lfd]} ∪ ({[nfd]} ∪ open))) = open) as Hcl.
  { unfold close. rewrite !(proj2 (Z.eqb_neq _ _)) by lia. set_solver. }
  destruct (a_nonblock a); cbn [andb negb Shutdown is_shutdown_ fds listen_fd_ notify_fd_].
  - destruct (a_reuse a && a_bind a && a_loop a && a_member a); cbn [andb negb Shutdown is_shutdown_ fds listen_fd_ notify_fd_]; rewrite ?Hcl.
    + split_and!; try done. intros _. split; [done|]. rewrite !size_union by set_solver. rewrite !size_singleton. lia.
    + by split_and!.
  - rewrite Hcl. by split_and!.
Qed.

(** What one notifier sends, another hears: a datagram that arrives whole is
    read as the record that was announced, and one of any other length as
    nothing, also if its first bytes are a record. *)
Theorem multicast_heard info n s s' n' timeout_ms d :
  ReadableInfo.well_typed info → is_shutdown_ s = false → is_shutdown_ s' = false → Notify info n s = Ok (true, n') →
  (∃ to, sent n' = sent n ++ [(ReadableInfo.SerializeTo info, to)] ∧
    Listen timeout_ms (mkarr 1 (Some (ReadableInfo.SerializeTo info))) s' = Ok (Some info, s')) ∧
  (length d ≠ ReadableInfo.kSize → Listen timeout_ms (mkarr 1 (Some d)) s' = Ok (None, s')).
Proof.
  intros Hinfo Hs Hs' Hn. unfold Notify in Hn. rewrite Hs in Hn. injection Hn as _ <-.
  destruct (ReadableInfo.readable_info_roundtrip info ReadableInfo.ReadableInfo []) as (Hlen & Hread & _); [done|done|]. split.
  - eexists. split; [done|]. unfold Listen. rewrite Hs'. cbn -[ReadableInfo.DeserializeFrom take ReadableInfo.SerializeTo].
    rewrite take_ge by (rewrite Hlen; unfold ReadableInfo.kSize; lia). by rewrite Hread.
  - intros Hd. unfold Listen. rewrite Hs'. cbn -[ReadableInfo.DeserializeFrom take].
    unfold ReadableInfo.DeserializeFrom. destruct (Nat.eqb_spec (length (take 32 d)) ReadableInfo.kSize) as [E|E]; [|done].
    rewrite length_take in E. unfold ReadableInfo.kSize in *. lia.
Qed.

Definition all_well : answers := mkans (Some 5) (Some 6) true true true true true.
Definition demo : t := MulticastNotifier None all_well {[0; 1; 2]}.

Lemma multicast_descriptors_witness :
  is_shutdown_ demo = false ∧ fds (Shutdown demo) = {[0; 1; 2]} ∧
  fds (MulticastNotifier None (mkans (Some 5) (Some 6) true true false true true) {[0; 1; 2]}) = {[0; 1; 2]}.
Proof.
  assert (∀ b, answers_ok (mkans (Some 5) (Some 6) true true b true true) {[0; 1; 2]}) as Ha.
  { intros b. split; intros fd [= <-]; [split; [lia|set_solver]|split_and!; [lia|set_solver|done]]. }
  destruct (multicast_descriptors None all_well {[0; 1; 2]} (Ha true)) as (E1 & _ & _ & E4 & _).
  destruct (multicast_descriptors None _ {[0; 1; 2]} (Ha false)) as (E5 & E6 & _).
  split_and!; [exact E1|exact E4|exact (E6 E5)].
Defined.

Lemma multicast_heard_witness :
  Notify ReadableInfo.demo (mknet [] 20) demo =
    Ok (true, mknet [(ReadableInfo.SerializeTo ReadableInfo.demo, Some (mkaddr (Some "239.255.0.100"%string) 8888))] 20) ∧
  Listen 100 (mkarr 1 (Some (replicate 40 0))) demo = Ok (None, demo).
Proof.
  split; [vm_compute; reflexivity|].
  refine (proj2 (multicast_heard ReadableInfo.demo (mknet [] 20) demo demo _ 100 (replicate 40 0) _ _ _ _) _).
  - unfold ReadableInfo.well_typed, ReadableInfo.demo. cbn. lia.
  - by vm_compute.
  - by vm_compute.
  - vm_compute. reflexivity.
  - by vm_compute.
Defined.
End MulticastNotifier.

(** ** [NotifierFactory] *)
Module NotifierFactory.
Local Open Scope string_scope.

Inductive kind := Multicast | Condition.

(** By the name in the configuration; multicast without one, and for every other
    name. *)
Definition CreateNotifier (notifier_type : option string) : kind :=
  if bool_decide (notifier_type = Some "condition") then Condition else Multicast.
End NotifierFactory.
