(* ===== verification/RecordFile.v ===== *)
(** * Record files ([cyber/record/file/], [cyber/record/header_builder.cc],
    [cyber/proto/record.proto])

    [Posix]: an open file.  [Header], [Channel], ..: the messages of
    [record.proto].  [HeaderBuilder].  [RecordFileWriter]: the operations that
    write sections (the flush thread is in [RecordFlush]).  [RecordFileReader]:
    the operations that read them.  [Layout]: what a record file is made of,
    and that the two agree on it.

    Protobuf is not part of the program: how a message is serialised, and what
    parsing a stream gives, is the class [Proto]; what the code relies on is
    [ProtoLaws]. *)

From S2P Require Import Prelude.

Local Open Scope Z_scope.
Local Open Scope cyber_scope.

(** ** An open file

    [limit] is the size at which the system stops extending the file: a
    [write] stores the bytes that fit and reports how many, and fails when
    none does.  Reading a regular file does not fail. *)
Module Posix.

Record file := mk { content : list Z; pos : Z; limit : Z }.

(** [content] with [bs] at offset [p]; a hole reads as zeros. *)
Definition splice (p : nat) (bs l : list Z) : list Z :=
  take p l ++ replicate (p - length l) 0 ++ bs ++ drop (p + length bs) l.

Definition write (bs : list Z) (f : file) : Z * file :=
  if (0 <? Z.of_nat (length bs)) && (limit f <=? pos f) then (-1, f)
  else
    let bs := take (Z.to_nat (Z.min (Z.of_nat (length bs)) (limit f - pos f))) bs in
    (Z.of_nat (length bs),
     mk (splice (Z.to_nat (pos f)) bs (content f)) (pos f + Z.of_nat (length bs)) (limit f)).

Definition read (n : nat) (f : file) : list Z * file :=
  let bs := take n (drop (Z.to_nat (pos f)) (content f)) in
  (bs, mk (content f) (pos f + Z.of_nat (length bs)) (limit f)).

(** [lseek(fd, position, SEEK_SET)]. *)
Definition lseek (position : Z) (f : file) : Z * file :=
  if position <? 0 then (-1, f) else (position, mk (content f) position (limit f)).

End Posix.

(** ** The messages of [record.proto] *)
Inductive SectionType :=
| SECTION_HEADER
| SECTION_CHUNK_HEADER
| SECTION_CHUNK_BODY
| SECTION_INDEX
| SECTION_CHANNEL.

#[export] Instance SectionType_eq_dec : EqDecision SectionType.
Proof. solve_decision. Defined.

Definition section_number (ty : SectionType) : Z :=
  match ty with
  | SECTION_HEADER => 0
  | SECTION_CHUNK_HEADER => 1
  | SECTION_CHUNK_BODY => 2
  | SECTION_INDEX => 3
  | SECTION_CHANNEL => 4
  end.

(** The enumerator of a number read from a file; other numbers go to [default]. *)
Definition section_of_number (n : Z) : option SectionType :=
  if n =? 0 then Some SECTION_HEADER
  else if n =? 1 then Some SECTION_CHUNK_HEADER
  else if n =? 2 then Some SECTION_CHUNK_BODY
  else if n =? 3 then Some SECTION_INDEX
  else if n =? 4 then Some SECTION_CHANNEL
  else None.

Module Header.

Record t := mk {
  major_version : Z;
  minor_version : Z;
  compress : Z;
  chunk_interval : Z;
  segment_interval : Z;
  index_position : Z;
  chunk_number : Z;
  channel_number : Z;
  begin_time : Z;
  end_time : Z;
  message_number : Z;
  size : Z;
  is_complete : bool;
  chunk_raw_size : Z;
  segment_raw_size : Z
}.

Definition set_segment_interval (v : Z) (h : t) : t :=
  mk (major_version h) (minor_version h) (compress h) (chunk_interval h) v (index_position h)
   (chunk_number h) (channel_number h) (begin_time h) (end_time h) (message_number h) (size h)
   (is_complete h) (chunk_raw_size h) (segment_raw_size h).
Definition set_index_position (v : Z) (h : t) : t :=
  mk (major_version h) (minor_version h) (compress h) (chunk_interval h) (segment_interval h) v
   (chunk_number h) (channel_number h) (begin_time h) (end_time h) (message_number h) (size h)
   (is_complete h) (chunk_raw_size h) (segment_raw_size h).
Definition set_chunk_number (v : Z) (h : t) : t :=
  mk (major_version h) (minor_version h) (compress h) (chunk_interval h) (segment_interval h)
   (index_position h) v (channel_number h) (begin_time h) (end_time h) (message_number h) (size h)
   (is_complete h) (chunk_raw_size h) (segment_raw_size h).
Definition set_channel_number (v : Z) (h : t) : t :=
  mk (major_version h) (minor_version h) (compress h) (chunk_interval h) (segment_interval h)
   (index_position h) (chunk_number h) v (begin_time h) (end_time h) (message_number h) (size h)
   (is_complete h) (chunk_raw_size h) (segment_raw_size h).
Definition set_begin_time (v : Z) (h : t) : t :=
  mk (major_version h) (minor_version h) (compress h) (chunk_interval h) (segment_interval h)
   (index_position h) (chunk_number h) (channel_number h) v (end_time h) (message_number h) (size h)
   (is_complete h) (chunk_raw_size h) (segment_raw_size h).
Definition set_end_time (v : Z) (h : t) : t :=
  mk (major_version h) (minor_version h) (compress h) (chunk_interval h) (segment_interval h)
   (index_position h) (chunk_number h) (channel_number h) (begin_time h) v (message_number h)
   (size h) (is_complete h) (chunk_raw_size h) (segment_raw_size h).
Definition set_message_number (v : Z) (h : t) : t :=
  mk (major_version h) (minor_version h) (compress h) (chunk_interval h) (segment_interval h)
   (index_position h) (chunk_number h) (channel_number h) (begin_time h) (end_time h) v (size h)
   (is_complete h) (chunk_raw_size h) (segment_raw_size h).
Definition set_size (v : Z) (h : t) : t :=
  mk (major_version h) (minor_version h) (compress h) (chunk_interval h) (segment_interval h)
   (index_position h) (chunk_number h) (channel_number h) (begin_time h) (end_time h)
   (message_number h) v (is_complete h) (chunk_raw_size h) (segment_raw_size h).
Definition set_is_complete (v : bool) (h : t) : t :=
  mk (major_version h) (minor_version h) (compress h) (chunk_interval h) (segment_interval h)
   (index_position h) (chunk_number h) (channel_number h) (begin_time h) (end_time h)
   (message_number h) (size h) v (chunk_raw_size h) (segment_raw_size h).
Definition set_segment_raw_size (v : Z) (h : t) : t :=
  mk (major_version h) (minor_version h) (compress h) (chunk_interval h) (segment_interval h)
   (index_position h) (chunk_number h) (channel_number h) (begin_time h) (end_time h)
   (message_number h) (size h) (is_complete h) (chunk_raw_size h) v.

End Header.

Module SingleMessage.
Record t := mk { channel_name : string; time : Z; content : list Z }.
End SingleMessage.

Module Channel.
Record t := mk { name : string; message_type : string; proto_desc : string }.
End Channel.

Module ChunkHeader.
Record t := mk { begin_time : Z; end_time : Z; message_number : Z; raw_size : Z }.
End ChunkHeader.

Module ChunkBody.
Record t := mk { messages : list SingleMessage.t }.
End ChunkBody.

Module ChannelCache.
Record t := mk { message_number : Z; name : string; message_type : string; proto_desc : string }.
Definition set_message_number (n : Z) (c : t) : t := mk n (name c) (message_type c) (proto_desc c).
End ChannelCache.

Module ChunkHeaderCache.
Record t := mk { message_number : Z; begin_time : Z; end_time : Z; raw_size : Z }.
End ChunkHeaderCache.

Module ChunkBodyCache.
Record t := mk { message_number : Z }.
End ChunkBodyCache.

(** [oneof cache]. *)
Inductive cache :=
| channel_cache (c : ChannelCache.t)
| chunk_header_cache (c : ChunkHeaderCache.t)
| chunk_body_cache (c : ChunkBodyCache.t).

Module SingleIndex.
Record t := mk { type : SectionType; position : Z; cache_ : option cache }.
End SingleIndex.

Module Index.
Record t := mk { indexes : list SingleIndex.t }.
Definition add (i : SingleIndex.t) (x : t) : t := mk (indexes x ++ [i]).
End Index.

(** ** [HeaderBuilder] *)
Module HeaderBuilder.
Definition MAJOR_VERSION_ : Z := 1.
Definition MINOR_VERSION_ : Z := 0.
Definition COMPRESS_NONE : Z := 0.
Definition CHUNK_INTERVAL_ : Z := 20 * 1000 * 1000 * 1000.
Definition SEGMENT_INTERVAL_ : Z := 60 * 1000 * 1000 * 1000.
Definition CHUNK_RAW_SIZE_ : Z := 200 * 1024 * 1024.
Definition SEGMENT_RAW_SIZE_ : Z := 2048 * 1024 * 1024.

Definition GetHeader : Header.t :=
  Header.mk MAJOR_VERSION_ MINOR_VERSION_ COMPRESS_NONE CHUNK_INTERVAL_ SEGMENT_INTERVAL_
    0 0 0 0 0 0 0 false CHUNK_RAW_SIZE_ SEGMENT_RAW_SIZE_.

Definition GetHeaderWithSegmentParams (segment_interval segment_raw_size : Z) : Header.t :=
  Header.mk MAJOR_VERSION_ MINOR_VERSION_ COMPRESS_NONE CHUNK_INTERVAL_ segment_interval
    0 0 0 0 0 0 0 false CHUNK_RAW_SIZE_ segment_raw_size.

Definition GetHeaderWithChunkParams (chunk_interval chunk_raw_size : Z) : Header.t :=
  Header.mk MAJOR_VERSION_ MINOR_VERSION_ COMPRESS_NONE chunk_interval SEGMENT_INTERVAL_
    0 0 0 0 0 0 0 false chunk_raw_size SEGMENT_RAW_SIZE_.
End HeaderBuilder.

(** ** Protobuf

    [ser m] is what [SerializeToZeroCopyStream] emits.  [decode size rest] is
    the outcome of parsing, under a limit of [size] bytes and with a stream of
    block size [size], a descriptor in front of the bytes [rest]. *)
Record parsed (T : Type) := mkparsed {
  ok : bool;           (* [ParseFromCodedStream] *)
  entire : bool;       (* [ConsumedEntireMessage] *)
  at_end : bool;       (* [ExpectAtEnd] *)
  value : T;           (* the message, also after a failure *)
  consumed : nat       (* bytes the stream took from the descriptor *)
}.
Arguments mkparsed {T}.
Arguments ok {T}.
Arguments entire {T}.
Arguments at_end {T}.
Arguments value {T}.
Arguments consumed {T}.

Class Proto (T : Type) := {
  ser : T → list Z;
  decode : Z → list Z → parsed T
}.

Definition parses {T} (m : T) (n : nat) (p : parsed T) : Prop :=
  ok p = true ∧ entire p = true ∧ value p = m ∧ consumed p = n.

(** The fields of a message are in the range of their types. *)
Class Typed (T : Type) := wf : T → Prop.
Definition uint64 (z : Z) : Prop := 0 <= z < 2 ^ 64.
#[export] Instance typed_header : Typed Header.t := λ h,
  Forall uint64 [Header.major_version h; Header.minor_version h; Header.compress h; Header.chunk_interval h;
    Header.segment_interval h; Header.index_position h; Header.chunk_number h; Header.channel_number h;
    Header.begin_time h; Header.end_time h; Header.message_number h; Header.size h; Header.chunk_raw_size h;
    Header.segment_raw_size h].
#[export] Instance typed_channel : Typed Channel.t := λ _, True.
#[export] Instance typed_message : Typed SingleMessage.t := λ m,
  uint64 (SingleMessage.time m) ∧ Forall byte (SingleMessage.content m).
#[export] Instance typed_chunk_header : Typed ChunkHeader.t := λ h,
  Forall uint64 [ChunkHeader.begin_time h; ChunkHeader.end_time h; ChunkHeader.message_number h; ChunkHeader.raw_size h].
#[export] Instance typed_chunk_body : Typed ChunkBody.t := λ b, Forall wf (ChunkBody.messages b).
#[export] Instance typed_cache : Typed cache := λ c,
  match c with
  | channel_cache c => uint64 (ChannelCache.message_number c)
  | chunk_header_cache c =>
      Forall uint64 [ChunkHeaderCache.message_number c; ChunkHeaderCache.begin_time c; ChunkHeaderCache.end_time c;
                     ChunkHeaderCache.raw_size c]
  | chunk_body_cache c => uint64 (ChunkBodyCache.message_number c)
  end.
#[export] Instance typed_index : Typed Index.t := λ x,
  Forall (λ i, uint64 (SingleIndex.position i) ∧ from_option wf True (SingleIndex.cache_ i)) (Index.indexes x).

(** Every message of a record file has a field set, so its serialisation is
    not empty; sizes are below the 2 GB protobuf allows. *)
Class ProtoLaws (T : Type) `{Proto T, Typed T} := {
  decode_ser m rest :
    wf m → 0 < Z.of_nat (length (ser m)) < 2 ^ 31 →
    parses m (length (ser m)) (decode (Z.of_nat (length (ser m))) (ser m ++ rest))
}.

(** [ByteSize()] is an [int]. *)
Definition ByteSize {T} `{Proto T} (m : T) : Z := i32 (Z.of_nat (length (ser m))).

(** [std::is_same] in [WriteSection]. *)
Class HasSection (T : Type) := section_type : SectionType.
#[export] Instance header_section : HasSection Header.t := SECTION_HEADER.
#[export] Instance chunk_header_section : HasSection ChunkHeader.t := SECTION_CHUNK_HEADER.
#[export] Instance chunk_body_section : HasSection ChunkBody.t := SECTION_CHUNK_BODY.
#[export] Instance index_section : HasSection Index.t := SECTION_INDEX.
#[export] Instance channel_section : HasSection Channel.t := SECTION_CHANNEL.
Arguments section_type T {_}.

(** The messages a record file holds, and the four bytes of padding inside
    [struct Section], which the writer does not set. *)
Class RecordProtos := {
  #[global] header_proto :: Proto Header.t;
  #[global] channel_proto :: Proto Channel.t;
  #[global] chunk_header_proto :: Proto ChunkHeader.t;
  #[global] chunk_body_proto :: Proto ChunkBody.t;
  #[global] index_proto :: Proto Index.t;
  padding : list Z
}.

Definition HEADER_LENGTH : Z := 2048.

Class RecordProtoLaws `{RecordProtos} := {
  #[global] header_laws :: ProtoLaws Header.t;
  #[global] channel_laws :: ProtoLaws Channel.t;
  #[global] chunk_header_laws :: ProtoLaws ChunkHeader.t;
  #[global] chunk_body_laws :: ProtoLaws ChunkBody.t;
  #[global] index_laws :: ProtoLaws Index.t;
  (* fifteen scalar fields *)
  header_size (h : Header.t) : wf h → 0 < Z.of_nat (length (ser h)) <= HEADER_LENGTH;
  padding_length : length padding = 4%nat
}.

(** [struct Section]. *)
Module Section_.
Record t := mk { type : Z; size : Z }.
Definition kSize : nat := 16.

Definition to_bytes `{RecordProtos} (s : t) : list Z :=
  bytes_of 4 (u32 (type s)) ++ padding ++ bytes_of 8 (u64 (size s)).

Definition of_memory (bs : list Z) : t :=
  mk (i32 (of_bytes (take 4 bs))) (i64 (of_bytes (take 8 (drop 8 bs)))).
End Section_.

(** ** The writer *)
Module Chunk.

Record t := mk { header_ : ChunkHeader.t; body_ : ChunkBody.t }.

Definition clear : t := mk (ChunkHeader.mk 0 0 0 0) (ChunkBody.mk []).

Definition add (message : SingleMessage.t) (c : t) : t :=
  let h := header_ c in
  let msg_stamp := SingleMessage.time message in
  let begin_time :=
    if ChunkHeader.begin_time h =? 0 then msg_stamp
    else if msg_stamp <? ChunkHeader.begin_time h then msg_stamp else ChunkHeader.begin_time h in
  let end_time :=
    if ChunkHeader.end_time h <? msg_stamp then msg_stamp else ChunkHeader.end_time h in
  mk (ChunkHeader.mk begin_time end_time (ChunkHeader.message_number h +64 1)
        (ChunkHeader.raw_size h +64 Z.of_nat (length (SingleMessage.content message))))
     (ChunkBody.mk (ChunkBody.messages (body_ c) ++ [message])).

Definition empty (c : t) : bool := ChunkHeader.message_number (header_ c) =? 0.

End Chunk.

Module RecordFileWriter.
Section writer.
Context `{RecordProtos}.

Record t := mk {
  fd_ : Posix.file;
  header_ : Header.t;
  index_ : Index.t;
  is_writing_ : bool;
  chunk_active_ : Chunk.t;
  chunk_flush_ : Chunk.t;
  channel_message_number_map_ : gmap string Z
}.

Definition set_fd (f : Posix.file) (w : t) : t :=
  mk f (header_ w) (index_ w) (is_writing_ w) (chunk_active_ w) (chunk_flush_ w)
     (channel_message_number_map_ w).
Definition set_header (h : Header.t) (w : t) : t :=
  mk (fd_ w) h (index_ w) (is_writing_ w) (chunk_active_ w) (chunk_flush_ w)
     (channel_message_number_map_ w).
Definition set_index (x : Index.t) (w : t) : t :=
  mk (fd_ w) (header_ w) x (is_writing_ w) (chunk_active_ w) (chunk_flush_ w)
     (channel_message_number_map_ w).
Definition set_is_writing (b : bool) (w : t) : t :=
  mk (fd_ w) (header_ w) (index_ w) b (chunk_active_ w) (chunk_flush_ w)
     (channel_message_number_map_ w).
Definition set_chunks (active flush : Chunk.t) (w : t) : t :=
  mk (fd_ w) (header_ w) (index_ w) (is_writing_ w) active flush
     (channel_message_number_map_ w).
Definition set_numbers (m : gmap string Z) (w : t) : t :=
  mk (fd_ w) (header_ w) (index_ w) (is_writing_ w) (chunk_active_ w) (chunk_flush_ w) m.

Definition CurrentPosition (w : t) : Z := Posix.pos (fd_ w).

Definition SetPosition (position : Z) (w : t) : bool * t :=
  let '(p, f) := Posix.lseek position (fd_ w) in
  if p <? 0 then (false, set_fd f w) else (true, set_fd f w).

(** A new writer, on the file that is there ([O_CREAT | O_WRONLY]: what the
    file holds stays). *)
Definition Open (old : list Z) (limit : Z) (h : Header.t) (x : Index.t) (m : gmap string Z) : t :=
  mk (Posix.mk old 0 limit) h x true Chunk.clear Chunk.clear m.

Definition blank : list Z := 48 :: replicate 2047 0.

(** [WriteSection<T>(message)]. *)
Definition WriteSection {T} `{Proto T, HasSection T} (message : T) (w : t) : bool * t :=
  let type := section_type T in
  let '(moved, w) := if decide (type = SECTION_HEADER) then SetPosition 0 w else (true, w) in
  if negb moved then (false, w)
  else
    let section := Section_.mk (section_number type) (ByteSize message) in
    let '(count, f) := Posix.write (Section_.to_bytes section) (fd_ w) in
    let w := set_fd f w in
    if count <? 0 then (false, w)
    else if negb (count =? Z.of_nat Section_.kSize) then (false, w)
    else
      (* the stream's errors are not looked at *)
      let '(_, f) := Posix.write (ser message) (fd_ w) in
      let w := set_fd f w in
      let '(padded, w) :=
        if decide (type = SECTION_HEADER) then
          let n := HEADER_LENGTH - ByteSize message in
          let '(count, f) := Posix.write (take (Z.to_nat n) blank) (fd_ w) in
          let w := set_fd f w in
          if count <? 0 then (false, w) else if negb (count =? n) then (false, w) else (true, w)
        else (true, w) in
      if negb padded then (false, w)
      else (true, set_header (Header.set_size (CurrentPosition w) (header_ w)) w).

Definition WriteHeader (header : Header.t) (w : t) : bool * t :=
  let w := set_header header w in
  WriteSection (header_ w) w.

(** The loop of [WriteIndex] over the indexes. *)
Definition update_index (m : gmap string Z) (i : SingleIndex.t) : SingleIndex.t :=
  match SingleIndex.type i, SingleIndex.cache_ i with
  | SECTION_CHANNEL, Some (channel_cache c) =>
      match m !! ChannelCache.name c with
      | Some n =>
          SingleIndex.mk (SingleIndex.type i) (SingleIndex.position i)
            (Some (channel_cache (ChannelCache.set_message_number n c)))
      | None => i
      end
  | _, _ => i
  end.

Definition WriteIndex (w : t) : bool * t :=
  let w := set_index (Index.mk (update_index (channel_message_number_map_ w) <$> Index.indexes (index_ w))) w in
  let w := set_header (Header.set_index_position (CurrentPosition w) (header_ w)) w in
  WriteSection (index_ w) w.

Definition WriteChannel (channel : Channel.t) (w : t) : bool * t :=
  let '(ok, w) := WriteSection channel w in
  if negb ok then (false, w)
  else
    let w := set_header (Header.set_channel_number (Header.channel_number (header_ w) +64 1) (header_ w)) w in
    let c := ChannelCache.mk 0 (Channel.name channel) (Channel.message_type channel) (Channel.proto_desc channel) in
    (true, set_index (Index.add (SingleIndex.mk SECTION_CHANNEL (CurrentPosition w) (Some (channel_cache c))) (index_ w)) w).

Definition WriteChunk (chunk_header : ChunkHeader.t) (chunk_body : ChunkBody.t) (w : t) : bool * t :=
  let '(ok, w) := WriteSection chunk_header w in
  if negb ok then (false, w)
  else
    let c := ChunkHeaderCache.mk (ChunkHeader.message_number chunk_header) (ChunkHeader.begin_time chunk_header)
               (ChunkHeader.end_time chunk_header) (ChunkHeader.raw_size chunk_header) in
    let w := set_index (Index.add (SingleIndex.mk SECTION_CHUNK_HEADER (CurrentPosition w) (Some (chunk_header_cache c))) (index_ w)) w in
    let '(ok, w) := WriteSection chunk_body w in
    if negb ok then (false, w)
    else
      let h := header_ w in
      let h := Header.set_chunk_number (Header.chunk_number h +64 1) h in
      let h := if Header.begin_time h =? 0 then Header.set_begin_time (ChunkHeader.begin_time chunk_header) h else h in
      let h := Header.set_end_time (ChunkHeader.end_time chunk_header) h in
      let h := Header.set_message_number (Header.message_number h +64 ChunkHeader.message_number chunk_header) h in
      let w := set_header h w in
      let c := ChunkBodyCache.mk (u64 (i32 (Z.of_nat (length (ChunkBody.messages chunk_body))))) in
      (true, set_index (Index.add (SingleIndex.mk SECTION_CHUNK_BODY (CurrentPosition w) (Some (chunk_body_cache c))) (index_ w)) w).

(** The part of [WriteMessage] before the swap: the new state, and whether the
    active chunk is to be flushed. *)
Definition add_message (message : SingleMessage.t) (w : t) : bool * t :=
  let active := Chunk.add message (chunk_active_ w) in
  let w := set_chunks active (chunk_flush_ w) w in
  let m := channel_message_number_map_ w in
  let name := SingleMessage.channel_name message in
  let w := set_numbers (match m !! name with Some n => <[name := n +64 1]> m | None => <[name := 1]> m end) w in
  let h := header_ w in
  let need_flush :=
    (0 <? Header.chunk_interval h) &&
    (Header.chunk_interval h <? SingleMessage.time message -64 ChunkHeader.begin_time (Chunk.header_ active)) in
  let need_flush :=
    need_flush ||
    ((0 <? Header.chunk_raw_size h) && (Header.chunk_raw_size h <? ChunkHeader.raw_size (Chunk.header_ active))) in
  (need_flush, w).

(** [chunk_flush_.swap(chunk_active_)]. *)
Definition swap_chunks (w : t) : t := set_chunks (chunk_flush_ w) (chunk_active_ w) w.

Definition GetMessageNumber (channel_name : string) (w : t) : Z :=
  default 0 (channel_message_number_map_ w !! channel_name).

End writer.
End RecordFileWriter.

(** ** The reader *)
Module RecordFileReader.
Section reader.
Context `{RecordProtos}.

Record t := mk { fd_ : Posix.file; header_ : Header.t; index_ : Index.t; end_of_file_ : bool }.

Definition set_fd (f : Posix.file) (r : t) : t := mk f (header_ r) (index_ r) (end_of_file_ r).
Definition set_eof (b : bool) (r : t) : t := mk (fd_ r) (header_ r) (index_ r) b.

Definition CurrentPosition (r : t) : Z := Posix.pos (fd_ r).
Definition SetPosition (position : Z) (r : t) : bool * t :=
  let '(p, f) := Posix.lseek position (fd_ r) in
  if p <? 0 then (false, set_fd f r) else (true, set_fd f r).

(** [ReadSection] of a [Section]. *)
Definition ReadSection (r : t) : option Section_.t * t :=
  let '(bs, f) := Posix.read Section_.kSize (fd_ r) in
  let r := set_fd f r in
  match length bs with
  | O => (None, set_eof true r)
  | n => if (n =? Section_.kSize)%nat then (Some (Section_.of_memory bs), r) else (None, r)
  end.

(** [ReadSection<T>(size, message)]: the answer, and the message it leaves
    ([None] when it did not touch it). *)
Definition ReadMessageSection {T} `{Proto T} (size : Z) (r : t) : bool * option T * t :=
  if (size <? - 2 ^ 31) || (2 ^ 31 - 1 <? size) then (false, None, r)
  else
    let f := fd_ r in
    let p := decode size (drop (Z.to_nat (Posix.pos f)) (Posix.content f)) in
    let r := set_fd (Posix.mk (Posix.content f) (Posix.pos f + Z.of_nat (consumed p)) (Posix.limit f)) r in
    if negb (ok p) then (false, Some (value p), set_eof (at_end p) r)
    else if negb (entire p) then (false, Some (value p), r)
    else (ByteSize (value p) =? size, Some (value p), r).

Definition SkipSection (size : Z) (r : t) : bool * t :=
  let pos := CurrentPosition r in
  if 2 ^ 63 - 1 - pos <? size then (false, r) else SetPosition (pos + size) r.

(** Where the first section after the header begins. *)
Definition first_section : Z := Z.of_nat Section_.kSize + HEADER_LENGTH.

Definition Reset (r : t) : bool * t :=
  let '(ok, r) := SetPosition first_section r in
  if ok then (true, set_eof false r) else (false, r).

Definition ReadHeader (r : t) : bool * t :=
  let '(section, r) := ReadSection r in
  match section with
  | None => (false, r)
  | Some s =>
      if negb (Section_.type s =? section_number SECTION_HEADER) then (false, r)
      else
        let '(ok, h, r) := ReadMessageSection (T := Header.t) (Section_.size s) r in
        let r := mk (fd_ r) (default (header_ r) h) (index_ r) (end_of_file_ r) in
        if negb ok then (false, r) else SetPosition first_section r
  end.

(** [Open] on the file [content], if it exists. *)
Definition Open (content : option (list Z)) (r : t) : bool * t :=
  match content with
  | None => (false, r)
  | Some c => ReadHeader (set_eof false (set_fd (Posix.mk c 0 0) r))
  end.

Definition ReadIndex (r : t) : bool * t :=
  if negb (Header.is_complete (header_ r)) then (false, r)
  else
    let '(ok, r) := SetPosition (i64 (Header.index_position (header_ r))) r in
    if negb ok then (false, r)
    else
      let '(section, r) := ReadSection r in
      match section with
      | None => (false, r)
      | Some s =>
          if negb (Section_.type s =? section_number SECTION_INDEX) then (false, r)
          else
            let '(ok, x, r) := ReadMessageSection (T := Index.t) (Section_.size s) r in
            let r := mk (fd_ r) (header_ r) (default (index_ r) x) (end_of_file_ r) in
            if negb ok then (false, r) else (true, snd (Reset r))
      end.

End reader.
End RecordFileReader.

(** ** The bytes of a record file *)
Module Layout.
Section layout.
Context `{RecordProtos}.

Definition enc {T} `{Proto T, HasSection T} (m : T) : list Z :=
  Section_.to_bytes (Section_.mk (section_number (section_type T)) (ByteSize m)) ++ ser m.

(** What [WriteChannel] and [WriteChunk] put into a file. *)
Inductive item :=
| IChannel (c : Channel.t)
| IChunk (h : ChunkHeader.t) (b : ChunkBody.t).

Definition enc_item (i : item) : list Z :=
  match i with IChannel c => enc c | IChunk h b => enc h ++ enc b end.
Definition enc_items (l : list item) : list Z := l ≫= enc_item.
Definition enc_header (h : Header.t) : list Z :=
  enc h ++ take (Z.to_nat (HEADER_LENGTH - ByteSize h)) RecordFileWriter.blank.

(** What an item adds to the header, and to the index of a file in which it
    begins at byte [start].  The positions are those of the ends. *)
Definition note_header (h : Header.t) (i : item) : Header.t :=
  match i with
  | IChannel _ => Header.set_channel_number (Header.channel_number h +64 1) h
  | IChunk c _ =>
      let h := Header.set_chunk_number (Header.chunk_number h +64 1) h in
      let h := if Header.begin_time h =? 0 then Header.set_begin_time (ChunkHeader.begin_time c) h else h in
      let h := Header.set_end_time (ChunkHeader.end_time c) h in
      Header.set_message_number (Header.message_number h +64 ChunkHeader.message_number c) h
  end.

Definition index_item (start : nat) (i : item) : list SingleIndex.t :=
  match i with
  | IChannel c =>
      [SingleIndex.mk SECTION_CHANNEL (Z.of_nat (start + length (enc c)))
         (Some (channel_cache (ChannelCache.mk 0 (Channel.name c) (Channel.message_type c) (Channel.proto_desc c))))]
  | IChunk h b =>
      [SingleIndex.mk SECTION_CHUNK_HEADER (Z.of_nat (start + length (enc h)))
         (Some (chunk_header_cache (ChunkHeaderCache.mk (ChunkHeader.message_number h) (ChunkHeader.begin_time h)
                                      (ChunkHeader.end_time h) (ChunkHeader.raw_size h))));
       SingleIndex.mk SECTION_CHUNK_BODY (Z.of_nat (start + length (enc h ++ enc b)))
         (Some (chunk_body_cache (ChunkBodyCache.mk (u64 (i32 (Z.of_nat (length (ChunkBody.messages b))))))))]
  end.

Fixpoint index_items (start : nat) (l : list item) : list SingleIndex.t :=
  match l with
  | [] => []
  | i :: l => index_item start i ++ index_items (start + length (enc_item i)) l
  end.

(** The bytes written so far are [bs], over the old contents [old]. *)
Definition holds (bs old : list Z) (f : Posix.file) : Prop :=
  Posix.content f = bs ++ drop (length bs) old ∧ Posix.pos f = Z.of_nat (length bs).
Definition room (f : Posix.file) : Prop := Z.of_nat (length (Posix.content f)) < Posix.limit f.

#[local] Arguments bytes_of : simpl never.

Lemma splice_append bs x old :
  Posix.splice (length bs) x (bs ++ drop (length bs) old) = (bs ++ x) ++ drop (length (bs ++ x)) old.
Proof.
  unfold Posix.splice. rewrite take_app_length. rewrite length_app.
  replace (length bs - _)%nat with 0%nat by lia. cbn [replicate]. rewrite app_nil_l, <- app_assoc. do 2 f_equal.
  rewrite drop_app_ge by lia. rewrite drop_drop, length_app. f_equal. lia.
Qed.

(** Whatever happens, a file does not shrink. *)
Definition grows (f f' : Posix.file) : Prop :=
  (length (Posix.content f) <= length (Posix.content f'))%nat ∧ Posix.limit f' = Posix.limit f.

#[export] Instance grows_preorder : PreOrder grows.
Proof.
  split; [done|]. intros f1 f2 f3 [Hl1 Hlim1] [Hl2 Hlim2]. split; [lia|congruence].
Qed.

Lemma grows_room f f' : grows f f' → room f' → room f.
Proof. intros [Hl Hlim]. unfold room. rewrite Hlim. lia. Qed.

Lemma write_grows x f : grows f (snd (Posix.write x f)).
Proof.
  unfold Posix.write. case_match; cbn -[take]; [done|].
  split; [|done]. cbn -[take]. unfold Posix.splice. rewrite !length_app, length_take, length_replicate, length_drop. lia.
Qed.

Lemma write_holds bs old x f :
  holds bs old f → room (snd (Posix.write x f)) →
  Posix.write x f = (Z.of_nat (length x), snd (Posix.write x f)) ∧ holds (bs ++ x) old (snd (Posix.write x f)).
Proof.
  intros [Hc Hp] Hroom.
  pose proof (write_grows x f) as [Hlen Hlim].
  unfold room in Hroom. rewrite Hlim in Hroom. revert Hroom Hlen.
  unfold Posix.write. rewrite Hp.
  destruct ((0 <? Z.of_nat (length x)) && (Posix.limit f <=? Z.of_nat (length bs))) eqn:E; cbn -[take].
  { rewrite Hc, length_app. intros. apply andb_true_iff in E as [_ E]. lia. }
  rewrite Nat2Z.id, Hc, splice_append. intros Hroom _.
  assert (take (Z.to_nat (Z.min (Z.of_nat (length x)) (Posix.limit f - Z.of_nat (length bs)))) x = x) as Hx.
  { rewrite !length_app, length_take, length_drop in Hroom. apply take_ge. apply andb_false_iff in E as [E|E]; lia. }
  rewrite Hx. split; [done|]. split; cbn; [done|]. rewrite length_app. lia.
Qed.

Lemma length_enc {T} `{Proto T, HasSection T} `{!RecordProtoLaws} (m : T) :
  length (enc m) = (16 + length (ser m))%nat.
Proof. unfold enc, Section_.to_bytes. rewrite !length_app, !length_bytes_of, padding_length. lia. Qed.

Lemma length_enc_header `{!RecordProtoLaws} h : wf h → length (enc_header h) = 2064%nat.
Proof.
  intros Hwf. pose proof (header_size h Hwf) as Hs. unfold HEADER_LENGTH in *. unfold enc_header. rewrite length_app, length_enc, length_take.
  unfold ByteSize, HEADER_LENGTH. rewrite i32_small by lia.
  change (length RecordFileWriter.blank) with (S (length (replicate 2047 0))). rewrite length_replicate. lia.
Qed.

Abbreviation w_fd := RecordFileWriter.fd_.

Lemma section_write_good bs old bs1 f :
  holds bs old f → length bs1 = Section_.kSize → room (snd (Posix.write bs1 f)) →
  (fst (Posix.write bs1 f) <? 0) = false ∧
  negb (fst (Posix.write bs1 f) =? Z.of_nat Section_.kSize) = false ∧
  holds (bs ++ bs1) old (snd (Posix.write bs1 f)).
Proof.
  intros Hh Hl Hr. destruct (write_holds _ _ _ _ Hh Hr) as [-> Hh']. cbn [fst]. rewrite Hl. by split_and!.
Qed.

Lemma length_to_bytes `{!RecordProtoLaws} s : length (Section_.to_bytes s) = Section_.kSize.
Proof. unfold Section_.to_bytes. by rewrite !length_app, !length_bytes_of, padding_length. Qed.

(** A section that is not the header is appended, when the file has room. *)
Lemma WriteSection_append {T} `{Proto T, HasSection T} `{!RecordProtoLaws} (m : T) bs old ok w w' :
  section_type T ≠ SECTION_HEADER → holds bs old (w_fd w) →
  RecordFileWriter.WriteSection m w = (ok, w') → room (w_fd w') →
  ok = true ∧ holds (bs ++ enc m) old (w_fd w') ∧ Posix.limit (w_fd w') = Posix.limit (w_fd w) ∧
  w' = RecordFileWriter.set_header
         (Header.set_size (Z.of_nat (length (bs ++ enc m))) (RecordFileWriter.header_ w))
         (RecordFileWriter.set_fd (w_fd w') w).
Proof.
  intros Hty Hh. unfold RecordFileWriter.WriteSection. rewrite decide_False by done. cbn [negb].
  set (bs1 := Section_.to_bytes _).
  assert (length bs1 = Section_.kSize) as Hbs1 by apply length_to_bytes.
  assert (enc m = bs1 ++ ser m) as Henc by done. clearbody bs1.
  pose proof (write_grows bs1 (w_fd w)) as [Hl1 Hlim1].
  pose proof (section_write_good bs old bs1 (w_fd w) Hh Hbs1) as Hgood.
  destruct (Posix.write bs1 (w_fd w)) as [c1 f1]. cbn [fst snd] in *.
  pose proof (write_grows (ser m) f1) as [Hl2 Hlim2].
  pose proof (write_holds (bs ++ bs1) old (ser m) f1) as Hw2.
  destruct (Posix.write (ser m) f1) as [c2 f2] eqn:E2. cbn [fst snd] in *.
  intros Heq Hroom.
  assert (room f1) as Hr1.
  { unfold room in *. destruct (c1 <? 0); [by injection Heq as <- <-|].
    destruct (negb (c1 =? Z.of_nat Section_.kSize)); [by injection Heq as <- <-|].
    cbn -[Header.set_size] in Heq. rewrite E2, decide_False in Heq by done.
    injection Heq as <- <-. cbn in Hroom. lia. }
  destruct (Hgood Hr1) as (E3 & E4 & Hh1). rewrite E3, E4 in Heq. cbn -[Header.set_size] in Heq.
  rewrite E2, decide_False in Heq by done. injection Heq as <- <-. cbn in Hroom |- *.
  destruct (Hw2 Hh1 Hroom) as [_ Hh2]. rewrite <- app_assoc, <- Henc in Hh2.
  split_and!; [done|done|congruence|]. unfold RecordFileWriter.CurrentPosition. cbn. by destruct Hh2 as [_ ->].
Qed.


(** The header goes to the beginning of the file, wherever the file was. *)
Lemma WriteSection_header `{!RecordProtoLaws} (h : Header.t) ok w w' :
  wf h → RecordFileWriter.WriteSection h w = (ok, w') → room (w_fd w') →
  ok = true ∧ holds (enc_header h) (Posix.content (w_fd w)) (w_fd w') ∧
  Posix.limit (w_fd w') = Posix.limit (w_fd w) ∧
  w' = RecordFileWriter.set_header (Header.set_size 2064 (RecordFileWriter.header_ w))
         (RecordFileWriter.set_fd (w_fd w') w).
Proof.
  intros Hwf. unfold RecordFileWriter.WriteSection.
  destruct (decide (section_type Header.t = SECTION_HEADER)) as [_|Hn]; [|by destruct Hn].
  cbn -[Section_.to_bytes Header.set_size HEADER_LENGTH ByteSize].
  set (bs1 := Section_.to_bytes _).
  set (f0 := Posix.mk (Posix.content (w_fd w)) 0 (Posix.limit (w_fd w))).
  assert (holds [] (Posix.content (w_fd w)) f0) as Hh0 by done.
  assert (length bs1 = Section_.kSize) as Hbs1 by apply length_to_bytes.
  set (n := HEADER_LENGTH - ByteSize h). set (bs3 := take (Z.to_nat n) RecordFileWriter.blank).
  assert (enc_header h = bs1 ++ ser h ++ bs3) as Henc by (unfold enc_header, enc; by rewrite <- app_assoc).
  assert (Z.of_nat (length bs3) = n) as Hbs3.
  { pose proof (length_enc_header h Hwf) as Hl. rewrite Henc, !length_app, Hbs1 in Hl. unfold n, Section_.kSize in *.
    pose proof (header_size h Hwf). unfold ByteSize, HEADER_LENGTH in *. rewrite i32_small by lia. lia. }
  clearbody bs1 bs3 n.
  pose proof (write_grows bs1 f0) as [Hl1 Hlim1].
  pose proof (section_write_good [] _ bs1 f0 Hh0 Hbs1) as Hgood.
  destruct (Posix.write bs1 f0) as [c1 f1]. cbn [fst snd app] in *.
  pose proof (write_grows (ser h) f1) as [Hl2 Hlim2].
  pose proof (write_holds bs1 (Posix.content (w_fd w)) (ser h) f1) as Hw2.
  destruct (Posix.write (ser h) f1) as [c2 f2] eqn:E2. cbn [fst snd] in *.
  pose proof (write_grows bs3 f2) as [Hl3 Hlim3].
  pose proof (write_holds (bs1 ++ ser h) (Posix.content (w_fd w)) bs3 f2) as Hw3.
  destruct (Posix.write bs3 f2) as [c3 f3] eqn:E3. cbn [fst snd] in *.
  intros Heq Hroom.
  assert (w_fd w' = f1 ∨ w_fd w' = f3) as Hf.
  { destruct (c1 <? 0); [injection Heq as <- <-; by left|].
    destruct (negb (c1 =? Z.of_nat Section_.kSize)); [injection Heq as <- <-; by left|].
    cbn -[Header.set_size] in Heq. rewrite ?E2 in Heq. cbn -[Header.set_size] in Heq. rewrite ?E3 in Heq.
    destruct (c3 <? 0); [injection Heq as <- <-; by right|].
    destruct (negb (c3 =? n)); injection Heq as <- <-; by right. }
  assert (room f1) as Hr1 by (unfold room in *; destruct Hf as [<-|Hf]; [done|rewrite Hf in Hroom; lia]).
  destruct (Hgood Hr1) as (G1 & G2 & Hh1). rewrite G1, G2 in Heq.
  cbn -[Header.set_size] in Heq. rewrite ?E2 in Heq. cbn -[Header.set_size] in Heq. rewrite ?E3 in Heq.
  assert (w_fd w' = f3) as Hf3.
  { destruct (c3 <? 0); [by injection Heq as <- <-|]. by destruct (negb (c3 =? n)); injection Heq as <- <-. }
  rewrite Hf3 in Hroom.
  assert (room f2) as Hr2 by (unfold room in *; lia).
  destruct (Hw2 Hh1 Hr2) as [_ Hh2]. destruct (Hw3 Hh2 Hroom) as [[= Hc3] Hh3].
  assert ((c3 <? 0) = false) as E4 by lia. assert (c3 = n) as E5 by lia.
  rewrite E4, E5, Z.eqb_refl in Heq. cbn -[Header.set_size] in Heq. injection Heq as <- <-. cbn.
  rewrite <- app_assoc, <- Henc in Hh3. split_and!; [done|done|by rewrite Hlim3, Hlim2, Hlim1|].
  unfold RecordFileWriter.CurrentPosition. cbn. destruct Hh3 as [_ ->]. by rewrite length_enc_header.
Qed.


(** *** Reading back *)
Abbreviation r_fd := RecordFileReader.fd_.

Definition small {T} `{Proto T} (m : T) : Prop := 0 < Z.of_nat (length (ser m)) < 2 ^ 31.

(** The reader is [length pre] bytes into the file, in front of [rest]. *)
Definition stands (pre rest : list Z) (r : RecordFileReader.t) : Prop :=
  Posix.content (r_fd r) = pre ++ rest ∧ Posix.pos (r_fd r) = Z.of_nat (length pre).

Definition move (n : nat) (r : RecordFileReader.t) : RecordFileReader.t :=
  RecordFileReader.set_fd
    (Posix.mk (Posix.content (r_fd r)) (Posix.pos (r_fd r) + Z.of_nat n) (Posix.limit (r_fd r))) r.

Lemma move_move a b r : move a (move b r) = move (b + a) r.
Proof. unfold move, RecordFileReader.set_fd. cbn. do 2 f_equal. lia. Qed.

Lemma stands_move pre x rest r : stands pre (x ++ rest) r → stands (pre ++ x) rest (move (length x) r).
Proof. intros [Hc Hp]. split; cbn; [by rewrite Hc, app_assoc|]. rewrite Hp, length_app. lia. Qed.

Lemma of_memory_to_bytes `{!RecordProtoLaws} ty n :
  0 <= n < 2 ^ 63 →
  Section_.of_memory (Section_.to_bytes (Section_.mk (section_number ty) n)) = Section_.mk (section_number ty) n.
Proof.
  intros Hn. unfold Section_.of_memory, Section_.to_bytes. cbn [Section_.type Section_.size].
  assert (0 <= section_number ty < 5) as Hty by (destruct ty; cbn; lia).
  rewrite take_app_length' by (by rewrite length_bytes_of).
  rewrite app_assoc, drop_app_length' by (by rewrite length_app, length_bytes_of, padding_length).
  rewrite take_ge by (by rewrite length_bytes_of). rewrite !u32_small, !u64_small by lia.
  rewrite !of_bytes_of by lia. rewrite i32_small, i64_small by lia. done.
Qed.

Lemma ByteSize_small {T} `{Proto T} (m : T) : small m → ByteSize m = Z.of_nat (length (ser m)).
Proof. unfold small, ByteSize. intros. apply i32_small. lia. Qed.

Lemma ReadSection_enc {T} `{Proto T, HasSection T} `{!RecordProtoLaws} (m : T) pre rest r :
  small m → stands pre (enc m ++ rest) r →
  RecordFileReader.ReadSection r =
    (Some (Section_.mk (section_number (section_type T)) (Z.of_nat (length (ser m)))), move Section_.kSize r).
Proof.
  intros Hm [Hc Hp]. unfold RecordFileReader.ReadSection, Posix.read. unfold enc in Hc.
  rewrite ByteSize_small in Hc by done. rewrite Hp, Nat2Z.id, Hc.
  rewrite drop_app_length, <- app_assoc, take_app_length' by (by rewrite length_to_bytes).
  rewrite length_to_bytes. cbn [Nat.eqb Section_.kSize]. rewrite of_memory_to_bytes by (unfold small in Hm; lia).
  unfold move. by rewrite Hp, Hc, <- app_assoc.
Qed.

Lemma ReadMessageSection_enc {T} `{Proto T, HasSection T, Typed T, !ProtoLaws T} `{!RecordProtoLaws} (m : T) pre rest r :
  wf m → small m → stands pre (enc m ++ rest) r →
  RecordFileReader.ReadMessageSection (Z.of_nat (length (ser m))) (move Section_.kSize r) =
    (true, Some m, move (length (enc m)) r).
Proof.
  intros Hwf Hm Hs. unfold RecordFileReader.ReadMessageSection.
  assert ((Z.of_nat (length (ser m)) <? - 2 ^ 31) || (2 ^ 31 - 1 <? Z.of_nat (length (ser m))) = false) as ->.
  { unfold small in Hm. apply orb_false_iff. lia. }
  unfold enc in Hs. rewrite ByteSize_small, <- app_assoc in Hs by done. apply stands_move in Hs as [Hc Hp].
  rewrite length_to_bytes in Hc, Hp. rewrite Hp, Nat2Z.id, Hc, drop_app_length.
  destruct (decode_ser m rest) as (-> & -> & -> & ->); [done..|]. cbn [negb].
  rewrite ByteSize_small, Z.eqb_refl by done. do 2 f_equal.
  rewrite length_enc. unfold move, RecordFileReader.set_fd in *. cbn in *. do 2 f_equal; [by rewrite Hc|].
  rewrite <- Hp. unfold Section_.kSize. lia.
Qed.

Lemma stands_enc {T} `{Proto T, HasSection T} (m : T) pre rest r :
  stands pre (enc m ++ rest) r → stands (pre ++ enc m) rest (move (length (enc m)) r).
Proof. apply stands_move. Qed.

Lemma SkipSection_enc {T} `{Proto T, HasSection T} `{!RecordProtoLaws} (m : T) pre rest r :
  small m → stands pre (enc m ++ rest) r → Z.of_nat (length (pre ++ enc m)) < 2 ^ 63 →
  RecordFileReader.SkipSection (Z.of_nat (length (ser m))) (move Section_.kSize r) =
    (true, move (length (enc m)) r).
Proof.
  intros Hm Hs Hlen. unfold RecordFileReader.SkipSection, RecordFileReader.CurrentPosition, RecordFileReader.SetPosition, Posix.lseek.
  destruct Hs as [Hc Hp]. rewrite length_app, length_enc in Hlen. rewrite length_enc.
  unfold move, RecordFileReader.set_fd. cbn. rewrite Hp. unfold Section_.kSize.
  repeat (rewrite (proj2 (Z.ltb_ge _ _)) by lia; cbn). do 3 f_equal. lia.
Qed.


(** *** The writer's operations on whole items *)
Lemma enc_items_app l1 l2 : enc_items (l1 ++ l2) = enc_items l1 ++ enc_items l2.
Proof. apply bind_app. Qed.

Lemma enc_items_snoc l i : enc_items (l ++ [i]) = enc_items l ++ enc_item i.
Proof. rewrite enc_items_app. unfold enc_items at 2. cbn -[enc_item]. by rewrite app_nil_r. Qed.

Lemma index_items_snoc start l i :
  index_items start (l ++ [i]) = index_items start l ++ index_item (start + length (enc_items l)) i.
Proof.
  revert start. induction l as [|j l IH]; intros start; cbn [index_items app].
  - rewrite app_nil_r. unfold enc_items. cbn. by rewrite Nat.add_0_r.
  - rewrite IH, app_assoc. do 2 f_equal. change (enc_items (j :: l)) with (enc_item j ++ enc_items l).
    rewrite length_app. lia.
Qed.

Lemma note_header_size z h i : note_header (Header.set_size z h) i = Header.set_size z (note_header h i).
Proof. destruct i; cbn; [done|]. by destruct (_ =? 0). Qed.

Lemma note_header_keeps_size h i : Header.size (note_header h i) = Header.size h.
Proof. destruct i; cbn; [done|]. by destruct (_ =? 0). Qed.

Definition wf_item (i : item) : Prop :=
  match i with IChannel c => wf c | IChunk h b => wf h ∧ wf b end.

Lemma uint64_u64 z : uint64 (u64 z).
Proof. apply u64_range. Qed.

Ltac header_fields :=
  repeat match goal with H : wf _ |- _ => red in H; red in H; rewrite !Forall_cons in H end;
  unfold wf, typed_header; rewrite !Forall_cons; cbn -[uint64];
  destruct_and?; split_and!; first [assumption | apply uint64_u64 | apply Forall_nil_2 | unfold uint64; lia].

Lemma note_header_wf h i : wf h → wf_item i → wf (note_header h i).
Proof.
  destruct i as [c|c b]; cbn [wf_item note_header].
  - intros. header_fields.
  - intros Hh [Hc _]. destruct (_ =? 0); header_fields.
Qed.

Lemma note_headers_wf h l : wf h → Forall wf_item l → wf (foldl note_header h l).
Proof. intros Hh Hl. revert h Hh. induction Hl; cbn; eauto using note_header_wf. Qed.

(** The writer [w] has written the header [h0] and the items [l] over [old],
    and started from the header [h]. *)
Record laid (h h0 : Header.t) (l : list item) (old : list Z) (w : RecordFileWriter.t) : Prop := {
  laid_wf : wf h ∧ wf h0 ∧ Forall wf_item l;
  laid_bytes : holds (enc_header h0 ++ enc_items l) old (w_fd w);
  laid_header : RecordFileWriter.header_ w = Header.set_size (Posix.pos (w_fd w)) (foldl note_header h l);
  laid_index : RecordFileWriter.index_ w = Index.mk (index_items 2064 l)
}.

Lemma channel_not_header : section_type Channel.t ≠ SECTION_HEADER.
Proof. discriminate. Qed.
Lemma chunk_header_not_header : section_type ChunkHeader.t ≠ SECTION_HEADER.
Proof. discriminate. Qed.
Lemma chunk_body_not_header : section_type ChunkBody.t ≠ SECTION_HEADER.
Proof. discriminate. Qed.
Lemma index_not_header : section_type Index.t ≠ SECTION_HEADER.
Proof. discriminate. Qed.

(** What the sections do not touch. *)
Definition same_rest (w w' : RecordFileWriter.t) : Prop :=
  RecordFileWriter.is_writing_ w' = RecordFileWriter.is_writing_ w ∧
  RecordFileWriter.chunk_active_ w' = RecordFileWriter.chunk_active_ w ∧
  RecordFileWriter.chunk_flush_ w' = RecordFileWriter.chunk_flush_ w ∧
  RecordFileWriter.channel_message_number_map_ w' = RecordFileWriter.channel_message_number_map_ w ∧
  Posix.limit (w_fd w') = Posix.limit (w_fd w).

Lemma WriteHeader_laid `{!RecordProtoLaws} h ok w w' :
  wf h → RecordFileWriter.index_ w = Index.mk [] → RecordFileWriter.WriteHeader h w = (ok, w') → room (w_fd w') →
  ok = true ∧ laid h h [] (Posix.content (w_fd w)) w' ∧ same_rest w w'.
Proof.
  intros Hwf Hx Hw Hr. destruct (WriteSection_header _ _ _ _ Hwf Hw Hr) as (-> & Hh & Hlim & Hw').
  split; [done|]. rewrite Hw'. split; [|unfold same_rest; by split_and!]. split; cbn.
  - done.
  - by rewrite app_nil_r.
  - destruct Hh as [_ ->]. by rewrite length_enc_header.
  - done.
Qed.

Lemma WriteChannel_laid `{!RecordProtoLaws} h h0 l old c ok w w' :
  wf c → laid h h0 l old w → RecordFileWriter.WriteChannel c w = (ok, w') → room (w_fd w') →
  ok = true ∧ laid h h0 (l ++ [IChannel c]) old w' ∧ same_rest w w'.
Proof.
  intros Hwf [(W1 & W2 & W3) Hb Hh Hx] Hw Hr. unfold RecordFileWriter.WriteChannel in Hw.
  destruct (RecordFileWriter.WriteSection c w) as [b w1] eqn:E.
  assert (room (w_fd w1)) as Hr1 by (destruct b; injection Hw as <- <-; exact Hr).
  destruct (WriteSection_append (T := Channel.t) c _ old _ _ _ channel_not_header Hb E Hr1) as (-> & Hh1 & Hlim & Hw1).
  injection Hw as <- <-. split; [done|]. clear Hr. split.
  - split; cbn; [split_and!; [done..|]; apply Forall_app; split; [done|by apply Forall_singleton]| |..]; rewrite Hw1; cbn -[Header.set_size Header.set_channel_number].
    + by rewrite enc_items_snoc, app_assoc.
    + destruct Hh1 as [_ ->]. rewrite foldl_snoc, Hh. done.
    + rewrite Hx. unfold Index.add. cbn. rewrite index_items_snoc. unfold RecordFileWriter.CurrentPosition. cbn. destruct Hh1 as [_ ->].
      cbn [index_item]. do 4 f_equal. rewrite !length_app, length_enc_header by done. lia.
  - rewrite Hw1. unfold same_rest. by split_and!.
Qed.


Lemma WriteSection_grows {T} `{Proto T, HasSection T} (m : T) w :
  grows (w_fd w) (w_fd (snd (RecordFileWriter.WriteSection m w))).
Proof.
  unfold RecordFileWriter.WriteSection.
  set (moved := if decide _ then RecordFileWriter.SetPosition 0 w else _).
  assert (grows (w_fd w) (w_fd (snd moved))) as Hg0 by (unfold moved; by destruct (decide _)).
  destruct moved as [ok0 w0]. cbn [fst snd] in Hg0. destruct ok0; [cbn [negb]|done].
  set (bs1 := Section_.to_bytes _). pose proof (write_grows bs1 (w_fd w0)) as Hg1.
  destruct (Posix.write bs1 (w_fd w0)) as [c1 f1]. cbn [fst snd] in Hg1.
  destruct (c1 <? 0); [cbn; by etrans|]. destruct (negb _); [cbn; by etrans|].
  pose proof (write_grows (ser m) f1) as Hg2.
  change (w_fd (RecordFileWriter.set_fd f1 w0)) with f1.
  destruct (Posix.write (ser m) f1) as [c2 f2]. cbn -[Header.set_size HEADER_LENGTH take] in *.
  assert (grows (w_fd w) f2) as Hg by (by do 2 (etrans; [|eassumption])).
  destruct (decide _); [|exact Hg]. set (bs3 := take _ _). pose proof (write_grows bs3 f2) as Hg3.
  destruct (Posix.write bs3 f2) as [c3 f3]. cbn -[Header.set_size HEADER_LENGTH take] in *.
  destruct (c3 <? 0); [cbn; by etrans|]. by destruct (negb _); cbn; etrans.
Qed.

Lemma WriteHeader_grows (h : Header.t) w :
  grows (w_fd w) (w_fd (snd (RecordFileWriter.WriteHeader h w))).
Proof. apply (WriteSection_grows h (RecordFileWriter.set_header h w)). Qed.

Lemma WriteIndex_grows w : grows (w_fd w) (w_fd (snd (RecordFileWriter.WriteIndex w))).
Proof. unfold RecordFileWriter.WriteIndex. etrans; [|apply WriteSection_grows]. done. Qed.

Lemma WriteChannel_grows c w : grows (w_fd w) (w_fd (snd (RecordFileWriter.WriteChannel c w))).
Proof.
  unfold RecordFileWriter.WriteChannel. pose proof (WriteSection_grows c w) as Hg.
  destruct (RecordFileWriter.WriteSection c w) as [[] w1]; exact Hg.
Qed.

Lemma WriteChunk_grows ch cb w : grows (w_fd w) (w_fd (snd (RecordFileWriter.WriteChunk ch cb w))).
Proof.
  unfold RecordFileWriter.WriteChunk. pose proof (WriteSection_grows ch w) as Hg1.
  destruct (RecordFileWriter.WriteSection ch w) as [[] w1]; [cbn [negb]|exact Hg1].
  set (w1' := RecordFileWriter.set_index _ w1). pose proof (WriteSection_grows cb w1') as Hg2.
  destruct (RecordFileWriter.WriteSection cb w1') as [[] w2]; by etrans.
Qed.

Lemma WriteChunk_laid `{!RecordProtoLaws} h h0 l old ch cb ok w w' :
  wf ch → wf cb → laid h h0 l old w → RecordFileWriter.WriteChunk ch cb w = (ok, w') → room (w_fd w') →
  ok = true ∧ laid h h0 (l ++ [IChunk ch cb]) old w' ∧ same_rest w w'.
Proof.
  intros Hwf1 Hwf2 [(W1 & W2 & W3) Hb Hh Hx] Hw Hr. unfold RecordFileWriter.WriteChunk in Hw.
  destruct (RecordFileWriter.WriteSection ch w) as [b1 w1] eqn:E1.
  set (w1' := RecordFileWriter.set_index _ w1) in Hw.
  destruct (RecordFileWriter.WriteSection cb w1') as [b2 w2] eqn:E2.
  assert (grows (w_fd w1) (w_fd w2)) as Hg2 by (pose proof (WriteSection_grows cb w1') as Hg; by rewrite E2 in Hg).
  assert (room (w_fd w1) ∧ (b1 = true → room (w_fd w2))) as [Hr1 Hr2].
  { destruct b1; [destruct b2|]; injection Hw as <- <-; split; try done; by apply (grows_room _ _ Hg2). }
  destruct (WriteSection_append (T := ChunkHeader.t) ch _ old _ _ _ chunk_header_not_header Hb E1 Hr1) as (-> & Hh1 & Hlim1 & Hw1).
  specialize (Hr2 eq_refl).
  destruct (WriteSection_append (T := ChunkBody.t) cb _ old _ w1' _ chunk_body_not_header Hh1 E2 Hr2) as (-> & Hh2 & Hlim2 & Hw2).
  injection Hw as <- <-. split; [done|]. clear Hr.
  assert (Posix.pos (w_fd w1) = Z.of_nat (2064 + length (enc_items l) + length (enc ch))) as Hp1.
  { destruct Hh1 as [_ ->]. rewrite !length_app, length_enc_header by done. lia. }
  assert (Posix.pos (w_fd w2) = Z.of_nat (2064 + length (enc_items l) + length (enc ch ++ enc cb))) as Hp2.
  { destruct Hh2 as [_ ->]. rewrite !length_app, length_enc_header by done. lia. }
  split; [|rewrite Hw2; unfold w1'; rewrite Hw1; unfold same_rest; split_and!; cbn; try done; cbn in Hlim2; congruence].
  split; cbn; [split_and!; [done..|]; apply Forall_app; split; [done|by apply Forall_singleton]| |..]; rewrite Hw2; cbn -[Header.set_size].
  - rewrite enc_items_snoc. cbn [enc_item]. by rewrite !app_assoc in *.
  - unfold w1'. cbn -[Header.set_size]. rewrite Hw1. cbn -[Header.set_size]. destruct Hh2 as [_ ->].
    rewrite foldl_snoc, Hh. set (h1 := foldl note_header h l). clearbody h1. cbn. by destruct (_ =? 0).
  - unfold w1'. cbn. rewrite Hw1. cbn. rewrite Hx. unfold Index.add. cbn. rewrite index_items_snoc, <- app_assoc.
    unfold RecordFileWriter.CurrentPosition. cbn. by rewrite Hp1, Hp2.
Qed.

(** The end of [Close]: the index, and the header once more. *)
Definition final_index (m : gmap string Z) (l : list item) : Index.t :=
  Index.mk (RecordFileWriter.update_index m <$> index_items 2064 l).

Definition final_header (m : gmap string Z) (h : Header.t) (l : list item) : Header.t :=
  Header.set_is_complete true
    (Header.set_size (Z.of_nat (2064 + length (enc_items l ++ enc (final_index m l))))
      (Header.set_index_position (Z.of_nat (2064 + length (enc_items l))) (foldl note_header h l))).

(** The bytes of a complete file, over what the file held before. *)
Definition complete_file (m : gmap string Z) (h : Header.t) (l : list item) (old : list Z) : list Z :=
  let bs := enc_header (final_header m h l) ++ enc_items l ++ enc (final_index m l) in
  bs ++ drop (length bs) old.

Lemma finish_laid `{!RecordProtoLaws} h h0 l old ok1 ok2 w w1 w2 :
  Posix.limit (w_fd w) <= 2 ^ 63 → laid h h0 l old w → RecordFileWriter.WriteIndex w = (ok1, w1) →
  RecordFileWriter.WriteHeader (Header.set_is_complete true (RecordFileWriter.header_ w1)) w1 = (ok2, w2) →
  room (w_fd w2) →
  let m := RecordFileWriter.channel_message_number_map_ w in
  ok1 = true ∧ ok2 = true ∧ wf (final_header m h l) ∧ Posix.content (w_fd w2) = complete_file m h l old ∧
  RecordFileWriter.header_ w2 = Header.set_size 2064 (final_header m h l) ∧ same_rest w w2.
Proof.
  intros Hlimit [(W1 & W2 & W3) Hb Hh Hx] H1 H2 Hr m. unfold RecordFileWriter.WriteIndex in H1.
  set (w' := RecordFileWriter.set_header _ _) in H1.
  assert (RecordFileWriter.index_ w' = final_index m l) as Hx' by (unfold w'; cbn; by rewrite Hx).
  rewrite Hx' in *.
  assert (room (w_fd w1)) as Hr1 by (eapply grows_room; [apply WriteHeader_grows|by rewrite H2]).
  destruct (WriteSection_append (T := Index.t) _ _ old _ w' _ index_not_header Hb H1 Hr1) as (-> & Hh1 & Hlim1 & Hw1).
  assert (Header.set_is_complete true (RecordFileWriter.header_ w1) = final_header m h l) as Hfin.
  { rewrite Hw1. unfold final_header. cbn -[Header.set_is_complete Header.set_size Header.set_index_position].
    rewrite Hh. set (h1 := foldl note_header h l). unfold RecordFileWriter.CurrentPosition. cbn. destruct Hb as [_ ->].
    rewrite !length_app, length_enc_header by done.
    unfold Header.set_is_complete, Header.set_size, Header.set_index_position. cbn. f_equal; lia. }
  assert (Z.of_nat (2064 + length (enc_items l ++ enc (final_index m l))) < 2 ^ 63) as Hsmall.
  { unfold room in Hr1. destruct Hh1 as [Hc1 _]. rewrite Hc1, Hlim1 in Hr1. unfold w' in Hr1. cbn in Hr1.
    rewrite !length_app, length_enc_header in Hr1 by done. rewrite length_app. lia. }
  assert (wf (final_header m h l)) as Hfwf.
  { pose proof (note_headers_wf h l W1 W3) as Hn. unfold final_header.
    set (h1 := foldl note_header h l) in *. clearbody h1.
    assert (uint64 (Z.of_nat (2064 + length (enc_items l)))) as Hp1 by (rewrite length_app in Hsmall; unfold uint64; lia).
    assert (uint64 (Z.of_nat (2064 + length (enc_items l ++ enc (final_index m l))))) as Hp2 by (unfold uint64; lia).
    revert Hp1 Hp2. generalize (Z.of_nat (2064 + length (enc_items l))) (Z.of_nat (2064 + length (enc_items l ++ enc (final_index m l)))).
    clear - Hn. intros. header_fields. }
  rewrite Hfin in H2.
  destruct (WriteSection_header _ _ _ _ Hfwf H2 Hr) as (-> & Hh2 & Hlim2 & Hw2).
  split_and!; [done|done|done| | |].
  - destruct Hh2 as [-> _]. cbn in *. unfold complete_file. destruct Hh1 as [-> _].
    rewrite (app_assoc (enc_header (final_header m h l))), <- !app_assoc. f_equal.
    rewrite length_enc_header, drop_app_length' by (done || by rewrite length_enc_header). do 2 f_equal.
    rewrite !length_app, !length_enc_header by done. f_equal; lia.
  - rewrite Hw2. done.
  - rewrite Hw2, Hw1. unfold same_rest. cbn in *. split_and!; try done. congruence.
Qed.

End layout.
End Layout.

(** ** A serialisation to run the examples with

    Any injective encoding will do: the header as its fields, the other
    messages as the digits of their number. *)
Module SampleProtos.

#[local] Instance channel_eq_dec : EqDecision Channel.t.
Proof. solve_decision. Defined.
#[local] Instance message_eq_dec : EqDecision SingleMessage.t.
Proof. solve_decision. Defined.
#[local] Instance chunk_header_eq_dec : EqDecision ChunkHeader.t.
Proof. solve_decision. Defined.
#[local] Instance chunk_body_eq_dec : EqDecision ChunkBody.t.
Proof. solve_decision. Defined.
#[local] Instance cache1_eq_dec : EqDecision ChannelCache.t.
Proof. solve_decision. Defined.
#[local] Instance cache2_eq_dec : EqDecision ChunkHeaderCache.t.
Proof. solve_decision. Defined.
#[local] Instance cache3_eq_dec : EqDecision ChunkBodyCache.t.
Proof. solve_decision. Defined.
#[local] Instance cache_eq_dec : EqDecision cache.
Proof. solve_decision. Defined.
#[local] Instance single_index_eq_dec : EqDecision SingleIndex.t.
Proof. solve_decision. Defined.
#[local] Instance index_eq_dec : EqDecision Index.t.
Proof. solve_decision. Defined.

#[local] Program Instance channel_countable : Countable Channel.t :=
  inj_countable' (λ c, (Channel.name c, Channel.message_type c, Channel.proto_desc c))
    (λ '(a, b, c), Channel.mk a b c) _.
Next Obligation. by intros []. Qed.
#[local] Program Instance message_countable : Countable SingleMessage.t :=
  inj_countable' (λ m, (SingleMessage.channel_name m, SingleMessage.time m, SingleMessage.content m))
    (λ '(a, b, c), SingleMessage.mk a b c) _.
Next Obligation. by intros []. Qed.
#[local] Program Instance chunk_header_countable : Countable ChunkHeader.t :=
  inj_countable' (λ h, (ChunkHeader.begin_time h, ChunkHeader.end_time h, (ChunkHeader.message_number h, ChunkHeader.raw_size h)))
    (λ '(a, b, (c, d)), ChunkHeader.mk a b c d) _.
Next Obligation. by intros []. Qed.
#[local] Program Instance chunk_body_countable : Countable ChunkBody.t :=
  inj_countable' ChunkBody.messages ChunkBody.mk _.
Next Obligation. by intros []. Qed.
#[local] Program Instance section_type_countable : Countable SectionType :=
  inj_countable section_number section_of_number _.
Next Obligation. by intros []. Qed.
#[local] Program Instance cache_countable : Countable cache :=
  inj_countable'
    (λ c, match c with
          | channel_cache c => inl (ChannelCache.message_number c, ChannelCache.name c, (ChannelCache.message_type c, ChannelCache.proto_desc c))
          | chunk_header_cache c =>
              inr (inl (ChunkHeaderCache.message_number c, ChunkHeaderCache.begin_time c, (ChunkHeaderCache.end_time c, ChunkHeaderCache.raw_size c)))
          | chunk_body_cache c => inr (inr (ChunkBodyCache.message_number c))
          end)
    (λ s, match s with
          | inl (a, b, (c, d)) => channel_cache (ChannelCache.mk a b c d)
          | inr (inl (a, b, (c, d))) => chunk_header_cache (ChunkHeaderCache.mk a b c d)
          | inr (inr a) => chunk_body_cache (ChunkBodyCache.mk a)
          end) _.
Next Obligation. by intros [[]|[]|[]]. Qed.
#[local] Program Instance single_index_countable : Countable SingleIndex.t :=
  inj_countable' (λ i, (SingleIndex.type i, SingleIndex.position i, SingleIndex.cache_ i))
    (λ '(a, b, c), SingleIndex.mk a b c) _.
Next Obligation. by intros []. Qed.
#[local] Program Instance index_countable : Countable Index.t :=
  inj_countable' Index.indexes Index.mk _.
Next Obligation. by intros []. Qed.

(** The digits of a number, least significant first, closed by a 2. *)
Fixpoint digits (p : positive) : list Z :=
  match p with xH => [2] | xO p => 0 :: digits p | xI p => 1 :: digits p end.
Fixpoint number (l : list Z) : option positive :=
  match l with
  | [] => None
  | b :: l => if b =? 2 then Some xH else if b =? 0 then xO <$> number l else xI <$> number l
  end.

Lemma number_digits p rest : number (digits p ++ rest) = Some p.
Proof. induction p as [p IH|p IH|]; cbn; [by rewrite IH..|done]. Qed.

Definition parse_with {T} (f : list Z → option T) (default : T) (size : Z) (rest : list Z) : parsed T :=
  let bs := take (Z.to_nat size) rest in
  match f bs with
  | Some m => mkparsed true true true m (length bs)
  | None => mkparsed false false false default (length bs)
  end.

Lemma parse_with_parses {T} (f : list Z → option T) d (m : T) bs rest :
  f bs = Some m → parses m (length bs) (parse_with f d (Z.of_nat (length bs)) (bs ++ rest)).
Proof. intros Hf. unfold parse_with. rewrite Nat2Z.id, take_app_length, Hf. by split_and!. Qed.

Definition sample_proto {T} `{Countable T} (d : T) : Proto T := {|
  ser m := digits (encode m);
  decode := parse_with (λ bs, number bs ≫= countable.decode (A := T)) d
|}.

Lemma sample_proto_laws {T} `{Countable T, Typed T} (d : T) : ProtoLaws T (H := sample_proto d).
Proof.
  constructor. intros m rest _ _. apply parse_with_parses. cbn.
  rewrite <- (app_nil_r (digits _)), number_digits. cbn. apply countable.decode_encode.
Qed.

Definition header_fields (h : Header.t) : list Z :=
  [Header.major_version h; Header.minor_version h; Header.compress h; Header.chunk_interval h;
   Header.segment_interval h; Header.index_position h; Header.chunk_number h; Header.channel_number h;
   Header.begin_time h; Header.end_time h; Header.message_number h; Header.size h; Z.b2z (Header.is_complete h);
   Header.chunk_raw_size h; Header.segment_raw_size h].

Fixpoint words (n : nat) (bs : list Z) : list Z :=
  match n with O => [] | S n => of_bytes (take 8 bs) :: words n (drop 8 bs) end.

Definition header_of (fields : list Z) : option Header.t :=
  match fields with
  | [a; b; c; d; e; f; g; h; i; j; k; l; m; n; o] => Some (Header.mk a b c d e f g h i j k l (m =? 1) n o)
  | _ => None
  end.

Definition sample_header : Proto Header.t := {|
  ser h := header_fields h ≫= bytes_of 8;
  decode := parse_with (λ bs, header_of (words 15 bs)) (HeaderBuilder.GetHeader)
|}.

#[local] Arguments bytes_of : simpl never.

Lemma words_bytes l : Forall uint64 l → words (length l) (l ≫= bytes_of 8) = l.
Proof.
  induction 1 as [|z l Hz _ IH]; [done|]. cbn [length words]. change ((z :: l) ≫= bytes_of 8) with (bytes_of 8 z ++ (l ≫= bytes_of 8)).
  rewrite take_app_length', drop_app_length' by (by rewrite length_bytes_of). rewrite IH. by rewrite of_bytes_of.
Qed.

Lemma length_header h : length (header_fields h ≫= bytes_of 8) = 120%nat.
Proof. cbn -[bytes_of]. rewrite !length_app, !length_bytes_of. done. Qed.

#[export] Instance sample_protos : RecordProtos := {|
  header_proto := sample_header;
  channel_proto := sample_proto (Channel.mk "" "" "");
  chunk_header_proto := sample_proto (ChunkHeader.mk 0 0 0 0);
  chunk_body_proto := sample_proto (ChunkBody.mk []);
  index_proto := sample_proto (Index.mk []);
  padding := [0; 0; 0; 0]
|}.

#[export] Instance sample_laws : RecordProtoLaws.
Proof.
  constructor; try apply sample_proto_laws; [|intros h _; cbn [ser header_proto sample_protos sample_header]|done].
  - constructor. intros h rest Hh _. apply parse_with_parses. cbn [ser header_proto sample_protos sample_header].
    cbn beta. change 15%nat with (length (header_fields h)). rewrite (words_bytes (header_fields h)).
    + destruct h as [? ? ? ? ? ? ? ? ? ? ? ? [] ? ?]; done.
    + unfold wf, typed_header in Hh. rewrite !Forall_cons in Hh. unfold header_fields. rewrite !Forall_cons.
      destruct_and!. split_and!; try done. unfold uint64. destruct (Header.is_complete h); cbn; lia.
  - rewrite length_header. unfold HEADER_LENGTH. lia.
Qed.
End SampleProtos.

(** ** A full disk *)
Section full_disk.
Context `{RecordProtoLaws}.
Import Layout.

(** A section whose contents were lost is reported as written.  When the
    disk has room for the sixteen bytes that announce a channel and for nothing
    more, [WriteChannel] answers that the channel was written, counts it and
    indexes it, and the file ends where the channel should begin. *)
Theorem record_channel_lost (c : Channel.t) (w : RecordFileWriter.t) :
  small c → Posix.pos (RecordFileWriter.fd_ w) = Z.of_nat (length (Posix.content (RecordFileWriter.fd_ w))) →
  Posix.limit (RecordFileWriter.fd_ w) = Posix.pos (RecordFileWriter.fd_ w) + 16 →
  let '(ok, w') := RecordFileWriter.WriteChannel c w in
  ok = true ∧
  Posix.content (RecordFileWriter.fd_ w') =
    Posix.content (RecordFileWriter.fd_ w) ++
    Section_.to_bytes (Section_.mk (section_number SECTION_CHANNEL) (Z.of_nat (length (ser c)))) ∧
  Header.channel_number (RecordFileWriter.header_ w') = Header.channel_number (RecordFileWriter.header_ w) +64 1 ∧
  length (Index.indexes (RecordFileWriter.index_ w')) = S (length (Index.indexes (RecordFileWriter.index_ w))).
Proof.
  intros Hsmall Hpos Hlimit. destruct w as [[content pos limit] h x b a f m]. cbn in Hpos, Hlimit.
  unfold RecordFileWriter.WriteChannel, RecordFileWriter.WriteSection. rewrite ByteSize_small by done.
  change (section_type Channel.t) with SECTION_CHANNEL. rewrite decide_False by done. cbn [negb RecordFileWriter.fd_].
  set (bs := Section_.to_bytes _). assert (length bs = 16%nat) as Hbs by apply length_to_bytes. clearbody bs.
  assert (Posix.write bs (Posix.mk content pos limit) = (16, Posix.mk (content ++ bs) (pos + 16) limit)) as ->.
  { unfold Posix.write. cbn [Posix.pos Posix.content Posix.limit]. rewrite Hbs.
    assert ((0 <? Z.of_nat 16) && (limit <=? pos) = false) as -> by (apply andb_false_iff; lia).
    rewrite take_ge by lia. rewrite Hbs. do 2 f_equal. rewrite Hpos, Nat2Z.id.
    pose proof (splice_append content bs []) as Hsp. rewrite !drop_nil, !app_nil_r in Hsp. exact Hsp. }
  assert (Posix.write (ser c) (Posix.mk (content ++ bs) (pos + 16) limit) = (-1, Posix.mk (content ++ bs) (pos + 16) limit)) as Hw2.
  { unfold Posix.write. cbn [Posix.pos Posix.content Posix.limit]. unfold small in Hsmall.
    by rewrite (proj2 (andb_true_iff _ _)) by (split; lia). }
  cbn -[Posix.write Header.set_size Header.set_channel_number]. rewrite Hw2, decide_False by done.
  cbn -[Posix.write length app]. split_and!; [done..|]. unfold RecordFileWriter.set_index, Index.add. cbn [RecordFileWriter.index_ Index.indexes].
  rewrite length_app. cbn [length]. apply Nat.add_comm.
Qed.
End full_disk.

Import SampleProtos.

Lemma record_channel_lost_witness :
  fst (RecordFileWriter.WriteChannel (Channel.mk "a" "T" "")
         (RecordFileWriter.Open [] 16 HeaderBuilder.GetHeader (Index.mk []) ∅)) = true.
Proof.
  pose proof (record_channel_lost (Channel.mk "a" "T" "")
    (RecordFileWriter.Open [] 16 HeaderBuilder.GetHeader (Index.mk []) ∅)) as Hlost.
  destruct (RecordFileWriter.WriteChannel _ _) as [ok w']. apply Hlost; [|reflexivity|reflexivity].
  split; vm_compute; reflexivity.
Defined.
