(* ===== verification/RecordFlush.v ===== *)
(** * The flush thread of a record file
    ([cyber/record/file/record_file_writer.cc])

    [WriteMessage] fills the active chunk; when it is full it is swapped with
    the flush chunk, which the flush thread writes.  A step of the system is a
    call of the thread that records, or what one of the two threads does
    between two accesses to the state they share; [flush_mutex_] is held by the
    flush thread exactly in the states [locked] lists. *)

From S2P Require Import Prelude RecordFile.
Import Layout.

Local Open Scope Z_scope.

Module RecordFlush.

(** The recording thread: [ASwap] is the end of [WriteMessage]; the rest is
    [Close], from the first wait for the flush chunk to [close]. *)
Inductive apc := AIdle | ASwap | AWait1 | ALastSwap | AWait2 | AStop | ANotify | AJoin | AFinish | AClosed.

(** The flush thread: the test of the loop, the lock, the predicate of the
    wait, going to sleep, asleep, awake with the lock, after [WriteChunk], and
    returned. *)
Inductive fpc := FTop | FLock | FPred | FSleep | FAsleep | FHold | FClear | FExit.

#[export] Instance apc_eq_dec : EqDecision apc.
Proof. solve_decision. Defined.
#[export] Instance fpc_eq_dec : EqDecision fpc.
Proof. solve_decision. Defined.

Section flush.
Context `{RecordProtos}.

Abbreviation writer := RecordFileWriter.t.
Abbreviation w_fd := RecordFileWriter.fd_.

(** [wrote], [given] and [calm] are histories: the items in the file, the
    messages given to [WriteMessage], and whether every swap so far found the
    flush chunk written. *)
Record state := mk {
  file_writer : writer;
  app : apc;
  flush_thread : fpc;
  wrote : list item;
  given : list SingleMessage.t;
  calm : bool
}.

Definition locked (f : fpc) : bool :=
  match f with FPred | FSleep | FHold | FClear => true | _ => false end.

(** [notify_one] and [notify_all]: one thread waits on the condition. *)
Definition notify (f : fpc) : fpc := if decide (f = FAsleep) then FLock else f.

Inductive label :=
| WriteMessage (m : SingleMessage.t)
| WriteChannel (c : Channel.t)
| Close
| AppStep
| FlushStep
| Spurious.

Definition flush_empty (w : writer) : bool := Chunk.empty (RecordFileWriter.chunk_flush_ w).

(** [chunk_flush_.swap(chunk_active_); flush_cv_.notify_one();] under the lock. *)
Definition swap_and_notify (next : apc) (s : state) : option state :=
  if locked (flush_thread s) then None
  else Some (mk (RecordFileWriter.swap_chunks (file_writer s)) next (notify (flush_thread s)) (wrote s) (given s)
               (calm s && flush_empty (file_writer s))).

Definition app_step (s : state) : option state :=
  let w := file_writer s in
  let to a := mk w a (flush_thread s) (wrote s) (given s) (calm s) in
  match app s with
  | ASwap => swap_and_notify AIdle s
  | AWait1 => Some (to (if flush_empty w then ALastSwap else AWait1))
  | ALastSwap => swap_and_notify AWait2 s
  | AWait2 => Some (to (if flush_empty w then AStop else AWait2))
  | AStop => Some (mk (RecordFileWriter.set_is_writing false w) ANotify (flush_thread s) (wrote s) (given s) (calm s))
  | ANotify => Some (mk w AJoin (notify (flush_thread s)) (wrote s) (given s) (calm s))
  | AJoin => if decide (flush_thread s = FExit) then Some (to AFinish) else None
  | AFinish =>
      let '(_, w) := RecordFileWriter.WriteIndex w in
      let h := Header.set_is_complete true (RecordFileWriter.header_ w) in
      let '(_, w) := RecordFileWriter.WriteHeader h w in
      Some (mk w AClosed (flush_thread s) (wrote s) (given s) (calm s))
  | AIdle | AClosed => None
  end.

Definition flush_step (s : state) : option state :=
  let w := file_writer s in
  let to f := Some (mk w (app s) f (wrote s) (given s) (calm s)) in
  match flush_thread s with
  | FTop => to (if RecordFileWriter.is_writing_ w then FLock else FExit)
  | FLock => to FPred
  | FPred => to (if negb (flush_empty w) || negb (RecordFileWriter.is_writing_ w) then FHold else FSleep)
  | FSleep => to FAsleep
  | FHold =>
      if negb (RecordFileWriter.is_writing_ w) then to FExit
      else if flush_empty w then to FTop
      else
        let c := RecordFileWriter.chunk_flush_ w in
        let '(_, w') := RecordFileWriter.WriteChunk (Chunk.header_ c) (Chunk.body_ c) w in
        Some (mk w' (app s) FClear (wrote s ++ [IChunk (Chunk.header_ c) (Chunk.body_ c)]) (given s) (calm s))
  | FClear =>
      Some (mk (RecordFileWriter.set_chunks (RecordFileWriter.chunk_active_ w) Chunk.clear w) (app s) FTop
              (wrote s) (given s) (calm s))
  | FAsleep | FExit => None
  end.

Definition step (l : label) (s : state) : option state :=
  let w := file_writer s in
  match l with
  | WriteMessage m =>
      if decide (app s = AIdle) then
        let '(need_flush, w') := RecordFileWriter.add_message m w in
        Some (mk w' (if need_flush then ASwap else AIdle) (flush_thread s) (wrote s) (given s ++ [m]) (calm s))
      else None
  | WriteChannel c =>
      if decide (app s = AIdle) then
        let '(_, w') := RecordFileWriter.WriteChannel c w in
        Some (mk w' AIdle (flush_thread s) (wrote s ++ [IChannel c]) (given s) (calm s))
      else None
  | Close =>
      if decide (app s = AIdle) then
        Some (mk w (if RecordFileWriter.is_writing_ w then AWait1 else AIdle) (flush_thread s) (wrote s) (given s) (calm s))
      else None
  | AppStep => app_step s
  | FlushStep => flush_step s
  | Spurious => if decide (flush_thread s = FAsleep) then Some (mk w (app s) FLock (wrote s) (given s) (calm s)) else None
  end.

(** [Open], then [WriteHeader(h)], on a file that held [old]. *)
Definition start (old : list Z) (limit : Z) (h : Header.t) : state :=
  let w := RecordFileWriter.Open old limit h (Index.mk []) ∅ in
  mk (snd (RecordFileWriter.WriteHeader h w)) AIdle FTop [] [] true.

(** ** Reference definitions *)
Definition item_messages (i : item) : list SingleMessage.t :=
  match i with IChannel _ => [] | IChunk _ b => ChunkBody.messages b end.
Definition messages_of (l : list item) : list SingleMessage.t := l ≫= item_messages.

Definition chunk_of (ms : list SingleMessage.t) : Chunk.t := foldl (λ c m, Chunk.add m c) Chunk.clear ms.
Definition chunk_messages (c : Chunk.t) : list SingleMessage.t := ChunkBody.messages (Chunk.body_ c).

(** A chunk in memory, and a chunk in the file. *)
Definition chunk_ok (c : Chunk.t) : Prop := c = chunk_of (chunk_messages c).
Definition item_ok (i : item) : Prop :=
  match i with
  | IChannel _ => True
  | IChunk h b => ChunkBody.messages b ≠ [] ∧ Chunk.mk h b = chunk_of (ChunkBody.messages b)
  end.

Definition bump (m : gmap string Z) (msg : SingleMessage.t) : gmap string Z :=
  let name := SingleMessage.channel_name msg in
  match m !! name with Some n => <[name := u64 (n + 1)]> m | None => <[name := 1]> m end.

(** What has been given and is not in the file yet. *)
Definition pending (s : state) : list SingleMessage.t :=
  (if decide (flush_thread s = FClear) then [] else chunk_messages (RecordFileWriter.chunk_flush_ (file_writer s))) ++
  chunk_messages (RecordFileWriter.chunk_active_ (file_writer s)).


(** ** Chunks *)
Lemma chunk_of_snoc ms m : chunk_of (ms ++ [m]) = Chunk.add m (chunk_of ms).
Proof. unfold chunk_of. by rewrite foldl_snoc. Qed.

Lemma chunk_of_messages ms : chunk_messages (chunk_of ms) = ms.
Proof.
  induction ms as [|m ms IH] using rev_ind; [done|]. rewrite chunk_of_snoc. cbn. unfold chunk_messages in IH. by rewrite IH.
Qed.

Lemma chunk_of_number ms : ChunkHeader.message_number (Chunk.header_ (chunk_of ms)) = u64 (Z.of_nat (length ms)).
Proof.
  induction ms as [|m ms IH] using rev_ind; [done|]. rewrite chunk_of_snoc. cbn. rewrite IH, u64_add_mod, length_app. cbn. f_equal. lia.
Qed.

Lemma chunk_ok_clear : chunk_ok Chunk.clear.
Proof. done. Qed.

Lemma chunk_ok_add m c : chunk_ok c → chunk_ok (Chunk.add m c).
Proof.
  unfold chunk_ok. intros Hc. change (chunk_messages (Chunk.add m c)) with (chunk_messages c ++ [m]).
  by rewrite chunk_of_snoc, <- Hc.
Qed.

Lemma chunk_ok_empty c : chunk_ok c → Z.of_nat (length (chunk_messages c)) < 2 ^ 64 → Chunk.empty c = bool_decide (chunk_messages c = []).
Proof.
  unfold chunk_ok, Chunk.empty. intros Hc Hl. rewrite Hc, chunk_of_number, chunk_of_messages, u64_small by lia.
  by destruct (chunk_messages c).
Qed.

Lemma chunk_of_wf ms : Forall wf ms → wf (Chunk.header_ (chunk_of ms)) ∧ wf (Chunk.body_ (chunk_of ms)).
Proof.
  intros Hms. split.
  - induction ms as [|m ms IH] using rev_ind; [by repeat constructor|].
    apply Forall_app in Hms as [Hms Hm]. specialize (IH Hms). rewrite Forall_singleton in Hm. destruct Hm as [Hm _].
    rewrite chunk_of_snoc. unfold wf, typed_chunk_header in *. rewrite !Forall_cons in *. destruct_and!. cbn -[uint64].
    split_and!; try apply uint64_u64; repeat case_match; done || by apply Forall_nil.
  - pose proof (chunk_of_messages ms) as Hb. unfold chunk_messages in Hb. unfold wf, typed_chunk_body. by rewrite Hb.
Qed.

(** The header of a chunk bounds the times of its messages. *)
Lemma chunk_of_bounds ms :
  Forall (λ m, 0 < SingleMessage.time m) ms →
  let h := Chunk.header_ (chunk_of ms) in
  Forall (λ m, ChunkHeader.begin_time h <= SingleMessage.time m <= ChunkHeader.end_time h) ms ∧
  (ms ≠ [] → 0 < ChunkHeader.begin_time h).
Proof.
  intros Hms. induction ms as [|m ms IH] using rev_ind; [done|].
  apply Forall_app in Hms as [Hms Hm]. rewrite Forall_singleton in Hm. specialize (IH Hms) as [IHb IHp].
  rewrite chunk_of_snoc. destruct (decide (ms = [])) as [->|Hne].
  - cbn. rewrite Forall_singleton. destruct (Z.ltb_spec 0 (SingleMessage.time m)); split; lia.
  - specialize (IHp Hne). set (c := chunk_of ms) in *. clearbody c. cbn. rewrite (proj2 (Z.eqb_neq _ _)) by lia. split.
    + apply Forall_app. rewrite Forall_singleton. split; [|repeat case_match; lia].
      eapply Forall_impl; [exact IHb|]. cbn. intros x Hx. repeat case_match; lia.
    + intros _. case_match; lia.
Qed.

Lemma messages_of_app l1 l2 : messages_of (l1 ++ l2) = messages_of l1 ++ messages_of l2.
Proof. apply bind_app. Qed.

Lemma messages_of_snoc l i : messages_of (l ++ [i]) = messages_of l ++ item_messages i.
Proof. rewrite messages_of_app. unfold messages_of at 2. cbn -[item_messages]. by rewrite app_nil_r. Qed.

(** ** The invariant *)

(** Where [Close] has got to: the flush chunk, the active chunk is empty. *)
Definition flush_done (a : apc) : bool :=
  match a with ALastSwap | AStop | ANotify | AJoin | AFinish | AClosed => true | _ => false end.
Definition active_done (a : apc) : bool :=
  match a with AWait2 | AStop | ANotify | AJoin | AFinish | AClosed => true | _ => false end.
Definition stopped (a : apc) : bool :=
  match a with ANotify | AJoin | AFinish | AClosed => true | _ => false end.
Definition joined (a : apc) : bool := match a with AFinish | AClosed => true | _ => false end.

Abbreviation flush_messages s := (chunk_messages (RecordFileWriter.chunk_flush_ (file_writer s))).
Abbreviation active_messages s := (chunk_messages (RecordFileWriter.chunk_active_ (file_writer s))).

Record inv (limit : Z) (h : Header.t) (old : list Z) (s : state) : Prop := {
  inv_limit : Posix.limit (w_fd (file_writer s)) = limit;
  inv_laid : app s ≠ AClosed → laid h h (wrote s) old (file_writer s);
  inv_closed : app s = AClosed →
    let m := RecordFileWriter.channel_message_number_map_ (file_writer s) in
    Forall wf_item (wrote s) ∧ wf (final_header m h (wrote s)) ∧
    Posix.content (w_fd (file_writer s)) = complete_file m h (wrote s) old;
  inv_active : chunk_ok (RecordFileWriter.chunk_active_ (file_writer s));
  inv_flush : chunk_ok (RecordFileWriter.chunk_flush_ (file_writer s));
  inv_flush_length : (length (flush_messages s) <= length (given s))%nat;
  inv_items : Forall item_ok (wrote s);
  inv_perm : messages_of (wrote s) ++ pending s ≡ₚ given s;
  inv_calm : calm s = true → messages_of (wrote s) ++ pending s = given s;
  inv_numbers : RecordFileWriter.channel_message_number_map_ (file_writer s) = foldl bump ∅ (given s);
  inv_clear : flush_thread s = FClear → flush_messages s ≠ [];
  inv_flush_done : flush_done (app s) → flush_messages s = [];
  inv_active_done : active_done (app s) → active_messages s = [];
  inv_writing : RecordFileWriter.is_writing_ (file_writer s) = negb (stopped (app s));
  inv_joined : joined (app s) → flush_thread s = FExit
}.

(** The file had room, and the counters did not wrap. *)
Definition fits (s : state) : Prop :=
  room (w_fd (file_writer s)) ∧ Z.of_nat (length (given s)) < 2 ^ 64 ∧ Forall wf (given s).

Lemma step_grows l s s' :
  step l s = Some s' → grows (w_fd (file_writer s)) (w_fd (file_writer s')) ∧ given s `prefix_of` given s'.
Proof.
  destruct l; cbn [step].
  - destruct (decide _); [|done]. unfold RecordFileWriter.add_message. intros [= <-]. cbn. split; [done|by eexists].
  - destruct (decide _); [|done]. pose proof (WriteChannel_grows c (file_writer s)) as Hg.
    destruct (RecordFileWriter.WriteChannel c (file_writer s)) as [ok w']. by intros [= <-].
  - destruct (decide _); [|done]. by intros [= <-].
  - unfold app_step, swap_and_notify. destruct (app s); try done; try (by intros [= <-]); try (case_match; [done|]; by intros [= <-]).
    + destruct (decide _); [|done]. by intros [= <-].
    + pose proof (WriteIndex_grows (file_writer s)) as Hg1. destruct (RecordFileWriter.WriteIndex (file_writer s)) as [ok1 w1].
      pose proof (WriteHeader_grows (Header.set_is_complete true (RecordFileWriter.header_ w1)) w1) as Hg2.
      destruct (RecordFileWriter.WriteHeader _ w1) as [ok2 w2]. intros [= <-]. cbn in *. split; [by etrans|done].
  - unfold flush_step. destruct (flush_thread s); try done; try (by intros [= <-]).
    destruct (negb _); [by intros [= <-]|]. destruct (flush_empty _); [by intros [= <-]|].
    set (c := RecordFileWriter.chunk_flush_ (file_writer s)).
    pose proof (WriteChunk_grows (Chunk.header_ c) (Chunk.body_ c) (file_writer s)) as Hg.
    destruct (RecordFileWriter.WriteChunk _ _ _) as [ok w']. by intros [= <-].
  - destruct (decide _); [|done]. by intros [= <-].
Qed.

Lemma step_fits l s s' : step l s = Some s' → fits s' → fits s.
Proof.
  intros Hs (Hr & Hl & Hw). apply step_grows in Hs as [Hg [k Hk]]. rewrite Hk in *.
  rewrite length_app in Hl. apply Forall_app in Hw as [Hw _].
  split_and!; [by apply (grows_room _ _ Hg)|lia|done].
Qed.


Section preservation.
Context `{!RecordProtoLaws} (limit : Z) (h : Header.t) (old : list Z) (Hlimit : limit <= 2 ^ 63).
Abbreviation Inv := (inv limit h old).

(** The threads move and the data stays. *)
Lemma inv_goto s a f :
  Inv s → app s ≠ AClosed → a ≠ AClosed → (f = FClear ↔ flush_thread s = FClear) →
  (flush_done a → flush_messages s = []) → (active_done a → active_messages s = []) →
  stopped a = stopped (app s) → (joined a → f = FExit) →
  Inv (mk (file_writer s) a f (wrote s) (given s) (calm s)).
Proof.
  intros [] Hs Ha Hf Hfl Hac Hst Hj.
  assert (pending (mk (file_writer s) a f (wrote s) (given s) (calm s)) = pending s) as Hp.
  { unfold pending. cbn. destruct (decide (f = FClear)), (decide (flush_thread s = FClear)); tauto. }
  constructor; cbn; try rewrite Hp; auto; try done; [tauto|congruence].
Qed.

Lemma empty_messages s :
  Inv s → fits s → flush_empty (file_writer s) = bool_decide (flush_messages s = []).
Proof.
  intros [] (_ & Hl & _). apply chunk_ok_empty; [done|]. lia.
Qed.

Lemma pending_message w a s m ms b need :
  RecordFileWriter.add_message m (file_writer s) = (need, w) →
  pending (mk w a (flush_thread s) (wrote s) ms b) = pending s ++ [m].
Proof.
  unfold RecordFileWriter.add_message. intros [= _ <-]. unfold pending. cbn. by rewrite <- app_assoc.
Qed.

Lemma message_inv m s s' : Inv s → fits s' → step (WriteMessage m) s = Some s' → Inv s'.
Proof.
  intros [] Hfit. cbn [step]. destruct (decide (app s = AIdle)) as [Ha|]; [|done].
  rewrite Ha in *. unfold RecordFileWriter.add_message. set (need := (_ || _) : bool). clearbody need.
  intros [= <-]. constructor; cbn; try (destruct need; done).
  - intros _. destruct (inv_laid0 ltac:(done)) as [? ? ? ?]. by split.
  - by apply chunk_ok_add.
  - rewrite length_app. cbn in *. lia.
  - rewrite (pending_message _ _ s m _ _ _ eq_refl), app_assoc. by apply Permutation_app_tail.
  - intros Hc. rewrite (pending_message _ _ s m _ _ _ eq_refl), app_assoc. f_equal. by apply inv_calm0.
  - rewrite foldl_snoc, <- inv_numbers0. done.
Qed.

Lemma channel_inv c s s' : Inv s → fits s' → step (WriteChannel c) s = Some s' → Inv s'.
Proof.
  intros [] (Hr & _). cbn [step]. destruct (decide (app s = AIdle)) as [Ha|]; [|done].
  rewrite Ha in *. destruct (RecordFileWriter.WriteChannel c (file_writer s)) as [ok w'] eqn:E.
  intros [= <-]. cbn in Hr.
  destruct (WriteChannel_laid h h _ _ c ok _ w' I (inv_laid0 ltac:(done)) E Hr) as (-> & Hlaid & Hw & Hac & Hfl & Hn & Hlim).
  constructor; cbn; unfold pending in *; cbn in *; rewrite ?Hac, ?Hfl, ?Hn, ?Hw, ?Hlim; try done.
  - apply Forall_app. split; [done|]. by apply Forall_singleton.
  - by rewrite messages_of_snoc, app_nil_r.
  - by rewrite messages_of_snoc, app_nil_r.
Qed.

Lemma swap_inv next s s' :
  Inv s → fits s → app s = ASwap ∧ next = AIdle ∨ app s = ALastSwap ∧ next = AWait2 →
  swap_and_notify next s = Some s' → Inv s'.
Proof.
  intros Hinv Hfit Hnext. unfold swap_and_notify. destruct (locked (flush_thread s)) eqn:Hlock; [done|]. intros [= <-].
  pose proof (empty_messages s Hinv Hfit) as He. destruct Hinv.
  assert (flush_thread s ≠ FClear) as Hnc by (intros E; by rewrite E in Hlock).
  assert (notify (flush_thread s) ≠ FClear) as Hnc' by (unfold notify; by case_decide).
  assert (app s ≠ AClosed) as Hns by (destruct Hnext as [[-> _]|[-> _]]; done).
  unfold pending in *. rewrite decide_False in inv_perm0, inv_calm0 by done.
  constructor; cbn; try done; try (by destruct Hnext as [[_ ->]|[_ ->]]).
  - intros _. destruct (inv_laid0 Hns) as [? ? ? ?]. by split.
  - apply Permutation_length in inv_perm0. rewrite !length_app in inv_perm0. lia.
  - unfold pending. cbn. rewrite decide_False by done. rewrite <- inv_perm0. by rewrite (Permutation_app_comm (flush_messages s)).
  - intros [Hc Hfe]%andb_true_iff. unfold pending. cbn. rewrite decide_False by done.
    rewrite He in Hfe. apply bool_decide_eq_true in Hfe. rewrite <- (inv_calm0 Hc), Hfe. by rewrite app_nil_r.
  - intros Hd. destruct Hnext as [[_ ->]|[Ha ->]]; [done|]. apply inv_flush_done0. by rewrite Ha.
  - rewrite inv_writing0. by destruct Hnext as [[-> ->]|[-> ->]].
Qed.


Lemma stop_inv s w' a :
  Inv s → stopped a = true → joined a = false → flush_messages s = [] → active_messages s = [] → app s ≠ AClosed →
  w' = RecordFileWriter.set_is_writing false (file_writer s) →
  Inv (mk w' a (flush_thread s) (wrote s) (given s) (calm s)).
Proof.
  intros [] Hst Hj Hfl Hac Hs ->. constructor; cbn; try done.
  - intros _. destruct (inv_laid0 Hs) as [? ? ? ?]. by split.
  - intros ->. by cbn in Hj.
  - by rewrite Hst.
  - by rewrite Hj.
Qed.

Lemma finish_inv s s' : Inv s → fits s' → app s = AFinish → app_step s = Some s' → Inv s'.
Proof.
  intros [] (Hr & _) Ha. unfold app_step. rewrite Ha in *.
  destruct (RecordFileWriter.WriteIndex (file_writer s)) as [ok1 w1] eqn:E1.
  destruct (RecordFileWriter.WriteHeader _ w1) as [ok2 w2] eqn:E2. intros [= <-]. cbn in Hr.
  assert (laid h h (wrote s) old (file_writer s)) as Hl by (by apply inv_laid0).
  assert (Posix.limit (w_fd (file_writer s)) <= 2 ^ 63) as Hlim0 by (by rewrite inv_limit0).
  destruct (finish_laid _ _ _ _ _ _ _ _ _ Hlim0 Hl E1 E2 Hr) as (-> & -> & Hwf & Hc & _ & Hw & Hac & Hfl & Hn & Hlim).
  constructor; cbn; unfold pending in *; cbn in *; rewrite ?Hac, ?Hfl, ?Hn, ?Hw, ?Hlim; try done.
  intros _. split_and!; [apply Hl|done|done].
Qed.

Lemma app_inv s s' : Inv s → fits s → fits s' → app_step s = Some s' → Inv s'.
Proof.
  intros Hinv Hfit Hfit' Hs. pose proof (empty_messages s Hinv Hfit) as He.
  unfold app_step in Hs. destruct (app s) eqn:Ha; try done.
  - by apply (swap_inv AIdle s); auto.
  - injection Hs as <-. rewrite He. pose proof Hinv as []. destruct (bool_decide_reflect (flush_messages s = []));
      apply inv_goto; rewrite ?Ha; done.
  - by apply (swap_inv AWait2 s); auto.
  - injection Hs as <-. rewrite He. pose proof Hinv as []. rewrite Ha in *.
    destruct (bool_decide_reflect (flush_messages s = [])); apply inv_goto; rewrite ?Ha; try done; auto.
  - injection Hs as <-. pose proof Hinv as []. rewrite Ha in *. apply stop_inv; rewrite ?Ha; auto.
  - injection Hs as <-. pose proof Hinv as []. rewrite Ha in *. apply inv_goto; rewrite ?Ha; auto; try done.
    unfold notify. case_decide as E; [|done]. by rewrite E.
  - destruct (decide (flush_thread s = FExit)) as [E|]; [|done]. injection Hs as <-. pose proof Hinv as []. rewrite Ha in *.
    apply inv_goto; rewrite ?Ha; auto; done.
  - apply (finish_inv s); [done..|]. unfold app_step. by rewrite Ha.
Qed.

Lemma flush_inv s s' : Inv s → fits s → fits s' → flush_step s = Some s' → Inv s'.
Proof.
  intros Hinv Hfit Hfit' Hs. pose proof (empty_messages s Hinv Hfit) as He.
  assert (flush_thread s ≠ FExit → joined (app s) = false) as Hnj.
  { intros Hne. destruct (joined (app s)) eqn:E; [|done]. destruct Hne. apply (inv_joined _ _ _ _ Hinv). by rewrite E. }
  unfold flush_step in Hs. destruct (flush_thread s) eqn:Hf; try done; specialize (Hnj ltac:(done)).
  all: assert (app s ≠ AClosed) as Hs0 by (intros E; by rewrite E in Hnj).
  all: pose proof Hinv as [].
  - injection Hs as <-. apply inv_goto; rewrite ?Hf, ?Hnj; auto; try done; by case_match.
  - injection Hs as <-. apply inv_goto; rewrite ?Hf, ?Hnj; auto; try done.
  - injection Hs as <-. apply inv_goto; rewrite ?Hf, ?Hnj; auto; try done; by case_match.
  - injection Hs as <-. apply inv_goto; rewrite ?Hf, ?Hnj; auto; try done.
  - destruct (negb (RecordFileWriter.is_writing_ (file_writer s))).
    { injection Hs as <-. apply inv_goto; rewrite ?Hf; auto; done. }
    rewrite He in Hs. destruct (bool_decide_reflect (flush_messages s = [])) as [Hemp|Hne].
    { injection Hs as <-. apply inv_goto; rewrite ?Hf, ?Hnj; auto; try done. }
    set (c := RecordFileWriter.chunk_flush_ (file_writer s)) in *.
    destruct (RecordFileWriter.WriteChunk (Chunk.header_ c) (Chunk.body_ c) (file_writer s)) as [ok w'] eqn:E.
    injection Hs as <-. destruct Hfit' as (Hr & _). cbn in Hr. unfold pending in *. rewrite Hf in *. rewrite decide_False in inv_perm0, inv_calm0 by done.
    assert (Forall wf (chunk_messages c)) as Hwf.
    { destruct Hfit as (_ & _ & Hwf). rewrite <- inv_perm0 in Hwf. by apply Forall_app in Hwf as [_ [Hwf _]%Forall_app]. }
    apply chunk_of_wf in Hwf. unfold chunk_ok in inv_flush0. rewrite <- inv_flush0 in Hwf. destruct Hwf as [Hw1 Hw2].
    destruct (WriteChunk_laid h h _ _ _ _ ok _ w' Hw1 Hw2 (inv_laid0 Hs0) E Hr) as (-> & Hlaid & Hw & Hac & Hfl & Hn & Hlim).
    constructor; cbn; unfold pending; cbn; rewrite ?Hac, ?Hfl, ?Hn, ?Hw, ?Hlim; try done.
    + apply Forall_app. split; [done|]. apply Forall_singleton. split; [done|]. by destruct c.
    + rewrite messages_of_snoc, <- app_assoc. done.
    + intros Hc. rewrite messages_of_snoc, <- app_assoc. by apply inv_calm0.
    + by rewrite Hnj.
  - injection Hs as <-. unfold pending in *. rewrite Hf in *. rewrite decide_True in inv_perm0, inv_calm0 by done.
    constructor; cbn; unfold pending; cbn; try done.
    + intros _. destruct (inv_laid0 Hs0) as [? ? ? ?]. by split.
    + lia.
    + by rewrite Hnj.
Qed.

Lemma flush_step_inv l s s' : Inv s → fits s → fits s' → step l s = Some s' → Inv s'.
Proof.
  intros Hinv Hfit Hfit'. destruct l.
  - by apply message_inv.
  - by apply channel_inv.
  - cbn [step]. destruct (decide (app s = AIdle)) as [Ha|]; [|done]. intros [= <-]. pose proof Hinv as []. rewrite Ha in *.
    rewrite inv_writing0. apply inv_goto; rewrite ?Ha; done.
  - by apply app_inv.
  - by apply flush_inv.
  - cbn [step]. destruct (decide (flush_thread s = FAsleep)) as [Hf|]; [|done]. intros [= <-]. pose proof Hinv as [].
    assert (joined (app s) = false) as Hj.
    { destruct (joined (app s)) eqn:E; [|done]. specialize (inv_joined0 I). congruence. }
    apply inv_goto; rewrite ?Hf, ?Hj; auto; try done. all: intros E; by rewrite E in Hj.
Qed.

Lemma start_inv : wf h → fits (start old limit h) → Inv (start old limit h).
Proof.
  intros Hwf (Hr & _). unfold start in *. set (w := RecordFileWriter.Open _ _ _ _ _) in *.
  destruct (RecordFileWriter.WriteHeader h w) as [ok w'] eqn:E. cbn [snd] in *.
  destruct (WriteHeader_laid h ok w w' Hwf eq_refl E Hr) as (-> & Hlaid & Hw & Hac & Hfl & Hn & Hlim).
  constructor; cbn; unfold pending; cbn; rewrite ?Hac, ?Hfl, ?Hn, ?Hw, ?Hlim; done.
Qed.

Lemma reachable_invariant s : wf h → reachable step (start old limit h) s → fits s → Inv s.
Proof.
  intros Hwf Hreach Hfit.
  assert (fits (start old limit h)) as Hfit0.
  { clear -Hreach Hfit. induction Hreach as [|s l s' _ IH Hs]; [done|]. apply IH. by apply (step_fits _ _ _ Hs). }
  revert Hreach Hfit. apply reachable_inv_while.
  - by apply start_inv.
  - intros l s1 s2. apply step_fits.
  - intros l s1 s2 HI HP1 HP2. by apply flush_step_inv.
Qed.

End preservation.

Lemma numbers_count ms name :
  Z.of_nat (length ms) < 2 ^ 64 →
  default 0 (foldl bump ∅ ms !! name) = Z.of_nat (length (filter (λ m, SingleMessage.channel_name m = name) ms)).
Proof.
  induction ms as [|m ms IH] using rev_ind; [done|]. rewrite length_app. cbn [length]. intros Hl. specialize (IH ltac:(lia)).
  rewrite foldl_snoc, filter_app, length_app. set (mp := foldl bump ∅ ms) in *. clearbody mp. unfold bump.
  pose proof (length_filter (λ m, SingleMessage.channel_name m = name) ms) as Hle.
  rewrite filter_cons, filter_nil. destruct (decide (SingleMessage.channel_name m = name)) as [->|Hne]; cbn [length].
  - destruct (mp !! name) as [n|] eqn:E; rewrite lookup_insert_eq; cbn in *; [rewrite u64_small by lia|]; lia.
  - rewrite Nat.add_0_r, <- IH. by destruct (mp !! SingleMessage.channel_name m); rewrite lookup_insert_ne.
Qed.


Lemma note_headers_number h l :
  Forall item_ok l →
  u64 (Header.message_number (foldl note_header h l)) =
  u64 (Header.message_number h + Z.of_nat (length (messages_of l))).
Proof.
  intros Hl. revert h. induction Hl as [|i l Hi _ IH]; intros h; [by rewrite Z.add_0_r|]. cbn [foldl]. rewrite IH.
  change (messages_of (i :: l)) with (item_messages i ++ messages_of l). rewrite length_app.
  destruct i as [c|ch cb]; cbn [note_header item_messages]; [done|].
  destruct Hi as [_ Hi].
  assert (ChunkHeader.message_number ch = u64 (Z.of_nat (length (ChunkBody.messages cb)))) as Hn.
  { change ch with (Chunk.header_ (Chunk.mk ch cb)). by rewrite Hi, chunk_of_number. }
  cbn -[u64]. set (mn := Header.message_number (if _ =? 0 then _ else _)).
  assert (mn = Header.message_number h) as -> by (unfold mn; by case_match).
  rewrite Hn, Nat2Z.inj_add, u64_add_mod.
  replace (Header.message_number h + u64 (Z.of_nat (length (ChunkBody.messages cb))) + Z.of_nat (length (messages_of l)))
    with (u64 (Z.of_nat (length (ChunkBody.messages cb))) + (Header.message_number h + Z.of_nat (length (messages_of l)))) by lia.
  rewrite u64_add_mod. f_equal. lia.
Qed.

(** C9: what a closed record file holds.  Whatever the interleaving of the
    recording and the flush thread, and whatever the file held before, as long
    as the disk has room: the bytes are a complete record file whose items are
    the channels and chunks written; every chunk's header is that of its
    messages; every message that was given to [WriteMessage] is in exactly one
    chunk, and they are in the order in which they were given if no swap found
    the flush chunk still to be written; the header counts them, and
    [GetMessageNumber] counts those of each channel. *)
Theorem record_file_complete `{!RecordProtoLaws} old limit h s :
  limit <= 2 ^ 63 → wf h → Header.message_number h = 0 →
  reachable step (start old limit h) s → fits s → app s = AClosed →
  let w := file_writer s in
  let m := RecordFileWriter.channel_message_number_map_ w in
  Posix.content (w_fd w) = complete_file m h (wrote s) old ∧
  Forall item_ok (wrote s) ∧
  messages_of (wrote s) ≡ₚ given s ∧
  (calm s = true → messages_of (wrote s) = given s) ∧
  Header.message_number (final_header m h (wrote s)) = Z.of_nat (length (given s)) ∧
  (∀ name, RecordFileWriter.GetMessageNumber name w =
     Z.of_nat (length (filter (λ x, SingleMessage.channel_name x = name) (given s)))).
Proof.
  intros Hlimit Hwf Hzero Hreach Hfit Ha w m.
  pose proof (reachable_invariant limit h old Hlimit s Hwf Hreach Hfit) as [].
  rewrite Ha in *. destruct (inv_closed0 eq_refl) as (_ & Hfwf & Hc). destruct Hfit as (_ & Hl & _).
  assert (pending s = []) as Hp.
  { unfold pending. rewrite (inv_flush_done0 I), (inv_active_done0 I). by case_decide. }
  rewrite Hp, app_nil_r in *. split_and!; [done..| |].
  - assert (uint64 (Header.message_number (final_header m h (wrote s)))) as Hu.
    { unfold wf, typed_header in Hfwf. rewrite !Forall_cons in Hfwf. by destruct_and!. }
    rewrite <- (u64_small _ Hu). change (Header.message_number (final_header m h (wrote s))) with (Header.message_number (foldl note_header h (wrote s))).
    rewrite note_headers_number, Hzero by done. rewrite (Permutation_length inv_perm0). by rewrite u64_small by lia.
  - intros name. unfold RecordFileWriter.GetMessageNumber, w. rewrite inv_numbers0. by apply numbers_count.
Qed.

(** What the sections leave alone, also when the disk is full. *)
Lemma WriteSection_keeps {T} `{Proto T, HasSection T} (m : T) w :
  let w' := snd (RecordFileWriter.WriteSection m w) in
  RecordFileWriter.is_writing_ w' = RecordFileWriter.is_writing_ w ∧
  RecordFileWriter.chunk_active_ w' = RecordFileWriter.chunk_active_ w ∧
  RecordFileWriter.chunk_flush_ w' = RecordFileWriter.chunk_flush_ w.
Proof. unfold RecordFileWriter.WriteSection, RecordFileWriter.SetPosition. repeat (case_match; cbn -[Header.set_size] in *; simplify_eq; try done). Qed.

Definition hang_schedule : list label :=
  [FlushStep; Close; AppStep; AppStep; FlushStep; FlushStep; AppStep; AppStep; AppStep; FlushStep].

(** [Close] can wait for ever.  It clears [is_writing_] and notifies without
    holding the lock; between the flush thread's test of the predicate and its
    going to sleep the notification is lost, the thread sleeps, and [join] waits
    for it: from there only a spurious wake-up helps.  It takes an opened file
    and a call of [Close], whatever the disk. *)
Theorem record_close_hangs old limit h :
  ∃ s, run step hang_schedule (start old limit h) = Some s ∧
    app s = AJoin ∧ flush_thread s = FAsleep ∧ ∀ l, l ≠ Spurious → step l s = None.
Proof.
  unfold start. set (w := RecordFileWriter.Open _ _ _ _ _).
  pose proof (WriteSection_keeps h (RecordFileWriter.set_header h w)) as Hk.
  change (RecordFileWriter.WriteSection h (RecordFileWriter.set_header h w)) with (RecordFileWriter.WriteHeader h w) in Hk.
  destruct Hk as (Hw & Ha & Hf). set (w' := snd (RecordFileWriter.WriteHeader h w)) in *. clearbody w'.
  destruct w' as [fd hd ix wr ac fl nm]. cbn in Hw, Ha, Hf. subst.
  exists (mk (RecordFileWriter.mk fd hd ix false Chunk.clear Chunk.clear nm) AJoin FAsleep [] [] true).
  split; [vm_compute; reflexivity|]. split; [reflexivity|]. split; [reflexivity|]. intros [] Hl; reflexivity || done.
Qed.

End flush.

(** ** A recording *)
Module Sample.
Import SampleProtos.

Definition hello : SingleMessage.t := SingleMessage.mk "/a" 5 [1; 2].
Definition world : SingleMessage.t := SingleMessage.mk "/a" 9 [3; 4].
Definition no_limits : Header.t := HeaderBuilder.GetHeaderWithChunkParams 0 0.
Definition tiny_chunks : Header.t := HeaderBuilder.GetHeaderWithChunkParams 0 1.

Definition closing : list label :=
  [Close; AppStep; AppStep; FlushStep; FlushStep; FlushStep; FlushStep; FlushStep; AppStep; AppStep; AppStep;
   FlushStep; AppStep; AppStep].
Definition calm_schedule : list label :=
  [WriteChannel (Channel.mk "/a" "T" ""); WriteMessage hello; WriteMessage world] ++ closing.

Definition outcome (ls : list label) (h : Header.t) : option state := run step ls (start [7; 7; 7] (2 ^ 62) h).
Definition recorded : state := default (start [] 0 no_limits) (outcome calm_schedule no_limits).

Lemma recorded_run : run step calm_schedule (start [7; 7; 7] (2 ^ 62) no_limits) = Some recorded.
Proof. vm_compute. reflexivity. Qed.

Lemma record_file_complete_witness :
  app recorded = AClosed ∧ calm recorded = true ∧ Permutation (messages_of (wrote recorded)) [hello; world] ∧
  RecordFileWriter.GetMessageNumber "/a" (file_writer recorded) = 2.
Proof.
  assert (reachable step (start [7; 7; 7] (2 ^ 62) no_limits) recorded) as Hreach.
  { apply (run_reachable step _ calm_schedule). exact recorded_run. }
  assert (fits recorded) as Hfit.
  { split_and!; [vm_compute; reflexivity|vm_compute; reflexivity|].
    assert (given recorded = [hello; world]) as -> by (vm_compute; reflexivity).
    repeat constructor; discriminate. }
  destruct (record_file_complete [7; 7; 7] (2 ^ 62) no_limits recorded) as (_ & _ & Hp & _ & _ & Hn);
    [lia|repeat constructor; discriminate|reflexivity|exact Hreach|exact Hfit|vm_compute; reflexivity|].
  split_and!; [vm_compute; reflexivity..|exact Hp|]. rewrite Hn. vm_compute. reflexivity.
Defined.

(** The flush thread comes late: the second swap takes the first chunk back. *)
Definition late_schedule : list label :=
  [WriteMessage hello; AppStep; WriteMessage world; AppStep] ++
  [FlushStep; FlushStep; FlushStep; FlushStep; FlushStep] ++ closing.
Definition swapped : state := default (start [] 0 tiny_chunks) (outcome late_schedule tiny_chunks).

(** Chunks can be written in the wrong order.  When a chunk is full before
    the flush thread has written the one before it, the swap makes the earlier
    chunk the active one again: it is written last, and the complete file's
    header says that the recording begins after it ends. *)
Theorem record_chunks_swapped :
  reachable step (start [7; 7; 7] (2 ^ 62) tiny_chunks) swapped ∧
  app swapped = AClosed ∧ given swapped = [hello; world] ∧ messages_of (wrote swapped) = [world; hello] ∧
  (let h := RecordFileWriter.header_ (file_writer swapped) in
   Header.is_complete h = true ∧ Header.begin_time h = 9 ∧ Header.end_time h = 5).
Proof.
  split.
  - apply (run_reachable step _ late_schedule). vm_compute. reflexivity.
  - vm_compute. split_and!; reflexivity.
Qed.
End Sample.
End RecordFlush.
