(* ===== verification/Record.v ===== *)
(** * Reading a record ([cyber/record/record_reader.cc])

    [RecordReader]: the operations.  [Stream]: what they do to a file that is
    laid out as a record - a reader that walks a list of sections - and what
    that means for a recording whose messages are in the order of their
    times. *)

From stdpp Require Import sorting.
From S2P Require Import Prelude RecordFile RecordFlush.
Import Layout.

Local Open Scope Z_scope.

Module RecordReader.
Section reader.
Context `{RecordProtos}.

Record t := mk {
  file_reader_ : RecordFileReader.t;
  is_valid_ : bool;
  reach_end_ : bool;
  flush_mode_ : bool;
  chunk_ : ChunkBody.t;
  message_index_ : nat;
  header_ : Header.t;
  channel_info_ : gmap string ChannelCache.t
}.

Definition set_file_reader (f : RecordFileReader.t) (r : t) : t :=
  mk f (is_valid_ r) (reach_end_ r) (flush_mode_ r) (chunk_ r) (message_index_ r) (header_ r) (channel_info_ r).
Definition set_reach_end (b : bool) (r : t) : t :=
  mk (file_reader_ r) (is_valid_ r) b (flush_mode_ r) (chunk_ r) (message_index_ r) (header_ r) (channel_info_ r).
Definition set_chunk (c : ChunkBody.t) (r : t) : t :=
  mk (file_reader_ r) (is_valid_ r) (reach_end_ r) (flush_mode_ r) c (message_index_ r) (header_ r) (channel_info_ r).
Definition set_message_index (n : nat) (r : t) : t :=
  mk (file_reader_ r) (is_valid_ r) (reach_end_ r) (flush_mode_ r) (chunk_ r) n (header_ r) (channel_info_ r).

Definition no_file : RecordFileReader.t :=
  RecordFileReader.mk (Posix.mk [] 0 0) (Header.mk 0 0 0 0 0 0 0 0 0 0 0 0 false 0 0) (Index.mk []) false.

(** The loop of the constructor over the index; [insert] keeps the first. *)
Definition channel_info (x : Index.t) : gmap string ChannelCache.t :=
  foldl (λ m i,
    match SingleIndex.type i, SingleIndex.cache_ i with
    | SECTION_CHANNEL, Some (channel_cache c) =>
        match m !! ChannelCache.name c with Some _ => m | None => <[ChannelCache.name c := c]> m end
    | _, _ => m
    end) ∅ (Index.indexes x).

(** The constructor, on the contents of the file if it exists. *)
Definition RecordReader (flush_mode : bool) (file : option (list Z)) : t :=
  let '(ok, f) := RecordFileReader.Open file no_file in
  if negb ok then mk f false false flush_mode (ChunkBody.mk []) 0 (Header.mk 0 0 0 0 0 0 0 0 0 0 0 0 false 0 0) ∅
  else
    let h := RecordFileReader.header_ f in
    let '(indexed, f) := RecordFileReader.ReadIndex f in
    let info := if indexed : bool then channel_info (RecordFileReader.index_ f) else ∅ in
    let '(_, f) := RecordFileReader.Reset f in
    mk f true false flush_mode (ChunkBody.mk []) 0 h info.

Definition Reset (r : t) : t :=
  let '(_, f) := RecordFileReader.Reset (file_reader_ r) in
  set_chunk (ChunkBody.mk []) (set_message_index 0 (set_reach_end false (set_file_reader f r))).

Definition GetChannelList (r : t) : gset string := dom (channel_info_ r).

(** The loop of [ReadNextChunk]; [None] when the fuel runs out. *)
Fixpoint next_chunk (fuel : nat) (skip_next_chunk_body : bool) (begin_time end_time : Z) (r : t) : option (bool * t) :=
  match fuel with
  | O => None
  | S fuel =>
      if reach_end_ r then Some (false, r)
      else
        let '(section, f) := RecordFileReader.ReadSection (file_reader_ r) in
        let r := set_file_reader f r in
        match section with
        | None => Some (false, r)
        | Some s =>
            match section_of_number (Section_.type s) with
            | Some SECTION_INDEX =>
                let '(_, f) := RecordFileReader.SkipSection (Section_.size s) (file_reader_ r) in
                next_chunk fuel skip_next_chunk_body begin_time end_time (set_reach_end true (set_file_reader f r))
            | Some SECTION_CHANNEL =>
                let '(ok, _, f) := RecordFileReader.ReadMessageSection (T := Channel.t) (Section_.size s) (file_reader_ r) in
                let r := set_file_reader f r in
                if negb ok then Some (false, r) else next_chunk fuel skip_next_chunk_body begin_time end_time r
            | Some SECTION_CHUNK_HEADER =>
                let '(ok, header, f) := RecordFileReader.ReadMessageSection (T := ChunkHeader.t) (Section_.size s) (file_reader_ r) in
                let r := set_file_reader f r in
                let header := default (ChunkHeader.mk 0 0 0 0) header in
                if negb ok then Some (false, r)
                else
                  let skip := if ChunkHeader.end_time header <? begin_time then true else skip_next_chunk_body in
                  if end_time <? ChunkHeader.begin_time header then Some (false, r)
                  else next_chunk fuel skip begin_time end_time r
            | Some SECTION_CHUNK_BODY =>
                if skip_next_chunk_body then
                  let '(_, f) := RecordFileReader.SkipSection (Section_.size s) (file_reader_ r) in
                  next_chunk fuel false begin_time end_time (set_file_reader f r)
                else
                  let chunk := if flush_mode_ r then ChunkBody.mk [] else chunk_ r in
                  let '(ok, body, f) := RecordFileReader.ReadMessageSection (T := ChunkBody.t) (Section_.size s) (file_reader_ r) in
                  Some (ok, set_chunk (default chunk body) (set_file_reader f r))
            | Some SECTION_HEADER | None => Some (false, r)
            end
        end
  end.

Definition ReadNextChunk (fuel : nat) (begin_time end_time : Z) (r : t) : option (bool * t) :=
  next_chunk fuel false begin_time end_time r.

(** The loop of [ReadMessage] over what is left of the chunk. *)
Inductive scanned :=
| Found (m : SingleMessage.t) (n : nat)
| Late (n : nat)
| Exhausted (n : nat).

Fixpoint scan (begin_time end_time : Z) (ms : list SingleMessage.t) (n : nat) : scanned :=
  match ms with
  | [] => Exhausted n
  | m :: ms =>
      let time := SingleMessage.time m in
      if end_time <? time then Late n
      else if time <? begin_time then scan begin_time end_time ms (S n)
      else Found m (S n)
  end.

Fixpoint ReadMessage (fuel : nat) (begin_time end_time : Z) (r : t) : option (option SingleMessage.t * t) :=
  match fuel with
  | O => None
  | S fuel' =>
      if negb (is_valid_ r) then Some (None, r)
      else if (Header.end_time (header_ r) <? begin_time) || (end_time <? Header.begin_time (header_ r)) then Some (None, r)
      else
        match scan begin_time end_time (drop (message_index_ r) (ChunkBody.messages (chunk_ r))) (message_index_ r) with
        | Found m n => Some (Some m, set_message_index n r)
        | Late n => Some (None, set_message_index n r)
        | Exhausted n =>
            match ReadNextChunk fuel begin_time end_time (set_message_index n r) with
            | None => None
            | Some (true, r) => ReadMessage fuel' begin_time end_time (set_message_index 0 r)
            | Some (false, r) => Some (None, r)
            end
        end
  end.

Definition GetMessageNumber (channel_name : string) (r : t) : Z :=
  match channel_info_ r !! channel_name with Some c => ChannelCache.message_number c | None => 0 end.
Definition GetMessageType (channel_name : string) (r : t) : string :=
  match channel_info_ r !! channel_name with Some c => ChannelCache.message_type c | None => "" end.
Definition GetProtoDesc (channel_name : string) (r : t) : string :=
  match channel_info_ r !! channel_name with Some c => ChannelCache.proto_desc c | None => "" end.

End reader.
End RecordReader.

(** ** The reader as a walk over a list of sections *)
Module Stream.
Section stream.
Context `{RecordProtos}.
Abbreviation reader := RecordReader.t.
Abbreviation time := SingleMessage.time.

Inductive section :=
| SChannel (c : Channel.t)
| SHead (h : ChunkHeader.t)
| SBody (b : ChunkBody.t).

Definition enc_section (s : section) : list Z :=
  match s with SChannel c => enc c | SHead h => enc h | SBody b => enc b end.
Definition enc_sections (l : list section) : list Z := l ≫= enc_section.
Definition item_sections (i : item) : list section :=
  match i with IChannel c => [SChannel c] | IChunk h b => [SHead h; SBody b] end.

(** [ReadNextChunk]: the next chunk to look at, and the sections left. *)
Fixpoint next (b e : Z) (skip : bool) (l : list section) : option (list SingleMessage.t) * list section :=
  match l with
  | [] => (None, [])
  | SChannel _ :: l => next b e skip l
  | SHead h :: l =>
      let skip := if ChunkHeader.end_time h <? b then true else skip in
      if e <? ChunkHeader.begin_time h then (None, l) else next b e skip l
  | SBody x :: l => if skip then next b e false l else (Some (ChunkBody.messages x), l)
  end.

(** [ReadMessage]: [ms] is what is left of the chunk. *)
Fixpoint scan (b e : Z) (ms : list SingleMessage.t) : option (option SingleMessage.t * list SingleMessage.t) :=
  match ms with
  | [] => None
  | m :: ms' =>
      if e <? time m then Some (None, ms)
      else if time m <? b then scan b e ms'
      else Some (Some m, ms')
  end.

Fixpoint read (fuel : nat) (b e : Z) (ms : list SingleMessage.t) (l : list section) :
    option SingleMessage.t * list SingleMessage.t * list section :=
  match scan b e ms with
  | Some (m, ms) => (m, ms, l)
  | None =>
      match next b e false l with
      | (None, l) => (None, [], l)
      | (Some ms, l) => match fuel with O => (None, ms, l) | S fuel => read fuel b e ms l end
      end
  end.

(** The messages still to come. *)
Definition section_messages (s : section) : list SingleMessage.t :=
  match s with SBody b => ChunkBody.messages b | _ => [] end.
Definition coming (ms : list SingleMessage.t) (l : list section) : list SingleMessage.t :=
  ms ++ (l ≫= section_messages).


(** *** The reader and the walk agree *)
Abbreviation fr := RecordReader.file_reader_.
Abbreviation r_fd := RecordFileReader.fd_.

Definition section_ok (s : section) : Prop :=
  match s with SChannel c => wf c ∧ small c | SHead h => wf h ∧ small h | SBody b => wf b ∧ small b end.

(** What does not change while a record is read. *)
Definition same_record (r r' : reader) : Prop :=
  RecordReader.is_valid_ r' = RecordReader.is_valid_ r ∧ RecordReader.header_ r' = RecordReader.header_ r ∧
  RecordReader.channel_info_ r' = RecordReader.channel_info_ r ∧ Posix.content (r_fd (fr r')) = Posix.content (r_fd (fr r)).

#[export] Instance same_record_preorder : PreOrder same_record.
Proof. unfold same_record. split; [done|]. intros r1 r2 r3 (? & ? & ? & ?) (? & ? & ? & ?). split_and!; congruence. Qed.

(** The reader is in front of the sections [l], the index [x] and whatever the
    file held before; or it has read the index, and no section is left. *)
Definition in_front (l : list section) (x : Index.t) (stale : list Z) (r : reader) : Prop :=
  Forall section_ok l ∧ small x ∧ Z.of_nat (length (Posix.content (r_fd (fr r)))) < 2 ^ 63 ∧
  if RecordReader.reach_end_ r then l = []
  else ∃ pre, stands pre (enc_sections l ++ enc x ++ stale) (fr r).

Lemma in_front_cons s l x stale r :
  in_front (s :: l) x stale r →
  ∃ pre, stands pre (enc_section s ++ (enc_sections l ++ enc x ++ stale)) (fr r) ∧ RecordReader.reach_end_ r = false ∧
    Forall section_ok l ∧ section_ok s ∧ small x ∧ Z.of_nat (length (Posix.content (r_fd (fr r)))) < 2 ^ 63.
Proof.
  intros (Hl & Hx & Hn & Hr). destruct (RecordReader.reach_end_ r); [done|]. destruct Hr as [pre Hr].
  apply Forall_cons in Hl as [Hs Hl]. exists pre. split_and!; try done.
  change (enc_sections (s :: l)) with (enc_section s ++ enc_sections l) in Hr. by rewrite <- app_assoc in Hr.
Qed.

Lemma in_front_moved pre (bs : list Z) l x stale r r' :
  stands pre (bs ++ (enc_sections l ++ enc x ++ stale)) (fr r) → fr r' = move (length bs) (fr r) →
  RecordReader.reach_end_ r' = false → Forall section_ok l → small x →
  Z.of_nat (length (Posix.content (r_fd (fr r)))) < 2 ^ 63 → in_front l x stale r'.
Proof.
  intros Hs Hr' Hend Hl Hx Hn. unfold in_front. rewrite Hend, Hr'. split_and!; [done..|].
  exists (pre ++ bs). by apply stands_move.
Qed.

Lemma stands_short pre bs rest (f : RecordFileReader.t) :
  stands pre (bs ++ rest) f → Z.of_nat (length (Posix.content (r_fd f))) < 2 ^ 63 → Z.of_nat (length (pre ++ bs)) < 2 ^ 63.
Proof. intros [Hc _]. rewrite Hc, !length_app. lia. Qed.

Context `{!RecordProtoLaws}.

Lemma section_of_number_of ty : section_of_number (section_number ty) = Some ty.
Proof. by destruct ty. Qed.

Lemma next_chunk_sim l x stale b e : ∀ fuel skip r,
  in_front l x stale r → (length l + 2 <= fuel)%nat →
  ∃ ok r', RecordReader.next_chunk fuel skip b e r = Some (ok, r') ∧ same_record r r' ∧
    match next b e skip l with
    | (Some ms, l') => ok = true ∧ in_front l' x stale r' ∧ ChunkBody.messages (RecordReader.chunk_ r') = ms
    | (None, l') => ok = false ∧ in_front l' x stale r' ∧ RecordReader.chunk_ r' = RecordReader.chunk_ r ∧
        RecordReader.message_index_ r' = RecordReader.message_index_ r
    end.
Proof.
  induction l as [|s l IH]; intros fuel skip r Hr Hfuel.
  - destruct fuel as [|[|fuel]]; [cbn in Hfuel; lia..|]. cbn [RecordReader.next_chunk next].
    destruct (RecordReader.reach_end_ r) eqn:Hend.
    { exists false, r. by split_and!. }
    destruct Hr as (Hl & Hx & Hn & Hr). rewrite Hend in Hr. destruct Hr as [pre Hr]. cbn [enc_sections mbind list_bind app] in Hr.
    rewrite (ReadSection_enc x pre stale) by done. cbn [Section_.type Section_.size].
    rewrite section_of_number_of. cbn [section_type index_section RecordReader.set_file_reader RecordReader.file_reader_].
    rewrite (SkipSection_enc x pre stale) by (done || by apply (stands_short pre _ stale (fr r))).
    cbn [RecordReader.set_reach_end RecordReader.reach_end_].
    eexists false, _. split; [done|]. split; [by split_and!|]. split; [done|]. split; [|done]. by split_and!.
  - destruct fuel as [|fuel]; [cbn in Hfuel; lia|]. cbn [RecordReader.next_chunk length] in *.
    apply in_front_cons in Hr as (pre & Hst & Hend & Hl & Hs & Hx & Hn). rewrite Hend.
    destruct s as [c|h|body]; cbn [enc_section section_ok] in Hst, Hs; destruct Hs as [Hwf Hsmall].
    + rewrite (ReadSection_enc c pre _) by done. cbn [Section_.type Section_.size]. rewrite section_of_number_of.
      cbn [section_type channel_section RecordReader.set_file_reader RecordReader.file_reader_].
      rewrite (ReadMessageSection_enc c pre _ (fr r)) by done. cbn [negb next].
      match goal with |- context [RecordReader.next_chunk fuel skip b e ?x] => set (r1 := x) end.
      assert (in_front l x stale r1) as Hr1 by (by apply (in_front_moved pre (enc c) _ _ _ r)).
      destruct (IH fuel skip r1 Hr1 ltac:(lia)) as (ok & r' & -> & Hsame & Hres).
      exists ok, r'. split; [done|]. split; [etrans; [|exact Hsame]; by split_and!|]. exact Hres.
    + rewrite (ReadSection_enc h pre _) by done. cbn [Section_.type Section_.size]. rewrite section_of_number_of.
      cbn [section_type chunk_header_section RecordReader.set_file_reader RecordReader.file_reader_].
      rewrite (ReadMessageSection_enc h pre _ (fr r)) by done. cbn [negb next default from_option].
      match goal with |- context [RecordReader.next_chunk fuel _ b e ?x] => set (r1 := x) end.
      assert (in_front l x stale r1) as Hr1 by (by apply (in_front_moved pre (enc h) _ _ _ r)).
      assert (same_record r r1) as Hr01 by (by split_and!).
      cbn [id]. destruct (e <? ChunkHeader.begin_time h); [by exists false, r1|].
      destruct (IH fuel (if ChunkHeader.end_time h <? b then true else skip) r1 Hr1 ltac:(lia)) as (ok & r' & -> & Hsame & Hres).
      exists ok, r'. split; [done|]. split; [by etrans|]. exact Hres.
    + rewrite (ReadSection_enc body pre _) by done. cbn [Section_.type Section_.size]. rewrite section_of_number_of.
      cbn [section_type chunk_body_section RecordReader.set_file_reader RecordReader.file_reader_ next].
      destruct skip.
      * rewrite (SkipSection_enc body pre _) by (done || by eapply (stands_short pre _ _ (fr r))).
        match goal with |- context [RecordReader.next_chunk fuel _ b e ?x] => set (r1 := x) end.
        assert (in_front l x stale r1) as Hr1 by (by apply (in_front_moved pre (enc body) _ _ _ r)).
        destruct (IH fuel false r1 Hr1 ltac:(lia)) as (ok & r' & -> & Hsame & Hres).
        exists ok, r'. split; [done|]. split; [etrans; [|exact Hsame]; by split_and!|]. exact Hres.
      * rewrite (ReadMessageSection_enc body pre _ (fr r)) by done.
        eexists true, _. split; [done|]. split; [by split_and!|]. split_and!; [done| |done].
        by apply (in_front_moved pre (enc body) _ _ _ r).
Qed.


Lemma scan_sim b e ms n :
  RecordReader.scan b e ms n =
  match scan b e ms with
  | None => RecordReader.Exhausted (n + length ms)
  | Some (Some m, ms') => RecordReader.Found m (n + (length ms - length ms'))
  | Some (None, ms') => RecordReader.Late (n + (length ms - length ms'))
  end.
Proof.
  revert n. induction ms as [|m ms IH]; intros n; cbn [RecordReader.scan scan length]; [f_equal; lia|].
  destruct (e <? time m); [f_equal; cbn; lia|].
  assert (∀ ms', scan b e ms = Some ms' → (length ms'.2 <= length ms)%nat) as Hle.
  { clear. induction ms as [|m ms IH]; intros ms'; cbn; [done|]. destruct (e <? time m); [by intros [= <-]|].
    destruct (time m <? b); [intros Hs; apply IH in Hs; lia|]. intros [= <-]. cbn. lia. }
  destruct (time m <? b); [|f_equal; lia]. rewrite IH.
  destruct (scan b e ms) as [[[m'|] ms']|]; [..|f_equal; lia]; specialize (Hle _ eq_refl); cbn in Hle; f_equal; lia.
Qed.

Lemma scan_drop b e (c : list SingleMessage.t) i o ms' :
  scan b e (drop i c) = Some (o, ms') → drop (i + (length (drop i c) - length ms')) c = ms'.
Proof.
  remember (drop i c) as l eqn:El. revert i El. induction l as [|m l IH]; intros i El; cbn [scan]; [done|].
  assert (l = drop (S i) c) as El'.
  { replace (S i) with (i + 1)%nat by lia. rewrite <- drop_drop, <- El. done. }
  destruct (e <? time m); [intros [= <- <-]; cbn [length]; replace (i + _)%nat with i by lia; done|].
  destruct (time m <? b).
  - intros Hs. pose proof (IH (S i) El' Hs) as Hd.
    assert (length ms' <= length l)%nat as Hle.
    { apply (f_equal length) in Hd, El'. rewrite length_drop in Hd, El'. lia. }
    rewrite <- Hd at 2. f_equal. cbn [length]. lia.
  - intros [= <- <-]. replace (i + (length (m :: l) - length l))%nat with (S i) by (cbn [length]; lia). done.
Qed.

(** The reader has [ms] left of its chunk, and [l] after it. *)
Definition reads (ms : list SingleMessage.t) (l : list section) (x : Index.t) (stale : list Z) (r : reader) : Prop :=
  RecordReader.is_valid_ r = true ∧ in_front l x stale r ∧
  drop (RecordReader.message_index_ r) (ChunkBody.messages (RecordReader.chunk_ r)) = ms.

(** The reader's first test: is the recording outside the window? *)
Definition outside (b e : Z) (h : Header.t) : bool := (Header.end_time h <? b) || (e <? Header.begin_time h).

Lemma next_shorter b e : ∀ l skip ms' l', next b e skip l = (Some ms', l') → (length l' < length l)%nat.
Proof.
  induction l as [|[c|h|body] l IH]; intros skip ms' l'; cbn [next length]; [done| | |].
  - intros Hn. apply IH in Hn. lia.
  - destruct (e <? _); [done|]. intros Hn. apply IH in Hn. lia.
  - destruct skip; [intros Hn; apply IH in Hn; lia|]. intros [= <- <-]. lia.
Qed.

Lemma ReadMessage_sim b e x stale : ∀ fuel n ms l r,
  reads ms l x stale r → (length l + 2 <= fuel)%nat → (length l <= n)%nat →
  outside b e (RecordReader.header_ r) = false →
  ∃ r', RecordReader.ReadMessage fuel b e r = Some (fst (fst (read n b e ms l)), r') ∧ same_record r r' ∧
    reads (snd (fst (read n b e ms l))) (snd (read n b e ms l)) x stale r'.
Proof.
  induction fuel as [|fuel IH]; intros n ms l r (Hv & Hf & Hms) Hfuel Hn Hout; [lia|].
  cbn [RecordReader.ReadMessage]. rewrite Hv. unfold outside in Hout. rewrite Hout, Hms, scan_sim. cbn [negb].
  assert (read n b e ms l =
    match scan b e ms with
    | Some (m, ms) => (m, ms, l)
    | None => match next b e false l with
              | (None, l) => (None, [], l)
              | (Some ms, l) => match n with O => (None, ms, l) | S n => read n b e ms l end
              end
    end) as -> by (by destruct n).
  destruct (scan b e ms) as [[o ms']|] eqn:Es.
  - rewrite <- Hms in Es. pose proof (scan_drop _ _ _ _ _ _ Es) as Hd. rewrite Hms in Hd.
    destruct o as [m|]; (eexists; split; [done|]; split; [by split_and!|]; by split_and!).
  - set (r1 := RecordReader.set_message_index _ r).
    assert (in_front l x stale r1) as Hf1 by exact Hf.
    destruct (next_chunk_sim l x stale b e (S fuel) false r1 Hf1 Hfuel) as (ok & r2 & Hnext & Hsame & Hres).
    unfold RecordReader.ReadNextChunk. rewrite Hnext.
    destruct (next b e false l) as [[ms'|] l'] eqn:En.
    + destruct Hres as (-> & Hf2 & Hc2). apply next_shorter in En. destruct n as [|n]; [lia|].
      set (r3 := RecordReader.set_message_index 0 r2).
      assert (same_record r r3) as Hsame3 by exact Hsame.
      destruct (IH n ms' l' r3) as (r' & Hr' & Hsame' & Hreads).
      * destruct Hsame as (Hv2 & _). split_and!; [by rewrite <- Hv|done|done].
      * lia.
      * lia.
      * destruct Hsame as (_ & Hh2 & _). cbn. by rewrite Hh2.
      * exists r'. split_and!; [done|by etrans|done].
    + destruct Hres as (-> & Hf2 & Hc2 & Hi). exists r2. split_and!; [done|exact Hsame|].
      destruct Hsame as (Hv2 & _). split_and!; [by rewrite Hv2|done|]. cbn [fst snd]. rewrite Hc2, Hi. cbn. rewrite <- Hms.
      rewrite length_drop. apply drop_ge. lia.
Qed.


(** *** Recordings in the order of time *)
Definition in_order : list SingleMessage.t → Prop := StronglySorted (λ m1 m2, time m1 <= time m2).

Lemma in_order_app l1 l2 :
  in_order (l1 ++ l2) ↔ in_order l1 ∧ in_order l2 ∧ (∀ m1 m2, m1 ∈ l1 → m2 ∈ l2 → time m1 <= time m2).
Proof.
  unfold in_order. induction l1 as [|m l1 IH]; cbn.
  - split; [intros ?; split_and!; [by constructor|done|]|by intros (_ & ? & _)]. intros ? ? Hm. by apply elem_of_nil in Hm.
  - split.
    + intros [Hs Hf]%StronglySorted_inv. apply IH in Hs as (H1 & H2 & H3). apply Forall_app in Hf as [Hf1 Hf2].
      split_and!; [by constructor|done|]. intros m1 m2 [->|Hm1]%elem_of_cons Hm2; [|by apply H3].
      rewrite Forall_forall in Hf2. by apply Hf2.
    + intros ([Hs Hf]%StronglySorted_inv & H2 & H3). constructor.
      * apply IH. split_and!; [done..|]. intros m1 m2 Hm1 Hm2. apply H3; [by right|done].
      * apply Forall_app. split; [done|]. apply Forall_forall. intros m2 Hm2. apply H3; [by left|done].
Qed.

(** Every chunk header is followed by its chunk, bounds its times, and the
    chunk is not empty. *)
Fixpoint heads_ok (l : list section) : Prop :=
  match l with
  | [] => True
  | SHead h :: l =>
      match l with
      | SBody x :: _ =>
          ChunkBody.messages x ≠ [] ∧
          Forall (λ m, ChunkHeader.begin_time h <= time m <= ChunkHeader.end_time h) (ChunkBody.messages x)
      | _ => False
      end ∧ heads_ok l
  | _ :: l => heads_ok l
  end.

Abbreviation bodies l := (l ≫= section_messages).
Abbreviation before b := (Forall (λ m, time m < b)).
Abbreviation beyond e := (Forall (λ m, e < time m)).

Lemma in_order_beyond e m l : in_order (m :: l) → e < time m → beyond e (m :: l).
Proof.
  intros [_ Hf]%StronglySorted_inv Hm. constructor; [done|]. eapply Forall_impl; [exact Hf|]. cbn. lia.
Qed.

Lemma stream_scan_spec b e ms :
  match scan b e ms with
  | None => before b ms
  | Some (None, ms') => ∃ pre m ms'', ms = pre ++ ms' ∧ before b pre ∧ ms' = m :: ms'' ∧ e < time m
  | Some (Some m, ms') => ∃ pre, ms = pre ++ m :: ms' ∧ before b pre ∧ b <= time m <= e
  end.
Proof.
  induction ms as [|m ms IH]; cbn [scan]; [constructor|].
  destruct (Z.ltb_spec e (time m)) as [He|He]; [exists [], m, ms; by split_and!|].
  destruct (Z.ltb_spec (time m) b) as [Hb|Hb]; [|exists []; split_and!; [done|done|lia..]].
  destruct (scan b e ms) as [[[m'|] ms']|].
  - destruct IH as (pre & -> & Hp & Hm). exists (m :: pre). split_and!; [done|by constructor|lia..].
  - destruct IH as (pre & m' & ms'' & -> & Hp & -> & Hm). exists (m :: pre), m', ms''. split_and!; [done|by constructor|done..].
  - by constructor.
Qed.

Lemma next_spec b e l : ∀ skip,
  heads_ok l → in_order (bodies l) →
  (skip = true → ∃ x l', l = SBody x :: l' ∧ before b (ChunkBody.messages x)) →
  match next b e skip l with
  | (Some ms, l') => ∃ pre, bodies l = pre ++ ms ++ bodies l' ∧ before b pre ∧ heads_ok l'
  | (None, l') => ∃ pre, bodies l = pre ++ bodies l' ∧ before b pre ∧ heads_ok l' ∧ beyond e (bodies l')
  end.
Proof.
  induction l as [|[c|h|x] l IH]; intros skip Hl Hs Hskip; cbn [next].
  - exists []. split_and!; try done; constructor.
  - apply (IH skip Hl Hs). intros E. destruct (Hskip E) as (? & ? & ? & _). done.
  - destruct Hl as [Hx Hl]. destruct l as [|[c|h'|x] l']; try done. destruct Hx as [Hne Hx].
    assert (skip = false) as -> by (destruct skip; [|done]; by destruct (Hskip eq_refl) as (? & ? & ? & _)).
    destruct (Z.ltb_spec e (ChunkHeader.begin_time h)) as [He|He].
    + exists []. split_and!; [done|by constructor|done|].
      change (bodies (SHead h :: SBody x :: l')) with (ChunkBody.messages x ++ bodies l') in Hs.
      change (bodies (SBody x :: l')) with (ChunkBody.messages x ++ bodies l').
      destruct (ChunkBody.messages x) as [|m ms] eqn:Em; [done|]. apply Forall_cons in Hx as [Hm _].
      apply (in_order_beyond e m (ms ++ bodies l')); [exact Hs|lia].
    + apply (IH _ Hl Hs). destruct (Z.ltb_spec (ChunkHeader.end_time h) b) as [Hb|Hb]; [|done]. intros _.
      exists x, l'. split; [done|]. eapply Forall_impl; [exact Hx|]. cbn. lia.
  - change (bodies (SBody x :: l)) with (ChunkBody.messages x ++ bodies l) in *.
    apply in_order_app in Hs as (_ & Hs & _). destruct skip.
    + destruct (Hskip eq_refl) as (x' & l' & [= <- <-] & Hb).
      assert (false = true → ∃ x l', l = SBody x :: l' ∧ before b (ChunkBody.messages x)) as Hno by done.
      pose proof (IH false Hl Hs Hno) as Hi. destruct (next b e false l) as [[ms|] l'].
      * destruct Hi as (pre & -> & Hp & Hl'). exists (ChunkBody.messages x ++ pre).
        split_and!; [by rewrite app_assoc|by apply Forall_app|done].
      * destruct Hi as (pre & -> & Hp & Hl' & Hbey). exists (ChunkBody.messages x ++ pre).
        split_and!; [by rewrite app_assoc|by apply Forall_app|done..].
    + exists []. by split_and!.
Qed.

(** One [ReadMessage]: the next message of the window, or none is left in it. *)
Lemma read_spec b e : ∀ n ms l,
  (length l <= n)%nat → heads_ok l → in_order (coming ms l) →
  let '(o, ms', l') := read n b e ms l in
  heads_ok l' ∧ ∃ pre, before b pre ∧
    match o with
    | Some m => coming ms l = pre ++ m :: coming ms' l' ∧ b <= time m <= e
    | None => coming ms l = pre ++ coming ms' l' ∧ beyond e (coming ms' l')
    end.
Proof.
  induction n as [|n IH]; intros ms l Hn Hl Hs; cbn [read]; pose proof (stream_scan_spec b e ms) as Hscan;
    destruct (scan b e ms) as [[[m|] ms']|].
  1,4: destruct Hscan as (pre & -> & Hp & Hm); split; [done|]; exists pre; split_and!; [done| |lia..]; unfold coming; by rewrite <- app_assoc.
  1,3: destruct Hscan as (pre & m & ms'' & -> & Hp & -> & Hm); split; [done|]; exists pre; split_and!;
    [done|unfold coming; by rewrite <- app_assoc|]; unfold coming in Hs; rewrite <- app_assoc in Hs;
    apply in_order_app in Hs as (_ & Hs & _); by apply in_order_beyond.
  all: pose proof Hs as Hs'; unfold coming in Hs'; apply in_order_app in Hs' as (_ & Hs' & _);
    assert (false = true → ∃ x l', l = SBody x :: l' ∧ before b (ChunkBody.messages x)) as Hno by done;
    pose proof (next_spec b e l false Hl Hs' Hno) as Hnext; destruct (next b e false l) as [[ms'|] l'] eqn:En.
  - apply next_shorter in En. lia.
  - destruct Hnext as (pre & Hb & Hp & Hl' & Hbey). split; [done|]. exists (ms ++ pre).
    unfold coming. rewrite Hb. split_and!; [by apply Forall_app|by rewrite <- app_assoc|done].
  - pose proof (next_shorter _ _ _ _ _ _ En) as Hlt. destruct Hnext as (pre & Hb & Hp & Hl').
    assert (coming ms l = (ms ++ pre) ++ coming ms' l') as Hc by (unfold coming; by rewrite Hb, <- app_assoc).
    rewrite Hc in Hs. apply in_order_app in Hs as (_ & Hs & _).
    specialize (IH ms' l' ltac:(lia) Hl' Hs). destruct (read n b e ms' l') as [[o ms''] l''].
    destruct IH as (Hl'' & pre' & Hp' & Ho). split; [done|]. exists ((ms ++ pre) ++ pre').
    split; [by apply Forall_app; split; [apply Forall_app|]|]. rewrite Hc.
    destruct o; destruct Ho as [-> Ho]; (split; [by rewrite <- !app_assoc|done]).
  - destruct Hnext as (pre & Hb & Hp & Hl' & Hbey). split; [done|]. exists (ms ++ pre).
    unfold coming. rewrite Hb. split_and!; [by apply Forall_app|by rewrite <- app_assoc|done].
Qed.


(** *** A reader on a complete file *)

(** [r] reads a record of which it has still to return the messages [left]. *)
Definition reading (h : Header.t) (all left : list SingleMessage.t) (r : reader) : Prop :=
  ∃ hd l0 x stale ms l,
    wf hd ∧ Forall section_ok l0 ∧ heads_ok l0 ∧ all = bodies l0 ∧
    Posix.content (r_fd (fr r)) = enc_header hd ++ enc_sections l0 ++ enc x ++ stale ∧
    reads ms l x stale r ∧ heads_ok l ∧ left = coming ms l ∧ left `suffix_of` all ∧
    RecordReader.header_ r = h ∧ in_order all ∧
    Forall (λ m, Header.begin_time h <= time m <= Header.end_time h) all.

(** Enough steps for every section of the file. *)
Definition fuel_of (r : reader) : nat := length (Posix.content (r_fd (fr r))) + 2.

Lemma length_enc_sections l : (length l <= length (enc_sections l))%nat.
Proof.
  induction l as [|s l IH]; [done|]. change (enc_sections (s :: l)) with (enc_section s ++ enc_sections l).
  rewrite length_app. cbn [length]. assert (1 <= length (enc_section s))%nat; [|lia].
  destruct s; cbn [enc_section]; rewrite length_enc; lia.
Qed.

Lemma fuel_enough ms l x stale r : reads ms l x stale r → (length l + 2 <= fuel_of r)%nat.
Proof.
  intros (_ & (_ & _ & _ & Hf) & _). unfold fuel_of. destruct (RecordReader.reach_end_ r); [subst; cbn; lia|].
  destruct Hf as (pre & Hc & _). rewrite Hc, !length_app. pose proof (length_enc_sections l). lia.
Qed.

Lemma reading_step h all left b e r :
  reading h all left r → b <= e →
  ∃ o r' left', RecordReader.ReadMessage (fuel_of r) b e r = Some (o, r') ∧ reading h all left' r' ∧
    ∃ pre, before b pre ∧
      match o with
      | Some m => left = pre ++ m :: left' ∧ b <= time m <= e
      | None => left = pre ++ left' ∧ Forall (λ m, time m < b ∨ e < time m) left'
      end.
Proof.
  intros (hd & l0 & x & stale & ms & l & Hhd & Hl0 & Hok0 & Hall & Hc & Hr & Hl & Hleft & Hsuf & Hh & Hord & Hbd) Hbe.
  assert (in_order left) as Hordl.
  { destruct Hsuf as [k Hk]. rewrite Hk in Hord. by apply in_order_app in Hord as (_ & ? & _). }
  destruct (outside b e (RecordReader.header_ r)) eqn:Hout.
  - exists None, r, left. split_and!.
    + unfold fuel_of. rewrite Nat.add_comm. cbn [RecordReader.ReadMessage Nat.add]. unfold outside in Hout. rewrite Hout.
      by destruct (negb _).
    + exists hd, l0, x, stale, ms, l. by split_and!.
    + exists []. split_and!; [by constructor|done|]. destruct Hsuf as [k Hk]. rewrite Hk in Hbd.
      apply Forall_app in Hbd as [_ Hbd]. eapply Forall_impl; [exact Hbd|]. cbn. intros m Hm.
      unfold outside in Hout. rewrite Hh in Hout. apply orb_true_iff in Hout as [Ho|Ho]; lia.
  - destruct (ReadMessage_sim b e x stale (fuel_of r) (length l) ms l r Hr (fuel_enough _ _ _ _ _ Hr) ltac:(done) Hout)
      as (r' & Hr' & (Hv & Hh' & Hi & Hc') & Hreads).
    rewrite Hleft in Hordl. pose proof (read_spec b e (length l) ms l ltac:(done) Hl Hordl) as Hspec.
    destruct (read (length l) b e ms l) as [[o ms'] l'] eqn:E. cbn [fst snd] in *. destruct Hspec as (Hl' & pre & Hp & Ho).
    exists o, r', (coming ms' l'). split; [done|]. split.
    + exists hd, l0, x, stale, ms', l'. split_and!; try done; [by rewrite Hc'| |by rewrite Hh'].
      etrans; [|exact Hsuf]. rewrite Hleft. destruct o as [m|].
      * destruct Ho as [-> _]. exists (pre ++ [m]). by rewrite <- app_assoc.
      * destruct Ho as [-> _]. by exists pre.
    + exists pre. split; [done|]. rewrite Hleft. destruct o as [m|]; [done|]. destruct Ho as [-> Ho]. split; [done|].
      eapply Forall_impl; [exact Ho|]. cbn. auto.
Qed.

Lemma reading_reset h all left r : reading h all left r → reading h all all (RecordReader.Reset r).
Proof.
  intros (hd & l0 & x & stale & ms & l & Hhd & Hl0 & Hok0 & Hall & Hc & (Hv & (_ & Hx & Hn & _) & _) & Hl & Hleft & Hsuf & Hh & Hord & Hbd).
  exists hd, l0, x, stale, [], l0. split_and!; try done.
  - unfold reads. split_and!; [done| |done]. unfold in_front. cbn -[RecordFileReader.Reset]. split_and!; try done.
    exists (enc_header hd). split; [exact Hc|]. by rewrite length_enc_header.
Qed.


(** The sections of the items of a file. *)
Definition sections (l : list item) : list section := l ≫= item_sections.

Lemma sections_cons i l : sections (i :: l) = item_sections i ++ sections l.
Proof. done. Qed.

Lemma enc_sections_items l : enc_sections (sections l) = enc_items l.
Proof.
  induction l as [|i l IH]; [done|]. rewrite sections_cons. unfold enc_sections in *. rewrite bind_app, IH.
  change (enc_items (i :: l)) with (enc_item i ++ enc_items l). f_equal.
  destruct i; cbn; by rewrite ?app_nil_r.
Qed.

Lemma bodies_sections l : bodies (sections l) = RecordFlush.messages_of l.
Proof.
  induction l as [|i l IH]; [done|]. rewrite sections_cons, bind_app, IH.
  change (RecordFlush.messages_of (i :: l)) with (RecordFlush.item_messages i ++ RecordFlush.messages_of l). f_equal.
  destruct i; cbn; by rewrite ?app_nil_r.
Qed.

(** The sizes protobuf allows; a set field makes a message not empty. *)
Definition sizes_ok (m : gmap string Z) (l : list item) : Prop :=
  Forall (λ i, match i with IChannel c => small c | IChunk h b => small h ∧ small b end) l ∧ small (final_index m l).

Lemma sections_ok m l : Forall wf_item l → sizes_ok m l → Forall section_ok (sections l).
Proof.
  intros Hwf [Hs _]. induction Hwf as [|i l Hi _ IH]; [constructor|]. apply Forall_cons in Hs as [Hi' Hs].
  rewrite sections_cons. apply Forall_app. split; [|by apply IH]. destruct i as [c|ch cb]; cbn in *; rewrite ?Forall_cons, Forall_nil; cbn; tauto.
Qed.

Lemma item_bounds ch cb :
  RecordFlush.item_ok (IChunk ch cb) → Forall (λ m, 0 < time m) (ChunkBody.messages cb) →
  Forall (λ m, ChunkHeader.begin_time ch <= time m <= ChunkHeader.end_time ch) (ChunkBody.messages cb) ∧
  0 < ChunkHeader.begin_time ch.
Proof.
  intros [Hne Heq] Hpos. destruct (RecordFlush.chunk_of_bounds _ Hpos) as [Hb Hp]. rewrite <- Heq in Hb, Hp. auto.
Qed.

Lemma sections_heads_ok l :
  Forall RecordFlush.item_ok l → Forall (λ m, 0 < time m) (RecordFlush.messages_of l) → heads_ok (sections l).
Proof.
  intros Hl Hpos. induction Hl as [|i l Hi _ IH]; [done|]. rewrite sections_cons.
  change (RecordFlush.messages_of (i :: l)) with (RecordFlush.item_messages i ++ RecordFlush.messages_of l) in Hpos.
  apply Forall_app in Hpos as [Hp1 Hp2]. specialize (IH Hp2). destruct i as [c|ch cb]; [done|].
  destruct (item_bounds ch cb Hi Hp1) as [Hb _]. cbn. destruct Hi as [Hne _]. done.
Qed.

(** The header of a recording in order bounds the times of its messages. *)
Lemma header_bounds h l :
  Header.begin_time h = 0 → Forall RecordFlush.item_ok l → Forall (λ m, 0 < time m) (RecordFlush.messages_of l) →
  in_order (RecordFlush.messages_of l) →
  let h' := foldl note_header h l in
  Forall (λ m, Header.begin_time h' <= time m <= Header.end_time h') (RecordFlush.messages_of l) ∧
  (RecordFlush.messages_of l = [] ∧ Header.begin_time h' = 0 ∨ RecordFlush.messages_of l ≠ [] ∧ 0 < Header.begin_time h').
Proof.
  intros Hz Hl. induction l as [|i l IH] using rev_ind; intros Hpos Hord h'; [split; [constructor|by left]|].
  apply Forall_app in Hl as [Hl Hi]. rewrite Forall_singleton in Hi.
  rewrite RecordFlush.messages_of_snoc in *. apply Forall_app in Hpos as [Hp1 Hp2].
  apply in_order_app in Hord as (Ho1 & Ho2 & Ho3). specialize (IH Hl Hp1 Ho1). cbn in IH.
  unfold h'. rewrite foldl_snoc. set (g := foldl note_header h l) in *. clearbody g. destruct IH as [IHb IHz].
  destruct i as [c|ch cb]; [by rewrite app_nil_r|]. cbn [RecordFlush.item_messages] in *.
  destruct (item_bounds ch cb Hi Hp2) as [Hb Hpos]. destruct Hi as [Hne _].
  assert (Header.end_time (note_header g (IChunk ch cb)) = ChunkHeader.end_time ch) as -> by done.
  assert (Header.begin_time (note_header g (IChunk ch cb)) =
    if Header.begin_time g =? 0 then ChunkHeader.begin_time ch else Header.begin_time g) as ->.
  { cbn. by case_match. }
  destruct (ChunkBody.messages cb) as [|m ms] eqn:Em; [done|].
  assert (ChunkHeader.begin_time ch <= time m <= ChunkHeader.end_time ch) as Hm by (by apply Forall_cons in Hb as [? _]).
  destruct IHz as [[He Hg]|[He Hg]].
  - rewrite He, Hg. cbn [app Z.eqb]. split; [done|]. right. by split.
  - rewrite (proj2 (Z.eqb_neq _ _)) by lia. split; [|right; split; [by destruct (RecordFlush.messages_of l)|done]].
    apply Forall_app. split.
    + apply Forall_forall. intros m1 Hm1. rewrite Forall_forall in IHb. specialize (IHb m1 Hm1).
      specialize (Ho3 m1 m Hm1 ltac:(by left)). lia.
    + destruct (RecordFlush.messages_of l) as [|m0 ml] eqn:El; [done|].
      apply Forall_forall. intros m2 Hm2. rewrite Forall_forall in Hb. specialize (Hb m2 Hm2).
      apply Forall_cons in IHb as [IHb _]. specialize (Ho3 m0 m2 ltac:(by left) Hm2). lia.
Qed.

(** *** Opening a complete file *)
Lemma SetPosition_good p (r : RecordFileReader.t) :
  0 <= p → RecordFileReader.SetPosition p r =
    (true, RecordFileReader.set_fd (Posix.mk (Posix.content (r_fd r)) p (Posix.limit (r_fd r))) r).
Proof.
  intros Hp. unfold RecordFileReader.SetPosition, Posix.lseek.
  destruct (Z.ltb_spec p 0) as [Hn|Hn]; [lia|]. by rewrite (proj2 (Z.ltb_ge p 0)).
Qed.

Lemma Open_complete hd rest :
  wf hd →
  let content := enc_header hd ++ rest in
  RecordFileReader.Open (Some content) RecordReader.no_file =
    (true, RecordFileReader.mk (Posix.mk content 2064 0) hd (Index.mk []) false).
Proof.
  intros Hwf content. assert (small hd) as Hsmall.
  { pose proof (header_size hd Hwf). unfold small, HEADER_LENGTH in *. lia. }
  unfold RecordFileReader.Open. set (r0 := RecordFileReader.set_eof false _).
  assert (stands [] (enc hd ++ drop (length (enc hd)) content) r0) as Hst.
  { split; [|done]. cbn. unfold content, enc_header. by rewrite <- app_assoc, drop_app_length. }
  unfold RecordFileReader.ReadHeader. rewrite (ReadSection_enc hd [] _ r0) by done.
  cbn [Section_.type Section_.size section_type header_section]. rewrite Z.eqb_refl. cbn [negb].
  rewrite (ReadMessageSection_enc hd [] _ r0) by done. cbn [negb default from_option id].
  by rewrite SetPosition_good.
Qed.

Lemma ReadIndex_complete hd x pre rest (r : RecordFileReader.t) :
  wf x → small x → RecordFileReader.header_ r = hd → Header.is_complete hd = true →
  Header.index_position hd = Z.of_nat (length pre) → Z.of_nat (length pre) < 2 ^ 63 →
  Posix.content (r_fd r) = pre ++ enc x ++ rest →
  RecordFileReader.ReadIndex r =
    (true, RecordFileReader.mk (Posix.mk (Posix.content (r_fd r)) 2064 (Posix.limit (r_fd r))) hd x false).
Proof.
  intros Hwf Hsmall Hh Hcomplete Hpos Hlen Hc. unfold RecordFileReader.ReadIndex. rewrite Hh, Hcomplete, Hpos. cbn [negb].
  rewrite i64_small, SetPosition_good by lia. cbn [negb].
  match goal with |- context [RecordFileReader.ReadSection ?r] => set (r0 := r) end.
  assert (stands pre (enc x ++ rest) r0) as Hst by (by split).
  rewrite (ReadSection_enc x pre _ r0) by done.
  cbn [Section_.type Section_.size section_type index_section]. rewrite Z.eqb_refl. cbn [negb].
  rewrite (ReadMessageSection_enc x pre _ r0) by done. cbn [negb default from_option id].
  unfold RecordFileReader.Reset. rewrite SetPosition_good by done. cbn. by rewrite Hh.
Qed.

(** What [RecordReader] makes of a complete file. *)
Lemma RecordReader_complete m h l old :
  Header.begin_time h = 0 → Forall wf_item l → wf (final_header m h l) → wf (final_index m l) → sizes_ok m l →
  Forall RecordFlush.item_ok l → Forall (λ x, 0 < time x) (RecordFlush.messages_of l) →
  in_order (RecordFlush.messages_of l) →
  Z.of_nat (length (complete_file m h l old)) < 2 ^ 63 →
  let r := RecordReader.RecordReader false (Some (complete_file m h l old)) in
  let ms := RecordFlush.messages_of l in
  reading (final_header m h l) ms ms r ∧ RecordReader.is_valid_ r = true ∧
  RecordReader.channel_info_ r = RecordReader.channel_info (final_index m l).
Proof.
  intros Hz Hwf Hhwf Hxwf Hsz Hitems Hpos Hord Hlen.
  set (hd := final_header m h l) in *. set (x := final_index m l) in *.
  set (stale := drop (length (enc_header hd ++ enc_items l ++ enc x)) old).
  assert (complete_file m h l old = enc_header hd ++ enc_sections (sections l) ++ enc x ++ stale) as Hfile.
  { unfold complete_file. rewrite enc_sections_items, <- !app_assoc. done. }
  rewrite Hfile in *. unfold RecordReader.RecordReader. rewrite Open_complete by done. cbn [negb RecordFileReader.header_].
  erewrite (ReadIndex_complete hd x (enc_header hd ++ enc_sections (sections l)) stale);
    [|done|apply Hsz|done|done| | |by rewrite <- !app_assoc].
  - unfold RecordFileReader.Reset. rewrite SetPosition_good by done. cbn [RecordFileReader.index_]. split; [|done].
    exists hd, (sections l), x, stale, [], (sections l). pose proof (sections_ok m l Hwf Hsz) as Hsec.
    pose proof (sections_heads_ok l Hitems Hpos) as Hheads.
    split_and!; try done; [by rewrite bodies_sections| |by unfold coming; rewrite bodies_sections|].
    + unfold reads. split_and!; [done| |done]. unfold in_front. cbn [RecordReader.reach_end_]. split_and!; [done|apply Hsz|done|].
      exists (enc_header hd). split; [done|]. by rewrite length_enc_header.
    + apply (header_bounds h l); done.
  - change (Header.index_position hd) with (Z.of_nat (2064 + length (enc_items l))).
    by rewrite length_app, length_enc_header, enc_sections_items.
  - rewrite !length_app in *. lia.
Qed.

End stream.
End Stream.
