(* ===== verification/RecordViewer.v ===== *)
(** * Viewing several records ([cyber/record/record_viewer.cc])

    The viewer merges the messages of its readers, a second of recorded time
    at a time.  What it needs of a reader is the interface [MessageReader] and
    its laws; [RecordReader] is an instance. *)

From stdpp Require Import sorting.
From S2P Require Import Prelude RecordFile RecordFlush Record.

Local Open Scope Z_scope.
Local Open Scope cyber_scope.

Abbreviation message := SingleMessage.t.
Abbreviation time := SingleMessage.time.

(** ** What a viewer asks of a reader *)
Class MessageReader (R : Type) := {
  rd_header : R → Header.t;
  rd_valid : R → bool;
  rd_channels : R → gset string;
  rd_ReadMessage : Z → Z → R → option (option message * R);
  rd_Reset : R → R
}.

(** [reading h all left r]: [r] reads the record [all], in the order of time
    and within the times its header [h] gives, and has still to return
    [left]. *)
Class MessageReaderLaws (R : Type) `{MessageReader R} := {
  reading : Header.t → list message → list message → R → Prop;
  reading_facts h all left r :
    reading h all left r →
    rd_valid r = true ∧ rd_header r = h ∧ Stream.in_order all ∧ left `suffix_of` all ∧
    Forall (λ m, Header.begin_time h <= time m <= Header.end_time h) all;
  reading_step h all left b e r :
    reading h all left r → b <= e →
    ∃ o r' left', rd_ReadMessage b e r = Some (o, r') ∧ reading h all left' r' ∧
      ∃ pre, Forall (λ m, time m < b) pre ∧
        match o with
        | Some m => left = pre ++ m :: left' ∧ b <= time m <= e
        | None => left = pre ++ left' ∧ Forall (λ m, time m < b ∨ e < time m) left'
        end;
  reading_reset h all left r : reading h all left r → reading h all all (rd_Reset r)
}.

#[export] Instance record_reader `{RecordProtos} : MessageReader RecordReader.t := {
  rd_header := RecordReader.header_;
  rd_valid := RecordReader.is_valid_;
  rd_channels := RecordReader.GetChannelList;
  rd_ReadMessage b e r := RecordReader.ReadMessage (Stream.fuel_of r) b e r;
  rd_Reset := RecordReader.Reset
}.

#[export] Program Instance record_reader_laws `{RecordProtoLaws} : MessageReaderLaws RecordReader.t := {
  reading := Stream.reading
}.
Next Obligation.
  intros ? ? h all left r (hd & l0 & x & stale & ms & l & _ & _ & _ & _ & _ & (Hv & _) & _ & _ & Hsuf & Hh & Hord & Hbd).
  by split_and!.
Qed.
Next Obligation. intros. by apply Stream.reading_step. Qed.
Next Obligation. intros. by apply (Stream.reading_reset _ _ left). Qed.

(** ** Reading a window to its end: the [while (true)] loop of [FillBuffer] *)
Definition within (b e : Z) (m : message) : Prop := b <= time m <= e.
#[export] Instance within_dec b e m : Decision (within b e m).
Proof. unfold within. apply _. Defined.

Section window.
Context {R : Type} `{MessageReader R}.

Fixpoint read_window (fuel : nat) (b e : Z) (r : R) : option (list message * R) :=
  match fuel with
  | O => None
  | S fuel =>
      match rd_ReadMessage b e r with
      | None => None
      | Some (None, r) => Some ([], r)
      | Some (Some m, r) => '(ms, r) ← read_window fuel b e r; Some (m :: ms, r)
      end
  end.

Lemma filter_within_before b e l : Forall (λ m, time m < b) l → filter (within b e) l = [].
Proof.
  induction 1 as [|m l Hm _ IH]; [done|]. rewrite filter_cons, decide_False; [done|]. unfold within. lia.
Qed.

Lemma filter_within_out b e l : Forall (λ m, time m < b ∨ e < time m) l → filter (within b e) l = [].
Proof.
  induction 1 as [|m l Hm _ IH]; [done|]. rewrite filter_cons, decide_False; [done|]. unfold within. lia.
Qed.

(** What is left after a window: nothing was lost of what comes later. *)
Definition later (e : Z) (m : message) : Prop := e < time m.
#[export] Instance later_dec e m : Decision (later e m).
Proof. unfold later. apply _. Defined.

Lemma filter_later_before b e l : b <= e → Forall (λ m, time m < b) l → filter (later e) l = [].
Proof.
  intros Hbe. induction 1 as [|m l Hm _ IH]; [done|]. rewrite filter_cons, decide_False; [done|]. unfold later. lia.
Qed.

Context `{!MessageReaderLaws R}.

Lemma read_window_spec b e : ∀ fuel h all left r,
  reading h all left r → b <= e → (length left < fuel)%nat →
  ∃ r' left', read_window fuel b e r = Some (filter (within b e) left, r') ∧ reading h all left' r' ∧
    filter (later e) left' = filter (later e) left.
Proof.
  induction fuel as [|fuel IH]; intros h all left r Hr Hbe Hlen; [lia|]. cbn [read_window].
  destruct (reading_step h all left b e r Hr Hbe) as (o & r1 & left1 & -> & Hr1 & pre & Hpre & Ho).
  destruct o as [m|].
  - destruct Ho as [-> Hm]. rewrite length_app in Hlen. cbn in Hlen.
    destruct (IH h all left1 r1 Hr1 Hbe ltac:(lia)) as (r' & left' & -> & Hr' & Hl). cbn [mbind option_bind].
    exists r', left'. split_and!; [|done|].
    + do 2 f_equal. rewrite filter_app, (filter_within_before b e pre), filter_cons, decide_True by done. done.
    + rewrite Hl, filter_app, (filter_later_before b e pre), filter_cons, decide_False by (done || unfold later; lia). done.
  - destruct Ho as [-> Hout]. exists r1, left1. split_and!; [|done|].
    + by rewrite filter_app, (filter_within_before b e pre), (filter_within_out b e left1).
    + by rewrite filter_app, (filter_later_before b e pre).
Qed.
End window.

(** ** The viewer *)
Module RecordViewer.
Section viewer.
Context {R : Type} `{MessageReader R}.

Record t := mk {
  begin_time_ : Z;
  end_time_ : Z;
  channels_ : gset string;
  channel_list_ : gset string;
  readers_ : list R;
  readers_finished_ : list bool;
  curr_begin_time_ : Z;
  msg_buffer_ : list message
}.

Definition kStepTimeNanoSec : Z := 1000000000.
Definition kBufferMinSize : Z := 128.

(** [multimap::emplace]: after the elements with the same key. *)
Fixpoint emplace (m : message) (buffer : list message) : list message :=
  match buffer with
  | [] => [m]
  | x :: buffer => if time m <? time x then m :: x :: buffer else x :: emplace m buffer
  end.

(** The comparison of [std::sort] in [Init], as "not after". *)
Definition reader_lt (lhs rhs : R) : bool :=
  let l := rd_header lhs in
  let r := rd_header rhs in
  if Header.begin_time l =? Header.begin_time r then Header.end_time l <? Header.end_time r
  else Header.begin_time l <? Header.begin_time r.
Definition not_after (lhs rhs : R) : Prop := reader_lt rhs lhs = false.
#[export] Instance not_after_dec lhs rhs : Decision (not_after lhs rhs).
Proof. unfold not_after. apply _. Defined.

Definition Init (v : t) : t :=
  mk (begin_time_ v) (end_time_ v) (channels_ v)
     (foldl (λ list r, list ∪ (rd_channels r ∩ channels_ v)) (channel_list_ v) (readers_ v))
     (merge_sort not_after (readers_ v)) (replicate (length (readers_ v)) false)
     (curr_begin_time_ v) (msg_buffer_ v).

Definition UINT64_MAX : Z := 2 ^ 64 - 1.

(** The loop of [UpdateTime]. *)
Definition min_max (readers : list R) : Z * Z :=
  foldl (λ '(min_begin_time, max_end_time) r,
    if negb (rd_valid r) then (min_begin_time, max_end_time)
    else
      (if Header.begin_time (rd_header r) <? min_begin_time then Header.begin_time (rd_header r) else min_begin_time,
       if max_end_time <? Header.end_time (rd_header r) then Header.end_time (rd_header r) else max_end_time))
    (UINT64_MAX, 0) readers.

Definition UpdateTime (v : t) : t :=
  let '(min_begin_time, max_end_time) := min_max (readers_ v) in
  let b := if begin_time_ v <? min_begin_time then min_begin_time else begin_time_ v in
  let e := if max_end_time <? end_time_ v then max_end_time else end_time_ v in
  mk b e (channels_ v) (channel_list_ v) (readers_ v) (readers_finished_ v) b (msg_buffer_ v).

Definition RecordViewer (readers : list R) (begin_time end_time : Z) (channels : gset string) : t :=
  UpdateTime (Init (mk begin_time end_time channels ∅ readers [] 0 [])).

Definition IsValid (v : t) : bool := negb (end_time_ v <? begin_time_ v).

Definition Reset (v : t) : t :=
  mk (begin_time_ v) (end_time_ v) (channels_ v) (channel_list_ v) (rd_Reset <$> readers_ v)
     (replicate (length (readers_finished_ v)) false) (begin_time_ v) [].

(** The first loop of a round of [FillBuffer]: readers whose record is over. *)
Definition finish (this_begin_time : Z) (x : R * bool) : R * bool :=
  let '(r, finished) := x in
  if negb finished && (Header.end_time (rd_header r) <? this_begin_time) then (rd_Reset r, true) else (r, finished).

(** The second: every other reader's messages of the window. *)
Fixpoint read_all (fuel : nat) (b e : Z) (xs : list (R * bool)) (buffer : list message) :
    option (list (R * bool) * list message) :=
  match xs with
  | [] => Some ([], buffer)
  | (r, finished) :: xs =>
      if finished : bool then '(xs, buffer) ← read_all fuel b e xs buffer; Some ((r, finished) :: xs, buffer)
      else
        '(ms, r) ← read_window fuel b e r;
        '(xs, buffer) ← read_all fuel b e xs (foldl (λ buffer m, emplace m buffer) buffer ms);
        Some ((r, finished) :: xs, buffer)
  end.

(** One round. *)
Definition fill_round (fuel : nat) (v : t) : option t :=
  let this_begin_time := curr_begin_time_ v in
  let this_end_time := this_begin_time +64 kStepTimeNanoSec in
  let this_end_time := if end_time_ v <? this_end_time then end_time_ v else this_end_time in
  let xs := finish this_begin_time <$> zip (readers_ v) (readers_finished_ v) in
  '(xs, buffer) ← read_all fuel this_begin_time this_end_time xs (msg_buffer_ v);
  Some (mk (begin_time_ v) (end_time_ v) (channels_ v) (channel_list_ v) xs.*1 xs.*2 (this_end_time +64 1) buffer).

Fixpoint FillBuffer (fuel n : nat) (v : t) : option (bool * t) :=
  match n with
  | O => None
  | S n =>
      if (curr_begin_time_ v <=? end_time_ v) && (Z.of_nat (length (msg_buffer_ v)) <? kBufferMinSize) then
        v ← fill_round fuel v; FillBuffer fuel n v
      else Some (match msg_buffer_ v with [] => false | _ => true end, v)
  end.

(** The test on the channel of a message. *)
Definition wanted (channels : gset string) (m : message) : Prop :=
  channels = ∅ ∨ SingleMessage.channel_name m ∈ channels.
#[export] Instance wanted_dec channels m : Decision (wanted channels m).
Proof. unfold wanted. apply _. Defined.

Definition set_buffer (buffer : list message) (v : t) : t :=
  mk (begin_time_ v) (end_time_ v) (channels_ v) (channel_list_ v) (readers_ v) (readers_finished_ v)
     (curr_begin_time_ v) buffer.

(** [Update]; its argument says how long the loops may run. *)
Fixpoint Update (fuel n : nat) (v : t) : option (option message * t) :=
  match n with
  | O => None
  | S n =>
      let filled := match msg_buffer_ v with [] => FillBuffer fuel fuel v | _ => Some (true, v) end in
      match filled with
      | None => None
      | Some (false, v) => Some (None, v)
      | Some (true, v) =>
          match msg_buffer_ v with
          | [] => None
          | m :: buffer =>
              let v := set_buffer buffer v in
              if decide (wanted (channels_ v) m) then Some (Some m, v) else Update fuel n v
          end
      end
  end.

(** [for (auto& msg : viewer)]: [begin()], then [++] until [end_]. *)
Definition begin (fuel : nat) (v : t) : option (option message * t) :=
  let v := Reset v in
  if negb (IsValid v) then Some (None, v) else Update fuel fuel v.

Fixpoint iterate (fuel n : nat) (o : option message) (v : t) : option (list message * t) :=
  match o with
  | None => Some ([], v)
  | Some m =>
      match n with
      | O => None
      | S n => '(o, v) ← Update fuel fuel v; '(ms, v) ← iterate fuel n o v; Some (m :: ms, v)
      end
  end.

Definition view (fuel : nat) (v : t) : option (list message * t) :=
  '(o, v) ← begin fuel v; iterate fuel fuel o v.

(** ** Specification: a stable sort by time *)
Definition sort (l : list message) : list message := foldl (λ buffer m, emplace m buffer) [] l.

Lemma emplace_app m l1 l2 :
  emplace m (l1 ++ l2) =
  if forallb (λ x, time x <=? time m) l1 then l1 ++ emplace m l2 else emplace m l1 ++ l2.
Proof.
  induction l1 as [|x l1 IH]; [done|]. cbn [app emplace forallb].
  destruct (Z.ltb_spec (time m) (time x)); [by rewrite (proj2 (Z.leb_gt _ _))|].
  rewrite (proj2 (Z.leb_le _ _)) by done. cbn [andb]. rewrite IH. by destruct (forallb _ l1).
Qed.

Lemma emplace_after m l : Forall (λ x, time x <= time m) l → emplace m l = l ++ [m].
Proof.
  intros Hl. pose proof (emplace_app m l []) as He. rewrite app_nil_r in He. rewrite He.
  assert (forallb (λ x, time x <=? time m) l = true) as ->; [|done].
  apply forallb_forall. intros x Hx%list_elem_of_In. rewrite Forall_forall in Hl. specialize (Hl x Hx). lia.
Qed.

Lemma emplace_before m l1 l2 : Forall (λ x, time m < time x) l2 → emplace m (l1 ++ l2) = emplace m l1 ++ l2.
Proof.
  intros Hl. rewrite emplace_app. destruct (forallb _ l1) eqn:E; [|done].
  assert (emplace m l1 = l1 ++ [m]) as ->.
  { apply emplace_after, Forall_forall. intros x Hx%list_elem_of_In. rewrite forallb_forall in E. specialize (E x Hx). lia. }
  rewrite <- app_assoc. f_equal. destruct Hl as [|x l2 Hx _]; [done|]. cbn. by rewrite (proj2 (Z.ltb_lt _ _)).
Qed.

Lemma buffer_emplace_perm m l : emplace m l ≡ₚ m :: l.
Proof.
  induction l as [|x l IH]; [done|]. cbn. destruct (_ <? _); [done|]. rewrite IH. by apply Permutation_swap.
Qed.

Lemma foldl_emplace_perm l buf : foldl (λ buffer m, emplace m buffer) buf l ≡ₚ buf ++ l.
Proof.
  revert buf. induction l as [|m l IH]; intros buf; cbn [foldl]; [by rewrite app_nil_r|].
  rewrite IH, buffer_emplace_perm. by rewrite <- Permutation_middle.
Qed.

Lemma sort_perm l : sort l ≡ₚ l.
Proof. apply foldl_emplace_perm. Qed.

Lemma sort_app_fold l buf : Forall (λ x, Forall (λ m, time x < time m) l) buf → 
  foldl (λ buffer m, emplace m buffer) buf l = buf ++ sort l.
Proof.
  intros Hb. induction l as [|m l IH] using rev_ind; [by rewrite app_nil_r|].
  unfold sort in *. rewrite !foldl_snoc, IH.
  - rewrite emplace_app. assert (forallb (λ x, time x <=? time m) buf = true) as ->; [|done].
    apply forallb_forall. intros x Hx%list_elem_of_In. rewrite Forall_forall in Hb. specialize (Hb x Hx).
    apply Forall_app in Hb as [_ Hb]. rewrite Forall_singleton in Hb. lia.
  - eapply Forall_impl; [exact Hb|]. cbn. intros x Hx. by apply Forall_app in Hx as [Hx _].
Qed.

Lemma sort_split e l :
  sort l = sort (filter (λ m, time m <= e) l) ++ sort (filter (λ m, e < time m) l).
Proof.
  induction l as [|m l IH] using rev_ind; [done|].
  assert (∀ P `{∀ m, Decision (P m)}, filter P (l ++ [m]) = filter P l ++ (if decide (P m) then [m] else [])) as Hf.
  { intros P ?. rewrite filter_app, filter_cons, filter_nil. by destruct (decide (P m)). }
  rewrite !Hf. clear Hf. unfold sort at 1. rewrite foldl_snoc. fold (sort l). rewrite IH.
  destruct (decide (time m <= e)) as [Hm|Hm]; [rewrite decide_False by lia|rewrite decide_True by lia];
    rewrite app_nil_r; unfold sort; rewrite ?foldl_snoc.
  - apply emplace_before. fold (sort (filter (λ m, e < time m) l)). rewrite sort_perm.
    apply Forall_forall. intros x Hx. apply list_elem_of_filter in Hx as [Hx _]. lia.
  - rewrite emplace_app. fold (sort (filter (λ m, time m <= e) l)).
    assert (forallb (λ x, time x <=? time m) (sort (filter (λ m, time m <= e) l)) = true) as ->; [|done].
    apply forallb_forall. intros x Hx%list_elem_of_In. rewrite sort_perm in Hx.
    apply list_elem_of_filter in Hx as [Hx _]. lia.
Qed.

Lemma sort_in_order l : Stream.in_order l → sort l = l.
Proof.
  induction l as [|m l IH] using rev_ind; [done|]. intros (Hl & _ & Hlm)%Stream.in_order_app.
  unfold sort. rewrite foldl_snoc. fold (sort l). rewrite IH by done. apply emplace_after, Forall_forall.
  intros x Hx. apply Hlm; [done|by left].
Qed.

Lemma sort_sorted l : Stream.in_order (sort l).
Proof.
  induction l as [|m l IH] using rev_ind; [constructor|]. unfold sort. rewrite foldl_snoc. fold (sort l).
  generalize dependent (sort l). clear l. intros l. unfold Stream.in_order.
  induction 1 as [|x l Hs IH Hx]; [by repeat constructor|]. cbn. destruct (Z.ltb_spec (time m) (time x)) as [Hm|Hm].
  - constructor; [by constructor|]. constructor; [lia|]. eapply Forall_impl; [exact Hx|]. cbn. lia.
  - constructor; [done|]. rewrite buffer_emplace_perm. by constructor.
Qed.


(** ** The invariant of a view *)
Lemma filter_absorb (P Q : message → Prop) `{∀ m, Decision (P m)} `{∀ m, Decision (Q m)} (l : list message) :
  (∀ m, P m → Q m) → filter P (filter Q l) = filter P l.
Proof.
  intros HPQ. induction l as [|m l IH]; [done|]. rewrite (filter_cons Q).
  destruct (decide (Q m)); rewrite !filter_cons; [by rewrite IH|].
  rewrite IH, decide_False; [done|]. intros HP. auto.
Qed.

Lemma filter_bind (P : message → Prop) `{∀ m, Decision (P m)} (alls : list (list message)) (f : list message → list message) :
  filter P (alls ≫= f) = alls ≫= (λ l, filter P (f l)).
Proof. induction alls as [|l alls IH]; [done|]. cbn -[filter]. rewrite filter_app. by f_equal. Qed.

Lemma bind_nil {A B} (l : list A) (f : A → list B) : (∀ x, x ∈ l → f x = []) → l ≫= f = [].
Proof.
  induction l as [|x l IH]; intros Hf; [done|]. cbn. rewrite (Hf x) by (by left). apply IH. intros y Hy. apply Hf. by right.
Qed.

Lemma bind_ext {A B} (l : list A) (f g : A → list B) : (∀ x, x ∈ l → f x = g x) → l ≫= f = l ≫= g.
Proof.
  induction l as [|x l IH]; intros Hf; [done|]. cbn. rewrite (Hf x) by (by left). f_equal. apply IH. intros y Hy. apply Hf. by right.
Qed.

Abbreviation window alls b e :=
  ((alls : list (list message)) ≫= (λ l : list message, filter (within b e) l)).

Lemma window_split alls b t e :
  b <= t + 1 → t <= e → sort (window alls b e) = sort (window alls b t) ++ sort (window alls (t + 1) e).
Proof.
  intros Hb He. rewrite (sort_split t). rewrite !filter_bind. f_equal; f_equal; apply bind_ext; intros l _;
    rewrite list_filter_filter; apply list_filter_iff; intros m; unfold within; lia.
Qed.

Lemma window_empty alls b e : e < b → window alls b e = [].
Proof.
  intros He. apply bind_nil. intros l _. induction l as [|m l IH]; [done|].
  rewrite filter_cons, decide_False; [done|]. unfold within. lia.
Qed.

Lemma window_elem alls b e m : m ∈ window alls b e → b <= time m <= e.
Proof. intros Hm. apply list_elem_of_bind in Hm as (l & Hm & _). by apply list_elem_of_filter in Hm as [Hm _]. Qed.

Context `{!MessageReaderLaws R}.

(** A reader that is not finished has everything from [curr] on before it. *)
Definition reader_ok (curr : Z) (x : R * bool) (all : list message) : Prop :=
  ∃ h left, reading h all left x.1 ∧
    if x.2 then Header.end_time h < curr else filter (later (curr - 1)) left = filter (later (curr - 1)) all.

Lemma finish_ok curr x all : reader_ok curr x all → reader_ok curr (finish curr x) all.
Proof.
  intros (h & left & Hr & Hx). destruct x as [r finished]. unfold finish. cbn [fst snd] in *.
  destruct (reading_facts _ _ _ _ Hr) as (_ & Hh & _). rewrite Hh.
  destruct finished; cbn [negb andb]; [by exists h, left|].
  destruct (Z.ltb_spec (Header.end_time h) curr) as [He|He]; [|by exists h, left].
  exists h, all. split; [by apply (reading_reset _ _ left)|done].
Qed.

Lemma reading_length h all left r : reading h all left r → (length left <= length all)%nat.
Proof. intros Hr. apply reading_facts in Hr as (_ & _ & _ & [k ->] & _). rewrite length_app. lia. Qed.

Lemma read_all_spec fuel b e xs alls : ∀ buffer,
  Forall2 (reader_ok b) xs alls → b <= e → Forall (λ all : list message, length all < fuel)%nat alls →
  ∃ xs', read_all fuel b e xs buffer = Some (xs', foldl (λ buffer m, emplace m buffer) buffer (window alls b e)) ∧
    Forall2 (reader_ok (e + 1)) xs' alls.
Proof.
  intros buffer Hxs Hbe. revert buffer. induction Hxs as [|[r finished] all xs alls Hx _ IH]; intros buffer Hf.
  { exists []. by split. }
  apply Forall_cons in Hf as [Hf1 Hf]. cbn [read_all]. destruct Hx as (h & left & Hr & Hx). cbn [fst snd] in *.
  change (window (all :: alls) b e) with (filter (within b e) all ++ window alls b e). rewrite foldl_app.
  destruct (reading_facts _ _ _ _ Hr) as (_ & Hh & Hord & Hsuf & Hbd). destruct finished.
  - assert (filter (within b e) all = []) as ->.
    { apply filter_within_before. eapply Forall_impl; [exact Hbd|]. cbn. lia. }
    destruct (IH buffer Hf) as (xs' & -> & Hxs'). cbn [mbind option_bind]. eexists. split; [done|].
    constructor; [|done]. exists h, left. cbn. split; [done|lia].
  - pose proof (reading_length _ _ _ _ Hr).
    destruct (read_window_spec b e fuel h all left r Hr Hbe ltac:(lia)) as (r' & left' & -> & Hr' & Hl). cbn [mbind option_bind].
    assert (filter (within b e) left = filter (within b e) all) as ->.
    { rewrite <- (filter_absorb (within b e) (later (b - 1)) left), <- (filter_absorb (within b e) (later (b - 1)) all);
        [by rewrite Hx|unfold within, later; lia..]. }
    destruct (IH (foldl (λ buffer m, emplace m buffer) buffer (filter (within b e) all)) Hf) as (xs' & -> & Hxs').
    eexists. split; [done|]. constructor; [|done]. exists h, left'. cbn. split; [done|].
    replace (e + 1 - 1) with e by lia. rewrite Hl.
    rewrite <- (filter_absorb (later e) (later (b - 1)) left), <- (filter_absorb (later e) (later (b - 1)) all);
      [by rewrite Hx|unfold later; lia..].
Qed.

(** What the view has still to go through. *)
Definition pending (alls : list (list message)) (v : t) : list message :=
  msg_buffer_ v ++ sort (window alls (curr_begin_time_ v) (end_time_ v)).

Record view_ok (alls : list (list message)) (v : t) : Prop := {
  view_readers : Forall2 (reader_ok (curr_begin_time_ v)) (zip (readers_ v) (readers_finished_ v)) alls;
  view_lengths : length (readers_ v) = length (readers_finished_ v);
  view_curr : 0 <= curr_begin_time_ v;
  view_end : end_time_ v + kStepTimeNanoSec + 1 < 2 ^ 64;
  view_buffer : Forall (λ m, time m < curr_begin_time_ v) (msg_buffer_ v)
}.

Definition same_query (v v' : t) : Prop :=
  begin_time_ v' = begin_time_ v ∧ end_time_ v' = end_time_ v ∧ channels_ v' = channels_ v.

Lemma zip_fst_snd {A B} (l : list (A * B)) : zip l.*1 l.*2 = l.
Proof. induction l as [|[a b] l IH]; [done|]. cbn. by f_equal. Qed.

Lemma fill_round_spec fuel alls v :
  view_ok alls v → curr_begin_time_ v <= end_time_ v → Forall (λ all : list message, length all < fuel)%nat alls →
  ∃ v', fill_round fuel v = Some v' ∧ view_ok alls v' ∧ same_query v v' ∧ pending alls v' = pending alls v ∧
    curr_begin_time_ v' = Z.min (curr_begin_time_ v + kStepTimeNanoSec) (end_time_ v) + 1.
Proof.
  intros [] Hce Hf. unfold fill_round. rewrite (u64_small (curr_begin_time_ v + _)) by (unfold kStepTimeNanoSec in *; lia).
  set (c := curr_begin_time_ v) in *. set (e := end_time_ v) in *.
  assert ((if e <? c + kStepTimeNanoSec then e else c + kStepTimeNanoSec) = Z.min (c + kStepTimeNanoSec) e) as ->.
  { destruct (Z.ltb_spec e (c + kStepTimeNanoSec)); lia. }
  set (te := Z.min (c + kStepTimeNanoSec) e). assert (c <= te <= e) as Hte by (unfold te, kStepTimeNanoSec; lia).
  assert (Forall2 (reader_ok c) (finish c <$> zip (readers_ v) (readers_finished_ v)) alls) as Hfin.
  { rewrite Forall2_fmap_l. eapply Forall2_impl; [exact view_readers0|]. apply finish_ok. }
  destruct (read_all_spec fuel c te _ alls (msg_buffer_ v) Hfin ltac:(lia) Hf) as (xs' & -> & Hxs').
  cbn [mbind option_bind]. rewrite u64_small by (unfold kStepTimeNanoSec in *; lia).
  assert (Forall (λ x, Forall (λ m, time x < time m) (window alls c te)) (msg_buffer_ v)) as Hbuf.
  { eapply Forall_impl; [exact view_buffer0|]. cbn. intros x Hx. apply Forall_forall. intros m Hm%window_elem. lia. }
  eexists. split; [done|]. split_and!.
  - constructor; cbn; [by rewrite zip_fst_snd|by rewrite !length_fmap|lia|done|].
    rewrite sort_app_fold by done. apply Forall_app. split.
    + eapply Forall_impl; [exact view_buffer0|]. cbn. lia.
    + rewrite sort_perm. apply Forall_forall. intros m Hm%window_elem. lia.
  - by split_and!.
  - unfold pending. cbn. fold c e. rewrite sort_app_fold, <- app_assoc by done. f_equal.
    symmetry. apply window_split; lia.
  - done.
Qed.

(** Rounds to the end of the window. *)
Definition rounds (c e : Z) : nat := if c <=? e then S (Z.to_nat ((e - c) / kStepTimeNanoSec)) else 0.

Lemma rounds_step c e :
  c <= e → (rounds (Z.min (c + kStepTimeNanoSec) e + 1) e < rounds c e)%nat.
Proof.
  intros Hce. unfold rounds. rewrite (proj2 (Z.leb_le c e)) by done.
  destruct (Z.leb_spec (Z.min (c + kStepTimeNanoSec) e + 1) e) as [Hle|Hle]; [|lia].
  assert (Z.min (c + kStepTimeNanoSec) e = c + kStepTimeNanoSec) as -> by lia.
  assert ((e - (c + kStepTimeNanoSec + 1)) / kStepTimeNanoSec + 1 <= (e - c) / kStepTimeNanoSec) as Hd.
  { rewrite <- Z.div_add by (unfold kStepTimeNanoSec; lia). apply Z.div_le_mono; unfold kStepTimeNanoSec; lia. }
  assert (0 <= (e - (c + kStepTimeNanoSec + 1)) / kStepTimeNanoSec).
  { apply Z.div_pos; unfold kStepTimeNanoSec in *; lia. }
  lia.
Qed.

Lemma FillBuffer_spec fuel alls : ∀ n v,
  view_ok alls v → Forall (λ all : list message, length all < fuel)%nat alls →
  (rounds (curr_begin_time_ v) (end_time_ v) < n)%nat →
  ∃ v', FillBuffer fuel n v = Some (match msg_buffer_ v' with [] => false | _ => true end, v') ∧ view_ok alls v' ∧
    same_query v v' ∧ pending alls v' = pending alls v ∧ curr_begin_time_ v <= curr_begin_time_ v' ∧
    (msg_buffer_ v' = [] → pending alls v' = []).
Proof.
  induction n as [|n IH]; intros v Hv Hf Hn; [lia|]. cbn [FillBuffer].
  destruct (Z.leb_spec (curr_begin_time_ v) (end_time_ v)) as [Hce|Hce];
    [destruct (Z.ltb_spec (Z.of_nat (length (msg_buffer_ v))) kBufferMinSize) as [Hlen|Hlen]|]; cbn [andb].
  - destruct (fill_round_spec fuel alls v Hv Hce Hf) as (v1 & -> & Hv1 & (Hb1 & He1 & Hc1) & Hp1 & Hcurr). cbn [mbind option_bind].
    pose proof (rounds_step _ _ Hce) as Hr. rewrite <- Hcurr, <- He1 in Hr.
    destruct (IH v1 Hv1 Hf ltac:(rewrite He1 in *; lia)) as (v' & -> & Hv' & (Hb & He & Hc) & Hp & Hle & Hemp).
    exists v'. split_and!; try done; [split_and!; congruence|congruence|]. unfold kStepTimeNanoSec in *. lia.
  - exists v. split_and!; try done. intros Hnil. rewrite Hnil in Hlen. cbn in Hlen. unfold kBufferMinSize in Hlen. lia.
  - exists v. split_and!; try done. intros Hnil. unfold pending. by rewrite Hnil, window_empty.
Qed.


Lemma rounds_mono c c' e : c <= c' → (rounds c' e <= rounds c e)%nat.
Proof.
  intros Hc. unfold rounds. destruct (Z.leb_spec c' e) as [Hl|Hl]; [|lia]. rewrite (proj2 (Z.leb_le c e)) by lia.
  assert ((e - c') / kStepTimeNanoSec <= (e - c) / kStepTimeNanoSec).
  { apply Z.div_le_mono; unfold kStepTimeNanoSec; lia. }
  assert (0 <= (e - c') / kStepTimeNanoSec) by (apply Z.div_pos; unfold kStepTimeNanoSec in *; lia). lia.
Qed.

Abbreviation answer v l := (filter (wanted (channels_ v)) l).

Lemma set_buffer_ok alls v m buffer :
  msg_buffer_ v = m :: buffer → view_ok alls v →
  view_ok alls (set_buffer buffer v) ∧ pending alls v = m :: pending alls (set_buffer buffer v).
Proof.
  intros Hb []. rewrite Hb in view_buffer0. apply Forall_cons in view_buffer0 as [_ ?]. split; [by constructor|].
  unfold pending. by rewrite Hb.
Qed.

Lemma Update_spec fuel alls : ∀ n v,
  view_ok alls v → Forall (λ all : list message, length all < fuel)%nat alls →
  (rounds (curr_begin_time_ v) (end_time_ v) < fuel)%nat → (length (pending alls v) < n)%nat →
  ∃ o v', Update fuel n v = Some (o, v') ∧ view_ok alls v' ∧ same_query v v' ∧ curr_begin_time_ v <= curr_begin_time_ v' ∧
    match o with
    | None => answer v (pending alls v) = []
    | Some m => answer v (pending alls v) = m :: answer v (pending alls v') ∧
                (length (pending alls v') < length (pending alls v))%nat
    end.
Proof.
  induction n as [|n IH]; intros v Hv Hf Hrounds Hn; [lia|]. cbn [Update].
  assert (∃ v1, (match msg_buffer_ v with [] => FillBuffer fuel fuel v | _ => Some (true, v) end) =
            Some (match msg_buffer_ v1 with [] => false | _ => true end, v1) ∧ view_ok alls v1 ∧ same_query v v1 ∧
            pending alls v1 = pending alls v ∧ curr_begin_time_ v <= curr_begin_time_ v1 ∧
            (msg_buffer_ v1 = [] → pending alls v1 = [])) as (v1 & -> & Hv1 & (Hb1 & He1 & Hc1) & Hp1 & Hle1 & Hemp).
  { destruct (msg_buffer_ v) as [|m buffer] eqn:Hb; [by apply FillBuffer_spec|]. exists v. rewrite Hb. by split_and!. }
  destruct (msg_buffer_ v1) as [|m buffer] eqn:Hb.
  - exists None, v1. split_and!; try done. rewrite <- Hp1, Hemp by done. done.
  - destruct (set_buffer_ok alls v1 m buffer Hb Hv1) as [Hv2 Hp2]. set (v2 := set_buffer buffer v1) in *.
    assert (channels_ v2 = channels_ v) as Hc2 by exact Hc1. rewrite Hc2, <- Hp1, Hp2, filter_cons.
    destruct (decide (wanted (channels_ v) m)) as [Hw|Hw].
    + exists (Some m), v2. split_and!; try done. cbn. lia.
    + assert (curr_begin_time_ v2 = curr_begin_time_ v1 ∧ end_time_ v2 = end_time_ v) as [Hcu Hen] by done.
      pose proof (rounds_mono _ _ (end_time_ v) Hle1) as Hmono.
      rewrite <- Hp1, Hp2 in Hn. cbn [length] in Hn.
      destruct (IH v2 Hv2 Hf) as (o & v' & -> & Hv' & (Hb' & He' & Hc') & Hle' & Ho); [rewrite Hcu, Hen; lia|lia|].
      exists o, v'. split_and!; try done; [split_and!; [by rewrite Hb'|by rewrite He'|by rewrite Hc']|lia|].
      rewrite Hc2 in Ho. destruct o as [m'|]; [|done]. destruct Ho as [-> Ho]. split; [done|]. cbn [length]; lia.
Qed.

Lemma iterate_spec fuel alls : ∀ n o v,
  view_ok alls v → Forall (λ all : list message, length all < fuel)%nat alls →
  (rounds (curr_begin_time_ v) (end_time_ v) < fuel)%nat → (length (pending alls v) < fuel)%nat →
  (length (pending alls v) < n)%nat →
  ∃ v', iterate fuel n o v = Some (match o with None => [] | Some m => m :: answer v (pending alls v) end, v').
Proof.
  induction n as [|n IH]; intros o v Hv Hf Hrounds Hp Hn; [lia|].
  destruct o as [m|]; cbn [iterate]; [|by exists v].
  destruct (Update_spec fuel alls fuel v Hv Hf Hrounds Hp) as (o & v1 & -> & Hv1 & (Hb1 & He1 & Hc1) & Hle1 & Ho).
  cbn [mbind option_bind]. destruct o as [m1|].
  - destruct Ho as [Ho Hlt]. pose proof (rounds_mono _ _ (end_time_ v) Hle1) as Hmono.
    destruct (IH (Some m1) v1 Hv1 Hf) as (v' & ->); [rewrite He1; lia|lia|lia|]. cbn [mbind option_bind].
    exists v'. by rewrite Ho, Hc1.
  - exists v1. rewrite Ho. by destruct n.
Qed.

(** ** Opening a view *)
Definition represents (r : R) (all : list message) : Prop := ∃ left, reading (rd_header r) all left r.

Lemma min_max_spec readers :
  Forall (λ r, rd_valid r = true) readers →
  Forall (λ r, fst (min_max readers) <= Header.begin_time (rd_header r) ∧
               Header.end_time (rd_header r) <= snd (min_max readers)) readers ∧
  (snd (min_max readers) = 0 ∨ ∃ r, r ∈ readers ∧ snd (min_max readers) = Header.end_time (rd_header r)).
Proof.
  unfold min_max. induction readers as [|r readers IH] using rev_ind; intros Hv; [split; [constructor|by left]|].
  apply Forall_app in Hv as [Hv Hr]. rewrite Forall_singleton in Hr. specialize (IH Hv) as [IH1 IH2].
  rewrite foldl_snoc. destruct (foldl _ (UINT64_MAX, 0) readers) as [mn mx]. cbn [fst snd] in *. rewrite Hr. cbn [negb fst snd].
  split.
  - apply Forall_app. split.
    + eapply Forall_impl; [exact IH1|]. cbn. intros r' Hr'.
      destruct (Z.ltb_spec (Header.begin_time (rd_header r)) mn), (Z.ltb_spec mx (Header.end_time (rd_header r))); lia.
    + rewrite Forall_singleton.
      destruct (Z.ltb_spec (Header.begin_time (rd_header r)) mn), (Z.ltb_spec mx (Header.end_time (rd_header r))); lia.
  - destruct (Z.ltb_spec mx (Header.end_time (rd_header r))).
    + right. exists r. split; [|done]. apply elem_of_app. right. by left.
    + destruct IH2 as [?|(r' & Hr' & ?)]; [by left|]. right. exists r'. split; [|done]. apply elem_of_app. by left.
Qed.

Lemma represents_valid r all : represents r all → rd_valid r = true.
Proof. intros [left Hr]. by apply reading_facts in Hr as (? & _). Qed.

Lemma sorted_readers readers alls :
  Forall2 represents readers alls →
  ∃ alls', alls' ≡ₚ alls ∧ Forall2 represents (merge_sort not_after readers) alls'.
Proof.
  intros Hr. destruct (Permutation_Forall2 (symmetry (merge_sort_Permutation not_after readers)) Hr) as (alls' & Hp & Hr').
  by exists alls'.
Qed.

Lemma bind_length (alls : list (list message)) (f : list message → list message) :
  (∀ l, (length (f l) <= length l)%nat) → (length (alls ≫= f) <= length (mjoin alls))%nat.
Proof.
  intros Hf. induction alls as [|l alls IH]; [done|].
  change ((l :: alls) ≫= f) with (f l ++ (alls ≫= f)). change (mjoin (l :: alls)) with (l ++ mjoin alls).
  rewrite !length_app. specialize (Hf l). lia.
Qed.

Lemma length_le_join (l : list message) (alls : list (list message)) : l ∈ alls → (length l <= length (mjoin alls))%nat.
Proof.
  induction alls as [|l' alls IH]; intros Hl; [by apply elem_of_nil in Hl|].
  change (mjoin (l' :: alls)) with (l' ++ mjoin alls). rewrite length_app.
  apply elem_of_cons in Hl as [->|Hl]; [lia|]. specialize (IH Hl). lia.
Qed.

Lemma filter_in_order (P : message → Prop) `{∀ m, Decision (P m)} (l : list message) :
  Stream.in_order l → Stream.in_order (filter P l).
Proof.
  unfold Stream.in_order. induction 1 as [|m l _ IH Hm]; [constructor|]. rewrite filter_cons.
  destruct (decide (P m)); [|done]. constructor; [done|]. apply Forall_forall. intros x Hx.
  apply list_elem_of_filter in Hx as [_ Hx]. rewrite Forall_forall in Hm. by apply Hm.
Qed.

(** What the constructor sets: the readers sorted, and the times cut to those
    of the records. *)
Lemma viewer_made readers b e channels :
  let v := RecordViewer readers b e channels in
  let sorted := merge_sort not_after readers in
  begin_time_ v = Z.max b (fst (min_max sorted)) ∧ end_time_ v = Z.min e (snd (min_max sorted)) ∧
  readers_ v = sorted ∧ readers_finished_ v = replicate (length readers) false ∧ channels_ v = channels.
Proof.
  unfold RecordViewer, UpdateTime. cbn -[min_max]. destruct (min_max _) as [mn mx]. cbn. split_and!; try done.
  - destruct (Z.ltb_spec b mn); lia.
  - destruct (Z.ltb_spec mx e); lia.
Qed.

Lemma represents_all_valid readers alls : Forall2 represents readers alls → Forall (λ r, rd_valid r = true) readers.
Proof. induction 1 as [|r all readers alls Hr _ IH]; constructor; [by apply (represents_valid r all)|done]. Qed.

(** Cutting the times loses nothing. *)
Lemma viewer_window readers alls b e :
  Forall2 represents readers alls →
  window alls (Z.max b (fst (min_max readers))) (Z.min e (snd (min_max readers))) = window alls b e.
Proof.
  intros Hr. destruct (min_max_spec readers (represents_all_valid _ _ Hr)) as [Hmm _].
  apply bind_ext. intros all Ha. apply filter_ext_in. intros m Hm.
  apply list_elem_of_lookup in Ha as [i Hi]. destruct (Forall2_lookup_r _ _ _ _ _ Hr Hi) as (r & Hri & [left Hread]).
  apply reading_facts in Hread as (_ & _ & _ & _ & Hbd). rewrite Forall_forall in Hbd. specialize (Hbd m Hm).
  pose proof (Forall_lookup_1 _ _ _ _ Hmm Hri) as Hm2. cbn in Hm2, Hbd. unfold within. lia.
Qed.

Lemma viewer_reset_ok readers alls v :
  Forall2 represents readers alls → Forall (λ r, Header.end_time (rd_header r) + kStepTimeNanoSec + 1 < 2 ^ 64) readers →
  readers_ v = readers → readers_finished_ v = replicate (length readers) false →
  0 <= begin_time_ v → end_time_ v <= snd (min_max readers) →
  view_ok alls (Reset v).
Proof.
  intros Hr Hend Hvr Hvf Hb He. destruct (min_max_spec readers (represents_all_valid _ _ Hr)) as [_ Hmax].
  unfold Reset. constructor; cbn -[kStepTimeNanoSec]; rewrite ?Hvr, ?Hvf, ?length_replicate, ?length_fmap; try done.
  - clear -Hr MessageReaderLaws0. induction Hr as [|r all rs alls [left Hread] _ IH]; cbn; constructor; [|exact IH].
    exists (rd_header r), all. split; [|done]. by apply (reading_reset _ _ left).
  - destruct Hmax as [Hmax|(r & Hin & Hmax)]; [unfold kStepTimeNanoSec; lia|].
    rewrite Forall_forall in Hend. specialize (Hend r Hin). cbn in Hend. lia.
Qed.

(** One record: its order is the order of the view. *)
Lemma viewer_one channels b e all alls readers :
  alls ≡ₚ [all] → Forall2 represents readers alls →
  filter (wanted channels) (sort (window alls b e)) = filter (wanted channels) (filter (within b e) all).
Proof.
  intros ->%Permutation_singleton_r Hr. cbn [mbind list_bind]. rewrite app_nil_r.
  destruct (Forall2_cons_inv_r _ _ _ _ Hr) as (r & sorted' & [left Hread] & _ & _).
  apply reading_facts in Hread as (_ & _ & Ho & _). f_equal. apply sort_in_order. by apply filter_in_order.
Qed.

(** From a view that is at its beginning to its end. *)
Lemma view_spec fuel alls v :
  view_ok alls (Reset v) →
  let todo := sort (window alls (begin_time_ v) (end_time_ v)) in
  (length (mjoin alls) + rounds (begin_time_ v) (end_time_ v) < fuel)%nat →
  ∃ v', view fuel v = Some (filter (wanted (channels_ v)) todo, v').
Proof.
  intros Hv todo Hfuel. unfold view, begin. set (v1 := Reset v) in *.
  unfold IsValid. change (end_time_ v1) with (end_time_ v). change (begin_time_ v1) with (begin_time_ v).
  destruct (Z.ltb_spec (end_time_ v) (begin_time_ v)) as [Hlt|Hle].
  - exists v1. unfold todo. rewrite window_empty by done. by destruct fuel.
  - cbn [negb mbind option_bind].
    assert (pending alls v1 = todo) as Hpend by done.
    assert (length (pending alls v1) <= length (mjoin alls))%nat as Hplen.
    { rewrite Hpend. unfold todo. rewrite (Permutation_length (sort_perm _)). apply bind_length. intros l. apply length_filter. }
    assert (Forall (λ all : list message, length all < fuel)%nat alls) as Hf.
    { apply Forall_forall. intros all Ha. pose proof (length_le_join all alls Ha). lia. }
    change (begin_time_ v) with (curr_begin_time_ v1) in Hfuel. change (end_time_ v) with (end_time_ v1) in Hfuel.
    destruct (Update_spec fuel alls fuel v1 Hv Hf) as (o & v2 & -> & Hv2 & (Hb2 & He2 & Hc2) & Hle2 & Ho); [lia..|].
    cbn [mbind option_bind]. rewrite Hpend in Ho, Hplen. change (channels_ v1) with (channels_ v) in *. destruct o as [m|].
    + destruct Ho as [Ho Hlt]. pose proof (rounds_mono _ _ (end_time_ v1) Hle2) as Hmono.
      destruct (iterate_spec fuel alls fuel (Some m) v2 Hv2 Hf) as (v' & ->); [rewrite He2; lia|lia..|].
      exists v'. by rewrite Hc2, Ho.
    + exists v2. rewrite Ho. by destruct fuel.
Qed.

(** C11: a view shows every message of its window and channels.  Its iteration
    ends, and what it goes through is, in the order of time, every message of
    every record whose time is in the window and whose channel is asked for -
    each as often as the records hold it, those of the same time in the order
    of their records; of one record, they come in the order of that record. *)
Theorem record_viewer_complete readers alls b e channels fuel :
  0 <= b → Forall2 represents readers alls →
  Forall (λ r, Header.end_time (rd_header r) + kStepTimeNanoSec + 1 < 2 ^ 64) readers →
  let v := RecordViewer readers b e channels in
  (length (mjoin alls) + rounds (begin_time_ v) (end_time_ v) < fuel)%nat →
  ∃ alls' out v', view fuel v = Some (out, v') ∧ alls' ≡ₚ alls ∧
    out = filter (wanted channels) (sort (window alls' b e)) ∧ Stream.in_order out ∧
    (∀ all, alls = [all] → out = filter (wanted channels) (filter (within b e) all)).
Proof.
  intros Hb Hr Hend v Hfuel. destruct (sorted_readers readers alls Hr) as (alls' & Hperm & Hr').
  destruct (viewer_made readers b e channels) as (Hvb & Hve & Hvr & Hvf & Hvch). fold v in Hvb, Hve, Hvr, Hvf, Hvch.
  pose proof (merge_sort_Permutation not_after readers) as Hsort.
  assert (view_ok alls' (Reset v)) as Hv.
  { apply (viewer_reset_ok (merge_sort not_after readers)); try done; [by rewrite Hsort|by rewrite Hsort|lia..]. }
  destruct (view_spec fuel alls' v Hv) as (v' & Hview); [by rewrite Hperm|].
  rewrite Hvb, Hve, Hvch, (viewer_window _ _ _ _ Hr') in Hview.
  eexists alls', _, v'. split_and!; [exact Hview|done|done|apply filter_in_order, sort_sorted|].
  intros all ->. by apply (viewer_one _ _ _ _ _ _ Hperm Hr').
Qed.

End viewer.
End RecordViewer.

(** ** From the writer to the reader *)
Module RecordRoundTrip.
Import Layout RecordFlush.RecordFlush.
Section roundtrip.
Context `{RecordProtoLaws}.

Lemma index_items_wf l : ∀ start,
  Forall wf_item l → Z.of_nat (start + length (enc_items l)) < 2 ^ 63 → wf (Index.mk (index_items start l)).
Proof.
  unfold wf, typed_index. cbn [Index.indexes]. induction l as [|i l IH]; intros start Hl Hlen; [constructor|].
  apply Forall_cons in Hl as [Hi Hl]. change (enc_items (i :: l)) with (enc_item i ++ enc_items l) in Hlen.
  rewrite length_app in Hlen. cbn [index_items]. apply Forall_app. split; [|apply IH; [done|lia]].
  assert (∀ n, (n <= start + length (enc_item i))%nat → uint64 (Z.of_nat n)) as Hu by (intros n Hn; unfold uint64; lia).
  destruct i as [c|h b]; cbn [index_item enc_item] in *; rewrite ?Forall_cons, Forall_nil; cbn -[uint64 bytes_of].
  - split_and!; [apply Hu; lia|unfold wf, typed_cache, uint64; cbn; lia|done].
  - destruct Hi as [Hh _]. unfold wf, typed_chunk_header in Hh. rewrite !Forall_cons in Hh. destruct_and!.
    rewrite length_app in *. split_and!; try done; try (apply Hu; lia); [|apply uint64_u64].
    unfold wf, typed_cache. cbn -[uint64]. rewrite !Forall_cons. by split_and!.
Qed.

Lemma final_index_wf m l :
  map_Forall (λ _, uint64) m → Forall wf_item l → Z.of_nat (2064 + length (enc_items l)) < 2 ^ 63 → wf (final_index m l).
Proof.
  intros Hm Hl Hlen. pose proof (index_items_wf l 2064 Hl Hlen) as Hwf. unfold final_index, wf, typed_index in *. cbn [Index.indexes] in *.
  rewrite Forall_fmap. eapply Forall_impl; [exact Hwf|]. intros i [Hp Hc]. unfold compose, RecordFileWriter.update_index.
  destruct (SingleIndex.type i); try done. destruct (SingleIndex.cache_ i) as [[c| |]|] eqn:E; rewrite ?E; try done.
  destruct (m !! ChannelCache.name c) as [n|] eqn:En; [|by rewrite E]. cbn. split; [done|]. by apply (Hm _ _ En).
Qed.

Lemma bump_uint64 ms : map_Forall (λ _, uint64) (foldl bump ∅ ms).
Proof.
  induction ms as [|x ms IH] using rev_ind; [apply map_Forall_empty|]. rewrite foldl_snoc. unfold bump.
  destruct (_ !! _); apply map_Forall_insert_2; auto using uint64_u64. unfold uint64. lia.
Qed.

(** The reader's table: one entry for each channel, with the writer's count. *)
Lemma channel_info_spec m l :
  let info := RecordReader.channel_info (final_index m l) in
  (∀ name c, info !! name = Some c → ChannelCache.message_number c = default 0 (m !! name)) ∧
  (∀ c, IChannel c ∈ l → is_Some (info !! Channel.name c)).
Proof.
  unfold RecordReader.channel_info, final_index. cbn [Index.indexes]. rewrite foldl_fmap.
  set (f := (λ (a : gmap string ChannelCache.t) (y : SingleIndex.t), _)).
  assert (∀ start l (mp : gmap string ChannelCache.t),
    (∀ name c, mp !! name = Some c → ChannelCache.message_number c = default 0 (m !! name)) →
    let info := foldl f mp (index_items start l) in
    (∀ name c, info !! name = Some c → ChannelCache.message_number c = default 0 (m !! name)) ∧
    (∀ name, is_Some (mp !! name) → is_Some (info !! name)) ∧
    (∀ c, IChannel c ∈ l → is_Some (info !! Channel.name c))) as Hgen.
  { intros start l0. revert start. induction l0 as [|i l0 IH]; intros start mp Hmp.
    - cbn. split_and!; [done|done|]. intros c Hc. by apply elem_of_nil in Hc.
    - cbn [index_items]. rewrite foldl_app. destruct i as [c|h b].
      + set (mp' := foldl f mp (index_item start (IChannel c))).
        assert ((∀ name c', mp' !! name = Some c' → ChannelCache.message_number c' = default 0 (m !! name)) ∧
                (∀ name, is_Some (mp !! name) → is_Some (mp' !! name)) ∧ is_Some (mp' !! Channel.name c)) as (H1 & H2 & H3).
        { unfold mp'. cbn. unfold f, RecordFileWriter.update_index. cbn.
          assert (∀ c', ChannelCache.name c' = Channel.name c → ChannelCache.message_number c' = default 0 (m !! Channel.name c) →
            let mp' := match mp !! Channel.name c with Some _ => mp | None => <[Channel.name c := c']> mp end in
            (∀ name c'0, mp' !! name = Some c'0 → ChannelCache.message_number c'0 = default 0 (m !! name)) ∧
            (∀ name, is_Some (mp !! name) → is_Some (mp' !! name)) ∧ is_Some (mp' !! Channel.name c)) as Hins.
          { intros c' Hn Hc'. destruct (mp !! Channel.name c) eqn:E; cbn; [split_and!; [done|done|by rewrite E]|].
            split_and!; [|intros name Hs; rewrite lookup_insert; by destruct (decide _)|by rewrite lookup_insert_eq].
            intros name c0. rewrite lookup_insert. destruct (decide (Channel.name c = name)) as [<-|]; [by intros [= <-]|apply Hmp]. }
          destruct (m !! Channel.name c) eqn:E; cbn; apply Hins; done || by rewrite E. }
        destruct (IH (start + length (enc_item (IChannel c)))%nat mp' H1) as (I1 & I2 & I3). split_and!; [done|auto|].
        intros c' [[= ->]|Hc']%elem_of_cons; auto.
      + change (foldl f mp (index_item start (IChunk h b))) with mp.
        destruct (IH (start + length (enc_item (IChunk h b)))%nat mp Hmp) as (I1 & I2 & I3). split_and!; [done|done|].
        intros c' [[=]|Hc']%elem_of_cons; auto. }
  destruct (Hgen 2064%nat l ∅) as (H1 & _ & H2); [by intros ? ? ?|]. done.
Qed.

(** A recording: the file was closed, it fits, and the messages were given in
    the order of their times. *)
Record recording (old : list Z) (limit : Z) (h : Header.t) (s : state) : Prop := {
  rec_limit : limit <= 2 ^ 63;
  rec_header : wf h ∧ Header.begin_time h = 0 ∧ Header.message_number h = 0;
  rec_reachable : reachable step (start old limit h) s;
  rec_fits : fits s;
  rec_closed : app s = AClosed;
  rec_calm : calm s = true;
  rec_times : Forall (λ x, 0 < time x) (given s) ∧ Stream.in_order (given s);
  rec_sizes : Stream.sizes_ok (RecordFileWriter.channel_message_number_map_ (file_writer s)) (wrote s)
}.

(** The file of a recording, opened. *)
Definition reopened (s : state) : RecordReader.t :=
  RecordReader.RecordReader false (Some (Posix.content (RecordFileWriter.fd_ (file_writer s)))).

Lemma reopened_spec old limit h s :
  recording old limit h s →
  let m := RecordFileWriter.channel_message_number_map_ (file_writer s) in
  reading (rd_header (reopened s)) (given s) (given s) (reopened s) ∧
  RecordReader.channel_info_ (reopened s) = RecordReader.channel_info (final_index m (wrote s)).
Proof.
  intros [Hlimit (Hwf & Hz & _) Hreach Hfit Ha Hcalm [Hpos Hord] Hsz] m.
  pose proof (reachable_invariant limit h old Hlimit s Hwf Hreach Hfit) as [].
  destruct (inv_closed0 Ha) as (Hwfl & Hfwf & Hc). fold m in Hc, Hsz, Hfwf.
  assert (pending s = []) as Hp.
  { unfold pending. rewrite Ha in *. rewrite (inv_flush_done0 I), (inv_active_done0 I). by case_decide. }
  specialize (inv_calm0 Hcalm). rewrite Hp, app_nil_r in inv_calm0. rewrite <- inv_calm0 in *.
  assert (Z.of_nat (length (complete_file m h (wrote s) old)) < 2 ^ 63) as Hlen.
  { rewrite <- Hc. destruct Hfit as [Hr _]. unfold room in Hr. rewrite inv_limit0 in Hr. lia. }
  assert (wf (final_index m (wrote s))) as Hxwf.
  { apply final_index_wf; [|done|].
    - unfold m. rewrite inv_numbers0. apply bump_uint64.
    - unfold complete_file in Hlen. rewrite !length_app, length_enc_header in Hlen by done. lia. }
  unfold reopened. rewrite Hc.
  destruct (Stream.RecordReader_complete m h (wrote s) old Hz Hwfl Hfwf Hxwf Hsz inv_items0 Hpos Hord Hlen) as (Hr & _ & Hinfo).
  split; [|exact Hinfo]. cbn [rd_header record_reader].
  assert (RecordReader.header_ (RecordReader.RecordReader false (Some (complete_file m h (wrote s) old))) = final_header m h (wrote s)) as ->.
  { destruct Hr as (? & ? & ? & ? & ? & ? & _ & _ & _ & _ & _ & _ & _ & _ & _ & Hh & _). exact Hh. }
  exact Hr.
Qed.

(** C7: what is recorded is what is read.  The file that a recording leaves -
    whatever the threads' interleaving, as long as the flush thread kept up,
    and whatever the file held before - opens as a valid record, and reading any
    window of it to its end gives exactly the messages that were recorded with a
    time in the window, in order; the reader's count for a channel is the
    writer's. *)
Theorem record_roundtrip old limit h s :
  recording old limit h s →
  RecordReader.is_valid_ (reopened s) = true ∧
  (∀ b e, b <= e →
    ∃ r', read_window (S (length (given s))) b e (reopened s) = Some (filter (within b e) (given s), r')) ∧
  (∀ c, IChannel c ∈ wrote s →
    RecordReader.GetMessageNumber (Channel.name c) (reopened s) =
    RecordFileWriter.GetMessageNumber (Channel.name c) (file_writer s)).
Proof.
  intros Hrec. destruct (reopened_spec old limit h s Hrec) as [Hr Hinfo]. split_and!.
  - by apply reading_facts in Hr as (? & _).
  - intros b e Hbe. destruct (read_window_spec b e (S (length (given s))) _ _ _ _ Hr Hbe ltac:(lia)) as (r' & left' & Hw & _).
    by exists r'.
  - intros c Hin. destruct (channel_info_spec (RecordFileWriter.channel_message_number_map_ (file_writer s)) (wrote s)) as [H1 H2].
    unfold RecordReader.GetMessageNumber. rewrite Hinfo. destruct (H2 c Hin) as [cc Hcc]. rewrite Hcc. by apply H1.
Qed.

End roundtrip.
End RecordRoundTrip.

(** ** A recording, read back *)
Module RecordSample.
Import SampleProtos RecordFlush.RecordFlush Sample.

Definition opened : RecordReader.t := RecordRoundTrip.reopened recorded.

Lemma recorded_reachable : reachable step (start [7; 7; 7] (2 ^ 62) no_limits) recorded.
Proof. apply (run_reachable step _ calm_schedule). exact recorded_run. Qed.

Lemma recorded_given : given recorded = [hello; world].
Proof. vm_compute. reflexivity. Qed.

Lemma recorded_fits : fits recorded.
Proof.
  split_and!; [vm_compute; reflexivity|vm_compute; reflexivity|]. rewrite recorded_given. repeat constructor; discriminate.
Qed.

Lemma recorded_wf : wf no_limits.
Proof. repeat constructor; discriminate. Qed.

Definition size_ok {T} `{Proto T} (m : T) : bool :=
  (0 <? Z.of_nat (length (ser m))) && (Z.of_nat (length (ser m)) <? 2 ^ 31).
Lemma size_ok_small {T} `{Proto T} (m : T) : size_ok m = true → Layout.small m.
Proof. unfold size_ok, Layout.small. intros [? ?]%andb_true_iff. lia. Qed.

Lemma recorded_sizes :
  Stream.sizes_ok (RecordFileWriter.channel_message_number_map_ (file_writer recorded)) (wrote recorded).
Proof.
  split; [|apply size_ok_small; vm_compute; reflexivity].
  assert (forallb (λ i, match i with Layout.IChannel c => size_ok c | Layout.IChunk h b => size_ok h && size_ok b end)
            (wrote recorded) = true) as Hs by (vm_compute; reflexivity).
  rewrite forallb_forall in Hs. apply Forall_forall. intros i Hi%list_elem_of_In. specialize (Hs i Hi).
  destruct i; [by apply size_ok_small|]. apply andb_true_iff in Hs as [? ?]. split; by apply size_ok_small.
Qed.

Lemma given_positive : Forall (λ x, 0 < time x) (given recorded).
Proof. rewrite recorded_given. by repeat constructor. Qed.

Lemma given_in_order : Stream.in_order (given recorded).
Proof. rewrite recorded_given. repeat constructor; discriminate. Qed.

Lemma recorded_recording : RecordRoundTrip.recording [7; 7; 7] (2 ^ 62) no_limits recorded.
Proof.
  constructor; [lia|by split_and!; [exact recorded_wf|..]|exact recorded_reachable|exact recorded_fits| | |
    |exact recorded_sizes].
  - vm_compute. reflexivity.
  - vm_compute. reflexivity.
  - split; [exact given_positive|exact given_in_order].
Qed.

Lemma record_roundtrip_witness :
  (∃ r, read_window (S (length (given recorded))) 6 20 opened = Some ([world], r)) ∧
  RecordReader.GetMessageNumber "/a" opened = 2.
Proof.
  destruct (RecordRoundTrip.record_roundtrip _ _ _ recorded recorded_recording) as (_ & Hr & Hn). split.
  - destruct (Hr 6 20 ltac:(lia)) as (r' & Hw). exists r'. rewrite recorded_given in Hw at 2. exact Hw.
  - assert (Layout.IChannel (Channel.mk "/a" "T" "") ∈ wrote recorded) as Hin by (vm_compute; left).
    etransitivity; [exact (Hn _ Hin)|]. vm_compute. reflexivity.
Defined.

Lemma opened_represents : RecordViewer.represents opened (given recorded).
Proof. exists (given recorded). apply (RecordRoundTrip.reopened_spec _ _ _ _ recorded_recording). Qed.

Lemma record_viewer_complete_witness :
  ∃ v, RecordViewer.view 20 (RecordViewer.RecordViewer [opened] 6 100 ∅) = Some ([world], v).
Proof.
  destruct (RecordViewer.record_viewer_complete [opened] [given recorded] 6 100 ∅ 20) as (alls & out & v & Hview & _ & _ & _ & Hone).
  - lia.
  - constructor; [exact opened_represents|constructor].
  - constructor; [|constructor]. vm_compute. reflexivity.
  - vm_compute. lia.
  - exists v. rewrite Hview. rewrite (Hone _ eq_refl), recorded_given. reflexivity.
Defined.

End RecordSample.
