(* ===== verification/RecordWriter.v ===== *)
(** * Recording in segments ([cyber/record/record_writer.cc],
    [cyber/record/record_writer.h])

    The writer of a record hands messages and channels to a file, and starts a
    new file when the present one spans more time or holds more bytes than a
    segment may.  The file is used through the interface [FileWriter], so what
    is proved here holds for any file writer. *)

From stdpp Require Import pretty sorting.
From S2P Require Import Prelude RecordFile RecordFlush Record.

Local Open Scope Z_scope.
Local Open Scope cyber_scope.

(** ** What a record writer asks of a file *)
Inductive call :=
| COpen (path : string)
| CHeader (h : Header.t)
| CChannel (c : Channel.t)
| CMessage (m : SingleMessage.t)
| CClose.

Class FileWriter (W : Type) := {
  fw_new : W;
  fw_Open : string → W → bool * W;
  fw_WriteHeader : Header.t → W → bool * W;
  fw_WriteChannel : Channel.t → W → bool * W;
  fw_WriteMessage : SingleMessage.t → W → bool * W;
  fw_Close : W → W
}.

(** A file writer knows the calls it has had, whatever it answered to them. *)
Class FileWriterLaws (W : Type) `{FileWriter W} := {
  fw_calls : W → list call;
  fw_calls_new : fw_calls fw_new = [];
  fw_calls_Open p w : fw_calls (snd (fw_Open p w)) = fw_calls w ++ [COpen p];
  fw_calls_WriteHeader h w : fw_calls (snd (fw_WriteHeader h w)) = fw_calls w ++ [CHeader h];
  fw_calls_WriteChannel c w : fw_calls (snd (fw_WriteChannel c w)) = fw_calls w ++ [CChannel c];
  fw_calls_WriteMessage m w : fw_calls (snd (fw_WriteMessage m w)) = fw_calls w ++ [CMessage m];
  fw_calls_Close w : fw_calls (fw_Close w) = fw_calls w ++ [CClose]
}.

Module RecordWriter.
Section writer.
Context {W : Type} `{FileWriter W}.

(** [done_] holds the files that have been closed, oldest first; the code keeps
    the last of them in [file_writer_backup_]. *)
Record t := mk {
  header_ : Header.t;
  file_ : string;
  path_ : string;
  is_opened_ : bool;
  segment_raw_size_ : Z;
  segment_begin_time_ : Z;
  file_index_ : Z;
  channel_message_number_map_ : gmap string Z;
  channel_message_type_map_ : gmap string string;
  channel_proto_desc_map_ : gmap string string;
  file_writer_ : W;
  done_ : list W
}.

Definition set_header (h : Header.t) (r : t) : t :=
  mk h (file_ r) (path_ r) (is_opened_ r) (segment_raw_size_ r) (segment_begin_time_ r) (file_index_ r)
     (channel_message_number_map_ r) (channel_message_type_map_ r) (channel_proto_desc_map_ r) (file_writer_ r) (done_ r).
Definition set_file (f p : string) (i : Z) (r : t) : t :=
  mk (header_ r) f p (is_opened_ r) (segment_raw_size_ r) (segment_begin_time_ r) i
     (channel_message_number_map_ r) (channel_message_type_map_ r) (channel_proto_desc_map_ r) (file_writer_ r) (done_ r).
Definition set_opened (b : bool) (r : t) : t :=
  mk (header_ r) (file_ r) (path_ r) b (segment_raw_size_ r) (segment_begin_time_ r) (file_index_ r)
     (channel_message_number_map_ r) (channel_message_type_map_ r) (channel_proto_desc_map_ r) (file_writer_ r) (done_ r).
Definition set_segment (size begin_time : Z) (r : t) : t :=
  mk (header_ r) (file_ r) (path_ r) (is_opened_ r) size begin_time (file_index_ r)
     (channel_message_number_map_ r) (channel_message_type_map_ r) (channel_proto_desc_map_ r) (file_writer_ r) (done_ r).
Definition set_maps (n : gmap string Z) (ty desc : gmap string string) (r : t) : t :=
  mk (header_ r) (file_ r) (path_ r) (is_opened_ r) (segment_raw_size_ r) (segment_begin_time_ r) (file_index_ r)
     n ty desc (file_writer_ r) (done_ r).
Definition set_writer (w : W) (r : t) : t :=
  mk (header_ r) (file_ r) (path_ r) (is_opened_ r) (segment_raw_size_ r) (segment_begin_time_ r) (file_index_ r)
     (channel_message_number_map_ r) (channel_message_type_map_ r) (channel_proto_desc_map_ r) w (done_ r).
Definition set_done (l : list W) (r : t) : t :=
  mk (header_ r) (file_ r) (path_ r) (is_opened_ r) (segment_raw_size_ r) (segment_begin_time_ r) (file_index_ r)
     (channel_message_number_map_ r) (channel_message_type_map_ r) (channel_proto_desc_map_ r) (file_writer_ r) l.

(** [RecordWriter(header)]; the default constructor uses [GetHeader()]. *)
Definition RecordWriter (header : Header.t) : t :=
  mk header "" "" false 0 0 0 ∅ ∅ ∅ fw_new [].

(** [setw(5) << setfill('0') << file_index_], after a dot. *)
Fixpoint zeros (n : nat) : string := match n with O => "" | S n => ("0" +:+ zeros n)%string end.
Definition suffix (file_index : Z) : string :=
  let digits := pretty file_index in ("." +:+ zeros (5 - String.length digits) +:+ digits)%string.

Definition Open (file : string) (r : t) : bool * t :=
  let sstream := suffix 0 in
  let path :=
    if (0 <? Header.segment_interval (header_ r)) || (0 <? Header.segment_raw_size (header_ r))
    then (file +:+ sstream)%string else file in
  let r := set_file file path 1 r in
  let '(ok, w) := fw_Open path fw_new in
  let r := set_writer w r in
  if negb ok then (false, r)
  else
    let '(_, w) := fw_WriteHeader (header_ r) (file_writer_ r) in
    (true, set_opened true (set_writer w r)).

Definition Close (r : t) : t :=
  if is_opened_ r then set_opened false (set_writer (fw_Close (file_writer_ r)) r) else r.

(** The loop of [SplitOutfile] over the channels, in the map's order. *)
Fixpoint write_channels (names : list string) (r : t) : bool * t :=
  match names with
  | [] => (true, r)
  | name :: names =>
      let channel := Channel.mk name (default "" (channel_message_type_map_ r !! name))
                       (default "" (channel_proto_desc_map_ r !! name)) in
      let '(ok, w) := fw_WriteChannel channel (file_writer_ r) in
      let r := set_writer w r in
      if ok : bool then write_channels names r else (false, r)
  end.

Definition channel_names (r : t) : list string := (map_to_list (channel_message_number_map_ r)).*1.

Definition SplitOutfile (r : t) : bool * t :=
  let r := set_writer fw_new r in
  let file_index := if 99999 <? file_index_ r then 0 else file_index_ r in
  let path := (file_ r +:+ suffix file_index)%string in
  let r := set_file (file_ r) path (file_index +32 1) r in
  let r := set_segment 0 0 r in
  let '(ok, w) := fw_Open path (file_writer_ r) in
  let r := set_writer w r in
  if negb ok then (false, r)
  else
    let '(ok, w) := fw_WriteHeader (header_ r) (file_writer_ r) in
    let r := set_writer w r in
    if negb ok then (false, r) else write_channels (channel_names r) r.

Definition IsNewChannel (channel_name : string) (r : t) : bool :=
  bool_decide (channel_message_number_map_ r !! channel_name = None).

Definition OnNewChannel (channel_name message_type proto_desc : string) (r : t) : t :=
  if IsNewChannel channel_name r then
    set_maps (<[channel_name := 0]> (channel_message_number_map_ r))
      (<[channel_name := message_type]> (channel_message_type_map_ r))
      (<[channel_name := proto_desc]> (channel_proto_desc_map_ r)) r
  else r.

Definition OnNewMessage (channel_name : string) (r : t) : t :=
  match channel_message_number_map_ r !! channel_name with
  | Some n =>
      set_maps (<[channel_name := n +64 1]> (channel_message_number_map_ r)) (channel_message_type_map_ r)
        (channel_proto_desc_map_ r) r
  | None => r
  end.

Definition WriteChannel (channel_name message_type proto_desc : string) (r : t) : bool * t :=
  if IsNewChannel channel_name r then
    let r := OnNewChannel channel_name message_type proto_desc r in
    let '(ok, w) := fw_WriteChannel (Channel.mk channel_name message_type proto_desc) (file_writer_ r) in
    (ok, set_writer w r)
  else (true, r).

(** Is the segment over with this message? *)
Definition segment_over (message : SingleMessage.t) (r : t) : bool :=
  ((0 <? Header.segment_interval (header_ r)) &&
   (Header.segment_interval (header_ r) <? SingleMessage.time message -64 segment_begin_time_ r)) ||
  ((0 <? Header.segment_raw_size (header_ r)) && (Header.segment_raw_size (header_ r) <? segment_raw_size_ r)).

(** [WriteMessage(SingleMessage)]. *)
Definition WriteMessage (message : SingleMessage.t) (r : t) : bool * t :=
  let r := OnNewMessage (SingleMessage.channel_name message) r in
  let '(ok, w) := fw_WriteMessage message (file_writer_ r) in
  let r := set_writer w r in
  if negb ok then (false, r)
  else
    let b := segment_begin_time_ r in
    let b := if b =? 0 then SingleMessage.time message else b in
    let b := if SingleMessage.time message <? b then SingleMessage.time message else b in
    let r := set_segment (segment_raw_size_ r +64 Z.of_nat (length (SingleMessage.content message))) b r in
    if segment_over message r then
      let closed := fw_Close (file_writer_ r) in
      SplitOutfile (set_done (done_ r ++ [closed]) r)
    else (true, r).

(** [WriteMessage<MessageT>]: [full_name] is the message's type, and
    [serialized] what [SerializeToString] gives, if it succeeds. *)
Definition GetMessageType (channel_name : string) (r : t) : string :=
  default "" (channel_message_type_map_ r !! channel_name).
Definition GetProtoDesc (channel_name : string) (r : t) : string :=
  default "" (channel_proto_desc_map_ r !! channel_name).
Definition GetMessageNumber (channel_name : string) (r : t) : Z :=
  default 0 (channel_message_number_map_ r !! channel_name).

Definition WriteTyped (channel_name full_name : string) (serialized : option (list Z)) (time_nanosec : Z)
    (proto_desc : string) (r : t) : bool * t :=
  let message_type := GetMessageType channel_name r in
  let '(ok, r) :=
    if (message_type =? "")%string then WriteChannel channel_name full_name proto_desc r
    else ((full_name =? message_type)%string, r) in
  if negb ok then (false, r)
  else
    match serialized with
    | None => (false, r)
    | Some content => WriteMessage (SingleMessage.mk channel_name time_nanosec content) r
    end.

Definition SetSizeOfFileSegmentation (size_kilobytes : Z) (r : t) : bool * t :=
  if is_opened_ r then (false, r)
  else (true, set_header (Header.set_segment_raw_size (u64 (size_kilobytes * 1024)) (header_ r)) r).
Definition SetIntervalOfFileSegmentation (time_sec : Z) (r : t) : bool * t :=
  if is_opened_ r then (false, r)
  else (true, set_header (Header.set_segment_interval (u64 (time_sec * 1000000000)) (header_ r)) r).

(** ** The segments *)
Context `{!FileWriterLaws W}.

Definition call_messages (c : call) : list SingleMessage.t := match c with CMessage m => [m] | _ => [] end.
Definition call_channels (c : call) : list Channel.t := match c with CChannel c => [c] | _ => [] end.
Definition messages (w : W) : list SingleMessage.t := fw_calls w ≫= call_messages.
Definition channels (w : W) : list Channel.t := fw_calls w ≫= call_channels.

(** The files of the record so far. *)
Definition files (r : t) : list W := done_ r ++ [file_writer_ r].
Definition recorded (r : t) : list SingleMessage.t := files r ≫= messages.


Abbreviation time := SingleMessage.time.
Abbreviation content_size m := (Z.of_nat (length (SingleMessage.content m))).

Fixpoint total_size (ms : list SingleMessage.t) : Z :=
  match ms with [] => 0 | m :: ms => content_size m + total_size ms end.

(** A segment is within the limits of the header [h]: it spans no more time
    than [segment_interval] and holds no more bytes than [segment_raw_size],
    where these are set. *)
Definition within_limits (h : Header.t) (ms : list SingleMessage.t) : Prop :=
  (0 < Header.segment_interval h → ∀ m1 m2, m1 ∈ ms → m2 ∈ ms → time m2 - time m1 <= Header.segment_interval h) ∧
  (0 < Header.segment_raw_size h → total_size ms <= Header.segment_raw_size h).

(** A finished segment was within the limits until its last message. *)
Definition segment_done (h : Header.t) (ms : list SingleMessage.t) : Prop :=
  ∃ front last, ms = front ++ [last] ∧ within_limits h front ∧ ¬ within_limits h ms.

(** A recording: channels, and messages of some type, that succeed. *)
Inductive op :=
| OpChannel (channel_name message_type proto_desc : string)
| OpMessage (channel_name full_name : string) (content : list Z) (time_nanosec : Z) (proto_desc : string).

Definition step (o : op) (r : t) : option t :=
  let '(ok, r') :=
    match o with
    | OpChannel name ty desc => WriteChannel name ty desc r
    | OpMessage name ty content time desc => WriteTyped name ty (Some content) time desc r
    end in
  if ok : bool then Some r' else None.

(** The recording is in the order of time, and its size is a [uint64_t]. *)
Definition orderly (r : t) : Prop :=
  Stream.in_order (recorded r) ∧
  Forall (λ m, 0 < time m < 2 ^ 64) (recorded r) ∧ total_size (recorded r) < 2 ^ 64.

Record inv (h : Header.t) (r : t) : Prop := {
  inv_header : header_ r = h;
  inv_size : segment_raw_size_ r = total_size (messages (file_writer_ r));
  inv_begin : segment_begin_time_ r = match messages (file_writer_ r) with [] => 0 | m :: _ => time m end;
  inv_limits : within_limits h (messages (file_writer_ r));
  inv_done : Forall (λ w, segment_done h (messages w)) (done_ r);
  inv_types : ∀ name, is_Some (channel_message_type_map_ r !! name) → is_Some (channel_message_number_map_ r !! name);
  inv_channels : ∀ name, is_Some (channel_message_number_map_ r !! name) ↔ name ∈ Channel.name <$> channels (file_writer_ r);
  inv_alone : Forall (λ w, ∀ m, m ∈ messages w → SingleMessage.channel_name m ∈ Channel.name <$> channels w) (files r)
}.

Lemma total_size_app l1 l2 : total_size (l1 ++ l2) = total_size l1 + total_size l2.
Proof. induction l1 as [|m l1 IH]; cbn [app total_size]; lia. Qed.

Lemma total_size_nonneg l : 0 <= total_size l.
Proof. induction l; cbn [total_size]; lia. Qed.

(** *** What the calls leave in the files *)
Lemma bind_snoc {A B} (l : list A) (x : A) (f : A → list B) : (l ++ [x]) ≫= f = (l ≫= f) ++ f x.
Proof. rewrite bind_app. cbn. by rewrite app_nil_r. Qed.

Lemma write_channels_spec names : ∀ r ok r',
  write_channels names r = (ok, r') →
  r' = set_writer (file_writer_ r') r ∧ messages (file_writer_ r') = messages (file_writer_ r) ∧
  (ok = true → Channel.name <$> channels (file_writer_ r') = (Channel.name <$> channels (file_writer_ r)) ++ names).
Proof.
  induction names as [|name names IH]; intros r ok r'; cbn [write_channels].
  - intros [= <- <-]. split_and!; [by destruct r|done|]. intros _. by rewrite app_nil_r.
  - set (c := Channel.mk name _ _). pose proof (fw_calls_WriteChannel c (file_writer_ r)) as Hc.
    destruct (fw_WriteChannel c (file_writer_ r)) as [b w]. cbn [snd] in Hc.
    assert (messages w = messages (file_writer_ r)) as Hm.
    { unfold messages. rewrite Hc, bind_snoc. cbn. by rewrite app_nil_r. }
    assert (channels w = channels (file_writer_ r) ++ [c]) as Hch by (unfold channels; by rewrite Hc, bind_snoc).
    destruct b.
    + intros Hw. apply IH in Hw as (Hr & Hm' & Hn). split_and!; [exact Hr|by rewrite Hm'|].
      intros Hok. rewrite (Hn Hok). cbn [file_writer_ set_writer]. rewrite Hch, fmap_app, <- app_assoc. done.
    + intros [= <- <-]. by split_and!.
Qed.

Lemma SplitOutfile_spec r ok r' :
  SplitOutfile r = (ok, r') →
  done_ r' = done_ r ∧ messages (file_writer_ r') = [] ∧
  (ok = true →
    header_ r' = header_ r ∧ segment_raw_size_ r' = 0 ∧ segment_begin_time_ r' = 0 ∧
    channel_message_number_map_ r' = channel_message_number_map_ r ∧
    channel_message_type_map_ r' = channel_message_type_map_ r ∧
    Channel.name <$> channels (file_writer_ r') = channel_names r).
Proof.
  unfold SplitOutfile. set (r0 := set_segment 0 0 _). set (path := (_ +:+ _)%string).
  assert (fw_calls (file_writer_ r0) = []) as H0 by (unfold r0; cbn; apply fw_calls_new).
  assert (done_ r0 = done_ r) as Hd by done.
  pose proof (fw_calls_Open path (file_writer_ r0)) as H1. rewrite H0 in H1.
  destruct (fw_Open path (file_writer_ r0)) as [ok1 w1]. cbn [snd] in H1.
  destruct ok1; cbn [negb]; [|intros [= <- <-]; split_and!; [done|unfold messages; cbn; by rewrite H1|done]].
  pose proof (fw_calls_WriteHeader (header_ r0) w1) as H2. rewrite H1 in H2.
  change (fw_WriteHeader (header_ (set_writer w1 r0)) (file_writer_ (set_writer w1 r0))) with (fw_WriteHeader (header_ r0) w1).
  destruct (fw_WriteHeader (header_ r0) w1) as [ok2 w2]. cbn [snd] in H2.
  destruct ok2; cbn [negb]; [|intros [= <- <-]; split_and!; [done|unfold messages; cbn; by rewrite H2|done]].
  intros Hw. apply write_channels_spec in Hw as (Hr & Hm & Hn). rewrite Hr. cbn.
  split_and!; [done|rewrite Hm; unfold messages; cbn; by rewrite H2|].
  intros Hok. split_and!; [done..|]. rewrite (Hn Hok). unfold channels. cbn. by rewrite H2.
Qed.

(** Every message that is given is in a file, in order, whatever fails. *)
Lemma WriteMessage_recorded m r : recorded (snd (WriteMessage m r)) = recorded r ++ [m].
Proof.
  unfold WriteMessage. set (r1 := OnNewMessage _ r).
  assert (file_writer_ r1 = file_writer_ r ∧ done_ r1 = done_ r) as [Hf Hd] by (unfold r1, OnNewMessage; by case_match).
  pose proof (fw_calls_WriteMessage m (file_writer_ r1)) as Hc. destruct (fw_WriteMessage m (file_writer_ r1)) as [ok w].
  cbn [snd] in Hc. rewrite Hf in Hc.
  assert (messages w = messages (file_writer_ r) ++ [m]) as Hm by (unfold messages; by rewrite Hc, bind_snoc).
  assert (∀ r', done_ r' = done_ r → file_writer_ r' = w → recorded r' = recorded r ++ [m]) as Hrec.
  { intros r' H1 H2. unfold recorded, files. rewrite H1, H2, !bind_snoc, Hm. by rewrite app_assoc. }
  destruct ok; cbn [negb]; [|by apply Hrec].
  set (r2 := set_segment _ _ _). destruct (segment_over m r2); [|by apply Hrec].
  set (r3 := set_done _ r2). destruct (SplitOutfile r3) as [ok' r'] eqn:E.
  apply SplitOutfile_spec in E as (Hd' & Hm' & _). cbn [snd]. unfold recorded, files. rewrite bind_snoc, Hm', Hd', app_nil_r.
  unfold r3. cbn. rewrite Hd, !bind_snoc, <- app_assoc. f_equal. rewrite <- Hm. unfold messages.
  rewrite fw_calls_Close, bind_snoc. cbn. by rewrite app_nil_r.
Qed.

Lemma WriteChannel_recorded name ty desc r : recorded (snd (WriteChannel name ty desc r)) = recorded r.
Proof.
  unfold WriteChannel. destruct (IsNewChannel name r) eqn:E; [|done]. set (r1 := OnNewChannel _ _ _ r).
  assert (file_writer_ r1 = file_writer_ r ∧ done_ r1 = done_ r) as [Hf Hd] by (unfold r1, OnNewChannel; by rewrite E).
  pose proof (fw_calls_WriteChannel (Channel.mk name ty desc) (file_writer_ r1)) as Hc.
  destruct (fw_WriteChannel _ _) as [ok w]. cbn [snd] in Hc |- *. rewrite Hf in Hc.
  unfold recorded, files. cbn. rewrite Hd, !bind_snoc. f_equal. unfold messages. rewrite Hc, bind_snoc. cbn. by rewrite app_nil_r.
Qed.


(** *** The invariant *)
Lemma first_last_limits h ms m :
  Stream.in_order (ms ++ [m]) →
  let first := match ms with [] => time m | f :: _ => time f end in
  within_limits h (ms ++ [m]) ↔
  (0 < Header.segment_interval h → time m - first <= Header.segment_interval h) ∧
  (0 < Header.segment_raw_size h → total_size (ms ++ [m]) <= Header.segment_raw_size h).
Proof.
  intros Hord first. pose proof Hord as (Ho & _ & Hlast)%Stream.in_order_app. unfold within_limits.
  assert (∀ x, x ∈ ms ++ [m] → first <= time x <= time m) as Hb.
  { intros x Hx. assert (time x <= time m) as Hx2.
    { apply elem_of_app in Hx as [Hx|Hx%list_elem_of_singleton]; [apply Hlast; [done|by left]|by subst]. }
    split; [|done]. unfold first. destruct ms as [|f ms]; [apply list_elem_of_singleton in Hx; by subst|].
    cbn [app] in *. apply StronglySorted_inv in Hord as [_ Hf]. rewrite Forall_forall in Hf.
    apply elem_of_cons in Hx as [->|Hx]; [lia|by apply Hf]. }
  split; intros [Hi Hr]; (split; [|exact Hr]); intros Hpos; specialize (Hi Hpos).
  - unfold first. destruct ms as [|f ms]; apply Hi; apply elem_of_app; (by left; left) || (right; by left).
  - intros m1 m2 H1%Hb H2%Hb. lia.
Qed.

Lemma segment_over_limits h ms m r :
  header_ r = h → Stream.in_order (ms ++ [m]) → Forall (λ x, 0 < time x < 2 ^ 64) (ms ++ [m]) →
  segment_raw_size_ r = total_size (ms ++ [m]) →
  segment_begin_time_ r = match ms with [] => time m | f :: _ => time f end →
  if segment_over m r then ¬ within_limits h (ms ++ [m]) else within_limits h (ms ++ [m]).
Proof.
  intros Hh Hord Hpos Hsize Hbegin.
  assert (u64 (time m - segment_begin_time_ r) = time m - segment_begin_time_ r) as Hu.
  { apply u64_small. rewrite Hbegin. apply Forall_app in Hpos as [Hp1 Hp2]. rewrite Forall_singleton in Hp2.
    destruct ms as [|f ms]; [lia|]. apply Forall_cons in Hp1 as [Hf _].
    apply Stream.in_order_app in Hord as (_ & _ & Hl). specialize (Hl f m ltac:(by left) ltac:(by left)). lia. }
  pose proof (first_last_limits h ms m Hord) as Hiff. cbn in Hiff. rewrite <- Hbegin, <- Hsize in Hiff.
  unfold segment_over. rewrite Hh, Hu. destruct (_ || _) eqn:E.
  - intros [H1 H2]%Hiff. apply orb_true_iff in E as [E|E]; apply andb_true_iff in E; lia.
  - apply orb_false_iff in E as [E1 E2]. apply Hiff. split; intros; [apply andb_false_iff in E1|apply andb_false_iff in E2]; lia.
Qed.


Lemma channel_names_elem r name : name ∈ channel_names r ↔ is_Some (channel_message_number_map_ r !! name).
Proof.
  unfold channel_names. rewrite list_elem_of_fmap. split.
  - intros ([k v] & -> & Hkv%elem_of_map_to_list). by exists v.
  - intros [v Hv]. exists (name, v). split; [done|]. by apply elem_of_map_to_list.
Qed.

Lemma files_alone (h : Header.t) (w : W) r r' :
  inv h r → done_ r' = done_ r → file_writer_ r' = w →
  (∀ m, m ∈ messages w → SingleMessage.channel_name m ∈ Channel.name <$> channels w) →
  Forall (λ w, ∀ m, m ∈ messages w → SingleMessage.channel_name m ∈ Channel.name <$> channels w) (files r').
Proof.
  intros [] Hd Hf Hw. unfold files in *. rewrite Hd, Hf. apply Forall_app in inv_alone0 as [? _].
  apply Forall_app. split; [done|]. by apply Forall_singleton.
Qed.

Lemma WriteChannel_inv h name ty desc r r' :
  inv h r → WriteChannel name ty desc r = (true, r') →
  inv h r' ∧ is_Some (channel_message_number_map_ r' !! name) ∧ recorded r' = recorded r.
Proof.
  intros Hinv Hw. pose proof (WriteChannel_recorded name ty desc r) as Hrec. rewrite Hw in Hrec. cbn [snd] in Hrec.
  split; [|split; [|exact Hrec]]; unfold WriteChannel, OnNewChannel in Hw; unfold IsNewChannel in Hw;
    destruct (bool_decide_reflect (channel_message_number_map_ r !! name = None)) as [Hnew|Hold].
  - set (r1 := set_maps _ _ _ r) in Hw. pose proof (fw_calls_WriteChannel (Channel.mk name ty desc) (file_writer_ r1)) as Hc.
    destruct (fw_WriteChannel _ _) as [ok w]. cbn [snd] in Hc. injection Hw as -> <-. unfold r1 in Hc. cbn in Hc.
    assert (messages w = messages (file_writer_ r)) as Hm.
    { unfold messages. rewrite Hc, bind_snoc. cbn. by rewrite app_nil_r. }
    assert (channels w = channels (file_writer_ r) ++ [Channel.mk name ty desc]) as Hch by (unfold channels; by rewrite Hc, bind_snoc).
    pose proof (files_alone h w r (set_writer w r1) Hinv eq_refl eq_refl) as Halone.
    destruct Hinv. constructor; cbn; rewrite ?Hm, ?Hch; try done.
    + intros name'. rewrite !lookup_insert. destruct (decide (name = name')); [by eexists|apply inv_types0].
    + intros name'. rewrite fmap_app, elem_of_app, <- inv_channels0, lookup_insert. cbn.
      destruct (decide (name = name')) as [<-|Hne]; [split; [intros _; right; by left|intros _; by eexists]|].
      split; [by left|]. intros [?|Hx%list_elem_of_singleton]; [done|by subst].
    + apply Halone. intros m Hmm. rewrite Hm in Hmm. rewrite Hch, fmap_app. apply elem_of_app. left.
      unfold files in inv_alone0. apply Forall_app in inv_alone0 as [_ Ha]. rewrite Forall_singleton in Ha. by apply Ha.
  - by injection Hw as <-.
  - destruct (fw_WriteChannel _ _) as [ok w]. injection Hw as -> <-. cbn. rewrite lookup_insert_eq. by eexists.
  - injection Hw as <-. by apply not_eq_None_Some.
Qed.

Lemma OnNewMessage_keeps name r :
  let r' := OnNewMessage name r in
  header_ r' = header_ r ∧ segment_raw_size_ r' = segment_raw_size_ r ∧ segment_begin_time_ r' = segment_begin_time_ r ∧
  file_writer_ r' = file_writer_ r ∧ done_ r' = done_ r ∧
  channel_message_type_map_ r' = channel_message_type_map_ r ∧
  ∀ n, is_Some (channel_message_number_map_ r' !! n) ↔ is_Some (channel_message_number_map_ r !! n).
Proof.
  unfold OnNewMessage. destruct (channel_message_number_map_ r !! name) eqn:E; cbn; split_and!; try done.
  intros n. rewrite lookup_insert. destruct (decide (name = n)) as [<-|]; [|done]. rewrite E. split; by eexists.
Qed.

(** The first message of a segment gives its begin time. *)
Lemma segment_begin_spec ms m b :
  Stream.in_order (ms ++ [m]) → Forall (λ x, 0 < time x < 2 ^ 64) (ms ++ [m]) →
  b = match ms with [] => 0 | f :: _ => time f end →
  let b1 := if b =? 0 then time m else b in
  (if time m <? b1 then time m else b1) = match ms with [] => time m | f :: _ => time f end.
Proof.
  intros Ho Hpos ->. destruct ms as [|f ms]; cbn [Z.eqb]; [by rewrite Z.ltb_irrefl|].
  apply Stream.in_order_app in Ho as (_ & _ & Hl). specialize (Hl f m ltac:(by left) ltac:(by left)).
  apply Forall_app in Hpos as [Hf _]. apply Forall_cons in Hf as [Hf _].
  rewrite (proj2 (Z.eqb_neq _ _)) by lia. cbv zeta. by rewrite (proj2 (Z.ltb_ge _ _)) by lia.
Qed.

Lemma close_keeps w : messages (fw_Close w) = messages w ∧ channels (fw_Close w) = channels w.
Proof. unfold messages, channels. rewrite fw_calls_Close, !bind_snoc. cbn. by rewrite !app_nil_r. Qed.

(** Starting the next file. *)
Lemma SplitOutfile_inv h w r r3 r' :
  inv h r → header_ r3 = h → done_ r3 = done_ r ++ [w] →
  channel_message_type_map_ r3 = channel_message_type_map_ r →
  (∀ name, is_Some (channel_message_number_map_ r3 !! name) ↔ is_Some (channel_message_number_map_ r !! name)) →
  segment_done h (messages w) →
  (∀ m, m ∈ messages w → SingleMessage.channel_name m ∈ Channel.name <$> channels w) →
  SplitOutfile r3 = (true, r') → inv h r'.
Proof.
  intros [] Hh Hd3 Hty Hnum Hdone Halone (Hd & Hm & Hrest)%SplitOutfile_spec.
  destruct (Hrest eq_refl) as (H1 & H2 & H3 & H4 & H6 & H5). constructor.
  - congruence.
  - by rewrite H2, Hm.
  - by rewrite H3, Hm.
  - rewrite Hm. split; [|cbn; lia]. intros _ m1 m2 Hx. by apply elem_of_nil in Hx.
  - rewrite Hd, Hd3. apply Forall_app. split; [done|]. by apply Forall_singleton.
  - intros name. rewrite H6, H4, Hty, Hnum. apply inv_types0.
  - intros name. rewrite H5, H4, channel_names_elem. done.
  - unfold files in *. apply Forall_app in inv_alone0 as [Ha _].
    rewrite Hd, Hd3, !Forall_app, !Forall_singleton. split_and!; [done|done|].
    intros m Hx. rewrite Hm in Hx. by apply elem_of_nil in Hx.
Qed.

Lemma WriteMessage_inv h m r r' :
  inv h r → is_Some (channel_message_number_map_ r !! SingleMessage.channel_name m) →
  WriteMessage m r = (true, r') → orderly r' → inv h r'.
Proof.
  intros Hinv Hsome Hw Hord. pose proof (WriteMessage_recorded m r) as Hrec. rewrite Hw in Hrec. cbn [snd] in Hrec.
  unfold orderly in Hord. rewrite Hrec in Hord.
  assert (recorded r = (done_ r ≫= messages) ++ messages (file_writer_ r)) as Hr by (unfold recorded, files; by rewrite bind_snoc).
  rewrite Hr, <- app_assoc in Hord. destruct Hord as (Ho & Hpos & Hsz).
  apply Stream.in_order_app in Ho as (_ & Ho & _). apply Forall_app in Hpos as [_ Hpos].
  rewrite total_size_app in Hsz. pose proof (total_size_nonneg (done_ r ≫= messages)) as Hnn.
  unfold WriteMessage in Hw. destruct (OnNewMessage_keeps (SingleMessage.channel_name m) r) as (K1 & K2 & K3 & K4 & K5 & K7 & K6).
  set (r1 := OnNewMessage _ r) in *. clearbody r1.
  pose proof (fw_calls_WriteMessage m (file_writer_ r1)) as Hc. destruct (fw_WriteMessage m (file_writer_ r1)) as [ok w].
  cbn [snd] in Hc. rewrite K4 in Hc. destruct ok; cbn [negb] in Hw; [|done].
  assert (messages w = messages (file_writer_ r) ++ [m]) as Hm by (unfold messages; by rewrite Hc, bind_snoc).
  assert (channels w = channels (file_writer_ r)) as Hch by (unfold channels; rewrite Hc, bind_snoc; cbn; by rewrite app_nil_r).
  set (b := segment_begin_time_ (set_writer w r1)) in Hw.
  assert (b = segment_begin_time_ r) as Hb by done.
  set (b' := if _ <? _ then _ else _) in Hw.
  pose proof Hinv as []. 
  assert (b' = match messages (file_writer_ r) with [] => time m | f :: _ => time f end) as Hb' by (by apply segment_begin_spec; rewrite ?Hb).
  clearbody b'. set (r2 := set_segment _ b' _) in Hw.
  assert (segment_raw_size_ r2 = total_size (messages (file_writer_ r) ++ [m])) as Hsize.
  { unfold r2. cbn. rewrite K2, inv_size0, total_size_app. cbn. rewrite total_size_app in Hsz. cbn in Hsz.
    pose proof (total_size_nonneg (messages (file_writer_ r))). rewrite u64_small by lia. lia. }
  pose proof (segment_over_limits h (messages (file_writer_ r)) m r2 ltac:(unfold r2; cbn; congruence) Ho Hpos Hsize ltac:(done)) as Hover.
  assert (SingleMessage.channel_name m ∈ Channel.name <$> channels w) as Hin by (rewrite Hch; by apply inv_channels0).
  assert (∀ m', m' ∈ messages w → SingleMessage.channel_name m' ∈ Channel.name <$> channels w) as Halone.
  { intros m' Hm'. rewrite Hm in Hm'. apply elem_of_app in Hm' as [Hm'|Hm'%list_elem_of_singleton]; [|by subst].
    rewrite Hch. unfold files in inv_alone0. apply Forall_app in inv_alone0 as [_ Ha]. rewrite Forall_singleton in Ha. by apply Ha. }
  destruct (segment_over m r2).
  - destruct (close_keeps w) as [Hcm Hcc].
    eapply (SplitOutfile_inv h (fw_Close w) r); [done|..|exact Hw]; rewrite ?Hcm, ?Hcc; unfold r2; cbn; try congruence; try done.
    exists (messages (file_writer_ r)), m. by rewrite Hm.
  - injection Hw as <-. constructor.
    + unfold r2. cbn. congruence.
    + rewrite Hsize. unfold r2. cbn. by rewrite Hm.
    + unfold r2. cbn. rewrite Hb', Hm. by destruct (messages (file_writer_ r)).
    + unfold r2. cbn. by rewrite Hm.
    + unfold r2. cbn. by rewrite K5.
    + intros name. unfold r2. cbn. rewrite K6, K7. apply inv_types0.
    + intros name. unfold r2. cbn. rewrite K6, Hch. apply inv_channels0.
    + apply (files_alone h w r); [done|unfold r2; cbn; by rewrite K5|done|done].
Qed.

Lemma writer_step_inv h o r r' : inv h r → step o r = Some r' → orderly r' → inv h r'.
Proof.
  intros Hinv Hs Hord. unfold step in Hs. destruct o as [name ty desc|name ty content tm desc].
  - destruct (WriteChannel name ty desc r) as [[] r1] eqn:E; [|done]. injection Hs as <-.
    by apply (WriteChannel_inv h name ty desc r r1 Hinv E).
  - destruct (WriteTyped name ty (Some content) tm desc r) as [[] r1] eqn:E; [|done]. injection Hs as <-.
    unfold WriteTyped in E. set (m := SingleMessage.mk name tm content) in *.
    destruct (GetMessageType name r =? "")%string eqn:Et.
    + destruct (WriteChannel name ty desc r) as [[] r0] eqn:E0; cbn [negb] in E; [|done].
      destruct (WriteChannel_inv h _ _ _ _ _ Hinv E0) as (Hinv0 & Hsome & _). by apply (WriteMessage_inv h m r0).
    + destruct (ty =? _)%string; cbn [negb] in E; [|done].
      apply (WriteMessage_inv h m r); [done| |done|done]. apply (inv_types _ _ Hinv). unfold GetMessageType in Et. cbn.
      destruct (channel_message_type_map_ r !! name); [by eexists|done].
Qed.


Definition op_messages (o : op) : list SingleMessage.t :=
  match o with OpChannel _ _ _ => [] | OpMessage name _ content tm _ => [SingleMessage.mk name tm content] end.

Lemma step_recorded o r r' : step o r = Some r' → recorded r' = recorded r ++ op_messages o.
Proof.
  unfold step. destruct o as [name ty desc|name ty content tm desc]; cbn [op_messages].
  - pose proof (WriteChannel_recorded name ty desc r) as Hr. destruct (WriteChannel name ty desc r) as [[] r1]; [|done].
    intros [= <-]. by rewrite app_nil_r.
  - unfold WriteTyped. pose proof (WriteChannel_recorded name ty desc r) as Hr.
    set (x := if (GetMessageType name r =? "")%string then _ else _).
    assert (recorded (snd x) = recorded r) as Hx by (unfold x; by case_match).
    destruct x as [[] r0]; cbn [negb]; [|done]. pose proof (WriteMessage_recorded (SingleMessage.mk name tm content) r0) as Hm.
    destruct (WriteMessage _ r0) as [[] r1]; [|done]. intros [= <-]. cbn [snd] in *. by rewrite Hm, Hx.
Qed.

Lemma run_recorded ops r r' : run step ops r = Some r' → recorded r' = recorded r ++ (ops ≫= op_messages).
Proof.
  revert r. induction ops as [|o ops IH]; intros r; cbn [run]; [intros [= <-]; by rewrite app_nil_r|].
  destruct (step o r) as [r1|] eqn:E; cbn [mbind option_bind]; [|done]. intros Hr.
  rewrite (IH _ Hr), (step_recorded _ _ _ E), <- app_assoc. done.
Qed.

Lemma orderly_prefix r r' l : recorded r' = recorded r ++ l → orderly r' → orderly r.
Proof.
  unfold orderly. intros -> (Ho & Hp & Hs). apply Stream.in_order_app in Ho as (? & _). apply Forall_app in Hp as [? _].
  rewrite total_size_app in Hs. pose proof (total_size_nonneg l). split_and!; [done..|lia].
Qed.

Lemma run_inv h ops r r' : inv h r → run step ops r = Some r' → orderly r' → inv h r'.
Proof.
  revert r. induction ops as [|o ops IH]; intros r Hinv; cbn [run]; [by intros [= <-]|].
  destruct (step o r) as [r1|] eqn:E; cbn [mbind option_bind]; [|done]. intros Hr Hord.
  assert (orderly r1) as Ho1 by (by apply (orderly_prefix r1 r' (ops ≫= op_messages)); [apply run_recorded|]).
  apply (IH r1); [by apply (writer_step_inv h o r)|done..].
Qed.

(** *** What every file begins with

    A channel is known from the first operation that names it, with the type and
    the descriptor given there. *)
Definition op_channel (o : op) : Channel.t :=
  match o with
  | OpChannel name ty desc => Channel.mk name ty desc
  | OpMessage name ty _ _ desc => Channel.mk name ty desc
  end.
Definition declare (d : list Channel.t) (c : Channel.t) : list Channel.t :=
  if decide (Channel.name c ∈ Channel.name <$> d) then d else d ++ [c].
Definition declared (ops : list op) : list Channel.t := foldl declare [] (op_channel <$> ops).

(** A file opened after the operations [before], that has had the operations [part]:
    the header, the channels known when it was opened, then the messages of [part]
    and the channels that are new in it. *)
Definition file_log (h : Header.t) (opened_with now_known : list Channel.t) (ms : list SingleMessage.t) (w : W) : Prop :=
  ∃ path opened rest,
    fw_calls w = COpen path :: CHeader h :: (CChannel <$> opened) ++ rest ∧
    opened ≡ₚ opened_with ∧ now_known = opened_with ++ (rest ≫= call_channels) ∧ messages w = ms.
Definition file_of (h : Header.t) (before part : list op) (w : W) : Prop :=
  file_log h (declared before) (declared (before ++ part)) (part ≫= op_messages) w.

Fixpoint files_of (h : Header.t) (before : list op) (parts : list (list op)) (ws : list W) : Prop :=
  match parts, ws with
  | [], [] => True
  | part :: parts, w :: ws => file_of h before part w ∧ files_of h (before ++ part) parts ws
  | _, _ => False
  end.

Record known (d : list Channel.t) (r : t) : Prop := {
  known_nodup : NoDup (Channel.name <$> d);
  known_maps c : c ∈ d →
    channel_message_type_map_ r !! Channel.name c = Some (Channel.message_type c) ∧
    channel_proto_desc_map_ r !! Channel.name c = Some (Channel.proto_desc c);
  known_types name ty : channel_message_type_map_ r !! name = Some ty → name ∈ Channel.name <$> d;
  known_dom name : is_Some (channel_message_number_map_ r !! name) ↔ name ∈ Channel.name <$> d
}.

Definition log_inv (h : Header.t) (ops : list op) (r : t) : Prop :=
  header_ r = h ∧ known (declared ops) r ∧
  ∃ parts part, ops = concat parts ++ part ∧ files_of h [] parts (done_ r) ∧
    file_of h (concat parts) part (file_writer_ r).

Lemma declared_snoc ops o : declared (ops ++ [o]) = declare (declared ops) (op_channel o).
Proof. unfold declared. by rewrite fmap_app, foldl_app. Qed.

Lemma files_of_snoc h before parts part ws w :
  files_of h before parts ws → file_of h (before ++ concat parts) part w →
  files_of h before (parts ++ [part]) (ws ++ [w]).
Proof.
  revert before ws. induction parts as [|p parts IH]; intros before [|w0 ws]; cbn [files_of app concat]; try done.
  - rewrite app_nil_r. done.
  - intros [? ?] Hw. split; [done|]. apply IH; [done|]. by rewrite <- app_assoc.
Qed.

Lemma file_log_app h d0 d ms w w' l :
  file_log h d0 d ms w → fw_calls w' = fw_calls w ++ l →
  file_log h d0 (d ++ (l ≫= call_channels)) (ms ++ (l ≫= call_messages)) w'.
Proof.
  intros (path & opened & rest & Hc & Hp & -> & <-) Hw. exists path, opened, (rest ++ l).
  split_and!; [|done|by rewrite bind_app, app_assoc|].
  - rewrite Hw, Hc. simpl. by rewrite <- app_assoc.
  - unfold messages. by rewrite Hw, bind_app.
Qed.

Definition map_channel (r : t) (name : string) : Channel.t :=
  Channel.mk name (default "" (channel_message_type_map_ r !! name)) (default "" (channel_proto_desc_map_ r !! name)).

Lemma write_channels_calls names : ∀ r r',
  write_channels names r = (true, r') →
  fw_calls (file_writer_ r') = fw_calls (file_writer_ r) ++ (CChannel <$> (map_channel r <$> names)).
Proof.
  induction names as [|name names IH]; intros r r'; cbn [write_channels].
  - intros [= <-]. by rewrite app_nil_r.
  - pose proof (fw_calls_WriteChannel (map_channel r name) (file_writer_ r)) as Hc. unfold map_channel in Hc at 1.
    destruct (fw_WriteChannel _ _) as [[] w]; [|done]. cbn [snd] in Hc. intros Hw. apply IH in Hw.
    rewrite Hw. cbn [file_writer_ set_writer]. rewrite Hc, <- app_assoc. done.
Qed.

(** The file that [SplitOutfile] opens. *)
Lemma SplitOutfile_calls r r' :
  SplitOutfile r = (true, r') →
  (∃ path, fw_calls (file_writer_ r') =
     COpen path :: CHeader (header_ r) :: (CChannel <$> (map_channel r <$> channel_names r))) ∧
  channel_proto_desc_map_ r' = channel_proto_desc_map_ r.
Proof.
  unfold SplitOutfile. set (r0 := set_segment 0 0 _). set (path := (_ +:+ _)%string).
  pose proof (fw_calls_Open path (file_writer_ r0)) as H1.
  assert (fw_calls (file_writer_ r0) = []) as H0 by (unfold r0; cbn; apply fw_calls_new). rewrite H0 in H1.
  destruct (fw_Open path (file_writer_ r0)) as [[] w1]; cbn [snd] in H1; cbn [negb]; [|done].
  pose proof (fw_calls_WriteHeader (header_ r0) w1) as H2. rewrite H1 in H2.
  change (fw_WriteHeader (header_ (set_writer w1 r0)) (file_writer_ (set_writer w1 r0))) with (fw_WriteHeader (header_ r0) w1).
  destruct (fw_WriteHeader (header_ r0) w1) as [[] w2]; cbn [snd] in H2; cbn [negb]; [|done].
  intros Hw. pose proof (write_channels_spec _ _ _ _ Hw) as (Hr & _). apply write_channels_calls in Hw.
  split; [|by rewrite Hr]. exists path. rewrite Hw. cbn [file_writer_ set_writer]. rewrite H2. done.
Qed.

Lemma map_channel_known d r : known d r → map_channel r <$> channel_names r ≡ₚ d.
Proof.
  intros [Hn Hm _ Hd]. assert (NoDup (channel_names r)) as Hnames by apply NoDup_fst_map_to_list.
  apply NoDup_Permutation; [|by apply (NoDup_fmap_1 Channel.name)|].
  - apply (NoDup_fmap_1 Channel.name). rewrite <- list_fmap_compose. erewrite list_fmap_ext; [by rewrite list_fmap_id|done].
  - intros c. rewrite list_elem_of_fmap. split.
    + intros (name & -> & Hname). apply channel_names_elem, Hd, list_elem_of_fmap in Hname as (c & -> & Hc).
      destruct (Hm _ Hc) as [H1 H2]. unfold map_channel. rewrite H1, H2. by destruct c.
    + intros Hc. exists (Channel.name c). split.
      * destruct (Hm _ Hc) as [H1 H2]. unfold map_channel. rewrite H1, H2. by destruct c.
      * apply channel_names_elem, Hd, list_elem_of_fmap. by exists c.
Qed.

Lemma known_ext d r r' :
  channel_message_type_map_ r' = channel_message_type_map_ r →
  channel_proto_desc_map_ r' = channel_proto_desc_map_ r →
  (∀ name, is_Some (channel_message_number_map_ r' !! name) ↔ is_Some (channel_message_number_map_ r !! name)) →
  known d r → known d r'.
Proof. intros H1 H2 H3 []. constructor; intros *; rewrite ?H1, ?H2, ?H3; eauto. Qed.

(** [WriteChannel] makes the channel known, once, and writes it then. *)
Lemma WriteChannel_log d0 d ms c r r' :
  known d r → file_log (header_ r) d0 d ms (file_writer_ r) →
  WriteChannel (Channel.name c) (Channel.message_type c) (Channel.proto_desc c) r = (true, r') →
  known (declare d c) r' ∧ file_log (header_ r) d0 (declare d c) ms (file_writer_ r') ∧
  header_ r' = header_ r ∧ done_ r' = done_ r.
Proof.
  intros Hk Hf Hw. unfold WriteChannel, OnNewChannel, IsNewChannel, declare in *.
  destruct (bool_decide_reflect (channel_message_number_map_ r !! Channel.name c = None)) as [Hnew|Hold].
  - rewrite decide_False by (rewrite <- known_dom by done; rewrite Hnew; by intros [? ?]).
    set (r1 := set_maps _ _ _ r) in Hw. pose proof (fw_calls_WriteChannel (Channel.mk (Channel.name c) (Channel.message_type c)
      (Channel.proto_desc c)) (file_writer_ r1)) as Hc.
    destruct (fw_WriteChannel _ _) as [[] w]; simplify_eq. cbn [snd] in Hc. unfold r1 in Hc. cbn in Hc.
    split_and!; [|pose proof (file_log_app _ _ _ _ _ _ _ Hf Hc) as H'; cbn in H'; rewrite app_nil_r in H'; by destruct c|done|done].
    pose proof Hk as []. assert (Channel.name c ∉ Channel.name <$> d) as Hni.
    { rewrite <- known_dom0, Hnew. by intros [? ?]. }
    constructor; cbn.
    + rewrite fmap_app. apply NoDup_app. split_and!; [done| |apply NoDup_singleton].
      intros x Hx ->%list_elem_of_singleton. done.
    + intros c' [Hc'| ->%list_elem_of_singleton]%elem_of_app; [|by rewrite !lookup_insert_eq].
      rewrite !lookup_insert_ne; [by apply known_maps0|intros E; apply Hni; rewrite E; by apply list_elem_of_fmap_2..].
    + intros name ty. rewrite fmap_app, elem_of_app, lookup_insert. cbn. rewrite list_elem_of_singleton.
      case_decide as Hcn; [by right|]. intros ?%known_types0. by left.
    + intros name. rewrite fmap_app, elem_of_app, <- known_dom0, lookup_insert. cbn. rewrite list_elem_of_singleton.
      destruct (decide (Channel.name c = name)) as [<-|Hne]; [split; [by right|by eexists]|].
      split; [by left|]. by intros [?|?].
  - simplify_eq. rewrite decide_True; [by split_and!|]. apply (known_dom _ _ Hk). by apply not_eq_None_Some.
Qed.

(** [WriteMessage]: into the open file, or, at the end of a segment, into the file
    that is closed before the next one is opened. *)
Lemma WriteMessage_log m d0 d ms r r' :
  known d r → file_log (header_ r) d0 d ms (file_writer_ r) → WriteMessage m r = (true, r') →
  header_ r' = header_ r ∧ known d r' ∧
  ((done_ r' = done_ r ∧ file_log (header_ r) d0 d (ms ++ [m]) (file_writer_ r')) ∨
   (∃ w, done_ r' = done_ r ++ [w] ∧ file_log (header_ r) d0 d (ms ++ [m]) w ∧
      file_log (header_ r) d d [] (file_writer_ r'))).
Proof.
  intros Hk Hf Hw. unfold WriteMessage in Hw.
  destruct (OnNewMessage_keeps (SingleMessage.channel_name m) r) as (K1 & _ & _ & K4 & K5 & K7 & K6).
  assert (channel_proto_desc_map_ (OnNewMessage (SingleMessage.channel_name m) r) = channel_proto_desc_map_ r) as K8
    by (unfold OnNewMessage; destruct (channel_message_number_map_ r !! _); reflexivity).
  set (r1 := OnNewMessage _ r) in *. clearbody r1.
  pose proof (fw_calls_WriteMessage m (file_writer_ r1)) as Hc. destruct (fw_WriteMessage m (file_writer_ r1)) as [[] w];
    cbn [negb] in Hw; [|done]. cbn [snd] in Hc. rewrite K4 in Hc.
  pose proof (file_log_app _ _ _ _ _ _ _ Hf Hc) as Hlog. cbn in Hlog. rewrite app_nil_r in Hlog.
  set (r2 := set_segment _ _ _) in Hw.
  assert (known d r2) as Hk2 by (apply (known_ext d r); done).
  destruct (segment_over m r2); [|simplify_eq; split_and!; [done|done|left; by split]].
  set (r3 := set_done _ r2) in Hw. pose proof (SplitOutfile_spec r3 true r' Hw) as (Hd & Hm & Hrest).
  destruct (Hrest eq_refl) as (H1 & _ & _ & H4 & H6 & _).
  apply SplitOutfile_calls in Hw as [[path Hcalls] H7].
  split_and!; [by rewrite H1|by apply (known_ext d r2); [done|done|intros; by rewrite H4|]|]. right.
  exists (fw_Close w). split_and!; [rewrite Hd; unfold r3; cbn; by rewrite K5| |].
  - pose proof (file_log_app _ _ _ _ _ (fw_Close w) [CClose] Hlog) as H'. cbn in H'. rewrite !app_nil_r in H'.
    apply H', fw_calls_Close.
  - exists path, (map_channel r3 <$> channel_names r3), []. split_and!.
    + rewrite Hcalls, app_nil_r. unfold r3, r2. cbn. by rewrite K1.
    + apply map_channel_known. by apply (known_ext d r2).
    + by rewrite app_nil_r.
    + done.
Qed.

Lemma declare_known d c : Channel.name c ∈ Channel.name <$> d → declare d c = d.
Proof. intros. unfold declare. by rewrite decide_True. Qed.

(** A message ends an operation. *)
Lemma log_message h parts part m ms r r' :
  header_ r = h → known (declared (concat parts ++ part)) r → files_of h [] parts (done_ r) →
  file_log h (declared (concat parts)) (declared (concat parts ++ part)) ms (file_writer_ r) →
  part ≫= op_messages = ms ++ [m] → WriteMessage m r = (true, r') →
  log_inv h (concat parts ++ part) r'.
Proof.
  intros <- Hk Hfs Hf Hms Hw. apply (WriteMessage_log m _ _ _ r r' Hk Hf) in Hw as (Hh & Hk' & Hw).
  split_and!; [done|done|]. rewrite <- Hms in Hw. destruct Hw as [[Hd Hw]|(w & Hd & Hw & Hnew)].
  - exists parts, part. by rewrite Hd.
  - exists (parts ++ [part]), []. rewrite concat_app. cbn [concat]. rewrite !app_nil_r. split_and!; [done| |].
    + rewrite Hd. by apply files_of_snoc.
    + unfold file_of. by rewrite app_nil_r.
Qed.

Lemma log_step h ops o r r' : log_inv h ops r → step o r = Some r' → log_inv h (ops ++ [o]) r'.
Proof.
  intros (<- & Hk & parts & part & -> & Hfs & Hf) Hs. unfold file_of in Hf.
  assert (∀ r1, WriteChannel (Channel.name (op_channel o)) (Channel.message_type (op_channel o))
    (Channel.proto_desc (op_channel o)) r = (true, r1) →
    header_ r1 = header_ r ∧ known (declared (concat parts ++ part ++ [o])) r1 ∧
    files_of (header_ r) [] parts (done_ r1) ∧
    file_log (header_ r) (declared (concat parts)) (declared (concat parts ++ part ++ [o])) (part ≫= op_messages)
      (file_writer_ r1)) as Hchan.
  { intros r1 Hw. apply (WriteChannel_log _ _ _ _ r r1 Hk Hf) in Hw as (? & ? & ? & Hd).
    rewrite app_assoc, declared_snoc. rewrite Hd. by split_and!. }
  rewrite <- app_assoc. unfold step in Hs. destruct o as [name ty desc|name ty content tm desc].
  - destruct (WriteChannel name ty desc r) as [[] r1] eqn:E; simplify_eq. destruct (Hchan _ E) as (? & ? & ? & ?).
    split_and!; [done|done|]. exists parts, (part ++ [OpChannel name ty desc]). split_and!; [done|done|].
    unfold file_of. by rewrite bind_snoc, app_nil_r.
  - destruct (WriteTyped name ty (Some content) tm desc r) as [[] r1] eqn:E; simplify_eq. unfold WriteTyped in E.
    assert ((part ++ [OpMessage name ty content tm desc]) ≫= op_messages =
      (part ≫= op_messages) ++ [SingleMessage.mk name tm content]) as Hms by (by rewrite bind_snoc).
    destruct (GetMessageType name r =? "")%string eqn:Et.
    + destruct (WriteChannel name ty desc r) as [[] r0] eqn:E0; cbn [negb] in E; [|done].
      destruct (Hchan _ E0) as (? & ? & ? & ?). by eapply log_message.
    + destruct (ty =? _)%string; cbn [negb] in E; [|done].
      assert (declared (concat parts ++ part ++ [OpMessage name ty content tm desc]) = declared (concat parts ++ part)) as Hd.
      { rewrite app_assoc, declared_snoc. apply declare_known. cbn. unfold GetMessageType in Et.
        destruct (channel_message_type_map_ r !! name) eqn:Ety; [|done]. by eapply known_types. }
      eapply log_message; [done|by rewrite Hd|done|by rewrite Hd|done|done].
Qed.

Lemma log_run h ops : ∀ before r r', log_inv h before r → run step ops r = Some r' → log_inv h (before ++ ops) r'.
Proof.
  induction ops as [|o ops IH]; intros before r r' Hinv; cbn [run]; [intros [= <-]; by rewrite app_nil_r|].
  destruct (step o r) as [r1|] eqn:E; cbn [mbind option_bind]; [|done]. intros Hr.
  replace (before ++ o :: ops) with ((before ++ [o]) ++ ops) by (by rewrite <- app_assoc).
  eapply IH; [by eapply log_step|done].
Qed.

Lemma Open_inv h file r : Open file (RecordWriter h) = (true, r) → inv h r ∧ recorded r = [].
Proof.
  unfold Open. set (path := if _ || _ then _ else _). pose proof (fw_calls_Open path fw_new) as H1. rewrite fw_calls_new in H1.
  destruct (fw_Open path fw_new) as [ok w1]. cbn [snd] in H1. destruct ok; cbn [negb]; [|done].
  set (r1 := set_writer w1 _). change (file_writer_ r1) with w1. change (header_ r1) with h.
  pose proof (fw_calls_WriteHeader h w1) as H2. rewrite H1 in H2.
  destruct (fw_WriteHeader h w1) as [ok w2]. cbn [snd] in H2. intros [= <-].
  assert (messages w2 = []) as Hm by (unfold messages; by rewrite H2).
  assert (channels w2 = []) as Hc by (unfold channels; by rewrite H2).
  split; [|unfold recorded, files; cbn; by rewrite Hm].
  constructor; cbn; rewrite ?Hm, ?Hc; try done.
  - split; [|cbn; lia]. intros _ m1 m2 Hx. by apply elem_of_nil in Hx.
  - intros name [v Hv]. by rewrite lookup_empty in Hv.
  - intros name. rewrite lookup_empty. cbn. split; [by intros [v Hv]|]. intros Hx. by apply elem_of_nil in Hx.
  - rewrite Forall_singleton. intros m Hx. rewrite Hm in Hx. by apply elem_of_nil in Hx.
Qed.

Lemma Open_log h file r : Open file (RecordWriter h) = (true, r) → log_inv h [] r.
Proof.
  unfold Open. set (path := if _ || _ then _ else _). pose proof (fw_calls_Open path fw_new) as H1. rewrite fw_calls_new in H1.
  destruct (fw_Open path fw_new) as [ok w1]. cbn [snd] in H1. destruct ok; cbn [negb]; [|done].
  set (r1 := set_writer w1 _). change (file_writer_ r1) with w1. change (header_ r1) with h.
  pose proof (fw_calls_WriteHeader h w1) as H2. rewrite H1 in H2.
  destruct (fw_WriteHeader h w1) as [ok w2]. cbn [snd] in H2. intros [= <-].
  split_and!; [done| |exists [], []; split_and!; [done|done|]].
  - constructor; [apply NoDup_nil_2|by intros ? ?%elem_of_nil|cbn; intros name ty; by rewrite lookup_empty|].
    intros name. cbn. rewrite lookup_empty. split; [by intros [? ?]|]. by intros ?%elem_of_nil.
  - exists path, [], []. split_and!; [exact H2|done|done|]. unfold messages. cbn. by rewrite H2.
Qed.

(** C13: how a recording is cut into files.  Recording messages, with positive times
    and in the order of their times, through any file writer that takes every call:
    the files hold exactly the messages, in order; a file is left when its last
    message took it over the limit of time or of size, and not before; the file that
    is open is within the limits; and the operations are cut into one part per file
    such that every file begins with the header and exactly the channels, name, type
    and descriptor, that were known when it was opened, whether or not messages of
    them follow, and goes on with the messages of its part and the channels first
    named in it; so it has a channel section for each of its messages. *)
Theorem record_writer_segments h file ops r0 r :
  Open file (RecordWriter h) = (true, r0) → run step ops r0 = Some r → orderly r →
  recorded r = (ops ≫= op_messages) ∧
  Forall (λ w, segment_done h (messages w)) (done_ r) ∧
  within_limits h (messages (file_writer_ r)) ∧
  (∃ parts, concat parts = ops ∧ files_of h [] parts (files r)) ∧
  Forall (λ w, ∀ m, m ∈ messages w → SingleMessage.channel_name m ∈ Channel.name <$> channels w) (files r).
Proof.
  intros Hopen Hrun Hord. destruct (Open_inv h file r0 Hopen) as [Hinv0 Hrec0].
  pose proof (run_inv h ops r0 r Hinv0 Hrun Hord) as [].
  destruct (log_run h ops [] r0 r (Open_log h file r0 Hopen) Hrun) as (_ & _ & parts & part & Hops & Hfs & Hf).
  split_and!; [by rewrite (run_recorded _ _ _ Hrun), Hrec0|done|done| |done].
  exists (parts ++ [part]). split; [by rewrite concat_app; cbn; rewrite app_nil_r|]. by apply files_of_snoc.
Qed.

End writer.

(** A file writer that only keeps a log. *)
#[export] Instance log_writer : FileWriter (list call) := {
  fw_new := [];
  fw_Open p w := (true, w ++ [COpen p]);
  fw_WriteHeader h w := (true, w ++ [CHeader h]);
  fw_WriteChannel c w := (true, w ++ [CChannel c]);
  fw_WriteMessage m w := (true, w ++ [CMessage m]);
  fw_Close w := w ++ [CClose]
}.
#[export] Instance log_writer_laws : FileWriterLaws (list call) := {
  fw_calls := id;
  fw_calls_new := eq_refl;
  fw_calls_Open _ _ := eq_refl;
  fw_calls_WriteHeader _ _ := eq_refl;
  fw_calls_WriteChannel _ _ := eq_refl;
  fw_calls_WriteMessage _ _ := eq_refl;
  fw_calls_Close _ := eq_refl
}.

Definition demo_header : Header.t := HeaderBuilder.GetHeaderWithSegmentParams 10 0.
Definition demo_ops : list op :=
  [OpChannel "/c" "U" "d"; OpMessage "/a" "T" [1] 5 ""; OpMessage "/b" "T" [2] 9 ""; OpMessage "/a" "T" [3] 20 ""; OpMessage "/b" "T" [4] 21 ""].
Definition demo_opened : t (W := list call) := snd (Open "r" (RecordWriter demo_header)).
Definition demo_end : t (W := list call) := default demo_opened (run step demo_ops demo_opened).

(** The second file repeats all three channels, [/c] without any message too. *)
Lemma record_writer_segments_witness :
  (messages <$> done_ demo_end) =
    [[SingleMessage.mk "/a" 5 [1]; SingleMessage.mk "/b" 9 [2]; SingleMessage.mk "/a" 20 [3]]] ∧
  path_ demo_end = "r.00001" ∧
  (Channel.mk "/c" "U" "d" ∈ channels (file_writer_ demo_end) ∧ length (channels (file_writer_ demo_end)) = 3%nat) ∧
  ∃ parts, concat parts = demo_ops ∧ files_of demo_header [] parts (files demo_end).
Proof.
  split; [vm_compute; reflexivity|]. split; [vm_compute; reflexivity|].
  split; [split; [|vm_compute; reflexivity]; apply list_elem_of_In; vm_compute; auto|].
  refine (proj1 (proj2 (proj2 (proj2 (record_writer_segments demo_header "r" demo_ops demo_opened demo_end _ _ _))))).
  - vm_compute. reflexivity.
  - vm_compute. reflexivity.
  - assert (recorded demo_end = demo_ops ≫= op_messages) as Hr by (vm_compute; reflexivity).
    unfold orderly. rewrite Hr. cbn. split_and!; [repeat constructor; discriminate|by repeat constructor|reflexivity].
Defined.
End RecordWriter.
