(* ===== verification/Message.v ===== *)
(** * Messages between endpoints ([cyber/transport/common/identity.cc],
    [cyber/transport/message/message_info.cc], [cyber/transport/message/history.h])

    [Identity]: who sends.  [MessageInfo]: what goes with a message, as bytes in
    a block of shared memory and as the sample identity of the data distribution
    service ([cyber/transport/transmitter/rtps_transmitter.h],
    [cyber/transport/rtps/sub_listener.cc]).  [History]: the messages kept for
    readers that come late.

    [std::hash] on strings is an argument. *)

From S2P Require Import Prelude.
From stdpp Require Import pretty.

Local Open Scope Z_scope.

Module Identity.
Section identity.
Context (Hash : list Z → Z).

Record t := mk { data_ : list Z; hash_value_ : Z; hash_value_str_ : string }.

Definition ID_SIZE : nat := 8.

Definition Update (x : t) : t := mk (data_ x) (Hash (data_ x)) (pretty (Hash (data_ x))).

(** [uuid]: what [uuid_generate] gives when an identity is to be generated. *)
Definition Identity (uuid : option (list Z)) : t :=
  let x := mk (replicate ID_SIZE 0) 0 "" in
  match uuid with
  | None => x
  | Some uuid => Update (mk (take ID_SIZE uuid) (hash_value_ x) (hash_value_str_ x))
  end.

Definition set_data (data : list Z) (x : t) : t :=
  Update (mk (take ID_SIZE data) (hash_value_ x) (hash_value_str_ x)).

(** [operator==] compares the bytes only. *)
Definition eqb (x y : t) : bool := bool_decide (data_ x = data_ y).

(** Eight bytes; [updated] if the hash is theirs. *)
Definition well_typed (x : t) : Prop := length (data_ x) = ID_SIZE ∧ Forall byte (data_ x).
Definition updated (x : t) : Prop := Update x = x.

Lemma set_data_self x y : well_typed x → set_data (data_ x) y = Update x.
Proof. intros [Hl _]. unfold set_data. by rewrite take_ge by (by rewrite Hl). Qed.

Lemma updated_Update x : updated (Update x).
Proof. done. Qed.
End identity.
End Identity.

Module MessageInfo.
Import Identity.
Section info.
Context (Hash : list Z → Z).

Record t := mk { sender_id_ : Identity.t; seq_num_ : Z; spare_id_ : Identity.t }.

Definition kSize : nat := 2 * ID_SIZE + 8.

Definition MessageInfo : t := mk (Identity Hash None) 0 (Identity Hash None).
Definition MessageInfo2 (sender_id : Identity.t) (seq_num : Z) : t := mk sender_id seq_num (Identity Hash None).

Definition eqb (x y : t) : bool :=
  if negb (Identity.eqb (sender_id_ x) (sender_id_ y)) then false
  else if negb (seq_num_ x =? seq_num_ y) then false
  else if negb (Identity.eqb (spare_id_ x) (spare_id_ y)) then false
  else true.

Definition SerializeTo (x : t) : list Z :=
  data_ (sender_id_ x) ++ bytes_of 8 (seq_num_ x) ++ data_ (spare_id_ x).

(** [SerializeTo(dst, len)] on the memory at [dst]. *)
Definition SerializeToArray (x : t) (dst : list Z) (len : nat) : bool * list Z :=
  if (len <? kSize)%nat then (false, dst)
  else (true, data_ (sender_id_ x) ++ bytes_of 8 (seq_num_ x) ++ data_ (spare_id_ x) ++ drop kSize dst).

Definition DeserializeFrom (src : list Z) (x : t) : bool * t :=
  if negb (length src =? kSize)%nat then (false, x)
  else
    (true, mk (set_data Hash src (sender_id_ x)) (of_bytes (take 8 (drop ID_SIZE src)))
              (set_data Hash (drop (ID_SIZE + 8) src) (spare_id_ x))).

(** ** The sample identity of the data distribution service

    A GUID of sixteen bytes and a sequence number in two halves, the upper one
    signed. *)
Record SampleIdentity := sample { writer_guid : list Z; high : Z; low : Z }.

(** [RtpsTransmitter::Transmit]. *)
Definition to_sample (x : t) : SampleIdentity :=
  sample (data_ (sender_id_ x) ++ data_ (spare_id_ x))
    (i32 (Z.shiftr (Z.land (seq_num_ x) 0xFFFFFFFF00000000) 32))
    (u32 (i32 (Z.land (seq_num_ x) 0xFFFFFFFF))).

(** [SubListener::onNewDataMessage], into the listener's [msg_info_]. *)
Definition of_sample (s : SampleIdentity) (x : t) : t :=
  mk (set_data Hash (writer_guid s) (sender_id_ x))
     (u64 (Z.lor (Z.shiftl (high s) 32) (low s)))
     (set_data Hash (drop ID_SIZE (writer_guid s)) (spare_id_ x)).

(** ** Properties *)
Definition well_typed (x : t) : Prop :=
  Identity.well_typed (sender_id_ x) ∧ 0 <= seq_num_ x < 2 ^ 64 ∧ Identity.well_typed (spare_id_ x).

(** The message info with the hashes brought up to date. *)
Definition refreshed (x : t) : t := mk (Update Hash (sender_id_ x)) (seq_num_ x) (Update Hash (spare_id_ x)).

Lemma refreshed_eqb x : eqb (refreshed x) x = true.
Proof. unfold eqb, refreshed, Identity.eqb. cbn. by rewrite !bool_decide_true, Z.eqb_refl by done. Qed.

Lemma length_SerializeTo x : well_typed x → length (SerializeTo x) = kSize.
Proof. intros ([H1 _] & _ & [H2 _]). unfold SerializeTo. by rewrite !length_app, length_bytes_of, H1, H2. Qed.

(** A 64-bit number is put together again from its halves. *)
Lemma halves z :
  0 <= z < 2 ^ 64 →
  u64 (Z.lor (Z.shiftl (i32 (Z.shiftr (Z.land z 0xFFFFFFFF00000000) 32)) 32) (u32 (i32 (Z.land z 0xFFFFFFFF)))) = z.
Proof.
  intros Hz.
  rewrite land_low, land_high by done.
  assert (u32 (i32 (z mod 2 ^ 32)) = z mod 2 ^ 32) as ->.
  { unfold u32, i32. rewrite Zminus_mod_idemp_l. replace (z mod 2 ^ 32 + 2 ^ 31 - 2 ^ 31) with (z mod 2 ^ 32) by lia.
    apply Z.mod_mod. lia. }
  set (h := z / 2 ^ 32). set (l := z mod 2 ^ 32).
  assert (0 <= l < 2 ^ 32) as Hl by (apply Z.mod_pos_bound; lia).
  rewrite lor_shiftl by done. unfold u64, i32.
  assert ((((h + 2 ^ 31) mod 2 ^ 32 - 2 ^ 31) * 2 ^ 32 + l) mod 2 ^ 64 = (h * 2 ^ 32 + l) mod 2 ^ 64) as ->.
  { rewrite (Z.mod_eq (h + 2 ^ 31)) by lia. set (q := (h + 2 ^ 31) / 2 ^ 32).
    replace (_ + l) with (h * 2 ^ 32 + l + (- q) * 2 ^ 64) by lia. by apply Z_mod_plus_full. }
  unfold h, l.
  replace (z / 2 ^ 32 * 2 ^ 32 + z mod 2 ^ 32) with z by (pose proof (Z.div_mod z (2 ^ 32)); lia).
  by apply Z.mod_small.
Qed.

Lemma take_drop_parts (a b c : list Z) n m :
  length a = n → length b = m →
  take n (a ++ b ++ c) = a ∧ take m (drop n (a ++ b ++ c)) = b ∧ drop (n + m) (a ++ b ++ c) = c.
Proof.
  intros <- <-. split_and!; [by rewrite take_app_length|by rewrite drop_app_length, take_app_length|].
  by rewrite <- drop_drop, !drop_app_length.
Qed.

Lemma DeserializeFrom_SerializeTo x y : well_typed x → DeserializeFrom (SerializeTo x) y = (true, refreshed x).
Proof.
  intros Hx. pose proof Hx as ([Hl1 Hb1] & Hseq & [Hl2 Hb2]).
  unfold DeserializeFrom. rewrite length_SerializeTo by done. cbn [Nat.eqb negb kSize].
  destruct (take_drop_parts (data_ (sender_id_ x)) (bytes_of 8 (seq_num_ x)) (data_ (spare_id_ x)) ID_SIZE 8) as (E1 & E2 & E3);
    [done|by rewrite length_bytes_of|].
  unfold SerializeTo, set_data, refreshed. rewrite E1, E2, E3, of_bytes_of by lia.
  by rewrite take_ge by (by rewrite Hl2).
Qed.

Lemma of_sample_to_sample x y : well_typed x → of_sample (to_sample x) y = refreshed x.
Proof.
  intros ([Hl1 Hb1] & Hseq & [Hl2 Hb2]). unfold of_sample, to_sample, refreshed, set_data. cbn [writer_guid high low].
  rewrite (take_app_length' _ _ ID_SIZE), (drop_app_length' _ _ ID_SIZE) by done.
  by rewrite (take_ge (data_ (spare_id_ x))), halves by (done || lia || by rewrite Hl2).
Qed.

(** A message's info survives the journey.  Eight bytes, a number and eight
    bytes are written, and read back - from shared memory or from a sample
    identity - they give the same info, whatever the receiving object held:
    equal for [operator==], and identical when the hashes of its identities
    were up to date.  A buffer of another length is refused, a shorter one is
    not written to, and every buffer of the right length is the serialisation of
    what it is read as. *)
Theorem message_info_roundtrip x y src :
  well_typed x → Forall byte src →
  DeserializeFrom (SerializeTo x) y = (true, refreshed x) ∧
  of_sample (to_sample x) y = refreshed x ∧
  eqb (refreshed x) x = true ∧
  (updated Hash (sender_id_ x) → updated Hash (spare_id_ x) → refreshed x = x) ∧
  (∀ dst len, SerializeToArray x dst len =
     if (len <? kSize)%nat then (false, dst) else (true, SerializeTo x ++ drop kSize dst)) ∧
  (length src ≠ kSize → DeserializeFrom src y = (false, y)) ∧
  (length src = kSize → ∃ z, DeserializeFrom src y = (true, z) ∧ SerializeTo z = src ∧ well_typed z).
Proof.
  intros Hx Hsrc. pose proof Hx as ([Hl1 Hb1] & Hseq & [Hl2 Hb2]). split_and!.
  - by apply DeserializeFrom_SerializeTo.
  - by apply of_sample_to_sample.
  - apply refreshed_eqb.
  - unfold updated, refreshed. intros -> ->. by destruct x.
  - intros dst len. unfold SerializeToArray, SerializeTo. destruct (len <? kSize)%nat; [done|]. by rewrite <- !app_assoc.
  - intros Hl. unfold DeserializeFrom. by rewrite (proj2 (Nat.eqb_neq _ _) Hl).
  - intros Hl. unfold DeserializeFrom. rewrite Hl. cbn [Nat.eqb negb kSize]. eexists. split; [done|].
    assert (length (take 8 (drop ID_SIZE src)) = 8%nat) as Hl3 by (rewrite length_take, length_drop, Hl; done).
    assert (length (drop (ID_SIZE + 8) src) = ID_SIZE) as Hl4 by (by rewrite length_drop, Hl).
    assert (Forall byte (take 8 (drop ID_SIZE src))) as Hb3 by (by apply Forall_take, Forall_drop).
    split.
    + unfold SerializeTo, set_data. cbn [sender_id_ seq_num_ spare_id_ Update data_].
      rewrite <- Hl3 at 1. rewrite bytes_of_of by done. rewrite (take_ge (drop (ID_SIZE + 8) src)) by (by rewrite Hl4).
      assert (drop (ID_SIZE + 8) src = drop 8 (drop ID_SIZE src)) as -> by (by rewrite drop_drop). by rewrite !take_drop.
    + unfold well_typed, Identity.well_typed, set_data. cbn [sender_id_ seq_num_ spare_id_ Update data_].
      rewrite !length_take, ?length_drop, Hl. split_and!; try done; try (by apply Forall_take); [| |by apply Forall_take, Forall_drop].
      * by apply of_bytes_bounds.
      * pose proof (of_bytes_bounds _ Hb3) as Hb. rewrite Hl3 in Hb. apply Hb.
Qed.

End info.
End MessageInfo.

(** ** [History] *)
Module History.
Section history.
Context {CachedMessage : Type}.

Inductive QosHistoryPolicy := HISTORY_SYSTEM_DEFAULT | HISTORY_KEEP_LAST | HISTORY_KEEP_ALL.
#[global] Instance QosHistoryPolicy_eq_dec : EqDecision QosHistoryPolicy.
Proof. solve_decision. Defined.

Record HistoryAttributes := attributes { history_policy : QosHistoryPolicy; depth : Z }.
Definition HistoryAttributes0 : HistoryAttributes := attributes HISTORY_KEEP_LAST 1000.

Record t := mk { enabled_ : bool; depth_ : Z; max_depth_ : Z; msgs_ : list CachedMessage }.

(** [resource_limit]: [max_history_depth] of the configuration, if it has one. *)
Definition History (resource_limit : option Z) (attr : HistoryAttributes) : t :=
  let max_depth := default 1000 resource_limit in
  let d := if decide (history_policy attr = HISTORY_KEEP_ALL) then max_depth else Z.min (depth attr) max_depth in
  mk false d max_depth [].

Definition Enable (h : t) : t := mk true (depth_ h) (max_depth_ h) (msgs_ h).
Definition Disable (h : t) : t := mk false (depth_ h) (max_depth_ h) (msgs_ h).

(** [while (msgs_.size() > depth_) msgs_.pop_front();] *)
Fixpoint trim (depth : Z) (msgs : list CachedMessage) : list CachedMessage :=
  if depth <? Z.of_nat (length msgs) then match msgs with [] => [] | _ :: msgs => trim depth msgs end else msgs.

Definition Add (m : CachedMessage) (h : t) : t :=
  if negb (enabled_ h) then h else mk (enabled_ h) (depth_ h) (max_depth_ h) (trim (depth_ h) (msgs_ h ++ [m])).
Definition Clear (h : t) : t := mk (enabled_ h) (depth_ h) (max_depth_ h) [].

(** Appended in front of what the caller's vector holds. *)
Definition GetCachedMessage (msgs : list CachedMessage) (h : t) : list CachedMessage := msgs_ h ++ msgs.
Definition GetSize (h : t) : Z := Z.of_nat (length (msgs_ h)).

(** The last [n] elements. *)
Definition last_of (n : Z) (l : list CachedMessage) : list CachedMessage := drop (length l - Z.to_nat n) l.

Lemma trim_last d l : 0 <= d → trim d l = last_of d l.
Proof.
  intros Hd. unfold last_of. induction l as [|m l IH]; [by cbn; destruct (_ <? _)|]. cbn [trim].
  destruct (Z.ltb_spec d (Z.of_nat (length (m :: l)))) as [Hlt|Hge].
  - rewrite IH. cbn [length] in *. by replace (S (length l) - Z.to_nat d)%nat with (S (length l - Z.to_nat d)) by lia.
  - by replace (length (m :: l) - Z.to_nat d)%nat with 0%nat by lia.
Qed.

Lemma last_of_snoc d l m : last_of d (last_of d l ++ [m]) = last_of d (l ++ [m]).
Proof.
  unfold last_of. set (n := Z.to_nat d). rewrite !length_app, length_drop. cbn [length].
  destruct (decide (length l <= n)%nat) as [Hle|Hgt].
  - replace (length l - n)%nat with 0%nat by lia. rewrite drop_0. f_equal. lia.
  - destruct n as [|n']; [rewrite !drop_ge; [done|..]; rewrite length_app, ?length_drop; cbn; lia|].
    rewrite !drop_app_le by (rewrite ?length_drop; lia). rewrite drop_drop. do 2 f_equal. lia.
Qed.

Lemma Add_depth m h : depth_ (Add m h) = depth_ h ∧ max_depth_ (Add m h) = max_depth_ h ∧ enabled_ (Add m h) = enabled_ h.
Proof. unfold Add. by destruct (negb _) eqn:E. Qed.

Lemma Add_msgs m h : enabled_ h = true → 0 <= depth_ h → msgs_ (Add m h) = last_of (depth_ h) (msgs_ h ++ [m]).
Proof. intros He Hd. unfold Add. rewrite He. by apply trim_last. Qed.

(** A history keeps the last messages.  Enabled, and given any messages, it
    holds the last [depth_] of them in order, where [depth_] is the configured
    maximum for KEEP_ALL and the smaller of the two otherwise; disabled it
    forgets nothing and takes nothing. *)
Theorem history_keeps_last limit attr ms :
  0 <= depth attr → 0 <= default 1000 limit →
  let h := History limit attr in
  let d := if decide (history_policy attr = HISTORY_KEEP_ALL) then default 1000 limit
           else Z.min (depth attr) (default 1000 limit) in
  let h' := foldl (λ h m, Add m h) (Enable h) ms in
  msgs_ h' = last_of d ms ∧ GetSize h' = Z.min d (Z.of_nat (length ms)) ∧ depth_ h' = d ∧
  GetCachedMessage [] h' = msgs_ h' ∧
  (∀ m, Add m (Disable h') = Disable h' ∧ msgs_ (Disable h') = msgs_ h').
Proof.
  intros Hd Hl h d h'.
  assert (0 <= d) as Hd0 by (unfold d; case_decide; lia).
  assert (depth_ h' = d ∧ enabled_ h' = true ∧ msgs_ h' = last_of d ms) as (H1 & H2 & H3).
  { unfold h'. clear h'. induction ms as [|m ms (IH1 & IH2 & IH3)] using rev_ind; [done|].
    rewrite foldl_snoc. destruct (Add_depth m (foldl (λ h m, Add m h) (Enable h) ms)) as (-> & _ & ->).
    split_and!; [done|done|]. rewrite Add_msgs by (done || lia). by rewrite IH1, IH3, last_of_snoc. }
  split_and!; [done| |done|unfold GetCachedMessage; by rewrite app_nil_r|done].
  unfold GetSize. rewrite H3. unfold last_of. rewrite length_drop. lia.
Qed.
End history.
End History.

(** ** Witnesses *)
Module MessageSample.
Import Identity MessageInfo.
Definition sum_hash (l : list Z) : Z := u64 (foldr Z.add 0 l).
Definition sender : Identity.t := Identity sum_hash (Some [1; 2; 3; 4; 5; 6; 7; 8; 9; 10; 11; 12; 13; 14; 15; 16]).
Definition info : MessageInfo.t := MessageInfo2 sum_hash sender (2 ^ 40 + 2 ^ 31 + 5).

Lemma info_well_typed : MessageInfo.well_typed info.
Proof. unfold MessageInfo.well_typed, Identity.well_typed. cbn. unfold byte. split_and!; try done; repeat constructor; lia. Qed.

Lemma message_info_roundtrip_witness :
  hash_value_ sender = 36 ∧ of_sample sum_hash (to_sample info) (MessageInfo sum_hash) = refreshed sum_hash info.
Proof.
  split; [vm_compute; reflexivity|].
  apply (message_info_roundtrip sum_hash info (MessageInfo sum_hash) []); [exact info_well_typed|by constructor].
Defined.

Lemma history_keeps_last_witness :
  History.msgs_ (foldl (λ h m, History.Add m h)
    (History.Enable (History.History (Some 3) (History.attributes History.HISTORY_KEEP_ALL 1))) [1; 2; 3; 4; 5]) = [3; 4; 5].
Proof.
  destruct (History.history_keeps_last (Some 3) (History.attributes History.HISTORY_KEEP_ALL 1) [1; 2; 3; 4; 5]) as [H _];
    [cbn; lia..|]. exact H.
Defined.
End MessageSample.

(** ** Roles and endpoints ([cyber/proto/role_attributes.proto],
    [cyber/proto/qos_profile.proto], [cyber/transport/common/endpoint.cc]) *)
Module RoleAttributes.
Inductive QosDurabilityPolicy := DURABILITY_SYSTEM_DEFAULT | DURABILITY_TRANSIENT_LOCAL | DURABILITY_VOLATILE.
#[global] Instance QosDurabilityPolicy_eq_dec : EqDecision QosDurabilityPolicy.
Proof. solve_decision. Defined.

(** The fields the transport reads; the profile is given with its defaults. *)
Record QosProfile := qos { history : History.QosHistoryPolicy; depth : Z; durability : QosDurabilityPolicy }.

Record t := mk {
  host_name_ : option string;
  host_ip : string;
  process_id_ : option Z;
  channel_name : string;
  channel_id : Z;
  id_ : option Z;
  qos_profile : QosProfile
}.

Definition id (a : t) : Z := default 0 (id_ a).
Definition process_id (a : t) : Z := default 0 (process_id_ a).
Definition set_channel (name : string) (channel : Z) (a : t) : t :=
  mk (host_name_ a) (host_ip a) (process_id_ a) name channel (id_ a) (qos_profile a).
Definition set_qos (q : QosProfile) (a : t) : t :=
  mk (host_name_ a) (host_ip a) (process_id_ a) (channel_name a) (channel_id a) (id_ a) q.
End RoleAttributes.

Module Endpoint.
Record t := mk { enabled_ : bool; id_ : Identity.t; attr_ : RoleAttributes.t }.

(** [host_name], [process_id]: those of [GlobalData]. *)
Definition Endpoint (Hash : list Z → Z) (uuid : list Z) (host_name : string) (process_id : Z) (attr : RoleAttributes.t) : t :=
  let id := Identity.Identity Hash (Some uuid) in
  mk false id
    (RoleAttributes.mk (Some (default host_name (RoleAttributes.host_name_ attr))) (RoleAttributes.host_ip attr)
       (Some (default process_id (RoleAttributes.process_id_ attr))) (RoleAttributes.channel_name attr)
       (RoleAttributes.channel_id attr) (Some (default (Identity.hash_value_ id) (RoleAttributes.id_ attr)))
       (RoleAttributes.qos_profile attr)).
End Endpoint.
