(* ===== verification/Listener.v ===== *)
(** * The listeners of a channel ([cyber/transport/message/listener_handler.h])

    A [ListenerHandler] keeps a signal for the listeners of every message and
    one signal for each sender, with the connections of each receiver.  Its
    specification is a list of entries: who connected, which listener, and
    whether the handler can still find the connection. *)

From S2P Require Import Prelude Signal.
Import Signal.

Local Open Scope Z_scope.

Module ListenerHandler.

(** The keys of the connections are receivers ([self_id]), those of the two
    other maps senders ([oppo_id]).  Listeners are numbered. *)
Record t := mk {
  is_raw_message_ : bool;
  signal_ : Signal.t;
  signal_conns_ : gmap Z Connection;
  signals_ : gmap Z Signal.t;
  signals_conns_ : gmap Z (gmap Z Connection)
}.

Definition ListenerHandler (is_raw_message : bool) : t := mk is_raw_message Signal ∅ ∅ ∅.

Definition Connect (self_id : Z) (listener : nat) (h : t) : t :=
  let '(connection, s) := Signal.Connect (Some listener) (signal_ h) in
  mk (is_raw_message_ h) s (<[self_id := connection]> (signal_conns_ h)) (signals_ h) (signals_conns_ h).

Definition Connect2 (self_id oppo_id : Z) (listener : nat) (h : t) : t :=
  let s := default Signal (signals_ h !! oppo_id) in
  let '(connection, s) := Signal.Connect (Some listener) s in
  let signals := <[oppo_id := s]> (signals_ h) in
  if negb (IsConnected s connection) then mk (is_raw_message_ h) (signal_ h) (signal_conns_ h) signals (signals_conns_ h)
  else
    let conns := default ∅ (signals_conns_ h !! oppo_id) in
    mk (is_raw_message_ h) (signal_ h) (signal_conns_ h) signals
      (<[oppo_id := <[self_id := connection]> conns]> (signals_conns_ h)).

Definition Disconnect (self_id : Z) (h : t) : t :=
  match signal_conns_ h !! self_id with
  | None => h
  | Some c =>
      let '(_, s) := Connection_Disconnect c (signal_ h) in
      mk (is_raw_message_ h) s (delete self_id (signal_conns_ h)) (signals_ h) (signals_conns_ h)
  end.

Definition Disconnect2 (self_id oppo_id : Z) (h : t) : t :=
  match signals_conns_ h !! oppo_id with
  | None => h
  | Some connections =>
      match connections !! self_id with
      | None => h
      | Some c =>
          (* the connection points to the signal of [oppo_id] *)
          let signals := match signals_ h !! oppo_id with
                         | Some s => <[oppo_id := (Connection_Disconnect c s).2]> (signals_ h)
                         | None => signals_ h
                         end in
          mk (is_raw_message_ h) (signal_ h) (signal_conns_ h) signals
            (<[oppo_id := delete self_id connections]> (signals_conns_ h))
      end
  end.

(** The listeners do not connect or disconnect at this handler while they run:
    [Run] holds the lock for reading. *)
Definition quiet (_ : nat) : list action := [].

(** Emitting: the listeners called, and the signal afterwards. *)
Definition fire (s : Signal.t) : list nat * Signal.t :=
  let '(calls, s') := emit quiet s in (omap (λ id, heap s !! id ≫= cb_) calls, s').

Definition Run (sender : Z) (h : t) : list nat * t :=
  let '(calls, s) := fire (signal_ h) in
  let h := mk (is_raw_message_ h) s (signal_conns_ h) (signals_ h) (signals_conns_ h) in
  match signals_ h !! sender with
  | None => (calls, h)
  | Some so =>
      let '(calls', so) := fire so in
      (calls ++ calls', mk (is_raw_message_ h) (signal_ h) (signal_conns_ h) (<[sender := so]> (signals_ h)) (signals_conns_ h))
  end.

(** ** Specification *)
Record entry := ent { e_self : Z; e_listener : nat; e_current : bool }.

(** [e_current] is false for an entry whose connection was overwritten by a later
    one of the same receiver: nothing can remove it. *)
Definition orphan (self_id : Z) (e : entry) : entry :=
  if decide (e_self e = self_id) then ent (e_self e) (e_listener e) false else e.
Definition add (self_id : Z) (listener : nat) (es : list entry) : list entry :=
  (orphan self_id <$> es) ++ [ent self_id listener true].
Definition mine (self_id : Z) (e : entry) : Prop := e_self e = self_id ∧ e_current e = true.
#[export] Instance mine_dec self_id e : Decision (mine self_id e).
Proof. unfold mine. apply _. Defined.
Definition remove (self_id : Z) (es : list entry) : list entry := filter (λ e, ¬ mine self_id e) es.

Record spec := mkspec { alls : list entry; peers : gmap Z (list entry) }.
Definition peer_entries (oppo_id : Z) (a : spec) : list entry := default [] (peers a !! oppo_id).
Definition called (sender : Z) (a : spec) : list nat :=
  (e_listener <$> alls a) ++ (e_listener <$> peer_entries sender a).

Inductive op :=
| OConnect (self_id : Z) (listener : nat)
| OConnect2 (self_id oppo_id : Z) (listener : nat)
| ODisconnect (self_id : Z)
| ODisconnect2 (self_id oppo_id : Z)
| ORun (sender : Z).

Definition exec (o : op) (h : t) : t :=
  match o with
  | OConnect self l => Connect self l h
  | OConnect2 self oppo l => Connect2 self oppo l h
  | ODisconnect self => Disconnect self h
  | ODisconnect2 self oppo => Disconnect2 self oppo h
  | ORun sender => (Run sender h).2
  end.

Definition exec_spec (o : op) (a : spec) : spec :=
  match o with
  | OConnect self l => mkspec (add self l (alls a)) (peers a)
  | OConnect2 self oppo l => mkspec (alls a) (<[oppo := add self l (peer_entries oppo a)]> (peers a))
  | ODisconnect self => mkspec (remove self (alls a)) (peers a)
  | ODisconnect2 self oppo => mkspec (alls a) (<[oppo := remove self (peer_entries oppo a)]> (peers a))
  | ORun _ => a
  end.

(** ** One signal and its connections *)
Definition live (s : Signal.t) (x : nat * entry) : Prop :=
  heap s !! x.1 = Some (mkslot (Some (e_listener x.2)) true).

Definition wired (s : Signal.t) (conns : gmap Z Connection) (es : list entry) : Prop :=
  Signal.wf s ∧
  ∃ ies : list (nat * entry),
    slots_ s = ies.*1 ∧ es = ies.*2 ∧ Forall (live s) ies ∧
    ∀ self c, conns !! self = Some c ↔ ∃ id e, (id, e) ∈ ies ∧ mine self e ∧ c = mkconn (Some id) true.

Lemma wired_new : wired Signal ∅ [].
Proof.
  split; [apply signal_new_wf|]. exists []. split_and!; try done. intros self c. rewrite lookup_empty.
  split; [done|]. intros (id & e & Hin & _). by apply elem_of_nil in Hin.
Qed.

Lemma orphan_listener self e : e_listener (orphan self e) = e_listener e.
Proof. unfold orphan. by case_decide. Qed.

Lemma mine_orphan self self' e : mine self' (orphan self e) ↔ mine self' e ∧ self' ≠ self.
Proof.
  unfold mine, orphan. case_decide as Hd; cbn; [|naive_solver]. split; [by intros [_ ?]|]. intros [[<- _] Hne]. congruence.
Qed.

Lemma wired_connect self l s conns es :
  wired s conns es →
  let '(c, s') := Signal.Connect (Some l) s in
  wired s' (<[self := c]> conns) (add self l es) ∧ IsConnected s' c = true.
Proof.
  intros (Hwf & ies & Hs & -> & Hlive & Hc). cbn. split; [|unfold IsConnected, connected; cbn; by rewrite lookup_insert_eq].
  split; [exact (proj2 (action_later (AConnect (Some l)) s Hwf))|].
  exists ((prod_map id (orphan self) <$> ies) ++ [(fresh_ s, ent self l true)]). cbn [slots_ heap]. split_and!.
  - rewrite fmap_app, Hs. f_equal. rewrite <- list_fmap_compose. by apply list_fmap_ext.
  - unfold add. rewrite fmap_app. f_equal. rewrite <- !list_fmap_compose. by apply list_fmap_ext.
  - apply Forall_app. split; [|apply Forall_singleton; unfold live; cbn; by rewrite lookup_insert_eq].
    apply Forall_fmap. eapply Forall_impl; [exact Hlive|]. intros [id e] Hid. unfold live in *. cbn in *.
    rewrite orphan_listener, lookup_insert_ne; [done|]. intros <-. destruct Hwf as [_ _ Hf].
    specialize (Hf (fresh_ s) (mk_is_Some _ _ Hid)). lia.
  - intros self' c. rewrite lookup_insert. case_decide as Hd.
    + subst self'. split.
      * intros [= <-]. exists (fresh_ s), (ent self l true). split_and!; [apply elem_of_app; right; by left|done|done].
      * intros (id & e & [Hin|Hin]%elem_of_app & Hm & ->).
        -- apply list_elem_of_fmap in Hin as ([id' e'] & [= -> ->] & _). apply mine_orphan in Hm as [_ []]. done.
        -- apply list_elem_of_singleton in Hin as [= -> ->]. done.
    + rewrite Hc. split.
      * intros (id & e & Hin & Hm & ->). exists id, (orphan self e). split_and!; [|apply mine_orphan; by split|done].
        apply elem_of_app. left. apply list_elem_of_fmap. by exists (id, e).
      * intros (id & e & [Hin|Hin]%elem_of_app & Hm & ->).
        -- apply list_elem_of_fmap in Hin as ([id' e'] & [= -> ->] & Hin). apply mine_orphan in Hm as [Hm _]. by exists id', e'.
        -- apply list_elem_of_singleton in Hin as [= -> ->]. by destruct Hm.
Qed.

(** A receiver has one entry that can be found. *)
Lemma mine_unique s (conns : gmap Z Connection) ies self id e id' e' :
  Signal.wf s → slots_ s = ies.*1 →
  (∀ self c, conns !! self = Some c ↔ ∃ id e, (id, e) ∈ ies ∧ mine self e ∧ c = mkconn (Some id) true) →
  (id, e) ∈ ies → mine self e → (id', e') ∈ ies → mine self e' → id' = id.
Proof.
  intros Hwf Hs Hc Hin Hm Hin' Hm'.
  assert (conns !! self = Some (mkconn (Some id) true)) as H1 by (apply Hc; eauto).
  assert (conns !! self = Some (mkconn (Some id') true)) as H2 by (apply Hc; eauto).
  rewrite H1 in H2. by simplify_eq.
Qed.

Lemma filter_fst_snd (P : nat → Prop) (Q : entry → Prop) `{∀ x, Decision (P x), ∀ x, Decision (Q x)} ies :
  (∀ id e, (id, e) ∈ ies → P id ↔ Q e) →
  filter P ies.*1 = (filter (λ x, P x.1) ies).*1 ∧ filter Q ies.*2 = (filter (λ x, P x.1) ies).*2.
Proof.
  induction ies as [|[id e] ies IH]; intros Hpq; [done|].
  destruct IH as [IH1 IH2]; [intros id' e' Hin; apply Hpq; by right|].
  specialize (Hpq id e ltac:(by left)). rewrite !fmap_cons, !filter_cons. cbn [fst snd].
  destruct (decide (P id)); [rewrite decide_True by tauto|rewrite decide_False by tauto]; rewrite ?fmap_cons, ?IH1, ?IH2; done.
Qed.

Lemma wired_disconnect self c s conns es :
  wired s conns es → conns !! self = Some c →
  wired (Connection_Disconnect c s).2 (delete self conns) (remove self es).
Proof.
  intros (Hwf & ies & Hs & -> & Hlive & Hc) Hself. pose proof (proj1 (Hc _ _) Hself) as (k & e & Hin & Hm & ->).
  assert (NoDup ies.*1) as Hnd by (rewrite <- Hs; by destruct Hwf).
  assert (∀ id' e', (id', e') ∈ ies → id' ≠ k ↔ ¬ mine self e') as Hk.
  { intros id' e' Hin'. split.
    - intros Hne Hm'. apply Hne. by eapply (mine_unique s conns ies self).
    - intros Hm' ->. apply Hm'. apply list_elem_of_lookup in Hin as [i Hi], Hin' as [j Hj].
      assert (i = j) as <- by (eapply (NoDup_lookup ies.*1); [done|rewrite list_lookup_fmap, Hi|rewrite list_lookup_fmap, Hj]; done).
      congruence. }
  pose proof (proj2 (action_later (ADisconnect (mkconn (Some k) true)) s Hwf)) as Hwf'. cbn [do_action] in Hwf'.
  split; [exact Hwf'|]. clear Hwf'.
  exists (filter (λ x, x.1 ≠ k) ies). destruct (filter_fst_snd (λ i, i ≠ k) (λ e, ¬ mine self e) ies Hk) as [F1 F2].
  unfold Connection_Disconnect, Signal.Disconnect. cbn [slot_ Signal.signal_].
  pose proof (disconnect_loop_spec (mkconn (Some k) true) (slots_ s) (heap s)) as [Hf Hh].
  destruct (disconnect_loop _ _ _) as [find h]. cbn [fst snd] in Hf, Hh.
  assert (find = true) as ->.
  { rewrite Hf. unfold listed. cbn. apply bool_decide_eq_true. rewrite Hs. apply list_elem_of_fmap. by exists (k, e). }
  assert (∀ id, id ≠ k → h !! id = heap s !! id) as Hother.
  { intros id Hne. rewrite Hh, decide_False; [done|]. intros [Heq _]. cbn in Heq. congruence. }
  assert (Forall (live (Signal.mk (slots_ s) h (fresh_ s))) (filter (λ x, x.1 ≠ k) ies)) as Hlive'.
  { apply Forall_forall. intros [id e'] [Hne Hin']%list_elem_of_filter. rewrite Forall_forall in Hlive.
    specialize (Hlive _ Hin'). unfold live in *. cbn in *. by rewrite Hother. }
  split_and!; [|by symmetry|exact Hlive'|].
  - cbn [snd ClearDisconnectedSlots slots_]. rewrite <- F1, Hs. apply filter_ext_in. intros id Hid.
    apply list_elem_of_fmap in Hid as ([id' e'] & -> & Hin'). cbn [fst]. unfold connected. cbn [heap].
    destruct (decide (id' = k)) as [->|Hne].
    + rewrite Hh, decide_True by (split; [done|]; rewrite Hs; apply list_elem_of_fmap; by exists (k, e')).
      split; [by destruct (heap s !! k)|done].
    + rewrite Hother by done. rewrite Forall_forall in Hlive. specialize (Hlive _ Hin'). unfold live in Hlive. cbn in Hlive.
      rewrite Hlive. by split.
  - intros self' c. rewrite lookup_delete. case_decide as Hd.
    + subst self'. split; [done|]. intros (id & e' & [Hne Hin']%list_elem_of_filter & Hm' & _).
      destruct Hne. by eapply (mine_unique s conns ies self).
    + rewrite Hc. split; intros (id & e' & Hin' & Hm' & ->); exists id, e'.
      * split_and!; [|done|done]. apply list_elem_of_filter. split; [|done]. cbn. apply (Hk _ _ Hin').
        intros [Hs1 _]. destruct Hm' as [Hs2 _]. congruence.
      * apply list_elem_of_filter in Hin' as [_ Hin']. by split_and!.
Qed.

Lemma filter_keep {A} (P : A → Prop) `{∀ x, Decision (P x)} l : Forall P l → filter P l = l.
Proof. induction 1 as [|x l Hx _ IH]; [done|]. by rewrite filter_cons, decide_True, IH. Qed.

Lemma emit_loop_all s local :
  Forall (λ id, ∃ cb, heap s !! id = Some (mkslot (Some cb) true)) local → emit_loop quiet local s = (local, s).
Proof.
  induction 1 as [|id local [cb Hcb] _ IH]; [done|]. cbn [emit_loop]. rewrite Hcb. cbn [quiet foldl]. by rewrite IH.
Qed.

(** Emitting calls every listener in order and changes nothing. *)
Lemma wired_fire s conns es : wired s conns es → fire s = (e_listener <$> es, s).
Proof.
  intros (Hwf & ies & Hs & -> & Hlive & _). unfold fire, emit.
  assert (Forall (λ id, ∃ cb, heap s !! id = Some (mkslot (Some cb) true)) (slots_ s)) as Hall.
  { rewrite Hs. apply Forall_fmap. eapply Forall_impl; [exact Hlive|]. intros [id e] Hid. by eexists. }
  rewrite emit_loop_all by done. f_equal.
  - rewrite Hs. clear Hs Hall. induction Hlive as [|[id e] ies Hid _ IH]; [done|]. cbn. unfold live in Hid. cbn in Hid.
    rewrite Hid. cbn. by f_equal.
  - unfold ClearDisconnectedSlots. destruct s as [slots hp fr]. cbn in *. f_equal. apply filter_keep.
    eapply Forall_impl; [exact Hall|]. intros id [cb Hcb]. unfold connected. cbn. by rewrite Hcb.
Qed.

(** ** The handler *)
Definition implements (h : t) (a : spec) : Prop :=
  wired (signal_ h) (signal_conns_ h) (alls a) ∧
  ∀ oppo, wired (default Signal (signals_ h !! oppo)) (default ∅ (signals_conns_ h !! oppo)) (peer_entries oppo a).

Lemma listener_new_implements b : implements (ListenerHandler b) (mkspec [] ∅).
Proof. split; [apply wired_new|]. intros oppo. unfold peer_entries. cbn. rewrite !lookup_empty. apply wired_new. Qed.

(** No connection of a receiver, no entry to remove. *)
Lemma wired_none self s conns es : wired s conns es → conns !! self = None → remove self es = es.
Proof.
  intros (_ & ies & _ & -> & _ & Hc) Hn. apply filter_keep. apply Forall_forall. intros e He Hm.
  apply list_elem_of_fmap in He as ([id e'] & -> & Hin). cbn in Hm.
  assert (conns !! self = Some (mkconn (Some id) true)) by (apply Hc; eauto). congruence.
Qed.

Lemma peer_entries_insert oppo oppo' es a :
  peer_entries oppo' (mkspec (alls a) (<[oppo := es]> (peers a))) = if decide (oppo = oppo') then es else peer_entries oppo' a.
Proof. unfold peer_entries. cbn. rewrite lookup_insert. by case_decide. Qed.

Lemma exec_implements o h a : implements h a → implements (exec o h) (exec_spec o a).
Proof.
  intros [Ha Hp]. destruct o as [self l|self oppo l|self|self oppo|sender]; cbn [exec exec_spec].
  - unfold Connect. pose proof (wired_connect self l _ _ _ Ha) as Hc. destruct (Signal.Connect _ _) as [c s]. by destruct Hc.
  - unfold Connect2. pose proof (wired_connect self l _ _ _ (Hp oppo)) as Hc. destruct (Signal.Connect _ _) as [c s].
    destruct Hc as [Hc ->]. cbn [negb]. split; [done|]. intros oppo'. rewrite peer_entries_insert. cbn [signals_ signals_conns_].
    rewrite !lookup_insert. case_decide; [done|apply Hp].
  - unfold Disconnect. destruct (signal_conns_ h !! self) as [c|] eqn:E.
    + pose proof (wired_disconnect self c _ _ _ Ha E). destruct (Connection_Disconnect c _) as [ok s]. by split.
    + split; [|done]. cbn. by rewrite (wired_none self _ _ _ Ha E).
  - unfold Disconnect2. specialize (Hp oppo) as Ho. destruct (signals_conns_ h !! oppo) as [conns|] eqn:E; cbn [default] in Ho.
    2: { split; [done|]. intros oppo'. rewrite peer_entries_insert. case_decide; [subst|apply Hp].
         rewrite (wired_none self _ _ _ Ho) by apply lookup_empty. by apply Hp. }
    destruct (conns !! self) as [c|] eqn:Ec.
    2: { split; [done|]. intros oppo'. rewrite peer_entries_insert. case_decide; [subst|apply Hp].
         rewrite (wired_none self _ _ _ Ho Ec). by apply Hp. }
    destruct (signals_ h !! oppo) as [s|] eqn:Es; cbn [default] in Ho.
    + split; [done|]. intros oppo'. rewrite peer_entries_insert. cbn [signals_ signals_conns_]. rewrite !lookup_insert.
      case_decide; [subst|apply Hp]. by apply (wired_disconnect self c).
    + exfalso. destruct Ho as (_ & ies & Hs & _ & _ & Hc). apply Hc in Ec as (id & e & Hin & _).
      destruct ies; [by apply elem_of_nil in Hin|done].
  - unfold Run. rewrite (wired_fire _ _ _ Ha). cbn [signals_]. destruct (signals_ h !! sender) as [so|] eqn:E; cbn [snd]; [|by split].
    pose proof (Hp sender) as Ho. rewrite E in Ho. rewrite (wired_fire so _ _ Ho). split; [done|]. intros oppo. cbn.
    rewrite lookup_insert. case_decide; [subst; exact Ho|apply Hp].
Qed.

Lemma Run_implements sender h a : implements h a → (Run sender h).1 = called sender a.
Proof.
  intros [Ha Hp]. unfold Run, called. rewrite (wired_fire _ _ _ Ha). cbn [signals_]. specialize (Hp sender).
  destruct (signals_ h !! sender) as [so|]; cbn [default] in Hp.
  - by rewrite (wired_fire so _ _ Hp).
  - destruct Hp as (_ & ies & Hs & -> & _). by destruct ies; [rewrite app_nil_r|].
Qed.

(** A listener handler behaves as two lists of entries.  After any calls, a
    message is handed to the listeners that connected for every sender and then
    to those that connected for its sender, each group in the order of their
    connections; a receiver that disconnects takes away the last listener it
    connected and no other, and a listener it had connected before that one can
    no longer be removed. *)
Theorem listener_handler_refines raw ops sender :
  let h := foldl (λ h o, exec o h) (ListenerHandler raw) ops in
  let a := foldl (λ a o, exec_spec o a) (mkspec [] ∅) ops in
  (Run sender h).1 = called sender a ∧ implements h a.
Proof.
  intros h a. assert (implements h a) as Hi; [|by split; [apply Run_implements|]].
  unfold h, a. generalize (listener_new_implements raw). generalize (ListenerHandler raw), (mkspec [] ∅). clear.
  induction ops as [|o ops IH]; intros h a Hi; [done|]. cbn. by apply IH, exec_implements.
Qed.

(** The entries of one receiver. *)
Definition entries_of (s : Z) (es : list entry) : list entry := filter (λ e, e_self e = s) es.

Lemma entries_of_orphan_ne s self es : s ≠ self → entries_of s (orphan self <$> es) = entries_of s es.
Proof.
  intros Hne. unfold entries_of. induction es as [|e es IH]; [done|]. rewrite fmap_cons, !filter_cons, IH.
  assert (e_self (orphan self e) = e_self e) as Hself by (unfold orphan; by destruct (decide _)).
  destruct (decide (e_self (orphan self e) = s)) as [H1|H1], (decide (e_self e = s)) as [H2|H2]; try congruence.
  f_equal. unfold orphan. by rewrite decide_False by congruence.
Qed.

Lemma entries_of_add_ne s self l es : s ≠ self → entries_of s (add self l es) = entries_of s es.
Proof.
  intros Hne. unfold add. assert (∀ l1 l2, entries_of s (l1 ++ l2) = entries_of s l1 ++ entries_of s l2) as -> by apply filter_app.
  rewrite entries_of_orphan_ne by done. unfold entries_of at 2. rewrite filter_cons. cbn. rewrite decide_False by done. by rewrite app_nil_r.
Qed.

Lemma entries_of_add self l es : entries_of self es = [] → entries_of self (add self l es) = [ent self l true].
Proof.
  intros Hn. unfold add. assert (∀ l1 l2, entries_of self (l1 ++ l2) = entries_of self l1 ++ entries_of self l2) as -> by apply filter_app.
  assert (orphan self <$> es = es) as ->.
  { assert (∀ e, e ∈ es → e_self e ≠ self) as He.
    { intros e Hin Hs. assert (e ∈ entries_of self es) as Hx by (by apply list_elem_of_filter). rewrite Hn in Hx. by apply elem_of_nil in Hx. }
    clear Hn. induction es as [|e es IH]; [done|]. rewrite fmap_cons, IH by (intros; apply He; by right). f_equal.
    unfold orphan. rewrite decide_False; [done|]. apply He. by left. }
  rewrite Hn. unfold entries_of. rewrite filter_cons. cbn. by rewrite decide_True.
Qed.

Lemma entries_of_remove_ne s self es : s ≠ self → entries_of s (remove self es) = entries_of s es.
Proof.
  intros Hne. unfold entries_of, remove. induction es as [|e es IH]; [done|]. rewrite !filter_cons. case_decide as Hm.
  - by rewrite filter_cons, IH.
  - rewrite IH. rewrite decide_False; [done|]. intros <-. destruct Hm as [Hs _]. congruence.
Qed.

Lemma entries_of_remove self es : Forall (λ e, e_current e = true) (entries_of self es) → entries_of self (remove self es) = [].
Proof.
  unfold entries_of, remove. induction es as [|e es IH]; [done|]. rewrite !filter_cons.
  destruct (decide (e_self e = self)) as [Hs|Hs]; intros Hc.
  - apply Forall_cons in Hc as [He Hc]. rewrite decide_False by (intros Hn; by apply Hn). by apply IH.
  - rewrite decide_True by (intros [? _]; done). rewrite filter_cons, decide_False by done. by apply IH.
Qed.

Lemma add_elem e self l es : e ∈ add self l es → (∃ e', e' ∈ es ∧ e_self e' = e_self e ∧ e_listener e' = e_listener e) ∨ e = ent self l true.
Proof.
  intros [He|He]%elem_of_app; [left|right; by apply list_elem_of_singleton in He].
  apply list_elem_of_fmap in He as (e' & -> & Hin). exists e'. split; [done|]. unfold orphan. by case_decide.
Qed.

Lemma overwritten_stays self l1 l2 :
  remove self (add self l2 (add self l1 [])) = [ent self l1 false] ∧ remove self [ent self l1 false] = [ent self l1 false].
Proof.
  assert (remove self [ent self l1 false] = [ent self l1 false]) as H1.
  { unfold remove. rewrite filter_cons, decide_True; [done|]. by intros []. }
  split; [|done]. unfold add at 1. unfold add. cbn [fmap list_fmap app]. unfold orphan. cbn [e_self e_listener].
  rewrite decide_True by done. unfold remove in *.
  change [ent self l1 false; ent self l2 true] with ([ent self l1 false] ++ [ent self l2 true]). rewrite filter_app, H1, filter_cons, decide_False by (intros Hn; by apply Hn). done.
Qed.

(** A receiver that connects twice for a sender cannot be silenced.  After
    two connections for the same sender and one disconnection the first listener
    is still called, and it still is after any number of further
    disconnections. *)
Theorem listener_connected_twice raw self oppo l1 l2 n :
  let h := Connect2 self oppo l2 (Connect2 self oppo l1 (ListenerHandler raw)) in
  (Run oppo h).1 = [l1; l2] ∧ (Run oppo (Nat.iter (S n) (Disconnect2 self oppo) h)).1 = [l1].
Proof.
  set (a := exec_spec (OConnect2 self oppo l2) (exec_spec (OConnect2 self oppo l1) (mkspec [] ∅))). intros h.
  assert (implements h a) as Hi by (apply (exec_implements (OConnect2 _ _ _)), (exec_implements (OConnect2 _ _ _)), listener_new_implements).
  assert (peer_entries oppo a = add self l2 (add self l1 []) ∧ alls a = []) as [Ha Hall].
  { split; [|done]. unfold a. cbn [exec_spec]. rewrite !peer_entries_insert, !decide_True by done.
    unfold peer_entries at 1. cbn. by rewrite lookup_empty. }
  assert (∃ a', implements (Nat.iter (S n) (Disconnect2 self oppo) h) a' ∧ peer_entries oppo a' = [ent self l1 false] ∧ alls a' = [])
    as (a' & Hi' & Ha' & Hall').
  { destruct (overwritten_stays self l1 l2) as [H1 H2]. induction n as [|n (a' & IHi & IH1 & IH2)].
    - exists (exec_spec (ODisconnect2 self oppo) a). split_and!; [by apply (exec_implements (ODisconnect2 _ _))| |done].
      cbn [exec_spec]. by rewrite peer_entries_insert, decide_True, Ha, H1.
    - exists (exec_spec (ODisconnect2 self oppo) a'). split_and!; [by apply (exec_implements (ODisconnect2 _ _))| |done].
      cbn [exec_spec]. by rewrite peer_entries_insert, decide_True, IH1, H2. }
  rewrite (Run_implements _ _ _ Hi), (Run_implements _ _ _ Hi'). unfold called. rewrite Ha, Hall, Ha', Hall'.
  split; [|done]. cbn. unfold orphan at 1. by case_decide.
Qed.

End ListenerHandler.
