(* ===== verification/Dispatcher.v ===== *)
(** * Dispatchers ([cyber/transport/dispatcher/])

    [Dispatcher]: a map from channels to listener handlers, which the three
    dispatchers share.  [IntraDispatcher]: messages of the same process.
    [ShmDispatcher]: blocks of shared memory, over an interface to the segments.
    [RtpsDispatcher]: samples of the data distribution service.  A message's
    type is a tag: a handler is found through [dynamic_pointer_cast]. *)

From S2P Require Import Prelude HashMaps Listener Message Shm.

Local Open Scope Z_scope.

(** The template argument of a handler. *)
Inductive message_type := TRaw | TBlock | TString | TMessage (name : string).
#[export] Instance message_type_eq_dec : EqDecision message_type.
Proof. solve_decision. Defined.

Module Dispatcher.
Section dispatcher.
Context {M : Type} `{IntMap M nat} (empty : M).

Abbreviation role := RoleAttributes.t.

Record handler := mkhandler { type : message_type; listeners : ListenerHandler.t }.

(** [msg_listeners_] maps a channel to a shared pointer: an index into
    [handlers]. *)
Record t := mk { is_shutdown_ : bool; msg_listeners_ : M; handlers : list handler }.

Definition Dispatcher : t := mk false empty [].

Definition Shutdown (d : t) : t := mk true (msg_listeners_ d) (handlers d).
Definition HasChannel (channel_id : Z) (d : t) : bool := im_Has channel_id (msg_listeners_ d).

(** The first half of [AddListener]: is there a handler, and has it this type? *)
Inductive found := Missing | Mismatch | Found (handler : nat).

Definition find_handler (ty : message_type) (channel_id : Z) (d : t) : found :=
  match im_Get channel_id (msg_listeners_ d) with
  | None => Missing
  | Some p =>
      match handlers d !! p with
      | Some h => if decide (type h = ty) then Found p else Mismatch
      | None => Mismatch
      end
  end.

(** Calling a handler through its pointer. *)
Definition update (p : nat) (f : ListenerHandler.t → ListenerHandler.t) (d : t) : t :=
  mk (is_shutdown_ d) (msg_listeners_ d) (alter (λ h, mkhandler (type h) (f (listeners h))) p (handlers d)).

(** The second half: a new handler if there was none, and the connection. *)
Definition connect_handler (ty : message_type) (channel_id : Z) (f : ListenerHandler.t → ListenerHandler.t) (x : found) (d : t) : t :=
  match x with
  | Mismatch => d
  | Found p => update p f d
  | Missing =>
      let p := length (handlers d) in
      let new := mkhandler ty (ListenerHandler.ListenerHandler (bool_decide (ty = TRaw))) in
      update p f (mk (is_shutdown_ d) (im_Set channel_id p (msg_listeners_ d)) (handlers d ++ [new]))
  end.

Definition AddListener (ty : message_type) (self_attr : role) (listener : nat) (d : t) : t :=
  if is_shutdown_ d then d
  else
    let channel_id := RoleAttributes.channel_id self_attr in
    connect_handler ty channel_id (ListenerHandler.Connect (RoleAttributes.id self_attr) listener) (find_handler ty channel_id d) d.

Definition AddListener2 (ty : message_type) (self_attr opposite_attr : role) (listener : nat) (d : t) : t :=
  if is_shutdown_ d then d
  else
    let channel_id := RoleAttributes.channel_id self_attr in
    connect_handler ty channel_id
      (ListenerHandler.Connect2 (RoleAttributes.id self_attr) (RoleAttributes.id opposite_attr) listener)
      (find_handler ty channel_id d) d.

Definition RemoveListener (self_attr : role) (d : t) : t :=
  if is_shutdown_ d then d
  else
    match im_Get (RoleAttributes.channel_id self_attr) (msg_listeners_ d) with
    | None => d
    | Some p => update p (ListenerHandler.Disconnect (RoleAttributes.id self_attr)) d
    end.

Definition RemoveListener2 (self_attr opposite_attr : role) (d : t) : t :=
  if is_shutdown_ d then d
  else
    match im_Get (RoleAttributes.channel_id self_attr) (msg_listeners_ d) with
    | None => d
    | Some p => update p (ListenerHandler.Disconnect2 (RoleAttributes.id self_attr) (RoleAttributes.id opposite_attr)) d
    end.

(** [handler->Run(msg, msg_info)]: the listeners called. *)
Definition run_handler (p : nat) (sender : Z) (d : t) : list nat * t :=
  match handlers d !! p with
  | None => ([], d)
  | Some h => ((ListenerHandler.Run sender (listeners h)).1, update p (λ l, (ListenerHandler.Run sender l).2) d)
  end.

(** [OnMessage]: [IntraDispatcher] looks at the type of the handler, the two
    others have handlers of one type only.  What is delivered: to which
    listener, and if it is given the message's bytes. *)
Definition OnMessage (ty : message_type) (channel_id : Z) (sender : Z) (d : t) : list (nat * bool) * t :=
  if is_shutdown_ d then ([], d)
  else
    match im_Get channel_id (msg_listeners_ d) with
    | None => ([], d)
    | Some p =>
        match handlers d !! p with
        | None => ([], d)
        | Some h =>
            if ListenerHandler.is_raw_message_ (listeners h) then
              let '(calls, d) := run_handler p sender d in ((λ l, (l, true)) <$> calls, d)
            else if decide (type h = ty) then
              let '(calls, d) := run_handler p sender d in ((λ l, (l, false)) <$> calls, d)
            else ([], d)
        end
    end.

(** ** Specification: what is known of each channel *)
Abbreviation spec := (gmap Z (message_type * ListenerHandler.spec)).

Inductive op :=
| OAdd (ty : message_type) (self_attr : role) (listener : nat)
| OAdd2 (ty : message_type) (self_attr opposite_attr : role) (listener : nat)
| ORemove (self_attr : role)
| ORemove2 (self_attr opposite_attr : role)
| OMessage (ty : message_type) (channel_id sender : Z)
| OShutdown.

Definition exec (o : op) (d : t) : t :=
  match o with
  | OAdd ty a l => AddListener ty a l d
  | OAdd2 ty a b l => AddListener2 ty a b l d
  | ORemove a => RemoveListener a d
  | ORemove2 a b => RemoveListener2 a b d
  | OMessage ty c s => (OnMessage ty c s d).2
  | OShutdown => Shutdown d
  end.

(** The first type that a channel is used with is its type. *)
Definition spec_add (ty : message_type) (c : Z) (o : ListenerHandler.op) (A : spec) : spec :=
  match A !! c with
  | None => <[c := (ty, ListenerHandler.exec_spec o (ListenerHandler.mkspec [] ∅))]> A
  | Some (ty', a) => if decide (ty' = ty) then <[c := (ty', ListenerHandler.exec_spec o a)]> A else A
  end.
Definition spec_remove (c : Z) (o : ListenerHandler.op) (A : spec) : spec :=
  match A !! c with None => A | Some (ty, a) => <[c := (ty, ListenerHandler.exec_spec o a)]> A end.

Definition exec_spec (o : op) (s : bool * spec) : bool * spec :=
  let '(down, A) := s in
  let c := RoleAttributes.channel_id in
  let id := RoleAttributes.id in
  if down : bool then s
  else
    match o with
    | OAdd ty a l => (false, spec_add ty (c a) (ListenerHandler.OConnect (id a) l) A)
    | OAdd2 ty a b l => (false, spec_add ty (c a) (ListenerHandler.OConnect2 (id a) (id b) l) A)
    | ORemove a => (false, spec_remove (c a) (ListenerHandler.ODisconnect (id a)) A)
    | ORemove2 a b => (false, spec_remove (c a) (ListenerHandler.ODisconnect2 (id a) (id b)) A)
    | OMessage _ _ _ => s
    | OShutdown => (true, A)
    end.

Definition deliveries (ty : message_type) (c sender : Z) (s : bool * spec) : list (nat * bool) :=
  let '(down, A) := s in
  if down : bool then []
  else
    match A !! c with
    | None => []
    | Some (ty', a) =>
        if decide (ty' = TRaw) then (λ l, (l, true)) <$> ListenerHandler.called sender a
        else if decide (ty' = ty) then (λ l, (l, false)) <$> ListenerHandler.called sender a
        else []
    end.

Record tracks (d : t) (A : spec) (g : gmap Z nat) : Prop := {
  tr_map : im_rep (msg_listeners_ d) g;
  tr_inj c c' p : g !! c = Some p → g !! c' = Some p → c = c';
  tr_some c p : g !! c = Some p → ∃ h a, handlers d !! p = Some h ∧ A !! c = Some (type h, a) ∧
    ListenerHandler.implements (listeners h) a ∧
    ListenerHandler.is_raw_message_ (listeners h) = bool_decide (type h = TRaw);
  tr_none c : g !! c = None → A !! c = None
}.

Definition implements (d : t) (s : bool * spec) : Prop := is_shutdown_ d = s.1 ∧ ∃ g, tracks d s.2 g.

Lemma exec_raw o l : ListenerHandler.is_raw_message_ (ListenerHandler.exec o l) = ListenerHandler.is_raw_message_ l.
Proof.
  destruct o; cbn; unfold ListenerHandler.Connect2, ListenerHandler.Disconnect, ListenerHandler.Disconnect2, ListenerHandler.Run;
    repeat (case_match; cbn); done.
Qed.

Lemma update_tracks d A g c p ty a o :
  tracks d A g → g !! c = Some p → A !! c = Some (ty, a) →
  tracks (update p (ListenerHandler.exec o) d) (<[c := (ty, ListenerHandler.exec_spec o a)]> A) g.
Proof.
  intros [Hm Hinj Hs Hn] Hc HA. split; cbn; [done|done| |].
  - intros c' p' Hc'. rewrite list_lookup_alter, lookup_insert. case_decide as Hp.
    + subst p'. assert (c = c') as <- by (by eapply Hinj). rewrite decide_True by done.
      destruct (Hs _ _ Hc) as (h & a' & Hh & HA' & Hi & Hr). rewrite HA in HA'. simplify_eq. rewrite Hh. cbn.
      eexists _, _. split_and!; [done|done|by apply ListenerHandler.exec_implements|cbn; by rewrite exec_raw].
    + rewrite decide_False by (intros ->; rewrite Hc in Hc'; simplify_eq). by apply Hs.
  - intros c' Hc'. rewrite lookup_insert_ne by (intros ->; congruence). by apply Hn.
Qed.

(** A new handler for a channel, whatever was there. *)
Lemma install_tracks d A g ty c o :
  tracks d A g →
  tracks (connect_handler ty c (ListenerHandler.exec o) Missing d)
    (<[c := (ty, ListenerHandler.exec_spec o (ListenerHandler.mkspec [] ∅))]> A) (<[c := length (handlers d)]> g).
Proof.
  intros [Hm Hinj Hs Hn]. cbn [connect_handler]. set (new := mkhandler _ _).
  set (d1 := mk _ _ _). set (a0 := ListenerHandler.mkspec [] ∅).
  assert (tracks d1 (<[c := (ty, a0)]> A) (<[c := length (handlers d)]> g)) as Ht1.
  { assert (∀ c' p, g !! c' = Some p → (p < length (handlers d))%nat) as Hlt.
    { intros c' p Hp. destruct (Hs _ _ Hp) as (h & _ & Hh & _). by eapply lookup_lt_Some. }
    split; cbn.
    - by apply im_Set_spec.
    - intros c1 c2 p. rewrite !lookup_insert. repeat case_decide; intros E1 E2; simplify_eq; try done;
        [apply Hlt in E2; lia|apply Hlt in E1; lia|by eapply Hinj].
    - intros c' p. rewrite !lookup_insert. case_decide; intros Hp; simplify_eq.
      + rewrite lookup_snoc_eq. eexists _, _. split_and!; [done|done|apply ListenerHandler.listener_new_implements|done].
      + rewrite lookup_snoc_lt by (by eapply Hlt). by apply Hs.
    - intros c'. rewrite !lookup_insert. case_decide; [done|]. apply Hn. }
  pose proof (update_tracks _ _ _ c (length (handlers d)) ty a0 o Ht1 (lookup_insert_eq _ _ _) (lookup_insert_eq _ _ _)) as Hu.
  by rewrite insert_insert_eq in Hu.
Qed.

Lemma connect_tracks d A g ty c o :
  tracks d A g → ∃ g', tracks (connect_handler ty c (ListenerHandler.exec o) (find_handler ty c d) d) (spec_add ty c o A) g'.
Proof.
  intros Ht. pose proof Ht as [Hm Hinj Hs Hn]. unfold find_handler, spec_add. rewrite (im_Get_spec _ _ _ Hm).
  destruct (g !! c) as [p|] eqn:Hc.
  - destruct (Hs _ _ Hc) as (h & a & Hh & HA & _). rewrite Hh, HA. exists g. case_decide as Hty; cbn [connect_handler]; [|done].
    subst ty. by apply update_tracks.
  - rewrite (Hn _ Hc). eexists. by apply install_tracks.
Qed.

Lemma remove_tracks d A g c o :
  tracks d A g →
  tracks (match im_Get c (msg_listeners_ d) with None => d | Some p => update p (ListenerHandler.exec o) d end) (spec_remove c o A) g.
Proof.
  intros Ht. pose proof Ht as [Hm Hinj Hs Hn]. unfold spec_remove. rewrite (im_Get_spec _ _ _ Hm).
  destruct (g !! c) as [p|] eqn:Hc; [|by rewrite (Hn _ Hc)].
  destruct (Hs _ _ Hc) as (h & a & Hh & HA & _). rewrite HA. by apply update_tracks.
Qed.

(** A message: who gets it, and the dispatcher is as it was. *)
Lemma OnMessage_tracks d A g ty c sender :
  tracks d A g → is_shutdown_ d = false →
  (OnMessage ty c sender d).1 = deliveries ty c sender (false, A) ∧ tracks (OnMessage ty c sender d).2 A g ∧
  is_shutdown_ (OnMessage ty c sender d).2 = false.
Proof.
  intros Ht Hd. pose proof Ht as [Hm Hinj Hs Hn]. unfold OnMessage, deliveries. rewrite Hd, (im_Get_spec _ _ _ Hm).
  destruct (g !! c) as [p|] eqn:Hc; [|by rewrite (Hn _ Hc)].
  destruct (Hs _ _ Hc) as (h & a & Hh & HA & Hi & Hr). rewrite Hh, HA, Hr. unfold run_handler. rewrite Hh.
  pose proof (update_tracks d A g c p (type h) a (ListenerHandler.ORun sender) Ht Hc HA) as Hu. cbn [ListenerHandler.exec_spec] in Hu.
  rewrite insert_id in Hu by done. rewrite (ListenerHandler.Run_implements _ _ _ Hi).
  destruct (decide (type h = TRaw)) as [->|Hne]; [by rewrite bool_decide_true|]. rewrite bool_decide_false by done.
  by destruct (decide (type h = ty)).
Qed.

Lemma exec_tracks o d s : implements d s → implements (exec o d) (exec_spec o s).
Proof.
  destruct s as [down A]. intros [Hd [g Hg]]. cbn in Hd, Hg. unfold implements.
  destruct o as [ty a l|ty a b l|a|a b|ty c sender|]; cbn [exec exec_spec];
    unfold AddListener, AddListener2, RemoveListener, RemoveListener2, Shutdown; rewrite ?Hd; destruct down; cbn [fst snd].
  all: try (split; [done|]; exists g; by destruct Hg).
  - split; [by unfold connect_handler; repeat case_match|]. by apply (connect_tracks d A g ty _ (ListenerHandler.OConnect _ l)).
  - split; [by unfold connect_handler; repeat case_match|]. by apply (connect_tracks d A g ty _ (ListenerHandler.OConnect2 _ _ l)).
  - split; [by case_match|]. exists g. by apply (remove_tracks d A g _ (ListenerHandler.ODisconnect _)).
  - split; [by case_match|]. exists g. by apply (remove_tracks d A g _ (ListenerHandler.ODisconnect2 _ _)).
  - unfold OnMessage. rewrite Hd. split; [done|by exists g].
  - destruct (OnMessage_tracks d A g ty c sender Hg Hd) as (_ & ? & ?). split; [done|by exists g].
Qed.

Context (Hempty : im_rep empty ∅).

Lemma implements_new : implements Dispatcher (false, ∅).
Proof.
  split; [done|]. exists ∅. split; cbn; [done| | |].
  all: intros *; by rewrite ?lookup_empty.
Qed.

Lemma run_implements ops : implements (foldl (λ d o, exec o d) Dispatcher ops) (foldl (λ s o, exec_spec o s) (false, ∅) ops).
Proof.
  generalize implements_new. generalize Dispatcher, (false, ∅ : spec). induction ops as [|o ops IH]; intros d s Hi; [done|].
  cbn. by apply IH, exec_tracks.
Qed.

(** C15: a dispatcher behaves as a finite map from channels to a type and its
    listeners.  After any calls, through any integer map: a message goes to the
    listeners of its own channel only, those of every sender and those of its
    sender, as bytes if the channel was first used with raw messages and as it
    is if it was first used with the message's type; with another type nobody
    gets it, and after a shutdown nobody gets anything and nothing changes any
    more. *)
Theorem dispatcher_refines ops ty c sender :
  let d := foldl (λ d o, exec o d) Dispatcher ops in
  let s := foldl (λ s o, exec_spec o s) (false, ∅) ops in
  (OnMessage ty c sender d).1 = deliveries ty c sender s ∧
  HasChannel c d = bool_decide (is_Some (s.2 !! c)) ∧
  (∀ o, is_shutdown_ d = true → exec o d = d).
Proof.
  intros d s. destruct (run_implements ops) as [Hd [g Hg]]. fold d s in Hd, Hg. destruct s as [down A]. cbn in Hd, Hg. split_and!.
  - destruct down; [unfold OnMessage; by rewrite Hd|]. by apply (OnMessage_tracks d A g).
  - destruct Hg as [Hm _ Hs Hn]. unfold HasChannel. rewrite (im_Has_spec _ _ _ Hm). apply bool_decide_ext. cbn. split.
    + intros [p Hp]. destruct (Hs _ _ Hp) as (h & a & _ & -> & _). by eexists.
    + intros [x Hx]. destruct (g !! c) eqn:E; [by eexists|]. rewrite (Hn _ E) in Hx. done.
  - intros o Ho. destruct o; cbn; unfold AddListener, AddListener2, RemoveListener, RemoveListener2, OnMessage, Shutdown; rewrite ?Ho; try done.
    destruct d. cbn in *. by subst.
Qed.

(** Whatever the type, the listeners of a message. *)
Lemma deliveries_called ty c sender A a :
  A !! c = Some (ty, a) → fst <$> deliveries ty c sender (false, A) = ListenerHandler.called sender a.
Proof.
  intros HA. unfold deliveries. rewrite HA.
  assert (∀ (l : list nat) (b : bool), fst <$> ((λ x, (x, b)) <$> l) = l) as Hl.
  { intros l b. rewrite <- list_fmap_compose. apply list_fmap_id. }
  destruct (decide (ty = TRaw)); [apply Hl|]. rewrite decide_True by done. apply Hl.
Qed.

(** Of two receivers that are the first on a channel one can be lost.
    [AddListener] looks the channel up and then installs a handler, without a
    lock: when both look before either installs, the second handler replaces the
    first and messages reach the second receiver only; one after the other they
    reach both. *)
Theorem dispatcher_add_race ty c id1 id2 l1 l2 sender :
  let f1 := ListenerHandler.Connect id1 l1 in
  let f2 := ListenerHandler.Connect id2 l2 in
  let x := find_handler ty c Dispatcher in
  let d1 := connect_handler ty c f1 x Dispatcher in
  fst <$> (OnMessage ty c sender (connect_handler ty c f2 x d1)).1 = [l2] ∧
  fst <$> (OnMessage ty c sender (connect_handler ty c f2 (find_handler ty c d1) d1)).1 = [l1; l2].
Proof.
  intros f1 f2 x d1. destruct implements_new as [_ [g0 Hg0]]. cbn [snd] in Hg0.
  assert (x = Missing) as Hx.
  { unfold x, find_handler. cbn [Dispatcher msg_listeners_]. by rewrite (im_Get_spec _ _ _ Hempty), lookup_empty. }
  pose proof (install_tracks Dispatcher ∅ g0 ty c (ListenerHandler.OConnect id1 l1) Hg0) as H1.
  assert (d1 = connect_handler ty c (ListenerHandler.exec (ListenerHandler.OConnect id1 l1)) Missing Dispatcher) as Hd1.
  { unfold d1. by rewrite Hx. }
  rewrite <- Hd1 in H1. rewrite Hx. change f2 with (ListenerHandler.exec (ListenerHandler.OConnect id2 l2)). split.
  - pose proof (install_tracks _ _ _ ty c (ListenerHandler.OConnect id2 l2) H1) as H2.
    destruct (OnMessage_tracks _ _ _ ty c sender H2 ltac:(by rewrite Hd1)) as [-> _].
    by rewrite (deliveries_called _ _ _ _ _ (lookup_insert_eq _ _ _)).
  - destruct (connect_tracks d1 _ _ ty c (ListenerHandler.OConnect id2 l2) H1) as [g2 H2].
    unfold spec_add in H2. rewrite lookup_insert_eq, decide_True in H2 by done.
    assert (is_shutdown_ (connect_handler ty c (ListenerHandler.exec (ListenerHandler.OConnect id2 l2)) (find_handler ty c d1) d1) = false) as Hs.
    { unfold connect_handler at 1. by repeat case_match; rewrite Hd1. }
    destruct (OnMessage_tracks _ _ _ ty c sender H2 Hs) as [-> _].
    rewrite (deliveries_called _ _ _ _ _ (lookup_insert_eq _ _ _)). unfold ListenerHandler.called. cbn.
    unfold ListenerHandler.orphan. by case_decide.
Qed.
End dispatcher.
End Dispatcher.

(** ** Blocks of shared memory *)

(** A block as a reader sees it: its memory and the two sizes in its header. *)
Record ReadableBlock := block { buf : list Z; msg_size_ : Z; msg_info_size_ : Z }.

(** What the dispatcher asks of a [Segment] it reads. *)
Class BlockReader (S : Type) := {
  br_Segment : Z → S;
  br_AcquireBlockToRead : Z → S → option ReadableBlock * S;
  br_ReleaseReadBlock : Z → S → S
}.

Module ShmDispatcher.
Section shm.
Context {M : Type} `{IntMap M nat} (empty : M).
Context {S : Type} `{BlockReader S}.
Context (Hash : list Z → Z).

Record t := mk {
  base : Dispatcher.t (M := M);
  host_id_ : Z;
  segments_ : gmap Z S;
  previous_indexes_ : gmap Z Z
}.

Definition UINT32_MAX : Z := 2 ^ 32 - 1.

Definition set_base (b : Dispatcher.t) (d : t) : t := mk b (host_id_ d) (segments_ d) (previous_indexes_ d).
Definition set_segments (s : gmap Z S) (d : t) : t := mk (base d) (host_id_ d) s (previous_indexes_ d).
Definition set_previous (p : gmap Z Z) (d : t) : t := mk (base d) (host_id_ d) (segments_ d) p.

(** [Init]: the host's address as bytes. *)
Definition ShmDispatcher (host_ip : list Z) : t := mk (Dispatcher.Dispatcher empty) (Hash host_ip) ∅ ∅.

Definition Shutdown (d : t) : t :=
  if Dispatcher.is_shutdown_ (base d) then d
  else set_segments ∅ (set_base (Dispatcher.Shutdown (base d)) d).

Definition AddSegment (self_attr : RoleAttributes.t) (d : t) : t :=
  let channel_id := RoleAttributes.channel_id self_attr in
  match segments_ d !! channel_id with
  | Some _ => d
  | None =>
      set_previous (<[channel_id := UINT32_MAX]> (previous_indexes_ d))
        (set_segments (<[channel_id := br_Segment channel_id]> (segments_ d)) d)
  end.

Definition AddListener (self_attr : RoleAttributes.t) (listener : nat) (d : t) : t :=
  AddSegment self_attr (set_base (Dispatcher.AddListener TBlock self_attr listener (base d)) d).
Definition AddListener2 (self_attr opposite_attr : RoleAttributes.t) (listener : nat) (d : t) : t :=
  AddSegment self_attr (set_base (Dispatcher.AddListener2 TBlock self_attr opposite_attr listener (base d)) d).

(** The message of a block and the bytes of its info, from the two sizes. *)
Definition message_bytes (rb : ReadableBlock) : list Z := take (Z.to_nat (msg_size_ rb)) (buf rb).
Definition info_bytes (rb : ReadableBlock) : list Z :=
  take (Z.to_nat (msg_info_size_ rb)) (drop (Z.to_nat (msg_size_ rb)) (buf rb)).

(** What a listener gets of a block: its adapter parses the message. *)
Context {Msg : Type} (parse : nat → list Z → option Msg).

Definition adapt (rb : ReadableBlock) (l : nat) : option (nat * Msg) := m ← parse l (message_bytes rb); Some (l, m).

Definition OnMessage (channel_id : Z) (rb : ReadableBlock) (msg_info : MessageInfo.t) (d : t) : list (nat * Msg) * t :=
  let '(calls, b) := Dispatcher.OnMessage TBlock channel_id (Identity.hash_value_ (MessageInfo.sender_id_ msg_info)) (base d) in
  (omap (adapt rb) calls.*1, set_base b d).

(** The part of [ReadMessage] between acquiring a block and releasing it. *)
Definition on_block (channel_id : Z) (rb : ReadableBlock) (d : t) : list (nat * Msg) * t :=
  let '(ok, msg_info) := MessageInfo.DeserializeFrom Hash (info_bytes rb) (MessageInfo.MessageInfo Hash) in
  if ok : bool then OnMessage channel_id rb msg_info d else ([], d).

(** [segments_[channel_id]] exists: [ThreadFunc] has looked. *)
Definition ReadMessage (channel_id block_index : Z) (d : t) : list (nat * Msg) * t :=
  match segments_ d !! channel_id with
  | None => ([], d)
  | Some seg =>
      let '(rb, seg) := br_AcquireBlockToRead block_index seg in
      let d := set_segments (<[channel_id := seg]> (segments_ d)) d in
      match rb with
      | None => ([], d)
      | Some rb =>
          let '(calls, d) := on_block channel_id rb d in
          (calls, set_segments (<[channel_id := br_ReleaseReadBlock block_index seg]> (segments_ d)) d)
      end
  end.

(** A round of [ThreadFunc]; [heard]: what [Listen] gives. *)
Definition round (heard : option ReadableInfo.t) (d : t) : list (nat * Msg) * t :=
  if Dispatcher.is_shutdown_ (base d) then ([], d)
  else
    match heard with
    | None => ([], d)
    | Some info =>
        if negb (ReadableInfo.host_id_ info =? host_id_ d) then ([], d)
        else
          let channel_id := ReadableInfo.channel_id_ info in
          let block_index := ReadableInfo.block_index_ info in
          match segments_ d !! channel_id with
          | None => ([], d)
          | Some _ => ReadMessage channel_id block_index (set_previous (<[channel_id := block_index]> (previous_indexes_ d)) d)
          end
    end.

(** *** What the writer leaves in a block ([ShmTransmitter::Transmit]) *)
Definition write_block (msg : list Z) (msg_info : MessageInfo.t) (memory : list Z) : ReadableBlock :=
  let memory := msg ++ drop (length msg) memory in
  let addr := drop (length msg) memory in
  block (take (length msg) memory ++ (MessageInfo.SerializeToArray msg_info addr MessageInfo.kSize).2)
    (Z.of_nat (length msg)) (Z.of_nat MessageInfo.kSize).

Lemma write_block_read msg msg_info memory :
  MessageInfo.well_typed msg_info →
  message_bytes (write_block msg msg_info memory) = msg ∧
  info_bytes (write_block msg msg_info memory) = MessageInfo.SerializeTo msg_info.
Proof.
  intros Hwt. unfold write_block. rewrite take_app_length, drop_app_length.
  unfold message_bytes, info_bytes. cbn [buf msg_size_ msg_info_size_]. rewrite !Nat2Z.id, take_app_length, drop_app_length.
  split; [done|]. pose proof (MessageInfo.length_SerializeTo msg_info Hwt) as Hl.
  assert (MessageInfo.SerializeToArray msg_info (drop (length msg) memory) MessageInfo.kSize =
    (true, MessageInfo.SerializeTo msg_info ++ drop MessageInfo.kSize (drop (length msg) memory))) as ->.
  { unfold MessageInfo.SerializeToArray, MessageInfo.SerializeTo. rewrite Nat.ltb_irrefl. by rewrite <- !app_assoc. }
  cbn [snd]. rewrite <- Hl. by rewrite take_app_length.
Qed.

Lemma OnMessage_spec c rb msg_info d s :
  Dispatcher.implements (base d) s →
  let sender := Identity.hash_value_ (MessageInfo.sender_id_ msg_info) in
  (OnMessage c rb msg_info d).1 = omap (adapt rb) (fst <$> Dispatcher.deliveries TBlock c sender s) ∧
  ∃ b, (OnMessage c rb msg_info d).2 = set_base b d ∧ Dispatcher.implements b s.
Proof.
  intros [Hd [g Hg]] sender. destruct s as [down A]. cbn in Hd, Hg. unfold OnMessage. fold sender. destruct down.
  - assert (Dispatcher.OnMessage TBlock c sender (base d) = ([], base d)) as -> by (unfold Dispatcher.OnMessage; by rewrite Hd).
    split; [done|]. exists (base d). split; [done|]. split; [done|by exists g].
  - destruct (Dispatcher.OnMessage_tracks _ _ _ TBlock c sender Hg Hd) as (H1 & H2 & H3).
    destruct (Dispatcher.OnMessage _ _ _ _) as [calls b]. cbn [fst snd] in *. rewrite H1. split; [done|].
    exists b. split; [done|]. split; [done|by exists g].
Qed.

(** A block as [ShmTransmitter] filled it. *)
Lemma on_block_spec c msg msg_info memory d s :
  MessageInfo.well_typed msg_info → Dispatcher.implements (base d) s →
  let sender := Hash (Identity.data_ (MessageInfo.sender_id_ msg_info)) in
  let r := on_block c (write_block msg msg_info memory) d in
  r.1 = omap (λ l, m ← parse l msg; Some (l, m)) (fst <$> Dispatcher.deliveries TBlock c sender s) ∧
  ∃ b, r.2 = set_base b d ∧ Dispatcher.implements b s.
Proof.
  intros Hwt Hi sender r. unfold r, on_block. destruct (write_block_read msg msg_info memory Hwt) as [Hm Hinfo]. rewrite Hinfo.
  rewrite MessageInfo.DeserializeFrom_SerializeTo by done.
  destruct (OnMessage_spec c (write_block msg msg_info memory) (MessageInfo.refreshed Hash msg_info) d s Hi) as [-> Hb].
  split; [|exact Hb]. unfold adapt. by rewrite Hm.
Qed.

(** A notified block reaches the listeners of its channel.  When the
    dispatcher hears of a block of a channel it has a segment for, and the
    segment hands out the block as [ShmTransmitter] filled it, exactly the
    listeners registered for the channel and for the sender are called, each with
    what it parses from the bytes that were sent; then the block is released, its
    index noted, and the registrations are as before.  Of another host or an
    unknown channel nothing is read at all. *)
Theorem shm_round_delivers d s host index c seg seg' msg msg_info memory :
  Dispatcher.implements (base d) s → Dispatcher.is_shutdown_ (base d) = false → MessageInfo.well_typed msg_info →
  segments_ d !! c = Some seg →
  br_AcquireBlockToRead index seg = (Some (write_block msg msg_info memory), seg') →
  let '(calls, d') := round (Some (ReadableInfo.mk host index c)) d in
  if host =? host_id_ d then
    let sender := Hash (Identity.data_ (MessageInfo.sender_id_ msg_info)) in
    calls = omap (λ l, m ← parse l msg; Some (l, m)) (fst <$> Dispatcher.deliveries TBlock c sender s) ∧
    Dispatcher.implements (base d') s ∧
    segments_ d' !! c = Some (br_ReleaseReadBlock index seg') ∧ previous_indexes_ d' !! c = Some index ∧
    (∀ c', c' ≠ c → segments_ d' !! c' = segments_ d !! c')
  else calls = [] ∧ d' = d.
Proof.
  intros Hi Hd Hwt Hseg Hacq. unfold round. rewrite Hd. cbn [ReadableInfo.host_id_ ReadableInfo.channel_id_ ReadableInfo.block_index_].
  destruct (host =? host_id_ d); cbn [negb]; [|done]. rewrite Hseg. unfold ReadMessage. cbn [segments_ set_previous]. rewrite Hseg, Hacq.
  set (d1 := set_segments _ _).
  destruct (on_block_spec c msg msg_info memory d1 s Hwt Hi) as [Hcalls (b & Hb & Hib)].
  destruct (on_block c _ d1) as [calls d2]. cbn [fst snd] in Hcalls, Hb. subst d2. split_and!.
  - done.
  - done.
  - cbn. by rewrite lookup_insert_eq.
  - cbn. by rewrite lookup_insert_eq.
  - intros c' Hc'. cbn. by rewrite !lookup_insert_ne.
Qed.
End shm.
End ShmDispatcher.

(** ** Samples of the data distribution service *)
Module RtpsDispatcher.
Section rtps.
Context {M : Type} `{IntMap M nat} (empty : M).
Context (Hash : list Z → Z).

(** [subs_]: the channels with a subscriber. *)
Record t := mk { base : Dispatcher.t (M := M); subs_ : gset Z; participant_ : bool }.

Definition RtpsDispatcher : t := mk (Dispatcher.Dispatcher empty) ∅ false.
Definition set_participant (b : bool) (d : t) : t := mk (base d) (subs_ d) b.

Definition Shutdown (d : t) : t :=
  if Dispatcher.is_shutdown_ (base d) then d else mk (Dispatcher.Shutdown (base d)) (subs_ d) false.

(** [filled], [created]: do [FillInSubAttr] and [createSubscriber] succeed? *)
Definition AddSubscriber (filled created : bool) (self_attr : RoleAttributes.t) (d : t) : t :=
  if negb (participant_ d) then d
  else
    let channel_id := RoleAttributes.channel_id self_attr in
    if decide (channel_id ∈ subs_ d) then d
    else if negb filled then d
    else if negb created then d
    else mk (base d) (subs_ d ∪ {[channel_id]}) (participant_ d).

Definition AddListener (filled created : bool) (self_attr : RoleAttributes.t) (listener : nat) (d : t) : t :=
  AddSubscriber filled created self_attr
    (mk (Dispatcher.AddListener TString self_attr listener (base d)) (subs_ d) (participant_ d)).
Definition AddListener2 (filled created : bool) (self_attr opposite_attr : RoleAttributes.t) (listener : nat) (d : t) : t :=
  AddSubscriber filled created self_attr
    (mk (Dispatcher.AddListener2 TString self_attr opposite_attr listener (base d)) (subs_ d) (participant_ d)).

Context {Msg : Type} (parse : nat → list Z → option Msg).

Definition OnMessage (channel_id : Z) (msg_str : list Z) (msg_info : MessageInfo.t) (d : t) : list (nat * Msg) * t :=
  let '(calls, b) := Dispatcher.OnMessage TString channel_id (Identity.hash_value_ (MessageInfo.sender_id_ msg_info)) (base d) in
  (omap (λ l, m ← parse l msg_str; Some (l, m)) calls.*1, mk b (subs_ d) (participant_ d)).

(** [SubListener::onNewDataMessage] on the subscriber of a topic: the sample
    taken, and whether it is alive.  [info]: the listener's [msg_info_]. *)
Definition onNewDataMessage (topic : list Z) (taken : option (MessageInfo.SampleIdentity * list Z)) (alive : bool)
    (info : MessageInfo.t) (d : t) : list (nat * Msg) * MessageInfo.t * t :=
  let channel_id := Hash topic in
  match taken with
  | None => ([], info, d)
  | Some (identity, data) =>
      if negb alive then ([], info, d)
      else
        let info := MessageInfo.of_sample Hash identity info in
        let '(calls, d) := OnMessage channel_id data info d in (calls, info, d)
  end.
End rtps.
End RtpsDispatcher.

(** ** Witnesses: dispatchers over the atomic hash map of 128 buckets *)
Module DispatcherSample.
Import AtomicHashMap.

Definition map_empty : t (V := nat) := AtomicHashMap (2 ^ 7).
#[export] Instance dispatcher_map : IntMap t nat := atomic_IntMap 7 ltac:(lia).

Lemma map_empty_rep : im_rep map_empty ∅.
Proof. apply (atomic_empty_rep 7). Qed.

Definition role (id channel : Z) : RoleAttributes.t :=
  RoleAttributes.mk None "10.0.0.1" (Some 7) "c" channel (Some id)
    (RoleAttributes.qos History.HISTORY_KEEP_LAST 1 RoleAttributes.DURABILITY_VOLATILE).

(** Two receivers on channel 5, the second for sender 9 only; a third asks for
    the channel with another type; the first disconnects. *)
Definition demo_ops : list Dispatcher.op :=
  [Dispatcher.OAdd (TMessage "m") (role 1 5) 11; Dispatcher.OAdd2 (TMessage "m") (role 2 5) (role 9 5) 22;
   Dispatcher.OAdd TRaw (role 3 5) 33; Dispatcher.OMessage (TMessage "m") 5 9; Dispatcher.ORemove (role 1 5)].

Lemma dispatcher_refines_witness :
  (Dispatcher.OnMessage (TMessage "m") 5 9 (foldl (λ d o, Dispatcher.exec o d) (Dispatcher.Dispatcher map_empty) demo_ops)).1 = [(22%nat, false)].
Proof.
  destruct (Dispatcher.dispatcher_refines map_empty map_empty_rep demo_ops (TMessage "m") 5 9) as [H _].
  rewrite H. vm_compute. reflexivity.
Defined.

Lemma dispatcher_add_race_witness :
  let x := Dispatcher.find_handler TBlock 5 (Dispatcher.Dispatcher map_empty) in
  let d1 := Dispatcher.connect_handler TBlock 5 (ListenerHandler.Connect 1 11) x (Dispatcher.Dispatcher map_empty) in
  fst <$> (Dispatcher.OnMessage TBlock 5 9 (Dispatcher.connect_handler TBlock 5 (ListenerHandler.Connect 2 22) x d1)).1 = [22%nat].
Proof. apply (Dispatcher.dispatcher_add_race map_empty map_empty_rep TBlock 5 1 2 11%nat 22%nat 9). Defined.

(** A segment that hands out one block. *)
#[export] Instance one_block : BlockReader (option ReadableBlock) := {
  br_Segment _ := None;
  br_AcquireBlockToRead _ s := (s, s);
  br_ReleaseReadBlock _ _ := None
}.

Definition sent : MessageInfo.t := MessageSample.info.
Definition demo_block : ReadableBlock := ShmDispatcher.write_block [1; 2; 3] sent (replicate 40 0).
Definition demo_shm : ShmDispatcher.t (M := t) (S := option ReadableBlock) :=
  ShmDispatcher.set_segments {[5 := Some demo_block]}
    (ShmDispatcher.AddListener2 (role 2 5) (role 36 5) 22 (ShmDispatcher.ShmDispatcher map_empty MessageSample.sum_hash [10])).

Lemma shm_round_delivers_witness :
  (ShmDispatcher.round MessageSample.sum_hash (λ _ bs, Some bs) (Some (ReadableInfo.mk 10 3 5)) demo_shm).1 = [(22%nat, [1; 2; 3])].
Proof.
  pose proof (ShmDispatcher.shm_round_delivers MessageSample.sum_hash (λ _ bs, Some bs) demo_shm
    (Dispatcher.exec_spec (Dispatcher.OAdd2 TBlock (role 2 5) (role 36 5) 22) (false, ∅)) 10 3 5 (Some demo_block) (Some demo_block)
    [1; 2; 3] sent (replicate 40 0)) as H.
  destruct (ShmDispatcher.round _ _ _ demo_shm) as [calls d'].
  destruct H as [-> _].
  - apply (Dispatcher.exec_tracks (Dispatcher.OAdd2 TBlock (role 2 5) (role 36 5) 22)), (Dispatcher.implements_new map_empty map_empty_rep).
  - vm_compute. reflexivity.
  - exact MessageSample.info_well_typed.
  - reflexivity.
  - reflexivity.
  - vm_compute. reflexivity.
Defined.
End DispatcherSample.
