(* ===== verification/Transmitters.v ===== *)
(** * Transmitters ([cyber/transport/transmitter/])

    [IntraTransmitter], [ShmTransmitter], [RtpsTransmitter]: one medium each.
    [HybridTransmitter]: all of them at once, and the history for readers that
    come late.  What a transmitter hands to its medium is an [emission]. *)

From S2P Require Import Prelude Message Shm Dispatcher.
From stdpp Require Import pretty.

Local Open Scope Z_scope.
Local Open Scope cyber_scope.

Abbreviation role := RoleAttributes.t.

(** ** [cyber/common/types.h], [cyber/proto/transport_conf.proto] *)
Inductive Relation := NO_RELATION | DIFF_HOST | DIFF_PROC | SAME_PROC.
Inductive OptionalMode := HYBRID | INTRA | SHM | RTPS.

#[export] Instance Relation_eq_dec : EqDecision Relation.
Proof. solve_decision. Defined.
#[export] Instance OptionalMode_eq_dec : EqDecision OptionalMode.
Proof. solve_decision. Defined.
Definition mode_number (m : OptionalMode) : nat := match m with HYBRID => 0 | INTRA => 1 | SHM => 2 | RTPS => 3 end.
Definition mode_of_number (n : nat) : OptionalMode := match n with O => HYBRID | 1%nat => INTRA | 2%nat => SHM | _ => RTPS end.
Lemma mode_of_mode_number m : mode_of_number (mode_number m) = m.
Proof. by destruct m. Qed.
#[export] Instance OptionalMode_countable : Countable OptionalMode := inj_countable' mode_number mode_of_number mode_of_mode_number.

Record CommunicationMode := modes { same_proc : OptionalMode; diff_proc : OptionalMode; diff_host : OptionalMode }.
Definition default_modes : CommunicationMode := modes INTRA SHM RTPS.

(** [mapping_table_] after [InitMode] and [ObtainConfig]; the table has no entry
    for [NO_RELATION]. *)
Definition mapping_table (m : CommunicationMode) (r : Relation) : OptionalMode :=
  match r with SAME_PROC => same_proc m | DIFF_PROC => diff_proc m | DIFF_HOST => diff_host m | NO_RELATION => HYBRID end.
Definition mode_set (m : CommunicationMode) : gset OptionalMode := {[same_proc m; diff_proc m; diff_host m]}.

Definition GetRelation (attr opposite_attr : role) : Relation :=
  if negb (bool_decide (RoleAttributes.channel_name opposite_attr = RoleAttributes.channel_name attr)) then NO_RELATION
  else if negb (bool_decide (RoleAttributes.host_ip opposite_attr = RoleAttributes.host_ip attr)) then DIFF_HOST
  else if negb (RoleAttributes.process_id opposite_attr =? RoleAttributes.process_id attr) then DIFF_PROC
  else SAME_PROC.

Lemma GetRelation_sym a b : GetRelation a b = GetRelation b a.
Proof.
  unfold GetRelation. rewrite (Z.eqb_sym (RoleAttributes.process_id b)).
  rewrite (bool_decide_ext (RoleAttributes.channel_name b = _) (RoleAttributes.channel_name a = RoleAttributes.channel_name b)) by done.
  by rewrite (bool_decide_ext (RoleAttributes.host_ip b = _) (RoleAttributes.host_ip a = RoleAttributes.host_ip b)) by done.
Qed.

Lemma mapping_in_modes m r : r ≠ NO_RELATION → mapping_table m r ∈ mode_set m.
Proof. unfold mode_set. destruct r; cbn; set_solver. Qed.

(** A message type: its serialisation may fail. *)
Class MessageType (Msg : Type) := { full_name : string; ser : Msg → option (list Z); ByteSize : Msg → Z }.

(** What a transmitter asks of a [Segment] it writes: a block's index and its
    memory; releasing it publishes what it holds. *)
Class BlockWriter (W : Type) := {
  bw_Segment : Z → W;
  bw_AcquireBlockToWrite : Z → W → option (Z * list Z) * W;
  bw_ReleaseWrittenBlock : Z → W → W
}.

(** How the outside answers: is a publisher created, is the notification sent,
    is the participant shut down, is the sample written? *)
Record env := mkenv { publisher : bool; notified : bool; shut_down : bool; written : bool }.

Section transmitters.
Context {Msg : Type} `{MessageType Msg}.
Context {W : Type} `{BlockWriter W}.
Context (Hash : list Z → Z).

Inductive emission :=
| ToIntra (channel_id : Z) (msg : Msg) (msg_info : MessageInfo.t)
| ToShm (info : ReadableInfo.t) (rb : ReadableBlock)
| ToRtps (topic : string) (data : list Z) (identity : MessageInfo.SampleIdentity).

(** [enabled_] also says whether [dispatcher_] is set. *)
Record IntraTransmitter := mkintra { in_enabled : bool; in_channel_id : Z }.

Definition Intra_Enable (t : IntraTransmitter) : IntraTransmitter := if negb (in_enabled t) then mkintra true (in_channel_id t) else t.
Definition Intra_Disable (t : IntraTransmitter) : IntraTransmitter := if in_enabled t then mkintra false (in_channel_id t) else t.
Definition Intra_Transmit (msg : Msg) (info : MessageInfo.t) (t : IntraTransmitter) : bool * list emission :=
  if negb (in_enabled t) then (false, []) else (true, [ToIntra (in_channel_id t) msg info]).

(** [segment_] and [notifier_] are set while it is enabled. *)
Record ShmTransmitter := mkshmt { sh_enabled : bool; sh_channel_id : Z; sh_host_id : Z; sh_segment : option W }.

Definition Shm_Enable (t : ShmTransmitter) : ShmTransmitter :=
  if sh_enabled t then t else mkshmt true (sh_channel_id t) (sh_host_id t) (Some (bw_Segment (sh_channel_id t))).
Definition Shm_Disable (t : ShmTransmitter) : ShmTransmitter :=
  if sh_enabled t then mkshmt false (sh_channel_id t) (sh_host_id t) None else t.

Definition Shm_Transmit (e : env) (msg : Msg) (info : MessageInfo.t) (t : ShmTransmitter) : bool * list emission * ShmTransmitter :=
  if negb (sh_enabled t) then (false, [], t)
  else
    match sh_segment t with
    | None => (false, [], t)
    | Some seg =>
        let '(wb, seg) := bw_AcquireBlockToWrite (ByteSize msg) seg in
        match wb with
        | None => (false, [], mkshmt true (sh_channel_id t) (sh_host_id t) (Some seg))
        | Some (index, memory) =>
            let t := mkshmt true (sh_channel_id t) (sh_host_id t) (Some (bw_ReleaseWrittenBlock index seg)) in
            match ser msg with
            | None => (false, [], t)
            | Some bytes =>
                (* [kSize] bytes are room enough for the info: that cannot fail *)
                let rb := ShmDispatcher.write_block bytes info memory in
                let readable := ReadableInfo.mk (sh_host_id t) index (sh_channel_id t) in
                (notified e, if notified e then [ToShm readable rb] else [], t)
            end
        end
    end.

(** [publisher_] is set while it is enabled. *)
Record RtpsTransmitter := mkrtps { rt_enabled : bool; rt_attr : role; rt_participant : bool }.

Definition Rtps_Enable (e : env) (t : RtpsTransmitter) : RtpsTransmitter :=
  if rt_enabled t then t
  else if negb (rt_participant t) then t
  else if negb (publisher e) then t
  else mkrtps true (rt_attr t) (rt_participant t).
Definition Rtps_Disable (t : RtpsTransmitter) : RtpsTransmitter :=
  if rt_enabled t then mkrtps false (rt_attr t) (rt_participant t) else t.

Definition Rtps_Transmit (e : env) (msg : Msg) (info : MessageInfo.t) (t : RtpsTransmitter) : bool * list emission :=
  if negb (rt_enabled t) then (false, [])
  else
    match ser msg with
    | None => (false, [])
    | Some data =>
        if shut_down e then (false, [])
        else (written e, if written e then [ToRtps (RoleAttributes.channel_name (rt_attr t)) data (MessageInfo.to_sample info)] else [])
    end.

(** ** The virtual functions of [Transmitter<M>] *)
Inductive transmitter := TIntra (t : IntraTransmitter) | TShm (t : ShmTransmitter) | TRtps (t : RtpsTransmitter).

Definition Enable (e : env) (t : transmitter) : transmitter :=
  match t with TIntra t => TIntra (Intra_Enable t) | TShm t => TShm (Shm_Enable t) | TRtps t => TRtps (Rtps_Enable e t) end.
Definition Disable (t : transmitter) : transmitter :=
  match t with TIntra t => TIntra (Intra_Disable t) | TShm t => TShm (Shm_Disable t) | TRtps t => TRtps (Rtps_Disable t) end.
Definition Transmit (e : env) (msg : Msg) (info : MessageInfo.t) (t : transmitter) : bool * list emission * transmitter :=
  match t with
  | TIntra t => (Intra_Transmit msg info t, TIntra t)
  | TShm t => let '(r, t) := Shm_Transmit e msg info t in (r, TShm t)
  | TRtps t => (Rtps_Transmit e msg info t, TRtps t)
  end.
Definition enabled (t : transmitter) : bool :=
  match t with TIntra t => in_enabled t | TShm t => sh_enabled t | TRtps t => rt_enabled t end.
End transmitters.
Arguments emission Msg : clear implicits.
Arguments ShmTransmitter W : clear implicits.
Arguments transmitter W : clear implicits.

(** ** [HybridTransmitter] *)
Module HybridTransmitter.
Section hybrid.
Context {Msg : Type} `{MessageType Msg}.
Context {W : Type} `{BlockWriter W}.
Context (Hash : list Z → Z).

Abbreviation cached := (Msg * MessageInfo.t)%type.

Record t := mk {
  attr_ : role;
  seq_num_ : Z;
  msg_info_ : MessageInfo.t;
  history_ : History.t (CachedMessage := cached);
  mode_ : CommunicationMode;
  transmitters_ : gmap OptionalMode (transmitter W);
  receivers_ : gmap OptionalMode (gset Z);
  participant_ : bool
}.

Definition set_peers (ts : gmap OptionalMode (transmitter W)) (rs : gmap OptionalMode (gset Z)) (h : t) : t :=
  mk (attr_ h) (seq_num_ h) (msg_info_ h) (history_ h) (mode_ h) ts rs (participant_ h).

(** [InitTransmitters], for one mode. *)
Definition create (attr : role) (participant : bool) (m : OptionalMode) : transmitter W :=
  match m with
  | INTRA => TIntra (mkintra false (RoleAttributes.channel_id attr))
  | SHM => TShm (mkshmt false (RoleAttributes.channel_id attr) (Hash (string_bytes (RoleAttributes.host_ip attr))) None)
  | _ => TRtps (mkrtps false attr participant)
  end.

Definition InitHistory (limit : option Z) (attr : role) : History.t (CachedMessage := cached) :=
  let q := RoleAttributes.qos_profile attr in
  let x := History.History limit (History.attributes (RoleAttributes.history q) (RoleAttributes.depth q)) in
  if decide (RoleAttributes.durability q = RoleAttributes.DURABILITY_TRANSIENT_LOCAL) then History.Enable x else x.

(** [communication_mode], [limit]: of the configuration, if it has them. *)
Definition HybridTransmitter (communication_mode : option CommunicationMode) (limit : option Z) (participant : bool)
    (endpoint : Endpoint.t) : t :=
  let attr := Endpoint.attr_ endpoint in
  let m := default default_modes communication_mode in
  let ts := set_to_map (λ mode, (mode, create attr participant mode)) (mode_set m) : gmap OptionalMode (transmitter W) in
  mk attr 0 (MessageInfo.MessageInfo2 Hash (Endpoint.id_ endpoint) 0) (InitHistory limit attr) m ts ((λ _, ∅) <$> ts) participant.

Definition EnableAll (e : env) (h : t) : t := set_peers (Enable e <$> transmitters_ h) (receivers_ h) h.
Definition DisableAll (h : t) : t := set_peers (Disable <$> transmitters_ h) (receivers_ h) h.

(** The messages that [TransmitHistoryMsg] gives to [ThreadFunc]. *)
Definition TransmitHistoryMsg (h : t) : list cached :=
  if negb (bool_decide (RoleAttributes.durability (RoleAttributes.qos_profile (attr_ h)) = RoleAttributes.DURABILITY_TRANSIENT_LOCAL))
  then []
  else History.GetCachedMessage [] (history_ h).

(** [receivers_[m]] as an lvalue. *)
Definition upd (f : gset Z → gset Z) (m : OptionalMode) (rs : gmap OptionalMode (gset Z)) : gmap OptionalMode (gset Z) :=
  <[m := f (default ∅ (rs !! m))]> rs.

Definition EnablePeer (e : env) (opposite_attr : role) (h : t) : list cached * t :=
  let relation := GetRelation (attr_ h) opposite_attr in
  if decide (relation = NO_RELATION) then ([], h)
  else
    let m := mapping_table (mode_ h) relation in
    let h := set_peers (alter (Enable e) m (transmitters_ h))
               (upd (λ s, s ∪ {[RoleAttributes.id opposite_attr]}) m (receivers_ h)) h in
    (TransmitHistoryMsg h, h).

Definition DisablePeer (opposite_attr : role) (h : t) : t :=
  let relation := GetRelation (attr_ h) opposite_attr in
  if decide (relation = NO_RELATION) then h
  else
    let m := mapping_table (mode_ h) relation in
    let rs := upd (λ s, s ∖ {[RoleAttributes.id opposite_attr]}) m (receivers_ h) in
    if decide (default ∅ (rs !! m) = (∅ : gset Z)) then set_peers (alter Disable m (transmitters_ h)) rs h
    else set_peers (transmitters_ h) rs h.

(** [Transmitter::Transmit(msg)], then [HybridTransmitter::Transmit(msg, info)]. *)
Definition next_info (h : t) : MessageInfo.t :=
  MessageInfo.mk (MessageInfo.sender_id_ (msg_info_ h)) (seq_num_ h +64 1) (MessageInfo.spare_id_ (msg_info_ h)).

Definition Send (e : env) (msg : Msg) (h : t) : bool * list (emission Msg) * t :=
  let info := next_info h in
  let rs := Transmit e msg info <$> transmitters_ h in
  (true, map_to_list rs ≫= (λ x, x.2.1.2),
   mk (attr_ h) (seq_num_ h +64 1) info (History.Add (msg, info) (history_ h)) (mode_ h) (snd <$> rs) (receivers_ h) (participant_ h)).

(** [ThreadFunc]: the history goes out on a channel of its own. *)
Definition history_channel (transmitter_attr receiver_attr : role) : string :=
  (pretty (RoleAttributes.id transmitter_attr) +:+ pretty (RoleAttributes.id receiver_attr))%string.

Definition ThreadFunc (e : env) (channel_id : Z) (opposite_attr : role) (msgs : list cached) (h : t) : list (emission Msg) :=
  let new_attr := RoleAttributes.set_channel (history_channel (attr_ h) opposite_attr) channel_id (attr_ h) in
  let new_transmitter := Rtps_Enable e (mkrtps false new_attr (participant_ h)) in
  msgs ≫= (λ item, (Rtps_Transmit e item.1 item.2 new_transmitter).2).

(** ** Its life *)
Inductive op :=
| OEnableAll (e : env) | ODisableAll | OEnablePeer (e : env) (a : role) | ODisablePeer (a : role) | OSend (e : env) (msg : Msg).

Definition exec (o : op) (h : t) : t :=
  match o with
  | OEnableAll e => EnableAll e h
  | ODisableAll => DisableAll h
  | OEnablePeer e a => (EnablePeer e a h).2
  | ODisablePeer a => DisablePeer a h
  | OSend e msg => (Send e msg h).2
  end.

Definition run_ops (ops : list op) (h : t) : t := foldl (λ h o, exec o h) h ops.

(** The messages sent, with the info each went out with. *)
Definition op_message (o : op) : option Msg := match o with OSend _ msg => Some msg | _ => None end.
Definition numbered (info : MessageInfo.t) (msgs : list Msg) : list cached :=
  imap (λ i msg, (msg, MessageInfo.mk (MessageInfo.sender_id_ info) (Z.of_nat (S i)) (MessageInfo.spare_id_ info))) msgs.

(** *** The history and the numbers *)
Lemma numbered_snoc info msgs msg :
  numbered info (msgs ++ [msg]) =
  numbered info msgs ++ [(msg, MessageInfo.mk (MessageInfo.sender_id_ info) (Z.of_nat (S (length msgs))) (MessageInfo.spare_id_ info))].
Proof. unfold numbered. rewrite imap_app. cbn. by rewrite Nat.add_0_r. Qed.

Definition history_depth (limit : option Z) (attr : role) : Z :=
  let q := RoleAttributes.qos_profile attr in
  if decide (RoleAttributes.history q = History.HISTORY_KEEP_ALL) then default 1000 limit
  else Z.min (RoleAttributes.depth q) (default 1000 limit).
Definition keeps_history (attr : role) : bool :=
  bool_decide (RoleAttributes.durability (RoleAttributes.qos_profile attr) = RoleAttributes.DURABILITY_TRANSIENT_LOCAL).

Record sent_ok (h0 : t) (d : Z) (msgs : list Msg) (h : t) : Prop := {
  so_attr : attr_ h = attr_ h0;
  so_mode : mode_ h = mode_ h0;
  so_participant : participant_ h = participant_ h0;
  so_seq : seq_num_ h = Z.of_nat (length msgs);
  so_sender : MessageInfo.sender_id_ (msg_info_ h) = MessageInfo.sender_id_ (msg_info_ h0);
  so_spare : MessageInfo.spare_id_ (msg_info_ h) = MessageInfo.spare_id_ (msg_info_ h0);
  so_depth : History.depth_ (history_ h) = d;
  so_enabled : History.enabled_ (history_ h) = keeps_history (attr_ h0);
  so_msgs : History.msgs_ (history_ h) =
    if keeps_history (attr_ h0) then History.last_of d (numbered (msg_info_ h0) msgs) else []
}.

Lemma exec_sent_ok h0 d msgs h o :
  0 <= d → Z.of_nat (length (msgs ++ omap op_message [o])) < 2 ^ 64 → sent_ok h0 d msgs h →
  sent_ok h0 d (msgs ++ omap op_message [o]) (exec o h).
Proof.
  intros Hd Hlen []. destruct o as [e| |e a|a|e msg]; cbn [omap list_omap op_message] in *; rewrite ?app_nil_r, ?length_app in *.
  - by constructor.
  - by constructor.
  - cbn [exec]. unfold EnablePeer. case_decide; by constructor.
  - cbn [exec]. unfold DisablePeer. repeat case_decide; by constructor.
  - assert (next_info h = MessageInfo.mk (MessageInfo.sender_id_ (msg_info_ h0)) (Z.of_nat (S (length msgs))) (MessageInfo.spare_id_ (msg_info_ h0))) as Hi.
    { unfold next_info. rewrite so_sender0, so_spare0, so_seq0, u64_small by (cbn in Hlen; lia). f_equal. lia. }
    cbn [exec Send snd]. destruct (History.Add_depth (msg, next_info h) (history_ h)) as (D1 & _ & D2).
    constructor; cbn [attr_ mode_ participant_ seq_num_ msg_info_ history_]; rewrite ?D1, ?D2; try done.
    + rewrite so_seq0, u64_small, length_app by (cbn in Hlen; lia). cbn. lia.
    + destruct (keeps_history (attr_ h0)) eqn:Hk.
      * rewrite History.Add_msgs by (done || lia). by rewrite so_depth0, so_msgs0, History.last_of_snoc, numbered_snoc, Hi.
      * unfold History.Add. by rewrite so_enabled0.
Qed.

Lemma run_sent_ok conf limit participant ep ops :
  let h0 := HybridTransmitter conf limit participant ep in
  let msgs := omap op_message ops in
  0 <= history_depth limit (attr_ h0) → Z.of_nat (length msgs) < 2 ^ 64 →
  sent_ok h0 (history_depth limit (attr_ h0)) msgs (run_ops ops h0).
Proof.
  intros h0 msgs Hd. unfold msgs, run_ops. induction ops as [|o ops IH] using rev_ind; intros Hlen.
  - assert (∀ q : bool, (if q then History.last_of (history_depth limit (attr_ h0)) (numbered (msg_info_ h0) []) else []) = ([] : list cached)) as Hnil.
    { intros []; done. }
    constructor; try done; cbn; unfold InitHistory, keeps_history; case_decide; cbn; rewrite ?bool_decide_true, ?bool_decide_false by done; done.
  - rewrite foldl_snoc, omap_app in *. apply exec_sent_ok; [done|done|]. apply IH. rewrite length_app in Hlen. lia.
Qed.

Lemma set_peers_self h : set_peers (transmitters_ h) (receivers_ h) h = h.
Proof. by destruct h. Qed.

Lemma ThreadFunc_spec e channel_id a history info msgs h :
  participant_ h = true → publisher e = true → shut_down e = false → written e = true →
  Forall (λ msg, is_Some (ser msg)) msgs → history ⊆ numbered info msgs →
  ThreadFunc e channel_id a history h =
    (λ item, ToRtps (history_channel (attr_ h) a) (default [] (ser item.1)) (MessageInfo.to_sample item.2)) <$> history.
Proof.
  intros Hp He1 He2 He3 Hser Hsub. unfold ThreadFunc, Rtps_Enable. cbn [rt_enabled rt_participant]. rewrite Hp, He1. cbn [negb].
  induction history as [|[msg info'] history IH]; [done|]. rewrite bind_cons, IH by set_solver. cbn [fmap list_fmap].
  unfold Rtps_Transmit. cbn [rt_enabled negb fst snd]. rewrite He2, He3.
  assert (is_Some (ser msg)) as [data Hdata]; [|by rewrite Hdata].
  specialize (Hsub (msg, info') ltac:(by left)). apply elem_of_lookup_imap in Hsub as (i & msg' & [= -> _] & Hi).
  by apply (Forall_lookup_1 _ _ _ _ Hser Hi).
Qed.

(** C16: a reader that comes late gets what it missed.  Whatever happened to the
    transmitter before: when a receiver on its channel is enabled, and the
    transmitter's durability is TRANSIENT_LOCAL, the history thread is given
    the last messages that were sent - as many as the history is deep, in order,
    each with the number it went out with - and sends them on the channel of the
    two; every message sent from then on is numbered after them.  With another
    durability or on another channel it is given nothing. *)
Theorem hybrid_late_joiner conf limit participant ep ops e a :
  let h0 := HybridTransmitter conf limit participant ep in
  let msgs := omap op_message ops in
  let h := run_ops ops h0 in
  0 <= history_depth limit (attr_ h0) → Z.of_nat (length msgs) + 1 < 2 ^ 64 →
  let '(history, h') := EnablePeer e a h in
  history =
    (if bool_decide (GetRelation (attr_ h0) a = NO_RELATION) || negb (keeps_history (attr_ h0)) then []
     else History.last_of (history_depth limit (attr_ h0)) (numbered (msg_info_ h0) msgs)) ∧
  next_info h' = MessageInfo.mk (MessageInfo.sender_id_ (msg_info_ h0)) (Z.of_nat (S (length msgs))) (MessageInfo.spare_id_ (msg_info_ h0)) ∧
  (participant = true → publisher e = true → shut_down e = false → written e = true →
   Forall (λ msg, is_Some (ser msg)) msgs →
   ∀ channel_id, ThreadFunc e channel_id a history h' =
     (λ item, ToRtps (history_channel (attr_ h0) a) (default [] (ser item.1)) (MessageInfo.to_sample item.2)) <$> history).
Proof.
  intros h0 msgs h Hd Hlen. assert (sent_ok h0 (history_depth limit (attr_ h0)) msgs h) as [] by (apply run_sent_ok; [done|fold msgs; lia]).
  assert (participant_ h0 = participant) as Hp0 by done. clearbody h.
  assert (∀ ts rs, next_info (set_peers ts rs h) =
    MessageInfo.mk (MessageInfo.sender_id_ (msg_info_ h0)) (Z.of_nat (S (length msgs))) (MessageInfo.spare_id_ (msg_info_ h0))) as Hn.
  { intros ts rs. unfold next_info. cbn. rewrite so_sender0, so_spare0, so_seq0, u64_small by lia. f_equal. lia. }
  assert (∀ h' history, attr_ h' = attr_ h0 → participant_ h' = participant → history ⊆ numbered (msg_info_ h0) msgs →
    participant = true → publisher e = true → shut_down e = false → written e = true → Forall (λ msg, is_Some (ser msg)) msgs →
    ∀ channel_id, ThreadFunc e channel_id a history h' =
      (λ item, ToRtps (history_channel (attr_ h0) a) (default [] (ser item.1)) (MessageInfo.to_sample item.2)) <$> history) as Ht.
  { intros h' history Ha Hp Hsub -> He1 He2 He3 Hser channel. rewrite <- Ha. by apply (ThreadFunc_spec _ _ _ _ (msg_info_ h0) msgs). }
  unfold EnablePeer. rewrite so_attr0. case_decide as Hr.
  - rewrite bool_decide_true by done. split_and!; [done| |].
    + specialize (Hn (transmitters_ h) (receivers_ h)). by rewrite set_peers_self in Hn.
    + intros. apply Ht; done || congruence || set_solver.
  - rewrite bool_decide_false by done.
    assert (TransmitHistoryMsg (set_peers (alter (Enable e) (mapping_table (mode_ h) (GetRelation (attr_ h0) a)) (transmitters_ h))
      (upd (λ s, s ∪ {[RoleAttributes.id a]}) (mapping_table (mode_ h) (GetRelation (attr_ h0) a)) (receivers_ h)) h) =
      (if negb (keeps_history (attr_ h0)) then [] else History.last_of (history_depth limit (attr_ h0)) (numbered (msg_info_ h0) msgs))) as Hh.
    { unfold TransmitHistoryMsg, History.GetCachedMessage. cbn. rewrite so_attr0, so_msgs0, app_nil_r.
      unfold keeps_history. by destruct (bool_decide _). }
    rewrite Hh. split_and!; [done|apply Hn|]. intros. apply Ht; try done.
    destruct (keeps_history _); cbn [negb]; [|set_solver]. unfold History.last_of. set (n := (_ - _)%nat). intros x Hx.
    rewrite <- (take_drop n). apply elem_of_app. by right.
Qed.

(** *** The media in use *)

(** The medium of a mode, as it was created; a segment is there while it is
    enabled. *)
Definition kind (attr : role) (participant : bool) (m : OptionalMode) (t : transmitter W) : Prop :=
  match m, t with
  | INTRA, TIntra t => in_channel_id t = RoleAttributes.channel_id attr
  | SHM, TShm t =>
      sh_channel_id t = RoleAttributes.channel_id attr ∧ sh_host_id t = Hash (string_bytes (RoleAttributes.host_ip attr)) ∧
      (sh_enabled t = true → is_Some (sh_segment t))
  | (HYBRID | RTPS), TRtps t => rt_attr t = attr ∧ rt_participant t = participant
  | _, _ => False
  end.

Lemma create_kind attr participant m : kind attr participant m (create attr participant m) ∧ enabled (create attr participant m) = false.
Proof. by destruct m. Qed.

Lemma Enable_kind attr participant m e t :
  kind attr participant m t →
  kind attr participant m (Enable e t) ∧
  (participant = true → publisher e = true → enabled (Enable e t) = true).
Proof.
  destruct m, t as [[b c]|[b c ho seg]|[b a p]]; cbn; try done; intros Hk; destruct b; cbn in *; destruct_and?; subst;
    unfold Rtps_Enable; cbn; try (destruct participant, (publisher e)); by split_and!.
Qed.

Lemma Disable_kind attr participant m t :
  kind attr participant m t → kind attr participant m (Disable t) ∧ enabled (Disable t) = false.
Proof. destruct m, t as [[b c]|[b c ho seg]|[b a p]]; cbn; try done; intros Hk; destruct b; cbn in *; destruct_and?; by split_and!. Qed.

Lemma Transmit_kind attr participant m e msg info t :
  kind attr participant m t →
  kind attr participant m (Transmit e msg info t).2 ∧ enabled (Transmit e msg info t).2 = enabled t.
Proof.
  destruct m, t as [t|t|t]; cbn; try done. intros (Hc & Hh & Hs). unfold Shm_Transmit.
  destruct (sh_enabled t) eqn:He; cbn [negb]; [|cbn; rewrite ?He; by split_and!]. destruct (sh_segment t) as [seg|]; [|by destruct (Hs eq_refl)].
  destruct (bw_AcquireBlockToWrite _ _) as [[[index memory]|] seg']; [destruct (ser msg)|]; cbn; split_and!; try done; by eexists.
Qed.

(** The receivers a mode has after some operations. *)
Definition peer_mode (h0 : t) (a : role) : option OptionalMode :=
  let r := GetRelation (attr_ h0) a in if decide (r = NO_RELATION) then None else Some (mapping_table (mode_ h0) r).
Definition join (h0 : t) (m : OptionalMode) (s : gset Z) (o : op) : gset Z :=
  match o with
  | OEnablePeer _ a => if decide (peer_mode h0 a = Some m) then s ∪ {[RoleAttributes.id a]} else s
  | ODisablePeer a => if decide (peer_mode h0 a = Some m) then s ∖ {[RoleAttributes.id a]} else s
  | _ => s
  end.
Definition joined (h0 : t) (ops : list op) (m : OptionalMode) : gset Z := foldl (join h0 m) ∅ ops.

(** Receivers come and go one by one, and publishers can be created. *)
Definition peerwise (o : op) : Prop :=
  match o with OEnableAll _ | ODisableAll => False | OEnablePeer e _ => publisher e = true | _ => True end.

Record in_use (h0 : t) (J : OptionalMode → gset Z) (h : t) : Prop := {
  iu_attr : attr_ h = attr_ h0;
  iu_mode : mode_ h = mode_ h0;
  iu_participant : participant_ h = true;
  iu_dom m : is_Some (transmitters_ h !! m) ↔ m ∈ mode_set (mode_ h0);
  iu_receivers m : m ∈ mode_set (mode_ h0) → receivers_ h !! m = Some (J m);
  iu_kind m t : transmitters_ h !! m = Some t →
    kind (attr_ h0) true m t ∧ enabled t = bool_decide (J m ≠ ∅)
}.

Lemma in_use_ext h0 J J' h : (∀ m, J m = J' m) → in_use h0 J h → in_use h0 J' h.
Proof.
  intros HJ []. constructor; try done.
  - intros m Hm. by rewrite <- HJ, iu_receivers0.
  - intros m t Hm. rewrite <- HJ. by apply iu_kind0.
Qed.

(** One mode changes. *)
Lemma change_in_use h0 J h m f g :
  in_use h0 J h → m ∈ mode_set (mode_ h0) →
  (∀ t, kind (attr_ h0) true m t → enabled t = bool_decide (J m ≠ ∅) →
     kind (attr_ h0) true m (f t) ∧ enabled (f t) = bool_decide (g (J m) ≠ ∅)) →
  in_use h0 (λ m', if decide (m = m') then g (J m) else J m') (set_peers (alter f m (transmitters_ h)) (upd g m (receivers_ h)) h).
Proof.
  intros [] Hm Hf. constructor; cbn; try done.
  - intros m'. rewrite <- iu_dom0, lookup_alter. destruct (decide (m = m')); subst; [|done]. by rewrite fmap_is_Some.
  - intros m' Hm'. unfold upd. rewrite lookup_insert. destruct (decide (m = m')); [|by apply iu_receivers0].
    by rewrite (iu_receivers0 m Hm).
  - intros m' t. rewrite lookup_alter. destruct (decide (m = m')); [|apply iu_kind0]. subst m'.
    intros (t' & Ht' & ->)%fmap_Some. destruct (iu_kind0 _ _ Ht'). by apply Hf.
Qed.

Lemma peer_mode_in h0 a m : peer_mode h0 a = Some m → m ∈ mode_set (mode_ h0).
Proof. unfold peer_mode. case_decide; [done|]. intros [= <-]. by apply mapping_in_modes. Qed.

Lemma exec_in_use h0 J h o :
  peerwise o → in_use h0 J h → in_use h0 (λ m, join h0 m (J m) o) (exec o h).
Proof.
  intros Hp Hi. pose proof Hi as []. destruct o as [e| |e a|a|e msg]; cbn [peerwise] in Hp; try done; cbn [exec].
  - unfold EnablePeer. rewrite iu_attr0, iu_mode0. destruct (decide (GetRelation (attr_ h0) a = NO_RELATION)) as [Hr|Hr]; cbn [snd].
    { eapply in_use_ext; [|exact Hi]. intros m. cbn. unfold peer_mode. by rewrite (decide_True _ _ Hr). }
    set (m0 := mapping_table _ _). assert (peer_mode h0 a = Some m0) as Hm0 by (unfold peer_mode; by rewrite decide_False).
    eapply in_use_ext; [|apply (change_in_use h0 J h m0)]; [|done|by eapply peer_mode_in|].
    + intros m. cbn. rewrite Hm0. destruct (decide (m0 = m)) as [->|]; [by rewrite decide_True|by rewrite decide_False by congruence].
    + intros t Hk _. destruct (Enable_kind _ _ _ e t Hk) as [Hk' He]. split; [done|]. rewrite He by done.
      symmetry. apply bool_decide_eq_true. set_solver.
  - unfold DisablePeer. rewrite iu_attr0, iu_mode0. destruct (decide (GetRelation (attr_ h0) a = NO_RELATION)) as [Hr|Hr].
    { eapply in_use_ext; [|exact Hi]. intros m. cbn. unfold peer_mode. by rewrite (decide_True _ _ Hr). }
    set (m0 := mapping_table _ _). assert (peer_mode h0 a = Some m0) as Hm0 by (unfold peer_mode; by rewrite decide_False).
    pose proof (peer_mode_in _ _ _ Hm0) as Hin. set (g := λ s, s ∖ {[RoleAttributes.id a]}).
    assert (default ∅ (upd g m0 (receivers_ h) !! m0) = g (J m0)) as ->.
    { unfold upd. by rewrite lookup_insert_eq, (iu_receivers0 _ Hin). }
    assert (∀ m, (if decide (m0 = m) then g (J m0) else J m) = join h0 m (J m) (ODisablePeer a)) as Hj.
    { intros m. cbn. rewrite Hm0. destruct (decide (m0 = m)) as [->|]; [by rewrite decide_True|by rewrite decide_False by congruence]. }
    case_decide as Hg; eapply in_use_ext; try exact Hj.
    + apply (change_in_use h0 J h m0); [done|done|]. intros t Hk _. destruct (Disable_kind _ _ _ t Hk) as [Hk' ->].
      split; [done|]. symmetry. apply bool_decide_eq_false. naive_solver.
    + assert (alter id m0 (transmitters_ h) = transmitters_ h) as Hid.
      { apply map_eq. intros m. rewrite lookup_alter. case_decide; [subst|done]. by rewrite option_fmap_id. }
      rewrite <- Hid. apply (change_in_use h0 J h m0); [done|done|]. intros t Hk He. split; [done|]. cbn. rewrite He.
      apply bool_decide_ext. unfold g in *. set_solver.
  - constructor; cbn; try done.
    + intros m. rewrite <- iu_dom0, !lookup_fmap, !fmap_is_Some. done.
    + intros m t. rewrite !lookup_fmap. destruct (transmitters_ h !! m) as [t'|] eqn:Ht; [|done]. cbn. intros [= <-].
      destruct (iu_kind0 _ _ Ht) as [Hk <-]. by apply Transmit_kind.
Qed.

Lemma created_in_use conf limit ep :
  let h0 := HybridTransmitter conf limit true ep in in_use h0 (λ _, ∅) h0.
Proof.
  intros h0. assert (∀ m t, transmitters_ h0 !! m = Some t ↔ m ∈ mode_set (mode_ h0) ∧ t = create (attr_ h0) true m) as Hl.
  { intros m t. unfold h0 at 1. cbn. rewrite lookup_set_to_map by (by intros ? ? ? ? [= ?]). split.
    - by intros (m' & Hin & [= <- <-]).
    - intros [Hin ->]. by exists m. }
  constructor; try done.
  - intros m. split; [intros [t Ht]; by apply Hl in Ht as [? _]|]. intros Hm. exists (create (attr_ h0) true m). by apply Hl.
  - intros m Hm. assert (transmitters_ h0 !! m = Some (create (attr_ h0) true m)) as E by (by apply Hl).
    change (receivers_ h0) with ((λ _, ∅ : gset Z) <$> transmitters_ h0). by rewrite lookup_fmap, E.
  - intros m t [Hin ->]%Hl. rewrite bool_decide_eq_false_2 by (intros Hn; by apply Hn). apply create_kind.
Qed.

Lemma run_in_use conf limit ep ops :
  let h0 := HybridTransmitter conf limit true ep in
  Forall peerwise ops → in_use h0 (joined h0 ops) (run_ops ops h0).
Proof.
  intros h0 Hops. unfold joined, run_ops. induction ops as [|o ops IH] using rev_ind; [by apply created_in_use|].
  apply Forall_app in Hops as [Hops Ho]. rewrite Forall_singleton in Ho. rewrite foldl_snoc.
  eapply in_use_ext; [|apply exec_in_use; [exact Ho|by apply IH]]. intros m. by rewrite foldl_snoc.
Qed.

Lemma Send_emissions e msg h :
  (Send e msg h).1.2 = map_to_list (transmitters_ h) ≫= (λ x, (Transmit e msg (next_info h) x.2).1.2).
Proof.
  cbn [Send fst snd]. rewrite map_to_list_fmap. induction (map_to_list (transmitters_ h)) as [|[m t] l IH]; [done|].
  rewrite fmap_cons, !bind_cons. by rewrite IH.
Qed.

(** The medium of an emission. *)
Definition medium (x : emission Msg) : OptionalMode := match x with ToIntra _ _ _ => INTRA | ToShm _ _ => SHM | ToRtps _ _ _ => RTPS end.
Definition medium_of (m : OptionalMode) : OptionalMode := match m with HYBRID => RTPS | m => m end.

Lemma Transmit_medium attr participant m e msg info t x :
  kind attr participant m t → x ∈ (Transmit e msg info t).1.2 → enabled t = true ∧ medium x = medium_of m.
Proof.
  destruct m, t as [[b c]|[b c ho seg]|[b a p]]; cbn; try done; intros _;
    unfold Intra_Transmit, Shm_Transmit, Rtps_Transmit; cbn; destruct b; cbn; repeat (case_match; cbn; try set_solver);
    intros Hx; repeat (apply elem_of_cons in Hx as [->|Hx]); try done; by apply elem_of_nil in Hx.
Qed.

(** What goes out on a medium that works, for a message that can be serialised. *)
Definition carries (attr : role) (msg : Msg) (data : list Z) (info : MessageInfo.t) (x : emission Msg) : Prop :=
  match x with
  | ToIntra c msg' info' => c = RoleAttributes.channel_id attr ∧ msg' = msg ∧ info' = info
  | ToShm ri rb =>
      ReadableInfo.host_id_ ri = Hash (string_bytes (RoleAttributes.host_ip attr)) ∧
      ReadableInfo.channel_id_ ri = RoleAttributes.channel_id attr ∧ ∃ memory, rb = ShmDispatcher.write_block data info memory
  | ToRtps topic data' identity =>
      topic = RoleAttributes.channel_name attr ∧ data' = data ∧ identity = MessageInfo.to_sample info
  end.

Definition working (e : env) : Prop := notified e = true ∧ shut_down e = false ∧ written e = true.
Definition room (msg : Msg) (t : transmitter W) : Prop :=
  match t with TShm t => ∀ seg, sh_segment t = Some seg → is_Some (bw_AcquireBlockToWrite (ByteSize msg) seg).1 | _ => True end.

Lemma Transmit_emits attr m e msg data info t :
  kind attr true m t → m ≠ HYBRID → working e → room msg t → ser msg = Some data →
  if enabled t then ∃ x, (Transmit e msg info t).1.2 = [x] ∧ medium x = m ∧ carries attr msg data info x
  else (Transmit e msg info t).1.2 = [].
Proof.
  intros Hk Hm (He1 & He2 & He3) Hr Hser. destruct m, t as [[b c]|[b c ho seg]|[b a p]]; cbn in Hk; try done; destruct b; cbn; try done.
  - eexists. by split_and!.
  - unfold Shm_Transmit. cbn [sh_enabled negb sh_segment]. destruct Hk as (-> & -> & Hs). destruct (Hs eq_refl) as [sg Hsg]. cbn in Hsg, Hr.
    rewrite Hsg. destruct (Hr sg Hsg) as [[index memory] Ha]. destruct (bw_AcquireBlockToWrite _ _) as [wb sg']. cbn in Ha. subst wb.
    rewrite Hser, He1. cbn. eexists. split; [done|]. split; [done|]. split_and!; [done|done|by exists memory].
  - unfold Rtps_Transmit. cbn [rt_enabled negb]. rewrite Hser, He2, He3. destruct Hk as [-> _]. eexists. by split_and!.
Qed.

(** The info a message goes out with is that of the endpoint. *)
Lemma next_info_of conf limit participant ep ops :
  let h := run_ops ops (HybridTransmitter conf limit participant ep) in
  MessageInfo.sender_id_ (next_info h) = Endpoint.id_ ep ∧ MessageInfo.spare_id_ (next_info h) = Identity.Identity Hash None ∧
  0 <= MessageInfo.seq_num_ (next_info h) < 2 ^ 64.
Proof.
  intros h. assert (MessageInfo.sender_id_ (msg_info_ h) = Endpoint.id_ ep ∧ MessageInfo.spare_id_ (msg_info_ h) = Identity.Identity Hash None) as [H1' H2'].
  { unfold h, run_ops. clear h. induction ops as [|o ops IH] using rev_ind; [done|]. rewrite foldl_snoc.
    destruct o; cbn [exec]; unfold EnableAll, DisableAll, EnablePeer, DisablePeer, Send; repeat case_decide; done. }
  split_and!; [done|done|..]; cbn; apply u64_range.
Qed.

(** A medium is used exactly while it has receivers.  Receivers come and go
    in any order, the same one several times if it likes: each mode's set is
    that of the receivers enabled for it and not disabled since, its transmitter
    is enabled exactly if the set is not empty, and a message goes out on no
    medium without a receiver. *)
Theorem hybrid_media_in_use conf limit ep ops e msg :
  let h0 := HybridTransmitter conf limit true ep in
  let h := run_ops ops h0 in
  Forall peerwise ops →
  (∀ m, m ∈ mode_set (mode_ h0) →
    receivers_ h !! m = Some (joined h0 ops m) ∧
    ∃ t, transmitters_ h !! m = Some t ∧ enabled t = bool_decide (joined h0 ops m ≠ ∅)) ∧
  (Send e msg h).1.1 = true ∧
  Forall (λ x, ∃ m, m ∈ mode_set (mode_ h0) ∧ joined h0 ops m ≠ ∅ ∧ medium x = medium_of m) (Send e msg h).1.2.
Proof.
  intros h0 h Hops. pose proof (run_in_use conf limit ep ops Hops) as Hi. fold h0 in Hi. fold h in Hi. destruct Hi. split_and!; [|done|].
  - intros m Hm. split; [by apply iu_receivers0|]. destruct (proj2 (iu_dom0 m) Hm) as [t Ht]. exists t.
    split; [done|]. by apply (iu_kind0 m).
  - rewrite Send_emissions. apply Forall_forall. intros x Hx. apply list_elem_of_bind in Hx as ([m t] & Hx & Ht%elem_of_map_to_list).
    cbn [snd] in Hx. destruct (iu_kind0 _ _ Ht) as [Hk He]. exists m. split; [apply iu_dom0; by eexists|].
    assert (enabled t = true ∧ medium x = medium_of m) as [Ht1 Ht2].
    { by apply (Transmit_medium (attr_ h0) true m e msg (next_info h) t x). }
    split; [|done]. rewrite Ht1 in He. symmetry in He. by apply bool_decide_eq_true in He.
Qed.
End hybrid.
End HybridTransmitter.

(** ** Witnesses: byte messages and a segment that always has a block *)
Module TransmittersSample.
#[export] Instance bytes_message : MessageType (list Z) := { full_name := "bytes"; ser m := Some m; ByteSize m := Z.of_nat (length m) }.
#[export] Instance one_writer : BlockWriter (list Z) := {
  bw_Segment _ := replicate 64 0;
  bw_AcquireBlockToWrite _ s := (Some (3, s), s);
  bw_ReleaseWrittenBlock _ s := s
}.

Definition good : env := mkenv true true false true.
Definition role_of (id : option Z) (ip : string) (pid : Z) : role :=
  RoleAttributes.mk None ip (Some pid) "c" 99 id (RoleAttributes.qos History.HISTORY_KEEP_LAST 2 RoleAttributes.DURABILITY_TRANSIENT_LOCAL).
Definition ep : Endpoint.t :=
  Endpoint.Endpoint MessageSample.sum_hash [1; 2; 3; 4; 5; 6; 7; 8; 9; 10; 11; 12; 13; 14; 15; 16] "rpi" 7 (role_of None "10.0.0.1" 7).

(** A receiver of the same process, one of another host: each joins, the first
    leaves; three messages. *)
Definition near : role := role_of (Some 1) "10.0.0.1" 7.
Definition far : role := role_of (Some 2) "10.0.0.2" 8.
Definition demo_ops : list (HybridTransmitter.op (Msg := list Z)) :=
  [HybridTransmitter.OEnablePeer good near; HybridTransmitter.OSend good [1]; HybridTransmitter.OEnablePeer good far;
   HybridTransmitter.OSend good [2]; HybridTransmitter.ODisablePeer near; HybridTransmitter.OSend good [3]].

Definition made : HybridTransmitter.t (Msg := list Z) (W := list Z) :=
  HybridTransmitter.HybridTransmitter MessageSample.sum_hash None None true ep.

Lemma hybrid_late_joiner_witness :
  fst <$> (HybridTransmitter.EnablePeer good near (HybridTransmitter.run_ops demo_ops made)).1 = [[2]; [3]].
Proof.
  pose proof (HybridTransmitter.hybrid_late_joiner (W := list Z) MessageSample.sum_hash None None true ep demo_ops good near) as H.
  cbv zeta in H. fold made in H. destruct (HybridTransmitter.EnablePeer good near (HybridTransmitter.run_ops demo_ops made)) as [hs h'].
  destruct H as [-> _]; [vm_compute; discriminate|vm_compute; reflexivity|]. vm_compute. reflexivity.
Defined.

Lemma hybrid_media_in_use_witness :
  HybridTransmitter.receivers_ (HybridTransmitter.run_ops demo_ops made) !! RTPS = Some {[2]} ∧
  Forall (λ x, HybridTransmitter.medium x = RTPS) (HybridTransmitter.Send good [4] (HybridTransmitter.run_ops demo_ops made)).1.2.
Proof.
  destruct (HybridTransmitter.hybrid_media_in_use (W := list Z) MessageSample.sum_hash None None ep demo_ops good [4]) as (H1 & _ & H2).
  { repeat constructor. }
  split; [destruct (H1 RTPS) as [Hr _]; [apply (mapping_in_modes default_modes DIFF_HOST); discriminate|etransitivity; [exact Hr|vm_compute; reflexivity]]|].
  eapply Forall_impl; [exact H2|]. intros x (m & Hm & Hj & ->).
  revert Hj. destruct m; [| |..]; intros Hj; try reflexivity; destruct Hj; vm_compute; reflexivity.
Defined.
End TransmittersSample.
