(* ===== verification/Receivers.v ===== *)
(** * Receivers ([cyber/transport/receiver/])

    [process]: the dispatchers of a process.  [IntraReceiver], [ShmReceiver],
    [RtpsReceiver] register with one dispatcher; [HybridReceiver] registers with
    the dispatcher that fits each transmitter.  The theorem of the file composes
    it with [HybridTransmitter]. *)

From S2P Require Import Prelude HashMaps Listener Message Shm Dispatcher Transmitters.

Local Open Scope Z_scope.

Section receivers.
Context {Msg : Type} `{MessageType Msg}.
Context {M : Type} `{IntMap M nat} (empty : M).
Context {S : Type} `{BlockReader S}.
Context (Hash : list Z → Z) (parse : nat → list Z → option Msg).

Record process := proc {
  intra : Dispatcher.t (M := M);
  shm : ShmDispatcher.t (M := M) (S := S);
  rtps : RtpsDispatcher.t (M := M)
}.

Definition Process (host_ip : list Z) (participant : bool) : process :=
  proc (Dispatcher.Dispatcher empty) (ShmDispatcher.ShmDispatcher empty Hash host_ip)
    (RtpsDispatcher.set_participant participant (RtpsDispatcher.RtpsDispatcher empty)).

(** Does the data distribution service fill in the attributes and create the
    subscriber? *)
Record answers := mkanswers { filled : bool; created : bool }.

(** ** The receivers of one medium

    The three classes differ in their dispatcher only. *)
Definition AddListener (e : answers) (m : OptionalMode) (attr : role) (l : nat) (p : process) : process :=
  match m with
  | INTRA => proc (Dispatcher.AddListener (TMessage full_name) attr l (intra p)) (shm p) (rtps p)
  | SHM => proc (intra p) (ShmDispatcher.AddListener attr l (shm p)) (rtps p)
  | _ => proc (intra p) (shm p) (RtpsDispatcher.AddListener (filled e) (created e) attr l (rtps p))
  end.
Definition AddListener2 (e : answers) (m : OptionalMode) (attr opposite_attr : role) (l : nat) (p : process) : process :=
  match m with
  | INTRA => proc (Dispatcher.AddListener2 (TMessage full_name) attr opposite_attr l (intra p)) (shm p) (rtps p)
  | SHM => proc (intra p) (ShmDispatcher.AddListener2 attr opposite_attr l (shm p)) (rtps p)
  | _ => proc (intra p) (shm p) (RtpsDispatcher.AddListener2 (filled e) (created e) attr opposite_attr l (rtps p))
  end.

(** What the dispatchers have in common. *)
Definition base (m : OptionalMode) (p : process) : Dispatcher.t (M := M) :=
  match m with INTRA => intra p | SHM => ShmDispatcher.base (shm p) | _ => RtpsDispatcher.base (rtps p) end.
Definition set_base (m : OptionalMode) (d : Dispatcher.t) (p : process) : process :=
  match m with
  | INTRA => proc d (shm p) (rtps p)
  | SHM => proc (intra p) (ShmDispatcher.set_base d (shm p)) (rtps p)
  | _ => proc (intra p) (shm p) (RtpsDispatcher.mk d (RtpsDispatcher.subs_ (rtps p)) (RtpsDispatcher.participant_ (rtps p)))
  end.
Definition RemoveListener (m : OptionalMode) (attr : role) (p : process) : process :=
  set_base m (Dispatcher.RemoveListener attr (base m p)) p.
Definition RemoveListener2 (m : OptionalMode) (attr opposite_attr : role) (p : process) : process :=
  set_base m (Dispatcher.RemoveListener2 attr opposite_attr (base m p)) p.

(** [IntraReceiver::Enable()], .. on [enabled_]. *)
Definition Enable (e : answers) (m : OptionalMode) (attr : role) (l : nat) (enabled : bool) (p : process) : bool * process :=
  if enabled then (enabled, p) else (true, AddListener e m attr l p).
Definition Disable (m : OptionalMode) (attr : role) (enabled : bool) (p : process) : bool * process :=
  if negb enabled then (enabled, p) else (false, RemoveListener m attr p).

(** ** [HybridReceiver]

    [receivers_]: [enabled_] of the receiver of each mode.  [listener]: the
    receiver's [OnNewMessage], which calls [msg_listener_]. *)
Record HybridReceiver := hybrid {
  attr_ : role;
  listener : nat;
  mode_ : CommunicationMode;
  receivers_ : gmap OptionalMode bool;
  transmitters_ : gmap OptionalMode (gmap Z role)
}.

Definition create_receiver (communication_mode : option CommunicationMode) (attr : role) (l : nat) : HybridReceiver :=
  let m := default default_modes communication_mode in
  let rs := set_to_map (λ mode, (mode, false)) (mode_set m) : gmap OptionalMode bool in
  hybrid attr l m rs ((λ _, ∅) <$> rs).

Definition set_receivers (rs : gmap OptionalMode bool) (r : HybridReceiver) : HybridReceiver :=
  hybrid (attr_ r) (listener r) (mode_ r) rs (transmitters_ r).
Definition set_transmitters (ts : gmap OptionalMode (gmap Z role)) (r : HybridReceiver) : HybridReceiver :=
  hybrid (attr_ r) (listener r) (mode_ r) (receivers_ r) ts.

Definition enable_step (e : answers) (x : OptionalMode * bool) (s : HybridReceiver * process) : HybridReceiver * process :=
  let '(r, p) := s in
  let '(b, p) := Enable e x.1 (attr_ r) (listener r) x.2 p in (set_receivers (<[x.1 := b]> (receivers_ r)) r, p).
Definition disable_step (x : OptionalMode * bool) (s : HybridReceiver * process) : HybridReceiver * process :=
  let '(r, p) := s in
  let '(b, p) := Disable x.1 (attr_ r) x.2 p in (set_receivers (<[x.1 := b]> (receivers_ r)) r, p).

Definition EnableAll (e : answers) (r : HybridReceiver) (p : process) : HybridReceiver * process :=
  foldl (λ s x, enable_step e x s) (r, p) (map_to_list (receivers_ r)).
Definition DisableAll (r : HybridReceiver) (p : process) : HybridReceiver * process :=
  foldl (λ s x, disable_step x s) (r, p) (map_to_list (receivers_ r)).

(** Is [ThreadFunc] started, to receive the history? *)
Definition ReceiveHistoryMsg (opposite_attr : role) : bool :=
  bool_decide (RoleAttributes.durability (RoleAttributes.qos_profile opposite_attr) = RoleAttributes.DURABILITY_TRANSIENT_LOCAL).

Definition EnablePeer (e : answers) (opposite_attr : role) (r : HybridReceiver) (p : process) : bool * HybridReceiver * process :=
  let relation := GetRelation (attr_ r) opposite_attr in
  if decide (relation = NO_RELATION) then (false, r, p)
  else
    let id := RoleAttributes.id opposite_attr in
    let m := mapping_table (mode_ r) relation in
    let peers := default ∅ (transmitters_ r !! m) in
    match peers !! id with
    | Some _ => (false, r, p)
    | None =>
        (ReceiveHistoryMsg opposite_attr, set_transmitters (<[m := <[id := opposite_attr]> peers]> (transmitters_ r)) r,
         AddListener2 e m (attr_ r) opposite_attr (listener r) p)
    end.

Definition DisablePeer (opposite_attr : role) (r : HybridReceiver) (p : process) : HybridReceiver * process :=
  let relation := GetRelation (attr_ r) opposite_attr in
  if decide (relation = NO_RELATION) then (r, p)
  else
    let id := RoleAttributes.id opposite_attr in
    let m := mapping_table (mode_ r) relation in
    let peers := default ∅ (transmitters_ r !! m) in
    match peers !! id with
    | None => (r, p)
    | Some _ =>
        (set_transmitters (<[m := delete id peers]> (transmitters_ r)) r, RemoveListener2 m (attr_ r) opposite_attr p)
    end.

(** [ThreadFunc]'s channel, from the receiver's side; its profile is the
    transmitter's. *)
Definition history_attr (channel_id : Z) (opposite_attr : role) (r : HybridReceiver) : role :=
  RoleAttributes.set_qos (RoleAttributes.qos_profile opposite_attr)
    (RoleAttributes.set_channel (HybridTransmitter.history_channel opposite_attr (attr_ r)) channel_id (attr_ r)).

(** [~HybridReceiver]: the upper reaches of every mode, then the receivers. *)
Definition clear_step (r : HybridReceiver) (m : OptionalMode) (a : role) (p : process) : process := RemoveListener2 m (attr_ r) a p.
Definition Destroy (r : HybridReceiver) (p : process) : process :=
  let p := foldl (λ p x, foldl (λ p y, clear_step r x.1 y.2 p) p (map_to_list x.2)) p (map_to_list (transmitters_ r)) in
  foldl (λ p x, (Disable x.1 (attr_ r) x.2 p).2) p (map_to_list (receivers_ r)).

(** ** What a process hears

    [rel]: where the transmitter is, seen from the process. *)
Definition hear (rel : Relation) (x : emission Msg) (p : process) : list (nat * Msg) * process :=
  match x with
  | ToIntra channel_id msg info =>
      if decide (rel = SAME_PROC) then
        let '(calls, d) := Dispatcher.OnMessage (TMessage full_name) channel_id (Identity.hash_value_ (MessageInfo.sender_id_ info)) (intra p) in
        ((λ c, (c.1, msg)) <$> calls, proc d (shm p) (rtps p))
      else ([], p)
  | ToShm info rb =>
      (* the ring of notifications is the host's *)
      if decide (rel = DIFF_HOST ∨ rel = NO_RELATION) then ([], p)
      else if negb (ReadableInfo.host_id_ info =? ShmDispatcher.host_id_ (shm p)) then ([], p)
      else
        match ShmDispatcher.segments_ (shm p) !! ReadableInfo.channel_id_ info with
        | None => ([], p)
        | Some _ =>
            let '(calls, d) := ShmDispatcher.on_block Hash parse (ReadableInfo.channel_id_ info) rb (shm p) in
            (calls, proc (intra p) d (rtps p))
        end
  | ToRtps topic data identity =>
      if decide (Hash (string_bytes topic) ∈ RtpsDispatcher.subs_ (rtps p)) then
        let '(calls, _, d) := RtpsDispatcher.onNewDataMessage Hash parse (string_bytes topic) (Some (identity, data)) true
                                (MessageInfo.MessageInfo Hash) (rtps p) in
        (calls, proc (intra p) (shm p) d)
      else ([], p)
  end.

Fixpoint hear_all (rel : Relation) (xs : list (emission Msg)) (p : process) : list (nat * Msg) * process :=
  match xs with
  | [] => ([], p)
  | x :: xs => let '(c1, p) := hear rel x p in let '(c2, p) := hear_all rel xs p in (c1 ++ c2, p)
  end.

(** ** The receivers of a process, and what happens to them *)
Record state := st { process_ : process; hybrids : list HybridReceiver }.

Inductive op := OEnable (e : answers) (i : nat) (a : role) | ODisable (i : nat) (a : role) | OHear (rel : Relation) (x : emission Msg).

Definition exec (o : op) (s : state) : state :=
  match o with
  | OEnable e i a =>
      match hybrids s !! i with
      | None => s
      | Some r => let '(_, r, p) := EnablePeer e a r (process_ s) in st p (<[i := r]> (hybrids s))
      end
  | ODisable i a =>
      match hybrids s !! i with
      | None => s
      | Some r => let '(r, p) := DisablePeer a r (process_ s) in st p (<[i := r]> (hybrids s))
      end
  | OHear rel x => st (hear rel x (process_ s)).2 (hybrids s)
  end.
Definition run_ops (ops : list op) (s : state) : state := foldl (λ s o, exec o s) s ops.

(** *** The dispatcher of a mode *)
Definition type_of (m : OptionalMode) : message_type := match m with INTRA => TMessage full_name | SHM => TBlock | _ => TString end.

(** Modes with dispatchers of their own. *)
Definition proper (m : OptionalMode) : Prop := m ≠ HYBRID.

Lemma base_AddListener2 e m k attr a l p :
  proper m → proper k →
  base k (AddListener2 e m attr a l p) =
    if decide (m = k) then Dispatcher.AddListener2 (type_of k) attr a l (base k p) else base k p.
Proof.
  unfold proper. intros Hm Hk. destruct m, k; try done; cbn;
    unfold ShmDispatcher.AddListener2, ShmDispatcher.AddSegment, RtpsDispatcher.AddListener2, RtpsDispatcher.AddSubscriber;
    repeat case_match; done.
Qed.

Lemma base_RemoveListener2 m k attr a p :
  proper m → proper k →
  base k (RemoveListener2 m attr a p) = if decide (m = k) then Dispatcher.RemoveListener2 attr a (base k p) else base k p.
Proof. unfold proper, RemoveListener2. intros Hm Hk. by destruct m, k. Qed.

(** *** What a dispatcher knows of a channel and a sender *)
Abbreviation spec := (gmap Z (message_type * ListenerHandler.spec)).
Abbreviation entry := ListenerHandler.entry.

Definition peers_at (A : spec) (c o : Z) : list entry :=
  match A !! c with Some (_, a) => ListenerHandler.peer_entries o a | None => [] end.
Definition alls_at (A : spec) (c : Z) : list entry := match A !! c with Some (_, a) => ListenerHandler.alls a | None => [] end.
Definition typed (ty : message_type) (A : spec) : Prop := ∀ c ty' a, A !! c = Some (ty', a) → ty' = ty.

Lemma spec_add_effect ty c self o l A :
  typed ty A →
  let A' := Dispatcher.spec_add ty c (ListenerHandler.OConnect2 self o l) A in
  typed ty A' ∧ (∀ c', alls_at A' c' = alls_at A c') ∧
  ∀ c' o', peers_at A' c' o' = if decide (c = c' ∧ o = o') then ListenerHandler.add self l (peers_at A c o) else peers_at A c' o'.
Proof.
  intros Ht A'. unfold A', Dispatcher.spec_add, peers_at, alls_at. destruct (A !! c) as [[ty' a]|] eqn:E.
  - rewrite decide_True by (by eapply Ht). split_and!.
    + intros c' ty'' a'. rewrite lookup_insert. case_decide; [intros [= <- <-]|]; by eapply Ht.
    + intros c'. rewrite lookup_insert. case_decide; [subst; by rewrite E|done].
    + intros c' o'. rewrite lookup_insert. destruct (decide (c = c')) as [<-|Hc]; [|by rewrite decide_False by naive_solver].
      cbn [ListenerHandler.exec_spec]. rewrite ListenerHandler.peer_entries_insert, E.
      destruct (decide (o = o')) as [<-|]; [by rewrite decide_True|by rewrite decide_False by naive_solver].
  - split_and!.
    + intros c' ty'' a'. rewrite lookup_insert. case_decide; [by intros [= <- <-]|by eapply Ht].
    + intros c'. rewrite lookup_insert. case_decide; [subst; by rewrite E|done].
    + intros c' o'. rewrite lookup_insert. destruct (decide (c = c')) as [<-|Hc]; [|by rewrite decide_False by naive_solver].
      cbn [ListenerHandler.exec_spec]. rewrite ListenerHandler.peer_entries_insert, E.
      assert (∀ o, ListenerHandler.peer_entries o (ListenerHandler.mkspec [] ∅) = []) as Hn.
      { intros o0. unfold ListenerHandler.peer_entries. cbn. by rewrite lookup_empty. }
      rewrite !Hn. destruct (decide (o = o')) as [<-|]; [by rewrite decide_True|by rewrite decide_False by naive_solver].
Qed.

Lemma spec_remove_effect ty c self o A :
  typed ty A →
  let A' := Dispatcher.spec_remove c (ListenerHandler.ODisconnect2 self o) A in
  typed ty A' ∧ (∀ c', alls_at A' c' = alls_at A c') ∧
  ∀ c' o', peers_at A' c' o' = if decide (c = c' ∧ o = o') then ListenerHandler.remove self (peers_at A c o) else peers_at A c' o'.
Proof.
  intros Ht A'. unfold A', Dispatcher.spec_remove, peers_at, alls_at. destruct (A !! c) as [[ty' a]|] eqn:E.
  - split_and!.
    + intros c' ty'' a'. rewrite lookup_insert. case_decide; [intros [= <- <-]|]; by eapply Ht.
    + intros c'. rewrite lookup_insert. case_decide; [subst; by rewrite E|done].
    + intros c' o'. rewrite lookup_insert. destruct (decide (c = c')) as [<-|Hc]; [|by rewrite decide_False by naive_solver].
      cbn [ListenerHandler.exec_spec]. rewrite ListenerHandler.peer_entries_insert, E.
      destruct (decide (o = o')) as [<-|]; [by rewrite decide_True|by rewrite decide_False by naive_solver].
  - split_and!; [done|done|]. intros c' o'. case_decide as Hd; [destruct Hd as [<- <-]; by rewrite E|done].
Qed.

(** The listeners that a message reaches. *)
Lemma deliveries_typed k A c o :
  typed (type_of k) A → (fst <$> Dispatcher.deliveries (type_of k) c o (false, A)) = ListenerHandler.e_listener <$> (alls_at A c ++ peers_at A c o).
Proof.
  intros Ht. unfold alls_at, peers_at. destruct (A !! c) as [[ty a]|] eqn:E.
  - rewrite (Ht _ _ _ E) in E. rewrite (Dispatcher.deliveries_called _ _ _ _ a E). unfold ListenerHandler.called. by rewrite fmap_app.
  - unfold Dispatcher.deliveries. by rewrite E.
Qed.

(** *** The registrations are those of the receivers *)
Abbreviation id_of r := (RoleAttributes.id (attr_ r)).
Abbreviation channel_of r := (RoleAttributes.channel_id (attr_ r)).
Definition watches (r : HybridReceiver) (k : OptionalMode) (o : Z) : bool := bool_decide (is_Some (default ∅ (transmitters_ r !! k) !! o)).

Record registered (host : Z) (As : OptionalMode → spec) (s : state) : Prop := {
  rx_impl k : proper k → Dispatcher.implements (base k (process_ s)) (false, As k);
  rx_typed k : proper k → typed (type_of k) (As k);
  rx_alls k c : proper k → alls_at (As k) c = [];
  rx_entries k i r o : proper k → hybrids s !! i = Some r →
    ListenerHandler.entries_of (id_of r) (peers_at (As k) (channel_of r) o) =
      if watches r k o then [ListenerHandler.ent (id_of r) (listener r) true] else [];
  rx_origin k c o e : proper k → e ∈ peers_at (As k) c o → ∃ i r, hybrids s !! i = Some r ∧
    ListenerHandler.e_self e = id_of r ∧ ListenerHandler.e_listener e = listener r;
  rx_modes i r m : hybrids s !! i = Some r → m ∈ mode_set (mode_ r) → proper m;
  rx_ids : NoDup ((λ r, id_of r) <$> hybrids s);
  rx_listeners : NoDup (listener <$> hybrids s);
  rx_host : ShmDispatcher.host_id_ (shm (process_ s)) = host;
  rx_participant : RtpsDispatcher.participant_ (rtps (process_ s)) = true;
  rx_segments i r o : hybrids s !! i = Some r → watches r SHM o → is_Some (ShmDispatcher.segments_ (shm (process_ s)) !! channel_of r);
  rx_subs i r o : hybrids s !! i = Some r → watches r RTPS o → channel_of r ∈ RtpsDispatcher.subs_ (rtps (process_ s))
}.

(** Replacing a receiver by one with the same attributes and listener. *)
Lemma same_identity {A} (f : HybridReceiver → A) (l : list HybridReceiver) (i : nat) r r' : l !! i = Some r → f r' = f r → f <$> <[i := r']> l = f <$> l.
Proof. intros Hi Hf. rewrite list_fmap_insert, Hf. apply list_insert_id. by rewrite list_lookup_fmap, Hi. Qed.

Lemma watches_set m peers ts r k o :
  watches (set_transmitters (<[m := peers]> ts) r) k o =
    if decide (m = k) then bool_decide (is_Some (peers !! o)) else watches (set_transmitters ts r) k o.
Proof. unfold watches. cbn. rewrite lookup_insert. by case_decide. Qed.

Lemma set_transmitters_self r : set_transmitters (transmitters_ r) r = r.
Proof. by destruct r. Qed.

(** A receiver other than [i] has another id. *)
Lemma ids_distinct host As s i j r r' :
  registered host As s → hybrids s !! i = Some r → hybrids s !! j = Some r' → i ≠ j → id_of r ≠ id_of r'.
Proof.
  intros [] Hi Hj Hne Heq. apply Hne. eapply (NoDup_lookup _ _ _ (id_of r) rx_ids0); by rewrite list_lookup_fmap, ?Hi, ?Hj; cbn; rewrite ?Heq.
Qed.

(** One receiver changes its registration with a dispatcher: what is common to
    enabling and disabling. *)
Lemma change_registered host As As' s i r p' m peers o (g : list entry → list entry) (present : bool) :
  registered host As s → hybrids s !! i = Some r → proper m →
  (∀ k, proper k → Dispatcher.implements (base k p') (false, As' k)) →
  (∀ k, k ≠ m → As' k = As k) →
  typed (type_of m) (As' m) → (∀ c, alls_at (As' m) c = alls_at (As m) c) →
  (∀ c' o', peers_at (As' m) c' o' = if decide (channel_of r = c' ∧ o = o') then g (peers_at (As m) (channel_of r) o) else peers_at (As m) c' o') →
  (∀ es s', s' ≠ id_of r → ListenerHandler.entries_of s' (g es) = ListenerHandler.entries_of s' es) →
  ListenerHandler.entries_of (id_of r) (g (peers_at (As m) (channel_of r) o)) =
    (if present then [ListenerHandler.ent (id_of r) (listener r) true] else []) →
  (∀ e es, e ∈ g es → (∃ e', e' ∈ es ∧ ListenerHandler.e_self e' = ListenerHandler.e_self e ∧ ListenerHandler.e_listener e' = ListenerHandler.e_listener e) ∨
     e = ListenerHandler.ent (id_of r) (listener r) true) →
  (∀ o', bool_decide (is_Some (peers !! o')) = if decide (o = o') then present else watches r m o') →
  let r' := set_transmitters (<[m := peers]> (transmitters_ r)) r in
  let s' := st p' (<[i := r']> (hybrids s)) in
  ShmDispatcher.host_id_ (shm p') = host → RtpsDispatcher.participant_ (rtps p') = true →
  (∀ c, is_Some (ShmDispatcher.segments_ (shm (process_ s)) !! c) ∨ (m = SHM ∧ present = true ∧ c = channel_of r) →
     is_Some (ShmDispatcher.segments_ (shm p') !! c)) →
  (∀ c, c ∈ RtpsDispatcher.subs_ (rtps (process_ s)) ∨ (m = RTPS ∧ present = true ∧ c = channel_of r) →
     c ∈ RtpsDispatcher.subs_ (rtps p')) →
  registered host As' s'.
Proof.
  intros Hreg Hi Hm Himpl Hother Hty Hall Hpeers Hg Hmine Horig Hpres r' s' Hhost Hpart Hseg Hsub.
  pose proof Hreg as [].
  assert (∀ k o', watches r' k o' = if decide (m = k) then (if decide (o = o') then present else watches r m o') else watches r k o') as Hw.
  { intros k o'. unfold r'. rewrite watches_set, set_transmitters_self, Hpres. done. }
  assert (∀ j r1, hybrids s' !! j = Some r1 → (j = i ∧ r1 = r') ∨ (j ≠ i ∧ hybrids s !! j = Some r1)) as Hcase.
  { intros j r1 Hj. cbn in Hj. apply list_lookup_insert_Some in Hj as [(<- & <- & _)|[? ?]]; auto. }
  constructor; try done.
  - intros k Hk. destruct (decide (k = m)) as [->|Hne]; [done|]. rewrite Hother by done. by apply rx_typed0.
  - intros k c Hk. destruct (decide (k = m)) as [->|Hne]; [rewrite Hall|rewrite Hother by done]; by apply rx_alls0.
  - intros k j r1 o' Hk [[-> ->]|[Hne Hj]]%Hcase.
    + rewrite Hw. cbn [attr_ listener r' set_transmitters]. destruct (decide (m = k)) as [<-|Hne]; [|rewrite Hother by congruence; by eapply rx_entries0].
      rewrite Hpeers. destruct (decide (o = o')) as [<-|Ho]; [by rewrite decide_True|].
      rewrite decide_False by naive_solver. by eapply rx_entries0.
    + destruct (decide (m = k)) as [<-|Hnk]; [|rewrite Hother by congruence; by eapply rx_entries0].
      rewrite Hpeers. case_decide as Hd; [destruct Hd as [Hc <-]; rewrite Hg by (by eapply (ids_distinct host As s j i))|];
        rewrite ?Hc; by eapply rx_entries0.
  - assert (∀ j r1, hybrids s !! j = Some r1 → ∃ r2, hybrids s' !! j = Some r2 ∧ id_of r2 = id_of r1 ∧ listener r2 = listener r1) as Hkeep.
    { intros j r1 Hj. cbn. destruct (decide (i = j)) as [<-|]; [|rewrite list_lookup_insert_ne by done; by exists r1].
      rewrite list_lookup_insert_eq by (by eapply lookup_lt_Some). rewrite Hi in Hj. simplify_eq. by exists r'. }
    intros k c o' e Hk He. destruct (decide (k = m)) as [->|Hne].
    + rewrite Hpeers in He. case_decide as Hd.
      * destruct Hd as [<- <-]. destruct (Horig _ _ He) as [(e' & He' & E1 & E2)| ->].
        -- destruct (rx_origin0 _ _ _ _ Hk He') as (j & r1 & Hj & F1 & F2). destruct (Hkeep _ _ Hj) as (r2 & Hr2 & G1 & G2).
           exists j, r2. split_and!; congruence.
        -- destruct (Hkeep _ _ Hi) as (r2 & Hr2 & G1 & G2). by exists i, r2.
      * destruct (rx_origin0 _ _ _ _ Hk He) as (j & r1 & Hj & F1 & F2). destruct (Hkeep _ _ Hj) as (r2 & Hr2 & G1 & G2).
        exists j, r2. split_and!; congruence.
    + rewrite Hother in He by done. destruct (rx_origin0 _ _ _ _ Hk He) as (j & r1 & Hj & F1 & F2).
      destruct (Hkeep _ _ Hj) as (r2 & Hr2 & G1 & G2). exists j, r2. split_and!; congruence.
  - intros j r1 k [[-> ->]|[Hne Hj]]%Hcase; intros Hx; [exact (rx_modes0 i r k Hi Hx)|exact (rx_modes0 j r1 k Hj Hx)].
  - cbn. by rewrite (same_identity _ _ i r r').
  - cbn. by rewrite (same_identity _ _ i r r').
  - intros j r1 o' [[-> ->]|[Hne Hj]]%Hcase; [|intros Hx; apply Hseg; left; by eapply rx_segments0]. rewrite Hw. intros Hx. apply Hseg.
    destruct (decide (m = SHM)) as [->|]; [|left; exact (rx_segments0 i r o' Hi Hx)]. destruct (decide (o = o')); [|left; exact (rx_segments0 i r o' Hi Hx)].
    right. split_and!; [done|by destruct present|done].
  - intros j r1 o' [[-> ->]|[Hne Hj]]%Hcase; [|intros Hx; apply Hsub; left; by eapply rx_subs0]. rewrite Hw. intros Hx. apply Hsub.
    destruct (decide (m = RTPS)) as [->|]; [|left; exact (rx_subs0 i r o' Hi Hx)]. destruct (decide (o = o')); [|left; exact (rx_subs0 i r o' Hi Hx)].
    right. split_and!; [done|by destruct present|done].
Qed.

(** *** Every step keeps them so *)
Definition lucky (o : op) : Prop := match o with OEnable e _ _ => filled e = true ∧ created e = true | _ => True end.

Lemma AddListener2_process e m attr a l p :
  proper m → filled e = true → created e = true → RtpsDispatcher.participant_ (rtps p) = true →
  let p' := AddListener2 e m attr a l p in
  ShmDispatcher.host_id_ (shm p') = ShmDispatcher.host_id_ (shm p) ∧ RtpsDispatcher.participant_ (rtps p') = true ∧
  (∀ c, is_Some (ShmDispatcher.segments_ (shm p) !! c) ∨ (m = SHM ∧ true = true ∧ c = RoleAttributes.channel_id attr) →
     is_Some (ShmDispatcher.segments_ (shm p') !! c)) ∧
  (∀ c, c ∈ RtpsDispatcher.subs_ (rtps p) ∨ (m = RTPS ∧ true = true ∧ c = RoleAttributes.channel_id attr) →
     c ∈ RtpsDispatcher.subs_ (rtps p')).
Proof.
  unfold proper. intros Hm He1 He2 Hp. destruct m; try done; cbn.
  - split_and!; [done|done|naive_solver|naive_solver].
  - unfold ShmDispatcher.AddListener2, ShmDispatcher.AddSegment. cbn.
    destruct (ShmDispatcher.segments_ (shm p) !! RoleAttributes.channel_id attr) eqn:E; cbn; split_and!; try done; try naive_solver.
    intros c [Hc|(_ & _ & ->)]; [|by rewrite lookup_insert_eq]. rewrite lookup_insert. by case_decide.
  - unfold RtpsDispatcher.AddListener2, RtpsDispatcher.AddSubscriber. cbn. rewrite Hp, He1, He2. cbn [negb].
    case_decide; cbn; split_and!; try done; try naive_solver. set_solver.
Qed.

Lemma enable_registered host As s e i a :
  registered host As s → lucky (OEnable e i a) → ∃ As', registered host As' (exec (OEnable e i a) s).
Proof.
  intros Hreg [He1 He2]. cbn [exec]. destruct (hybrids s !! i) as [r|] eqn:Hi; [|by exists As].
  assert (st (process_ s) (<[i:=r]> (hybrids s)) = s) as Hsame by (rewrite list_insert_id by done; by destruct s).
  unfold EnablePeer. destruct (decide _) as [|Hrel]; [exists As; by rewrite Hsame|].
  set (m := mapping_table _ _). set (o := RoleAttributes.id a). destruct (_ !! o) as [|] eqn:Ho; [exists As; by rewrite Hsame|].
  pose proof Hreg as []. assert (proper m) as Hm by (by eapply rx_modes0, mapping_in_modes).
  destruct (spec_add_effect (type_of m) (channel_of r) (id_of r) o (listener r) (As m)) as (Ht & Ha & Hp); [by apply rx_typed0|].
  set (A' := Dispatcher.spec_add _ _ _ _) in *.
  destruct (AddListener2_process e m (attr_ r) a (listener r) (process_ s) Hm He1 He2 rx_participant0) as (P1 & P2 & P3 & P4).
  exists (λ k, if decide (m = k) then A' else As k).
  assert ((if decide (m = m) then A' else As m) = A') as Hmm by (by rewrite decide_True).
  apply (change_registered host As _ s i r _ m _ o (ListenerHandler.add (id_of r) (listener r)) true);
    rewrite ?Hmm; try done.
  - intros k Hk. rewrite base_AddListener2 by done. destruct (decide (m = k)) as [<-|]; [|by apply rx_impl0].
    apply (Dispatcher.exec_tracks (Dispatcher.OAdd2 (type_of m) (attr_ r) a (listener r)) _ (false, As m)). by apply rx_impl0.
  - intros k Hk. by rewrite decide_False.
  - intros es s' Hs. by apply ListenerHandler.entries_of_add_ne.
  - apply ListenerHandler.entries_of_add. rewrite (rx_entries0 m i r o Hm Hi). unfold watches.
    by rewrite bool_decide_false by (rewrite Ho; by intros []).
  - intros e' es. apply ListenerHandler.add_elem.
  - intros o'. rewrite lookup_insert. unfold watches. by destruct (decide (o = o')).
  - by rewrite P1.
Qed.

Lemma disable_registered host As s i a :
  registered host As s → ∃ As', registered host As' (exec (ODisable i a) s).
Proof.
  intros Hreg. cbn [exec]. destruct (hybrids s !! i) as [r|] eqn:Hi; [|by exists As].
  assert (st (process_ s) (<[i:=r]> (hybrids s)) = s) as Hsame by (rewrite list_insert_id by done; by destruct s).
  unfold DisablePeer. destruct (decide _) as [|Hrel]; [exists As; by rewrite Hsame|].
  set (m := mapping_table _ _). set (o := RoleAttributes.id a). destruct (_ !! o) as [x|] eqn:Ho; [|exists As; by rewrite Hsame].
  pose proof Hreg as []. assert (proper m) as Hm by (by eapply rx_modes0, mapping_in_modes).
  destruct (spec_remove_effect (type_of m) (channel_of r) (id_of r) o (As m)) as (Ht & Ha & Hp); [by apply rx_typed0|].
  set (A' := Dispatcher.spec_remove _ _ _) in *.
  exists (λ k, if decide (m = k) then A' else As k).
  assert ((if decide (m = m) then A' else As m) = A') as Hmm by (by rewrite decide_True).
  assert (watches r m o = true) as Hw by (unfold watches; apply bool_decide_eq_true; rewrite Ho; by eexists).
  apply (change_registered host As _ s i r _ m _ o (ListenerHandler.remove (id_of r)) false); rewrite ?Hmm; try done.
  - intros k Hk. rewrite base_RemoveListener2 by done. destruct (decide (m = k)) as [<-|]; [|by apply rx_impl0].
    apply (Dispatcher.exec_tracks (Dispatcher.ORemove2 (attr_ r) a) _ (false, As m)). by apply rx_impl0.
  - intros k Hk. by rewrite decide_False.
  - intros es s' Hs. by apply ListenerHandler.entries_of_remove_ne.
  - apply ListenerHandler.entries_of_remove. rewrite (rx_entries0 m i r o Hm Hi), Hw. by repeat constructor.
  - intros e es [_ He]%list_elem_of_filter. left. by exists e.
  - intros o'. rewrite lookup_delete. unfold watches. by destruct (decide (o = o')); [rewrite bool_decide_false by (by intros [])|].
  - unfold RemoveListener2. by destruct m.
  - unfold RemoveListener2. by destruct m.
  - unfold RemoveListener2. intros c [Hc|(_ & ? & _)]; [|done]. by destruct m.
  - unfold RemoveListener2. intros c [Hc|(_ & ? & _)]; [|done]. by destruct m.
Qed.

(** Hearing changes no registration. *)
Lemma Rtps_OnMessage_spec c data info d A :
  Dispatcher.implements (RtpsDispatcher.base d) (false, A) →
  let o := Identity.hash_value_ (MessageInfo.sender_id_ info) in
  (RtpsDispatcher.OnMessage parse c data info d).1 =
    omap (λ l, msg ← parse l data; Some (l, msg)) (fst <$> Dispatcher.deliveries TString c o (false, A)) ∧
  ∃ b, (RtpsDispatcher.OnMessage parse c data info d).2 = RtpsDispatcher.mk b (RtpsDispatcher.subs_ d) (RtpsDispatcher.participant_ d) ∧
    Dispatcher.implements b (false, A).
Proof.
  intros [Hd [g Hg]] o. cbn in Hd, Hg. unfold RtpsDispatcher.OnMessage. fold o.
  destruct (Dispatcher.OnMessage_tracks _ _ _ TString c o Hg Hd) as (H1' & H2 & H3).
  destruct (Dispatcher.OnMessage _ _ _ _) as [calls b]. cbn [fst snd] in *. rewrite H1'. split; [done|].
  exists b. split; [done|]. split; [done|by exists g].
Qed.

Lemma on_block_same c rb (d : ShmDispatcher.t (M := M) (S := S)) A :
  Dispatcher.implements (ShmDispatcher.base d) (false, A) →
  ∃ b, (ShmDispatcher.on_block Hash parse c rb d).2 = ShmDispatcher.set_base b d ∧ Dispatcher.implements b (false, A).
Proof.
  intros Hi. unfold ShmDispatcher.on_block. destruct (MessageInfo.DeserializeFrom _ _ _) as [[] info].
  - by apply ShmDispatcher.OnMessage_spec.
  - exists (ShmDispatcher.base d). split; [by destruct d|done].
Qed.

Lemma hear_registered host As s rel x :
  registered host As s → registered host As (st (hear rel x (process_ s)).2 (hybrids s)).
Proof.
  intros Hreg. pose proof Hreg as [].
  assert (∀ p', (∀ k, proper k → Dispatcher.implements (base k p') (false, As k)) →
    ShmDispatcher.host_id_ (shm p') = host → ShmDispatcher.segments_ (shm p') = ShmDispatcher.segments_ (shm (process_ s)) →
    RtpsDispatcher.subs_ (rtps p') = RtpsDispatcher.subs_ (rtps (process_ s)) → RtpsDispatcher.participant_ (rtps p') = true →
    registered host As (st p' (hybrids s))) as Hp.
  { intros p' H1' H2 H3 H4 H5. constructor; cbn [process_ hybrids]; rewrite ?H3, ?H4; done. }
  assert (registered host As (st (process_ s) (hybrids s))) as Hid by (by destruct s).
  unfold hear. destruct x as [c msg info|info rb|topic data identity].
  - case_decide; [|done].
    pose proof (Dispatcher.exec_tracks (Dispatcher.OMessage (TMessage full_name) c (Identity.hash_value_ (MessageInfo.sender_id_ info))) _ _ (rx_impl0 INTRA ltac:(done))) as Ht.
    cbn [Dispatcher.exec base Dispatcher.exec_spec] in Ht. destruct (Dispatcher.OnMessage _ _ _ _) as [calls d]. cbn [snd] in *. apply Hp; try done.
    intros [] Hk; try done; [by apply (rx_impl0 SHM)|by apply (rx_impl0 RTPS)].
  - case_decide; [done|]. destruct (negb _); [done|]. destruct (_ !! _); [|done].
    destruct (on_block_same (ReadableInfo.channel_id_ info) rb (shm (process_ s)) (As SHM) (rx_impl0 SHM ltac:(done))) as (b & Hb & Hib).
    destruct (ShmDispatcher.on_block _ _ _ _ _) as [calls d]. cbn [snd] in *. subst d. apply Hp; try done.
    intros [] Hk; try done; [by apply (rx_impl0 INTRA)|by apply (rx_impl0 RTPS)].
  - case_decide; [|done]. unfold RtpsDispatcher.onNewDataMessage. cbn [negb].
    set (info := MessageInfo.of_sample _ _ _).
    destruct (Rtps_OnMessage_spec (Hash (string_bytes topic)) data info (rtps (process_ s)) (As RTPS) (rx_impl0 RTPS ltac:(done))) as (_ & b & Hb & Hib).
    destruct (RtpsDispatcher.OnMessage _ _ _ _ _) as [calls d]. cbn [snd] in *. subst d. apply Hp; try done.
    intros [] Hk; try done; [by apply (rx_impl0 INTRA)|by apply (rx_impl0 SHM)].
Qed.

Lemma run_registered host As s ops :
  registered host As s → Forall lucky ops → ∃ As', registered host As' (run_ops ops s).
Proof.
  intros Hreg Hops. unfold run_ops. induction ops as [|o ops IH] using rev_ind; [by exists As|].
  apply Forall_app in Hops as [Hops Ho]. rewrite Forall_singleton in Ho. rewrite foldl_snoc. destruct (IH Hops) as [As1 H1'].
  destruct o as [e i a|i a|rel x]; [by eapply enable_registered|by eapply disable_registered|exists As1; by apply hear_registered].
Qed.

(** *** Whom a message calls *)

(** The calls that a receiver gets. *)
Definition calls_of (l : nat) (calls : list (nat * Msg)) : list (nat * Msg) := filter (λ c, c.1 = l) calls.

Lemma calls_of_app l c1 c2 : calls_of l (c1 ++ c2) = calls_of l c1 ++ calls_of l c2.
Proof. apply filter_app. Qed.

Lemma calls_of_parsed l (f : nat → option Msg) ls msg :
  f l = Some msg → calls_of l (omap (λ l, m ← f l; Some (l, m)) ls) = (λ l, (l, msg)) <$> filter (λ l', l' = l) ls.
Proof.
  intros Hf. unfold calls_of. induction ls as [|l' ls IH]; [done|]. cbn [omap list_omap]. rewrite filter_cons.
  destruct (decide (l' = l)) as [->|Hne].
  - rewrite Hf. cbn [mbind option_bind]. rewrite filter_cons. cbn [fst]. rewrite decide_True by done. rewrite fmap_cons. by rewrite IH.
  - destruct (f l'); cbn [mbind option_bind]; [|done]. rewrite filter_cons. cbn [fst]. by rewrite decide_False.
Qed.

Lemma calls_of_none l (f : nat → option Msg) ls :
  filter (λ l', l' = l) ls = [] → calls_of l (omap (λ l, m ← f l; Some (l, m)) ls) = [].
Proof.
  unfold calls_of. induction ls as [|l' ls IH]; [done|]. rewrite filter_cons. destruct (decide (l' = l)) as [|Hne]; [done|].
  intros Hn. cbn [omap list_omap]. destruct (f l'); cbn [mbind option_bind]; [|by apply IH]. rewrite filter_cons. cbn [fst].
  rewrite decide_False by done. by apply IH.
Qed.

(** Its listener is called once if it watches the sender on this medium, and
    not at all otherwise. *)
Lemma listeners_called host As s k i r o :
  registered host As s → proper k → hybrids s !! i = Some r →
  filter (λ l, l = listener r) (fst <$> Dispatcher.deliveries (type_of k) (channel_of r) o (false, As k)) =
    if watches r k o then [listener r] else [].
Proof.
  intros Hreg Hk Hi. pose proof Hreg as []. rewrite deliveries_typed, rx_alls0 by (try apply rx_typed0; done). cbn [app].
  assert (∀ e, e ∈ peers_at (As k) (channel_of r) o → ListenerHandler.e_listener e = listener r ↔ ListenerHandler.e_self e = id_of r) as He.
  { intros e He. destruct (rx_origin0 _ _ _ _ Hk He) as (j & r' & Hj & -> & ->). split; intros Heq.
    - assert (j = i) as -> by (eapply (NoDup_lookup _ _ _ (listener r) rx_listeners0); by rewrite list_lookup_fmap, ?Hi, ?Hj; cbn; rewrite ?Heq).
      congruence.
    - destruct (decide (i = j)) as [->|Hne]; [congruence|]. by destruct (ids_distinct host As s i j r r'). }
  pose proof (rx_entries0 k i r o Hk Hi) as Hent. revert He Hent. unfold ListenerHandler.entries_of.
  generalize (peers_at (As k) (channel_of r) o) as es. intros es He Hent.
  assert (filter (λ l, l = listener r) (ListenerHandler.e_listener <$> es) =
    ListenerHandler.e_listener <$> filter (λ e, ListenerHandler.e_self e = id_of r) es) as ->.
  { clear Hent. induction es as [|e es IH]; [done|]. rewrite fmap_cons, !filter_cons, IH by (intros; apply He; by right).
    specialize (He e ltac:(by left)). destruct (decide (ListenerHandler.e_self e = id_of r)).
    - rewrite decide_True by tauto. done.
    - rewrite decide_False by tauto. done. }
  rewrite Hent. by destruct (watches r k o).
Qed.

(** Which media reach a process. *)
Definition reaches (rel : Relation) (k : OptionalMode) : bool :=
  match k with
  | INTRA => bool_decide (rel = SAME_PROC)
  | SHM => negb (bool_decide (rel = DIFF_HOST ∨ rel = NO_RELATION))
  | _ => true
  end.

(** The info of a message and its sender. *)
Record sending (attr : role) (info : MessageInfo.t) (o : Z) : Prop := {
  sd_typed : MessageInfo.well_typed info;
  sd_updated : Identity.updated Hash (MessageInfo.sender_id_ info);
  sd_id : Identity.hash_value_ (MessageInfo.sender_id_ info) = o;
  sd_topic : Hash (string_bytes (RoleAttributes.channel_name attr)) = RoleAttributes.channel_id attr
}.

Abbreviation carries := (HybridTransmitter.carries Hash).
Abbreviation medium := HybridTransmitter.medium.

(** What a process that hears an emission does with it, as far as one listener is
    concerned: the dispatcher of the medium calls it as often as it is listed. *)
Lemma hear_delivers (As : OptionalMode → spec) p l attr msg data info o rel x :
  let c := RoleAttributes.channel_id attr in
  let listed k := filter (λ l', l' = l) (fst <$> Dispatcher.deliveries (type_of k) c o (false, As k)) in
  (∀ k, proper k → Dispatcher.implements (base k p) (false, As k)) →
  (listed SHM ≠ [] → is_Some (ShmDispatcher.segments_ (shm p) !! c)) →
  (listed RTPS ≠ [] → c ∈ RtpsDispatcher.subs_ (rtps p)) →
  sending attr info o → carries attr msg data info x → parse l data = Some msg →
  (reaches rel SHM = true → ShmDispatcher.host_id_ (shm p) = Hash (string_bytes (RoleAttributes.host_ip attr))) →
  calls_of l (hear rel x p).1 = if reaches rel (medium x) then (λ l, (l, msg)) <$> listed (medium x) else [].
Proof.
  intros c listed Himpl Hseg Hsub [Hwt Hup Hid Htopic] Hx Hparse Hhost. unfold hear.
  destruct x as [c' msg' info'|ri rb|topic data' identity]; cbn [medium carries HybridTransmitter.carries HybridTransmitter.medium] in *.
  - destruct Hx as (-> & -> & ->). cbn [reaches]. case_decide as Hr; [rewrite bool_decide_true by done|by rewrite bool_decide_false by done].
    destruct (Himpl INTRA ltac:(done)) as [Hd [g Hg]]. cbn in Hd, Hg. rewrite Hid.
    destruct (Dispatcher.OnMessage_tracks _ _ _ (TMessage full_name) c o Hg Hd) as (Hcalls & _). fold c.
    destruct (Dispatcher.OnMessage _ _ _ _) as [calls d]. cbn [fst] in *. subst calls. unfold listed.
    rewrite <- (calls_of_parsed l (λ _, Some msg) _ msg) by done. f_equal. cbn [type_of].
    generalize (Dispatcher.deliveries (TMessage full_name) c o (false, As INTRA)) as ds.
    intros ds. induction ds as [|d' ds IH]; [done|]. cbn. by f_equal.
  - destruct Hx as (E1 & E2 & memory & ->). cbn [reaches] in *. rewrite E1, E2. fold c. destruct (decide (rel = DIFF_HOST ∨ rel = NO_RELATION)) as [Hr|Hr].
    { by rewrite (bool_decide_true _ Hr). }
    rewrite (bool_decide_false _ Hr) in *. rewrite Hhost, Z.eqb_refl by done. cbn [negb].
    destruct (ShmDispatcher.on_block_spec Hash parse c data info memory (shm p) _ Hwt (Himpl SHM ltac:(done))) as [Hcalls _].
    assert (Hash (Identity.data_ (MessageInfo.sender_id_ info)) = o) as Ho by (rewrite <- Hid; by rewrite <- Hup).
    rewrite Ho in Hcalls. destruct (ShmDispatcher.segments_ (shm p) !! c) as [sg|] eqn:E.
    + destruct (ShmDispatcher.on_block _ _ _ _ _) as [calls d]. cbn [fst] in *. rewrite Hcalls. by apply (calls_of_parsed l (λ l, parse l data)).
    + destruct (listed SHM) eqn:Hw; [done|]. destruct Hseg as [? Hs]; [done|congruence].
  - destruct Hx as (-> & -> & ->). cbn [reaches]. rewrite Htopic. fold c.
    case_decide as Hin.
    + unfold RtpsDispatcher.onNewDataMessage. cbn [negb]. rewrite Htopic. rewrite MessageInfo.of_sample_to_sample by done.
      set (info' := MessageInfo.refreshed Hash info). assert (Identity.hash_value_ (MessageInfo.sender_id_ info') = o) as Ho.
      { rewrite <- Hid. cbn. by rewrite <- Hup at 2. }
      destruct (Rtps_OnMessage_spec c data info' (rtps p) _ (Himpl RTPS ltac:(done))) as [Hcalls _]. fold c.
      rewrite Ho in Hcalls. destruct (RtpsDispatcher.OnMessage _ _ _ _ _) as [calls d]. cbn [fst] in *. rewrite Hcalls.
      by apply (calls_of_parsed l (λ l, parse l data)).
    + destruct (listed RTPS) eqn:Hw; [done|]. by destruct Hin; apply Hsub.
Qed.

Lemma hear_calls host As s i r attr msg data info o rel x :
  registered host As s → hybrids s !! i = Some r → sending attr info o → carries attr msg data info x →
  channel_of r = RoleAttributes.channel_id attr → parse (listener r) data = Some msg →
  (reaches rel SHM = true → host = Hash (string_bytes (RoleAttributes.host_ip attr))) →
  calls_of (listener r) (hear rel x (process_ s)).1 =
    if watches r (medium x) o && reaches rel (medium x) then [(listener r, msg)] else [].
Proof.
  intros Hreg Hi Hs Hx Hc Hparse Hhost. pose proof Hreg as [].
  assert (∀ k, proper k → filter (λ l', l' = listener r) (fst <$> Dispatcher.deliveries (type_of k) (RoleAttributes.channel_id attr) o (false, As k)) =
    if watches r k o then [listener r] else []) as Hlisted.
  { intros k Hk. rewrite <- Hc. by apply (listeners_called host As s k i r o). }
  rewrite (hear_delivers As (process_ s) (listener r) attr msg data info o rel x); try done.
  - rewrite Hlisted by (by destruct x). by destruct (reaches rel (medium x)), (watches r (medium x) o).
  - rewrite Hlisted, <- Hc by done. destruct (watches r SHM o) eqn:Hw; [|done]. intros _. by apply (rx_segments0 i r o Hi); rewrite Hw.
  - rewrite Hlisted, <- Hc by done. destruct (watches r RTPS o) eqn:Hw; [|done]. intros _. by apply (rx_subs0 i r o Hi); rewrite Hw.
  - by rewrite rx_host0.
Qed.

Lemma hear_all_calls host As i r attr msg data info o rel xs s :
  registered host As s → hybrids s !! i = Some r → sending attr info o → Forall (carries attr msg data info) xs →
  channel_of r = RoleAttributes.channel_id attr → parse (listener r) data = Some msg →
  (reaches rel SHM = true → host = Hash (string_bytes (RoleAttributes.host_ip attr))) →
  calls_of (listener r) (hear_all rel xs (process_ s)).1 =
    xs ≫= (λ x, if watches r (medium x) o && reaches rel (medium x) then [(listener r, msg)] else []).
Proof.
  intros Hreg Hi Hs Hxs Hc Hp Hh. revert s Hreg Hi. induction Hxs as [|x xs Hx _ IH]; intros s Hreg Hi; [done|].
  rewrite bind_cons. cbn [hear_all]. pose proof (hear_calls host As s i r attr msg data info o rel x Hreg Hi Hs Hx Hc Hp Hh) as Hc1.
  specialize (IH _ (hear_registered host As s rel x Hreg) Hi). cbn [process_] in IH.
  destruct (hear rel x (process_ s)) as [c1 p]. cbn [fst snd] in *. destruct (hear_all rel xs p) as [c2 p']. cbn [fst] in *.
  by rewrite calls_of_app, Hc1, IH.
Qed.

Lemma bind_bind {A B C} (f : A → list B) (g : B → list C) l : (l ≫= f) ≫= g = l ≫= (λ x, f x ≫= g).
Proof. induction l as [|x l IH]; [done|]. by rewrite !bind_cons, bind_app, IH. Qed.

(** Only one mode counts. *)
Lemma bind_one {A B} (f : OptionalMode * A → list B) (g : gmap OptionalMode A) m a :
  g !! m = Some a → (∀ k x, g !! k = Some x → k ≠ m → f (k, x) = []) → map_to_list g ≫= f = f (m, a).
Proof.
  intros Hm Hf. assert ((m, a) ∈ map_to_list g) as Hin by (by apply elem_of_map_to_list).
  assert (∀ k x, (k, x) ∈ map_to_list g → k ≠ m → f (k, x) = []) as Hl by (intros k x Hx%elem_of_map_to_list; by apply Hf).
  pose proof (NoDup_fst_map_to_list g) as Hnd. revert Hin Hnd Hl. generalize (map_to_list g) as l.
  assert (∀ l : list (OptionalMode * A), (∀ k x, (k, x) ∈ l → k ≠ m → f (k, x) = []) → m ∉ l.*1 → l ≫= f = []) as Hno.
  { induction l as [|[k x] l IH]; intros Hl Hn; [done|]. cbn in Hn. rewrite bind_cons, Hl, IH; set_solver. }
  induction l as [|[k x] l IH]; intros Hin Hnd Hl; [by apply elem_of_nil in Hin|]. cbn in Hnd. apply NoDup_cons in Hnd as [Hk Hnd].
  rewrite bind_cons. apply elem_of_cons in Hin as [[= <- <-]|Hin]; [rewrite Hno, app_nil_r by set_solver; done|].
  rewrite IH, Hl; [done|by left| |done|done|set_solver]. intros ->. apply Hk. apply list_elem_of_fmap. by exists (m, a).
Qed.

(** *** The receivers of a process from its start *)
Definition start (conf : option CommunicationMode) (host_ip : string) (rs : list (role * nat)) : state :=
  st (Process (string_bytes host_ip) true) ((λ x, create_receiver conf x.1 x.2) <$> rs).

Definition fits (conf : option CommunicationMode) (rs : list (role * nat)) : Prop :=
  HYBRID ∉ mode_set (default default_modes conf) ∧ NoDup ((λ x, RoleAttributes.id x.1) <$> rs) ∧ NoDup rs.*2.

Lemma created_watches conf a l k o : watches (create_receiver conf a l) k o = false.
Proof.
  unfold watches. apply bool_decide_eq_false. cbn. rewrite lookup_fmap.
  destruct (_ !! k); cbn; rewrite lookup_empty; by intros [].
Qed.

Lemma created_registered conf ip rs :
  im_rep empty ∅ → fits conf rs → registered (Hash (string_bytes ip)) (λ _, ∅) (start conf ip rs).
Proof.
  intros He (Hh & Hids & Hls).
  assert (∀ i r, hybrids (start conf ip rs) !! i = Some r → ∃ x, r = create_receiver conf x.1 x.2) as Hc.
  { intros i r. cbn. rewrite list_lookup_fmap. intros (x & _ & ->)%fmap_Some. by exists x. }
  assert (∀ c o, peers_at ∅ c o = []) as Hp by (intros; unfold peers_at; by rewrite lookup_empty).
  constructor; try done.
  - intros k _. pose proof (Dispatcher.implements_new empty He) as Hn. by destruct k.
  - intros k i r o _ (x & ->)%Hc. by rewrite Hp, created_watches.
  - intros k c o e _. rewrite Hp. by intros ?%elem_of_nil.
  - intros i r m (x & ->)%Hc. cbn. intros Hm Heq. by rewrite Heq in Hm.
  - cbn. by rewrite <- list_fmap_compose.
  - cbn. by rewrite <- list_fmap_compose.
  - intros i r o (x & ->)%Hc. by rewrite created_watches.
  - intros i r o (x & ->)%Hc. by rewrite created_watches.
Qed.

(** Was receiver [i] told of sender [o], and not told it left? *)
Definition follow (i : nat) (o : Z) (b : bool) (x : op) : bool :=
  match x with
  | OEnable _ j a => if decide (j = i ∧ RoleAttributes.id a = o) then true else b
  | ODisable j a => if decide (j = i ∧ RoleAttributes.id a = o) then false else b
  | OHear _ _ => b
  end.
Definition names (attr : role) (x : op) : Prop :=
  match x with OEnable _ _ a | ODisable _ a => RoleAttributes.id a = RoleAttributes.id attr → a = attr | OHear _ _ => True end.

(** How receiver [i] stands to a sender. *)
Record standing (conf : option CommunicationMode) (a : role) (l : nat) (m0 : OptionalMode) (o : Z) (b : bool) (r : HybridReceiver) : Prop := {
  sg_attr : attr_ r = a;
  sg_listener : listener r = l;
  sg_mode : mode_ r = default default_modes conf;
  sg_watches k : watches r k o = bool_decide (k = m0) && b
}.

Lemma watches_other m (f : gmap Z role → gmap Z role) r k o :
  f (default ∅ (transmitters_ r !! m)) !! o = default ∅ (transmitters_ r !! m) !! o →
  watches (set_transmitters (<[m := f (default ∅ (transmitters_ r !! m))]> (transmitters_ r)) r) k o = watches r k o.
Proof. intros Hf. rewrite watches_set, set_transmitters_self. destruct (decide (m = k)) as [<-|]; [|done]. unfold watches. by rewrite Hf. Qed.

Lemma exec_standing conf a l attr i s o b (x : op) r :
  let m0 := mapping_table (default default_modes conf) (GetRelation a attr) in
  o = RoleAttributes.id attr → names attr x → GetRelation a attr ≠ NO_RELATION →
  hybrids s !! i = Some r → standing conf a l m0 o b r →
  ∃ r', hybrids (exec x s) !! i = Some r' ∧ standing conf a l m0 o (follow i o b x) r'.
Proof.
  intros m0 Ho Hx Hrel Hi Hst. pose proof Hst as [Ha Hl Hm Hw].
  assert (∀ j r' p', j ≠ i → hybrids (st p' (<[j := r']> (hybrids s))) !! i = Some r) as Hother.
  { intros j r' p' Hne. cbn. by rewrite list_lookup_insert_ne. }
  assert (∀ r' p', hybrids (st p' (<[i := r']> (hybrids s))) !! i = Some r') as Hself.
  { intros r' p'. cbn. apply list_lookup_insert_eq. by eapply lookup_lt_Some. }
  destruct x as [e j a'|j a'|rel x]; cbn [follow exec names] in *; [| |by exists r].
  - destruct (decide (j = i)) as [->|Hj]; [|rewrite decide_False by tauto; destruct (hybrids s !! j) as [rj|]; [|by exists r];
      destruct (EnablePeer _ _ _ _) as [[h r'] p']; exists r; by rewrite Hother].
    rewrite Hi. unfold EnablePeer. destruct (decide (i = i ∧ RoleAttributes.id a' = o)) as [[_ Heq]|Hne].
    + specialize (Hx ltac:(congruence)). subst a'. rewrite Ha, Hm, decide_False by done. fold m0.
      set (peers := default ∅ (transmitters_ r !! m0)). rewrite <- Ho.
      pose proof (Hw m0) as Hw0. rewrite bool_decide_true in Hw0 by done. cbn [andb] in Hw0. unfold watches in Hw0. fold peers in Hw0.
      destruct (peers !! o) as [y|] eqn:E.
      * rewrite bool_decide_true in Hw0 by (by eexists). exists r. split; [apply Hself|]. by rewrite Hw0.
      * eexists. split; [apply Hself|]. constructor; cbn; [done|done|done|]. intros k. rewrite watches_set, set_transmitters_self, lookup_insert_eq.
        destruct (decide (m0 = k)) as [<-|Hk]; [by rewrite !bool_decide_true|]. rewrite Hw. by rewrite (bool_decide_false (k = m0)).
    + destruct (decide _); [exists r; by split; [apply Hself|]|]. set (m := mapping_table _ _).
      destruct (_ !! RoleAttributes.id a'); [exists r; by split; [apply Hself|]|]. eexists. split; [apply Hself|]. constructor; cbn; [done|done|done|].
      intros k. by rewrite (watches_other m (λ p, <[RoleAttributes.id a' := a']> p)) by (rewrite lookup_insert_ne by tauto; done).
  - destruct (decide (j = i)) as [->|Hj]; [|rewrite decide_False by tauto; destruct (hybrids s !! j) as [rj|]; [|by exists r];
      destruct (DisablePeer _ _ _) as [r' p']; exists r; by rewrite Hother].
    rewrite Hi. unfold DisablePeer. destruct (decide (i = i ∧ RoleAttributes.id a' = o)) as [[_ Heq]|Hne].
    + specialize (Hx ltac:(congruence)). subst a'. rewrite Ha, Hm, decide_False by done. fold m0.
      set (peers := default ∅ (transmitters_ r !! m0)). rewrite <- Ho.
      pose proof (Hw m0) as Hw0. rewrite bool_decide_true in Hw0 by done. cbn [andb] in Hw0. unfold watches in Hw0. fold peers in Hw0.
      destruct (peers !! o) as [y|] eqn:E.
      * eexists. split; [apply Hself|]. constructor; cbn; [done|done|done|]. intros k. rewrite watches_set, set_transmitters_self, lookup_delete_eq.
        destruct (decide (m0 = k)) as [<-|Hk]; [by rewrite andb_false_r, bool_decide_false by (by intros [])|]. rewrite Hw. by rewrite (bool_decide_false (k = m0)).
      * rewrite bool_decide_false in Hw0 by (by intros []). exists r. split; [apply Hself|]. by rewrite Hw0.
    + destruct (decide _); [exists r; by split; [apply Hself|]|]. set (m := mapping_table _ _).
      destruct (_ !! RoleAttributes.id a'); [|exists r; by split; [apply Hself|]]. eexists. split; [apply Hself|]. constructor; cbn; [done|done|done|].
      intros k. by rewrite (watches_other m (λ p, delete (RoleAttributes.id a') p)) by (rewrite lookup_delete_ne by tauto; done).
Qed.

Lemma run_standing conf a l attr i ops s r :
  let m0 := mapping_table (default default_modes conf) (GetRelation a attr) in
  let o := RoleAttributes.id attr in
  Forall (names attr) ops → GetRelation a attr ≠ NO_RELATION → hybrids s !! i = Some r → standing conf a l m0 o false r →
  ∃ r', hybrids (run_ops ops s) !! i = Some r' ∧ standing conf a l m0 o (foldl (follow i o) false ops) r'.
Proof.
  intros m0 o Hops Hrel Hi Hr. unfold run_ops. induction ops as [|x ops IH] using rev_ind; [by exists r|].
  apply Forall_app in Hops as [Hops Hx]. rewrite Forall_singleton in Hx. destruct (IH Hops) as (r1 & Hi1 & Hr1). rewrite !foldl_snoc.
  by apply (exec_standing conf a l attr i _ o _ x r1).
Qed.
End receivers.

(** ** From a transmitter to a receiver *)
Section end_to_end.
Context {Msg : Type} `{MessageType Msg}.
Context {M : Type} `{IntMap M nat} (empty : M) (Hempty : im_rep empty ∅).
Context {S : Type} `{BlockReader S} {W : Type} `{BlockWriter W}.
Context (Hash : list Z → Z) (parse : nat → list Z → option Msg).

Abbreviation t := (HybridTransmitter.t (Msg := Msg) (W := W)).

(** An endpoint that sends: its identity is its id, its channel the hash of the
    channel's name. *)
Definition sender_ok (ep : Endpoint.t) : Prop :=
  let attr := Endpoint.attr_ ep in
  Identity.well_typed (Endpoint.id_ ep) ∧ Identity.updated Hash (Endpoint.id_ ep) ∧
  RoleAttributes.id attr = Identity.hash_value_ (Endpoint.id_ ep) ∧
  Hash (string_bytes (RoleAttributes.channel_name attr)) = RoleAttributes.channel_id attr.

Lemma sending_next conf limit ep ops :
  sender_ok ep →
  sending Hash (Endpoint.attr_ ep) (HybridTransmitter.next_info (HybridTransmitter.run_ops ops
    (HybridTransmitter.HybridTransmitter (Msg := Msg) (W := W) Hash conf limit true ep))) (RoleAttributes.id (Endpoint.attr_ ep)).
Proof.
  intros (Hw & Hu & Hid & Ht). destruct (HybridTransmitter.next_info_of Hash conf limit true ep ops) as (E1 & E2 & E3).
  constructor; [|by rewrite E1|by rewrite E1|done]. unfold MessageInfo.well_typed. rewrite E1, E2. split; [done|]. split; [done|]. split; [done|].
  repeat constructor; done.
Qed.

(** What a transmitter sends on its media, when they work. *)
Lemma Send_carries (h0 h : t) J e msg data :
  HybridTransmitter.in_use Hash h0 J h → HYBRID ∉ mode_set (HybridTransmitter.mode_ h0) →
  HybridTransmitter.working e → ser msg = Some data →
  (∀ m t, HybridTransmitter.transmitters_ h !! m = Some t → HybridTransmitter.room msg t) →
  ∃ f : OptionalMode * transmitter W → list (emission Msg),
    (HybridTransmitter.Send e msg h).1.2 = map_to_list (HybridTransmitter.transmitters_ h) ≫= f ∧
    ∀ m t, HybridTransmitter.transmitters_ h !! m = Some t →
      if bool_decide (J m ≠ ∅)
      then ∃ x, f (m, t) = [x] ∧ HybridTransmitter.medium x = m ∧
                HybridTransmitter.carries Hash (HybridTransmitter.attr_ h0) msg data (HybridTransmitter.next_info h) x
      else f (m, t) = [].
Proof.
  intros Hi Hh He Hs Hr. eexists. split; [apply HybridTransmitter.Send_emissions|]. intros m t Ht. destruct Hi.
  destruct (iu_kind m t Ht) as [Hk <-]. apply (HybridTransmitter.Transmit_emits Hash (HybridTransmitter.attr_ h0) m); try done.
  - intros ->. apply Hh. apply iu_dom. by eexists.
  - by eapply Hr.
Qed.

(** C5: a message reaches a receiver exactly once.  A transmitter and the
    receivers of a process use the same modes; receivers came and went on the
    transmitter's side, the process's receivers were told of transmitters and
    told that they left, in any order and as often as one likes, and heard other
    messages.  If the medium of their relation works and can reach the process,
    and the message can be serialised and parsed, a message that is sent calls
    the listener of a receiver on the channel once, with the message, if the
    receiver knows the transmitter and the medium is in use, and not at all
    otherwise - although it goes out on every medium in use and the process
    hears it on several. *)
Theorem hybrid_exactly_once conf limit ep (tops : list (HybridTransmitter.op (Msg := Msg))) rs
    (rops : list (op (Msg := Msg))) i a l e msg data :
  let h0 : t := HybridTransmitter.HybridTransmitter Hash conf limit true ep in
  let h := HybridTransmitter.run_ops tops h0 in
  let attr := Endpoint.attr_ ep in
  let s := run_ops (S := S) Hash parse rops (start empty Hash conf (RoleAttributes.host_ip a) rs) in
  let rel := GetRelation attr a in
  let m0 := mapping_table (default default_modes conf) rel in
  sender_ok ep → fits conf rs → rs !! i = Some (a, l) →
  RoleAttributes.channel_id a = RoleAttributes.channel_id attr → rel ≠ NO_RELATION → reaches rel m0 = true →
  Forall HybridTransmitter.peerwise tops → Forall lucky rops → Forall (names attr) rops →
  HybridTransmitter.working e → (∀ m t, HybridTransmitter.transmitters_ h !! m = Some t → HybridTransmitter.room msg t) →
  ser msg = Some data → parse l data = Some msg →
  calls_of l (hear_all Hash parse rel (HybridTransmitter.Send e msg h).1.2 (process_ s)).1 =
    if foldl (follow i (RoleAttributes.id attr)) false rops && bool_decide (HybridTransmitter.joined h0 tops m0 ≠ ∅)
    then [(l, msg)] else [].
Proof.
  intros h0 h attr s rel m0 Hep Hfit Hi Hc Hrel Hreach Htops Hlucky Hnames He Hroom Hser Hparse.
  pose proof (HybridTransmitter.run_in_use Hash conf limit ep tops Htops) as Huse. fold h0 h in Huse.
  destruct (Send_carries h0 h _ e msg data Huse (proj1 Hfit) He Hser Hroom) as (f & -> & Hf).
  destruct (run_registered Hash parse _ _ _ rops (created_registered empty Hash conf (RoleAttributes.host_ip a) rs Hempty Hfit) Hlucky) as [As Hreg].
  fold s in Hreg. assert (GetRelation a attr = rel) as Hsym by apply GetRelation_sym.
  destruct (run_standing Hash parse conf a l attr i rops (start empty Hash conf (RoleAttributes.host_ip a) rs) (create_receiver conf a l)) as (r & Hr & [<- <- Hm Hw]).
  { done. } { congruence. } { cbn. by rewrite list_lookup_fmap, Hi. } { constructor; try done. intros k. by rewrite created_watches, andb_false_r. }
  fold s in Hr. rewrite Hsym in Hw. fold m0 in Hw. pose proof (Hw m0) as Hw0. rewrite bool_decide_true in Hw0 by done. cbn [andb] in Hw0.
  assert (Forall (HybridTransmitter.carries Hash attr msg data (HybridTransmitter.next_info h)) (map_to_list (HybridTransmitter.transmitters_ h) ≫= f)) as Hall.
  { apply Forall_forall. intros x ([m t] & Hx & Ht%elem_of_map_to_list)%list_elem_of_bind. specialize (Hf m t Ht).
    case_bool_decide; [|rewrite Hf in Hx; by apply elem_of_nil in Hx]. destruct Hf as (y & Hy & _ & Hcy). rewrite Hy in Hx.
    by apply list_elem_of_singleton in Hx as ->. }
  rewrite (hear_all_calls Hash parse _ _ _ _ _ _ _ _ _ _ _ _ Hreg Hr (sending_next conf limit ep tops Hep) Hall Hc Hparse).
  2: { intros Hshm. do 2 f_equal. apply dec_stable. intros Hne. revert Hshm. cbn [reaches]. rewrite bool_decide_true; [done|].
       unfold rel, GetRelation. destruct (negb _); [by right|]. rewrite bool_decide_false by done. by left. }
  rewrite bind_bind. destruct (HybridTransmitter.iu_dom _ _ _ _ Huse m0) as [_ Hdom].
  destruct Hdom as [t0 Ht0]; [by apply mapping_in_modes|]. rewrite (bind_one _ _ m0 t0 Ht0).
  - specialize (Hf m0 t0 Ht0). rewrite <- Hw0. destruct (bool_decide (_ ≠ ∅)); [|by rewrite Hf, andb_false_r]. destruct Hf as (x & -> & Hx & _).
    rewrite bind_cons, app_nil_r. cbv beta. by rewrite Hx, Hreach, !andb_true_r.
  - intros k x Hx Hk. specialize (Hf k x Hx). destruct (bool_decide (_ ≠ ∅)); [|by rewrite Hf]. destruct Hf as (y & -> & Hy & _).
    rewrite bind_cons, app_nil_r. cbv beta. by rewrite Hy, Hw, bool_decide_false by done.
Qed.
End end_to_end.

(** ** Witness: three receivers of a process, on the media of the default modes *)
Module ReceiversSample.
Import TransmittersSample DispatcherSample.

Definition a1 : RoleAttributes.t := role_of (Some 1) "10.0.0.1" 8.
Definition a2 : RoleAttributes.t := role_of (Some 3) "10.0.0.1" 8.
Definition yes : answers := mkanswers true true.
Definition receivers : list (RoleAttributes.t * nat) := [(a1, 11%nat); (a2, 22%nat)].

(** The receivers are in another process of the host.  Both learn of the
    transmitter; the second is told that it left. *)
Definition rops : list (op (Msg := list Z)) :=
  [OEnable yes 0 (Endpoint.attr_ ep); OEnable yes 1 (Endpoint.attr_ ep); OEnable yes 0 (Endpoint.attr_ ep);
   ODisable 1 (Endpoint.attr_ ep); ODisable 0 a2].
Definition tops : list (HybridTransmitter.op (Msg := list Z)) :=
  [HybridTransmitter.OEnablePeer good a1; HybridTransmitter.OEnablePeer good near; HybridTransmitter.OEnablePeer good far].
Definition parse (_ : nat) (m : list Z) : option (list Z) := Some m.

Lemma sender_good : sender_ok MessageSample.sum_hash ep.
Proof. unfold sender_ok. split_and!; try done. split; [done|]. cbn. unfold byte. repeat constructor; lia. Qed.

Lemma receivers_fit : fits None receivers.
Proof. unfold fits. split_and!; [set_solver|apply (bool_decide_unpack _); vm_compute; exact I..]. Qed.

Lemma sample_rooms m t :
  HybridTransmitter.transmitters_ (HybridTransmitter.run_ops tops made) !! m = Some t → HybridTransmitter.room [4] t.
Proof. intros _. by destruct t as [| t|]; cbn. Qed.

Lemma hybrid_exactly_once_witness :
  calls_of 11 (hear_all MessageSample.sum_hash parse DIFF_PROC
    (HybridTransmitter.Send good [4] (HybridTransmitter.run_ops tops made)).1.2
    (process_ (run_ops MessageSample.sum_hash parse rops (start map_empty MessageSample.sum_hash None "10.0.0.1" receivers)))).1
  = [(11%nat, [4])].
Proof.
  pose proof (hybrid_exactly_once map_empty map_empty_rep (W := list Z) MessageSample.sum_hash parse None None ep tops receivers
    rops 0 a1 11 good [4] [4] sender_good receivers_fit eq_refl eq_refl) as H. cbv zeta in H.
  etransitivity; [apply H|vm_compute; reflexivity].
  - vm_compute. discriminate.
  - vm_compute. reflexivity.
  - repeat constructor.
  - repeat constructor.
  - repeat (apply Forall_cons_2; [cbn; first [reflexivity|intros _; reflexivity|intros Hd; vm_compute in Hd; discriminate Hd]|]). apply Forall_nil_2.
  - repeat constructor.
  - exact sample_rooms.
  - reflexivity.
  - reflexivity.
Defined.
End ReceiversSample.
