(* ===== verification/Logger.v ===== *)
(** * Asynchronous logging ([cyber/logger/async_logger.cc],
    [cyber/logger/logger_util.h])

    [LogText]: the module a message belongs to.  [AsyncLogger]: two buffers, the
    threads that log, those that wait for a flush, and the thread that writes,
    as a step relation; a step is what a thread does while it holds [mutex_], or
    one call it makes without it. *)

From S2P Require Import Prelude.

Local Open Scope Z_scope.
Local Open Scope cyber_scope.

Module LogText.

(** [std::string::find] for a character. *)
Fixpoint find (c : Z) (s : list Z) : option nat :=
  match s with
  | [] => None
  | x :: s => if x =? c then Some O else S <$> find c s
  end.

Definition bracket_l : Z := 91.
Definition bracket_r : Z := 93.

(** The message and the module's name afterwards; [group]: [ProcessGroup()]. *)
Definition FindModuleName (group log_message module_name : list Z) : list Z * list Z :=
  let '(log_message, module_name) :=
    match find bracket_l log_message with
    | None => (log_message, module_name)
    | Some lpos =>
        match find bracket_r (drop lpos log_message) with
        | None => (log_message, module_name)
        | Some n => (take lpos log_message ++ drop (lpos + n + 1) log_message, take (n - 1) (drop (lpos + 1) log_message))
        end
    end in
  (log_message, if decide (module_name = []) then group else module_name).

Lemma find_at c p s : c ∉ p → find c (p ++ c :: s) = Some (length p).
Proof.
  induction p as [|x p IH]; intros Hc; cbn; [by rewrite Z.eqb_refl|].
  rewrite (proj2 (Z.eqb_neq x c)) by set_solver. rewrite IH by set_solver. done.
Qed.

Lemma find_none c s : find c s = None ↔ c ∉ s.
Proof.
  induction s as [|x s IH]; cbn; [split; [intros _; by intros ?%elem_of_nil|done]|].
  destruct (Z.eqb_spec x c) as [->|Hne]; [set_solver|]. rewrite fmap_None, IH. set_solver.
Qed.

(** A tagged message loses its first tag, which names its module. *)
Lemma FindModuleName_tagged group p name q :
  bracket_l ∉ p → bracket_r ∉ name →
  FindModuleName group (p ++ bracket_l :: name ++ bracket_r :: q) [] = (p ++ q, if decide (name = []) then group else name).
Proof.
  intros Hp Hn. unfold FindModuleName. rewrite find_at by done. rewrite drop_app_length.
  assert (find bracket_r (bracket_l :: name ++ bracket_r :: q) = Some (S (length name))) as ->.
  { change (bracket_l :: name ++ bracket_r :: q) with ((bracket_l :: name) ++ bracket_r :: q). rewrite find_at; [done|]. set_solver. }
  rewrite take_app_length.
  assert (∀ s, drop (length p + 1) (p ++ bracket_l :: s) = s) as Hd.
  { intros s. rewrite <- drop_drop, drop_app_length. done. }
  rewrite Hd. replace (S (length name) - 1)%nat with (length name) by lia. rewrite take_app_length.
  replace (length p + S (length name) + 1)%nat with ((length p + 1) + (length name + 1))%nat by lia.
  rewrite <- drop_drop, Hd, <- drop_drop, drop_app_length. done.
Qed.

Lemma FindModuleName_plain group s : bracket_l ∉ s → FindModuleName group s [] = (s, group).
Proof. intros Hs. unfold FindModuleName. by rewrite (proj2 (find_none _ _) Hs). Qed.
End LogText.

Module AsyncLogger.
Section logger.
Context (sizeof_Msg : Z) (ProcessGroup : list Z).

Record Msg := mkmsg { ts : Z; message : list Z; level : Z }.

Record Buffer := mkbuf { messages : list Msg; size : Z; flush : bool }.
Definition new_Buffer : Buffer := mkbuf [] 0 false.
Definition clear (b : Buffer) : Buffer := mkbuf [] 0 false.
Definition add (msg : Msg) (force_flush : bool) (b : Buffer) : Buffer :=
  mkbuf (messages b ++ [msg]) (i32 (size b + (sizeof_Msg + Z.of_nat (length (message msg))))) (flush b || force_flush).
Definition needs_flush_or_write (b : Buffer) : bool := flush b || negb (bool_decide (messages b = [])).

Inductive State := INITTED | RUNNING | STOPPED.
#[global] Instance State_eq_dec : EqDecision State.
Proof. solve_decision. Defined.

(** [moduleLoggerMap]: the names it has. *)
Record t := mk {
  max_buffer_bytes_ : Z;
  flush_count_ : Z;
  active_buf_ : Buffer;
  flushing_buf_ : Buffer;
  state_ : State;
  moduleLoggerMap : list (list Z)
}.

Definition AsyncLogger (max_buffer_bytes : Z) : t :=
  mk (if max_buffer_bytes <=? 0 then 2 * 1024 * 1024 else max_buffer_bytes) 0 new_Buffer new_Buffer INITTED [].

Definition set_active (b : Buffer) (l : t) : t :=
  mk (max_buffer_bytes_ l) (flush_count_ l) b (flushing_buf_ l) (state_ l) (moduleLoggerMap l).
Definition set_flushing (b : Buffer) (l : t) : t :=
  mk (max_buffer_bytes_ l) (flush_count_ l) (active_buf_ l) b (state_ l) (moduleLoggerMap l).
Definition set_state (s : State) (l : t) : t :=
  mk (max_buffer_bytes_ l) (flush_count_ l) (active_buf_ l) (flushing_buf_ l) s (moduleLoggerMap l).
Definition set_modules (m : list (list Z)) (l : t) : t :=
  mk (max_buffer_bytes_ l) (flush_count_ l) (active_buf_ l) (flushing_buf_ l) (state_ l) m.

Definition running (l : t) : bool := bool_decide (state_ l = RUNNING).
Definition BufferFull (buf : Buffer) (l : t) : bool := Z.quot (max_buffer_bytes_ l) 2 <? size buf.

Definition level_of (m : list Z) : Z :=
  match m with
  | c :: _ => if c =? 70 then 3 else if c =? 69 then 2 else if c =? 87 then 1 else if c =? 73 then 0 else -1
  | [] => -1
  end.

(** The message it is given, if it takes it. *)
Definition Write (force_flush : bool) (timestamp : Z) (m : list Z) (l : t) : option Msg * t :=
  if BufferFull (active_buf_ l) l then (None, l)
  else if negb (running l) then (None, l)
  else let msg := mkmsg timestamp m (level_of m) in (Some msg, set_active (add msg force_flush (active_buf_ l)) l).

(** The test of [Flush]'s loop, and what it does before it waits. *)
Definition flush_pending (orig : Z) (l : t) : bool := (flush_count_ l <? orig +64 2) && running l.
Definition request_flush (l : t) : t :=
  let b := active_buf_ l in set_active (mkbuf (messages b) (size b) true) l.

(** ** [RunThread] *)
Inductive call :=
| CallWrite (module_name : list Z) (should_flush : bool) (timestamp : Z) (text : list Z)
| CallFlush (module_name : list Z).

(** Its position: before the loop; asleep; with these messages left to write;
    after them; about to take the lock again; returned. *)
Inductive fpc := FTest | FWait | FWork (rest : list Msg) | FEnd | FExit.

Definition swap (l : t) : t := set_active (flushing_buf_ l) (set_flushing (active_buf_ l) l).

Definition inner (l : t) : fpc * t :=
  if negb (needs_flush_or_write (active_buf_ l)) && running l then (FWait, l)
  else (FWork (messages (active_buf_ l)), swap l).
Definition outer (l : t) : fpc * t :=
  if running l || needs_flush_or_write (active_buf_ l) then inner l else (FExit, l).

(** One message of [flushing_buf_]. *)
Definition write_one (msg : Msg) (l : t) : call * t :=
  let '(text, module_name) := LogText.FindModuleName ProcessGroup (message msg) [] in
  (CallWrite module_name (0 <? level msg) (ts msg) text,
   if decide (module_name ∈ moduleLoggerMap l) then l else set_modules (moduleLoggerMap l ++ [module_name]) l).

(** ** All threads *)

(** A thread in [Flush]: [orig_flush_count], asleep or not; with the messages
    taken before it called. *)
Record waiter := mkwaiter { orig : Z; asleep : bool; before : nat }.

(** [taken]: the messages [Write] took.  [flushed]: so many had been written when
    every module was flushed last. *)
Record sys := mksys {
  log : t;
  pc : option fpc;
  waiters : gmap nat waiter;
  calls : list call;
  taken : list Msg;
  flushed : nat
}.

Definition set_log (l : t) (s : sys) : sys := mksys l (pc s) (waiters s) (calls s) (taken s) (flushed s).
Definition set_pc (x : fpc * t) (s : sys) : sys := mksys x.2 (Some x.1) (waiters s) (calls s) (taken s) (flushed s).
Definition set_waiters (w : gmap nat waiter) (s : sys) : sys := mksys (log s) (pc s) w (calls s) (taken s) (flushed s).

(** [Flush]'s loop: to sleep, or to return. *)
Definition flush_loop (i : nat) (o : Z) (n : nat) (s : sys) : sys :=
  if flush_pending o (log s) then set_waiters (<[i := mkwaiter o true n]> (waiters s)) (set_log (request_flush (log s)) s)
  else set_waiters (delete i (waiters s)) s.

Definition notify_all (w : gmap nat waiter) : gmap nat waiter := (λ x, mkwaiter (orig x) false (before x)) <$> w.

Definition written (cs : list call) : nat := length (omap (λ c, match c with CallWrite _ _ _ _ => Some tt | _ => None end) cs).

Definition flusher_step (timeout : bool) (s : sys) : option sys :=
  let l := log s in
  match pc s with
  | None | Some FExit => None
  | Some FTest => Some (set_pc (outer l) s)
  | Some FWait => Some (set_pc (inner (if timeout then request_flush l else l)) s)
  | Some (FWork (msg :: rest)) =>
      let '(c, l) := write_one msg l in
      Some (mksys l (Some (FWork rest)) (waiters s) (calls s ++ [c]) (taken s) (flushed s))
  | Some (FWork []) =>
      let f := flush (flushing_buf_ l) in
      Some (mksys (set_flushing (clear (flushing_buf_ l)) l) (Some FEnd) (waiters s)
              (calls s ++ if f then CallFlush <$> moduleLoggerMap l else []) (taken s)
              (if f then written (calls s) else flushed s))
  | Some FEnd =>
      let l := mk (max_buffer_bytes_ l) (flush_count_ l +64 1) (active_buf_ l) (flushing_buf_ l) (state_ l) (moduleLoggerMap l) in
      Some (set_pc (outer l) (set_waiters (notify_all (waiters s)) s))
  end.

Inductive label :=
| LStart | LStop | LWrite (force_flush : bool) (timestamp : Z) (m : list Z) | LFlush (i : nat) | LWake (i : nat) | LRun (timeout : bool).

Definition step (x : label) (s : sys) : option sys :=
  match x with
  | LStart =>
      (* CHECK_EQ(state_, INITTED) *)
      if decide (state_ (log s) = INITTED)
      then Some (mksys (set_state RUNNING (log s)) (Some FTest) (waiters s) (calls s) (taken s) (flushed s)) else None
  | LStop => if running (log s) then Some (set_log (set_state STOPPED (log s)) s) else None
  | LWrite force timestamp m =>
      let '(msg, l) := Write force timestamp m (log s) in
      Some (mksys l (pc s) (waiters s) (calls s) (taken s ++ option_list msg) (flushed s))
  | LFlush i =>
      match waiters s !! i with
      | Some _ => None
      | None => if running (log s) then Some (flush_loop i (flush_count_ (log s)) (length (taken s)) s) else Some s
      end
  | LWake i =>
      (* notified, or spuriously *)
      match waiters s !! i with
      | Some w => Some (flush_loop i (orig w) (before w) s)
      | None => None
      end
  | LRun timeout => flusher_step timeout s
  end.

Definition initial (max_buffer_bytes : Z) : sys := mksys (AsyncLogger max_buffer_bytes) None ∅ [] [] 0.

(** *** What is true at any time *)

(** What the flusher makes of a message. *)
Definition image (msg : Msg) : call :=
  let '(text, module_name) := LogText.FindModuleName ProcessGroup (message msg) [] in
  CallWrite module_name (0 <? level msg) (ts msg) text.
Definition module_of (msg : Msg) : list Z := (LogText.FindModuleName ProcessGroup (message msg) []).2.

Definition is_write (c : call) : Prop := match c with CallWrite _ _ _ _ => True | CallFlush _ => False end.
#[local] Instance is_write_dec c : Decision (is_write c).
Proof. destruct c; apply _. Defined.
Definition writes (cs : list call) : list call := filter is_write cs.

Definition rest (s : sys) : list Msg := match pc s with Some (FWork r) => r | _ => [] end.
Definition busy (s : sys) : bool := match pc s with Some (FWork _) | Some FEnd => true | _ => false end.

(** Flushed: all modules written so far, after the first [n] writes. *)
Definition covers (n : nat) (cs : list call) : Prop :=
  ∃ cs1 mods cs2, cs = cs1 ++ (CallFlush <$> mods) ++ cs2 ∧ written cs1 = n ∧
    ∀ m f t x, CallWrite m f t x ∈ cs1 → m ∈ mods.

Definition promised (s : sys) (w : waiter) : Prop :=
  (before w <= flushed s)%nat ∨
  (∃ r, pc s = Some (FWork r) ∧ flush (flushing_buf_ (log s)) = true ∧ (before w <= written (calls s) + length r)%nat ∧
        flush_count_ (log s) <= orig w + 1) ∨
  (flush (active_buf_ (log s)) = true ∧ flush_count_ (log s) <= orig w).

Record inv (n : nat) (s : sys) : Prop := {
  iv_taken : ∃ done, taken s = done ++ rest s ++ messages (active_buf_ (log s)) ∧ writes (calls s) = image <$> done;
  iv_flushing : (∃ r, pc s = Some (FWork r)) ∨ flushing_buf_ (log s) = new_Buffer;
  iv_none : pc s = None → state_ (log s) = INITTED ∧ taken s = [] ∧ waiters s = ∅ ∧ active_buf_ (log s) = new_Buffer;
  iv_some : pc s ≠ None → state_ (log s) ≠ INITTED;
  iv_exit : pc s = Some FExit → state_ (log s) = STOPPED ∧ needs_flush_or_write (active_buf_ (log s)) = false;
  iv_modules m f t x : CallWrite m f t x ∈ calls s → m ∈ moduleLoggerMap (log s);
  iv_flushed : covers (flushed s) (calls s) ∧ (flushed s <= written (calls s))%nat;
  iv_count : 0 <= flush_count_ (log s) <= Z.of_nat n;
  iv_promised i w : waiters s !! i = Some w → promised s w ∧ (before w <= length (taken s))%nat ∧ 0 <= orig w <= Z.of_nat n;
  iv_asleep i w : waiters s !! i = Some w → asleep w = true → busy s = true ∨ flush (active_buf_ (log s)) = true
}.

#[local] Arguments written : simpl never.

Lemma written_writes cs : written cs = length (writes cs).
Proof. unfold written, writes. induction cs as [|[] cs IH]; [done| |]; cbn; [by rewrite IH|done]. Qed.
Lemma writes_app c1 c2 : writes (c1 ++ c2) = writes c1 ++ writes c2.
Proof. apply filter_app. Qed.
Lemma writes_flushes ms : writes (CallFlush <$> ms) = [].
Proof. by induction ms. Qed.
Lemma written_app c1 c2 : written (c1 ++ c2) = (written c1 + written c2)%nat.
Proof. by rewrite !written_writes, writes_app, length_app. Qed.

Lemma covers_app n cs cs' : covers n cs → covers n (cs ++ cs').
Proof. intros (c1 & ms & c2 & -> & H2). exists c1, ms, (c2 ++ cs'). by rewrite <- !app_assoc. Qed.

Lemma written_done s done : writes (calls s) = image <$> done → written (calls s) = length done.
Proof. intros Hd. by rewrite written_writes, Hd, length_fmap. Qed.

Lemma needs_false b : needs_flush_or_write b = false → flush b = false ∧ messages b = [].
Proof. unfold needs_flush_or_write. intros [? Hm]%orb_false_iff. split; [done|]. apply negb_false_iff in Hm. by apply bool_decide_eq_true in Hm. Qed.

Lemma logger_initial_inv m : inv 0 (initial m).
Proof.
  constructor; cbn; try done.
  - exists []. done.
  - by right.
  - intros m' f t x Hx. by apply elem_of_nil in Hx.
  - split; [|done]. exists [], [], []. split_and!; try done. intros m' f t x Hx. by apply elem_of_nil in Hx.
Qed.

(** The parts of the state a waiter's promise looks at. *)
Lemma promised_mono s s' w :
  promised s w → flushed s = flushed s' → pc s = pc s' → flushing_buf_ (log s) = flushing_buf_ (log s') →
  (written (calls s) <= written (calls s'))%nat → (flush (active_buf_ (log s)) = true → flush (active_buf_ (log s')) = true) →
  flush_count_ (log s) = flush_count_ (log s') → promised s' w.
Proof.
  intros [Hp|[(r & H1 & H2 & H3 & H4)|[H1 H2]]] E1 E2 E3 E4 E5 E6; unfold promised; rewrite <- ?E1, <- ?E2, <- ?E3, <- ?E6.
  - by left.
  - right; left. exists r. split_and!; [done|done|lia|done].
  - right; right. split; [by apply E5|done].
Qed.

(** What holds when the flusher has the lock and both hands free. *)
Record idle (n : nat) (l : t) (s : sys) : Prop := {
  id_taken : ∃ done, taken s = done ++ messages (active_buf_ l) ∧ writes (calls s) = image <$> done;
  id_flushing : flushing_buf_ l = new_Buffer;
  id_state : state_ l ≠ INITTED;
  id_modules m f t x : CallWrite m f t x ∈ calls s → m ∈ moduleLoggerMap l;
  id_flushed : covers (flushed s) (calls s) ∧ (flushed s <= written (calls s))%nat;
  id_count : 0 <= flush_count_ l <= Z.of_nat n;
  id_waiters i w : waiters s !! i = Some w →
    ((before w <= flushed s)%nat ∨ (flush (active_buf_ l) = true ∧ flush_count_ l <= orig w + 1)) ∧
    (before w <= length (taken s))%nat ∧ 0 <= orig w <= Z.of_nat n;
  id_asleep i w : waiters s !! i = Some w → asleep w = true → flush (active_buf_ l) = true
}.

Lemma inner_inv n l s : idle n l s → inv n (set_pc (inner l) s).
Proof.
  intros []. destruct id_taken0 as (done & Ht & Hw). unfold inner.
  destruct (negb (needs_flush_or_write (active_buf_ l)) && running l) eqn:E.
  - apply andb_true_iff in E as [E _]. apply negb_true_iff, needs_false in E as [Ef Em].
    constructor; cbn; try done; [by exists done|by right| |].
    + intros i w Hi. destruct (id_waiters0 i w Hi) as ([Hl|[Hf _]] & H2 & H3); [|congruence]. split; [by left|done].
    + intros i w Hi Ha. specialize (id_asleep0 i w Hi Ha). congruence.
  - constructor; cbn; try done.
    + exists done. rewrite id_flushing0. cbn. by rewrite app_nil_r.
    + left. by eexists.
    + intros i w Hi. destruct (id_waiters0 i w Hi) as (Hp & H2 & H3). split; [|done]. destruct Hp as [Hl|[Hf Hc]]; [by left|].
      right; left. exists (messages (active_buf_ l)). cbn. split_and!; [done|done| |lia].
      rewrite (written_done s done Hw). rewrite Ht, length_app in H2. lia.
    + intros i w Hi Ha. by left.
Qed.

Lemma outer_inv n l s : idle n l s → inv n (set_pc (outer l) s).
Proof.
  intros Hi. unfold outer. destruct (running l || needs_flush_or_write (active_buf_ l)) eqn:E; [by apply inner_inv|].
  apply orb_false_iff in E as [Er En]. pose proof (needs_false _ En) as [Ef Em]. destruct Hi. destruct id_taken0 as (done & Ht & Hw).
  constructor; cbn; try done; [by exists done|by right| | |].
  - intros _. split; [|done]. unfold running in Er. apply bool_decide_eq_false in Er. by destruct (state_ l).
  - intros i w Hi. destruct (id_waiters0 i w Hi) as ([Hl|[Hf _]] & H2 & H3); [|congruence]. split; [by left|done].
  - intros i w Hi Ha. specialize (id_asleep0 i w Hi Ha). congruence.
Qed.

(** At rest, the flusher has its hands free. *)
Lemma inv_idle n s : inv n s → pc s = Some FTest ∨ pc s = Some FWait → idle n (log s) s.
Proof.
  intros [] Hpc. assert (rest s = [] ∧ busy s = false) as [Hr Hb] by (unfold rest, busy; by destruct Hpc as [-> | ->]).
  destruct iv_taken0 as (done & Ht & Hw). rewrite Hr in Ht. constructor; try done.
  - by exists done.
  - destruct iv_flushing0 as [[r Hr']|]; [|done]. rewrite Hr' in Hpc. by destruct Hpc.
  - apply iv_some0. by destruct Hpc as [-> | ->].
  - intros i w Hi. destruct (iv_promised0 i w Hi) as ([Hl|[(r & Hp & _)|[Hf Hc]]] & H2 & H3); [by split; [left|]| |split; [right; split; [done|lia]|done]].
    rewrite Hp in Hpc. by destruct Hpc.
  - intros i w Hi Ha. destruct (iv_asleep0 i w Hi Ha); [congruence|done].
Qed.

Lemma idle_request n l s : idle n l s → idle n (request_flush l) s.
Proof.
  intros []. constructor; cbn; try done. intros i w Hi. destruct (id_waiters0 i w Hi) as (Hp & ?). split; [|done]. destruct Hp as [|[? ?]]; auto.
Qed.

Lemma inv_weaken n n' s : (n <= n')%nat → inv n s → inv n' s.
Proof.
  intros Hn []. constructor; try done; [lia|]. intros i w Hi. destruct (iv_promised0 i w Hi) as (H1 & H2 & H3). split_and!; [done|done|lia..].
Qed.

(** After [flush_count_] is incremented and all are notified. *)
Lemma end_idle n s :
  inv n s → pc s = Some FEnd → Z.of_nat (S n) < 2 ^ 64 →
  let l := log s in
  idle (S n) (mk (max_buffer_bytes_ l) (flush_count_ l +64 1) (active_buf_ l) (flushing_buf_ l) (state_ l) (moduleLoggerMap l))
    (set_waiters (notify_all (waiters s)) s).
Proof.
  intros [] Hpc Hn l. destruct iv_taken0 as (done & Ht & Hw). unfold rest in Ht. rewrite Hpc in Ht.
  assert (flush_count_ l +64 1 = flush_count_ l + 1) as Hc by (apply u64_small; unfold l; lia).
  assert (∀ i w, notify_all (waiters s) !! i = Some w → ∃ w0, waiters s !! i = Some w0 ∧ w = mkwaiter (orig w0) false (before w0)) as Hn0.
  { intros i w. unfold notify_all. rewrite lookup_fmap. intros (w0 & ? & ->)%fmap_Some. by exists w0. }
  constructor; cbn; rewrite ?Hc; try done.
  - by exists done.
  - destruct iv_flushing0 as [[r Hr']|]; [congruence|done].
  - apply iv_some0. congruence.
  - unfold l. lia.
  - intros i w (w0 & Hi & ->)%Hn0. destruct (iv_promised0 i w0 Hi) as (Hp & H2 & H3). cbn. split; [|lia].
    destruct Hp as [Hl|[(r & Hr & _)|[Hf Hc']]]; [by left|congruence|]. right. split; [done|]. unfold l. lia.
  - intros i w (w0 & Hi & ->)%Hn0. done.
Qed.

Lemma image_write_one msg l : (write_one msg l).1 = image msg ∧
  state_ (write_one msg l).2 = state_ l ∧ active_buf_ (write_one msg l).2 = active_buf_ l ∧
  flushing_buf_ (write_one msg l).2 = flushing_buf_ l ∧ flush_count_ (write_one msg l).2 = flush_count_ l ∧
  moduleLoggerMap l ⊆ moduleLoggerMap (write_one msg l).2 ∧ (∀ m f t x, image msg = CallWrite m f t x → m ∈ moduleLoggerMap (write_one msg l).2).
Proof.
  unfold write_one, image. destruct (LogText.FindModuleName _ _ _) as [text name]. cbn. destruct (decide (name ∈ moduleLoggerMap l)); cbn; split_and!;
    try done; [|set_solver|]; intros m f t x [= <- <- <- <-]; set_solver.
Qed.

Lemma work_inv n s msg r :
  inv n s → pc s = Some (FWork (msg :: r)) →
  let '(c, l) := write_one msg (log s) in inv n (mksys l (Some (FWork r)) (waiters s) (calls s ++ [c]) (taken s) (flushed s)).
Proof.
  intros [] Hpc. destruct (image_write_one msg (log s)) as (Ec & E1 & E2 & E3 & E4 & E5 & E6).
  destruct (write_one msg (log s)) as [c l]. cbn [fst snd] in *. subst c.
  assert (is_write (image msg)) as Hi by (unfold image; by destruct (LogText.FindModuleName _ _ _)).
  assert (writes [image msg] = [image msg]) as Hw1 by (unfold writes; by rewrite filter_cons, decide_True).
  assert (written (calls s ++ [image msg]) = S (written (calls s))) as Hw2 by (rewrite written_app, (written_writes [_]), Hw1; cbn; lia).
  destruct iv_taken0 as (done & Ht & Hw). unfold rest in Ht. rewrite Hpc in Ht. constructor; cbn; rewrite ?E1, ?E2, ?E3, ?E4; try done.
  - exists (done ++ [msg]). split; [by rewrite Ht, <- app_assoc|]. by rewrite writes_app, Hw, Hw1, fmap_app.
  - left. by eexists.
  - intros _. apply iv_some0. congruence.
  - intros m f t x [Hx|Hx]%elem_of_app; [apply E5; by eapply iv_modules0|]. apply list_elem_of_singleton in Hx. by eapply E6, eq_sym.
  - destruct iv_flushed0. split; [by apply covers_app|lia].
  - intros i w Hiw. destruct (iv_promised0 i w Hiw) as (Hp & ?). split; [|done]. destruct Hp as [|[(r' & H1 & H2 & H3 & H4)|[H1 H2]]]; [by left| |].
    + right; left. rewrite Hpc in H1. simplify_eq. exists r. cbn in *. rewrite E3, E4, Hw2. split_and!; [done|done|lia|done].
    + right; right. cbn. by rewrite E2, E4.
  - intros i w Hiw Ha. by left.
Qed.

Lemma end_of_round_inv n s :
  inv n s → pc s = Some (FWork []) →
  let l := log s in let f := flush (flushing_buf_ l) in
  inv n (mksys (set_flushing (clear (flushing_buf_ l)) l) (Some FEnd) (waiters s)
              (calls s ++ if f then CallFlush <$> moduleLoggerMap l else []) (taken s) (if f then written (calls s) else flushed s)).
Proof.
  intros [] Hpc l f. destruct iv_taken0 as (done & Ht & Hw). unfold rest in Ht. rewrite Hpc in Ht.
  assert (writes (if f then CallFlush <$> moduleLoggerMap l else []) = []) as Hf by (destruct f; [apply writes_flushes|done]).
  assert (written (calls s ++ if f then CallFlush <$> moduleLoggerMap l else []) = written (calls s)) as Hwr.
  { rewrite written_app, (written_writes (if f then _ else _)), Hf. cbn. lia. }
  destruct iv_flushed0 as [Hcov Hle].
  constructor; cbn; try done.
  - exists done. by rewrite writes_app, Hf, app_nil_r.
  - by right.
  - intros _. apply iv_some0. congruence.
  - intros m f' t x [Hx|Hx]%elem_of_app; [by eapply iv_modules0|]. destruct f; [|by apply elem_of_nil in Hx].
    by apply list_elem_of_fmap in Hx as (? & ? & _).
  - split; [|rewrite Hwr; destruct f; lia]. destruct f; [|by rewrite app_nil_r].
    exists (calls s), (moduleLoggerMap l), []. split_and!; [by rewrite app_nil_r|done|]. intros m f' t x Hx. by eapply iv_modules0.
  - intros i w Hi. destruct (iv_promised0 i w Hi) as (Hp & ?). split; [|done]. destruct Hp as [Hl|[(r' & H1 & H2 & H3 & H4)|[H1 H2]]].
    + left. cbn. destruct f; [lia|done].
    + left. cbn. rewrite Hpc in H1. simplify_eq. fold l in H2. fold f in H2. rewrite H2. cbn in H3. lia.
    + by right; right.
  - intros i w Hi Ha. by left.
Qed.

Lemma flush_loop_inv n i o m s :
  inv n s → (m <= length (taken s))%nat → 0 <= o <= Z.of_nat n → state_ (log s) ≠ INITTED →
  promised (set_log (request_flush (log s)) s) (mkwaiter o true m) → inv n (flush_loop i o m s).
Proof.
  intros Hinv Hm Ho Hst Hprom. pose proof Hinv as []. unfold flush_loop. destruct (flush_pending o (log s)) eqn:E.
  - apply andb_true_iff in E as [_ E]. apply bool_decide_eq_true in E. constructor; cbn; try done.
    + intros Hpc. by destruct (iv_none0 Hpc) as [Hs _].
    + intros Hpc. destruct (iv_exit0 Hpc). congruence.
    + intros j w. rewrite lookup_insert. case_decide; [intros [= <-]; done|]. intros Hj. destruct (iv_promised0 j w Hj) as (Hp & ?).
      split; [|done]. by apply (promised_mono s).
    + intros j w _ _. by right.
  - constructor; cbn; try done.
    + intros Hpc. by destruct (iv_none0 Hpc) as [Hs _].
    + intros j w. rewrite lookup_delete. case_decide; [done|]. apply iv_promised0.
    + intros j w. rewrite lookup_delete. case_decide; [done|]. apply iv_asleep0.
Qed.

Lemma taken_inv n force timestamp m s :
  inv n s →
  let '(msg, l) := Write force timestamp m (log s) in
  inv n (mksys l (pc s) (waiters s) (calls s) (taken s ++ option_list msg) (flushed s)).
Proof.
  intros Hinv. unfold Write.
  assert (inv n (mksys (log s) (pc s) (waiters s) (calls s) (taken s ++ option_list None) (flushed s))) as Hsame.
  { cbn. rewrite app_nil_r. by destruct s. }
  destruct (BufferFull _ _); [done|]. destruct (negb (running (log s))) eqn:Er; [done|]. apply negb_false_iff, bool_decide_eq_true in Er.
  pose proof Hinv as []. destruct iv_taken0 as (done & Ht & Hw). unfold rest in Ht. constructor; cbn; try done.
  - exists done. split; [|done]. rewrite Ht, <- !app_assoc. done.
  - intros Hpc. destruct (iv_none0 Hpc). congruence.
  - intros Hpc. destruct (iv_exit0 Hpc). congruence.
  - intros i w Hi. destruct (iv_promised0 i w Hi) as (Hp & H2 & H3). split_and!; [|rewrite length_app; lia|lia..].
    eapply (promised_mono s); try done. cbn. by intros ->.
  - intros i w Hi Ha. destruct (iv_asleep0 i w Hi Ha) as [|Hf]; [by left|right; by rewrite Hf].
Qed.

Lemma logger_step_inv n x s s' : inv n s → step x s = Some s' → Z.of_nat (S n) < 2 ^ 64 → inv (S n) s'.
Proof.
  intros Hinv Hs Hn. assert (inv (S n) s) as Hinv' by (eapply inv_weaken; [|done]; lia). pose proof Hinv' as [].
  destruct x as [| |force timestamp m|i|i|timeout]; cbn [step] in Hs.
  - destruct (decide _) as [Hst|]; [|done]. simplify_eq.
    assert (pc s = None) as Hpc by (apply dec_stable; intros Hp; by apply iv_some0).
    destruct (iv_none0 Hpc) as (_ & Ht & Hw & Ha). destruct iv_taken0 as (done & Hd & Hwr). unfold rest in Hd. rewrite Hpc, Ha in Hd.
    constructor; cbn; rewrite ?Hw, ?Ha; try done; [by exists done|]. destruct iv_flushing0 as [[r Hr]|]; [congruence|by right].
  - destruct (running (log s)) eqn:Er; [|done]. apply bool_decide_eq_true in Er. simplify_eq. constructor; cbn; try done.
    + intros Hpc. destruct (iv_none0 Hpc). congruence.
    + intros Hpc. destruct (iv_exit0 Hpc). congruence.
  - pose proof (taken_inv (S n) force timestamp m s Hinv') as Hw. destruct (Write _ _ _ _) as [msg l]. by simplify_eq.
  - destruct (waiters s !! i); [done|]. destruct (running (log s)) eqn:Er; [|by simplify_eq]. simplify_eq.
    apply flush_loop_inv; [done|done|lia| |right; right; cbn; split; [done|lia]]. apply bool_decide_eq_true in Er. congruence.
  - destruct (waiters s !! i) as [w|] eqn:Hw; [|done]. simplify_eq. destruct (iv_promised0 i w Hw) as (Hp & H2 & H3).
    apply flush_loop_inv; [done|done|done| |].
    + intros Hst. assert (pc s = None) as Hpc by (apply dec_stable; intros Hp'; by apply iv_some0).
      destruct (iv_none0 Hpc) as (_ & _ & He & _). by rewrite He, lookup_empty in Hw.
    + eapply promised_mono; [exact Hp|done..].
  - unfold flusher_step in Hs. destruct (pc s) as [[| |[|msg r]| |]|] eqn:Hpc; simplify_eq.
    + apply outer_inv, inv_idle; auto.
    + apply inner_inv. destruct timeout; [apply idle_request|]; apply inv_idle; auto.
    + by apply end_of_round_inv.
    + pose proof (work_inv (S n) s msg r Hinv' Hpc) as Hw. destruct (write_one _ _) as [c l]. by simplify_eq.
    + apply outer_inv. by apply end_idle.
Qed.

Lemma logger_run_inv m xs s : run step xs (initial m) = Some s → Z.of_nat (length xs) < 2 ^ 64 → inv (length xs) s.
Proof.
  revert s. induction xs as [|x xs IH] using rev_ind; intros s Hr Hn; [cbn in Hr; simplify_eq; apply logger_initial_inv|].
  rewrite run_snoc in Hr. destruct (run step xs (initial m)) as [s1|]; [|done]. rewrite length_app in *. cbn [length] in *.
  replace (length xs + 1)%nat with (S (length xs)) in * by lia. eapply logger_step_inv; [apply IH; [done|lia]|exact Hr|done].
Qed.

(** *** The flusher on its own *)
Definition alone (k : nat) : list label := replicate k (LRun false).

Lemma alone_S k s : run step (alone (S k)) s = flusher_step false s ≫= run step (alone k).
Proof. done. Qed.

(** A round ends with the messages written and everybody awake. *)
Lemma alone_round r s :
  pc s = Some (FWork r) →
  ∃ s', run step (alone (length r + 2)) s = Some s' ∧ waiters s' = notify_all (waiters s) ∧ state_ (log s') = state_ (log s) ∧
    (needs_flush_or_write (active_buf_ (log s)) = false → state_ (log s) = STOPPED → pc s' = Some FExit) ∧
    (needs_flush_or_write (active_buf_ (log s)) = true →
       pc s' = Some (FWork (messages (active_buf_ (log s)))) ∧ active_buf_ (log s') = new_Buffer).
Proof.
  revert s. induction r as [|msg r IH]; intros s Hpc.
  - cbn [length Nat.add]. rewrite !alone_S. unfold flusher_step at 1. rewrite Hpc. cbn [mbind option_bind]. rewrite alone_S. cbn [flusher_step pc mbind option_bind].
    cbn [run alone replicate]. eexists. split; [done|]. split; [done|]. cbn [log set_waiters waiters]. unfold outer, inner, running. cbn.
    split_and!.
    + repeat case_match; done.
    + intros -> ->. done.
    + intros ->. rewrite orb_true_r. done.
  - cbn [length Nat.add]. rewrite alone_S. unfold flusher_step at 1. rewrite Hpc.
    destruct (image_write_one msg (log s)) as (_ & E1 & E2 & E3 & _). destruct (write_one msg (log s)) as [c l]. cbn [mbind option_bind fst snd] in *.
    destruct (IH (mksys l (Some (FWork r)) (waiters s) (calls s ++ [c]) (taken s) (flushed s)) eq_refl) as (s' & H1 & H2 & H3 & H4 & H5).
    cbn in H2, H3, H4, H5. exists s'. rewrite E1, E2 in *. split_and!; try done; tauto.
Qed.

Lemma notify_all_awake ws i w : ws !! i = Some w → notify_all ws !! i = Some (mkwaiter (orig w) false (before w)).
Proof. intros Hi. unfold notify_all. by rewrite lookup_fmap, Hi. Qed.

(** From a state in which a flush is wanted to the end of the round. *)
Lemma alone_needed s :
  pc s = Some FTest ∨ pc s = Some FWait → needs_flush_or_write (active_buf_ (log s)) = true →
  ∃ s1, run step (alone 1) s = Some s1 ∧ pc s1 = Some (FWork (messages (active_buf_ (log s)))) ∧ waiters s1 = waiters s ∧
    state_ (log s1) = state_ (log s) ∧ active_buf_ (log s1) = flushing_buf_ (log s).
Proof.
  intros Hpc Hn. destruct Hpc as [Hpc|Hpc]; rewrite alone_S; unfold flusher_step; rewrite Hpc; cbn [mbind option_bind run alone replicate];
    eexists; (split; [done|]); unfold outer, inner; rewrite Hn, ?orb_true_r; cbn; done.
Qed.

(** A flush is always answered.  Whatever the threads do, a thread that
    sleeps in [Flush] is woken if only the flusher is allowed to run: it is not
    asleep for good, it has not returned, and it needs no more steps than there
    are messages in its buffers and three. *)
Theorem async_logger_flush_answered m xs s i w :
  run step xs (initial m) = Some s → Z.of_nat (length xs) < 2 ^ 64 → waiters s !! i = Some w → asleep w = true →
  ∃ k s', (k <= length (taken s) + 3)%nat ∧ run step (alone k) s = Some s' ∧ waiters s' !! i = Some (mkwaiter (orig w) false (before w)).
Proof.
  intros Hr Hn Hw Ha. pose proof (logger_run_inv m xs s Hr Hn) as [].
  destruct iv_taken0 as (done & Ht & Hwr). apply (f_equal length) in Ht. rewrite !length_app in Ht.
  assert (∀ r, pc s = Some (FWork r) → ∃ k s', (k <= length (taken s) + 3)%nat ∧ run step (alone k) s = Some s' ∧
    waiters s' !! i = Some (mkwaiter (orig w) false (before w))) as Hwork.
  { intros r Hpc. destruct (alone_round r s Hpc) as (s' & H1 & H2 & _). exists (length r + 2)%nat, s'. unfold rest in Ht. rewrite Hpc in Ht.
    split_and!; [lia|done|]. rewrite H2. by apply notify_all_awake. }
  assert (flush (active_buf_ (log s)) = true → pc s = Some FTest ∨ pc s = Some FWait → ∃ k s', (k <= length (taken s) + 3)%nat ∧
    run step (alone k) s = Some s' ∧ waiters s' !! i = Some (mkwaiter (orig w) false (before w))) as Hrest.
  { intros Hf Hpc. assert (needs_flush_or_write (active_buf_ (log s)) = true) as Hneed by (unfold needs_flush_or_write; by rewrite Hf).
    destruct (alone_needed s Hpc Hneed) as (s1 & R1 & P1 & W1 & _ & _). destruct (alone_round _ s1 P1) as (s2 & R2 & W2 & _).
    exists (1 + (length (messages (active_buf_ (log s))) + 2))%nat, s2. split_and!; [lia| |rewrite W2, W1; by apply notify_all_awake].
    unfold alone. rewrite replicate_add, run_app. change (replicate 1 (LRun false)) with (alone 1). rewrite R1. cbn. done. }
  destruct (iv_asleep0 i w Hw Ha) as [Hb|Hf].
  - unfold busy in Hb. destruct (pc s) as [[| |r| |]|] eqn:Hpc; try done; [by eapply Hwork|].
    exists 1%nat. eexists. split_and!; [lia|rewrite alone_S; unfold flusher_step; rewrite Hpc; cbn; done|]. cbn. by apply notify_all_awake.
  - destruct (pc s) as [[| |r| |]|] eqn:Hpc.
    + by apply Hrest; [|left].
    + by apply Hrest; [|right].
    + by eapply Hwork.
    + exists 1%nat. eexists. split_and!; [lia|rewrite alone_S; unfold flusher_step; rewrite Hpc; cbn; done|]. cbn. by apply notify_all_awake.
    + destruct (iv_exit0 eq_refl) as [_ Hno%needs_false]. destruct Hno. congruence.
    + destruct (iv_none0 eq_refl) as (_ & _ & He & _). by rewrite He, lookup_empty in Hw.
Qed.

(** C17: what is logged is written, once and in order.  Whatever the threads do,
    the writes to the modules' files are those of the first messages that were
    taken, in the order they were taken in, each without its tag and to the file
    of its module; what is missing is still in the buffers.  When the flusher has
    returned, after [Stop], nothing is missing and the buffers are empty, as
    [Stop] checks. *)
Theorem async_logger_delivers m xs s :
  run step xs (initial m) = Some s → Z.of_nat (length xs) < 2 ^ 64 →
  writes (calls s) = image <$> take (written (calls s)) (taken s) ∧
  drop (written (calls s)) (taken s) = rest s ++ messages (active_buf_ (log s)) ∧
  (pc s = Some FExit →
     state_ (log s) = STOPPED ∧ writes (calls s) = image <$> taken s ∧
     messages (active_buf_ (log s)) = [] ∧ messages (flushing_buf_ (log s)) = []).
Proof.
  intros Hr Hn. pose proof (logger_run_inv m xs s Hr Hn) as []. destruct iv_taken0 as (done & Ht & Hw).
  rewrite (written_done s done Hw), Ht, take_app_length, drop_app_length. split_and!; [done|done|].
  intros Hpc. destruct (iv_exit0 Hpc) as [Hst [Hf Hm]%needs_false]. unfold rest. rewrite Hpc, Hm. cbn. rewrite app_nil_r.
  split_and!; [done|done|done|]. destruct iv_flushing0 as [[r Hr']|Hb]; [congruence|by rewrite Hb].
Qed.

(** What a call of [Flush] is owed. *)
Definition owed (i n : nat) (s : sys) : Prop :=
  (∃ w, waiters s !! i = Some w ∧ before w = n) ∨ (n <= flushed s)%nat ∨ state_ (log s) = STOPPED.

Lemma step_flushed k x s s' : inv k s → step x s = Some s' → (flushed s <= flushed s')%nat.
Proof.
  intros []. destruct x as [| |force timestamp msg|j|j|timeout]; cbn [step]; intros Hs.
  - destruct (decide _); by simplify_eq.
  - destruct (running _); by simplify_eq.
  - destruct (Write _ _ _ _); by simplify_eq.
  - destruct (waiters s !! j); [done|]. destruct (running _); simplify_eq; [|done]. unfold flush_loop. by destruct (flush_pending _ _).
  - destruct (waiters s !! j); [|done]. simplify_eq. unfold flush_loop. by destruct (flush_pending _ _).
  - unfold flusher_step in Hs. destruct (pc s) as [[| |[|msg r]| |]|]; simplify_eq; try done.
    + cbn. destruct iv_flushed0. destruct (flush (flushing_buf_ (log s))); lia.
    + destruct (write_one _ _). by simplify_eq.
Qed.

Lemma flush_loop_other i j o n s : i ≠ j → waiters (flush_loop j o n s) !! i = waiters s !! i.
Proof. intros Hne. unfold flush_loop. destruct (flush_pending _ _); cbn; [by rewrite lookup_insert_ne|by rewrite lookup_delete_ne]. Qed.

(** The loop keeps its promise: it is left when the count is reached. *)
Lemma flush_loop_owed k i n w s :
  inv k s → Z.of_nat k + 2 < 2 ^ 64 → waiters s !! i = Some w → before w = n → owed i n (flush_loop i (orig w) (before w) s).
Proof.
  intros Hinv Hk Hw Hb. pose proof Hinv as []. destruct (iv_promised0 i w Hw) as (Hp & H2 & H3). unfold flush_loop, owed.
  destruct (flush_pending (orig w) (log s)) eqn:E; cbn; [left; eexists; by rewrite lookup_insert_eq|right].
  unfold flush_pending in E. apply andb_false_iff in E as [E|E].
  - left. rewrite u64_small in E by lia. apply Z.ltb_ge in E. subst n. destruct Hp as [|[(r & _ & _ & _ & ?)|[_ ?]]]; [done|lia|lia].
  - right. unfold running in E. apply bool_decide_eq_false in E. destruct (state_ (log s)) eqn:Est; [|done|done].
    assert (pc s = None) as Hpc by (apply dec_stable; intros Hp'; by apply iv_some0). destruct (iv_none0 Hpc) as (_ & _ & He & _).
    by rewrite He, lookup_empty in Hw.
Qed.

Lemma step_owed k i n x s s' :
  inv k s → Z.of_nat k + 2 < 2 ^ 64 → owed i n s → step x s = Some s' → owed i n s'.
Proof.
  intros Hinv Hk Ho Hs. pose proof (step_flushed k x s s' Hinv Hs) as Hf.
  assert (∀ s', step x s = Some s' → state_ (log s) = STOPPED → state_ (log s') = STOPPED) as Hst.
  { clear s' Hs Hf. intros s' Hs Hst. assert (running (log s) = false) as Hnr by (unfold running; by rewrite Hst).
    destruct x as [| |force timestamp msg|j|j|timeout]; cbn [step] in Hs; rewrite ?Hnr, ?Hst in Hs; try done.
    - assert (Write force timestamp msg (log s) = (None, log s)) as E by (unfold Write, running; rewrite Hst; by destruct (BufferFull _ _)).
      rewrite E in Hs. by simplify_eq.
    - destruct (waiters s !! j); [done|]. by simplify_eq.
    - destruct (waiters s !! j); [|done]. simplify_eq. unfold flush_loop, flush_pending, running. rewrite Hst. by rewrite andb_false_r.
    - unfold flusher_step in Hs. destruct (pc s) as [[| |[|msg r]| |]|]; simplify_eq; cbn; try done.
      + unfold outer, inner. by repeat (case_match; cbn).
      + unfold inner. by repeat (case_match; cbn).
      + destruct (image_write_one msg (log s)) as (_ & E & _). destruct (write_one _ _). simplify_eq. cbn in *. congruence.
      + unfold outer, inner. by repeat (case_match; cbn). }
  destruct Ho as [(w & Hw & Hb)|[Hl|Hl]]; [|right; left; lia|right; right; by eapply Hst].
  destruct x as [| |force timestamp msg|j|j|timeout]; cbn [step] in Hs.
  - destruct (decide _); [|done]. simplify_eq. left. by exists w.
  - destruct (running _); [|done]. simplify_eq. left. by exists w.
  - destruct (Write _ _ _ _). simplify_eq. left. by exists w.
  - destruct (waiters s !! j) eqn:Hj; [done|]. assert (i ≠ j) by congruence.
    destruct (running _); simplify_eq; left; exists w; [|done]. by rewrite flush_loop_other.
  - destruct (waiters s !! j) as [wj|] eqn:Hj; [|done]. simplify_eq. destruct (decide (i = j)) as [<-|Hne].
    + rewrite Hw in Hj. simplify_eq. by eapply flush_loop_owed.
    + left. exists w. by rewrite flush_loop_other.
  - left. unfold flusher_step in Hs. destruct (pc s) as [[| |[|msg r]| |]|]; simplify_eq; try (by exists w).
    + destruct (write_one _ _). simplify_eq. by exists w.
    + eexists. split; [cbn; by apply notify_all_awake|done].
Qed.

(** [Flush] does what it is for.  A thread calls [Flush] while the logger
    runs; when it has returned, and the logger has not been stopped, every
    message taken before the call has been written, and since then every module
    written to has been flushed - whatever else was logged, and whoever else
    flushed, in between. *)
Theorem async_logger_flush m xs i ys s1 s2 s3 :
  run step xs (initial m) = Some s1 → running (log s1) = true → step (LFlush i) s1 = Some s2 → run step ys s2 = Some s3 →
  Z.of_nat (length xs + length ys) + 3 < 2 ^ 64 → waiters s3 !! i = None → state_ (log s3) ≠ STOPPED →
  ∃ n, (length (taken s1) <= n)%nat ∧ covers n (calls s3).
Proof.
  intros Hr1 Hrun Hs2 Hr3 Hlen Hret Hst. pose proof (logger_run_inv m xs s1 Hr1 ltac:(lia)) as Hinv1.
  pose proof (logger_step_inv _ _ _ _ Hinv1 Hs2 ltac:(lia)) as Hinv2.
  assert (owed i (length (taken s1)) s2) as Ho2.
  { cbn [step] in Hs2. destruct (waiters s1 !! i); [done|]. rewrite Hrun in Hs2. simplify_eq. unfold flush_loop, owed.
    assert (flush_pending (flush_count_ (log s1)) (log s1) = true) as ->; [|left; eexists; cbn; by rewrite lookup_insert_eq].
    unfold flush_pending. rewrite Hrun, andb_true_r. destruct Hinv1. rewrite u64_small by lia. apply Z.ltb_lt. lia. }
  assert (inv (S (length xs) + length ys) s3 ∧ owed i (length (taken s1)) s3) as [Hinv3 Ho3].
  { clear Hret Hst. revert s3 Hr3. induction ys as [|y ys IH] using rev_ind; intros s3 Hr3.
    - cbn in Hr3. simplify_eq. by rewrite Nat.add_0_r.
    - rewrite run_snoc in Hr3. rewrite length_app in *. cbn [length] in *. destruct (run step ys s2) as [s|]; [|done].
      destruct (IH ltac:(lia) s eq_refl) as [Hi Ho]. replace (S (length xs) + (length ys + 1))%nat with (S (S (length xs) + length ys)) by lia.
      split; [eapply logger_step_inv; [done|exact Hr3|lia]|]. by eapply (step_owed (S (length xs) + length ys)); [|lia| |]. }
  destruct Ho3 as [(w & Hw & _)|[Hl|]]; [congruence| |done]. exists (flushed s3). split; [done|]. apply Hinv3.
Qed.

(** Stopped and in its last round. *)
Lemma stop_from s a s1 n r :
  (a + length r + 2 <= n)%nat → run step (alone a) s = Some s1 →
  pc s1 = Some (FWork r) ∧ state_ (log s1) = STOPPED ∧ active_buf_ (log s1) = new_Buffer →
  ∃ k s', (k <= n)%nat ∧ run step (alone k) s = Some s' ∧ pc s' = Some FExit.
Proof.
  intros Hn R1 (P1 & S1 & A1). destruct (alone_round r s1 P1) as (s2 & R2 & _ & _ & Hf & _).
  exists (a + (length r + 2))%nat, s2. split_and!; [lia| |apply Hf; [by rewrite A1|done]].
  unfold alone. rewrite replicate_add, run_app. fold (alone a) (alone (length r + 2)). by rewrite R1.
Qed.

(** After [Stop] the flusher returns.  If only the flusher runs, it returns
    after at most as many steps as there are messages in its buffers and six,
    having written everything. *)
Theorem async_logger_stop m xs s :
  run step xs (initial m) = Some s → Z.of_nat (length xs) < 2 ^ 64 → state_ (log s) = STOPPED →
  ∃ k s', (k <= length (taken s) + 6)%nat ∧ run step (alone k) s = Some s' ∧ pc s' = Some FExit.
Proof.
  intros Hr Hn Hst. pose proof (logger_run_inv m xs s Hr Hn) as []. destruct iv_taken0 as (done & Ht & _). apply (f_equal length) in Ht. rewrite !length_app in Ht.
  destruct (pc s) as [[| |r| |]|] eqn:Hpc.
  - destruct (needs_flush_or_write (active_buf_ (log s))) eqn:Hneed.
    + eapply (stop_from s 1 _ _ (messages (active_buf_ (log s)))); [lia|rewrite alone_S; unfold flusher_step; rewrite Hpc; reflexivity|].
      unfold outer, inner. rewrite Hneed, orb_true_r. cbn. destruct iv_flushing0 as [[r Hr']|Hb]; [done|]. by rewrite Hb.
    + exists 1%nat. eexists. split; [lia|]. rewrite alone_S. unfold flusher_step. rewrite Hpc. split; [reflexivity|].
      cbn. unfold outer, running. by rewrite Hneed, Hst.
  - eapply (stop_from s 1 _ _ (messages (active_buf_ (log s)))); [lia|rewrite alone_S; unfold flusher_step; rewrite Hpc; reflexivity|].
    unfold inner, running. rewrite Hst, andb_false_r. cbn. destruct iv_flushing0 as [[r Hr']|Hb]; [done|]. by rewrite Hb.
  - unfold rest in Ht. rewrite Hpc in Ht. destruct (needs_flush_or_write (active_buf_ (log s))) eqn:Hneed.
    + destruct (alone_round r s Hpc) as (s1 & R1 & _ & S1 & _ & Hf). destruct (Hf Hneed) as [P1 A1].
      eapply (stop_from s (length r + 2) _ _ (messages (active_buf_ (log s)))); [lia|exact R1|]. rewrite P1, A1, S1. done.
    + destruct (alone_round r s Hpc) as (s1 & R1 & _ & _ & Hf & _). exists (length r + 2)%nat, s1. split_and!; [lia|done|by apply Hf].
  - destruct (needs_flush_or_write (active_buf_ (log s))) eqn:Hneed.
    + eapply (stop_from s 1 _ _ (messages (active_buf_ (log s)))); [lia|rewrite alone_S; unfold flusher_step; rewrite Hpc; reflexivity|].
      unfold outer, inner. cbn. rewrite Hneed, orb_true_r. cbn. destruct iv_flushing0 as [[r Hr']|Hb]; [done|]. by rewrite Hb.
    + exists 1%nat. eexists. split; [lia|]. rewrite alone_S. unfold flusher_step. rewrite Hpc. split; [reflexivity|].
      cbn. unfold outer, running. cbn. by rewrite Hneed, Hst.
  - exists 0%nat, s. split_and!; [lia|done|done].
  - destruct (iv_none0 eq_refl). congruence.
Qed.
End logger.
End AsyncLogger.

(** ** Witnesses: two modules, a flush, a stop *)
Module LoggerSample.
Import AsyncLogger.

Definition text (module c : Z) : list Z := [73; 91; module; 93; c].
Definition lstep := step 48 [103].
Definition lrun := run lstep.

(** Two messages are logged, a thread asks for a flush, a third message is
    logged while the flusher is at work. *)
Definition before_flush : list label := [LStart; LWrite false 5 (text 65 1); LRun false; LWrite false 6 (text 66 2)].
Definition after_flush : list label :=
  [LRun false; LWrite false 7 [69; 3]; LRun false; LRun false; LRun false; LWake 0; LRun false; LRun false; LRun false; LRun false; LWake 0].

Definition s1 : sys := default (initial 0) (lrun before_flush (initial 0)).
Definition s2 : sys := default (initial 0) (lstep (LFlush 0) s1).
Definition s3 : sys := default (initial 0) (lrun after_flush s2).
Definition s4 : sys := default (initial 0) (lstep LStop s3).
Definition whole : list label := before_flush ++ LFlush 0 :: after_flush.

Lemma async_logger_delivers_witness :
  writes (calls s3) = image [103] <$> take 3 (taken s3) ∧ (image [103] <$> taken s3) !! 2%nat = Some (CallWrite [103] true 7 [69; 3]).
Proof.
  split; [|vm_compute; reflexivity].
  destruct (async_logger_delivers 48 [103] 0 whole s3) as [H _]; [vm_compute; reflexivity|vm_compute; reflexivity|].
  etransitivity; [exact H|]. vm_compute. reflexivity.
Defined.

Lemma async_logger_flush_witness : ∃ n, (2 <= n)%nat ∧ covers n (calls s3).
Proof.
  apply (async_logger_flush 48 [103] 0 before_flush 0 after_flush s1 s2 s3); try (vm_compute; reflexivity).
  vm_compute. discriminate.
Defined.

Lemma async_logger_flush_answered_witness :
  ∃ k s', (k <= 5)%nat ∧ lrun (alone k) s2 = Some s' ∧ waiters s' !! 0%nat = Some (mkwaiter 0 false 2).
Proof.
  apply (async_logger_flush_answered 48 [103] 0 (before_flush ++ [LFlush 0]) s2 0 (mkwaiter 0 true 2)); vm_compute; reflexivity.
Defined.

Lemma async_logger_stop_witness : ∃ k s', (k <= 9)%nat ∧ lrun (alone k) s4 = Some s' ∧ pc s' = Some FExit.
Proof. apply (async_logger_stop 48 [103] 0 (whole ++ [LStop]) s4); vm_compute; reflexivity. Defined.
End LoggerSample.
