(* ===== verification/LogFile.v ===== *)
(** * Log files ([cyber/logger/log_file_object.cc], [cyber/logger/logger.cc])

    [LogFileObject] writes the messages of a module to a file and starts another
    one when it has become too long.  What the operating system answers is an
    argument ([env]): the clock, the local time, whether a file whose name is free
    can be created, whether the disk is full.  A name that one of the log files
    has is refused ([O_EXCL]).  The bytes given to a [FILE] count as its contents,
    flushed or not. *)

From S2P Require Import Prelude Logger.
From stdpp Require Import pretty.

Local Open Scope Z_scope.
Local Open Scope cyber_scope.

Module LogFileObject.
Section logfile.
(** [MaxLogSize()], in MiB. *)
Context (max_log_size_flag : Z).

Abbreviation bytes := (list Z).

Definition kRolloverAttemptFrequency : Z := 0x20.
Definition MaxLogSize : Z := if 0 <? max_log_size_flag then max_log_size_flag else 1.

Inductive severity := INFO | WARNING | ERROR | FATAL.
Definition UC_name (s : severity) : bytes :=
  string_bytes (match s with INFO => "INFO" | WARNING => "WARNING" | ERROR => "ERROR" | FATAL => "FATAL" end).
Definition LC_name (s : severity) : bytes :=
  string_bytes (match s with INFO => "info" | WARNING => "warning" | ERROR => "error" | FATAL => "fatal" end).

Record t := mk {
  base_filename_ : bytes;
  base_filepath_ : bytes;
  symlink_basename_ : bytes;
  filename_extension_ : bytes;
  file_ : option nat;
  severity_ : severity;
  bytes_since_flush_ : Z;
  dropped_mem_length_ : Z;
  file_length_ : Z;
  rollover_attempt_ : Z;
  next_flush_time_ : Z
}.

(** The log files in the order they were created in, with their names; the
    symbolic links (a link's name ends in letters, a file's in digits: they do
    not clash); the global [stop_writing]. *)
Record world := mkworld { files : list (bytes * bytes); links : gmap bytes bytes; stop_writing : bool }.

Record tm := mktm { year : Z; mon : Z; mday : Z; hour : Z; min : Z; sec : Z }.
Record env := mkenv {
  pid_changed : bool;
  local : tm;
  main_pid : Z;
  host_name : bytes;
  dirs : list bytes;
  opens : bytes → bool;
  header_full : option nat;
  disk_full : option nat;
  now : Z
}.

Definition LogFileObject (s : severity) (base_filename : bytes) : t :=
  mk base_filename [] (string_bytes "UNKNOWN") [] None s 0 0 0 (kRolloverAttemptFrequency - 1) 0.

Definition set_file (f : option nat) (o : t) : t :=
  mk (base_filename_ o) (base_filepath_ o) (symlink_basename_ o) (filename_extension_ o) f (severity_ o)
    (bytes_since_flush_ o) (dropped_mem_length_ o) (file_length_ o) (rollover_attempt_ o) (next_flush_time_ o).
Definition set_rollover (n : Z) (o : t) : t :=
  mk (base_filename_ o) (base_filepath_ o) (symlink_basename_ o) (filename_extension_ o) (file_ o) (severity_ o)
    (bytes_since_flush_ o) (dropped_mem_length_ o) (file_length_ o) n (next_flush_time_ o).
Definition set_lengths (since dropped len : Z) (o : t) : t :=
  mk (base_filename_ o) (base_filepath_ o) (symlink_basename_ o) (filename_extension_ o) (file_ o) (severity_ o)
    since dropped len (rollover_attempt_ o) (next_flush_time_ o).
Definition set_path (p : bytes) (o : t) : t :=
  mk (base_filename_ o) p (symlink_basename_ o) (filename_extension_ o) (file_ o) (severity_ o)
    (bytes_since_flush_ o) (dropped_mem_length_ o) (file_length_ o) (rollover_attempt_ o) (next_flush_time_ o).
Definition set_names (base symlink ext : bytes) (o : t) : t :=
  mk base (base_filepath_ o) symlink ext (file_ o) (severity_ o)
    (bytes_since_flush_ o) (dropped_mem_length_ o) (file_length_ o) (rollover_attempt_ o) (next_flush_time_ o).

(** A new name: the old file is closed. *)
Definition forget_file (o : t) : t :=
  match file_ o with None => o | Some _ => set_rollover (kRolloverAttemptFrequency - 1) (set_file None o) end.
Definition SetBasename (basename : bytes) (o : t) : t :=
  if decide (base_filename_ o = basename) then o
  else let o := forget_file o in set_names basename (symlink_basename_ o) (filename_extension_ o) o.
Definition SetExtension (ext : bytes) (o : t) : t :=
  if decide (filename_extension_ o = ext) then o
  else let o := forget_file o in set_names (base_filename_ o) (symlink_basename_ o) ext o.
Definition SetSymlinkBasename (symlink_basename : bytes) (o : t) : t :=
  set_names (base_filename_ o) symlink_basename (filename_extension_ o) o.

Definition FlushUnlocked (now : Z) (o : t) : t :=
  let since := match file_ o with Some _ => 0 | None => bytes_since_flush_ o end in
  mk (base_filename_ o) (base_filepath_ o) (symlink_basename_ o) (filename_extension_ o) (file_ o) (severity_ o)
    since (dropped_mem_length_ o) (file_length_ o) (rollover_attempt_ o) (i64 (now + 2000000)).
Definition LogSize (o : t) : Z := file_length_ o.

(** [basename(3)] and [dirname(3)] of a path that does not end in a slash. *)
Definition slash : Z := 47.
Fixpoint split_path (p : bytes) : option (bytes * bytes) :=
  match p with
  | [] => None
  | c :: p =>
      match split_path p with
      | Some (d, b) => Some (c :: d, b)
      | None => if c =? slash then Some ([], p) else None
      end
  end.
Fixpoint strip_slashes (d : bytes) : bytes :=
  match d with
  | [] => []
  | c :: d => match strip_slashes d with [] => if c =? slash then [] else [c] | d => c :: d end
  end.
Definition basename (p : bytes) : bytes := match split_path p with Some (_, b) => b | None => p end.
Definition dirname (p : bytes) : bytes :=
  match split_path p with
  | None => string_bytes "."
  | Some (d, _) => match strip_slashes d with [] => [slash] | d => d end
  end.

Definition link_path (filename : bytes) (o : t) : bytes :=
  let link := symlink_basename_ o ++ string_bytes "." ++ UC_name (severity_ o) in
  if decide (dirname filename = string_bytes ".") then link else dirname filename ++ [slash] ++ link.

Definition CreateLogfile (e : env) (time_pid_string : bytes) (o : t) (w : world) : bool * t * world :=
  let filename := base_filepath_ o ++ filename_extension_ o ++ time_pid_string in
  if bool_decide (filename ∈ (files w).*1) || negb (opens e filename) then (false, o, w)
  else
    let ls := if decide (symlink_basename_ o = []) then links w else <[link_path filename o := basename filename]> (links w) in
    (true, set_file (Some (length (files w))) o, mkworld (files w ++ [(filename, [])]) ls (stop_writing w)).

(** [for (dir in log_dirs)] *)
Fixpoint create_in (e : env) (ds : list bytes) (stripped time_pid : bytes) (o : t) (w : world) : bool * t * world :=
  match ds with
  | [] => (false, o, w)
  | d :: ds =>
      let '(ok, o, w) := CreateLogfile e time_pid (set_path (d ++ [slash] ++ stripped) o) w in
      if ok : bool then (true, o, w) else create_in e ds stripped time_pid o w
  end.

Definition number (n : Z) : bytes := string_bytes (pretty n).
Definition setw2 (n : Z) : bytes := let s := number n in replicate (2 - length s) 48 ++ s.

(** The first three fields are those of [struct tm], counted from 1900 and 0. *)
Definition time_pid_string (e : env) : bytes :=
  let t := local e in
  number (1900 + year t) ++ setw2 (1 + mon t) ++ setw2 (mday t) ++ string_bytes "-" ++ setw2 (hour t) ++ setw2 (min t) ++
  setw2 (sec t) ++ string_bytes "." ++ number (main_pid e).
Definition file_header_string (e : env) : bytes :=
  let t := local e in
  string_bytes "Log file created at: " ++ number (1900 + year t) ++ string_bytes "/" ++ setw2 (1 + mon t) ++ string_bytes "/" ++
  setw2 (mday t) ++ string_bytes " " ++ setw2 (hour t) ++ string_bytes ":" ++ setw2 (min t) ++ string_bytes ":" ++ setw2 (sec t) ++ [10] ++
  string_bytes "Running on machine: " ++ host_name e ++ [10] ++
  string_bytes "Log line format: [IWEF]mmdd hh:mm:ss.uuuuuu " ++ string_bytes "threadid file:line] msg" ++ [10].

(** [fwrite] on [file_]: [n] bytes arrive when the disk is full. *)
Definition fwrite (full : option nat) (data : bytes) (f : nat) (w : world) : world :=
  let data := match full with None => data | Some n => take n data end in
  mkworld (alter (λ x, (x.1, x.2 ++ data)) f (files w)) (links w) (stop_writing w).

(** ** [Write] *)

(** The file is too long, or the process another one. *)
Definition rotate (e : env) (o : t) : t :=
  if (MaxLogSize <=? i32 (Z.shiftr (file_length_ o) 20)) || pid_changed e
  then set_rollover (kRolloverAttemptFrequency - 1) (set_lengths 0 0 0 (set_file None o)) else o.

(** A file to write to: that which is open, or a new one every 32nd time. *)
Definition ensure_file (e : env) (o : t) (w : world) : option nat * t * world :=
  match file_ o with
  | Some f => (Some f, o, w)
  | None =>
      let o := set_rollover (rollover_attempt_ o +32 1) o in
      if negb (rollover_attempt_ o =? kRolloverAttemptFrequency) then (None, o, w)
      else
        let o := set_rollover 0 o in
        let stripped := base_filename_ o ++ string_bytes ".log." ++ LC_name (severity_ o) ++ string_bytes "." in
        let '(ok, o, w) := create_in e (dirs e) stripped (time_pid_string e) o w in
        match (if ok : bool then file_ o else None) with
        | None => (None, o, w)
        | Some f =>
            let header := file_header_string e in
            let len := Z.of_nat (length header) in
            (Some f, set_lengths (bytes_since_flush_ o +32 len) (dropped_mem_length_ o) (file_length_ o +32 len) o,
             fwrite (header_full e) header f w)
        end
  end.

Definition Write (e : env) (force_flush : bool) (message : bytes) (o : t) (w : world) : t * world :=
  if decide (base_filename_ o = []) then (o, w)
  else
    let '(f, o, w) := ensure_file e (rotate e o) w in
    match f with
    | None => (o, w)
    | Some f =>
        if stop_writing w then
          (o, if next_flush_time_ o <=? now e then mkworld (files w) (links w) false else w)
        else
          let w := fwrite (disk_full e) message f w in
          match disk_full e with
          | Some _ => (o, mkworld (files w) (links w) true)
          | None =>
              let len := Z.of_nat (length message) in
              let o := set_lengths (bytes_since_flush_ o +32 len) (dropped_mem_length_ o) (file_length_ o +32 len) o in
              (if force_flush || (1000000 <=? bytes_since_flush_ o) || (next_flush_time_ o <=? now e) then FlushUnlocked (now e) o else o, w)
          end
    end.

(** ** Messages that are written *)
Definition write_all (ms : list (env * bool * bytes)) (s : t * world) : t * world :=
  foldl (λ s m, Write m.1.1 m.1.2 m.2 s.1 s.2) s ms.

Definition limit : Z := MaxLogSize * 2 ^ 20.
Definition size_of (b : bytes) : Z := Z.of_nat (length b).

(** All else goes well: the same process, room on the disk, and nothing keeps a
    file of a new name from being created. *)
Definition fair (e : env) : Prop :=
  pid_changed e = false ∧ header_full e = None ∧ disk_full e = None ∧ dirs e ≠ [] ∧ (∀ n, opens e n = true) ∧
  size_of (file_header_string e) <= limit.

Lemma MaxLogSize_pos : 1 <= MaxLogSize.
Proof. unfold MaxLogSize. destruct (Z.ltb_spec 0 max_log_size_flag); lia. Qed.

(** When a file is too long. *)
Lemma too_long n : 0 <= n < 2 ^ 32 → (MaxLogSize <=? i32 (Z.shiftr n 20)) = (limit <=? n).
Proof.
  intros Hn. rewrite Z.shiftr_div_pow2 by lia.
  assert (0 <= n / 2 ^ 20 < 2 ^ 12) by (split; [apply Z.div_pos; lia|apply Z.div_lt_upper_bound; lia]).
  rewrite i32_small by lia. unfold limit. destruct (Z.leb_spec (MaxLogSize * 2 ^ 20) n) as [Hl|Hl].
  - apply Z.leb_le, Z.div_le_lower_bound; lia.
  - apply Z.leb_gt, Z.div_lt_upper_bound; lia.
Qed.

Lemma rotate_empty e o : file_length_ o = 0 → pid_changed e = false → rotate e o = o.
Proof.
  intros Hl Hp. pose proof MaxLogSize_pos. unfold rotate. rewrite Hl, Hp, too_long by lia. unfold limit.
  by destruct (Z.leb_spec (MaxLogSize * 2 ^ 20) 0); [lia|].
Qed.

Lemma size_of_app a b : size_of (a ++ b) = size_of a + size_of b.
Proof. unfold size_of. rewrite length_app. lia. Qed.

(** Appending to the last file. *)
Lemma fwrite_last l n c msg f w :
  files w = l ++ [(n, c)] → f = length l → files (fwrite None msg f w) = l ++ [(n, c ++ msg)].
Proof.
  intros Hf ->. cbn [fwrite files]. rewrite Hf.
  replace (length l) with (length l + 0)%nat by lia. by rewrite alter_app_r.
Qed.

Context (s : severity) (base_filename : bytes) (L : Z).

(** The names that a file begun now may have, and which it has if it is free. *)
Definition name_in (d : bytes) (e : env) : bytes :=
  (d ++ [slash] ++ base_filename ++ string_bytes ".log." ++ LC_name s ++ string_bytes ".") ++ [] ++ time_pid_string e.
Definition new_name (e : env) : bytes := name_in (default [] (head (dirs e))) e.

Abbreviation message := (env * bool * bytes)%type (only parsing).

(** A file: the message it was begun for, and those after it. *)
Definition piece : Type := message * list message.
Definition messages (g : piece) : list message := g.1 :: g.2.
Definition new_file (g : piece) : bytes * bytes :=
  (new_name g.1.1.1, file_header_string g.1.1.1 ++ concat (messages g).*2).

(** [base]: the files that were there before. *)
Record object (o : t) : Prop := { ob_base : base_filename_ o = base_filename; ob_severity : severity_ o = s; ob_ext : filename_extension_ o = [] }.
Record closed (base : list (bytes * bytes)) (ps : list piece) (o : t) (w : world) : Prop := {
  cl_object : object o;
  cl_file : file_ o = None;
  cl_rollover : rollover_attempt_ o = kRolloverAttemptFrequency - 1;
  cl_length : file_length_ o = 0;
  cl_files : files w = base ++ (new_file <$> ps)
}.
Record opened (base : list (bytes * bytes)) (ps : list piece) (name content : bytes) (o : t) (w : world) : Prop := {
  op_object : object o;
  op_file : file_ o = Some (length base + length ps)%nat;
  op_length : file_length_ o = size_of content;
  op_files : files w = base ++ (new_file <$> ps) ++ [(name, content)]
}.

(** A file of a new name is created in the first directory. *)
Lemma create_in_fair e o w :
  dirs e ≠ [] → (∀ n, opens e n = true) → object o → new_name e ∉ (files w).*1 →
  ∃ o' ls, create_in e (dirs e) (base_filename_ o ++ string_bytes ".log." ++ LC_name (severity_ o) ++ string_bytes ".") (time_pid_string e) o w =
      (true, o', mkworld (files w ++ [(new_name e, [])]) ls (stop_writing w)) ∧
    file_ o' = Some (length (files w)) ∧ file_length_ o' = file_length_ o ∧ object o'.
Proof.
  intros Hd Ho [Hb Hsv He] Hn. unfold new_name, name_in in *. destruct (dirs e) as [|d ds]; [done|]. cbn [create_in]. unfold CreateLogfile.
  cbn [base_filepath_ filename_extension_ set_path]. cbn [default head] in Hn. rewrite Hb, Hsv, He, Ho, bool_decide_false by exact Hn.
  cbn [negb orb]. eexists _, _. split_and!; done.
Qed.

(** With a file too long it is closed. *)
Lemma rotate_spec e base ps g o w :
  opened base ps (new_file g).1 (new_file g).2 o w → limit + L < 2 ^ 32 → size_of (new_file g).2 <= limit + L → pid_changed e = false →
  if limit <=? size_of (new_file g).2 then closed base (ps ++ [g]) (rotate e o) w else rotate e o = o.
Proof.
  intros [] Hlim Hs Hp. unfold rotate. rewrite op_length0, too_long, Hp, orb_false_r by (unfold size_of in *; lia).
  destruct (limit <=? _); [|done]. constructor; cbn; try done.
  - by destruct op_object0.
  - by rewrite op_files0, fmap_app.
Qed.

(** Without a file a new one is made, with its header. *)
Lemma ensure_new e base ps o w :
  closed base ps o w → fair e → limit < 2 ^ 32 → new_name e ∉ (files w).*1 →
  let '(f, o', w') := ensure_file e o w in
  f = Some (length base + length ps)%nat ∧ opened base ps (new_name e) (file_header_string e) o' w' ∧
  stop_writing w' = stop_writing w.
Proof.
  intros [Hob Hf0 Hr Hl0 Hfs] (Hp & Hh & Hd & Hds & Hop & Hlen) Hlim Hfree. unfold ensure_file. rewrite Hf0. cbn [rollover_attempt_ set_rollover].
  rewrite Hr. change (kRolloverAttemptFrequency - 1 +32 1 =? kRolloverAttemptFrequency) with true. cbn [negb].
  destruct (create_in_fair e (set_rollover 0 (set_rollover (kRolloverAttemptFrequency - 1 +32 1) o)) w Hds Hop)
    as (o' & ls & -> & Hf & Hl & Hn); [by destruct Hob|done|].
  rewrite Hf. rewrite Hh. assert (length (files w) = (length base + length ps)%nat) as Hlf by by rewrite Hfs, length_app, length_fmap.
  cbn [file_length_ set_rollover] in Hl. split_and!; [by rewrite Hlf| |done].
  constructor; cbn [file_ set_lengths file_length_ files].
  - by destruct Hn.
  - by rewrite Hf, Hlf.
  - rewrite Hl, Hl0. unfold size_of in *. rewrite u32_small; lia.
  - rewrite app_assoc. apply (fwrite_last _ _ []); [|by rewrite length_app, length_fmap]. cbn [files]. by rewrite Hfs.
Qed.

(** The message goes to the last file. *)
Lemma put_message e force base ps name c msg o w :
  opened base ps name c o w → stop_writing w = false → disk_full e = None → size_of c + size_of msg < 2 ^ 32 →
  let len := size_of msg in
  let o1 := set_lengths (bytes_since_flush_ o +32 len) (dropped_mem_length_ o) (file_length_ o +32 len) o in
  let o2 := if force || (1000000 <=? bytes_since_flush_ o1) || (next_flush_time_ o1 <=? now e) then FlushUnlocked (now e) o1 else o1 in
  let w2 := fwrite (disk_full e) msg (length base + length ps) w in
  opened base ps name (c ++ msg) o2 w2 ∧ stop_writing w2 = false.
Proof.
  intros [Hob Hf Hl Hfs] Hs Hd Hsz len o1 o2 w2.
  assert (file_ o2 = file_ o ∧ file_length_ o2 = file_length_ o +32 len ∧ object o2) as (E1 & E2 & E3).
  { unfold o2. destruct Hob. by destruct (_ || _). }
  split; [|by unfold w2; rewrite Hd]. constructor; rewrite ?E1, ?E2; [done|done| |].
  - rewrite Hl, size_of_app. apply u32_small. unfold len, size_of in *. lia.
  - unfold w2. rewrite Hd, !app_assoc. apply fwrite_last; [by rewrite <- app_assoc|]. by rewrite length_app, length_fmap.
Qed.

(** Between two messages whose files would have the same name less than what
    fills a file is written: no two files are begun within one second. *)
Definition spaced (ms : list message) : Prop :=
  ∀ A m1 B m2 C, ms = A ++ m1 :: B ++ m2 :: C → new_name m1.1.1 = new_name m2.1.1 →
    size_of (file_header_string m1.1.1 ++ concat (m1 :: B).*2) < limit.

Lemma spaced_app ms ms' : spaced (ms ++ ms') → spaced ms.
Proof. intros H A m1 B m2 C ->. apply (H A m1 B m2 (C ++ ms')). rewrite <-app_assoc. cbn. by rewrite <-app_assoc. Qed.

Lemma spaced_nodup ms : NoDup ((λ m : message, new_name m.1.1) <$> ms) → spaced ms.
Proof.
  intros H A m1 B m2 C -> Hn. exfalso. rewrite fmap_app, fmap_cons, fmap_app, fmap_cons in H.
  apply NoDup_app in H as (_ & _ & [H _]%NoDup_cons). apply H. rewrite Hn. apply elem_of_app. right. by left.
Qed.

Definition full_piece (g : piece) : Prop := limit <= size_of (new_file g).2 <= limit + L.

(** What is written after a piece only makes more of it. *)
Lemma spaced_free base ps ms e force msg :
  spaced (ms ++ [(e, force, msg)]) → ms = concat (messages <$> ps) → Forall (λ g, limit <= size_of (new_file g).2) ps →
  new_name e ∉ base.*1 → new_name e ∉ (base ++ (new_file <$> ps)).*1.
Proof.
  intros Hsp -> Hfull Hb. rewrite fmap_app, elem_of_app. intros [H|H]; [done|].
  rewrite <-list_fmap_compose in H. apply list_elem_of_fmap in H as (g & Hn & Hg). cbn in Hn.
  apply list_elem_of_split in Hg as (ps1 & ps2 & ->).
  rewrite fmap_app, concat_app, fmap_cons in Hsp. cbn in Hsp.
  specialize (Hsp (concat (messages <$> ps1)) g.1 (g.2 ++ concat (messages <$> ps2)) (e, force, msg) []).
  rewrite Forall_app, Forall_cons in Hfull. destruct Hfull as (_ & Hlim & _).
  assert (size_of (new_file g).2 <= size_of (file_header_string g.1.1.1 ++ concat (g.1 :: g.2 ++ concat (messages <$> ps2)).*2)) as Hle.
  { unfold new_file, messages. cbn [fst snd]. rewrite !fmap_cons, fmap_app. cbn [concat]. rewrite concat_app, !size_of_app.
    unfold size_of. lia. }
  assert (size_of (file_header_string g.1.1.1 ++ concat (g.1 :: g.2 ++ concat (messages <$> ps2)).*2) < limit); [|lia].
  apply Hsp; [|by rewrite <-Hn]. rewrite <-!app_assoc. cbn. by rewrite <-!app_assoc.
Qed.

(** The pieces that are complete, and the last one. *)
Record written (base : list (bytes * bytes)) (ms : list message) (o : t) (w : world) : Prop := {
  wr_going : stop_writing w = false;
  wr_state : (closed base [] o w ∧ ms = []) ∨
    ∃ ps g, opened base ps (new_file g).1 (new_file g).2 o w ∧ ms = concat (messages <$> ps) ++ messages g ∧
      Forall full_piece ps ∧ size_of (new_file g).2 <= limit + L
}.

(** A message begins a file, or goes on with the last. *)
Lemma new_file_first e force msg : new_file ((e, force, msg), []) = (new_name e, file_header_string e ++ msg).
Proof. unfold new_file, messages. cbn. by rewrite app_nil_r. Qed.
Lemma new_file_snoc g m : new_file (g.1, g.2 ++ [m]) = ((new_file g).1, (new_file g).2 ++ m.2).
Proof.
  unfold new_file, messages. cbn [fst snd]. rewrite !fmap_cons, fmap_app. cbn [concat]. rewrite concat_app. cbn.
  by rewrite app_nil_r, !app_assoc.
Qed.

Lemma ensure_written e force msg base ms o w :
  written base ms o w → fair e → limit + L < 2 ^ 32 → 0 <= L → base_filename_ o ≠ [] →
  spaced (ms ++ [(e, force, msg)]) → new_name e ∉ base.*1 →
  ∃ ps name c o1 w1, ensure_file e (rotate e o) w = (Some (length base + length ps)%nat, o1, w1) ∧
    opened base ps name c o1 w1 ∧ stop_writing w1 = false ∧ size_of c <= limit ∧ Forall full_piece ps ∧
    ∃ g, new_file g = (name, c ++ msg) ∧ ms ++ [(e, force, msg)] = concat (messages <$> ps) ++ messages g.
Proof.
  intros [Hg Hst] Hfair Hlim HL Hb Hsp Hfree. pose proof MaxLogSize_pos as Hpos. pose proof Hfair as (Hp & _).
  assert (∀ ps o1, closed base ps o1 w → ms = concat (messages <$> ps) → Forall full_piece ps →
    ∃ ps name c o2 w2, ensure_file e o1 w = (Some (length base + length ps)%nat, o2, w2) ∧ opened base ps name c o2 w2 ∧
      stop_writing w2 = false ∧ size_of c <= limit ∧ Forall full_piece ps ∧
      ∃ g, new_file g = (name, c ++ msg) ∧ ms ++ [(e, force, msg)] = concat (messages <$> ps) ++ messages g) as Hnew.
  { intros ps o1 Hc Hm Hf. pose proof (ensure_new e base ps o1 w Hc Hfair ltac:(lia)) as He. rewrite (cl_files _ _ _ _ Hc) in He.
    specialize (He (spaced_free base ps ms e force msg Hsp Hm (Forall_impl _ _ _ Hf (λ g H, proj1 H)) Hfree)).
    destruct (ensure_file e o1 w) as [[f o2] w2]. destruct He as (-> & H1 & H2).
    exists ps, (new_name e), (file_header_string e), o2, w2. split_and!; [done|done|congruence|apply Hfair|done|].
    exists ((e, force, msg), []). split; [apply new_file_first|]. by rewrite Hm. }
  destruct Hst as [[Hc ->]|(ps & g & Ho & -> & Hf & Hsz)].
  - rewrite rotate_empty by (by destruct Hc). by apply (Hnew []).
  - pose proof (rotate_spec e base ps g o w Ho Hlim Hsz Hp) as Hr. destruct (Z.leb_spec limit (size_of (new_file g).2)) as [Hl|Hl].
    + apply (Hnew (ps ++ [g])); [done| |].
      * by rewrite fmap_app, concat_app; cbn; rewrite app_nil_r.
      * apply Forall_app. split; [done|]. by apply Forall_singleton.
    + rewrite Hr. exists ps, (new_file g).1, (new_file g).2, o, w. unfold ensure_file. rewrite (op_file _ _ _ _ _ _ Ho).
      split_and!; try done; [lia|]. exists (g.1, g.2 ++ [(e, force, msg)]). split; [apply new_file_snoc|].
      rewrite <-app_assoc. done.
Qed.

Lemma Write_written e force base ms msg o w :
  written base ms o w → fair e → 0 <= size_of msg <= L → limit + L < 2 ^ 32 → 0 <= L → base_filename ≠ [] →
  spaced (ms ++ [(e, force, msg)]) → new_name e ∉ base.*1 →
  let '(o', w') := Write e force msg o w in written base (ms ++ [(e, force, msg)]) o' w'.
Proof.
  intros Hw Hfair Hmsg Hlim HL Hb Hsp Hfree.
  assert (base_filename_ o ≠ []) as Hbo.
  { destruct Hw as [_ [[[[-> _ _] _ _ _ _] _]|(ps & g & [[-> _ _] _ _ _] & _)]]; done. }
  destruct (ensure_written e force msg base ms o w Hw Hfair Hlim HL Hbo Hsp Hfree)
    as (ps & name & c & o1 & w1 & E & Ho & Hs1 & Hc & Hf & g & Hg & Hms).
  unfold Write. rewrite decide_False, E, Hs1 by done. pose proof Hfair as (_ & _ & Hd & _).
  destruct (put_message e force base ps name c msg o1 w1 Ho Hs1 Hd ltac:(unfold size_of in *; lia)) as (H1 & H2).
  rewrite Hd in *. constructor; [done|]. right. exists ps, g. rewrite Hg. split_and!; [done|done|done|].
  cbn [snd]. rewrite size_of_app. lia.
Qed.

(** C35: the log files of a module.  While the process is the same, the disk has
    room, nothing but an existing file of the same name keeps a file from being
    created ([O_EXCL]), and no two files would be begun within one second — the
    names of the files that were there are none that a message could begin, and
    between two messages of the same second (the same name) less than what fills a
    file is written — and headers are no longer than the limit, an object that
    writes messages of at most [L] bytes, together with the limit below 4 GiB, leaves,
    after the files that were there, files that hold all the messages, each whole
    and in order: each file is named after the time and process of its first
    message, and holds the header of that time and then its messages; it exceeds
    [MaxLogSize] MiB by at most [L] bytes, and has reached it unless it is the
    last. *)
Theorem log_file_rotation symlink ms w :
  let o := SetSymlinkBasename symlink (LogFileObject s base_filename) in
  base_filename ≠ [] → stop_writing w = false → 0 <= L → limit + L < 2 ^ 32 →
  Forall (λ m, fair m.1.1 ∧ size_of m.2 <= L ∧ new_name m.1.1 ∉ (files w).*1) ms → spaced ms →
  ∃ pieces : list piece,
    files (write_all ms (o, w)).2 = files w ++ (new_file <$> pieces) ∧
    concat (messages <$> pieces) = ms ∧
    (∀ g, g ∈ pieces → size_of (new_file g).2 <= limit + L) ∧
    (∀ i g, pieces !! i = Some g → (S i < length pieces)%nat → limit <= size_of (new_file g).2).
Proof.
  intros o Hb Hw HL Hlim Hms Hsp.
  assert (written (files w) ms (write_all ms (o, w)).1 (write_all ms (o, w)).2) as [_ Hst].
  { unfold write_all. induction ms as [|m ms IH] using rev_ind.
    - constructor; [done|]. left. split; [|done]. constructor; try done. cbn. by rewrite app_nil_r.
    - apply Forall_app in Hms as [Hms Hm]. rewrite Forall_singleton in Hm. destruct Hm as (Hf & Hs & Hn). rewrite foldl_snoc.
      specialize (IH Hms (spaced_app _ _ Hsp)). set (s0 := foldl _ _ ms) in *. destruct m as [[e force] msg].
      pose proof (Write_written e force _ _ msg s0.1 s0.2 IH Hf ltac:(unfold size_of in *; cbn in *; lia) Hlim HL Hb Hsp Hn) as H1.
      cbn. destruct (Write _ _ _ _ _) as [o' w']. exact H1. }
  destruct Hst as [[[_ _ _ _ Hf] ->]|(ps & g & [_ _ _ Hf] & Hms' & Hfull & Hsz)].
  - exists []. split_and!; [done|done| |done]. by intros g []%elem_of_nil.
  - exists (ps ++ [g]). split_and!.
    + rewrite Hf, fmap_app, <-surjective_pairing. done.
    + rewrite fmap_app, concat_app, Hms'. cbn. by rewrite app_nil_r.
    + intros g' [Hg|Hg]%elem_of_app; [rewrite Forall_forall in Hfull; by apply Hfull|]. by apply list_elem_of_singleton in Hg as ->.
    + intros i x Hi Hlast. rewrite length_app in Hlast. cbn in Hlast. rewrite lookup_app_l in Hi by lia.
      by destruct (Forall_lookup_1 _ _ _ _ Hfull Hi).
Qed.

(** Without a file, between two attempts. *)
Lemma Write_skips e force msg o w :
  base_filename_ o ≠ [] → file_ o = None → file_length_ o = 0 → 0 <= rollover_attempt_ o < 31 → pid_changed e = false →
  Write e force msg o w = (set_rollover (rollover_attempt_ o + 1) o, w).
Proof.
  intros Hb Hf Hl Hr Hp. unfold Write. rewrite decide_False by done.
  rewrite rotate_empty by done. unfold ensure_file. rewrite Hf. cbn [rollover_attempt_ set_rollover]. rewrite u32_small by lia.
  change kRolloverAttemptFrequency with 32. destruct (Z.eqb_spec (rollover_attempt_ o + 1) 32); [lia|done].
Qed.

Lemma write_all_skips ms o w :
  base_filename_ o ≠ [] → file_ o = None → file_length_ o = 0 → 0 <= rollover_attempt_ o →
  rollover_attempt_ o + Z.of_nat (length ms) <= 31 → Forall (λ m, pid_changed m.1.1 = false) ms →
  write_all ms (o, w) = (set_rollover (rollover_attempt_ o + Z.of_nat (length ms)) o, w).
Proof.
  intros Hb Hf Hl H0 Hn Hms. revert o Hb Hf Hl H0 Hn. induction Hms as [|m ms Hm _ IH]; intros o Hb Hf Hl H0 Hn.
  - cbn. rewrite Z.add_0_r. by destruct o.
  - cbn [write_all foldl length fst snd] in *. rewrite Write_skips by (done || lia). unfold write_all in IH.
    rewrite IH by (cbn; done || lia). f_equal. cbn. unfold set_rollover. cbn. f_equal. lia.
Qed.

(** When no directory takes the file. *)
Lemma create_in_refused e ds : ∀ o w,
  object o → (∀ d, d ∈ ds → name_in d e ∈ (files w).*1 ∨ opens e (name_in d e) = false) →
  ∃ o1, create_in e ds (base_filename ++ string_bytes ".log." ++ LC_name s ++ string_bytes ".") (time_pid_string e) o w = (false, o1, w) ∧
    object o1 ∧ file_ o1 = file_ o ∧ file_length_ o1 = file_length_ o ∧ rollover_attempt_ o1 = rollover_attempt_ o.
Proof.
  induction ds as [|d ds IH]; intros o w Hob Hop; [by exists o|]. cbn [create_in]. unfold CreateLogfile.
  set (o0 := set_path _ o). assert (object o0) as Hob0 by by destruct Hob.
  assert (base_filepath_ o0 ++ filename_extension_ o0 ++ time_pid_string e = name_in d e) as -> by (rewrite (ob_ext _ Hob0); done).
  assert (bool_decide (name_in d e ∈ (files w).*1) || negb (opens e (name_in d e)) = true) as ->.
  { apply orb_true_iff. destruct (Hop d) as [H|H]; [by left|left; by apply bool_decide_eq_true|right; by rewrite H]. }
  destruct (IH o0 w Hob0) as (o1 & -> & ? & ? & ? & ?); [|by exists o1]. intros d' Hd'. apply Hop. by right.
Qed.

Lemma Write_fails e force msg o w :
  o = LogFileObject s base_filename → base_filename ≠ [] → pid_changed e = false →
  (∀ d, d ∈ dirs e → name_in d e ∈ (files w).*1 ∨ opens e (name_in d e) = false) →
  ∃ o1, Write e force msg o w = (o1, w) ∧ object o1 ∧ file_ o1 = None ∧ file_length_ o1 = 0 ∧ rollover_attempt_ o1 = 0.
Proof.
  intros -> Hb Hp Hop. unfold Write. rewrite decide_False, rotate_empty by done.
  unfold ensure_file. cbn [file_ LogFileObject rollover_attempt_ set_rollover base_filename_ severity_].
  change (kRolloverAttemptFrequency - 1 +32 1 =? kRolloverAttemptFrequency) with true. cbn [negb].
  match goal with |- context [create_in e ?ds ?st ?t ?o0 ?w0] =>
    destruct (create_in_refused e ds o0 w0) as (o1 & -> & ? & ? & ? & ?); [done|done|] end.
  exists o1. by split_and!.
Qed.

(** A file that cannot be created costs thirty-two messages.  When the first
    attempt fails in every directory, be it that the system refuses or that a
    file of the name exists, that message and the next 31 are lost, even if the
    file could be created meanwhile; the message after them starts it. *)
Theorem log_create_failed e force msg ms e' force' msg' w :
  let o := LogFileObject s base_filename in
  base_filename ≠ [] → stop_writing w = false → pid_changed e = false →
  (∀ d, d ∈ dirs e → name_in d e ∈ (files w).*1 ∨ opens e (name_in d e) = false) →
  length ms = 31%nat → Forall (λ m, pid_changed m.1.1 = false) ms →
  fair e' → new_name e' ∉ (files w).*1 → size_of msg' + limit < 2 ^ 32 →
  let s1 := write_all ((e, force, msg) :: ms) (o, w) in
  s1.2 = w ∧ files (write_all [(e', force', msg')] s1).2 = files w ++ [new_file ((e', force', msg'), [])].
Proof.
  intros o Hb Hw Hp Hop Hlen Hms Hfair Hfree Hsz s1. pose proof MaxLogSize_pos as Hpos.
  destruct (Write_fails e force msg o w) as (o1 & Hw1 & Hn1 & Hf1 & Hl1 & Hr1); [done..|].
  assert (base_filename_ o1 = base_filename) as Hb1 by by destruct Hn1.
  assert (s1 = (set_rollover 31 o1, w)) as Hs1.
  { unfold s1. cbn [write_all foldl fst snd]. fold (write_all ms (Write e force msg o w)). rewrite Hw1, write_all_skips by (congruence || lia || done).
    by rewrite Hr1, Hlen. }
  rewrite Hs1. split; [done|]. cbn [write_all foldl fst snd].
  pose proof (ensure_new e' (files w) [] (set_rollover 31 o1) w) as He.
  unfold Write. rewrite decide_False by (cbn; congruence). rewrite rotate_empty by (done || apply Hfair).
  destruct (ensure_file e' (set_rollover 31 o1) w) as [[f o2] w2].
  destruct He as (-> & Ho2 & Hw2); [constructor; cbn; try done; [by destruct Hn1|by rewrite app_nil_r]|done|unfold size_of in *; lia|done|].
  rewrite Hw2, Hw. pose proof Hfair as (_ & _ & Hd & _ & _ & Hhl).
  destruct (put_message e' force' (files w) [] _ _ msg' o2 w2 Ho2 ltac:(congruence) Hd ltac:(unfold size_of in *; lia)) as ([_ _ _ Hfiles] & _).
  rewrite Hd in *. cbn [snd]. rewrite Hfiles. by rewrite new_file_first.
Qed.
End logfile.
End LogFileObject.

(** ** [Logger]: every message straight to the file of its module *)
Module Logger.
Section logger.
Context (max_log_size_flag : Z) (ProcessGroup : list Z).

Definition moduleLoggerMap := gmap (list Z) LogFileObject.t.

(** The object of a module: that of the map, or a new one. *)
Definition file_object (name : list Z) (m : moduleLoggerMap) : LogFileObject.t :=
  default (LogFileObject.SetSymlinkBasename name (LogFileObject.LogFileObject LogFileObject.INFO name)) (m !! name).

Definition Write (e : LogFileObject.env) (force_flush : bool) (message : list Z) (m : moduleLoggerMap) (w : LogFileObject.world) :
    moduleLoggerMap * LogFileObject.world :=
  let '(log_message, module_name) := LogText.FindModuleName ProcessGroup message [] in
  let '(o, w) := LogFileObject.Write max_log_size_flag e force_flush log_message (file_object module_name m) w in
  (<[module_name := o]> m, w).

(** A message with a tag concerns one module only, which gets the rest of it. *)
Lemma logger_write_tagged e force p name q m w :
  LogText.bracket_l ∉ p → LogText.bracket_r ∉ name → name ≠ [] →
  let r := LogFileObject.Write max_log_size_flag e force (p ++ q) (file_object name m) w in
  Write e force (p ++ LogText.bracket_l :: name ++ LogText.bracket_r :: q) m w = (<[name := r.1]> m, r.2).
Proof.
  intros Hp Hn Hne r. unfold Write. rewrite LogText.FindModuleName_tagged by done. rewrite decide_False by done.
  fold r. by destruct r.
Qed.
End logger.
End Logger.

(** ** Witnesses: files of one MiB at most *)
Module LogFileSample.
Import LogFileObject.

Definition at_second (n : Z) (created : bool) : env :=
  mkenv false (mktm 124 0 2 0 0 n) 7 (string_bytes "rpi") [string_bytes "/tmp"] (λ _, created) None None 0.
Definition no_files : world := mkworld [] ∅ false.

Lemma good_fair n : 0 <= n < 4 → fair 1 (at_second n true).
Proof. intros Hn. assert (n = 0 ∨ n = 1 ∨ n = 2 ∨ n = 3) as [->|[->|[->| ->]]] by lia; by split_and!. Qed.

(** Two messages that fill a file each, and a short one, a second apart. *)
Definition long_messages (big : list Z) : list (env * bool * list Z) :=
  [(at_second 0 true, false, big); (at_second 1 true, false, big); (at_second 2 true, true, [3])].

Lemma big_message : ∃ big, size_of big = 2 ^ 20.
Proof. exists (replicate (Z.to_nat (2 ^ 20)) 65). unfold size_of. rewrite length_replicate. lia. Qed.

Lemma long_messages_names big : (λ m : env * bool * list Z, new_name INFO [98] m.1.1) <$> long_messages big =
  [new_name INFO [98] (at_second 0 true); new_name INFO [98] (at_second 1 true); new_name INFO [98] (at_second 2 true)].
Proof. done. Qed.

(** The log is rotated: there are two files at least. *)
Lemma log_file_rotation_witness :
  ∃ big pieces, size_of big = 2 ^ 20 ∧
    files (write_all 1 (long_messages big) (SetSymlinkBasename [97] (LogFileObject INFO [98]), no_files)).2 = new_file INFO [98] <$> pieces ∧
    concat (messages <$> pieces) = long_messages big ∧ (2 <= length pieces)%nat.
Proof.
  destruct big_message as [big size_big]. exists big.
  destruct (log_file_rotation 1 INFO [98] (2 ^ 20) [97] (long_messages big) no_files) as (pieces & H1 & H2 & H3 & _).
  - discriminate.
  - reflexivity.
  - lia.
  - vm_compute. reflexivity.
  - assert (∀ e, new_name INFO [98] e ∉ (files no_files).*1) as Hn by (intros e; apply not_elem_of_nil).
    repeat (apply Forall_cons_2; [split_and!; [apply good_fair; lia|cbn [snd]; rewrite ?size_big; unfold size_of; cbn; lia|apply Hn]|]).
    apply Forall_nil_2.
  - apply spaced_nodup. rewrite long_messages_names. apply (bool_decide_unpack _). vm_compute. exact I.
  - exists pieces. split_and!; [exact size_big|exact H1|exact H2|]. destruct pieces as [|g [|g' pieces]]; [done| |cbn; lia]. exfalso.
    cbn [fmap list_fmap concat] in H2. rewrite app_nil_r in H2. specialize (H3 g (list_elem_of_here _ _)).
    unfold new_file in H3. cbn [snd] in H3. rewrite H2 in H3. unfold long_messages in H3. cbn [fmap list_fmap snd concat] in H3.
    rewrite !size_of_app, size_big in H3. unfold limit, MaxLogSize in H3. cbn -[size_of file_header_string] in H3. unfold size_of in H3. cbn in H3. lia.
Defined.

Lemma log_create_failed_witness :
  (write_all 1 ((at_second 0 false, false, [1]) :: replicate 31 (at_second 1 true, false, [2])) (LogFileObject INFO [98], no_files)).2 = no_files.
Proof.
  destruct (log_create_failed 1 INFO [98] (at_second 0 false) false [1] (replicate 31 (at_second 1 true, false, [2])) (at_second 2 true) false [3] no_files)
    as [H _].
  - discriminate.
  - reflexivity.
  - reflexivity.
  - intros d _. by right.
  - reflexivity.
  - by apply Forall_replicate.
  - apply good_fair. lia.
  - apply not_elem_of_nil.
  - vm_compute. reflexivity.
  - exact H.
Defined.

(** A file that is full within its second: its successor would have its name, and
    the next message is lost with the 31 after it. *)
Lemma log_second_full :
  (write_all 1 ((at_second 0 true, false, [1]) :: replicate 31 (at_second 1 true, false, [2]))
     (LogFileObject INFO [98], mkworld [new_file INFO [98] ((at_second 0 true, false, []), [])] ∅ false)).2 =
  mkworld [new_file INFO [98] ((at_second 0 true, false, []), [])] ∅ false.
Proof.
  apply (log_create_failed 1 INFO [98] (at_second 0 true) false [1] (replicate 31 (at_second 1 true, false, [2])) (at_second 2 true) false [3]).
  - discriminate.
  - reflexivity.
  - reflexivity.
  - intros d ->%list_elem_of_singleton. left. apply list_elem_of_singleton. reflexivity.
  - reflexivity.
  - by apply Forall_replicate.
  - apply good_fair. lia.
  - intros H%list_elem_of_singleton. by vm_compute in H.
  - vm_compute. reflexivity.
Qed.
End LogFileSample.
