(* ===== verification/Time.v ===== *)
(** * Time ([cyber/time/], [cyber/common/time_conversion.h])

    [Time] is a 64-bit number of nanoseconds, [Duration] a signed one.  [Rate]
    keeps a loop at a frequency.  [Conversion]: UNIX time and GPS time, with the
    leap seconds.  The functions on [double] are not modelled. *)

From S2P Require Import Prelude.

Local Open Scope Z_scope.
Local Open Scope cyber_scope.

Module Duration.
Record t := mk { nanoseconds_ : Z }.

Definition Duration (nanoseconds : Z) : t := mk nanoseconds.
Definition Duration2 (seconds nanoseconds : Z) : t := mk (i64 (u64 (u64 (seconds * 1000000000) + nanoseconds))).
Definition ToNanosecond (d : t) : Z := nanoseconds_ d.
Definition IsZero (d : t) : bool := nanoseconds_ d =? 0.
Definition add (d rhs : t) : t := mk (i64 (nanoseconds_ d + nanoseconds_ rhs)).
Definition sub (d rhs : t) : t := mk (i64 (nanoseconds_ d - nanoseconds_ rhs)).
Definition opp (d : t) : t := mk (i64 (- nanoseconds_ d)).
Definition ltb (d rhs : t) : bool := nanoseconds_ d <? nanoseconds_ rhs.

Definition of_int (nanoseconds : Z) : t := mk (i64 nanoseconds).
Definition iadd (d : t) (rhs : t) : t := add d rhs.
Definition isub (d : t) (rhs : t) : t := sub d rhs.
Definition eqb (d rhs : t) : bool := nanoseconds_ d =? nanoseconds_ rhs.
Definition neqb (d rhs : t) : bool := negb (nanoseconds_ d =? nanoseconds_ rhs).
Definition gtb (d rhs : t) : bool := nanoseconds_ rhs <? nanoseconds_ d.
Definition geb (d rhs : t) : bool := nanoseconds_ rhs <=? nanoseconds_ d.
Definition leb (d rhs : t) : bool := nanoseconds_ d <=? nanoseconds_ rhs.

#[export] Instance eq_dec : EqDecision t.
Proof. solve_decision. Defined.

Definition well_typed (d : t) : Prop := - 2 ^ 63 <= nanoseconds_ d < 2 ^ 63.
End Duration.

Module Time.
Record t := mk { nanoseconds_ : Z }.

Definition MAX : t := mk (2 ^ 64 - 1).
Definition MIN : t := mk 1.
Definition Time2 (seconds nanoseconds : Z) : t := mk (u64 (u64 (seconds * 1000000000) + nanoseconds)).
Definition ToNanosecond (x : t) : Z := nanoseconds_ x.
Definition IsZero (x : t) : bool := nanoseconds_ x =? 0.
Definition diff (x rhs : t) : Duration.t := Duration.mk (i64 (nanoseconds_ x -64 nanoseconds_ rhs)).
Definition add (x : t) (rhs : Duration.t) : t := mk (nanoseconds_ x +64 Duration.ToNanosecond rhs).
Definition sub (x : t) (rhs : Duration.t) : t := mk (nanoseconds_ x -64 Duration.ToNanosecond rhs).
Definition ltb (x rhs : t) : bool := nanoseconds_ x <? nanoseconds_ rhs.
Definition of_int (nanoseconds : Z) : t := mk (u64 nanoseconds).
Definition iadd (d : t) (rhs : Duration.t) : t := add d rhs.
Definition isub (d : t) (rhs : Duration.t) : t := sub d rhs.
Definition eqb (d rhs : t) : bool := nanoseconds_ d =? nanoseconds_ rhs.
Definition neqb (d rhs : t) : bool := negb (nanoseconds_ d =? nanoseconds_ rhs).
Definition gtb (d rhs : t) : bool := nanoseconds_ rhs <? nanoseconds_ d.
Definition geb (d rhs : t) : bool := nanoseconds_ rhs <=? nanoseconds_ d.
Definition leb (d rhs : t) : bool := nanoseconds_ d <=? nanoseconds_ rhs.

#[export] Instance eq_dec : EqDecision t.
Proof. solve_decision. Defined.

Definition well_typed (x : t) : Prop := 0 <= nanoseconds_ x < 2 ^ 64.

(** Instants are ordered by their number: exactly one of before, same and after. *)
Lemma compare_total x y :
  (ltb x y = true ∧ eqb x y = false ∧ gtb x y = false ∧ x ≠ y) ∨
  (ltb x y = false ∧ eqb x y = true ∧ gtb x y = false ∧ x = y) ∨
  (ltb x y = false ∧ eqb x y = false ∧ gtb x y = true ∧ x ≠ y).
Proof.
  destruct x as [x], y as [y]. unfold ltb, eqb, gtb. cbn.
  destruct (Z.ltb_spec x y), (Z.eqb_spec x y), (Z.ltb_spec y x); try lia; naive_solver lia.
Qed.

Lemma compare_negated x y : leb x y = negb (gtb x y) ∧ geb x y = negb (ltb x y) ∧ neqb x y = negb (eqb x y).
Proof. unfold leb, geb, neqb, gtb, ltb, eqb. by rewrite <- !Z.leb_antisym. Qed.

Lemma u64_i64 z : u64 (i64 z) = u64 z.
Proof.
  unfold u64, i64. rewrite Zminus_mod_idemp_l. f_equal. lia.
Qed.

Lemma i64_u64 z : i64 (u64 z) = i64 z.
Proof. unfold u64, i64. by rewrite Zplus_mod_idemp_l. Qed.

Lemma u64_add_i64 a b : u64 (a + i64 b) = u64 (a + b).
Proof. rewrite !(Z.add_comm a). by rewrite <- u64_add_mod, u64_i64, u64_add_mod. Qed.

Lemma u64_sub_i64 a b : u64 (a - i64 b) = u64 (a - b).
Proof. unfold u64. by rewrite <- Zminus_mod_idemp_r, (u64_i64 b : i64 b mod 2 ^ 64 = b mod 2 ^ 64), Zminus_mod_idemp_r. Qed.

(** Durations act on times.  Whatever overflows on the way, the difference
    of two times added to the second gives the first; what is added to a time is
    the difference to it and can be taken away again; and adding two durations
    one after the other is adding their sum. *)
Theorem time_arithmetic x y d d' :
  well_typed x → well_typed y → Duration.well_typed d → Duration.well_typed d' →
  add y (diff x y) = x ∧ diff (add x d) x = d ∧ sub (add x d) d = x ∧ add (sub x d) d = x ∧
  add (add x d) d' = add x (Duration.add d d') ∧ add x (Duration.opp d) = sub x d ∧
  (Duration.nanoseconds_ (diff x y) = 0 ↔ x = y).
Proof.
  destruct x as [x], y as [y], d as [d], d' as [d']. unfold well_typed, Duration.well_typed, add, sub, diff, Duration.add, Duration.opp. cbn.
  intros Hx Hy Hd Hd'.
  assert (∀ a b, 0 <= a < 2 ^ 64 → b = a → u64 b = a) as Hu by (intros a b Ha ->; by apply u64_small).
  assert (u64 (y + i64 (x -64 y)) = x) as Hxy by (rewrite u64_add_i64, Z.add_comm, u64_add_mod; apply Hu; lia).
  split_and!.
  - by rewrite Hxy.
  - rewrite i64_u64. f_equal. rewrite <- i64_u64, u64_sub_mod, i64_u64. replace (x + d - x) with d by lia. by apply i64_small.
  - f_equal. rewrite u64_sub_mod. apply Hu; lia.
  - f_equal. rewrite u64_add_mod. apply Hu; lia.
  - f_equal. rewrite u64_add_mod, u64_add_i64. f_equal. lia.
  - f_equal. rewrite u64_add_i64. f_equal.
  - split; [|intros [= ->]; by rewrite Z.sub_diag].
    intros H0. rewrite H0, Z.add_0_r, u64_small in Hxy by lia. by rewrite Hxy.
Qed.
End Time.

(** ** [Rate]

    The clock is an argument; [Sleep] says until when the thread sleeps. *)
Module Rate.
Record t := mk { start_ : Time.t; expected_cycle_time_ : Duration.t; actual_cycle_time_ : Duration.t }.

Definition Rate (now : Time.t) (d : Duration.t) : t := mk now d (Duration.Duration 0).
Definition Rate_ns (now : Time.t) (nanoseconds : Z) : t := Rate now (Duration.Duration (i64 nanoseconds)).

Definition Sleep (now : Time.t) (r : t) : option Time.t * t :=
  let expected_end := Time.add (start_ r) (expected_cycle_time_ r) in
  let actual_end := now in
  let expected_end := if Time.ltb actual_end (start_ r) then Time.add actual_end (expected_cycle_time_ r) else expected_end in
  let sleep_time := Time.diff expected_end actual_end in
  let actual := Time.diff actual_end (start_ r) in
  if Duration.ltb sleep_time (Duration.Duration 0) then
    let start := if Time.gtb actual_end (Time.add expected_end (expected_cycle_time_ r)) then actual_end else expected_end in
    (None, mk start (expected_cycle_time_ r) actual)
  else (Some expected_end, mk expected_end (expected_cycle_time_ r) actual).

Definition Reset (now : Time.t) (r : t) : t := mk now (expected_cycle_time_ r) (actual_cycle_time_ r).
Definition CycleTime (r : t) : Duration.t := actual_cycle_time_ r.

(** In plain numbers: the start of the cycle, and the time it is. *)
Definition next_start (c start now : Z) : Z :=
  let e := if now <? start then now + c else start + c in
  if (e <? now) && (e + c <? now) then now else e.
Definition wake (c start now : Z) : option Z :=
  let e := if now <? start then now + c else start + c in
  if e <? now then None else Some e.

Lemma Sleep_spec c start now a :
  0 <= c < 2 ^ 61 → 0 <= start < 2 ^ 62 → 0 <= now < 2 ^ 62 →
  Sleep (Time.mk now) (mk (Time.mk start) (Duration.mk c) a) =
    (Time.mk <$> wake c start now, mk (Time.mk (next_start c start now)) (Duration.mk c) (Duration.mk (now - start))).
Proof.
  intros Hc Hs Hn. unfold Sleep, Time.add, Time.diff, Time.ltb, Time.gtb, Duration.ltb, wake, next_start, Duration.ToNanosecond. cbn.
  rewrite !(u64_small (start + c)), !(u64_small (now + c)), !Time.i64_u64, !(i64_small (now - start)) by lia.
  destruct (Z.ltb_spec now start) as [Hlt|Hge]; cbn.
  - rewrite i64_small by lia. destruct (Z.ltb_spec (now + c - now) 0); [lia|]. destruct (Z.ltb_spec (now + c) now); [lia|]. done.
  - rewrite i64_small, u64_small by lia. destruct (Z.ltb_spec (start + c - now) 0), (Z.ltb_spec (start + c) now); try lia; cbn; [|done].
    by destruct (start + c + c <? now).
Qed.

(** A loop that calls [Sleep] at the given times. *)
Fixpoint sleeps (nows : list Z) (r : t) : list (option Time.t) * t :=
  match nows with
  | [] => ([], r)
  | n :: nows => let '(w, r) := Sleep (Time.mk n) r in let '(ws, r) := sleeps nows r in (w :: ws, r)
  end.

(** Not before its cycle began, and not more than a cycle after it should have
    ended. *)
Fixpoint in_step (c start : Z) (nows : list Z) : Prop :=
  match nows with [] => True | n :: nows => start <= n <= start + 2 * c ∧ in_step c (start + c) nows end.

Lemma sleeps_in_step c start nows a :
  0 <= c < 2 ^ 61 → 0 <= start → start + (Z.of_nat (length nows) + 2) * c < 2 ^ 62 → in_step c start nows →
  (sleeps nows (mk (Time.mk start) (Duration.mk c) a)).1 =
    imap (λ i n, if start + (Z.of_nat i + 1) * c <? n then None else Some (Time.mk (start + (Z.of_nat i + 1) * c))) nows ∧
  start_ (sleeps nows (mk (Time.mk start) (Duration.mk c) a)).2 = Time.mk (start + Z.of_nat (length nows) * c).
Proof.
  intros Hc. revert start a. induction nows as [|n nows IH]; intros start a Hs Hb Hin.
  - cbn. split; [done|]. f_equal. lia.
  - cbn [in_step length] in *. destruct Hin as [Hn Hin]. assert (n < 2 ^ 62) by nia. assert (start < 2 ^ 62) by nia.
    cbn [sleeps]. rewrite Sleep_spec by lia. unfold wake, next_start. destruct (Z.ltb_spec n start) as [|_]; [lia|].
    destruct (Z.ltb_spec (start + c + c) n) as [|_]; [lia|]. rewrite andb_false_r.
    specialize (IH (start + c) (Duration.mk (n - start)) ltac:(lia) ltac:(nia) Hin).
    destruct (sleeps nows _) as [ws r]. cbn [fst snd] in *. destruct IH as [-> ->]. split; [|f_equal; lia].
    cbn [imap]. f_equal.
    + replace (start + (Z.of_nat 0 + 1) * c) with (start + c) by lia. by destruct (start + c <? n).
    + apply imap_ext. intros i x _. cbn. by replace (start + (Z.of_nat (S i) + 1) * c) with (start + c + (Z.of_nat i + 1) * c) by lia.
Qed.

(** A rate does not drift.  As long as no call of [Sleep] comes before its
    cycle or more than a cycle late, the [i]-th call sleeps exactly until [i]
    cycles after the start, or returns at once when that is over, however the
    calls before it were spread; a call that comes later than that begins a new
    schedule there and then, and when the clock was set back the sleep is one
    cycle. *)
Theorem rate_no_drift c start nows late a :
  0 <= c < 2 ^ 61 → 0 <= start → start + (Z.of_nat (length nows) + 2) * c < 2 ^ 62 → in_step c start nows → 0 <= late < 2 ^ 62 →
  let r := sleeps nows (mk (Time.mk start) (Duration.mk c) a) in
  let due := start + Z.of_nat (length nows) * c in
  (∀ i n, nows !! i = Some n → r.1 !! i =
     Some (if start + (Z.of_nat i + 1) * c <? n then None else Some (Time.mk (start + (Z.of_nat i + 1) * c)))) ∧
  start_ r.2 = Time.mk due ∧
  (due + 2 * c < late → (Sleep (Time.mk late) r.2).1 = None ∧ start_ (Sleep (Time.mk late) r.2).2 = Time.mk late) ∧
  (late < due → (Sleep (Time.mk late) r.2).1 = Some (Time.mk (late + c)) ∧ start_ (Sleep (Time.mk late) r.2).2 = Time.mk (late + c)).
Proof.
  intros Hc Hs Hb Hin Hl r due. destruct (sleeps_in_step c start nows a Hc Hs Hb Hin) as [H1 H2]. fold r in H1, H2.
  assert (expected_cycle_time_ r.2 = Duration.mk c) as He.
  { unfold r. clear. generalize (Time.mk start), a. induction nows as [|n nows IH]; intros st a'; [done|]. cbn [sleeps].
    unfold Sleep at 1. cbn [start_ expected_cycle_time_]. destruct (Duration.ltb _ _).
    - match goal with |- context [sleeps nows (mk ?x _ ?y)] => specialize (IH x y); destruct (sleeps nows (mk x (Duration.mk c) y)) end. done.
    - match goal with |- context [sleeps nows (mk ?x _ ?y)] => specialize (IH x y); destruct (sleeps nows (mk x (Duration.mk c) y)) end. done. }
  assert (due < 2 ^ 62) by (unfold due; nia). assert (0 <= due) by (unfold due; nia).
  assert (r.2 = mk (Time.mk due) (Duration.mk c) (actual_cycle_time_ r.2)) as Hr by (destruct r as [ws [x y z]]; cbn in *; by subst).
  split_and!.
  - intros i n Hi. rewrite H1, list_lookup_imap, Hi. done.
  - done.
  - intros Hlate. rewrite Hr, Sleep_spec by lia. unfold wake, next_start. destruct (Z.ltb_spec late due); [lia|].
    destruct (Z.ltb_spec (due + c) late); [|lia]. destruct (Z.ltb_spec (due + c + c) late); [done|lia].
  - intros Hlate. rewrite Hr, Sleep_spec by lia. unfold wake, next_start. destruct (Z.ltb_spec late due); [|lia].
    destruct (Z.ltb_spec (late + c) late); [lia|done].
Qed.
End Rate.

(** ** UNIX time and GPS time *)
Module Conversion.

(** When a leap second was inserted, and how many there are since then. *)
Definition LEAP_SECONDS : list (Z * Z) :=
  [(1483228800, 18); (1435708800, 17); (1341100800, 16); (1230768000, 15); (1136073600, 14)].
Definition UNIX_GPS_DIFF : Z := 315964800.
Definition ONE_MILLION : Z := 1000000.
Definition ONE_BILLION : Z := 1000000000.

Section conversion.
(** The wrap-around of the type: [i64] or [u64]. *)
Context (wrap : Z → Z).

Fixpoint unix_to_gps (table : list (Z * Z)) (unix_seconds : Z) : Z :=
  match table with
  | [] => 0
  | (first, second) :: table =>
      if first <=? unix_seconds then wrap (unix_seconds - (UNIX_GPS_DIFF - second)) else unix_to_gps table unix_seconds
  end.
Fixpoint gps_to_unix (table : list (Z * Z)) (gps_seconds : Z) : Z :=
  match table with
  | [] => 0
  | (first, second) :: table =>
      let result := wrap (gps_seconds + (UNIX_GPS_DIFF - second)) in
      if first <=? result then result else gps_to_unix table gps_seconds
  end.

Definition UnixToGpsSeconds : Z → Z := unix_to_gps LEAP_SECONDS.
Definition GpsToUnixSeconds : Z → Z := gps_to_unix LEAP_SECONDS.

(** Micro- and nanoseconds: [/] and [%] truncate. *)
Definition scaled (f : Z → Z) (unit x : Z) : Z := wrap (wrap (f (Z.quot x unit) * unit) + Z.rem x unit).
Definition UnixToGpsMicroseconds : Z → Z := scaled UnixToGpsSeconds ONE_MILLION.
Definition UnixToGpsNanoseconds : Z → Z := scaled UnixToGpsSeconds ONE_BILLION.
Definition GpsToUnixMicroseconds : Z → Z := scaled GpsToUnixSeconds ONE_MILLION.
Definition GpsToUnixNanoseconds : Z → Z := scaled GpsToUnixSeconds ONE_BILLION.

(** ** Specification: the leap seconds until a UNIX time; 13 were inserted
    before the table begins. *)
Definition leaps (u : Z) : Z := 13 + Z.of_nat (length (filter (λ x, x.1 <= u) LEAP_SECONDS)).
Definition first_known : Z := 1136073600.

Context (Hwrap : ∀ z, 0 <= z < 2 ^ 63 → wrap z = z).

(** Case analysis on where a time lies in the table. *)
Ltac in_table :=
  repeat match goal with
  | |- context [?a <=? ?b] => destruct (Z.leb_spec a b); try lia
  end.

Lemma leaps_cases u :
  leaps u = if 1483228800 <=? u then 18 else if 1435708800 <=? u then 17 else if 1341100800 <=? u then 16
            else if 1230768000 <=? u then 15 else if 1136073600 <=? u then 14 else 13.
Proof.
  unfold leaps, LEAP_SECONDS. rewrite !filter_cons, filter_nil. cbn [fst].
  repeat match goal with |- context [decide (?a <= u)] => destruct (decide (a <= u)) end; cbn [length]; in_table.
Qed.

Lemma UnixToGpsSeconds_spec u :
  first_known <= u < 2 ^ 62 → UnixToGpsSeconds u = u - UNIX_GPS_DIFF + leaps u.
Proof.
  intros Hu. rewrite leaps_cases. unfold UnixToGpsSeconds, LEAP_SECONDS, first_known in *. cbn [unix_to_gps]. unfold UNIX_GPS_DIFF.
  in_table; rewrite Hwrap by lia; lia.
Qed.

Lemma UnixToGpsSeconds_before u : u < first_known → UnixToGpsSeconds u = 0.
Proof. intros Hu. unfold UnixToGpsSeconds, LEAP_SECONDS, first_known in *. cbn [unix_to_gps]. in_table. Qed.

Lemma GpsToUnix_spec g :
  0 <= g < 2 ^ 62 →
  GpsToUnixSeconds g = let u := g + UNIX_GPS_DIFF in
    if 1483228818 <=? u then u - 18 else if 1435708817 <=? u then u - 17 else if 1341100816 <=? u then u - 16
    else if 1230768015 <=? u then u - 15 else if 1136073614 <=? u then u - 14 else 0.
Proof.
  intros Hg. unfold GpsToUnixSeconds, LEAP_SECONDS. cbn [gps_to_unix]. unfold UNIX_GPS_DIFF. rewrite !Hwrap by lia.
  in_table.
Qed.

Lemma unix_gps_unix u : first_known <= u < 2 ^ 62 → GpsToUnixSeconds (UnixToGpsSeconds u) = u.
Proof.
  intros Hu. rewrite UnixToGpsSeconds_spec, leaps_cases by done. unfold first_known, UNIX_GPS_DIFF in *.
  in_table; rewrite GpsToUnix_spec by (unfold UNIX_GPS_DIFF; lia); cbv zeta; unfold UNIX_GPS_DIFF; in_table.
Qed.

Lemma scaled_roundtrip f g unit x :
  1 < unit → first_known * unit <= x < 2 ^ 62 →
  (∀ u, first_known <= u < 2 ^ 62 → 0 <= f u <= u ∧ g (f u) = u) → scaled g unit (scaled f unit x) = x.
Proof.
  intros Hunit Hx Hf. unfold scaled. unfold first_known in *.
  assert (0 <= x) by nia. rewrite (Z.quot_div_nonneg x), (Z.rem_mod_nonneg x) by lia.
  pose proof (Z.div_mod x unit ltac:(lia)) as Hdm. pose proof (Z.mod_pos_bound x unit ltac:(lia)) as Hm.
  set (q := x / unit) in *. set (r := x mod unit) in *. assert (1136073600 <= q < 2 ^ 62) as Hq by nia.
  destruct (Hf q Hq) as [Hfq Hgq]. assert (0 <= f q * unit <= unit * q) as Hle.
  { split; [apply Z.mul_nonneg_nonneg|rewrite (Z.mul_comm unit); apply Z.mul_le_mono_nonneg_r]; lia. }
  assert (0 <= f q * unit + r < 2 ^ 63) by lia.
  rewrite (Hwrap (f q * unit)), (Hwrap (f q * unit + r)) by lia.
  rewrite (Z.quot_div_nonneg (f q * unit + r)), (Z.rem_mod_nonneg (f q * unit + r)) by lia.
  assert ((f q * unit + r) / unit = f q) as -> by (rewrite Z.div_add_l, (Z.div_small r) by lia; lia).
  assert ((f q * unit + r) mod unit = r) as -> by (rewrite Z.add_comm, Z_mod_plus_full; by apply Z.mod_small).
  rewrite Hgq, (Hwrap (q * unit)), Hwrap by lia. lia.
Qed.

(** C40: UNIX time and GPS time.  From 2006 on the search of the table computes
    the difference of the epochs and the leap seconds counted one by one; it is
    strictly increasing and undone by its inverse, for seconds, micro- and
    nanoseconds.  The other way around only the leap seconds themselves do not
    come back: they have the UNIX time of the second that follows.  Before 2006
    the table does not reach, and the result is 0. *)
Theorem gps_conversion u v m x g :
  first_known <= u < v → v < 2 ^ 62 → first_known * ONE_MILLION <= m < 2 ^ 62 → first_known * ONE_BILLION <= x < 2 ^ 62 → UnixToGpsSeconds first_known <= g < 2 ^ 61 →
  UnixToGpsSeconds u = u - UNIX_GPS_DIFF + leaps u ∧
  UnixToGpsSeconds u < UnixToGpsSeconds v ∧
  GpsToUnixSeconds (UnixToGpsSeconds u) = u ∧
  GpsToUnixMicroseconds (UnixToGpsMicroseconds m) = m ∧ GpsToUnixNanoseconds (UnixToGpsNanoseconds x) = x ∧
  (let w := GpsToUnixSeconds g in UnixToGpsSeconds w = g ∨ (UnixToGpsSeconds w = g + 1 ∧ w ∈ LEAP_SECONDS.*1)) ∧
  (∀ y, y < first_known → UnixToGpsSeconds y = 0).
Proof.
  intros Hu Hv Hm Hx Hg. assert (∀ u, first_known <= u < 2 ^ 62 → 0 <= UnixToGpsSeconds u <= u ∧ GpsToUnixSeconds (UnixToGpsSeconds u) = u) as Hr.
  { intros u' Hu'. split; [|by apply unix_gps_unix]. rewrite UnixToGpsSeconds_spec, leaps_cases by done. unfold first_known, UNIX_GPS_DIFF in *. in_table. }
  split_and!.
  - apply UnixToGpsSeconds_spec. lia.
  - rewrite !UnixToGpsSeconds_spec, !leaps_cases by lia. in_table.
  - apply unix_gps_unix. lia.
  - apply scaled_roundtrip; [done|done|done].
  - apply scaled_roundtrip; [done|done|done].
  - rewrite UnixToGpsSeconds_spec, leaps_cases in Hg by (unfold first_known; lia).
    rewrite GpsToUnix_spec by (unfold UNIX_GPS_DIFF, first_known in *; cbn in Hg; lia).
    unfold UNIX_GPS_DIFF, first_known in *. cbn in Hg. cbv zeta.
    in_table; rewrite UnixToGpsSeconds_spec, leaps_cases by (unfold first_known; lia); unfold UNIX_GPS_DIFF; in_table; try (left; lia); right;
      (split; [lia|]); cbn; set_solver by lia.
  - intros y Hy. by apply UnixToGpsSeconds_before.
Qed.
End conversion.
End Conversion.

(** ** A concrete run *)
Module TimeSample.

(** A difference that is negative, as an unsigned number, and one that wraps. *)
Lemma time_arithmetic_witness :
  Time.add (Time.mk (2 ^ 64 - 1)) (Time.diff (Time.mk 5) (Time.mk (2 ^ 64 - 1))) = Time.mk 5 ∧
  Duration.nanoseconds_ (Time.diff (Time.mk 5) (Time.mk (2 ^ 64 - 1))) = 6.
Proof.
  split; [|by vm_compute].
  destruct (Time.time_arithmetic (Time.mk 5) (Time.mk (2 ^ 64 - 1)) (Duration.mk (-7)) (Duration.mk 3)) as [H _];
    [split; by vm_compute..|exact H].
Defined.

(** A cycle of 10; the second call is late by 2, the third on time again; the
    last one comes after more than two cycles. *)
Lemma rate_no_drift_witness :
  Rate.sleeps [104; 122; 125] (Rate.mk (Time.mk 100) (Duration.mk 10) (Duration.mk 0)) =
    ([Some (Time.mk 110); None; Some (Time.mk 130)], Rate.mk (Time.mk 130) (Duration.mk 10) (Duration.mk 5)) ∧
  (Rate.Sleep (Time.mk 151) (Rate.mk (Time.mk 130) (Duration.mk 10) (Duration.mk 5))).1 = None.
Proof.
  split; [by vm_compute|].
  destruct (Rate.rate_no_drift 10 100 [104; 122; 125] 151 (Duration.mk 0)) as (_ & _ & H & _);
    [lia|lia|cbn; lia|cbn; lia|lia|]. apply H. vm_compute. done.
Defined.

(** The second before the leap second of 2009, the one after it, and the leap
    second itself. *)
Lemma gps_conversion_witness :
  Conversion.UnixToGpsSeconds i64 1230767999 = 914803213 ∧ Conversion.UnixToGpsSeconds i64 1230768000 = 914803215 ∧
  Conversion.UnixToGpsSeconds i64 (Conversion.GpsToUnixSeconds i64 914803214) = 914803215 ∧
  Conversion.GpsToUnixSeconds i64 (Conversion.UnixToGpsSeconds i64 1230767999) = 1230767999.
Proof.
  split; [by vm_compute|]. split; [by vm_compute|]. split; [by vm_compute|].
  destruct (Conversion.gps_conversion i64 ltac:(intros z Hz; apply i64_small; lia) 1230767999 1230768000 (2 ^ 60) (2 ^ 61) 914803214) as (_ & _ & H & _);
    [split; vm_compute; congruence|by vm_compute|split; vm_compute; congruence|split; vm_compute; congruence|split; vm_compute; congruence|exact H].
Defined.
End TimeSample.
