(* ===== verification/Traits.v ===== *)
(** * Message headers and traits ([cyber/message/])

    [MessageHeader]: the fixed header of 192 bytes, its integers big-endian
    ([message_header.h]).  [Traits]: what the library asks of a message type, and
    a message with its header in one block of memory ([message_traits.h]).
    [RawMessage] and [PyMessageWrap]: the two message types of the library
    ([raw_message.h], [py_message.h]).

    A pointer is the bytes from there to the end of its object, or null; [None]
    as a result is an access outside of it.  What [protobuf] and the compiler
    know of a type are fields of the interface. *)

From S2P Require Import Prelude.

Local Open Scope Z_scope.
Local Open Scope cyber_scope.

(** ** Memory *)
Module Memory.
Definition ptr : Type := option (list Z).

(** [memcpy] of [src] to [dst]. *)
Definition copy_to (src : list Z) (dst : ptr) : option ptr :=
  m ← dst; if (length src <=? length m)%nat then Some (Some (src ++ drop (length src) m)) else None.

(** [n] bytes at [src]. *)
Definition copy_from (n : nat) (src : ptr) : option (list Z) :=
  m ← src; if (n <=? length m)%nat then Some (take n m) else None.

(** [p + n]. *)
Definition offset (n : nat) (p : ptr) : ptr := drop n <$> p.

(** What a callee did at [p + n] is seen at [p]. *)
Definition back (n : nat) (p q : ptr) : ptr := m ← p; r ← q; Some (take n m ++ r).

(** The C string at the start of [l]: it has to end somewhere. *)
Fixpoint c_string (l : list Z) : option (list Z) :=
  match l with [] => None | b :: l => if b =? 0 then Some [] else cons b <$> c_string l end.
(** The characters before the first zero. *)
Fixpoint c_str (l : list Z) : list Z :=
  match l with [] => [] | b :: l => if b =? 0 then [] else b :: c_str l end.

Lemma copy_to_fits src m : (length src <= length m)%nat → copy_to src (Some m) = Some (Some (src ++ drop (length src) m)).
Proof. intros. cbn. by rewrite (proj2 (Nat.leb_le _ _)) by lia. Qed.

Lemma copy_to_beyond src m : (length m < length src)%nat → copy_to src (Some m) = None.
Proof. intros. cbn. by rewrite (proj2 (Nat.leb_gt _ _)) by lia. Qed.

Lemma copy_from_fits n m : (n <= length m)%nat → copy_from n (Some m) = Some (take n m).
Proof. intros. cbn. by rewrite (proj2 (Nat.leb_le _ _)) by lia. Qed.

Lemma copy_from_Some n p l : copy_from n p = Some l → ∃ m, p = Some m ∧ (n <= length m)%nat ∧ l = take n m.
Proof. destruct p as [m|]; [|done]. cbn. destruct (Nat.leb_spec n (length m)); [|done]. intros [= <-]. by exists m. Qed.

Lemma c_string_app l k : c_string (l ++ 0 :: k) = Some (c_str l).
Proof. induction l as [|b l IH]; cbn; [done|]. destruct (b =? 0); [done|]. by rewrite IH. Qed.

Lemma c_string_is l x k : c_string l = Some x → c_string (l ++ k) = Some x.
Proof.
  revert x. induction l as [|b l IH]; intros x; cbn; [done|]. destruct (b =? 0); [done|].
  destruct (c_string l); [|done]. intros [= <-]. by rewrite (IH _ eq_refl).
Qed.

Lemma c_str_nonzero l : 0 ∉ l → c_str l = l.
Proof.
  induction l as [|b l IH]; cbn; [done|]. rewrite not_elem_of_cons. intros [Hb Hl].
  destruct (Z.eqb_spec b 0); [congruence|]. by rewrite IH.
Qed.
End Memory.

(** ** [MessageHeader] *)
Module MessageHeader.
Import Memory.

Record t := mk {
  magic_num_ : list Z; seq_ : list Z; timestamp_ns_ : list Z; src_id_ : list Z; dst_id_ : list Z;
  msg_type_ : list Z; res_ : list Z; content_size_ : list Z }.

(** The machine is little-endian, so [htonl] and [ntohl] reverse the bytes. *)
Definition htonl (n : Z) : Z := of_bytes (rev (bytes_of 4 n)).
Definition ntohl (n : Z) : Z := htonl n.

Definition Convert32ToArray (input : Z) : list Z := bytes_of 4 (htonl input).
Definition Convert64ToArray (input : Z) : list Z :=
  let h_high := u32 (Z.shiftr (Z.land input 0xffffffff00000000) 32) in
  let h_low := u32 (Z.land input 0x00000000ffffffff) in
  Convert32ToArray h_high ++ Convert32ToArray h_low.
Definition ConvertArrayTo32 (input : list Z) : Z := ntohl (of_bytes (take 4 input)).
Definition ConvertArrayTo64 (input : list Z) : Z :=
  let high := ConvertArrayTo32 input in
  let low := ConvertArrayTo32 (drop 4 input) in
  Z.lor (u64 (Z.shiftl high 32)) low.

Definition magic : list Z := string_bytes "BDACBDAC".
Definition zeros (n : nat) : list Z := replicate n 0.

Definition MessageHeader : t := mk magic (zeros 8) (zeros 8) (zeros 8) (zeros 8) (zeros 129) (zeros 19) (zeros 4).

(** [memcmp] reads eight bytes at [other]. *)
Definition is_magic_num_match (other : ptr) (other_len : nat) (h : t) : option bool :=
  match other with
  | None => Some false
  | Some _ =>
      if negb (other_len =? 8)%nat then Some false
      else o ← copy_from 8 other; Some (bool_decide (magic_num_ h = o))
  end.

Definition seq (h : t) : Z := ConvertArrayTo64 (seq_ h).
Definition timestamp_ns (h : t) : Z := ConvertArrayTo64 (timestamp_ns_ h).
Definition src_id (h : t) : Z := ConvertArrayTo64 (src_id_ h).
Definition dst_id (h : t) : Z := ConvertArrayTo64 (dst_id_ h).
Definition content_size (h : t) : Z := ConvertArrayTo32 (content_size_ h).
(** The pointer: from the field to the end of the header. *)
Definition msg_type (h : t) : list Z := msg_type_ h ++ res_ h ++ content_size_ h.

Definition upd_seq (x : list Z) (h : t) : t :=
  mk (magic_num_ h) x (timestamp_ns_ h) (src_id_ h) (dst_id_ h) (msg_type_ h) (res_ h) (content_size_ h).
Definition upd_timestamp_ns (x : list Z) (h : t) : t :=
  mk (magic_num_ h) (seq_ h) x (src_id_ h) (dst_id_ h) (msg_type_ h) (res_ h) (content_size_ h).
Definition upd_src_id (x : list Z) (h : t) : t :=
  mk (magic_num_ h) (seq_ h) (timestamp_ns_ h) x (dst_id_ h) (msg_type_ h) (res_ h) (content_size_ h).
Definition upd_dst_id (x : list Z) (h : t) : t :=
  mk (magic_num_ h) (seq_ h) (timestamp_ns_ h) (src_id_ h) x (msg_type_ h) (res_ h) (content_size_ h).
Definition upd_msg_type (x : list Z) (h : t) : t :=
  mk (magic_num_ h) (seq_ h) (timestamp_ns_ h) (src_id_ h) (dst_id_ h) x (res_ h) (content_size_ h).
Definition upd_content_size (x : list Z) (h : t) : t :=
  mk (magic_num_ h) (seq_ h) (timestamp_ns_ h) (src_id_ h) (dst_id_ h) (msg_type_ h) (res_ h) x.

Definition set_seq (v : Z) : t → t := upd_seq (Convert64ToArray v).
Definition set_timestamp_ns (v : Z) : t → t := upd_timestamp_ns (Convert64ToArray v).
Definition set_src_id (v : Z) : t → t := upd_src_id (Convert64ToArray v).
Definition set_dst_id (v : Z) : t → t := upd_dst_id (Convert64ToArray v).
Definition set_content_size (v : Z) : t → t := upd_content_size (Convert32ToArray v).

(** The characters and the terminating zero overwrite the start of the field; a
    source shorter than it says is read past its end. *)
Definition set_msg_type (src : ptr) (msg_type_len : nat) (h : t) : option t :=
  match src with
  | None => Some h
  | Some _ =>
      if (msg_type_len =? 0)%nat then Some h
      else
        let real_len := if (129 <=? msg_type_len)%nat then 128%nat else msg_type_len in
        s ← copy_from real_len src;
        Some (upd_msg_type (s ++ 0 :: drop (S real_len) (msg_type_ h)) h)
  end.

Definition reset_magic_num (h : t) : t :=
  mk magic (seq_ h) (timestamp_ns_ h) (src_id_ h) (dst_id_ h) (msg_type_ h) (res_ h) (content_size_ h).
Definition reset_seq : t → t := upd_seq (zeros 8).
Definition reset_timestamp_ns : t → t := upd_timestamp_ns (zeros 8).
Definition reset_src_id : t → t := upd_src_id (zeros 8).
Definition reset_dst_id : t → t := upd_dst_id (zeros 8).
Definition reset_msg_type : t → t := upd_msg_type (zeros 129).
Definition reset_res (h : t) : t :=
  mk (magic_num_ h) (seq_ h) (timestamp_ns_ h) (src_id_ h) (dst_id_ h) (msg_type_ h) (zeros 19) (content_size_ h).
Definition reset_content_size : t → t := upd_content_size (zeros 4).

(** The object in memory: all fields are arrays of [char], there is no padding. *)
Definition size : nat := 192.
Definition image (h : t) : list Z :=
  magic_num_ h ++ seq_ h ++ timestamp_ns_ h ++ src_id_ h ++ dst_id_ h ++ msg_type_ h ++ res_ h ++ content_size_ h.
Definition at_mem (m : list Z) : t :=
  mk (take 8 m) (take 8 (drop 8 m)) (take 8 (drop (8 + 8) m)) (take 8 (drop (8 + (8 + 8)) m))
     (take 8 (drop (8 + (8 + (8 + 8))) m)) (take 129 (drop (8 + (8 + (8 + (8 + 8)))) m))
     (take 19 (drop (8 + (8 + (8 + (8 + (8 + 129))))) m)) (take 4 (drop (8 + (8 + (8 + (8 + (8 + (129 + 19)))))) m)).

(** ** Every operation *)
Inductive op :=
  | OpSetSeq (v : Z) | OpSetTimestamp (v : Z) | OpSetSrcId (v : Z) | OpSetDstId (v : Z) | OpSetContentSize (v : Z)
  | OpSetMsgType (src : ptr) (len : nat)
  | OpResetMagic | OpResetSeq | OpResetTimestamp | OpResetSrcId | OpResetDstId | OpResetMsgType | OpResetRes | OpResetContentSize.

Definition apply (o : op) (h : t) : option t :=
  match o with
  | OpSetSeq v => Some (set_seq v h) | OpSetTimestamp v => Some (set_timestamp_ns v h)
  | OpSetSrcId v => Some (set_src_id v h) | OpSetDstId v => Some (set_dst_id v h)
  | OpSetContentSize v => Some (set_content_size v h) | OpSetMsgType src len => set_msg_type src len h
  | OpResetMagic => Some (reset_magic_num h) | OpResetSeq => Some (reset_seq h)
  | OpResetTimestamp => Some (reset_timestamp_ns h) | OpResetSrcId => Some (reset_src_id h)
  | OpResetDstId => Some (reset_dst_id h) | OpResetMsgType => Some (reset_msg_type h)
  | OpResetRes => Some (reset_res h) | OpResetContentSize => Some (reset_content_size h)
  end.
Fixpoint apply_all (os : list op) (h : t) : option t :=
  match os with [] => Some h | o :: os => h ← apply o h; apply_all os h end.

(** The arguments have the types of their parameters. *)
Definition typed (o : op) : Prop :=
  match o with
  | OpSetSeq v | OpSetTimestamp v | OpSetSrcId v | OpSetDstId v => 0 <= v < 2 ^ 64
  | OpSetContentSize v => 0 <= v < 2 ^ 32
  | OpSetMsgType (Some s) _ => Forall byte s
  | _ => True
  end.

(** ** Specification: five numbers and a string *)
Record view := View { v_seq : Z; v_timestamp : Z; v_src : Z; v_dst : Z; v_type : list Z; v_size : Z }.

Definition spec_apply (o : op) (v : view) : view :=
  let '(View s ts a b ty n) := v in
  match o with
  | OpSetSeq x => View x ts a b ty n | OpSetTimestamp x => View s x a b ty n
  | OpSetSrcId x => View s ts x b ty n | OpSetDstId x => View s ts a x ty n | OpSetContentSize x => View s ts a b ty x
  | OpSetMsgType None _ | OpSetMsgType _ O => v
  | OpSetMsgType (Some src) len => View s ts a b (c_str (take (min len 128) src)) n
  | OpResetSeq => View 0 ts a b ty n | OpResetTimestamp => View s 0 a b ty n
  | OpResetSrcId => View s ts 0 b ty n | OpResetDstId => View s ts a 0 ty n | OpResetContentSize => View s ts a b ty 0
  | OpResetMsgType => View s ts a b [] n
  | OpResetMagic | OpResetRes => v
  end.

(** An array of [n] characters. *)
Definition chars (n : nat) (l : list Z) : Prop := length l = n ∧ Forall byte l.
Definition well_typed (h : t) : Prop :=
  magic_num_ h = magic ∧ chars 8 (seq_ h) ∧ chars 8 (timestamp_ns_ h) ∧ chars 8 (src_id_ h) ∧ chars 8 (dst_id_ h) ∧
  chars 129 (msg_type_ h) ∧ chars 19 (res_ h) ∧ chars 4 (content_size_ h) ∧ msg_type_ h !! 128%nat = Some 0.
Definition viewed (h : t) (v : view) : Prop :=
  seq h = v_seq v ∧ timestamp_ns h = v_timestamp v ∧ src_id h = v_src v ∧ dst_id h = v_dst v ∧
  c_string (msg_type_ h) = Some (v_type v) ∧ content_size h = v_size v.

Lemma Forall_byte_bytes_of n z : Forall byte (bytes_of n z).
Proof. revert z. induction n as [|n IH]; intros z; cbn; constructor; [apply Z.mod_pos_bound; lia|done]. Qed.

Lemma chars_zeros n : chars n (zeros n).
Proof. split; [apply length_replicate|]. apply Forall_replicate. unfold byte. lia. Qed.

Lemma htonl_bounds n : 0 <= htonl n < 2 ^ 32.
Proof.
  unfold htonl. pose proof (of_bytes_bounds (rev (bytes_of 4 n))) as H.
  rewrite length_rev, length_bytes_of in H. apply H. apply Forall_rev. apply Forall_byte_bytes_of.
Qed.

Lemma ntohl_htonl n : 0 <= n < 2 ^ 32 → ntohl (htonl n) = n.
Proof.
  intros Hn. unfold ntohl, htonl at 1. unfold htonl.
  assert (bytes_of 4 (of_bytes (rev (bytes_of 4 n))) = rev (bytes_of 4 n)) as ->.
  { apply (bytes_of_of (rev (bytes_of 4 n))). apply Forall_rev, Forall_byte_bytes_of. }
  rewrite rev_involutive. by apply of_bytes_of.
Qed.

Lemma chars_32 v : chars 4 (Convert32ToArray v).
Proof. split; [apply length_bytes_of|apply Forall_byte_bytes_of]. Qed.

Lemma chars_64 v : chars 8 (Convert64ToArray v).
Proof.
  split; [unfold Convert64ToArray; by rewrite length_app, !(proj1 (chars_32 _))|].
  apply Forall_app. split; apply chars_32.
Qed.

Lemma length_32 v : length (Convert32ToArray v) = 4%nat.
Proof. apply chars_32. Qed.

Lemma array_32 v k : 0 <= v < 2 ^ 32 → ConvertArrayTo32 (Convert32ToArray v ++ k) = v.
Proof.
  intros Hv. unfold ConvertArrayTo32. rewrite take_app_length' by (by rewrite length_32). unfold Convert32ToArray.
  rewrite of_bytes_of by apply htonl_bounds. by apply ntohl_htonl.
Qed.

Lemma array_64 v : 0 <= v < 2 ^ 64 → ConvertArrayTo64 (Convert64ToArray v) = v.
Proof.
  intros Hv. unfold ConvertArrayTo64, Convert64ToArray. cbv zeta.
  rewrite land_low, land_high by done.
  pose proof (Z.mod_pos_bound v (2 ^ 32) ltac:(lia)) as Hl. pose proof (Z.div_mod v (2 ^ 32) ltac:(lia)) as Hdm.
  assert (0 <= v / 2 ^ 32 < 2 ^ 32) as Hh by (split; [apply Z.div_pos; lia|apply Z.div_lt_upper_bound; lia]).
  rewrite !u32_small by lia. rewrite array_32, drop_app_length' by (done || by rewrite length_32).
  rewrite <- (app_nil_r (Convert32ToArray (v mod _))), array_32 by done.
  rewrite u64_small by (rewrite Z.shiftl_mul_pow2 by lia; nia). rewrite lor_shiftl by done. lia.
Qed.

(** What is viewed of the fresh header. *)
Lemma well_typed_MessageHeader : well_typed MessageHeader ∧ viewed MessageHeader (View 0 0 0 0 [] 0).
Proof. split; [|by vm_compute]. split_and!; try apply chars_zeros; by vm_compute. Qed.

Lemma getters_zero : ConvertArrayTo64 (zeros 8) = 0 ∧ ConvertArrayTo32 (zeros 4) = 0.
Proof. by vm_compute. Qed.

Lemma array_32_nil v : 0 <= v < 2 ^ 32 → ConvertArrayTo32 (Convert32ToArray v) = v.
Proof. intros. rewrite <- (app_nil_r (Convert32ToArray v)). by apply array_32. Qed.

(** The type: real_len characters, a zero, and what was there before. *)
Lemma set_msg_type_spec src len h h' :
  well_typed h → Forall byte src → len ≠ O → set_msg_type (Some src) len h = Some h' →
  ∃ f, h' = upd_msg_type f h ∧ chars 129 f ∧ f !! 128%nat = Some 0 ∧ c_string f = Some (c_str (take (min len 128) src)).
Proof.
  intros (_ & _ & _ & _ & _ & [Hl Hb] & _ & _ & H0) Hsrc Hlen. unfold set_msg_type.
  destruct (Nat.eqb_spec len 0) as [|_]; [done|]. cbv zeta.
  assert ((if (129 <=? len)%nat then 128%nat else len) = min len 128) as -> by (destruct (Nat.leb_spec 129 len); lia).
  set (n := min len 128). destruct (copy_from n (Some src)) as [s|] eqn:Hc; [|done].
  apply copy_from_Some in Hc as (m & [= <-] & Hn & ->). intros [= <-]. eexists. split; [done|].
  assert (length (take n src) = n) as Htn by (rewrite length_take; lia).
  split_and!.
  - split; [rewrite length_app, Htn; cbn [length]; rewrite length_drop, Hl; lia|].
    apply Forall_app. split; [by apply Forall_take|]. constructor; [unfold byte; lia|by apply Forall_drop].
  - rewrite lookup_app_r by lia. rewrite Htn. destruct (128 - n)%nat as [|k] eqn:Hk; [done|].
    rewrite lookup_cons, lookup_drop, <- H0. f_equal. lia.
  - by rewrite c_string_app.
Qed.

Lemma viewed_type h x k : c_string (msg_type_ h) = Some x → c_string (msg_type h ++ k) = Some x.
Proof. intros. unfold msg_type. rewrite <- app_assoc. by apply c_string_is. Qed.

Lemma apply_spec o h h' v :
  typed o → well_typed h → viewed h v → apply o h = Some h' → well_typed h' ∧ viewed h' (spec_apply o v).
Proof.
  intros Ht Hw Hv Ha.
  destruct o as [x|x|x|x|x|src len| | | | | | | | ]; cbn [apply] in Ha;
    try (injection Ha as <-; destruct v, h; unfold viewed, well_typed in *; cbn in *; destruct_and!; subst;
         pose proof getters_zero as [? ?]; split_and!;
         done || apply chars_64 || apply chars_32 || apply chars_zeros || by apply array_64 || by apply array_32_nil || idtac).
  destruct src as [src|]; [|by simplify_eq/=; destruct v].
  destruct (decide (len = O)) as [->|Hlen]; [by simplify_eq/=; destruct v|].
  destruct (set_msg_type_spec src len h h' Hw Ht Hlen Ha) as (f & -> & Hf & H0 & Hc).
  destruct len as [|len]; [done|]. destruct v as [a b c d e g], h. unfold viewed, well_typed in *. cbn in Hw, Hv.
  destruct_and!. split_and!; done.
Qed.

Lemma apply_all_spec os h h' v :
  Forall typed os → well_typed h → viewed h v → apply_all os h = Some h' →
  well_typed h' ∧ viewed h' (foldl (flip spec_apply) v os).
Proof.
  intros Hos. revert h v. induction Hos as [|o os Ho _ IH]; intros h v Hw Hv; cbn; [by intros [= <-]|].
  destruct (apply o h) as [h1|] eqn:Ha; [|done]. cbn. destruct (apply_spec o h h1 v Ho Hw Hv Ha). by apply IH.
Qed.

Lemma length_image h : well_typed h → length (image h) = size.
Proof.
  intros (H0 & [H1 _] & [H2 _] & [H3 _] & [H4 _] & [H5 _] & [H6 _] & [H7 _] & _). unfold image.
  by rewrite !length_app, H0, H1, H2, H3, H4, H5, H6, H7.
Qed.

Lemma at_mem_image h k : well_typed h → at_mem (image h ++ k) = h.
Proof.
  intros (H0 & [H1 _] & [H2 _] & [H3 _] & [H4 _] & [H5 _] & [H6 _] & [H7 _] & _).
  assert (length (magic_num_ h) = 8%nat) as H8 by (by rewrite H0). destruct h as [f0 f1 f2 f3 f4 f5 f6 f7]. unfold at_mem, image.
  cbn [magic_num_ seq_ timestamp_ns_ src_id_ dst_id_ msg_type_ res_ content_size_] in *. rewrite <- !app_assoc.
  assert (∀ (a b : list Z) n m, length a = n → drop (n + m) (a ++ b) = drop m b) as Hd by (intros a b n m <-; apply drop_app_add).
  rewrite !Hd by done. by rewrite !drop_app_length', !take_app_length' by done.
Qed.

(** The bytes at a header are the fields: in memory it is read as it is. *)
Lemma msg_type_at h k : well_typed h → msg_type (at_mem (image h ++ k)) ++ drop size (image h ++ k) = msg_type h ++ k.
Proof. intros Hw. rewrite at_mem_image by done. by rewrite drop_app_length' by (by rewrite length_image). Qed.

(** Only a type shorter than it says is read out of bounds. *)
Lemma apply_all_total os h :
  Forall (λ o, ∀ src len, o = OpSetMsgType (Some src) len → (len <= length src)%nat) os → ∃ h', apply_all os h = Some h'.
Proof.
  intros Hlen. revert h. induction Hlen as [|o os Ho _ IH]; intros h; [by exists h|]. cbn [apply_all].
  assert (is_Some (apply o h)) as [h1 ->]; [|apply IH].
  destruct o as [ | | | | |[src|] len| | | | | | | | ]; try by eexists. cbn [apply]. unfold set_msg_type.
  destruct (Nat.eqb_spec len 0); [by eexists|]. cbv zeta. rewrite copy_from_fits; [by eexists|].
  specialize (Ho src len eq_refl). destruct (Nat.leb_spec 129 len); lia.
Qed.

(** C25: a header keeps its shape.  Whatever sequence of operations is carried
    out on it, it stays 192 bytes of the right fields, the type always ends with
    a zero inside its field, and it is read from memory as it was written.  The
    integers read back are those last set, each setter leaves the other fields
    alone, a type too long is cut to 128 characters and an empty one keeps the
    type of before; nothing but a type shorter than it says reads out of
    bounds. *)
Theorem header_well_typed os k :
  Forall typed os → Forall (λ o, ∀ src len, o = OpSetMsgType (Some src) len → (len <= length src)%nat) os →
  ∃ h, apply_all os MessageHeader = Some h ∧ well_typed h ∧ viewed h (foldl (flip spec_apply) (View 0 0 0 0 [] 0) os) ∧
    length (image h) = size ∧ at_mem (image h ++ k) = h ∧
    is_magic_num_match (Some magic) 8 h = Some true.
Proof.
  intros Hos Hlen. destruct well_typed_MessageHeader as [Hw Hv].
  destruct (apply_all_total os MessageHeader Hlen) as [h Hh].
  exists h. destruct (apply_all_spec os _ _ _ Hos Hw Hv Hh) as [Hwh Hvh]. split_and!; try done.
  - by apply length_image.
  - by apply at_mem_image.
  - unfold is_magic_num_match. cbn. destruct Hwh as [-> _]. by vm_compute.
Qed.
End MessageHeader.

(** ** The traits of a message type *)
Module Traits.
Import Memory MessageHeader.

(** [TypeName] as a member function, a static one or not at all; for messages
    of [protobuf] the full name of the descriptor. *)
Inductive type_name (T : Type) :=
  | member (f : T → list Z) | static (name : list Z) | absent | protobuf (full_name : list Z).
Arguments member {_}. Arguments static {_}. Arguments absent {_}. Arguments protobuf {_}.

(** What the type has of the functions the library looks for, [None] where it
    has not; and the name the compiler gives it. *)
Class MessageTraits (T : Type) := {
  HasType : type_name T;
  typeid_name : list Z;
  HasSetType : option (list Z → T → T);
  HasByteSize : option (T → Z);
  HasParseFromArray : option (ptr → Z → T → option (bool * T));
  HasParseFromString : option (list Z → T → bool * T);
  HasSerializeToArray : option (T → ptr → Z → option (bool * ptr));
  HasSerializeToString : option (T → option (list Z) → bool * option (list Z)) }.

Section traits.
Context {T : Type} `{MessageTraits T}.

Definition HasSerializer : bool :=
  bool_decide (is_Some HasSerializeToString) && bool_decide (is_Some HasParseFromString) &&
  bool_decide (is_Some HasSerializeToArray) && bool_decide (is_Some HasParseFromArray).

Definition MessageType (message : T) : list Z :=
  match HasType with member f => f message | static name => name | absent => typeid_name | protobuf n => n end.
(** Without a message. *)
Definition MessageType0 : list Z :=
  match HasType with static name => name | protobuf n => n | member _ | absent => typeid_name end.

Definition SetTypeName (name : list Z) (message : T) : T :=
  match HasSetType with Some f => f name message | None => message end.
Definition ByteSize (message : T) : Z := match HasByteSize with Some f => f message | None => -1 end.

Definition FullByteSize (message : T) : Z :=
  let content_size := ByteSize message in
  if content_size <? 0 then content_size else i32 (u64 (content_size + Z.of_nat size)).

Definition ParseFromArray (data : ptr) (n : Z) (message : T) : option (bool * T) :=
  match HasParseFromArray with Some f => f data n message | None => Some (false, message) end.
Definition ParseFromString (str : list Z) (message : T) : bool * T :=
  match HasParseFromString with Some f => f str message | None => (false, message) end.
Definition SerializeToArray (message : T) (data : ptr) (n : Z) : option (bool * ptr) :=
  match HasSerializeToArray with Some f => f message data n | None => Some (false, data) end.
Definition SerializeToString (message : T) (str : option (list Z)) : bool * option (list Z) :=
  match HasSerializeToString with Some f => f message str | None => (false, str) end.

(** [HC]: header and content. *)
Definition ParseFromHC (data : ptr) (n : Z) (message : T) : option (bool * T) :=
  match HasParseFromArray with
  | None => Some (false, message)
  | Some parse =>
      if n <? Z.of_nat size then Some (false, message)
      else
        m ← data;
        _ ← copy_from size data;
        let header := at_mem m in
        if u64 (n - Z.of_nat size) <? content_size header then Some (false, message)
        else
          type ← c_string (msg_type header ++ drop size m);
          parse (offset size data) (i32 (content_size header)) (SetTypeName type message)
  end.

Definition SerializeToHC (message : T) (data : ptr) (n : Z) : option (bool * ptr) :=
  match HasSerializeToArray with
  | None => Some (false, data)
  | Some _ =>
      let msg_size := ByteSize message in
      if msg_size <? 0 then Some (false, data)
      else
        let type_name := MessageType message in
        header ← set_msg_type (Some type_name) (length type_name) MessageHeader;
        let header := set_content_size (u32 msg_size) header in
        p ← copy_to (image header) data;
        let left_size := i32 (n - Z.of_nat size) in
        '(ok, q) ← SerializeToArray message (offset size p) left_size;
        Some (ok, back size p q)
  end.
End traits.

(** ** The contract of a message type

    [content] is what is serialized.  The functions agree on it, for contents
    whose size is an [int]: a buffer with room gets it and one without is refused,
    and what a message was serialized to is parsed back, whatever the parser makes
    of other bytes.  Nothing is asked about parsing an empty content: the message
    types of the library refuse it. *)
Class Message (T : Type) `{MessageTraits T} := {
  content : T → list Z;
  type_bytes m : Forall byte (MessageType m);
  byte_size m : Z.of_nat (length (content m)) < 2 ^ 31 → ByteSize m = Z.of_nat (length (content m));
  has_arrays : is_Some HasSerializeToArray ∧ is_Some HasParseFromArray;
  serialize m mem n :
    Z.of_nat (length (content m)) < 2 ^ 31 → Z.of_nat (length (content m)) <= n → (length (content m) <= length mem)%nat →
    SerializeToArray m (Some mem) n = Some (true, Some (content m ++ drop (length (content m)) mem));
  serialize_small m mem n :
    Z.of_nat (length (content m)) < 2 ^ 31 → n < Z.of_nat (length (content m)) →
    SerializeToArray m (Some mem) n = Some (false, Some mem);
  parse m m0 mem :
    content m ≠ [] → Z.of_nat (length (content m)) < 2 ^ 31 →
    ∃ m', ParseFromArray (Some (content m ++ mem)) (Z.of_nat (length (content m))) m0 = Some (true, m') ∧
      content m' = content m;
  strings m m0 str :
    SerializeToString m (Some str) = (true, Some (content m)) ∧
    ∃ m', ParseFromString (content m) m0 = (true, m') ∧ content m' = content m }.
End Traits.

(** ** The message types of the library *)
Module RawMessage.
Import Memory Traits.

Record t := mk { message : list Z; timestamp : Z }.

Definition RawMessage : t := mk [] 0.
Definition RawMessage1 (data : list Z) : t := mk data 0.
Definition RawMessage2 (data : list Z) (ts : Z) : t := mk data ts.
Definition assign (raw_msg : t) : t := mk (message raw_msg) (timestamp raw_msg).

Definition ByteSize (m : t) : Z := i32 (Z.of_nat (length (message m))).

Definition SerializeToArray (m : t) (data : ptr) (size : Z) : option (bool * ptr) :=
  match data with
  | None => Some (false, data)
  | Some _ => if size <? ByteSize m then Some (false, data) else p ← copy_to (message m) data; Some (true, p)
  end.

Definition SerializeToString (m : t) (str : option (list Z)) : bool * option (list Z) :=
  match str with None => (false, None) | Some _ => (true, Some (message m)) end.

Definition ParseFromArray (data : ptr) (size : Z) (m : t) : option (bool * t) :=
  match data with
  | None => Some (false, m)
  | Some _ => if size <=? 0 then Some (false, m) else l ← copy_from (Z.to_nat size) data; Some (true, mk l (timestamp m))
  end.

Definition ParseFromString (str : list Z) (m : t) : bool * t := (true, mk str (timestamp m)).

Definition TypeName : list Z := string_bytes "apollo.cyber.message.RawMessage".

(** The name the compiler gives the type is not asked for. *)
#[export] Instance traits : MessageTraits t := {
  HasType := static TypeName; typeid_name := []; HasSetType := None; HasByteSize := Some ByteSize;
  HasParseFromArray := Some ParseFromArray; HasParseFromString := Some ParseFromString;
  HasSerializeToArray := Some SerializeToArray; HasSerializeToString := Some SerializeToString }.
End RawMessage.

Module PyMessageWrap.
Import Memory Traits.

Record t := mk { data_ : list Z; type_name_ : list Z }.

Definition PyMessageWrap : t := mk [] [].
Definition PyMessageWrap2 (msg type_name : list Z) : t := mk msg type_name.
Definition copy (msg : t) : t := mk (data_ msg) (type_name_ msg).

Definition data (m : t) : list Z := data_ m.
Definition set_data (msg : list Z) (m : t) : t := mk msg (type_name_ m).
Definition type_name (m : t) : list Z := type_name_ m.
Definition set_type_name (name : list Z) (m : t) : t := mk (data_ m) name.

Definition ByteSize (m : t) : Z := i32 (Z.of_nat (length (data_ m))).

Definition ParseFromArray (data : ptr) (size : Z) (m : t) : option (bool * t) :=
  match data with
  | None => Some (false, m)
  | Some _ => if size <=? 0 then Some (false, m) else l ← copy_from (Z.to_nat size) data; Some (true, set_data l m)
  end.

Definition ParseFromString (msgstr : list Z) (m : t) : bool * t := (true, set_data msgstr m).

Definition SerializeToArray (m : t) (data : ptr) (size : Z) : option (bool * ptr) :=
  match data with
  | None => Some (false, data)
  | Some _ => if size <? ByteSize m then Some (false, data) else p ← copy_to (data_ m) data; Some (true, p)
  end.

Definition SerializeToString (m : t) (output : option (list Z)) : bool * option (list Z) :=
  match output with None => (false, None) | Some _ => (true, Some (data_ m)) end.

Definition PY_MESSAGE_FULLNAME : list Z := string_bytes "apollo.cyber.message.PyMessage".
Definition TypeName : list Z := PY_MESSAGE_FULLNAME.

#[export] Instance traits : MessageTraits t := {
  HasType := static TypeName; typeid_name := []; HasSetType := None; HasByteSize := Some ByteSize;
  HasParseFromArray := Some ParseFromArray; HasParseFromString := Some ParseFromString;
  HasSerializeToArray := Some SerializeToArray; HasSerializeToString := Some SerializeToString }.
End PyMessageWrap.

(** ** Both keep the contract *)
Module Contracts.
Import Memory Traits.

Lemma bytes_ok (l : list Z) : forallb (λ b, (0 <=? b) && (b <? 256)) l = true → Forall byte l.
Proof. rewrite forallb_forall, Forall_forall. intros H b Hb. apply list_elem_of_In, H in Hb. unfold byte. lia. Qed.

(** The common shape of the functions: a string is copied out or in. *)
Lemma store_fits (l mem : list Z) n :
  Z.of_nat (length l) < 2 ^ 31 → Z.of_nat (length l) <= n → (length l <= length mem)%nat →
  (if n <? i32 (Z.of_nat (length l)) then Some (false, Some mem) else p ← copy_to l (Some mem); Some (true, p)) =
    Some (true, Some (l ++ drop (length l) mem)).
Proof. intros. by rewrite i32_small, (proj2 (Z.ltb_ge _ _)), copy_to_fits by lia. Qed.

Lemma store_small (l mem : list Z) n :
  Z.of_nat (length l) < 2 ^ 31 → n < Z.of_nat (length l) →
  (if n <? i32 (Z.of_nat (length l)) then Some (false, Some mem) else p ← copy_to l (Some mem); Some (true, p)) =
    Some (false, Some mem).
Proof. intros. by rewrite i32_small, (proj2 (Z.ltb_lt _ _)) by lia. Qed.

Lemma load_fits {A} (f : list Z → A) (m : A) (mem : list Z) n :
  (0 < n <= length mem)%nat →
  (if Z.of_nat n <=? 0 then Some (false, m) else l ← copy_from (Z.to_nat (Z.of_nat n)) (Some mem); Some (true, f l)) =
    Some (true, f (take n mem)).
Proof. intros. by rewrite (proj2 (Z.leb_gt _ _)), Nat2Z.id, copy_from_fits by lia. Qed.

Lemma load_content {A} (f : list Z → A) (g : A → list Z) (m : A) (l mem : list Z) :
  (∀ k, g (f k) = k) → l ≠ [] →
  (if Z.of_nat (length l) <=? 0 then Some (false, m)
   else l ← copy_from (Z.to_nat (Z.of_nat (length l))) (Some (l ++ mem)); Some (true, f l)) = Some (true, f l) ∧
  g (f l) = l.
Proof.
  intros Hg Hl. split; [|apply Hg]. rewrite load_fits by (rewrite length_app; destruct l; [done|cbn; lia]).
  by rewrite take_app_length.
Qed.

#[global] Existing Instances RawMessage.traits PyMessageWrap.traits.

#[global] Program Instance raw : Message RawMessage.t := {| content := RawMessage.message |}.
Next Obligation. intros m. by apply bytes_ok. Qed.
Next Obligation. intros m Hm. by apply i32_small; lia. Qed.
Next Obligation. split; by eexists. Qed.
Next Obligation. intros m. apply store_fits. Qed.
Next Obligation. intros m. apply store_small. Qed.
Next Obligation. intros m m0 mem Hm _. eexists. by apply (load_content (λ l, RawMessage.mk l _)). Qed.
Next Obligation. intros. split; [done|]. by eexists. Qed.

#[global] Program Instance py : Message PyMessageWrap.t := {| content := PyMessageWrap.data_ |}.
Next Obligation. intros m. by apply bytes_ok. Qed.
Next Obligation. intros m Hm. by apply i32_small; lia. Qed.
Next Obligation. split; by eexists. Qed.
Next Obligation. intros m. apply store_fits. Qed.
Next Obligation. intros m. apply store_small. Qed.
Next Obligation. intros m m0 mem Hm _. eexists. by apply (load_content (λ l, PyMessageWrap.set_data l m0)). Qed.
Next Obligation. intros. split; [done|]. by eexists. Qed.
End Contracts.

(** ** A message with its header *)
Module HC.
Import Memory MessageHeader Traits.

Section hc.
Context {T : Type} `{Message T}.
Implicit Types m : T.

(** The type that arrives: up to a zero, and at most 128 characters. *)
Definition sent_type m : list Z := c_str (take 128 (MessageType m)).

Lemma header_of m n :
  0 <= n < 2 ^ 32 →
  ∃ h0 h, set_msg_type (Some (MessageType m)) (length (MessageType m)) MessageHeader = Some h0 ∧
    set_content_size n h0 = h ∧ well_typed h ∧ c_string (msg_type_ h) = Some (sent_type m) ∧ content_size h = n.
Proof.
  intros Hn. set (ty := MessageType m).
  assert (Forall byte ty) as Hb by apply type_bytes.
  assert (Forall typed [OpSetMsgType (Some ty) (length ty); OpSetContentSize n]) as Ht by (constructor; [done|by constructor]).
  destruct (apply_all_total [OpSetMsgType (Some ty) (length ty); OpSetContentSize n] MessageHeader) as [h Hh].
  { constructor; [naive_solver|]. constructor; [done|constructor]. }
  destruct well_typed_MessageHeader as [Hw0 Hv0].
  destruct (apply_all_spec _ _ _ _ Ht Hw0 Hv0 Hh) as [Hw (_ & _ & _ & _ & Hty & Hsz)]. cbn [apply_all apply] in Hh.
  destruct (set_msg_type _ _ _) as [h0|] eqn:Hset; [|done]. cbn in Hh. injection Hh as Hh. exists h0, h.
  split_and!; [done..| |].
  - unfold sent_type. fold ty. rewrite Hty. cbn [foldl flip spec_apply].
    assert (take (min (length ty) 128) ty = take 128 ty) as Htk by (by rewrite Nat.min_comm, <- take_take, (take_ge ty)).
    destruct (length ty) as [|k] eqn:Hl; [by apply nil_length_inv in Hl as ->|]. cbn [v_type]. by rewrite Htk.
  - rewrite Hsz. cbn. by destruct (length ty).
Qed.

Lemma SerializeToHC_unfold m mem n :
  Z.of_nat (length (content m)) < 2 ^ 31 → (size <= length mem)%nat →
  ∃ h, well_typed h ∧ c_string (msg_type_ h) = Some (sent_type m) ∧ content_size h = Z.of_nat (length (content m)) ∧
    SerializeToHC m (Some mem) n =
      '(ok, q) ← SerializeToArray m (Some (drop size mem)) (i32 (n - Z.of_nat size));
      Some (ok, back size (Some (image h ++ drop size mem)) q).
Proof.
  intros Hc Hm. assert (0 <= Z.of_nat (length (content m)) < 2 ^ 32) as Hb by lia.
  destruct (header_of m _ Hb) as (h0 & h & Hset & Hh & Hw & Hty & Hsz).
  exists h. split_and!; [done..|]. unfold SerializeToHC. cbv zeta. destruct has_arrays as [[ser Hser] _]. rewrite Hser, byte_size by done.
  rewrite (proj2 (Z.ltb_ge _ _)), u32_small, Hset by lia. cbn [mbind option_bind]. rewrite Hh, copy_to_fits by (by rewrite length_image).
  cbn [mbind option_bind]. rewrite length_image by done. cbn [offset fmap option_fmap option_map].
  by rewrite drop_app_length' by (by rewrite length_image).
Qed.

Lemma SerializeToHC_beyond m mem n :
  Z.of_nat (length (content m)) < 2 ^ 31 → (length mem < size)%nat → SerializeToHC m (Some mem) n = None.
Proof.
  intros Hc Hm. assert (0 <= Z.of_nat (length (content m)) < 2 ^ 32) as Hb by lia.
  destruct (header_of m _ Hb) as (h0 & h & Hset & Hh & Hw & _).
  unfold SerializeToHC. cbv zeta. destruct has_arrays as [[ser Hser] _]. rewrite Hser, byte_size by done.
  rewrite (proj2 (Z.ltb_ge _ _)), u32_small, Hset by lia. cbn [mbind option_bind]. by rewrite Hh, copy_to_beyond by (by rewrite length_image).
Qed.

Lemma ParseFromHC_unfold h mem ty n m0 :
  well_typed h → c_string (msg_type_ h) = Some ty → Z.of_nat size <= n < 2 ^ 31 → content_size h <= n - Z.of_nat size →
  ParseFromHC (Some (image h ++ mem)) n m0 = ParseFromArray (Some mem) (i32 (content_size h)) (SetTypeName ty m0).
Proof.
  intros Hw Hty Hn Hs. pose proof (length_image h Hw) as Hl. unfold ParseFromHC, ParseFromArray. cbv zeta.
  destruct has_arrays as [_ [parse Hparse]]. rewrite Hparse, (proj2 (Z.ltb_ge n _)) by lia. cbn [mbind option_bind].
  rewrite copy_from_fits by (rewrite length_app; lia). cbn [mbind option_bind].
  rewrite msg_type_at, at_mem_image, u64_small, (proj2 (Z.ltb_ge _ _)) by (done || lia).
  unfold msg_type. rewrite <- app_assoc, (c_string_is _ ty) by done. cbn [mbind option_bind offset fmap option_fmap option_map].
  by rewrite drop_app_length' by done.
Qed.

(** The block after a call that wrote [r] behind the header. *)
Lemma back_image h k r : well_typed h → back size (Some (image h ++ k)) (Some r) = Some (image h ++ r).
Proof. intros Hw. cbn. by rewrite take_app_length' by (by rewrite length_image). Qed.

(** C27: a message and its header go through memory together.  For a message of a
    type that keeps the contract [Message], serialized to at least one byte, in a
    block with room for both: what was written is read back, the content, with the
    type name cut to 128 characters, whatever the reader's message held and however
    much longer the block is.  The bytes after the message are left as they
    were, and [FullByteSize] is the room needed.  (An empty content is not read
    back: [hc_empty_message].) *)
Theorem hc_roundtrip m mem n :
  let total := (size + length (content m))%nat in
  content m ≠ [] → Z.of_nat total <= n < 2 ^ 31 → (total <= length mem)%nat →
  FullByteSize m = Z.of_nat total ∧
  ∃ mem', SerializeToHC m (Some mem) n = Some (true, Some mem') ∧ length mem' = length mem ∧ drop total mem' = drop total mem ∧
    ∀ m0 n', Z.of_nat total <= n' < 2 ^ 31 → ∃ m',
      ParseFromHC (Some mem') n' m0 = Some (true, m') ∧ content m' = content m ∧
      ParseFromArray (Some (content m ++ drop total mem)) (Z.of_nat (length (content m))) (SetTypeName (sent_type m) m0) = Some (true, m').
Proof.
  intros total Hne Hn Hl. assert (0 < length (content m))%nat as Hpos by (destruct (content m); [done|cbn; lia]).
  unfold total in *. clear total. rewrite Nat2Z.inj_add in *. unfold size in Hn, Hl. split.
  { unfold FullByteSize. rewrite byte_size, (proj2 (Z.ltb_ge _ _)) by lia. unfold size. rewrite u64_small, i32_small; lia. }
  destruct (SerializeToHC_unfold m mem n) as (h & Hw & Hty & Hsz & ->); [lia|unfold size; lia|].
  pose proof (length_image h Hw) as Hi. rewrite (i32_small (n - Z.of_nat size)) by (unfold size; lia).
  rewrite serialize by (rewrite ?length_drop; unfold size; lia). cbn [mbind option_bind]. rewrite back_image by done.
  rewrite drop_drop. eexists. split; [done|]. split; [|split].
  - rewrite !length_app, length_drop, Hi. unfold size. lia.
  - rewrite app_assoc, drop_app_length'; [done|]. by rewrite length_app, Hi.
  - intros m0 n' Hn'. rewrite (ParseFromHC_unfold h _ (sent_type m)) by (done || unfold size in *; lia).
    rewrite Hsz, i32_small by lia.
    destruct (parse m (SetTypeName (sent_type m) m0) (drop (size + length (content m)) mem)) as (m' & Hp & Hc); [done|lia|].
    by exists m'.
Qed.

(** When there is no room.  A block shorter than a header is written past
    its end, whatever size the caller gives; with room for the header only, the
    call fails with the header written.  Reading refuses a block that is shorter
    than a header, and a header that claims more content than the block holds. *)
Theorem hc_errors m mem n h m0 k :
  Z.of_nat (length (content m)) < 2 ^ 31 - Z.of_nat size → - 2 ^ 30 <= n < Z.of_nat size + Z.of_nat (length (content m)) →
  well_typed h → n < 2 ^ 31 →
  ((length mem < size)%nat → SerializeToHC m (Some mem) n = None) ∧
  ((size <= length mem)%nat → ∃ h', well_typed h' ∧ SerializeToHC m (Some mem) n = Some (false, Some (image h' ++ drop size mem))) ∧
  (n < Z.of_nat size → ParseFromHC (Some mem) n m0 = Some (false, m0)) ∧
  (Z.of_nat size <= n → n - Z.of_nat size < content_size h → ParseFromHC (Some (image h ++ k)) n m0 = Some (false, m0)).
Proof.
  intros Hc Hn Hw Hn31. split_and!.
  - apply SerializeToHC_beyond. unfold size in *. lia.
  - intros Hm. destruct (SerializeToHC_unfold m mem n) as (h' & Hw' & _ & _ & ->); [unfold size in *; lia|done|].
    exists h'. split; [done|]. rewrite (i32_small (n - Z.of_nat size)) by (unfold size in *; lia). rewrite serialize_small by (unfold size in *; lia).
    cbn [mbind option_bind]. by rewrite (back_image h').
  - intros Hs. unfold ParseFromHC. destruct has_arrays as [_ [parse ->]]. by rewrite (proj2 (Z.ltb_lt _ _)).
  - intros Hs Hsz. unfold ParseFromHC. cbv zeta. destruct has_arrays as [_ [parse ->]]. rewrite (proj2 (Z.ltb_ge n _)) by lia.
    cbn [mbind option_bind]. rewrite copy_from_fits by (rewrite length_app, length_image; [lia|done]). cbn [mbind option_bind].
    rewrite at_mem_image, u64_small, (proj2 (Z.ltb_lt _ _)) by (done || lia). done.
Qed.
End hc.

(** An empty message is sent but not received: the block is written as
    for any other, and [ParseFromArray] refuses a size of 0.  For both message
    types of the library. *)
Theorem hc_empty_message mem n ts type (m1 : RawMessage.t) (m2 : PyMessageWrap.t) :
  Z.of_nat size <= n < 2 ^ 31 → (size <= length mem)%nat →
  (∃ mem', SerializeToHC (RawMessage.RawMessage2 [] ts) (Some mem) n = Some (true, Some mem') ∧
     ∀ n', Z.of_nat size <= n' < 2 ^ 31 → ParseFromHC (Some mem') n' m1 = Some (false, m1)) ∧
  (∃ mem', SerializeToHC (PyMessageWrap.PyMessageWrap2 [] type) (Some mem) n = Some (true, Some mem') ∧
     ∀ n', Z.of_nat size <= n' < 2 ^ 31 → ParseFromHC (Some mem') n' m2 = Some (false, m2)).
Proof.
  intros Hn Hm.
  assert (∀ T `{Message T} (m : T), content m = [] → ∃ h, well_typed h ∧ content_size h = 0 ∧
    c_string (msg_type_ h) = Some (sent_type m) ∧ SerializeToHC m (Some mem) n = Some (true, Some (image h ++ drop size mem))) as Hsend.
  { intros T HT HM m Hc. destruct (SerializeToHC_unfold m mem n) as (h & Hw & Hty & Hsz & ->); [by rewrite Hc|done|].
    exists h. rewrite Hc in Hsz. split_and!; [done..|]. rewrite (i32_small (n - Z.of_nat size)) by (unfold size in *; lia).
    rewrite serialize by (rewrite Hc; cbn; unfold size in *; lia). cbn [mbind option_bind]. rewrite back_image, Hc by done. done. }
  split.
  - destruct (Hsend RawMessage.t _ Contracts.raw (RawMessage.RawMessage2 [] ts) eq_refl) as (h & Hw & Hsz & Hty & ->). eexists. split; [done|].
    intros n' Hn'. rewrite (ParseFromHC_unfold h _ _ _ _ Hw Hty Hn') by lia. by rewrite Hsz.
  - destruct (Hsend PyMessageWrap.t _ Contracts.py (PyMessageWrap.PyMessageWrap2 [] type) eq_refl) as (h & Hw & Hsz & Hty & ->). eexists. split; [done|].
    intros n' Hn'. rewrite (ParseFromHC_unfold h _ _ _ _ Hw Hty Hn') by lia. by rewrite Hsz.
Qed.
End HC.

(** ** Concrete runs *)
Module TraitsSample.
Import Memory MessageHeader Traits HC.

Definition chatter : list Z := string_bytes "Chatter".
Definition ops : list op :=
  [OpSetSeq 0xffffffff00000001; OpSetMsgType (Some (string_bytes "SomethingLonger")) 15; OpSetContentSize 0xffff0001;
   OpSetMsgType (Some chatter) 7; OpSetMsgType None 1; OpSetSrcId 7; OpResetSrcId].

Lemma header_well_typed_witness :
  (∃ h, apply_all ops MessageHeader = Some h ∧ seq h = 0xffffffff00000001 ∧ src_id h = 0 ∧
     c_string (msg_type h) = Some chatter ∧ take 12 (msg_type_ h) = chatter ++ [0] ++ string_bytes "gLon") ∧
  ∃ h, apply_all ops MessageHeader = Some h ∧ length (image h) = size.
Proof.
  split; [eexists; split; [by vm_compute|]; split_and!; by vm_compute|].
  destruct (header_well_typed ops []) as (h & Hh & _ & _ & Hi & _).
  - repeat (constructor; [first [exact I | by apply Contracts.bytes_ok | cbn; lia]|]). constructor.
  - repeat (constructor; [intros src len Heq; simplify_eq; cbn; lia|]). constructor.
  - exists h. by split.
Defined.

(** A message of one field, read by a parser that refuses what no message is
    serialized to, as those of protobuf do. *)
Definition tiny_parse (d : list Z) (m : Z) : bool * Z :=
  match d with [8; v] => if (1 <=? v) && (v <? 128) then (true, v) else (false, m) | _ => (false, m) end.
Definition tiny_bytes (m : Z) : list Z := [8; Z.max 1 (Z.min m 127)].
Lemma tiny_parses m m0 : tiny_parse (tiny_bytes m) m0 = (true, Z.max 1 (Z.min m 127)) ∧ tiny_bytes (Z.max 1 (Z.min m 127)) = tiny_bytes m.
Proof.
  unfold tiny_parse, tiny_bytes. rewrite (proj2 (Z.leb_le _ _)), (proj2 (Z.ltb_lt _ _)) by lia.
  split; [done|]. do 2 f_equal. lia.
Qed.
#[local] Instance tiny : MessageTraits Z := {
  HasType := protobuf chatter;
  typeid_name := [];
  HasSetType := None;
  HasByteSize := Some (λ _, 2);
  HasParseFromArray := Some (λ data n m, d ← copy_from (Z.to_nat n) data; Some (tiny_parse d m));
  HasParseFromString := Some tiny_parse;
  HasSerializeToArray :=
    Some (λ m data n, if n <? 2 then Some (false, data) else p ← copy_to (tiny_bytes m) data; Some (true, p));
  HasSerializeToString := Some (λ m str, (true, Some (tiny_bytes m)))
}.
#[local] Program Instance tiny_message : Message Z := {| content := tiny_bytes |}.
Next Obligation. intros m. by apply Contracts.bytes_ok. Qed.
Next Obligation. done. Qed.
Next Obligation. split; by eexists. Qed.
Next Obligation. 
  intros m mem n _ Hn Hm. unfold SerializeToArray. cbn [HasSerializeToArray tiny]. cbn in Hn.
  rewrite (proj2 (Z.ltb_ge _ _)) by lia. by rewrite copy_to_fits.
Qed.
Next Obligation.
  intros m mem n _ Hn. unfold SerializeToArray. cbn [HasSerializeToArray tiny]. cbn in Hn.
  by rewrite (proj2 (Z.ltb_lt _ _)) by lia.
Qed.
Next Obligation.
  intros m m0 mem _ _. destruct (tiny_parses m m0) as [H1 H2]. exists (Z.max 1 (Z.min m 127)). split; [|done].
  unfold ParseFromArray. cbn [HasParseFromArray tiny]. rewrite copy_from_fits by (rewrite length_app; cbn; lia).
  cbn [mbind option_bind]. rewrite Nat2Z.id, take_app_length. by rewrite H1.
Qed.
Next Obligation.
  intros m m0 str. split; [done|]. destruct (tiny_parses m m0) as [H1 H2]. by exists (Z.max 1 (Z.min m 127)).
Qed.

Definition hello : RawMessage.t := RawMessage.RawMessage2 (string_bytes "hello") 3.

(** A block of 200 bytes: five for the message, three left alone; and the same for a
    message whose parser is choosy. *)
Lemma hc_roundtrip_witness :
  FullByteSize hello = 197 ∧
  (p ← SerializeToHC hello (Some (replicate 200 9)) 200; ParseFromHC (snd p) 200 RawMessage.RawMessage) =
    Some (true, RawMessage.RawMessage1 (string_bytes "hello")) ∧
  tiny_parse [9; 9] 1 = (false, 1) ∧
  ∃ mem', SerializeToHC 77 (Some (replicate 200 9)) 200 = Some (true, Some mem') ∧
    ∃ m', ParseFromHC (Some mem') 200 1 = Some (true, m') ∧ tiny_bytes m' = [8; 77].
Proof.
  split; [|split; [by vm_compute|split; [done|]]].
  - destruct (hc_roundtrip hello (replicate 200 9) 200) as [H _]; [done|vm_compute; split; congruence|vm_compute; lia|exact H].
  - destruct (hc_roundtrip 77 (replicate 200 9) 200) as [_ (mem' & H1 & _ & _ & H2)];
      [done|vm_compute; split; congruence|vm_compute; lia|]. exists mem'. split; [exact H1|].
    destruct (H2 1 200) as (m' & H3 & H4 & _); [vm_compute; split; congruence|]. exists m'. split; [exact H3|exact H4].
Defined.

(** The block is too small for the message: the header is there. *)
Lemma hc_errors_witness :
  SerializeToHC hello (Some (replicate 100 9)) 100 = None ∧
  (SerializeToHC hello (Some (replicate 194 9)) 194 ≫= (λ p, drop 192 <$> snd p)) = Some [9; 9] ∧
  ParseFromHC (Some (replicate 100 9)) 100 hello = Some (false, hello).
Proof.
  split; [by vm_compute|]. split; [by vm_compute|].
  destruct (hc_errors hello (replicate 100 9) 100 MessageHeader hello []) as (_ & _ & H & _);
    [by vm_compute|split; by vm_compute|apply well_typed_MessageHeader|by vm_compute|].
  apply H. by vm_compute.
Defined.

Lemma hc_empty_message_witness :
  (∃ mem', SerializeToHC (RawMessage.RawMessage2 [] 3) (Some (replicate 200 9)) 200 = Some (true, Some mem') ∧
     ParseFromHC (Some mem') 200 hello = Some (false, hello)).
Proof.
  destruct (hc_empty_message (replicate 200 9) 200 3 [] hello PyMessageWrap.PyMessageWrap) as [(mem' & H1 & H2) _];
    [split; by vm_compute|vm_compute; lia|].
  exists mem'. split; [exact H1|]. apply H2. split; by vm_compute.
Defined.
End TraitsSample.
