(* ===== verification/Poller.v ===== *)
(** * The poller ([cyber/io/poller.h], [cyber/io/poller.cc], [cyber/io/poll_data.h])

    One thread waits in [epoll_wait] for all routines.  [Register] and
    [Unregister] change the map of requests and leave a change for the thread,
    which carries it out with [epoll_ctl] before it waits again.

    The kernel is an interface: what is registered, and [epoll_ctl] with its
    documented results.  What [epoll_wait] returns and the clock are arguments.
    The critical sections of [poll_data_lock_] and the calls without it are the
    steps; [std::unordered_map] is walked in any order. *)

From S2P Require Import Prelude.

Local Open Scope Z_scope.
Local Open Scope cyber_scope.

(** ** The kernel *)
Module Epoll.
Inductive ctl_op := EPOLL_CTL_ADD | EPOLL_CTL_MOD | EPOLL_CTL_DEL.

(** [interest]: the descriptors registered with their events; [pollable]: open
    and of a kind that can be.  [epoll_ctl] returns whether it succeeded. *)
Class Epoll (K : Type) := {
  interest : K → gmap Z Z;
  pollable : K → gset Z;
  epoll_ctl : ctl_op → Z → Z → K → bool * K;
  close_fd : Z → K → K;
  open_fd : Z → K → K }.

(** epoll_ctl(2), and close(2) for a file that no other descriptor refers to. *)
Class EpollLaws (K : Type) `{Epoll K} := {
  ctl_pollable op fd e k : pollable (epoll_ctl op fd e k).2 = pollable k;
  ctl_add fd e k : fd ∈ pollable k → interest k !! fd = None →
    (epoll_ctl EPOLL_CTL_ADD fd e k).1 = true ∧ interest (epoll_ctl EPOLL_CTL_ADD fd e k).2 = <[fd := e]> (interest k);
  ctl_mod fd e k : fd ∈ pollable k → is_Some (interest k !! fd) →
    (epoll_ctl EPOLL_CTL_MOD fd e k).1 = true ∧ interest (epoll_ctl EPOLL_CTL_MOD fd e k).2 = <[fd := e]> (interest k);
  ctl_del fd e k : is_Some (interest k !! fd) → fd ∈ pollable k →
    (epoll_ctl EPOLL_CTL_DEL fd e k).1 = true ∧ interest (epoll_ctl EPOLL_CTL_DEL fd e k).2 = delete fd (interest k);
  ctl_exists fd e k : is_Some (interest k !! fd) →
    (epoll_ctl EPOLL_CTL_ADD fd e k).1 = false ∧ interest (epoll_ctl EPOLL_CTL_ADD fd e k).2 = interest k;
  ctl_absent op fd e k : interest k !! fd = None → op ≠ EPOLL_CTL_ADD →
    (epoll_ctl op fd e k).1 = false ∧ interest (epoll_ctl op fd e k).2 = interest k;
  ctl_unpollable op fd e k : fd ∉ pollable k →
    (epoll_ctl op fd e k).1 = false ∧ interest (epoll_ctl op fd e k).2 = interest k;
  registered_pollable fd k : is_Some (interest k !! fd) → fd ∈ pollable k;
  close_spec fd k : interest (close_fd fd k) = delete fd (interest k) ∧ pollable (close_fd fd k) = pollable k ∖ {[fd]};
  open_spec fd k : interest (open_fd fd k) = interest k ∧ pollable (open_fd fd k) = pollable k ∪ {[fd]} }.

(** A kernel: the open descriptors, with their events if they are registered. *)
Module Model.
Abbreviation t := (gmap Z (option Z)).

Definition ctl (op : ctl_op) (fd e : Z) (k : t) : bool * t :=
  match op, k !! fd with
  | EPOLL_CTL_ADD, Some None | EPOLL_CTL_MOD, Some (Some _) => (true, <[fd := Some e]> k)
  | EPOLL_CTL_DEL, Some (Some _) => (true, <[fd := None]> k)
  | _, _ => (false, k)
  end.

#[global] Instance epoll : Epoll t := {
  interest k := omap id k; pollable k := dom k; epoll_ctl := ctl;
  close_fd fd k := delete fd k; open_fd fd k := if decide (fd ∈ dom k) then k else <[fd := None]> k }.

Lemma interest_lookup (k : t) fd : interest k !! fd = k !! fd ≫= id.
Proof. apply lookup_omap. Qed.

Lemma interest_Some (k : t) fd : is_Some (interest k !! fd) → ∃ e, k !! fd = Some (Some e).
Proof. rewrite interest_lookup. intros [e He]. destruct (k !! fd) as [[e'|]|]; naive_solver. Qed.

Lemma interest_insert (k : t) fd v : interest (<[fd := v]> k : t) = partial_alter (λ _, v) fd (interest k).
Proof.
  apply map_eq. intros x. rewrite interest_lookup. destruct (decide (x = fd)) as [->|Hne].
  - by rewrite lookup_insert_eq, lookup_partial_alter_eq.
  - by rewrite lookup_insert_ne, lookup_partial_alter_ne, interest_lookup by done.
Qed.

#[global] Instance epoll_laws : EpollLaws t.
Proof.
  split.
  - intros op fd e k. cbn. unfold ctl. destruct op, (k !! fd) as [[e'|]|] eqn:Hk; cbn; try done;
      apply set_eq; intros x; rewrite dom_insert, elem_of_union, elem_of_singleton;
      (split; [intros [->|?]; [|done]; apply elem_of_dom; by eexists|by right]).
  - intros fd e k Hfd Hi. cbn in Hfd. apply elem_of_dom in Hfd as [v Hv]. rewrite interest_lookup, Hv in Hi. cbn in Hi. subst v.
    cbn [epoll_ctl epoll]. unfold ctl. rewrite Hv. split; [done|]. apply interest_insert.
  - intros fd e k _ [e' He]%interest_Some. cbn [epoll_ctl epoll]. unfold ctl. rewrite He. split; [done|]. apply interest_insert.
  - intros fd e k [e' He]%interest_Some _. cbn [epoll_ctl epoll]. unfold ctl. rewrite He. split; [done|]. apply interest_insert.
  - intros fd e k [e' He]%interest_Some. cbn [epoll_ctl epoll]. unfold ctl. by rewrite He.
  - intros op fd e k Hi Hop. rewrite interest_lookup in Hi. cbn [epoll_ctl epoll]. unfold ctl.
    destruct op, (k !! fd) as [[e'|]|]; naive_solver.
  - intros op fd e k Hfd. cbn in Hfd. apply not_elem_of_dom in Hfd. cbn [epoll_ctl epoll]. unfold ctl. rewrite Hfd. by destruct op.
  - intros fd k [e He]%interest_Some. cbn. apply elem_of_dom. by eexists.
  - intros fd k. split; [|apply dom_delete_L]. apply omap_delete.
  - intros fd k. cbn [open_fd epoll]. destruct (decide (fd ∈ dom k)) as [Hin|Hnin]; cbn [pollable epoll]; [set_solver|].
    split; [|rewrite dom_insert_L; set_solver]. rewrite interest_insert. apply map_eq. intros x.
    destruct (decide (x = fd)) as [->|]; [|by rewrite lookup_partial_alter_ne].
    rewrite lookup_partial_alter_eq, interest_lookup. by apply not_elem_of_dom in Hnin as ->.
Qed.
End Model.
End Epoll.

(** ** [Poller] *)
Module Poller.
Import Epoll.
Section poller.
Context {K : Type} `{Epoll K} {C : Type}.

(** [std::function]s may be empty; the poller's own drains its pipe. *)
Inductive function := Drain | Callback (c : C).

Record PollRequest := Request { fd : Z; events : Z; timeout_ms : Z; callback : option function }.
Record PollCtrlParam := CtrlParam { operation : ctl_op; cfd : Z; cevents : Z }.

#[global] Instance ctl_op_eq_dec : EqDecision ctl_op.
Proof. solve_decision. Defined.
#[global] Instance PollCtrlParam_eq_dec : EqDecision PollCtrlParam.
Proof. solve_decision. Defined.

Definition set_timeout_ms (x : Z) (r : PollRequest) : PollRequest := Request (fd r) (events r) x (callback r).

(** [pipe_]: the bytes in the pipe. *)
Record t := mk {
  is_shutdown_ : bool; epoll_fd_ : Z; pipe_fd_ : Z * Z; pipe_ : nat;
  requests_ : gmap Z PollRequest; ctrl_params_ : gmap Z PollCtrlParam }.

Definition set_data (r : gmap Z PollRequest) (c : gmap Z PollCtrlParam) (p : t) : t :=
  mk (is_shutdown_ p) (epoll_fd_ p) (pipe_fd_ p) (pipe_ p) r c.
Definition set_requests (r : gmap Z PollRequest) (p : t) : t := set_data r (ctrl_params_ p) p.
Definition set_pipe (n : nat) (p : t) : t :=
  mk (is_shutdown_ p) (epoll_fd_ p) (pipe_fd_ p) n (requests_ p) (ctrl_params_ p).
Definition set_shutdown (b : bool) (p : t) : t :=
  mk b (epoll_fd_ p) (pipe_fd_ p) (pipe_ p) (requests_ p) (ctrl_params_ p).

Definition EPOLLIN : Z := 1.
Definition EPOLLOUT : Z := 4.
Definition kPollTimeoutMs : Z := 100.

(** [wrote]: the mutex of the pipe was free and the pipe not full. *)
Definition Notify (wrote : bool) (p : t) : t := if wrote then set_pipe (S (pipe_ p)) p else p.

Definition invalid (req : PollRequest) : bool := (fd req <? 0) || bool_decide (callback req = None).

Definition Register (wrote : bool) (req : PollRequest) (p : t) : bool * t :=
  if is_shutdown_ p then (false, p)
  else if invalid req then (false, p)
  else
    let op := match requests_ p !! fd req with None => EPOLL_CTL_ADD | Some _ => EPOLL_CTL_MOD end in
    (true, Notify wrote (set_data (<[fd req := req]> (requests_ p))
                                  (<[fd req := CtrlParam op (fd req) (events req)]> (ctrl_params_ p)) p)).

(** The event of a change that deletes is not set and not used. *)
Definition Unregister (wrote : bool) (req : PollRequest) (p : t) : bool * t :=
  if is_shutdown_ p then (false, p)
  else if invalid req then (false, p)
  else
    match requests_ p !! fd req with
    | None => (false, p)
    | Some _ =>
        (true, Notify wrote (set_data (delete (fd req) (requests_ p))
                                      (<[fd req := CtrlParam EPOLL_CTL_DEL (fd req) 0]> (ctrl_params_ p)) p))
    end.

(** [epoll_create] and [pipe2] are arguments. *)
Definition Init (epoll_fd : Z) (pipe : option (Z * Z)) (p : t) : bool * t :=
  let p := mk (is_shutdown_ p) epoll_fd (pipe_fd_ p) (pipe_ p) (requests_ p) (ctrl_params_ p) in
  if epoll_fd <? 0 then (false, p)
  else
    match pipe with
    | None => (false, p)
    | Some (rd, wr) =>
        (true, mk false epoll_fd (rd, wr) 0
                  (<[rd := Request rd EPOLLIN (-1) (Some Drain)]> (requests_ p))
                  (<[rd := CtrlParam EPOLL_CTL_ADD rd EPOLLIN]> (ctrl_params_ p)))
    end.

(** After the thread has been joined. *)
Definition Clear (p : t) : t := mk (is_shutdown_ p) (-1) (-1, -1) 0 ∅ ∅.

Definition Shutdown (p : t) : t := if is_shutdown_ p then p else Clear (set_shutdown true p).

Definition Poller (epoll_fd : Z) (pipe : option (Z * Z)) : t :=
  let '(ok, p) := Init epoll_fd pipe (mk true (-1) (-1, -1) 0 ∅ ∅) in
  if ok then p else Clear p.

(** ** The thread *)

Definition GetTimeoutMs (p : t) : Z :=
  map_fold (λ _ req timeout, if (0 <=? timeout_ms req) && (timeout_ms req <? timeout) then timeout_ms req else timeout)
    kPollTimeoutMs (requests_ p).

(** [Poll]: how long it waited, ... *)
Definition interval (before_time_ns after_time_ns : Z) : Z :=
  let interval_ms := i32 ((after_time_ns -64 before_time_ns) / 1000000) in
  if interval_ms =? 0 then 1 else interval_ms.

(** ... one request after that time, and whether its time is up, ... *)
Definition tick_one (p : t) (interval_ms : Z) (request : PollRequest) : PollRequest * bool :=
  if decide (is_Some (ctrl_params_ p !! fd request)) then (request, false)
  else
    let request :=
      if 0 <? timeout_ms request then
        let timeout := timeout_ms request - interval_ms in
        set_timeout_ms (if timeout <? 0 then 0 else timeout) request
      else request in
    if timeout_ms request =? 0 then (set_timeout_ms (-1) request, true) else (request, false).

Definition tick (interval_ms : Z) (p : t) : gmap Z Z * t :=
  (omap (λ request, if (tick_one p interval_ms request).2 then Some 0 else None) (requests_ p),
   set_requests (fst ∘ tick_one p interval_ms <$> requests_ p) p).

(** ... what the kernel reported on top of that, ... *)
Definition reported (ready : list (Z * Z)) (responses : gmap Z Z) : gmap Z Z :=
  foldl (λ m x, <[x.1 := x.2]> m) responses ready.

(** ... and one response: the call that is made. *)
Definition respond (fd : Z) (response : Z) (p : t) : option (option function * Z) * t :=
  match requests_ p !! fd with
  | None => (None, p)
  | Some request => (Some (callback request, response), set_requests (<[fd := set_timeout_ms (-1) request]> (requests_ p)) p)
  end.

(** The poller's own callback empties the pipe. *)
Definition drain (call : option (option function * Z)) (p : t) : t :=
  match call with Some (Some Drain, _) => set_pipe 0 p | _ => p end.

(** ** The whole program as steps *)
(** The thread: before [HandleChanges]; in it, with the rest of [local_params] to
    carry out; before [epoll_wait]; before the responses. *)
Inductive pc := AtHandle | AtChanges (local_params : list (Z * PollCtrlParam)) | AtWait | AtResponses.
Record sys := Sys {
  poller : t; kernel : K; at_ : pc; responses : gmap Z Z; calls : list (Z * (option function * Z)) }.

Inductive label :=
  | LRegister (wrote : bool) (req : PollRequest) | LUnregister (wrote : bool) (req : PollRequest)
  | LHandle (order : list (Z * PollCtrlParam)) | LChange
  | LWait (before after : Z) (ready : list (Z * Z))
  | LRespond (fd : Z)
  | LLoop
  | LClose (fd : Z) | LOpen (fd : Z).

(** The thread runs [ThreadFunc]; other threads call [Register] and
    [Unregister], open descriptors and close those that are not registered.
    [LHandle]: [HandleChanges] takes the changes, under the lock; it will walk them
    in some order.  [LChange]: one [epoll_ctl], without the lock, whose failure is
    only logged. *)
Definition step (l : label) (s : sys) : option sys :=
  let 'Sys p k a r c := s in
  match l with
  | LRegister wrote req => Some (Sys (Register wrote req p).2 k a r c)
  | LUnregister wrote req => Some (Sys (Unregister wrote req p).2 k a r c)
  | LHandle order =>
      match a with
      | AtHandle =>
          if decide (order ≡ₚ map_to_list (ctrl_params_ p)) then Some (Sys (set_data (requests_ p) ∅ p) k (AtChanges order) r c)
          else None
      | _ => None
      end
  | LChange =>
      match a with
      | AtChanges [] => Some (Sys p k AtWait r c)
      | AtChanges ((_, item) :: l) => Some (Sys p (epoll_ctl (operation item) (cfd item) (cevents item) k).2 (AtChanges l) r c)
      | _ => None
      end
  | LWait before after ready =>
      match a with
      | AtWait => let '(r, p) := tick (interval before after) p in Some (Sys p k AtResponses (reported ready r) c)
      | _ => None
      end
  | LRespond fd =>
      match a, r !! fd with
      | AtResponses, Some response =>
          let '(call, p) := respond fd response p in
          Some (Sys (drain call p) k a (delete fd r) (c ++ match call with Some f => [(fd, f)] | None => [] end))
      | _, _ => None
      end
  | LLoop =>
      match a with
      | AtResponses => if decide (r = ∅) then Some (Sys p k (if is_shutdown_ p then a else AtHandle) r c) else None
      | _ => None
      end
  | LClose fd => if decide (requests_ p !! fd = None) then Some (Sys p (close_fd fd k) a r c) else None
  | LOpen fd => Some (Sys p (open_fd fd k) a r c)
  end.
End poller.
Arguments function : clear implicits.
Arguments PollRequest : clear implicits.
Arguments t : clear implicits.
Arguments sys : clear implicits.
Arguments label : clear implicits.
End Poller.

(** ** What the kernel has registered *)
Module PollerInterest.
Import Epoll Poller.
Section interest.
Context {K : Type} `{HE : Epoll K} `{HL : !EpollLaws K} {C : Type}.
Implicit Types (k : K) (s : sys K C).

(** What a change is to leave behind, and when it can. *)
Definition target (c : PollCtrlParam) : option Z :=
  match operation c with EPOLL_CTL_DEL => None | _ => Some (cevents c) end.
Definition possible k (c : PollCtrlParam) : Prop :=
  match operation c with
  | EPOLL_CTL_ADD => cfd c ∈ pollable k ∧ interest k !! cfd c = None
  | EPOLL_CTL_MOD => cfd c ∈ pollable k ∧ is_Some (interest k !! cfd c)
  | EPOLL_CTL_DEL => True
  end.

(** The changes that the thread has taken and not carried out yet, and what the
    kernel will have when it has. *)
Definition taken (a : pc) : gmap Z PollCtrlParam := match a with AtChanges l => list_to_map l | _ => ∅ end.
Definition after (m : gmap Z PollCtrlParam) k (x : Z) : option Z :=
  match m !! x with Some c => target c | None => interest k !! x end.

(** A registration is orderly if the descriptor is open and no change for it is
    pending that the new one must not replace: an addition, or the deletion of
    what the kernel has, or will have when the thread has carried out the changes
    that it has taken. *)
Definition orderly (l : label C) s : bool :=
  match l with
  | LRegister _ req =>
      bool_decide (fd req ∈ pollable (kernel s)) &&
      match ctrl_params_ (poller s) !! fd req with
      | None => true
      | Some c =>
          match operation c with
          | EPOLL_CTL_ADD => false
          | EPOLL_CTL_MOD => true
          | EPOLL_CTL_DEL => bool_decide (after (taken (at_ s)) (kernel s) (fd req) = None)
          end
      end
  | _ => true
  end.
Definition orderly_step (l : label C) s : option (sys K C) := if orderly l s then step l s else None.

Lemma ctl_possible c k :
  possible k c →
  let r := epoll_ctl (operation c) (cfd c) (cevents c) k in
  pollable r.2 = pollable k ∧ interest r.2 = partial_alter (λ _, target c) (cfd c) (interest k) ∧
  (operation c ≠ EPOLL_CTL_DEL → r.1 = true).
Proof.
  intros Hp. cbv zeta. split; [apply ctl_pollable|]. revert Hp. unfold possible, target. destruct (operation c); intros Hp.
  - destruct Hp. destruct (ctl_add (cfd c) (cevents c) k) as [-> ->]; done.
  - destruct Hp. destruct (ctl_mod (cfd c) (cevents c) k) as [-> ->]; done.
  - split; [|done]. destruct (interest k !! cfd c) as [e|] eqn:Hi.
    + destruct (ctl_del (cfd c) (cevents c) k) as [_ ->]; [by rewrite Hi|apply registered_pollable; by rewrite Hi|done].
    + destruct (ctl_absent EPOLL_CTL_DEL (cfd c) (cevents c) k Hi) as [_ ->]; [done|].
      pose proof (partial_alter_self (interest k) (cfd c)) as Hs. rewrite Hi in Hs. by rewrite Hs.
Qed.

Lemma ctl_other op x e k y : y ≠ x → interest (epoll_ctl op x e k).2 !! y = interest k !! y.
Proof.
  intros Hne. destruct (decide (x ∈ pollable k)) as [Hx|Hx]; [|by destruct (ctl_unpollable op x e k Hx) as [_ ->]].
  destruct (interest k !! x) as [e'|] eqn:Hi.
  - assert (is_Some (interest k !! x)) as Hs by (by rewrite Hi). destruct op.
    + by destruct (ctl_exists x e k Hs) as [_ ->].
    + destruct (ctl_mod x e k Hx Hs) as [_ ->]. by rewrite lookup_insert_ne.
    + destruct (ctl_del x e k Hs Hx) as [_ ->]. by rewrite lookup_delete_ne.
  - destruct (decide (op = EPOLL_CTL_ADD)) as [->|Hop].
    + destruct (ctl_add x e k Hx Hi) as [_ ->]. by rewrite lookup_insert_ne.
    + by destruct (ctl_absent op x e k Hi Hop) as [_ ->].
Qed.

(** Each descriptor: what the kernel has, or will have when the taken changes are
    carried out, is what the request asks for, or the pending change will make it
    so.  The taken change of a descriptor that is being deleted may fail. *)
Definition on_track (m : gmap Z PollCtrlParam) k (x : Z) : Prop := ∀ c, m !! x = Some c → possible k c.
Definition settled (p : t C) k (m : gmap Z PollCtrlParam) (x : Z) : Prop :=
  (∀ c, m !! x = Some c → cfd c = x) ∧
  match ctrl_params_ p !! x with
  | None => after m k x = events <$> requests_ p !! x ∧ on_track m k x
  | Some c => cfd c = x ∧ target c = events <$> requests_ p !! x ∧
      match operation c with
      | EPOLL_CTL_ADD => x ∈ pollable k ∧ after m k x = None ∧ on_track m k x
      | EPOLL_CTL_MOD => x ∈ pollable k ∧ is_Some (after m k x) ∧ on_track m k x
      | EPOLL_CTL_DEL => True
      end
  end.
Definition distinct (a : pc) : Prop := match a with AtChanges l => NoDup l.*1 | _ => True end.
Definition inv s : Prop :=
  (∀ x r, requests_ (poller s) !! x = Some r → fd r = x ∧ x ∈ pollable (kernel s)) ∧
  (∀ x, settled (poller s) (kernel s) (taken (at_ s)) x) ∧ distinct (at_ s).

(** Other descriptors are settled as before. *)
Lemma settled_other p p' k m x :
  requests_ p' !! x = requests_ p !! x → ctrl_params_ p' !! x = ctrl_params_ p !! x → settled p k m x → settled p' k m x.
Proof. unfold settled. by intros -> ->. Qed.

(** Taking the changes. *)
Lemma poll_swap_inv order s :
  at_ s = AtHandle → order ≡ₚ map_to_list (ctrl_params_ (poller s)) → inv s →
  inv (Sys (set_data (requests_ (poller s)) ∅ (poller s)) (kernel s) (AtChanges order) (responses s) (calls s)).
Proof.
  intros Ha Hperm (Hr & Hs & _). rewrite Ha in Hs. cbn [taken] in Hs.
  assert (NoDup order.*1) as Hnd by (rewrite Hperm; apply NoDup_fst_map_to_list).
  assert (list_to_map order = ctrl_params_ (poller s)) as Em.
  { rewrite <-(list_to_map_to_list (M := gmap Z) (ctrl_params_ (poller s))). by apply list_to_map_proper. }
  split_and!; cbn [poller kernel at_ taken]; [done| |done]. intros x. specialize (Hs x). unfold settled in *. rewrite Em.
  cbn [requests_ ctrl_params_ set_data]. rewrite lookup_empty. destruct Hs as [_ Hs].
  unfold after, on_track in *. destruct (ctrl_params_ (poller s) !! x) as [c|]; [|by destruct Hs].
  destruct Hs as (Hc & Ht & Hop). rewrite lookup_empty in Hop.
  split; [by intros ? [= <-]|]. split; [done|]. intros ? [= <-]. unfold possible. rewrite Hc.
  destruct (operation c); [by destruct Hop as (? & ? & _)|by destruct Hop as (? & ? & _)|done].
Qed.

(** Carrying out one. *)
Lemma change_inv y c l s :
  at_ s = AtChanges ((y, c) :: l) → inv s →
  inv (Sys (poller s) (epoll_ctl (operation c) (cfd c) (cevents c) (kernel s)).2 (AtChanges l) (responses s) (calls s)).
Proof.
  intros Ha (Hr & Hs & Hnd). rewrite Ha in Hs, Hnd. cbn in Hnd. apply NoDup_cons in Hnd as [Hy Hnd].
  pose proof (ctl_pollable (operation c) (cfd c) (cevents c) (kernel s)) as Hp.
  pose proof (λ x, ctl_other (operation c) (cfd c) (cevents c) (kernel s) x) as Ho.
  pose proof (ctl_possible c (kernel s)) as Hok. cbv zeta in Hok. set (k' := (epoll_ctl _ _ _ _).2) in *. clearbody k'.
  cbn [taken] in Hs. rewrite list_to_map_cons in Hs. apply not_elem_of_list_to_map in Hy. set (m := list_to_map l) in *.
  assert (cfd c = y) as Hc by (apply (Hs y); apply lookup_insert_eq). rewrite Hc in *.
  split_and!; cbn [poller kernel at_ taken]; [by rewrite Hp| |done]. fold m. intros x. specialize (Hs x).
  unfold settled, after, on_track in *. destruct (decide (x = y)) as [->|Hne].
  - rewrite lookup_insert_eq in Hs. rewrite Hy, Hp. destruct Hs as [_ Hs]. split; [done|].
    assert ((∀ c0, Some c = Some c0 → possible (kernel s) c0) → interest k' !! y = target c) as Hint.
    { intros Hpos. destruct (Hok (Hpos c eq_refl)) as (_ & -> & _). apply lookup_partial_alter_eq. }
    destruct (ctrl_params_ (poller s) !! y) as [d|]; [|destruct Hs; by rewrite Hint].
    destruct Hs as (? & ? & Hop). split_and!; [done|done|]. destruct (operation d); [..|done];
      destruct Hop as (? & ? & ?); by rewrite Hint.
  - rewrite lookup_insert_ne in Hs by done. destruct Hs as [Hcx Hs]. split; [done|].
    assert (match m !! x with Some c => target c | None => interest k' !! x end = match m !! x with Some c => target c | None => interest (kernel s) !! x end) as ->
      by (destruct (m !! x); [done|by apply Ho]).
    assert (∀ d, m !! x = Some d → possible (kernel s) d → possible k' d) as Hpos.
    { intros d Hd. unfold possible. rewrite (Hcx d Hd), Hp, Ho by done. done. }
    rewrite Hp. destruct (ctrl_params_ (poller s) !! x) as [d|]; [|naive_solver].
    destruct Hs as (? & ? & Hop). split_and!; [done|done|]. destruct (operation d); naive_solver.
Qed.

Lemma Notify_data wrote (q : t C) : requests_ (Notify wrote q) = requests_ q ∧ ctrl_params_ (Notify wrote q) = ctrl_params_ q.
Proof. by destruct wrote. Qed.

(** The operation of a registration fits what the kernel will have. *)
Lemma register_settled (req : PollRequest C) s :
  settled (poller s) (kernel s) (taken (at_ s)) (fd req) → fd req ∈ pollable (kernel s) →
  (∀ c, ctrl_params_ (poller s) !! fd req = Some c → operation c = EPOLL_CTL_MOD ∨
     (operation c = EPOLL_CTL_DEL ∧ after (taken (at_ s)) (kernel s) (fd req) = None)) →
  on_track (taken (at_ s)) (kernel s) (fd req) ∧
  match requests_ (poller s) !! fd req with
  | None => after (taken (at_ s)) (kernel s) (fd req) = None
  | Some _ => is_Some (after (taken (at_ s)) (kernel s) (fd req))
  end.
Proof.
  intros [_ Hs] Hp Ho. destruct (ctrl_params_ (poller s) !! fd req) as [c|] eqn:Hc.
  - destruct Hs as (_ & Ht & Hop). destruct (Ho c eq_refl) as [E|[E Ha]]; unfold target in Ht; rewrite E in *.
    + destruct Hop as (_ & Ha & Htr). by destruct (requests_ (poller s) !! fd req).
    + destruct (requests_ (poller s) !! fd req); [done|]. split; [|done]. intros d Hd. unfold after in Ha. rewrite Hd in Ha.
      unfold target in Ha. unfold possible. by destruct (operation d).
  - destruct Hs as [-> Htr]. by destruct (requests_ (poller s) !! fd req).
Qed.

Lemma poll_register_inv wrote req s :
  orderly (LRegister wrote req) s = true → inv s → inv (Sys (Register wrote req (poller s)).2 (kernel s) (at_ s) (responses s) (calls s)).
Proof.
  intros Ho (Hr & Hs & Hd). unfold Register. destruct (is_shutdown_ _); [done|]. destruct (invalid req); [done|]. cbn [snd].
  cbn [orderly] in Ho. apply andb_prop in Ho as [Hp%bool_decide_eq_true Ho]. unfold inv. cbn [poller kernel at_].
  pose proof (λ q : t C, Notify_data wrote q) as Hn. destruct (register_settled req s (Hs (fd req)) Hp) as [Htr Ha].
  { intros c Hc. rewrite Hc in Ho. destruct (operation c); [done|by left|right; by apply bool_decide_eq_true in Ho]. }
  split_and!; [| |done].
  - intros x r. rewrite (proj1 (Hn _)). cbn. intros [[<- <-]|[Hne Hx]]%lookup_insert_Some; [done|by apply Hr].
  - intros x. destruct (decide (x = fd req)) as [->|Hne]; [|apply (settled_other (poller s)); [| |by apply Hs]].
    + destruct (Hs (fd req)) as [Hc _]. unfold settled. rewrite (proj1 (Hn _)), (proj2 (Hn _)). cbn. rewrite !lookup_insert_eq.
      split_and!; [done|done| |]; by destruct (requests_ (poller s) !! fd req).
    + rewrite (proj1 (Hn _)). cbn. by rewrite lookup_insert_ne.
    + rewrite (proj2 (Hn _)). cbn. by rewrite lookup_insert_ne.
Qed.

Lemma poll_unregister_inv wrote req s :
  inv s → inv (Sys (Unregister wrote req (poller s)).2 (kernel s) (at_ s) (responses s) (calls s)).
Proof.
  intros (Hr & Hs & Hd). unfold Unregister. destruct (is_shutdown_ _); [done|]. destruct (invalid req); [done|].
  destruct (requests_ (poller s) !! fd req) as [old|] eqn:Hold; [|done]. cbn [snd]. unfold inv. cbn [poller kernel at_].
  pose proof (λ q : t C, Notify_data wrote q) as Hn. split_and!; [| |done].
  - intros x r. rewrite (proj1 (Hn _)). cbn. intros [Hne Hx]%lookup_delete_Some. by apply Hr.
  - intros x. destruct (decide (x = fd req)) as [->|Hne]; [|apply (settled_other (poller s)); [| |by apply Hs]].
    + destruct (Hs (fd req)) as [Hc _]. unfold settled. rewrite (proj1 (Hn _)), (proj2 (Hn _)). cbn. by rewrite lookup_insert_eq, lookup_delete_eq.
    + rewrite (proj1 (Hn _)). cbn. by rewrite lookup_delete_ne.
    + rewrite (proj2 (Hn _)). cbn. by rewrite lookup_insert_ne.
Qed.

(** Only timeouts change. *)
Definition same_but_timeouts (p p' : t C) : Prop :=
  ctrl_params_ p' = ctrl_params_ p ∧ is_shutdown_ p' = is_shutdown_ p ∧
  ∀ x, (λ r, (fd r, events r, callback r)) <$> requests_ p' !! x = (λ r, (fd r, events r, callback r)) <$> requests_ p !! x.

Lemma tick_same i p : same_but_timeouts p (tick i p).2.
Proof.
  split_and!; [done..|]. intros x. cbn. rewrite lookup_fmap. destruct (requests_ p !! x) as [r|]; [|done]. cbn. f_equal.
  unfold tick_one. destruct (decide _); [done|]. cbv zeta. destruct (0 <? timeout_ms r); case_match; done.
Qed.

Lemma respond_same x e p : same_but_timeouts p (respond x e p).2.
Proof.
  unfold respond. destruct (requests_ p !! x) as [r|] eqn:Hx; [|done]. split_and!; [done..|]. intros y. cbn.
  destruct (decide (y = x)) as [->|Hne]; [by rewrite lookup_insert_eq, Hx|by rewrite lookup_insert_ne].
Qed.

Lemma drain_same c p : same_but_timeouts p (drain c p).
Proof. unfold drain. by repeat case_match. Qed.

Lemma same_inv p' s a r c :
  same_but_timeouts (poller s) p' → taken a = taken (at_ s) → distinct a → inv s → inv (Sys p' (kernel s) a r c).
Proof.
  intros (Hc & _ & Hr) Ht Hd (H1 & H2 & _). split_and!; cbn [poller kernel at_]; [| |done].
  - intros x q Hx. specialize (Hr x). rewrite Hx in Hr. destruct (requests_ (poller s) !! x) as [q'|] eqn:Hq; [|done].
    cbn in Hr. injection Hr as Hf _ _. rewrite Hf. by apply H1.
  - intros x. specialize (H2 x). unfold settled in *. rewrite Hc, Ht. specialize (Hr x).
    assert (events <$> requests_ p' !! x = events <$> requests_ (poller s) !! x) as ->; [|done].
    destruct (requests_ p' !! x), (requests_ (poller s) !! x); cbn in *; congruence.
Qed.

Lemma same_trans p1 p2 p3 : same_but_timeouts p1 p2 → same_but_timeouts p2 p3 → same_but_timeouts p1 p3.
Proof. intros (? & ? & H1) (? & ? & H2). split_and!; [congruence..|]. intros x. by rewrite H2, H1. Qed.

Lemma close_inv x s :
  requests_ (poller s) !! x = None → inv s → inv (Sys (poller s) (close_fd x (kernel s)) (at_ s) (responses s) (calls s)).
Proof.
  intros Hx (H1 & H2 & H3). destruct (close_spec x (kernel s)) as [Hi Hp]. split_and!; cbn [poller kernel at_]; [| |done].
  - intros y r Hy. destruct (H1 y r Hy) as [? ?]. split; [done|]. rewrite Hp. set_solver.
  - intros y. destruct (H2 y) as [Hk H]. split; [done|]. unfold settled, after, on_track in *. rewrite Hi, Hp.
    destruct (decide (y = x)) as [->|Hne].
    + rewrite Hx in *. rewrite lookup_delete_eq. destruct (ctrl_params_ (poller s) !! x) as [c|].
      * destruct H as (? & Ht & _). split_and!; [done|done|]. unfold target in Ht. by destruct (operation c).
      * destruct (taken (at_ s) !! x) as [d|]; [|by split]. destruct H as [Ht _]. split; [done|]. intros ? [= <-].
        unfold target in Ht. unfold possible. by destruct (operation d).
    + rewrite lookup_delete_ne by done.
      assert (∀ d, taken (at_ s) !! y = Some d → possible (kernel s) d → possible (close_fd x (kernel s)) d) as Hpos.
      { intros d Hd. unfold possible. rewrite (Hk d Hd), Hi, Hp, lookup_delete_ne by done. destruct (operation d); set_solver. }
      destruct (ctrl_params_ (poller s) !! y) as [c|]; [|naive_solver]. destruct H as (? & ? & Hop). split_and!; [done|done|].
      destruct (operation c); [destruct Hop as (? & ? & ?)..|done]; split_and!; try set_solver; naive_solver.
Qed.

Lemma open_inv x s : inv s → inv (Sys (poller s) (open_fd x (kernel s)) (at_ s) (responses s) (calls s)).
Proof.
  intros (H1 & H2 & H3). destruct (open_spec x (kernel s)) as [Hi Hp]. split_and!; cbn [poller kernel at_]; [| |done].
  - intros y r Hy. destruct (H1 y r Hy) as [? ?]. split; [done|]. rewrite Hp. set_solver.
  - intros y. destruct (H2 y) as [Hk H]. split; [done|]. unfold settled, after, on_track in *. rewrite Hi, Hp.
    assert (∀ d, possible (kernel s) d → possible (open_fd x (kernel s)) d) as Hpos.
    { intros d. unfold possible. rewrite Hi, Hp. destruct (operation d); set_solver. }
    destruct (ctrl_params_ (poller s) !! y) as [c|]; [|naive_solver]. destruct H as (? & ? & Hop). split_and!; [done|done|].
    destruct (operation c); [destruct Hop as (? & ? & ?)..|done]; split_and!; try set_solver; naive_solver.
Qed.

Lemma poll_step_inv l s s' : inv s → orderly_step l s = Some s' → inv s'.
Proof.
  unfold orderly_step. intros Hs. destruct (orderly l s) eqn:Ho; [|done]. destruct s as [p k a r c].
  destruct l as [wrote req|wrote req|order| |b e ready|x| |x|x]; cbn [step].
  - intros [= <-]. by apply (poll_register_inv wrote req (Sys p k a r c)).
  - intros [= <-]. by apply (poll_unregister_inv wrote req (Sys p k a r c)).
  - destruct a; [|done..]. destruct (decide _) as [Hperm|]; [|done]. intros [= <-].
    by apply (poll_swap_inv order (Sys p k AtHandle r c)).
  - destruct a as [|[|[y d] l]| |]; [done| | |done..].
    + intros [= <-]. by apply (same_inv p (Sys p k (AtChanges []) r c)).
    + intros [= <-]. by apply (change_inv y d l (Sys p k (AtChanges ((y, d) :: l)) r c)).
  - destruct a; [done..| |done]. pose proof (tick_same (interval b e) p) as Ht. destruct (tick _ p) as [r' p'].
    intros [= <-]. by apply (same_inv p' (Sys p k AtWait r c)).
  - destruct a; [done..|]. destruct (r !! x) as [rsp|]; [|done]. pose proof (respond_same x rsp p) as Ht.
    destruct (respond x rsp p) as [call p']. intros [= <-]. apply (same_inv (drain call p') (Sys p k AtResponses r c)); try done.
    eapply same_trans; [done|apply drain_same].
  - destruct a; [done..|]. destruct (decide (r = ∅)); [|done]. intros [= <-].
    apply (same_inv p (Sys p k AtResponses r c)); try done; by destruct (is_shutdown_ p).
  - destruct (decide _) as [Hx|]; [|done]. intros [= <-]. by apply (close_inv x (Sys p k a r c)).
  - intros [= <-]. by apply (open_inv x (Sys p k a r c)).
Qed.

(** A poller that has just been made, over a fresh epoll instance. *)
Definition fresh (epoll_fd rd wr : Z) k : Prop := 0 <= epoll_fd ∧ interest k = ∅ ∧ rd ∈ pollable k.

Lemma fresh_inv epoll_fd rd wr k :
  fresh epoll_fd rd wr k → inv (Sys (Poller epoll_fd (Some (rd, wr))) k AtHandle ∅ []).
Proof.
  intros (Hfd & Hk & Hrd). unfold Poller, Init. rewrite (proj2 (Z.ltb_ge _ _)) by done. split_and!; cbn [poller kernel requests_ at_]; [| |done].
  - intros x r [[<- <-]|[_ Hx]]%lookup_insert_Some; [done|]. cbn in Hx. by rewrite lookup_empty in Hx.
  - intros x. unfold settled, after, on_track. cbn. rewrite !lookup_empty. split; [done|]. destruct (decide (x = rd)) as [->|Hne].
    + rewrite !lookup_insert_eq. cbn. by rewrite Hk.
    + rewrite !lookup_insert_ne by done. by rewrite Hk.
Qed.

Lemma poll_inv epoll_fd rd wr k s :
  fresh epoll_fd rd wr k → reachable orderly_step (Sys (Poller epoll_fd (Some (rd, wr))) k AtHandle ∅ []) s → inv s.
Proof. intros Hf. apply (reachable_inv orderly_step inv); [by apply fresh_inv|apply poll_step_inv]. Qed.

(** The next change of the thread. *)
Lemma next_change s y c l :
  inv s → at_ s = AtChanges ((y, c) :: l) → (∀ d, ctrl_params_ (poller s) !! y = Some d → operation d ≠ EPOLL_CTL_DEL) →
  cfd c = y ∧ possible (kernel s) c.
Proof.
  intros (_ & Hs & _) Ha Hd. specialize (Hs y). rewrite Ha in Hs. cbn [taken] in Hs. rewrite list_to_map_cons in Hs.
  destruct Hs as [Hc Hs]. specialize (Hc c (lookup_insert_eq _ _ _)). split; [done|].
  assert (on_track (<[y:=c]> (list_to_map l)) (kernel s) y) as Htr.
  { destruct (ctrl_params_ (poller s) !! y) as [d|]; [|by destruct Hs]. specialize (Hd d eq_refl). destruct Hs as (_ & _ & Hs).
    destruct (operation d); [by destruct Hs as (_ & _ & ?)..|done]. }
  apply Htr, lookup_insert_eq.
Qed.

Lemma changes_orderly n s : run orderly_step (replicate n LChange) s = run step (replicate n LChange) s.
Proof.
  revert s. induction n as [|n IH]; intros s; [done|]. cbn [replicate run]. change (orderly_step LChange s) with (step LChange s).
  destruct (step LChange s) as [s2|]; [|done]. apply (IH s2).
Qed.

(** The thread carries out what it has taken. *)
Lemma changes_run l s :
  at_ s = AtChanges l → ∃ k', run orderly_step (replicate (S (length l)) LChange) s = Some (Sys (poller s) k' AtWait (responses s) (calls s)).
Proof.
  revert s. induction l as [|[y c] l IH]; intros [p k a r cs] Ha; cbn in Ha; subst a; [by exists k|].
  destruct (IH (Sys p (epoll_ctl (operation c) (cfd c) (cevents c) k).2 (AtChanges l) r cs) eq_refl) as [k' Hk']. by exists k'.
Qed.

(** C37: the kernel watches what was asked for.  Register, Unregister, the
    closing of descriptors no longer registered and the opening of others may
    come at any time, also while the thread carries out, without the lock, the
    changes that it has taken; provided that no registration replaces a pending
    addition of its descriptor, nor a pending deletion of what the kernel has or
    will have when the thread has carried out what it has taken.  Then a descriptor
    with no change pending or taken is watched exactly if it is requested, for the
    events of its request; carrying out a taken change puts it into effect, and an
    addition or modification fails only if the descriptor has been unregistered
    meanwhile; and the thread, from [HandleChanges] on, in whatever order it walks
    the changes, comes by itself to [epoll_wait] with exactly the descriptors and
    events of the requests in the kernel. *)
Theorem poller_interest epoll_fd rd wr k s :
  fresh epoll_fd rd wr k →
  reachable orderly_step (Sys (Poller epoll_fd (Some (rd, wr))) k AtHandle ∅ []) s →
  (∀ x, ctrl_params_ (poller s) !! x = None → taken (at_ s) !! x = None →
     interest (kernel s) !! x = events <$> requests_ (poller s) !! x) ∧
  (∀ x r, requests_ (poller s) !! x = Some r → fd r = x ∧ x ∈ pollable (kernel s)) ∧
  (∀ x c l, at_ s = AtChanges ((x, c) :: l) →
     (∀ d, ctrl_params_ (poller s) !! x = Some d → operation d ≠ EPOLL_CTL_DEL) →
     ∃ s', step LChange s = Some s' ∧ at_ s' = AtChanges l ∧ interest (kernel s') = partial_alter (λ _, target c) x (interest (kernel s)) ∧
       (operation c ≠ EPOLL_CTL_DEL → (epoll_ctl (operation c) (cfd c) (cevents c) (kernel s)).1 = true)) ∧
  (at_ s = AtHandle → ∀ order, order ≡ₚ map_to_list (ctrl_params_ (poller s)) →
     ∃ s', run step (LHandle order :: replicate (S (length order)) LChange) s = Some s' ∧ at_ s' = AtWait ∧
       requests_ (poller s') = requests_ (poller s) ∧ ctrl_params_ (poller s') = ∅ ∧
       interest (kernel s') = events <$> requests_ (poller s)).
Proof.
  intros Hf Hreach. pose proof (poll_inv _ _ _ _ _ Hf Hreach) as Hi. split_and!.
  - intros x Hc Ht. destruct Hi as (_ & Hs & _). destruct (Hs x) as [_ H]. rewrite Hc in H. unfold after in H. rewrite Ht in H. apply H.
  - apply Hi.
  - intros x c l Ha Hd. destruct (next_change s x c l Hi Ha Hd) as [<- Hp]. destruct (ctl_possible c (kernel s) Hp) as (_ & Hint & Hok).
    destruct s as [p k0 a r cs]. cbn in Ha. subst a. eexists. by split_and!.
  - intros Ha order Hperm. set (s1 := Sys (set_data (requests_ (poller s)) ∅ (poller s)) (kernel s) (AtChanges order) (responses s) (calls s)).
    assert (step (LHandle order) s = Some s1) as E1.
    { destruct s as [p k0 a r cs]. cbn in Ha. subst a. cbn [step]. by rewrite decide_True. }
    assert (inv s1) as Hi1 by by apply poll_swap_inv. destruct (changes_run order s1 eq_refl) as [k' Hrun].
    assert (inv (Sys (poller s1) k' AtWait (responses s1) (calls s1))) as (_ & Hs & _).
    { eapply (reachable_inv orderly_step inv); [exact Hi1|apply poll_step_inv|]. by eapply run_reachable. }
    exists (Sys (poller s1) k' AtWait (responses s1) (calls s1)). split_and!; try done.
    + rewrite changes_orderly in Hrun. cbn [run]. by rewrite E1.
    + apply map_eq. intros x. rewrite lookup_fmap. destruct (Hs x) as [_ H]. cbn in H. rewrite lookup_empty in H.
      unfold after in H. cbn in H. rewrite lookup_empty in H. apply H.
Qed.

(** ** When a registration replaces a pending change *)

(** Asked for, not watched, and nothing taken or pending that would add it. *)
Definition todo (a : pc) : list (Z * PollCtrlParam) := match a with AtChanges l => l | _ => [] end.
Definition lost (x : Z) s : Prop :=
  (∀ y c, ctrl_params_ (poller s) !! y = Some c → cfd c = y) ∧ (∀ y r, requests_ (poller s) !! y = Some r → fd r = y) ∧
  is_Some (requests_ (poller s) !! x) ∧ interest (kernel s) !! x = None ∧
  (∀ c, ctrl_params_ (poller s) !! x = Some c → operation c = EPOLL_CTL_MOD) ∧
  (∀ y c, (y, c) ∈ todo (at_ s) → cfd c = y ∧ (y = x → operation c = EPOLL_CTL_MOD)).

Definition unregisters (x : Z) (l : label C) : bool :=
  match l with LUnregister _ req => fd req =? x | _ => false end.

Lemma lost_same x p' s a r c :
  same_but_timeouts (poller s) p' → todo a = todo (at_ s) → lost x s → lost x (Sys p' (kernel s) a r c).
Proof.
  intros (Hc & _ & Hr) Ht (H1 & H2 & H3 & H4 & H5 & H6). unfold lost. cbn [poller kernel at_]. rewrite Hc, Ht. split_and!; try done.
  - intros y q Hy. specialize (Hr y). rewrite Hy in Hr. destruct (requests_ (poller s) !! y) as [q'|] eqn:Hq; [|done].
    injection Hr as Hf _ _. rewrite Hf. by apply H2.
  - specialize (Hr x). destruct H3 as [q Hq]. rewrite Hq in Hr. by destruct (requests_ p' !! x).
Qed.

Lemma lost_change x y c k :
  cfd c = y → (y = x → operation c = EPOLL_CTL_MOD) → interest k !! x = None →
  interest (epoll_ctl (operation c) (cfd c) (cevents c) k).2 !! x = None.
Proof.
  intros Hc Hop Hx. destruct (decide (x = y)) as [->|Hne]; [|rewrite ctl_other; [done|congruence]].
  rewrite Hop, Hc by done. by destruct (ctl_absent EPOLL_CTL_MOD y (cevents c) k Hx) as [_ ->].
Qed.

Lemma lost_step x l s s' : lost x s → unregisters x l = false → step l s = Some s' → lost x s'.
Proof.
  intros Hl Hu. destruct s as [p k a r c]. pose proof Hl as (H1 & H2 & H3 & H4 & H5 & H6). cbn [poller kernel at_] in *.
  destruct l as [wrote req|wrote req|order| |b e ready|y| |y|y]; cbn [step].
  - intros [= <-]. unfold Register. destruct (is_shutdown_ p); [done|]. destruct (invalid req); [done|].
    destruct (requests_ p !! fd req) as [old|] eqn:Hold, wrote; cbn; unfold lost; cbn; split_and!; try done;
      try (by intros y d [[<- <-]|[_ ?]]%lookup_insert_Some; eauto);
      try (destruct (decide (x = fd req)) as [->|]; [by rewrite lookup_insert_eq|by rewrite lookup_insert_ne]);
      intros d [[Heq <-]|[_ ?]]%lookup_insert_Some; eauto; subst x; rewrite Hold in H3; by destruct H3.
  - intros [= <-]. unfold Unregister. destruct (is_shutdown_ p); [done|]. destruct (invalid req); [done|].
    cbn in Hu. apply Z.eqb_neq in Hu.
    destruct (requests_ p !! fd req) as [old|] eqn:Hold; [|done]. destruct wrote; cbn; unfold lost; cbn; split_and!; try done;
      try (by intros y d [[<- <-]|[_ ?]]%lookup_insert_Some; eauto); try (by intros y d [_ ?]%lookup_delete_Some; eauto);
      try (by rewrite lookup_delete_ne); intros d; rewrite lookup_insert_ne by done; eauto.
  - destruct a; [|done..]. destruct (decide _) as [Hperm|]; [|done]. intros [= <-].
    unfold lost. cbn. split_and!; try done. intros y d Hy. rewrite Hperm in Hy. apply elem_of_map_to_list in Hy. split; [by apply H1|].
    intros ->. by apply H5.
  - destruct a as [|[|[y d] l]| |]; [done| | |done..]; intros [= <-]; [done|]. unfold lost. cbn in *. split_and!; try done.
    + destruct (H6 y d) as [Hc Hop]; [by left|]. by eapply lost_change.
    + intros z e' Hz. apply H6. by right.
  - destruct a; [done..| |done]. pose proof (tick_same (interval b e) p) as Ht. destruct (tick _ p) as [r' p'].
    intros [= <-]. by apply (lost_same x p' (Sys p k AtWait r c)).
  - destruct a; [done..|]. destruct (r !! y) as [rsp|]; [|done]. pose proof (respond_same y rsp p) as Ht.
    destruct (respond y rsp p) as [call p']. intros [= <-]. apply (lost_same x (drain call p') (Sys p k AtResponses r c)); try done.
    eapply same_trans; [done|apply drain_same].
  - destruct a; [done..|]. destruct (decide (r = ∅)); [|done]. intros [= <-].
    apply (lost_same x p (Sys p k AtResponses r c)); try done. by destruct (is_shutdown_ p).
  - destruct (decide _) as [Hy|]; [|done]. intros [= <-]. unfold lost. cbn. split_and!; try done.
    destruct (close_spec y k) as [-> _]. apply lookup_delete_None. by right.
  - intros [= <-]. unfold lost. cbn. destruct (open_spec y k) as [-> _]. done.
Qed.

Lemma Register_accepted wrote (req : PollRequest C) (p : t C) :
  is_shutdown_ p = false → 0 <= fd req → is_Some (callback req) →
  Register (C:=C) wrote req p = (true, Notify (C:=C) wrote (set_data (<[fd req := req]> (requests_ p))
    (<[fd req := CtrlParam (match requests_ p !! fd req with None => EPOLL_CTL_ADD | Some _ => EPOLL_CTL_MOD end) (fd req) (events req)]>
       (ctrl_params_ p)) p)).
Proof.
  intros Hs Hfd [f Hf]. unfold Register, invalid. by rewrite Hs, Hf, (proj2 (Z.ltb_ge _ _)).
Qed.

(** A registration that comes too early is lost.  When the same descriptor
    is registered again before the poller has added it, [Register] succeeds, but
    the addition has been replaced by a modification, which fails; from then on
    the descriptor is never watched, however often it is registered, until it is
    unregistered. *)
Theorem registration_replaces_change wrote (req : PollRequest C) s c ls s' :
  inv s → is_shutdown_ (poller s) = false → 0 <= fd req → is_Some (callback req) →
  ctrl_params_ (poller s) !! fd req = Some c → taken (at_ s) !! fd req = None → operation c = EPOLL_CTL_ADD →
  run step (LRegister wrote req :: ls) s = Some s' → forallb (negb ∘ unregisters (fd req)) ls = true →
  (Register wrote req (poller s)).1 = true ∧ is_Some (requests_ (poller s') !! fd req) ∧ interest (kernel s') !! fd req = None.
Proof.
  intros (Hr & Hs & Hd) Hsd Hfd Hcb Hc Hta Hop Hrun Hls. pose proof (Hs (fd req)) as [_ Hset]. rewrite Hc, Hop in Hset.
  destruct Hset as (Hcfd & Ht & _ & Haf & _). unfold after in Haf. rewrite Hta in Haf. unfold target in Ht. rewrite Hop in Ht.
  rewrite (Register_accepted wrote req) by done. split; [done|].
  destruct (requests_ (poller s) !! fd req) as [old|] eqn:Hold; [|done].
  assert (∀ s1, step (LRegister wrote req) s = Some s1 → lost (fd req) s1) as Hlost.
  { destruct s as [p k a r cs]. intros s1 [= <-]. cbn in *. rewrite Register_accepted, Hold by done.
    destruct (Notify_data wrote (set_data (<[fd req:=req]> (requests_ p))
      (<[fd req := CtrlParam EPOLL_CTL_MOD (fd req) (events req)]> (ctrl_params_ p)) p)) as [Hn1 Hn2].
    unfold lost. cbn [poller kernel snd at_]. rewrite Hn1, Hn2. cbn. split_and!; [| |by rewrite lookup_insert_eq|done| |].
    + intros y d [[<- <-]|[_ Hy]]%lookup_insert_Some; [done|]. destruct (Hs y) as [_ H]. rewrite Hy in H. by destruct H.
    + intros y d [[<- <-]|[_ ?]]%lookup_insert_Some; [done|]. by apply (Hr y d).
    + intros d [[_ <-]|[? _]]%lookup_insert_Some; done.
    + intros y d Hy. destruct a as [|l| |]; cbn in Hy; try by apply elem_of_nil in Hy.
      apply elem_of_list_to_map in Hy; [|done]. split; [by destruct (Hs y) as [H _]; apply H|]. intros ->. cbn in Hta. congruence. }
  cbn [run] in Hrun. destruct (step (LRegister wrote req) s) as [s1|]; [|done]. specialize (Hlost s1 eq_refl). cbn in Hrun.
  clear - Hrun Hls Hlost HL. revert s1 Hrun Hlost. induction ls as [|l ls IH]; intros s1 Hrun Hlost.
  { injection Hrun as ->. by destruct Hlost as (_ & _ & ? & ? & _). }
  cbn in Hls, Hrun. apply andb_prop in Hls as [Hl Hls]. apply negb_true_iff in Hl.
  destruct (step l s1) as [s2|] eqn:Hst; [|done]. apply (IH Hls s2 Hrun). by apply (lost_step _ l s1).
Qed.
End interest.
End PollerInterest.

(** ** Timeouts *)
Module PollerTimeouts.
Import Epoll Poller.
Section timeouts.
Context {C : Type}.
Implicit Types (p : t C) (r : PollRequest C).

(** What [Poll] answers for [x] in the rounds that waited for the given times. *)
Fixpoint ticks (x : Z) (intervals : list Z) p : list (option Z) * t C :=
  match intervals with
  | [] => ([], p)
  | i :: intervals =>
      let '(responses, p) := tick i p in
      let '(answers, p) := ticks x intervals p in (responses !! x :: answers, p)
  end.
Definition sum (l : list Z) : Z := foldr Z.add 0 l.

Lemma tick_lookup x r i p :
  requests_ p !! x = Some r → ctrl_params_ p !! fd r = None →
  (tick i p).1 !! x = (if (tick_one p i r).2 then Some 0 else None) ∧
  requests_ (tick i p).2 !! x = Some (tick_one p i r).1 ∧ ctrl_params_ (tick i p).2 = ctrl_params_ p.
Proof. intros Hx Hc. cbn. rewrite lookup_omap, lookup_fmap, Hx. done. Qed.

(** A request that waits: its time goes down, is up once, and is then without
    limit. *)
Definition aged (T used : Z) : Z := if T <=? 0 then T else if T <=? used then -1 else T - used.

Lemma tick_one_spec p i r :
  ctrl_params_ p !! fd r = None → 1 <= i → timeout_ms r ≠ 0 →
  tick_one p i r = (set_timeout_ms (aged (timeout_ms r) i) r, (0 <? timeout_ms r) && (timeout_ms r <=? i)).
Proof.
  intros Hc Hi Hr. unfold tick_one, aged. rewrite Hc. destruct (decide (is_Some None)) as [[? ?]|_]; [done|]. cbv zeta.
  destruct r as [f e T cb]. cbn [timeout_ms] in *. destruct (Z.ltb_spec 0 T).
  - rewrite (proj2 (Z.leb_gt T 0)) by lia. cbn. destruct (Z.leb_spec T i), (Z.ltb_spec (T - i) 0); cbn; try lia.
    + done.
    + destruct (Z.eqb_spec (T - i) 0); [done|lia].
    + destruct (Z.eqb_spec (T - i) 0); [lia|done].
  - rewrite (proj2 (Z.leb_le T 0)) by lia. cbn. destruct (Z.eqb_spec T 0); [lia|done].
Qed.

Lemma sum_nonneg l : Forall (λ i, 1 <= i) l → 0 <= sum l.
Proof. unfold sum. induction 1; cbn in *; lia. Qed.

Lemma ticks_spec x r intervals p :
  requests_ p !! x = Some r → ctrl_params_ p !! fd r = None → timeout_ms r ≠ 0 → Forall (λ i, 1 <= i) intervals →
  (∀ n i, intervals !! n = Some i → (ticks x intervals p).1 !! n =
     Some (if (0 <? timeout_ms r - sum (take n intervals)) && (timeout_ms r - sum (take n intervals) <=? i) then Some 0 else None)) ∧
  requests_ (ticks x intervals p).2 !! x = Some (set_timeout_ms (aged (timeout_ms r) (sum intervals)) r).
Proof.
  intros Hx Hc Hr Hint. revert r p Hx Hc Hr. induction Hint as [|i intervals Hi Hint IH]; intros r p Hx Hc Hr.
  { cbn. split; [done|]. rewrite Hx. f_equal. unfold aged. destruct r as [f e T cb]. cbn in *.
    destruct (Z.leb_spec T 0); [done|]. unfold set_timeout_ms. cbn. by rewrite Z.sub_0_r. }
  destruct (tick_lookup x r i p Hx Hc) as (H1 & H2 & H3). rewrite tick_one_spec in H1, H2 by done. cbn [fst snd] in *.
  cbn [ticks]. destruct (tick i p) as [responses p1]. cbn [fst snd] in *.
  destruct (IH _ p1 H2) as [IH1 IH2]; [by rewrite H3|unfold aged; cbn; repeat case_match; lia|].
  destruct (ticks x intervals p1) as [answers p2]. cbn [fst snd] in *. pose proof (sum_nonneg intervals Hint) as Hs.
  set (T := timeout_ms r) in *. split.
  - intros [|n] j Hj; cbn in Hj.
    + injection Hj as <-. cbn. rewrite Z.sub_0_r, H1. done.
    + change ((responses !! x :: answers) !! S n) with (answers !! n). cbn [take sum foldr]. rewrite (IH1 n j Hj). f_equal. cbn [timeout_ms set_timeout_ms].
      fold (sum (take n intervals)). pose proof (sum_nonneg (take n intervals) ltac:(by apply Forall_take)).
      pose proof (proj1 (Forall_lookup _ _) Hint n j Hj). cbn in *. unfold aged.
      destruct (Z.leb_spec T 0), (Z.leb_spec T i); repeat case_match; try done; lia.
  - rewrite IH2. cbn [sum foldr]. fold (sum intervals). unfold set_timeout_ms, aged. cbn. fold T. do 2 f_equal.
    destruct (Z.leb_spec T 0), (Z.leb_spec T i); repeat case_match; try done; lia.
Qed.

(** The thread does not wait past a timeout, and never longer than 100 ms. *)
Lemma GetTimeoutMs_spec p :
  0 <= GetTimeoutMs p <= kPollTimeoutMs ∧
  (∀ x r, requests_ p !! x = Some r → 0 <= timeout_ms r → GetTimeoutMs p <= timeout_ms r) ∧
  (GetTimeoutMs p = kPollTimeoutMs ∨ ∃ x r, requests_ p !! x = Some r ∧ timeout_ms r = GetTimeoutMs p).
Proof.
  unfold GetTimeoutMs. generalize (requests_ p). intros m.
  apply (map_fold_weak_ind (λ t m, 0 <= t <= kPollTimeoutMs ∧ (∀ x r, m !! x = Some r → 0 <= timeout_ms r → t <= timeout_ms r) ∧
    (t = kPollTimeoutMs ∨ ∃ x r, m !! x = Some r ∧ timeout_ms r = t))).
  - unfold kPollTimeoutMs. split; [lia|]. split; [|by left]. intros x r. by rewrite lookup_empty.
  - clear. intros x r m t Hx (Hb & Hle & Hat). destruct (Z.leb_spec 0 (timeout_ms r)), (Z.ltb_spec (timeout_ms r) t); cbn [andb].
    all: split; [lia|]; split; [intros y q [[<- <-]|[_ Hy]]%lookup_insert_Some Hq; [lia|specialize (Hle y q Hy Hq); lia]|].
    all: try (right; exists x, r; by rewrite lookup_insert_eq).
    all: destruct Hat as [?|(y & q & Hy & Hq)]; [by left|right; exists y, q].
    all: rewrite lookup_insert_ne by (intros ->; congruence); done.
Qed.

(** Timeouts.  A request with a timeout and no event is answered once, with
    no events, by the round in which the times waited reach its timeout, and
    waits without limit afterwards; one without a timeout is never answered so.
    A wait never goes past the timeout of a request nor past 100 ms.  The times
    are counted in whole milliseconds and at least one for each round: as many
    rounds that return at once as the timeout has milliseconds use it up though
    no time has passed. *)
Theorem poll_timeout x r intervals p now :
  requests_ p !! x = Some r → ctrl_params_ p !! fd r = None → timeout_ms r ≠ 0 → Forall (λ i, 1 <= i) intervals →
  (∀ n i, intervals !! n = Some i →
     (ticks x intervals p).1 !! n =
       Some (if (sum (take n intervals) <? timeout_ms r) && (timeout_ms r <=? sum (take n intervals) + i) then Some 0 else None)) ∧
  (timeout_ms r <= sum intervals → 0 < timeout_ms r →
     (timeout_ms <$> requests_ (ticks x intervals p).2 !! x) = Some (-1)) ∧
  (0 <= GetTimeoutMs p <= kPollTimeoutMs ∧ (0 <= timeout_ms r → GetTimeoutMs p <= timeout_ms r)) ∧
  (0 <= now < 2 ^ 64 → interval now now = 1 ∧
     (0 < timeout_ms r → (ticks x (replicate (Z.to_nat (timeout_ms r)) (interval now now)) p).1 !! Z.to_nat (timeout_ms r - 1) = Some (Some 0))).
Proof.
  intros Hx Hc Hr Hint. destruct (ticks_spec x r intervals p Hx Hc Hr Hint) as [H1 H2].
  destruct (GetTimeoutMs_spec p) as (H3 & H4 & _). split_and!; try lia.
  - intros n i Hi. rewrite (H1 n i Hi). do 2 f_equal.
    destruct (Z.ltb_spec (sum (take n intervals)) (timeout_ms r)), (Z.ltb_spec 0 (timeout_ms r - sum (take n intervals))); try lia; cbn; [|done].
    destruct (Z.leb_spec (timeout_ms r) (sum (take n intervals) + i)), (Z.leb_spec (timeout_ms r - sum (take n intervals)) i); lia || done.
  - intros Hs Ht. rewrite H2. cbn. unfold aged. by rewrite (proj2 (Z.leb_gt _ _)), (proj2 (Z.leb_le _ _)) by lia.
  - by apply (H4 x).
  - intros Hnow. assert (interval now now = 1) as Hi by (unfold interval; by rewrite Z.sub_diag). split; [done|]. rewrite Hi. intros Ht.
    set (T := timeout_ms r) in *. destruct (ticks_spec x r (replicate (Z.to_nat T) 1) p Hx Hc Hr) as [Hk _]; [by apply Forall_replicate|].
    rewrite (Hk _ 1) by (apply lookup_replicate; lia). rewrite take_replicate, Nat.min_l by lia.
    assert (∀ n, sum (replicate n 1) = Z.of_nat n) as -> by (induction n; [done|]; cbn [replicate sum foldr]; fold (sum (replicate n 1)); lia).
    fold T. rewrite Z2Nat.id, (proj2 (Z.ltb_lt _ _)), (proj2 (Z.leb_le _ _)) by lia. done.
Qed.
End timeouts.
End PollerTimeouts.

(** ** Concrete runs *)
Module PollerSample.
Import Epoll Poller PollerInterest PollerTimeouts.

(** Descriptor 3 is the poller's pipe; 5 and 7 are sockets. *)
Definition kernel0 : Model.t := {[3 := None; 5 := None; 7 := None]}.
Definition start : sys Model.t nat := Sys (Poller 9 (Some (3, 4))) kernel0 AtHandle ∅ [].
Definition req (fd events timeout : Z) : PollRequest nat := Request fd events timeout (Some (Callback 1%nat)).

Lemma start_fresh : fresh 9 3 4 kernel0.
Proof. split; [lia|]. split; [by apply map_eq; vm_compute|]. cbn. set_solver. Qed.

Definition start_changes : list (Z * PollCtrlParam) := [(3, CtrlParam EPOLL_CTL_ADD 3 EPOLLIN)].
Definition idle_round : list (label nat) := [LChange; LWait 0 0 []; LLoop].

(** 5 is registered and watched, registered again for writing while the thread is
    in [HandleChanges], unregistered and closed, opened and registered again; 7 is
    registered in between. *)
Definition script : list (label nat) :=
  LHandle start_changes :: LChange :: idle_round ++
  [LRegister true (req 5 EPOLLIN 20); LHandle [(5, CtrlParam EPOLL_CTL_ADD 5 EPOLLIN)]; LRegister true (req 5 EPOLLOUT (-1)); LChange] ++ idle_round ++
  [LUnregister true (req 5 EPOLLOUT (-1)); LClose 5; LRegister false (req 7 EPOLLOUT (-1)); LOpen 5; LRegister true (req 5 EPOLLOUT 30)].

Definition script_end : sys Model.t nat := Eval vm_compute in default start (run orderly_step script start).

Lemma poller_interest_witness :
  run orderly_step script start = Some script_end ∧ requests_ (poller script_end) !! 5 = Some (req 5 EPOLLOUT 30) ∧
  ∃ order s', run step (LHandle order :: replicate (S (length order)) LChange) script_end = Some s' ∧
    interest (kernel s') = events <$> requests_ (poller script_end).
Proof.
  split; [vm_compute; reflexivity|]. split; [vm_compute; reflexivity|].
  assert (reachable orderly_step start script_end) as Hr by (apply (run_reachable _ _ script); vm_compute; reflexivity).
  destruct (poller_interest 9 3 4 kernel0 script_end start_fresh Hr) as (_ & _ & _ & H).
  destruct (H eq_refl _ (Permutation_refl _)) as (s' & H1 & _ & _ & _ & H2). eexists _, s'. split; [exact H1|exact H2].
Defined.

(** 5 is registered twice before the poller comes. *)
Definition before_second : list (label nat) := LHandle start_changes :: LChange :: idle_round ++ [LRegister true (req 5 EPOLLIN 20)].

Definition second_end : sys Model.t nat := Eval vm_compute in default start (run orderly_step before_second start).
Definition replaced : list (label nat) := [LHandle [(5, CtrlParam EPOLL_CTL_MOD 5 EPOLLOUT)]; LChange; LRegister true (req 5 EPOLLIN 20)].
Definition replaced_end : sys Model.t nat := Eval vm_compute in default start (run step (LRegister true (req 5 EPOLLOUT 20) :: replaced) second_end).

Lemma registration_replaces_change_witness :
  run orderly_step before_second start = Some second_end ∧
  run step (LRegister true (req 5 EPOLLOUT 20) :: replaced) second_end = Some replaced_end ∧
  is_Some (requests_ (poller replaced_end) !! 5) ∧ interest (kernel replaced_end) !! 5 = None.
Proof.
  split; [vm_compute; reflexivity|]. split; [vm_compute; reflexivity|].
  assert (inv second_end) as Hi by (eapply poll_inv; [exact start_fresh|]; apply (run_reachable _ _ before_second); vm_compute; reflexivity).
  eapply (registration_replaces_change true (req 5 EPOLLOUT 20) second_end (CtrlParam EPOLL_CTL_ADD 5 EPOLLIN) replaced replaced_end);
    [exact Hi|vm_compute..]; try reflexivity; try discriminate. by eexists.
Defined.

(** An addition that replaces a deletion fails, and the kernel keeps the events of
    before.  First: 5, watched for reading, is unregistered and registered for
    writing before the poller comes.  Second: the poller has taken the addition of
    5 and not carried it out when 5 is unregistered and registered for writing; the
    kernel has nothing then. *)
Definition second_addition : list (label nat) := [LHandle [(5, CtrlParam EPOLL_CTL_ADD 5 EPOLLOUT)]; LChange; LChange].

Lemma deletion_replaced :
  (∃ s, run step (before_second ++ [LHandle [(5, CtrlParam EPOLL_CTL_ADD 5 EPOLLIN)]; LChange] ++ idle_round ++
       [LUnregister true (req 5 EPOLLIN 20); LRegister true (req 5 EPOLLOUT 20)] ++ second_addition) start = Some s ∧
     events <$> requests_ (poller s) !! 5 = Some EPOLLOUT ∧ interest (kernel s) !! 5 = Some EPOLLIN ∧ ctrl_params_ (poller s) = ∅) ∧
  (∃ s1 s, run step (before_second ++ [LHandle [(5, CtrlParam EPOLL_CTL_ADD 5 EPOLLIN)]]) start = Some s1 ∧ interest (kernel s1) !! 5 = None ∧
     run step ([LUnregister true (req 5 EPOLLIN 20); LRegister true (req 5 EPOLLOUT 20); LChange] ++ idle_round ++ second_addition) s1 = Some s ∧
     events <$> requests_ (poller s) !! 5 = Some EPOLLOUT ∧ interest (kernel s) !! 5 = Some EPOLLIN ∧ ctrl_params_ (poller s) = ∅).
Proof.
  split; [eexists|eexists _, _]; (split; [vm_compute; reflexivity|]); split_and!; vm_compute; reflexivity.
Qed.

(** A timeout of 20, waits of 8, 8 and 8 milliseconds. *)
Lemma poll_timeout_witness :
  let p := set_data {[5 := req 5 EPOLLIN 20]} ∅ (Poller 9 (Some (3, 4))) in
  (ticks 5 [8; 8; 8; 8] p).1 = [None; None; Some 0; None] ∧ (ticks 5 [8; 8; 8; 8] p).1 !! 2%nat = Some (Some 0).
Proof.
  cbv zeta. split; [by vm_compute|].
  destruct (poll_timeout 5 (req 5 EPOLLIN 20) [8; 8; 8; 8] (set_data {[5 := req 5 EPOLLIN 20]} ∅ (Poller 9 (Some (3, 4)))) 0) as [H _];
    [done|done|done|by repeat constructor|]. exact (H 2%nat 8 eq_refl).
Defined.
End PollerSample.
