(* ===== verification/Session.v ===== *)
(** * Sockets for routines ([cyber/io/poll_handler.cc], [cyber/io/session.cc])

    [PollHandler]: a routine that waits for a descriptor, the processor that runs
    it and the thread of the poller, step by step.  [Session]: the system calls,
    repeated after a wait when they would block. *)

From S2P Require Import Prelude Routine Poller.

Local Open Scope Z_scope.
Local Open Scope cyber_scope.

(** ** [PollHandler] *)
Module PollHandler.
Import CRoutine.

Definition EPOLLET : Z := Z.shiftl 1 31.
Definition EPOLLONESHOT : Z := Z.shiftl 1 30.

(** The callback of the request is [ResponseCallback] of the handler;
    [routine_]: whether it has been set. *)
Record t := mk {
  fd_ : Z; request_ : Poller.PollRequest unit; response_ : Z;
  is_read_ : bool; is_blocking_ : bool; routine_ : bool }.

Definition PollHandler (fd : Z) : t := mk fd (Poller.Request (-1) 0 (-1) None) 0 false false false.

Definition set_response (e : Z) (h : t) : t := mk (fd_ h) (request_ h) e (is_read_ h) (is_blocking_ h) (routine_ h).
Definition set_blocking (b : bool) (h : t) : t := mk (fd_ h) (request_ h) (response_ h) (is_read_ h) b (routine_ h).
Definition set_routine (b : bool) (h : t) : t := mk (fd_ h) (request_ h) (response_ h) (is_read_ h) (is_blocking_ h) b.

(** [current]: the caller is a routine. *)
Definition Check (timeout_ms : Z) (current : bool) (h : t) : bool * t :=
  if timeout_ms =? 0 then (false, h)
  else if fd_ h <? 0 then (false, h)
  else let h := set_routine current h in if current then (true, h) else (false, h).

Definition target_events (is_read : bool) : Z := if is_read then Poller.EPOLLIN else Poller.EPOLLOUT.

Definition Fill (timeout_ms : Z) (is_read : bool) (h : t) : t :=
  let events := Z.lor (Z.lor EPOLLET EPOLLONESHOT) (target_events is_read) in
  mk (fd_ h) (Poller.Request (fd_ h) events timeout_ms (Some (Poller.Callback tt))) (response_ h)
     is_read (is_blocking_ h) (routine_ h).

(** The events waited for are among those of the response. *)
Definition has_target (is_read : bool) (h : t) : bool := negb (Z.land (response_ h) (target_events is_read) =? 0).

(** The routine: in its own code, or in [Block] before the exchange of
    [is_blocking_], before [Fill], before [Register], before [Yield] sets its
    state, before the processor releases it, off the processor, taken by the
    processor and before it reads the flag, before it reads the state, and back
    in [Block] before the response is read and before [is_blocking_] is
    cleared. *)
Inductive pc :=
  | Running | BExchange | BFill | BRegister | BYield | BRelease | Parked | UTest | UState (was_pending : bool)
  | BResponse | BClear (result : bool).

(** The poller's thread: in [ResponseCallback] before the test of
    [is_blocking_], before the response is stored, before the state is tested,
    and before [NotifyTask]. *)
Inductive call := CIdle | CLoad (e : Z) | CStore (e : Z) | CTest | CNotify.

(** [armed_event]: the kernel will report an event; [armed_time]: the poller
    counts a timeout.  An event disarms both (EPOLLONESHOT, and [Poll] sets the
    timeout to -1), a timeout itself. *)
Record state := St {
  handler : t; cr : CRoutine.t; at_ : pc; timeout : Z; reading : bool;
  armed_event : bool; armed_time : bool; callback_ : call; results : list bool }.

Definition set_h (h : t) (p : pc) (s : state) : state :=
  St h (cr s) p (timeout s) (reading s) (armed_event s) (armed_time s) (callback_ s) (results s).
Definition set_cr (c : CRoutine.t) (p : pc) (s : state) : state :=
  St (handler s) c p (timeout s) (reading s) (armed_event s) (armed_time s) (callback_ s) (results s).
Definition set_call (h : t) (c : CRoutine.t) (k : call) (s : state) : state :=
  St h c (at_ s) (timeout s) (reading s) (armed_event s) (armed_time s) k (results s).
Definition return_ (b : bool) (h : t) (s : state) : state :=
  St h (cr s) Running (timeout s) (reading s) (armed_event s) (armed_time s) (callback_ s) (results s ++ [b]).

Definition waiting (c : CRoutine.t) : bool := bool_decide (state_ c = DATA_WAIT) || bool_decide (state_ c = IO_WAIT).

(** [registered]: what [Poller::Register] returns. *)
Definition proc_step (registered : bool) (s : state) : option state :=
  let h := handler s in
  let c := cr s in
  match at_ s with
  | Running => None
  | BExchange =>
      if is_blocking_ h then Some (return_ false h s) else Some (set_h (set_blocking true h) BFill s)
  | BFill => Some (set_h (Fill (timeout s) (reading s) h) BRegister s)
  | BRegister =>
      if registered then
        Some (St h c BYield (timeout s) (reading s) true (0 <? Poller.timeout_ms (request_ h)) (callback_ s) (results s))
      else Some (return_ false (set_blocking false h) s)
  | BYield => Some (set_cr (CRoutine.set_state IO_WAIT c) BRelease s)
  | BRelease => Some (set_cr (Release c) Parked s)
  | Parked => if lock_ c then None else Some (set_cr (set_lock true c) UTest s)
  | UTest => Some (set_cr (set_updated true c) (UState (negb (updated_ c))) s)
  | UState was_pending =>
      let c1 := if was_pending && waiting c then CRoutine.set_state READY c else c in
      if bool_decide (state_ c1 = READY) then Some (set_cr c1 BResponse s) else Some (set_cr (Release c1) Parked s)
  | BResponse => Some (set_h h (BClear (has_target (reading s) h)) s)
  | BClear result => Some (return_ result (set_blocking false h) s)
  end.

Definition call_step (s : state) : option state :=
  let h := handler s in
  match callback_ s with
  | CIdle => None
  | CLoad e => Some (set_call h (cr s) (if negb (is_blocking_ h) || negb (routine_ h) then CIdle else CStore e) s)
  | CStore e => Some (set_call (set_response e h) (cr s) CTest s)
  | CTest => Some (set_call h (cr s) (if bool_decide (state_ (cr s) = IO_WAIT) then CNotify else CIdle) s)
  | CNotify => Some (set_call h (if waiting (cr s) then SetUpdateFlag (cr s) else cr s) CIdle s)
  end.

(** [LNotify]: somebody else notifies the routine's task; [LUnblock]: [Unblock],
    with the request unregistered. *)
Inductive label :=
  | LBlock (timeout_ms : Z) (is_read : bool) | LProc (registered : bool)
  | LEvent (e : Z) | LTimeout | LCall | LNotify | LUnblock.

Definition step (l : label) (s : state) : option state :=
  match l with
  | LBlock timeout_ms is_read =>
      match at_ s with
      | Running =>
          let '(ok, h) := Check timeout_ms true (handler s) in
          if ok then Some (St h (cr s) BExchange timeout_ms is_read (armed_event s) (armed_time s) (callback_ s) (results s))
          else Some (return_ false h s)
      | _ => None
      end
  | LProc registered => proc_step registered s
  | LEvent e =>
      match callback_ s with
      | CIdle => if armed_event s then Some (St (handler s) (cr s) (at_ s) (timeout s) (reading s) false false (CLoad e) (results s)) else None
      | _ => None
      end
  | LTimeout =>
      match callback_ s with
      | CIdle =>
          if armed_time s then Some (St (handler s) (cr s) (at_ s) (timeout s) (reading s) (armed_event s) false (CLoad 0) (results s)) else None
      | _ => None
      end
  | LCall => call_step s
  | LNotify => Some (set_call (handler s) (if waiting (cr s) then SetUpdateFlag (cr s) else cr s) (callback_ s) s)
  | LUnblock =>
      Some (St (set_blocking false (handler s)) (cr s) (at_ s) (timeout s) (reading s) false false (callback_ s) (results s))
  end.

(** A routine that runs on a processor. *)
Definition initial (fd : Z) : state :=
  St (PollHandler fd) (set_lock true (CRoutine.CRoutine 0)) Running 0 false false false CIdle [].

(** ** Properties *)

(** Where the routine is when it waits. *)
Definition asleep (p : pc) : bool := match p with BRelease | Parked | UTest | UState _ => true | _ => false end.

Record inv (s : state) : Prop := {
  inv_state : state_ (cr s) = if asleep (at_ s) then IO_WAIT else READY;
  inv_lock : lock_ (cr s) = match at_ s with Parked => false | _ => true end }.

Lemma initial_inv_block fd : inv (initial fd).
Proof. by split. Qed.

Lemma step_inv_block l s s' : inv s → step l s = Some s' → inv s'.
Proof.
  intros [Hst Hlk] Hs. destruct s as [h [w st lk u f p pr i n g] a tm rd ae at' cb rs]. cbn in *.
  destruct l as [tmo isr|reg|e| | | |]; cbn in Hs.
  - destruct a; try done. destruct (Check tmo true h) as [[] h']; simplify_eq; by split.
  - unfold proc_step in Hs. cbn in Hs. destruct a as [| | | | | | | |was| |]; cbn in *; subst;
      try (destruct reg); try (destruct was; vm_compute in Hs); try (destruct (is_blocking_ h)); cbn in *; simplify_eq; by split.
  - destruct cb, ae; simplify_eq; by split.
  - destruct cb, at'; simplify_eq; by split.
  - unfold call_step in Hs. cbn in Hs. destruct cb; simplify_eq; split; cbn; try done; by destruct (waiting _).
  - simplify_eq. split; cbn; by destruct (waiting _).
  - simplify_eq. by split.
Qed.

(** Asleep with nothing left that would wake it. *)
Definition lost (s : state) : Prop :=
  state_ (cr s) = IO_WAIT ∧ updated_ (cr s) = true ∧ armed_event s = false ∧ armed_time s = false ∧ callback_ s = CIdle ∧
  asleep (at_ s) = true ∧ at_ s ≠ UState true.

Lemma lost_step_block l s s' : lost s → l ≠ LNotify → step l s = Some s' → lost s' ∧ results s' = results s.
Proof.
  intros (Hst & Hu & He & Ht & Hc & Ha & Hp) Hl Hs. destruct s as [h [w st lk u f p pr i n g] a tm rd ae at' cb rs]. cbn in *. subst.
  destruct l as [tmo isr|reg|e| | | |]; cbn in Hs; try done.
  - by destruct a.
  - destruct a as [| | | | | | | |[]| |]; cbn in *; try done; try (destruct lk; try done); try (vm_compute in Hs; simplify_eq; by split); simplify_eq; by split.
  - simplify_eq. by split.
Qed.

(** C38: a response that finds the routine waiting is delivered.  When the
    poller's callback finds the routine in IO_WAIT, whatever led there, the
    processor alone finishes [Block] within six steps; the result says whether
    the response holds the event waited for: it is false for a timeout. *)
Theorem block_answered fd s :
  reachable step (initial fd) s → callback_ s = CTest → state_ (cr s) = IO_WAIT →
  ∃ k s', (k <= 6)%nat ∧ run step ([LCall; LCall] ++ replicate k (LProc true)) s = Some s' ∧
    at_ s' = Running ∧ results s' = results s ++ [has_target (reading s) (handler s)] ∧ is_blocking_ (handler s') = false.
Proof.
  intros Hr Hc Hw. assert (inv s) as [Hst Hlk].
  { eapply (reachable_inv step inv); [apply initial_inv_block|intros; by eapply step_inv_block|done]. }
  destruct s as [h [w st lk u f p pr i n g] a tm rd ae at' cb rs]. cbn in *. subst.
  destruct a as [| | | | | | | |[]| |]; cbn in Hst; try done.
  - by exists 6%nat, (St (set_blocking false h) (CRoutine.mk w READY true true f p pr i n g) Running tm rd ae at' CIdle (rs ++ [has_target rd h])); split; [lia|].
  - by exists 5%nat, (St (set_blocking false h) (CRoutine.mk w READY true true f p pr i n g) Running tm rd ae at' CIdle (rs ++ [has_target rd h])); split; [lia|].
  - by exists 4%nat, (St (set_blocking false h) (CRoutine.mk w READY true true f p pr i n g) Running tm rd ae at' CIdle (rs ++ [has_target rd h])); split; [lia|].
  - by exists 3%nat, (St (set_blocking false h) (CRoutine.mk w READY true false f p pr i n g) Running tm rd ae at' CIdle (rs ++ [has_target rd h])); split; [lia|].
  - by exists 6%nat, (St (set_blocking false h) (CRoutine.mk w READY true true f p pr i n g) Running tm rd ae at' CIdle (rs ++ [has_target rd h])); split; [lia|].
Qed.

(** The response comes after [Register] and before [Yield]; [Unblock] comes while
    the routine is parked. *)
Definition early (tmo : Z) (is_read : bool) (e : Z) : list label :=
  LBlock tmo is_read :: replicate 3 (LProc true) ++ [LEvent e] ++ replicate 3 LCall ++ [LProc true].
Definition unblocked (tmo : Z) (is_read : bool) : list label :=
  LBlock tmo is_read :: replicate 5 (LProc true) ++ [LUnblock].

(** A response that finds the routine not yet waiting is lost.  If the
    poller answers between [Register] and [Yield], the response is stored and the
    routine not notified; it goes to sleep, the event is disarmed and the timeout
    cancelled, and [Block] never returns, whatever timeout it was given.  The
    same holds when another thread calls [Unblock] (as [Close] does) on a routine
    that waits. *)
Theorem block_lost fd tmo is_read e :
  0 <= fd → tmo ≠ 0 →
  (∃ s, run step (early tmo is_read e) (initial fd) = Some s ∧ lost s ∧ response_ (handler s) = e ∧ results s = []) ∧
  (∃ s, run step (unblocked tmo is_read) (initial fd) = Some s ∧ lost s ∧ results s = []) ∧
  (∀ s ls s', lost s → run step ls s = Some s' → LNotify ∉ ls → lost s' ∧ results s' = results s).
Proof.
  intros Hfd Ht. assert (Check tmo true (PollHandler fd) = (true, set_routine true (PollHandler fd))) as Hc.
  { unfold Check. cbn [fd_ PollHandler]. by rewrite (proj2 (Z.eqb_neq _ _)), (proj2 (Z.ltb_ge _ _)). }
  split_and!.
  - unfold early. cbn [app replicate run step at_ initial handler]. rewrite Hc. eexists.
    split; [lazy -[Check has_target Z.ltb Z.lor EPOLLET EPOLLONESHOT]; reflexivity|]. by split.
  - unfold unblocked. cbn [app replicate run step at_ initial handler]. rewrite Hc. eexists.
    split; [lazy -[Check has_target Z.ltb Z.lor EPOLLET EPOLLONESHOT]; reflexivity|]. by split.
  - intros s ls. revert s. induction ls as [|l ls IH]; intros s s' Hl; cbn; [by intros [= <-]|].
    destruct (step l s) as [s1|] eqn:Hs; [|done]. cbn. rewrite not_elem_of_cons. intros Hrun [Hne Hls].
    destruct (lost_step_block l s s1 Hl) as [Hl1 <-]; [congruence|done|]. by apply IH.
Qed.

(** A stale response is answered again.  [Block] does not clear the response
    of before: when the routine's task is notified for another reason while it
    waits, [Block] returns at once what the last call returned, with no event
    since. *)
Theorem block_stale fd tmo tmo' e :
  0 <= fd → tmo ≠ 0 → tmo' ≠ 0 → Z.land e Poller.EPOLLIN ≠ 0 →
  ∃ s, run step ([LBlock tmo true] ++ replicate 5 (LProc true) ++ [LEvent e] ++ replicate 4 LCall ++ replicate 5 (LProc true) ++
                 [LBlock tmo' true] ++ replicate 5 (LProc true) ++ [LNotify] ++ replicate 5 (LProc true)) (initial fd) = Some s ∧
    results s = [true; true] ∧ armed_event s = true ∧ callback_ s = CIdle.
Proof.
  intros Hfd Ht Ht' He. assert (∀ h t, fd_ h = fd → t ≠ 0 → Check t true h = (true, set_routine true h)) as Hc.
  { intros h t Hh Hnz. unfold Check. by rewrite Hh, (proj2 (Z.eqb_neq _ _)), (proj2 (Z.ltb_ge _ _)). }
  assert (∀ h, response_ h = e → has_target true h = true) as Hh.
  { intros h <-. unfold has_target. cbn. by rewrite (proj2 (Z.eqb_neq _ _)). }
  rewrite run_app. cbn [run step at_ initial handler]. rewrite Hc by done. cbn [mbind option_bind run].
  lazy -[Check has_target Z.ltb Z.lor EPOLLET EPOLLONESHOT]. rewrite Hc by done. lazy -[Check has_target Z.ltb Z.lor EPOLLET EPOLLONESHOT].
  eexists. split; [reflexivity|]. cbn. by rewrite !Hh.
Qed.
End PollHandler.

(** ** [Session]

    The world of the system calls is an argument: their results, [errno], and
    what [PollHandler::Block] and [Unblock] do. *)
Module Session.

Class World (W : Type) := {
  errno : W → Z;
  set_errno : Z → W → W;
  (** [socket], [listen], [bind], [accept4], [connect], [getsockopt], [close]. *)
  sys_socket : W → Z * W;
  sys_listen : Z → Z → W → Z * W;
  sys_bind : Z → W → Z * W;
  sys_accept : Z → W → Z * W;
  sys_connect : Z → W → Z * W;
  so_error : Z → W → Z * W;
  sys_close : Z → W → Z * W;
  (** [PollHandler] of the session on its descriptor. *)
  Block : Z → Z → bool → W → bool * W;
  Unblock : Z → W → bool * W }.

Definition EAGAIN : Z := 11.
Definition EWOULDBLOCK : Z := 11.
Definition EINPROGRESS : Z := 115.

Section session.
Context {W : Type} `{World W}.

(** [ACHECK] aborts the program. *)
Inductive outcome (A : Type) := Aborted | Returned (a : A) (w : W).
Arguments Aborted {_}. Arguments Returned {_}.

(** The handler holds the same descriptor. *)
Record t := mk { fd_ : Z }.

Definition Session : t := mk (-1).
Definition Session1 (fd : Z) : t := mk fd.
Definition set_fd (fd : Z) (s : t) : t := mk fd.

Definition again (w : W) : bool := (errno w =? EAGAIN) || (errno w =? EWOULDBLOCK).

Definition Socket (s : t) (w : W) : Z * t * W :=
  if negb (fd_ s =? -1) then (-1, s, w)
  else let '(sock_fd, w) := sys_socket w in (sock_fd, if negb (sock_fd =? -1) then set_fd sock_fd s else s, w).

Definition Listen (backlog : Z) (s : t) (w : W) : outcome Z :=
  if fd_ s =? -1 then Aborted else let '(r, w) := sys_listen (fd_ s) backlog w in Returned r w.

(** [addr]: is not null. *)
Definition Bind (addr : bool) (s : t) (w : W) : outcome Z :=
  if fd_ s =? -1 then Aborted else if negb addr then Aborted else let '(r, w) := sys_bind (fd_ s) w in Returned r w.

Fixpoint accept_loop (fuel : nat) (fd sock_fd : Z) (w : W) : option (Z * W) :=
  match fuel with
  | O => None
  | S fuel =>
      if (sock_fd =? -1) && again w then
        let '(_, w) := Block fd (-1) true w in
        let '(sock_fd, w) := sys_accept fd w in accept_loop fuel fd sock_fd w
      else Some (sock_fd, w)
  end.
Definition Accept (fuel : nat) (s : t) (w : W) : option (outcome (option t)) :=
  if fd_ s =? -1 then Some Aborted
  else
    let '(sock_fd, w) := sys_accept (fd_ s) w in
    '(sock_fd, w) ← accept_loop fuel (fd_ s) sock_fd w;
    Some (Returned (if sock_fd =? -1 then None else Some (Session1 sock_fd)) w).

Definition Connect (s : t) (w : W) : outcome Z :=
  if fd_ s =? -1 then Aborted
  else
    let '(res, w) := sys_connect (fd_ s) w in
    if (res =? -1) && (errno w =? EINPROGRESS) then
      let '(_, w) := Block (fd_ s) (-1) false w in
      let '(optval, w) := so_error (fd_ s) w in
      if optval =? 0 then Returned 0 w else Returned res (set_errno optval w)
    else Returned res w.

Definition Close (s : t) (w : W) : outcome (Z * t) :=
  if fd_ s =? -1 then Aborted
  else
    let '(_, w) := Unblock (fd_ s) w in
    let '(res, w) := sys_close (fd_ s) w in Returned (res, set_fd (-1) s) w.

(** The loop that [Recv], [RecvFrom], [Send], [SendTo], [Read] and [Write]
    share; [op]: the system call. *)
Fixpoint io_loop (fuel : nat) (op : Z → W → Z * W) (fd timeout_ms : Z) (is_read : bool) (nbytes : Z) (w : W) : option (Z * W) :=
  match fuel with
  | O => None
  | S fuel =>
      if (nbytes =? -1) && again w then
        let '(ok, w) := Block fd timeout_ms is_read w in
        let '(nbytes, w) := if ok then op fd w else (nbytes, w) in
        if 0 <? timeout_ms then Some (nbytes, w) else io_loop fuel op fd timeout_ms is_read nbytes w
      else Some (nbytes, w)
  end.

(** [buf]: the pointers are not null. *)
Definition transfer (fuel : nat) (op : Z → W → Z * W) (is_read buf : bool) (timeout_ms : Z) (s : t) (w : W) : option (outcome Z) :=
  if negb buf then Some Aborted
  else if fd_ s =? -1 then Some Aborted
  else
    let '(nbytes, w) := op (fd_ s) w in
    if timeout_ms =? 0 then Some (Returned nbytes w)
    else '(nbytes, w) ← io_loop fuel op (fd_ s) timeout_ms is_read nbytes w; Some (Returned nbytes w).

Definition Recv (fuel : nat) (recv : Z → W → Z * W) := transfer fuel recv true.
Definition RecvFrom (fuel : nat) (recvfrom : Z → W → Z * W) := transfer fuel recvfrom true.
Definition Send (fuel : nat) (send : Z → W → Z * W) := transfer fuel send false.
Definition SendTo (fuel : nat) (sendto : Z → W → Z * W) := transfer fuel sendto false.
Definition Read (fuel : nat) (read : Z → W → Z * W) := transfer fuel read true.
Definition Write (fuel : nat) (write : Z → W → Z * W) := transfer fuel write false.

(** ** Properties *)
Section transfers.
Context (op : Z → W → Z * W) (fd timeout_ms : Z) (is_read : bool).

(** The call would have blocked. *)
Definition blocked (x : Z * W) : bool := (x.1 =? -1) && again x.2.
(** One wait and the call again. *)
Definition retry (x : Z * W) : Z * W := op fd (Block fd timeout_ms is_read x.2).2.
Definition waited (x : Z * W) : Prop := (Block fd timeout_ms is_read x.2).1 = true.

Lemma io_loop_done fuel x : blocked x = false → io_loop (S fuel) op fd timeout_ms is_read x.1 x.2 = Some x.
Proof. unfold blocked. intros Hb. cbn [io_loop]. rewrite Hb. by destruct x. Qed.

Lemma io_loop_retry fuel x :
  timeout_ms < 0 → blocked x = true → waited x →
  io_loop (S fuel) op fd timeout_ms is_read x.1 x.2 = io_loop fuel op fd timeout_ms is_read (retry x).1 (retry x).2.
Proof.
  unfold blocked, waited, retry. intros Ht Hb Hw. cbn [io_loop]. rewrite Hb. destruct (Block _ _ _ _) as [ok w]. cbn in *. subst ok.
  destruct (op fd w) as [n w']. by rewrite (proj2 (Z.ltb_ge _ _)) by lia.
Qed.

Lemma io_loop_iter k fuel x :
  timeout_ms < 0 → (∀ i, (i < k)%nat → blocked (Nat.iter i retry x) = true ∧ waited (Nat.iter i retry x)) →
  blocked (Nat.iter k retry x) = false →
  io_loop (k + S fuel) op fd timeout_ms is_read x.1 x.2 = Some (Nat.iter k retry x).
Proof.
  intros Ht. revert x. induction k as [|k IH]; intros x Hall Hk; [by apply io_loop_done|].
  destruct (Hall 0%nat ltac:(lia)) as [Hb Hw]. cbn [plus]. rewrite io_loop_retry by done.
  assert (∀ i, Nat.iter i retry (retry x) = Nat.iter (S i) retry x) as Hi by (intros i; by rewrite Nat.iter_succ_r).
  rewrite (IH (retry x)); [by rewrite Hi| |by rewrite Hi].
  intros i Hlt. rewrite Hi. apply Hall. lia.
Qed.

Lemma io_loop_result fuel x y :
  timeout_ms < 0 → io_loop fuel op fd timeout_ms is_read x.1 x.2 = Some y → blocked y = false.
Proof.
  intros Ht. revert x. induction fuel as [|fuel IH]; intros x; [done|]. cbn [io_loop].
  destruct ((x.1 =? -1) && again x.2) eqn:Hb; [|intros [= <-]; exact Hb].
  destruct (Block _ _ _ _) as [ok w]. destruct ok; [destruct (op fd w) as [n w1]|];
    rewrite (proj2 (Z.ltb_ge _ _)) by lia; intros Hy; [exact (IH (n, w1) Hy)|exact (IH (x.1, w) Hy)].
Qed.
End transfers.

(** Reading and writing.  For all six operations: with a timeout of 0 the
    call is made once; with a positive one, once more after a wait that ended
    with the event, and not again, whether or not time is left; without limit,
    until a call does not block: after [k] waits that ended with the event the
    result is that of the call [k + 1], and nothing is ever returned that would
    have blocked. *)
Theorem session_transfer op is_read timeout_ms s w fuel :
  fd_ s ≠ -1 →
  let x := op (fd_ s) w in
  let result := transfer fuel op is_read true timeout_ms s w in
  (timeout_ms = 0 → result = Some (Returned x.1 x.2)) ∧
  (0 < timeout_ms → (0 < fuel)%nat →
     let b := Block (fd_ s) timeout_ms is_read x.2 in
     let y := if blocked x then (if b.1 then op (fd_ s) b.2 else (x.1, b.2)) else x in
     result = Some (Returned y.1 y.2)) ∧
  (timeout_ms < 0 →
     (∀ n w', result = Some (Returned n w') → blocked (n, w') = false) ∧
     ∀ k, let r i := Nat.iter i (retry op (fd_ s) timeout_ms is_read) x in
       (∀ i, (i < k)%nat → blocked (r i) = true ∧ waited (fd_ s) timeout_ms is_read (r i)) → blocked (r k) = false →
       (k < fuel)%nat → result = Some (Returned (r k).1 (r k).2)).
Proof.
  intros Hfd x result. unfold result, transfer. rewrite (proj2 (Z.eqb_neq _ _)) by done. cbn [negb]. fold x.
  destruct x as [n w1] eqn:Hx. cbn [fst snd]. split_and!.
  - intros ->. done.
  - intros Ht Hf. rewrite (proj2 (Z.eqb_neq timeout_ms 0)) by lia. destruct fuel as [|fuel]; [lia|]. cbv zeta. cbn [io_loop].
    unfold blocked. cbn [fst snd]. destruct ((n =? -1) && again w1); [|done].
    destruct (Block _ _ _ _) as [ok w2]. cbn [fst snd]. destruct ok; [destruct (op (fd_ s) w2)|]; by rewrite (proj2 (Z.ltb_lt _ _)).
  - intros Ht. rewrite (proj2 (Z.eqb_neq timeout_ms 0)) by lia. split.
    + intros m w' Hr. destruct (io_loop _ _ _ _ _ _ _) as [[m' w2]|] eqn:Hl; [|done]. injection Hr as -> ->.
      by apply (io_loop_result op (fd_ s) timeout_ms is_read fuel (n, w1)).
    + intros k Hall Hk Hf. pose proof (io_loop_iter op (fd_ s) timeout_ms is_read k (fuel - k - 1) (n, w1) Ht Hall Hk) as Hi.
      replace (k + S (fuel - k - 1))%nat with fuel in Hi by lia. cbn [fst snd] in Hi. rewrite Hi. cbn.
      by destruct (Nat.iter k _ _).
Qed.

(** A wait that fails at once.  When [Block] returns false without waiting,
    as it does outside of a routine, an operation without a time limit whose
    first call would block never returns: the call is not made again, whatever
    arrives.  [Accept] does make it again. *)
Theorem session_spins op is_read timeout_ms s w :
  fd_ s ≠ -1 → timeout_ms < 0 → (∀ t r w, Block (fd_ s) t r w = (false, w)) → blocked (op (fd_ s) w) = true →
  (∀ fuel, transfer fuel op is_read true timeout_ms s w = None) ∧
  (∀ w1 fuel, sys_accept (fd_ s) w = (-1, w1) → again w1 = true → blocked (sys_accept (fd_ s) w1) = false → (1 < fuel)%nat →
     let y := sys_accept (fd_ s) w1 in
     Accept fuel s w = Some (Returned (if y.1 =? -1 then None else Some (Session1 y.1)) y.2)).
Proof.
  intros Hfd Ht Hblock Hx. split.
  - intros fuel. unfold transfer. rewrite (proj2 (Z.eqb_neq _ _)) by done. cbn [negb]. destruct (op (fd_ s) w) as [n w1].
    rewrite (proj2 (Z.eqb_neq timeout_ms 0)) by lia.
    assert (io_loop fuel op (fd_ s) timeout_ms is_read n w1 = None) as ->; [|done]. unfold blocked in Hx. cbn in Hx.
    induction fuel as [|fuel IH]; [done|]. cbn [io_loop]. rewrite Hx, Hblock, (proj2 (Z.ltb_ge _ _)) by lia. exact IH.
  - intros w1 fuel Ha Hw1 Hy Hf. unfold Accept. rewrite (proj2 (Z.eqb_neq _ _)) by done. rewrite Ha.
    destruct fuel as [|[|fuel]]; [lia..|]. cbn [accept_loop]. cbn [Z.eqb andb]. rewrite Hw1, Hblock. cbn [andb].
    unfold blocked in Hy. destruct (sys_accept (fd_ s) w1) as [fd2 w2]. cbn in Hy |- *. by rewrite Hy.
Qed.
End session.
Arguments outcome : clear implicits.
Arguments Aborted {_ _}.
Arguments Returned {_ _}.
End Session.

(** ** Concrete runs *)
Module SessionSample.
Import PollHandler Session.

Definition waits_for : list label := LBlock 100 true :: replicate 5 (LProc true) ++ [LEvent 1; LCall; LCall].

Lemma block_answered_witness :
  (s ← run step (waits_for ++ replicate 2 LCall ++ replicate 5 (LProc true)) (initial 5); Some (results s)) = Some [true] ∧
  ∃ s, run step waits_for (initial 5) = Some s ∧
    ∃ k s', (k <= 6)%nat ∧ run step ([LCall; LCall] ++ replicate k (LProc true)) s = Some s' ∧ results s' = results s ++ [true].
Proof.
  split; [vm_compute; reflexivity|]. destruct (run step waits_for (initial 5)) as [s|] eqn:Hs; [|by vm_compute in Hs].
  exists s. split; [done|]. assert (callback_ s = CTest ∧ CRoutine.state_ (cr s) = CRoutine.IO_WAIT ∧ has_target (reading s) (handler s) = true) as (H1 & H2 & H3).
  { vm_compute in Hs. injection Hs as <-. by vm_compute. }
  destruct (block_answered 5 s (run_reachable _ _ _ _ Hs) H1 H2) as (k & s' & Hk & Hrun & _ & Hres & _).
  exists k, s'. split; [done|]. split; [done|]. by rewrite Hres, H3.
Defined.

Lemma block_lost_witness : ∃ s, run step (early 100 true 1) (initial 5) = Some s ∧ lost s ∧ results s = [].
Proof.
  destruct (block_lost 5 100 true 1) as [(s & H1 & H2 & _ & H3) _]; [lia|lia|].
  exact (ex_intro _ s (conj H1 (conj H2 H3))).
Defined.

Lemma block_stale_witness :
  ∃ s, run step ([LBlock 100 true] ++ replicate 5 (LProc true) ++ [LEvent 1] ++ replicate 4 LCall ++ replicate 5 (LProc true) ++
                 [LBlock (-1) true] ++ replicate 5 (LProc true) ++ [LNotify] ++ replicate 5 (LProc true)) (initial 5) = Some s ∧
    results s = [true; true].
Proof.
  destruct (block_stale 5 100 (-1) 1) as (s & H1 & H2 & _); [lia|lia|lia|vm_compute; congruence|].
  exact (ex_intro _ s (conj H1 H2)).
Defined.

(** The calls are counted; the third one gets five bytes.  Waiting for
    descriptor 4 works, for others it fails at once. *)
#[local] Instance demo : World nat := {
  errno _ := EAGAIN; set_errno _ w := w; sys_socket w := (4, w); sys_listen _ _ w := (0, w); sys_bind _ w := (0, w);
  sys_accept _ w := (if (w <? 1)%nat then -1 else 6, S w); sys_connect _ w := (0, w); so_error _ w := (0, w);
  sys_close _ w := (0, w); Block fd _ _ w := (fd =? 4, w); Unblock _ w := (true, w) }.
Definition recv (fd : Z) (w : nat) : Z * nat := (if (w <? 2)%nat then -1 else 5, S w).

Lemma session_transfer_witness :
  Recv 3 recv true 0 (Session1 4) 0%nat = Some (Returned (-1) 1%nat) ∧
  Recv 3 recv true 9 (Session1 4) 0%nat = Some (Returned (-1) 2%nat) ∧
  Recv 3 recv true (-1) (Session1 4) 0%nat = Some (Returned 5 3%nat).
Proof.
  split; [by vm_compute|]. split; [by vm_compute|].
  destruct (session_transfer recv true (-1) (Session1 4) 0%nat 3) as (_ & _ & H); [done|].
  destruct (H ltac:(lia)) as [_ Hk]. apply (Hk 2%nat); [|done|lia].
  intros [|[|i]] Hi; [done|done|lia].
Defined.

Lemma session_spins_witness :
  (∀ fuel, Recv fuel recv true (-1) (Session1 9) 0%nat = None) ∧ Accept 2 (Session1 9) 0%nat = Some (Returned (Some (Session1 6)) 2%nat).
Proof.
  destruct (session_spins recv true (-1) (Session1 9) 0%nat) as [H1 H2]; [done|lia|done|done|].
  split; [exact H1|]. by apply (H2 1%nat 2%nat); [| | |lia].
Defined.
End SessionSample.
