(* ===== verification/Tasks.v ===== *)
(** * Asynchronous tasks ([cyber/task/task_manager.h], [cyber/task/task_manager.cc])

    [TaskManager]: a [BoundedQueue] of functions and routines that take them.
    The threads that call [Enqueue], the workers' routines with their processors
    and [Shutdown] are the steps.  A function is a number; the interleavings
    inside the queue are those of [BoundedQueue], here an operation is one
    step. *)

From S2P Require Import Prelude WaitStrategy BoundedQueue Routine.

Local Open Scope Z_scope.

Module TaskManager.
Import CRoutine.

Definition task_queue_size_ : Z := 1000.

(** A worker's routine: off the processor, before the processor reads its flag
    and its state; at the head of the loop, before [Dequeue], before [HangUp]
    sets the state, before the processor releases it; in a task; returned. *)
Inductive pc :=
  | WParked | WTest | WState (was_pending : bool)
  | WLoop | WDequeue | WHangUp | WRelease | WTask (task : nat) | WReturned.
Record worker := Worker { wcr : CRoutine.t; wat : pc }.

(** A caller of [Enqueue]: before it stores its task, before it reads the state
    of the [i]-th worker's routine ([NotifyTask]) and before it sets the flag. *)
Inductive caller := CIdle | CEnqueue (task : nat) | CNotify (i : nat) | CSet (i : nat).

(** [accepted]: the tasks stored; [taken]: those a worker has taken; [ran]: those
    that have returned; [broken]: those dropped, whose futures are broken. *)
Record t := mk {
  stop_ : bool; task_queue_ : BoundedQueue.t nat; tasks_ : list worker; callers : list caller;
  accepted : list nat; taken : list nat; ran : list nat; broken : list nat }.

Definition set_worker (w : nat) (x : worker) (s : t) : t :=
  mk (stop_ s) (task_queue_ s) (<[w := x]> (tasks_ s)) (callers s) (accepted s) (taken s) (ran s) (broken s).
Definition set_caller (c : nat) (x : caller) (s : t) : t :=
  mk (stop_ s) (task_queue_ s) (tasks_ s) (<[c := x]> (callers s)) (accepted s) (taken s) (ran s) (broken s).

(** The constructor; [None] is the exception of a failed [Init]. *)
Definition TaskManager (calloc_ok : bool) (num_threads num_callers : nat) : option t :=
  let '(ok, q) := BoundedQueue.Init 0%nat calloc_ok task_queue_size_ WaitStrategy.BlockWaitStrategy BoundedQueue.BoundedQueue in
  if ok then Some (mk false q (replicate num_threads (Worker (CRoutine.CRoutine 0) WParked)) (replicate num_callers CIdle) [] [] [] [])
  else None.

Definition waiting (c : CRoutine.t) : bool := bool_decide (state_ c = DATA_WAIT) || bool_decide (state_ c = IO_WAIT).

Definition worker_step (w : nat) (s : t) : option t :=
  '(Worker c p) ← tasks_ s !! w;
  match p with
  | WParked => if lock_ c then None else Some (set_worker w (Worker (set_lock true c) WTest) s)
  | WTest => Some (set_worker w (Worker (set_updated true c) (WState (negb (updated_ c)))) s)
  | WState was_pending =>
      let c1 := if was_pending && waiting c then CRoutine.set_state READY c else c in
      Some (set_worker w (if bool_decide (state_ c1 = READY) then Worker c1 WLoop else Worker (Release c1) WParked) s)
  | WLoop => Some (set_worker w (if stop_ s then Worker (Release (finish c)) WReturned else Worker c WDequeue) s)
  | WDequeue =>
      '(task, q) ← BoundedQueue.Dequeue (task_queue_ s);
      match task with
      | None => Some (set_worker w (Worker c WHangUp) s)
      | Some task =>
          Some (mk (stop_ s) q (<[w := Worker c (WTask task)]> (tasks_ s)) (callers s) (accepted s) (taken s ++ [task]) (ran s) (broken s))
      end
  | WHangUp => Some (set_worker w (Worker (HangUp c) WRelease) s)
  | WRelease => Some (set_worker w (Worker (Release c) WParked) s)
  | WTask task =>
      Some (mk (stop_ s) (task_queue_ s) (<[w := Worker c WLoop]> (tasks_ s)) (callers s) (accepted s) (taken s) (ran s ++ [task]) (broken s))
  | WReturned => None
  end.

(** [Enqueue]: the test of [stop_], then the rest. *)
Definition submit (c task : nat) (s : t) : option t :=
  match callers s !! c with
  | Some CIdle =>
      if stop_ s then Some (mk (stop_ s) (task_queue_ s) (tasks_ s) (callers s) (accepted s) (taken s) (ran s) (broken s ++ [task]))
      else Some (set_caller c (CEnqueue task) s)
  | _ => None
  end.
Definition caller_step (c : nat) (s : t) : option t :=
  x ← callers s !! c;
  match x with
  | CIdle => None
  | CEnqueue task =>
      '(stored, q) ← BoundedQueue.Enqueue (task_queue_ s) task;
      Some (mk (stop_ s) q (tasks_ s) (<[c := CNotify 0]> (callers s))
               (if (stored : bool) then accepted s ++ [task] else accepted s) (taken s) (ran s)
               (if (stored : bool) then broken s else broken s ++ [task]))
  | CNotify i =>
      match tasks_ s !! i with
      | None => Some (set_caller c CIdle s)
      | Some x => Some (set_caller c (if waiting (wcr x) then CSet i else CNotify (S i)) s)
      end
  | CSet i =>
      x ← tasks_ s !! i;
      Some (set_caller c (CNotify (S i)) (set_worker i (Worker (SetUpdateFlag (wcr x)) (wat x)) s))
  end.

Definition Shutdown (s : t) : t :=
  mk true (task_queue_ s) (tasks_ s) (callers s) (accepted s) (taken s) (ran s) (broken s).

Inductive label := LSubmit (c task : nat) | LCall (c : nat) | LWork (w : nat) | LShutdown.
Definition step (l : label) (s : t) : option t :=
  match l with
  | LSubmit c task => submit c task s
  | LCall c => caller_step c s
  | LWork w => worker_step w s
  | LShutdown => Some (Shutdown s)
  end.

(** ** Properties *)

Definition in_task (x : worker) : option nat := match wat x with WTask task => Some task | _ => None end.
Definition running (s : t) : list nat := omap in_task (tasks_ s).

(** Nothing will bring the worker back to the queue: it found the queue empty or
    waits, and there is no notification; or it has returned. *)
Definition deaf (x : worker) : bool :=
  match wat x with
  | WHangUp => updated_ (wcr x)
  | WRelease | WParked | WTest | WState false => updated_ (wcr x) && bool_decide (state_ (wcr x) = DATA_WAIT)
  | WReturned => true
  | _ => false
  end.

(** A routine's state and lock, by where it is. *)
Definition worker_ok (x : worker) : Prop :=
  match wat x with
  | WRelease => state_ (wcr x) = DATA_WAIT
  | WParked | WTest | WState _ => state_ (wcr x) = READY ∨ state_ (wcr x) = DATA_WAIT
  | WLoop | WDequeue | WHangUp | WTask _ => state_ (wcr x) = READY
  | WReturned => True
  end ∧ lock_ (wcr x) = match wat x with WParked | WReturned => false | _ => true end.

Definition in_range (s : t) : Prop := 2 + Z.of_nat (length (accepted s)) < 2 ^ 64.

Record inv (s : t) : Prop := {
  tm_queue : ∃ pending, accepted s = taken s ++ pending ∧
    BoundedQueue.represents task_queue_size_ (task_queue_ s) (length (accepted s)) pending;
  tm_running : taken s ≡ₚ ran s ++ running s;
  tm_workers : Forall worker_ok (tasks_ s) }.

Lemma running_insert l w x y :
  l !! w = Some x →
  omap in_task (<[w := y]> l) ++ option_list (in_task x) ≡ₚ omap in_task l ++ option_list (in_task y).
Proof.
  revert w. induction l as [|z l IH]; intros [|w] Hw; simplify_eq/=.
  - destruct (in_task x), (in_task y); cbn; solve_Permutation.
  - destruct (in_task z); cbn; by rewrite (IH _ Hw).
Qed.

Lemma running_same s w x y : tasks_ s !! w = Some x → in_task x = in_task y → running (set_worker w y s) ≡ₚ running s.
Proof.
  intros Hw Heq. unfold running. cbn. pose proof (running_insert (tasks_ s) w x y Hw) as Hp. rewrite Heq in Hp.
  by apply Permutation_app_inv_r in Hp.
Qed.

Lemma set_worker_inv s w x y :
  inv s → tasks_ s !! w = Some x → in_task x = in_task y → worker_ok y → inv (set_worker w y s).
Proof.
  intros [Hq Hr Hw] Hx Heq Hy. split; [done| |].
  - rewrite (running_same s w x y) by done. done.
  - by apply Forall_insert.
Qed.

Lemma initial_task_inv num_threads num_callers s : TaskManager true num_threads num_callers = Some s → inv s.
Proof.
  intros [= <-]. split; cbn.
  - exists []. split; [done|].
    by apply (BoundedQueue.represents_initial 0%nat task_queue_size_ WaitStrategy.BlockWaitStrategy).
  - by induction num_threads.
  - apply Forall_replicate. split; [by left|done].
Qed.

Lemma task_step_grows l s s' : step l s = Some s' → in_range s' → in_range s.
Proof.
  unfold in_range. destruct l as [c task|c|w|]; cbn; intros Hs; [| | |by injection Hs as <-].
  - unfold submit in Hs. split_step Hs; cbn; lia.
  - unfold caller_step in Hs. split_step Hs; cbn; rewrite ?length_app; cbn; lia.
  - unfold worker_step in Hs. split_step Hs; cbn; lia.
Qed.

Lemma dequeue_inv s w c :
  inv s → in_range s → tasks_ s !! w = Some (Worker c WDequeue) → ∀ pending,
  accepted s = taken s ++ pending → BoundedQueue.represents task_queue_size_ (task_queue_ s) (length (accepted s)) pending →
  match pending with
  | [] => worker_step w s = Some (set_worker w (Worker c WHangUp) s)
  | task :: _ => ∃ s', worker_step w s = Some s' ∧ taken s' = taken s ++ [task] ∧ inv s'
  end.
Proof.
  intros [_ Hr Hws] Hn Hw pending Hacc Hq. pose proof (proj1 (Forall_lookup _ _) Hws w _ Hw) as [Hst Hlk].
  pose proof (BoundedQueue.represents_dequeue task_queue_size_ _ _ _ Hq Hn) as Hd. unfold worker_step. rewrite Hw. cbn [mbind option_bind].
  destruct pending as [|task pending]; [by rewrite Hd|]. destruct Hd as (q & -> & Hq'). cbn [mbind option_bind].
  eexists. split; [done|]. split; [done|]. split; cbn.
  - exists pending. split; [by rewrite <- app_assoc|done].
  - unfold running. cbn. pose proof (running_insert (tasks_ s) w _ (Worker c (WTask task)) Hw) as Hp. cbn in Hp. rewrite app_nil_r in Hp.
    rewrite Hp, Hr. by rewrite app_assoc.
  - apply Forall_insert; [done|]. by split.
Qed.

Lemma worker_inv s w s' : inv s → in_range s → worker_step w s = Some s' → inv s'.
Proof.
  intros Hinv Hn Hs. pose proof Hs as Hs0. unfold worker_step in Hs.
  destruct (tasks_ s !! w) as [[c p]|] eqn:Hw; [|done]. cbn [mbind option_bind] in Hs.
  pose proof (proj1 (Forall_lookup _ _) (tm_workers s Hinv) w _ Hw) as Hok. destruct c as [wk st lk up f pr pi i n g].
  unfold worker_ok in Hok. cbn in Hok. destruct p as [| |b| | | | |task|]; cbn in Hs; destruct Hok as [Hst ->].
  - injection Hs as <-. eapply set_worker_inv; [done|exact Hw|done|by split].
  - injection Hs as <-. eapply set_worker_inv; [done|exact Hw|done|by split].
  - destruct b, Hst as [-> | ->]; vm_compute in Hs; injection Hs as <-; (eapply set_worker_inv; [done|exact Hw|done|]); split; cbn; auto.
  - injection Hs as <-. destruct (stop_ s); (eapply set_worker_inv; [done|exact Hw|done|]); by split.
  - destruct (tm_queue s Hinv) as (pending & Hacc & Hq). pose proof (dequeue_inv s w _ Hinv Hn Hw pending Hacc Hq) as Hd.
    destruct pending as [|task pending].
    + rewrite Hd in Hs0. injection Hs0 as <-. eapply set_worker_inv; [done|exact Hw|done|]. by split.
    + destruct Hd as (s1 & Hs1 & _ & Hinv1). congruence.
  - injection Hs as <-. eapply set_worker_inv; [done|exact Hw|done|]. by split.
  - injection Hs as <-. eapply set_worker_inv; [done|exact Hw|done|]. split; cbn; auto.
  - injection Hs as <-. destruct Hinv as [Hq Hr Hws]. split; [done| |].
    + unfold running. cbn. pose proof (running_insert (tasks_ s) w _ (Worker (CRoutine.mk wk st true up f pr pi i n g) WLoop) Hw) as Hp. cbn in Hp.
      rewrite app_nil_r in Hp. rewrite Hr. unfold running. rewrite <- Hp, <- app_assoc. f_equiv. apply Permutation_app_comm.
    + apply Forall_insert; [done|]. by split.
  - done.
Qed.

Lemma caller_inv s c s' : inv s → in_range s → caller_step c s = Some s' → inv s'.
Proof.
  intros Hinv Hn Hs. unfold caller_step in Hs. destruct (callers s !! c) as [x|] eqn:Hc; [|done]. cbn [mbind option_bind] in Hs.
  destruct x as [|task|i|i]; [done| | |].
  - destruct Hinv as [(pending & Hacc & Hq) Hr Hws].
    pose proof (BoundedQueue.represents_enqueue task_queue_size_ ltac:(done) _ _ _ task Hq Hn) as He.
    case_decide.
    + destruct He as (q & He & Hq'). rewrite He in Hs. cbn in Hs. injection Hs as <-. split; [|done|done]. cbn.
      exists (pending ++ [task]). rewrite length_app, Nat.add_comm. split; [by rewrite Hacc, app_assoc|done].
    + rewrite He in Hs. cbn in Hs. injection Hs as <-. split; [|done|done]. cbn. by exists pending.
  - destruct (tasks_ s !! i); injection Hs as <-; destruct Hinv; by split.
  - destruct (tasks_ s !! i) as [[cr p]|] eqn:Hi; [|done]. cbn in Hs. injection Hs as <-.
    pose proof (proj1 (Forall_lookup _ _) (tm_workers s Hinv) i _ Hi) as Hok.
    destruct (set_worker_inv s i _ (Worker (SetUpdateFlag cr) p) Hinv Hi eq_refl Hok) as [H1 H2 H3]. by split.
Qed.

Lemma task_step_inv l s s' : inv s → in_range s → step l s = Some s' → inv s'.
Proof.
  destruct l as [c task|c|w|]; cbn; [|by apply caller_inv|by apply worker_inv|intros [] _ [= <-]; by split].
  intros Hinv _ Hs. unfold submit in Hs. split_step Hs; destruct Hinv; by split.
Qed.

Lemma task_reachable_inv n m s0 s :
  TaskManager true n m = Some s0 → reachable step s0 s → in_range s → inv s.
Proof.
  intros H0. apply (reachable_inv_while step in_range inv); [by eapply initial_task_inv|apply task_step_grows|].
  intros l s1 s2 Hi Hn _. by apply task_step_inv.
Qed.

(** C31: every task once, in order.  Whatever the callers, the workers and
    [Shutdown] do, the tasks are taken in the order in which they were stored;
    what is not taken is in the queue, at most a thousand; and of those taken
    each has returned or is in one worker. *)
Theorem tasks_in_order n m s0 s :
  TaskManager true n m = Some s0 → reachable step s0 s → in_range s →
  ∃ pending, accepted s = taken s ++ pending ∧ Z.of_nat (length pending) <= task_queue_size_ ∧
    BoundedQueue.Size (task_queue_ s) = Z.of_nat (length pending) ∧ taken s ≡ₚ ran s ++ running s.
Proof.
  intros H0 Hr Hn. destruct (task_reachable_inv n m s0 s H0 Hr Hn) as [(pending & Hacc & Hq) Hp _].
  exists pending. destruct (BoundedQueue.represents_size task_queue_size_ _ _ _ Hq Hn). by split_and!.
Qed.

(** ** Who takes the next task *)
Definition next_is (task : nat) (s : t) : Prop :=
  inv s ∧ in_range s ∧ stop_ s = false ∧ ∃ pending, accepted s = taken s ++ task :: pending.
Definition serves (k w task : nat) (s : t) : Prop :=
  ∃ j s', (j <= k)%nat ∧ run step (replicate j (LWork w)) s = Some s' ∧ taken s' = taken s ++ [task].

Lemma serves_step k w task s s1 :
  worker_step w s = Some s1 → taken s1 = taken s → serves k w task s1 → serves (S k) w task s.
Proof. intros Hs Ht (j & s' & Hj & Hr & Ht'). exists (S j), s'. split; [lia|]. cbn. rewrite Hs. cbn. by rewrite Ht', Ht. Qed.

Lemma serves_mono k k' w task s : (k <= k')%nat → serves k w task s → serves k' w task s.
Proof. intros Hk (j & s' & Hj & H). exists j, s'. split; [lia|done]. Qed.

(** A step that only moves the worker from [x] to [y]. *)
Lemma serves_via k w task x y s :
  next_is task s → tasks_ s !! w = Some x → worker_step w s = Some (set_worker w y s) →
  in_task x = in_task y → worker_ok y → (∀ s, next_is task s → tasks_ s !! w = Some y → serves k w task s) → serves (S k) w task s.
Proof.
  intros (Hi & Hn & Hst & Hp) Hx Hs Heq Hok Hnext. apply (serves_step k w task s (set_worker w y s)); [done..|]. apply Hnext.
  - split; [by eapply set_worker_inv|done].
  - cbn. apply list_lookup_insert_eq. by eapply lookup_lt_Some.
Qed.

Lemma serves_dequeue w task c s : next_is task s → tasks_ s !! w = Some (Worker c WDequeue) → serves 1 w task s.
Proof.
  intros (Hi & Hn & _ & pending & Hp) Hw. pose proof Hi as [(pending' & Hp' & Hq) _ _].
  assert (pending' = task :: pending) as -> by (rewrite Hp in Hp'; by apply app_inv_head in Hp').
  destruct (dequeue_inv s w c Hi Hn Hw _ Hp' Hq) as (s' & Hs & Ht & _). exists 1%nat, s'. split; [lia|]. cbn. by rewrite Hs.
Qed.

Lemma serves_loop w task c s :
  state_ c = READY → lock_ c = true → next_is task s → tasks_ s !! w = Some (Worker c WLoop) → serves 2 w task s.
Proof.
  intros Hc Hl Hn Hw. apply (serves_via 1 w task _ (Worker c WDequeue) s Hn Hw); [|done|done|intros; by eapply serves_dequeue].
  unfold worker_step. rewrite Hw. cbn. destruct Hn as (_ & _ & -> & _). done.
Qed.

Lemma serves_state w task c (b : bool) s :
  state_ c = READY ∨ (b = true ∧ state_ c = DATA_WAIT) → lock_ c = true →
  next_is task s → tasks_ s !! w = Some (Worker c (WState b)) → serves 3 w task s.
Proof.
  intros Hc Hl Hn Hw. destruct c as [wk st lk up f pr pi i n g]. cbn in Hc, Hl. subst lk.
  apply (serves_via 2 w task _ (Worker (CRoutine.mk wk READY true up f pr pi i n g) WLoop) s Hn Hw); [|done|done|intros s' ? Hw'; by refine (serves_loop w task _ s' _ _ _ Hw')].
  unfold worker_step. rewrite Hw. cbn [mbind option_bind]. destruct Hc as [-> | [-> ->]]; [destruct b; reflexivity|reflexivity].
Qed.

Lemma serves_parked w task c s :
  state_ c = READY ∨ (updated_ c = false ∧ state_ c = DATA_WAIT) → lock_ c = false →
  next_is task s → tasks_ s !! w = Some (Worker c WParked) → serves 5 w task s.
Proof.
  intros Hc Hl Hn Hw. destruct c as [wk st lk up f pr pi i n g]. cbn in Hc, Hl. subst lk.
  eapply (serves_via 4 w task _ (Worker (CRoutine.mk wk st true up f pr pi i n g) WTest) s Hn Hw);
    [unfold worker_step; by rewrite Hw|done|split; cbn; naive_solver|].
  clear s Hn Hw. intros s Hn Hw. apply (serves_via 3 w task _ (Worker (CRoutine.mk wk st true true f pr pi i n g) (WState (negb up))) s Hn Hw);
    [unfold worker_step; by rewrite Hw|done|split; cbn; naive_solver|].
  intros s' Hn' Hw'. refine (serves_state w task _ _ s' _ _ Hn' Hw'); [|done]. cbn. destruct Hc as [?|[-> ?]]; [by left|by right].
Qed.

(** Tasks are served.  A task at the head of the queue is taken within seven
    steps of any one worker that is not deaf, running alone: one that has work,
    looks at the queue, has yet to run for the first time, or waits with a
    notification. *)
Theorem tasks_served n m s0 s w x task pending :
  TaskManager true n m = Some s0 → reachable step s0 s → in_range s → stop_ s = false →
  accepted s = taken s ++ task :: pending → tasks_ s !! w = Some x → deaf x = false →
  ∃ k s', (k <= 7)%nat ∧ run step (replicate k (LWork w)) s = Some s' ∧ taken s' = taken s ++ [task].
Proof.
  intros H0 Hr Hn Hst Hp Hw Hd. pose proof (task_reachable_inv n m s0 s H0 Hr Hn) as Hinv.
  assert (next_is task s) as Hnext by (split; [done|]; split; [done|]; split; [done|by exists pending]).
  pose proof (proj1 (Forall_lookup _ _) (tm_workers s Hinv) w _ Hw) as Hok. change (serves 7 w task s).
  clear - Hnext Hw Hd Hok. destruct x as [[wk st lk up f pr pi i nm g] p]. unfold worker_ok in Hok. cbn in Hok, Hd.
  assert (∀ k, (k < 7)%nat → worker_step w s = Some (set_worker w (Worker (CRoutine.mk wk DATA_WAIT false false f pr pi i nm g) WParked) s) →
    in_task (Worker (CRoutine.mk wk st lk up f pr pi i nm g) p) = None → serves 7 w task s) as Hpark.
  { intros k Hk Hs Ht. apply (serves_mono 6); [lia|].
    eapply (serves_via 5 w task _ _ s Hnext Hw Hs); [exact Ht|by split; [right|]|].
    intros s' Hn' Hw'. refine (serves_parked w task _ s' _ _ Hn' Hw'); [by right|done]. }
  destruct p as [| |b| | | | |tk|]; destruct Hok as [Hst' ->]; try done.
  - apply (serves_mono 5); [lia|]. refine (serves_parked w task _ s _ _ Hnext Hw); [|done]. cbn.
    destruct Hst' as [-> | ->]; [by left|right]. destruct up; [|done]. by vm_compute in Hd.
  - apply (serves_mono 4); [lia|]. eapply (serves_via 3 w task _ _ s Hnext Hw); [unfold worker_step; by rewrite Hw|done|split; cbn; naive_solver|].
    intros s' Hn' Hw'. refine (serves_state w task _ _ s' _ _ Hn' Hw'); [|done]. cbn. destruct Hst' as [-> | ->]; [by left|right].
    destruct up; [by vm_compute in Hd|done].
  - destruct (decide (st = READY ∨ b = true)) as [Hsb|Hsb].
    + apply (serves_mono 3); [lia|]. refine (serves_state w task _ _ s _ _ Hnext Hw); [|done]. cbn. naive_solver.
    + destruct b; [naive_solver|]. destruct Hst' as [-> | ->]; [naive_solver|]. destruct up; [by vm_compute in Hd|].
      apply (Hpark 1%nat); [lia| |done]. unfold worker_step. by rewrite Hw.
  - apply (serves_mono 2); [lia|]. by refine (serves_loop w task _ s _ _ Hnext Hw).
  - apply (serves_mono 1); [lia|]. by refine (serves_dequeue w task _ s Hnext Hw).
  - cbn in Hst', Hd. subst st up. eapply (serves_via 6 w task _ (Worker (CRoutine.mk wk DATA_WAIT true false f pr pi i nm g) WRelease) s Hnext Hw);
      [unfold worker_step; by rewrite Hw|done|by split|]. intros s' Hn' Hw'.
    eapply (serves_via 5 w task _ _ s' Hn' Hw'); [unfold worker_step; by rewrite Hw'|done|by split; [right|]|].
    intros s2 Hn2 Hw2. refine (serves_parked w task _ s2 _ _ Hn2 Hw2); [by right|done].
  - cbn in Hst'. subst st. destruct up; [by vm_compute in Hd|]. apply (Hpark 1%nat); [lia| |done]. unfold worker_step. by rewrite Hw.
  - cbn in Hst'. apply (serves_mono 3); [lia|]. eapply (serves_step 2 w task s); [unfold worker_step; by rewrite Hw|done|].
    refine (serves_loop w task (CRoutine.mk wk st true up f pr pi i nm g) _ Hst' eq_refl _ _); [|cbn; apply list_lookup_insert_eq; by eapply lookup_lt_Some].
    destruct Hnext as (Hi & Hn & Hs & Hp). split; [|by split]. eapply (worker_inv s w); [done..|]. unfold worker_step. by rewrite Hw.
Qed.

(** All callers are done and all workers deaf. *)
Definition unheard (s : t) : Prop :=
  Forall (λ x, x = CIdle) (callers s) ∧ Forall (λ x, deaf x = true) (tasks_ s).

Lemma unheard_step l s s' :
  unheard s → (∀ c task, l ≠ LSubmit c task) → step l s = Some s' → unheard s' ∧ taken s' = taken s ∧ accepted s' = accepted s.
Proof.
  intros [Hc Hw] Hl Hs. destruct l as [c task|c|w|]; cbn in Hs; [by destruct (Hl c task)| | |by injection Hs as <-].
  - unfold caller_step in Hs. destruct (callers s !! c) as [x|] eqn:Hx; [|done].
    by rewrite (proj1 (Forall_lookup _ _) Hc c x Hx) in Hs.
  - unfold worker_step in Hs. destruct (tasks_ s !! w) as [[[wk st lk up f pr pi i n g] p]|] eqn:Hx; [|done]. cbn [mbind option_bind] in Hs.
    pose proof (proj1 (Forall_lookup _ _) Hw w _ Hx) as Hd.
    assert (∀ y, deaf y = true → unheard (set_worker w y s)) as Hset by (intros y Hy; split; [done|by apply Forall_insert]).
    destruct p as [| |[]| | | | |task|]; cbn in Hd; try done; try (apply andb_prop in Hd as [-> Hst%bool_decide_eq_true]); cbn in Hs; subst;
      try (destruct lk; [done|]); try (vm_compute in Hs); injection Hs as <-; (split; [apply Hset; by vm_compute|done]).
Qed.

(** Five steps of the only worker take it past the empty queue; then a caller
    stores its task and notifies. *)
Definition missed (task : nat) : list label := replicate 5 (LWork 0) ++ LSubmit 0 task :: replicate 3 (LCall 0).

(** A task may be left lying.  A worker that has found the queue empty sets
    its state only in [HangUp]: a task stored before that notifies nobody.  When
    all workers are deaf no task is taken any more, not even after [Shutdown],
    until another [Enqueue] comes; one worker and one caller are enough. *)
Theorem tasks_lost task :
  (∃ s0 s, TaskManager true 1 1 = Some s0 ∧ run step (missed task) s0 = Some s ∧ unheard s ∧ accepted s = [task] ∧ taken s = []) ∧
  (∀ s ls s', unheard s → run step ls s = Some s' → Forall (λ l, ∀ c task, l ≠ LSubmit c task) ls →
     taken s' = taken s ∧ accepted s' = accepted s ∧ unheard s').
Proof.
  split.
  - do 2 eexists. split; [done|]. split; [vm_compute; reflexivity|]. split; [|done]. split; by repeat constructor.
  - intros s ls s' Hu Hrun Hls. revert s Hu Hrun. induction Hls as [|l ls Hl _ IH]; intros s Hu; cbn; [by intros [= <-]|].
    destruct (step l s) as [s1|] eqn:Hs; [|done]. cbn. intros Hrun. destruct (unheard_step l s s1 Hu Hl Hs) as (Hu1 & <- & <-).
    by apply IH.
Qed.
End TaskManager.

(** ** A concrete run *)
Module TasksSample.
Import TaskManager.

(** One worker, two callers; the first task is being run, the second waits. *)
Definition script : list label :=
  [LSubmit 0 7; LCall 0; LWork 0; LSubmit 1 8; LCall 1; LCall 0] ++ replicate 4 (LWork 0) ++ replicate 2 (LCall 1).

Lemma sample_run :
  ∃ s0 s x, TaskManager true 1 2 = Some s0 ∧ run step script s0 = Some s ∧ accepted s = [7; 8]%nat ∧ taken s = [7]%nat ∧
    stop_ s = false ∧ tasks_ s !! 0%nat = Some x ∧ deaf x = false.
Proof. do 3 eexists. split; [done|]. split; [vm_compute; reflexivity|]. by repeat split. Qed.

Lemma tasks_in_order_witness :
  ∃ s0 s, TaskManager true 1 2 = Some s0 ∧ run step script s0 = Some s ∧ accepted s = [7; 8]%nat ∧ taken s = [7]%nat ∧
    ∃ pending, accepted s = taken s ++ pending ∧ taken s ≡ₚ ran s ++ running s.
Proof.
  destruct sample_run as (s0 & s & x & H0 & Hs & Ha & Ht & _). exists s0, s. do 4 (split; [done|]).
  destruct (tasks_in_order 1 2 s0 s H0 (run_reachable _ _ _ _ Hs)) as (pending & Hp & _ & _ & Hr); [unfold in_range; by rewrite Ha|].
  by exists pending.
Defined.

Lemma tasks_served_witness :
  ∃ s0 s, TaskManager true 1 2 = Some s0 ∧ run step script s0 = Some s ∧
    ∃ k s', (k <= 7)%nat ∧ run step (replicate k (LWork 0)) s = Some s' ∧ taken s' = taken s ++ [8]%nat.
Proof.
  destruct sample_run as (s0 & s & x & H0 & Hs & Ha & Ht & Hst & Hx & Hd). exists s0, s. do 2 (split; [done|]).
  apply (tasks_served 1 2 s0 s 0 x 8 [] H0 (run_reachable _ _ _ _ Hs)); [unfold in_range; by rewrite Ha|done|by rewrite Ha, Ht|done|done].
Defined.

Lemma tasks_lost_witness : ∃ s0 s, TaskManager true 1 1 = Some s0 ∧ run step (missed 5) s0 = Some s ∧ unheard s ∧ accepted s = [5]%nat.
Proof. destruct (tasks_lost 5) as [(s0 & s & H1 & H2 & H3 & H4 & _) _]. exists s0, s. by split_and!. Defined.
End TasksSample.
