(* ===== verification/SchedulerConf.v ===== *)
(** * The configuration of a scheduler ([cyber/scheduler/])

    From the configuration file to processors: the lists of CPUs
    ([Scheduler::ParseCpuset]), the attributes of threads
    ([Scheduler::SetInnerThreadAttr], [Processor::SetSchedAffinity],
    [Processor::SetSchedPolicy]), the constructors of both policies with
    [CreateProcessor], and the choice between them ([scheduler_factory.cc]).

    The messages of [scheduler_conf.proto] are records; reading the file is an
    argument, and the calls to the operating system are what a function
    returns. *)

From S2P Require Import Prelude Routine Contexts Scheduler.

Local Open Scope Z_scope.
Local Open Scope cyber_scope.

(** ** Results *)
Module Outcome.

(** An exception, [exit(1)], undefined behaviour, or a loop that does not end. *)
Inductive outcome (A : Type) := Done (a : A) | Throws | Exits | Undefined | Spins.
#[global] Arguments Done {_}.
#[global] Arguments Throws {_}.
#[global] Arguments Exits {_}.
#[global] Arguments Undefined {_}.
#[global] Arguments Spins {_}.

#[global] Instance outcome_bind : MBind outcome := λ A B f x,
  match x with Done a => f a | Throws => Throws | Exits => Exits | Undefined => Undefined | Spins => Spins end.

Fixpoint traverse {A B} (f : A → outcome B) (l : list A) : outcome (list B) :=
  match l with
  | [] => Done []
  | x :: l => y ← f x; ys ← traverse f l; Done (y :: ys)
  end.

Lemma traverse_Done {A B} (f : A → outcome B) (g : A → B) l :
  (∀ x, x ∈ l → f x = Done (g x)) → traverse f l = Done (g <$> l).
Proof.
  induction l as [|x l IH]; intros Hf; [done|]. cbn. rewrite (Hf x) by (by left). cbn.
  by rewrite IH by (intros y Hy; apply Hf; by right).
Qed.

Lemma traverse_Forall2 {A B} (f : A → outcome B) l ys :
  traverse f l = Done ys → Forall2 (λ x y, f x = Done y) l ys.
Proof.
  revert ys. induction l as [|x l IH]; intros ys; cbn; [intros [= <-]; constructor|].
  destruct (f x) as [y| | | |] eqn:Hx; cbn; try done. destruct (traverse f l) as [zs| | | |]; cbn; try done.
  intros [= <-]. constructor; [done|]. by apply IH.
Qed.
End Outcome.

(** ** Lists of CPUs *)
Module Cpuset.
Import Outcome.

Definition comma : Z := 44.
Definition dash : Z := 45.

(** [getline(ss, l, delim)] until the end: a delimiter ends a field, and after
    the last one there is none. *)
Fixpoint fields (delim : Z) (cur : list Z) (started : bool) (s : list Z) : list (list Z) :=
  match s with
  | [] => if started then [cur] else []
  | c :: s => if c =? delim then cur :: fields delim [] false s else fields delim (cur ++ [c]) true s
  end.
Definition getlines (delim : Z) (s : list Z) : list (list Z) := fields delim [] false s.

(** [std::stoi]: white space, a sign, and digits up to something else. *)
Definition is_space (c : Z) : bool := (c =? 32) || ((9 <=? c) && (c <=? 13)).
Definition is_digit (c : Z) : bool := (48 <=? c) && (c <=? 57).
Fixpoint skip_space (s : list Z) : list Z :=
  match s with c :: s' => if is_space c then skip_space s' else s | [] => [] end.
Fixpoint digits_value (acc : Z) (s : list Z) : Z :=
  match s with c :: s => if is_digit c then digits_value (acc * 10 + (c - 48)) s else acc | [] => acc end.
Definition stoi (s : list Z) : outcome Z :=
  let '(sign, s) := match skip_space s with
                    | c :: s => if c =? 45 then (-1, s) else if c =? 43 then (1, s) else (1, c :: s)
                    | [] => (1, [])
                    end in
  match s with
  | c :: _ =>
      if is_digit c then
        let v := sign * digits_value 0 s in
        if (- 2 ^ 31 <=? v) && (v <? 2 ^ 31) then Done v else Throws
      else Throws
  | [] => Throws
  end.

(** The loop over a range increments [i] past its end: an [int] overflows at the
    largest one. *)
Definition range (i e : Z) : outcome (list Z) :=
  if (i <=? e) && (e =? 2 ^ 31 - 1) then Undefined else Done (seqZ i (e - i + 1)).

Definition parse_line (line : list Z) : outcome (list Z) :=
  match getlines dash line with
  | [a] => a ← stoi a; Done [a]
  | [a; b] => i ← stoi a; e ← stoi b; range i e
  | _ => Exits
  end.

(** What is appended to [cpuset]. *)
Definition ParseCpuset (str : list Z) : outcome (list Z) :=
  ls ← traverse parse_line (getlines comma str); Done (concat ls).

(** ** Printing *)
Inductive cpu_range := One (a : Z) | From (a b : Z).

Fixpoint digits (fuel : nat) (n : Z) : list Z :=
  match fuel with
  | O => []
  | S fuel => if n <? 10 then [48 + n] else digits fuel (n / 10) ++ [48 + n mod 10]
  end.
Definition decimal (n : Z) : list Z := digits (S (Z.to_nat n)) n.
Definition print_range (r : cpu_range) : list Z :=
  match r with One a => decimal a | From a b => decimal a ++ dash :: decimal b end.
Fixpoint join (delim : Z) (l : list (list Z)) : list Z :=
  match l with [] => [] | [x] => x | x :: l => x ++ delim :: join delim l end.
Definition print (l : list cpu_range) : list Z := join comma (print_range <$> l).

Definition cpus_of (r : cpu_range) : list Z := match r with One a => [a] | From a b => seqZ a (b - a + 1) end.
Definition range_ok (r : cpu_range) : Prop :=
  match r with One a => 0 <= a < 2 ^ 31 | From a b => 0 <= a < 2 ^ 31 ∧ 0 <= b < 2 ^ 31 - 1 end.

(** *** [getline] takes apart what was joined *)
Lemma fields_part delim cur started p s : delim ∉ p → fields delim cur started (p ++ delim :: s) = (cur ++ p) :: getlines delim s.
Proof.
  revert cur started. induction p as [|c p IH]; intros cur started Hp; cbn.
  - by rewrite Z.eqb_refl, app_nil_r.
  - apply not_elem_of_cons in Hp as [Hc Hp]. destruct (Z.eqb_spec c delim); [congruence|]. rewrite IH by done. by rewrite <- app_assoc.
Qed.

Lemma fields_last delim cur p : delim ∉ p → fields delim cur true p = [cur ++ p].
Proof.
  revert cur. induction p as [|c p IH]; intros cur Hp; cbn; [by rewrite app_nil_r|].
  apply not_elem_of_cons in Hp as [Hc Hp]. destruct (Z.eqb_spec c delim); [congruence|]. rewrite IH by done. by rewrite <- app_assoc.
Qed.

Lemma getlines_last delim p : delim ∉ p → p ≠ [] → getlines delim p = [p].
Proof.
  intros Hp Hne. destruct p as [|c p]; [done|]. apply not_elem_of_cons in Hp as [Hc Hp]. unfold getlines. cbn.
  destruct (Z.eqb_spec c delim); [congruence|]. by rewrite fields_last.
Qed.

Lemma getlines_join delim l : Forall (λ p, (delim ∉ p) ∧ p ≠ []) l → getlines delim (join delim l) = l.
Proof.
  induction 1 as [|p l [Hp Hne] Hl IH]; [done|]. destruct l as [|q l]; [by apply getlines_last|].
  change (join delim (p :: q :: l)) with (p ++ delim :: join delim (q :: l)). unfold getlines at 1.
  by rewrite fields_part, IH.
Qed.

(** *** [stoi] reads what was printed *)
Lemma digits_digits fuel n : 0 <= n → Forall (λ c, is_digit c = true) (digits fuel n).
Proof.
  revert n. induction fuel as [|fuel IH]; intros n Hn; cbn; [done|]. destruct (Z.ltb_spec n 10).
  - repeat constructor. unfold is_digit. lia.
  - apply Forall_app. split; [apply IH; apply Z.div_pos; lia|]. repeat constructor. unfold is_digit.
    pose proof (Z.mod_pos_bound n 10). lia.
Qed.

Lemma digits_value_fold acc l :
  Forall (λ c, is_digit c = true) l → digits_value acc l = foldl (λ v c, v * 10 + (c - 48)) acc l.
Proof. intros Hl. revert acc. induction Hl as [|c l Hc _ IH]; intros acc; cbn; [done|]. by rewrite Hc, IH. Qed.

Lemma digits_fold fuel n : 0 <= n → (Z.to_nat n < fuel)%nat → foldl (λ v c, v * 10 + (c - 48)) 0 (digits fuel n) = n.
Proof.
  revert n. induction fuel as [|fuel IH]; intros n Hn Hf; [lia|]. cbn [digits]. destruct (Z.ltb_spec n 10); [cbn; lia|].
  assert (n / 10 < n) by (apply Z.div_lt; lia). assert (0 <= n / 10) by (apply Z.div_pos; lia).
  rewrite foldl_app, IH by lia. cbn. pose proof (Z.div_mod n 10). lia.
Qed.

Lemma digits_nonempty fuel n : digits (S fuel) n ≠ [].
Proof. cbn. destruct (n <? 10); [done|]. by destruct (digits fuel (n / 10)). Qed.

Lemma stoi_decimal n : 0 <= n < 2 ^ 31 → stoi (decimal n) = Done n.
Proof.
  intros Hn. unfold decimal. pose proof (digits_digits (S (Z.to_nat n)) n ltac:(lia)) as Hd.
  pose proof (digits_fold (S (Z.to_nat n)) n ltac:(lia) ltac:(lia)) as Hv. pose proof (digits_nonempty (Z.to_nat n) n) as Hne.
  destruct (digits (S (Z.to_nat n)) n) as [|c l]; [done|]. pose proof (Forall_inv Hd) as Hc. cbn in Hc.
  unfold stoi. assert (skip_space (c :: l) = c :: l) as ->.
  { cbn. assert (is_space c = false) as ->; [|done]. unfold is_digit, is_space in *. lia. }
  assert ((c =? 45) = false ∧ (c =? 43) = false) as [-> ->] by (unfold is_digit in Hc; lia).
  rewrite Hc, (digits_value_fold 0) by done. rewrite Hv, Z.mul_1_l.
  by rewrite (proj2 (Z.leb_le _ _)), (proj2 (Z.ltb_lt _ _)) by lia.
Qed.

Lemma decimal_chars n c : 0 <= n → c ∈ decimal n → is_digit c = true.
Proof. intros Hn Hc. pose proof (digits_digits (S (Z.to_nat n)) n Hn) as Hd. rewrite Forall_forall in Hd. by apply Hd. Qed.

Lemma decimal_plain n d : 0 <= n → is_digit d = false → (d ∉ decimal n) ∧ decimal n ≠ [].
Proof.
  intros Hn Hd. split; [|apply digits_nonempty]. intros Hin. apply decimal_chars in Hin; [congruence|done].
Qed.

Lemma parse_line_print r : range_ok r → parse_line (print_range r) = Done (cpus_of r).
Proof.
  unfold parse_line. destruct r as [a|a b]; cbn [print_range cpus_of range_ok]; intros Hr.
  - destruct (decimal_plain a dash) as [Hd Hne]; [lia|done|]. rewrite getlines_last by done. by rewrite stoi_decimal.
  - destruct Hr as [Ha Hb]. destruct (decimal_plain a dash) as [Hda Hnea]; [lia|done|]. destruct (decimal_plain b dash) as [Hdb Hneb]; [lia|done|].
    unfold getlines at 1. rewrite fields_part by done. rewrite getlines_last by done. cbn [app].
    rewrite !stoi_decimal by lia. cbn. unfold range. by rewrite (proj2 (Z.eqb_neq b _)), andb_false_r by lia.
Qed.

(** A list of CPUs is read as it was written: single numbers and ranges, in
    order, a range from its first to its last number and empty if they are the
    other way around. *)
Theorem cpuset_roundtrip l : Forall range_ok l → ParseCpuset (print l) = Done (concat (cpus_of <$> l)).
Proof.
  intros Hl. unfold ParseCpuset, print. rewrite getlines_join.
  - assert (traverse parse_line (print_range <$> l) = Done (cpus_of <$> l)) as ->; [|done].
    induction Hl as [|r l Hr _ IH]; [done|]. cbn. rewrite parse_line_print by done. cbn. by rewrite IH.
  - apply Forall_fmap. eapply Forall_impl; [exact Hl|]. intros [a|a b]; cbn.
    + intros Ha. destruct (decimal_plain a comma) as [Hda Hnea]; [lia|done|]. by split.
    + intros [Ha Hb]. destruct (decimal_plain a comma) as [Hda Hnea]; [lia|done|]. destruct (decimal_plain b comma) as [Hdb Hneb]; [lia|done|].
      split; [|by intros [? _]%app_eq_nil]. rewrite not_elem_of_app, not_elem_of_cons. by split_and!.
Qed.

Lemma cpuset_roundtrip_witness : ParseCpuset (print [From 0 2; One 17; From 5 4]) = Done [0; 1; 2; 17].
Proof. apply (cpuset_roundtrip [From 0 2; One 17; From 5 4]). repeat constructor; cbn; lia. Defined.

(** Nothing between two commas, or two dashes in one element, ends the program;
    what does not begin with a number, or is too large, throws; a dash at the end
    and whatever follows a number are ignored. *)
Lemma cpuset_malformed :
  ParseCpuset (string_bytes "1,,2") = Exits ∧ ParseCpuset (string_bytes "1-2-3") = Exits ∧
  ParseCpuset (string_bytes "-1") = Throws ∧ ParseCpuset (string_bytes "a") = Throws ∧
  ParseCpuset (string_bytes "99999999999") = Throws ∧ ParseCpuset (string_bytes "0-2147483647") = Undefined ∧
  ParseCpuset (string_bytes "1-") = Done [1] ∧ ParseCpuset (string_bytes "1x,2") = Done [1; 2] ∧ ParseCpuset [] = Done [].
Proof. by vm_compute. Qed.
End Cpuset.

(** ** Attributes of threads *)
Module Threads.
Import Outcome.

(** The thread that constructs the scheduler, a thread with a configuration of
    its own, and the thread of a processor. *)
Inductive thread := Caller | Inner (name : string) | Worker (i : nat).
Inductive policy := FIFO | RR.

(** [pthread_setaffinity_np], [pthread_setschedparam] and [setpriority], whose
    results nobody looks at. *)
Inductive call :=
| SetAffinity (t : thread) (cpus : gset Z)
| SetSchedParam (t : thread) (p : policy) (prio : Z)
| SetPriority (t : thread) (prio : Z).

(** [CPU_SET] ignores what does not fit the set. *)
Definition CPU_SETSIZE : Z := 1024.
Definition cpu_set (cpus : list Z) : gset Z := list_to_set (filter (λ c, 0 <= c < CPU_SETSIZE) cpus).

(** [InnerThread] of [scheduler_conf.proto], its defaults filled in. *)
Record inner_thread := mkinner { cpuset : list Z; policy_name : string; prio : Z }.

(** [ProcessLevelResourceControl]. *)
Definition ProcessLevelResourceControl (str : list Z) : outcome (list call) :=
  cpus ← Cpuset.ParseCpuset str; Done [SetAffinity Caller (cpu_set cpus)].

(** [thr]: whether the caller passed a thread. *)
Definition SetInnerThreadAttr (confs : gmap string inner_thread) (name : string) (thr : bool) : outcome (list call) :=
  match (if thr then confs !! name else None) with
  | None => Done []
  | Some th =>
      cpus ← Cpuset.ParseCpuset (cpuset th);
      let affinity := SetAffinity (Inner name) (cpu_set cpus) in
      if bool_decide (policy_name th = "SCHED_FIFO") then Done [affinity; SetSchedParam (Inner name) FIFO (i32 (prio th))]
      else if bool_decide (policy_name th = "SCHED_RR") then Done [affinity; SetSchedParam (Inner name) RR (i32 (prio th))]
      else Done [affinity]
  end%string.

(** ** [Processor], before its thread runs *)
Record processor := mkproc { context_ : option pctx; thread_ : option thread }.
Definition Processor : processor := mkproc None None.

(** Only the first call binds: [call_once]. *)
Definition BindContext (ctx : pctx) (t : thread) (p : processor) : processor :=
  match thread_ p with Some _ => p | None => mkproc (Some ctx) (Some t) end.

(** The native handle of a thread that was not started is not a thread. *)
Definition with_thread (p : processor) (f : thread → call) : outcome (list call) :=
  match thread_ p with Some t => Done [f t] | None => Undefined end.

Definition SetSchedAffinity (cpus : list Z) (affinity : string) (i : nat) (p : processor) : outcome (list call) :=
  match cpus with
  | [] => Done []
  | _ =>
      if bool_decide (affinity = "range") then with_thread p (λ t, SetAffinity t (cpu_set cpus))
      else if bool_decide (affinity = "1to1") then
        match cpus !! i with
        | Some c => with_thread p (λ t, SetAffinity t (cpu_set [c]))
        | None => Undefined
        end
      else Done []
  end%string.

(** The normal policy waits for the thread to say its id, which is the first
    thing a started one does. *)
Definition SetSchedPolicy (spolicy : string) (prio : Z) (p : processor) : outcome (list call) :=
  (if bool_decide (spolicy = "SCHED_FIFO") then with_thread p (λ t, SetSchedParam t FIFO prio)
   else if bool_decide (spolicy = "SCHED_RR") then with_thread p (λ t, SetSchedParam t RR prio)
   else if bool_decide (spolicy = "SCHED_OTHER") then
     match thread_ p with Some t => Done [SetPriority t prio] | None => Spins end
   else Done [])%string.

(** *** What they do on a bound processor *)
Definition affinity_ok (cpus : list Z) (affinity : string) (n : nat) : Prop :=
  affinity = "1to1"%string → cpus = [] ∨ (n <= length cpus)%nat.

#[export] Instance affinity_ok_dec cpus affinity n : Decision (affinity_ok cpus affinity n).
Proof. apply _. Defined.

Definition affinity_calls (cpus : list Z) (affinity : string) (i : nat) (t : thread) : list call :=
  (if bool_decide (cpus = []) then []
   else if bool_decide (affinity = "range") then [SetAffinity t (cpu_set cpus)]
   else if bool_decide (affinity = "1to1") then [SetAffinity t (cpu_set [nth i cpus 0])]
   else [])%string.

Definition policy_calls (spolicy : string) (prio : Z) (t : thread) : list call :=
  (if bool_decide (spolicy = "SCHED_FIFO") then [SetSchedParam t FIFO prio]
   else if bool_decide (spolicy = "SCHED_RR") then [SetSchedParam t RR prio]
   else if bool_decide (spolicy = "SCHED_OTHER") then [SetPriority t prio] else [])%string.

Lemma SetSchedPolicy_bound spolicy prio ctx t :
  SetSchedPolicy spolicy prio (BindContext ctx t Processor) = Done (policy_calls spolicy prio t).
Proof. unfold SetSchedPolicy, policy_calls. cbn. repeat case_bool_decide; done. Qed.

Lemma SetSchedAffinity_bound cpus affinity i ctx t :
  SetSchedAffinity cpus affinity i (BindContext ctx t Processor) =
  if bool_decide (affinity_ok cpus affinity (S i)) then Done (affinity_calls cpus affinity i t) else Undefined.
Proof.
  unfold SetSchedAffinity, affinity_calls, affinity_ok. destruct cpus as [|c cpus].
  - rewrite !(bool_decide_eq_true_2 _); auto.
  - rewrite (bool_decide_eq_false_2 (c :: cpus = [])) by done. cbn [BindContext Processor thread_ with_thread].
    destruct (decide (affinity = "range"%string)) as [-> |Hr]; [by rewrite bool_decide_eq_true_2|].
    rewrite (bool_decide_eq_false_2 _ Hr). destruct (decide (affinity = "1to1"%string)) as [-> |H1].
    + rewrite (bool_decide_eq_true_2 (_ = _)) by done. destruct ((c :: cpus) !! i) as [d|] eqn:E.
      * rewrite bool_decide_eq_true_2 by (intros _; right; by apply lookup_lt_Some in E).
        cbn [with_thread thread_]. by rewrite (nth_lookup_Some _ _ 0 d).
      * rewrite bool_decide_eq_false_2; [done|]. intros H. destruct (H eq_refl); [done|]. apply lookup_ge_None in E. lia.
    + rewrite !(bool_decide_eq_false_2 _ H1). by rewrite bool_decide_eq_true_2.
Qed.
End Threads.

(** ** The constructors of both policies *)
Module Construction.
Import Outcome Threads.

(** The messages of [classic_conf.proto], [choreography_conf.proto] and
    [scheduler_conf.proto], the defaults of their fields filled in. *)
Record classic_task := mkctask { ct_name : string; ct_prio : N }.
Record sched_group := mkgroup {
  sg_name : string; sg_processor_num : Z; sg_affinity : string; sg_cpuset : list Z;
  sg_processor_policy : string; sg_processor_prio : Z; sg_tasks : list classic_task;
}.
Record choreography_task := mkchtask { ch_name : string; ch_processor : option Z; ch_prio : N }.
Record choreography_conf := mkchconf {
  choreography_processor_num : Z; choreography_affinity : string; choreography_processor_policy : string;
  choreography_processor_prio : Z; choreography_cpuset : list Z;
  pool_processor_num : Z; pool_affinity : string; pool_processor_policy : string;
  pool_processor_prio : Z; pool_cpuset : list Z; ch_tasks : list choreography_task;
}.
Record scheduler_conf := mksconf {
  sc_policy : string; sc_default_proc_num : option Z; sc_process_level_cpuset : option (list Z);
  sc_threads : list (string * inner_thread); sc_classic : list sched_group; sc_choreography : choreography_conf;
}.

(** A message in which nothing is set. *)
Definition no_choreography : choreography_conf := mkchconf 0 "" "" 0 [] 0 "" "" 0 [] [].

(** What a constructor leaves: the contexts with their processors, the queues of
    the groups, the size of the pool, the threads' configuration, and the calls
    it made. *)
Record built := mkbuilt {
  pctxs : list pctx;
  processors : list processor;
  queues : gmap string (list (list nat));
  task_pool_size : Z;
  inner_thr_confs : gmap string inner_thread;
  calls : list call;
}.

Definition make_call (l : list call) (b : built) : built :=
  mkbuilt (pctxs b) (processors b) (queues b) (task_pool_size b) (inner_thr_confs b) (calls b ++ l).
Definition set_pool_size (n : Z) (b : built) : built :=
  mkbuilt (pctxs b) (processors b) (queues b) n (inner_thr_confs b) (calls b).

(** [ClassicContext::InitGroup]: [operator[]] makes the queues of a new group. *)
Definition InitGroup (g : string) (gs : gmap string (list (list nat))) : gmap string (list (list nat)) :=
  match gs !! g with Some _ => gs | None => <[g := ClassicContext.no_queues]> gs end.
Definition init_queues (ctx : pctx) (gs : gmap string (list (list nat))) : gmap string (list (list nat)) :=
  match ctx with Classic c => InitGroup (ClassicContext.group_name c) gs | Choreography _ => gs end.

(** The body of the loops of [CreateProcessor]. *)
Definition create_one (ctx : pctx) (cpus : list Z) (affinity spolicy : string) (prio : Z) (i : nat) (b : built) : outcome built :=
  let p := BindContext ctx (Worker (length (processors b))) Processor in
  c1 ← SetSchedAffinity cpus affinity i p;
  c2 ← SetSchedPolicy spolicy prio p;
  Done (mkbuilt (pctxs b ++ [ctx]) (processors b ++ [p]) (init_queues ctx (queues b)) (task_pool_size b)
          (inner_thr_confs b) (calls b ++ c1 ++ c2)).

(** [n] rounds, from the [i]th. *)
Fixpoint create_loop (ctx : pctx) (cpus : list Z) (affinity spolicy : string) (prio : Z) (n i : nat) (b : built) : outcome built :=
  match n with
  | O => Done b
  | S n => b ← create_one ctx cpus affinity spolicy prio i b; create_loop ctx cpus affinity spolicy prio n (S i) b
  end.

(** [CreateProcessor] of the classic policy. *)
Definition create_group (g : sched_group) (b : built) : outcome built :=
  let b := set_pool_size (task_pool_size b `max` sg_processor_num g) b in
  cpus ← Cpuset.ParseCpuset (sg_cpuset g);
  create_loop (Classic (ClassicContext.ClassicContext (sg_name g))) cpus (sg_affinity g) (sg_processor_policy g)
    (sg_processor_prio g) (Z.to_nat (sg_processor_num g)) 0 b.
Fixpoint CreateProcessor_classic (gs : list sched_group) (b : built) : outcome built :=
  match gs with [] => Done b | g :: gs => b ← create_group g b; CreateProcessor_classic gs b end.

(** [inner_thr_confs_[thr.name()] = thr], and the process's own CPUs. *)
Definition configure_threads (sc : scheduler_conf) : outcome built :=
  let b := mkbuilt [] [] ∅ 0 (foldl (λ m p, <[p.1 := p.2]> m) ∅ (sc_threads sc)) [] in
  match sc_process_level_cpuset sc with
  | Some str => l ← ProcessLevelResourceControl str; Done (make_call l b)
  | None => Done b
  end.

Definition group_confs (m : gmap string (N * string)) (g : sched_group) : gmap string (N * string) :=
  foldl (λ m t, <[ct_name t := (ct_prio t, sg_name g)]> m) m (sg_tasks g).

Definition unconfigured : built := mkbuilt [] [] ∅ 0 ∅ [].

(** [global]: [default_proc_num] of the global configuration. *)
Definition default_group (n : Z) : sched_group := mkgroup ClassicContext.DEFAULT_GROUP_NAME n "" [] "" 0 [].

(** [file]: what reading the configuration file gives, if it gives anything. *)
Definition SchedulerClassic (file : option scheduler_conf) (global : option Z) : outcome (SchedulerClassic.conf * built) :=
  match file with
  | Some sc =>
      b ← configure_threads sc;
      b ← CreateProcessor_classic (sc_classic sc) b;
      Done (SchedulerClassic.mkconf (foldl group_confs ∅ (sc_classic sc)) (sg_name <$> sc_classic sc), b)
  | None =>
      let proc_num := default 2 global in
      b ← CreateProcessor_classic [default_group proc_num] (set_pool_size proc_num unconfigured);
      Done (SchedulerClassic.mkconf ∅ [ClassicContext.DEFAULT_GROUP_NAME], b)
  end.

(** [CreateProcessor] of the choreography policy. *)
Definition CreateProcessor_choreography (cc : choreography_conf) (cpus pool_cpus : list Z) (proc_num : Z) (b : built) : outcome built :=
  b ← create_loop (Choreography ChoreographyContext.ChoreographyContext) cpus (choreography_affinity cc)
        (choreography_processor_policy cc) (choreography_processor_prio cc) (Z.to_nat proc_num) 0 b;
  create_loop (Classic (ClassicContext.ClassicContext ClassicContext.DEFAULT_GROUP_NAME)) pool_cpus (pool_affinity cc)
    (pool_processor_policy cc) (pool_processor_prio cc) (Z.to_nat (task_pool_size b)) 0 b.

Definition chtask_confs (ts : list choreography_task) : gmap string (N * option Z) :=
  foldl (λ m t, <[ch_name t := (ch_prio t, ch_processor t)]> m) ∅ ts.

Definition SchedulerChoreography (file : option scheduler_conf) (global : option Z) : outcome (SchedulerChoreography.conf * built) :=
  let cc := from_option sc_choreography no_choreography file in
  b ← (match file with Some sc => configure_threads sc | None => Done unconfigured end);
  cpus ← Cpuset.ParseCpuset (choreography_cpuset cc);
  pool_cpus ← Cpuset.ParseCpuset (pool_cpuset cc);
  let proc_num := choreography_processor_num cc in
  let '(proc_num, pool) := if proc_num =? 0 then (default 2 global, default 2 global) else (proc_num, pool_processor_num cc) in
  b ← CreateProcessor_choreography cc cpus pool_cpus proc_num (set_pool_size pool b);
  Done (SchedulerChoreography.mkconf (chtask_confs (ch_tasks cc)) proc_num, b).

(** [Instance]: which policy is constructed. *)
Inductive scheduler := AClassic (cf : SchedulerClassic.conf) (b : built) | AChoreography (cf : SchedulerChoreography.conf) (b : built).
Definition Instance_ (file : option scheduler_conf) (global : option Z) : outcome scheduler :=
  let policy := from_option sc_policy "classic"%string file in
  (if bool_decide (policy = "classic") then '(cf, b) ← SchedulerClassic file global; Done (AClassic cf b)
   else if bool_decide (policy = "choreography") then '(cf, b) ← SchedulerChoreography file global; Done (AChoreography cf b)
   else '(cf, b) ← SchedulerClassic file global; Done (AClassic cf b))%string.

(** The state the scheduler starts in. *)
Definition start (b : built) : sched :=
  mk false ∅ ∅ ∅ (queues b) (pctxs b) []
    ((λ p, Scheduler.mkproc true (bool_decide (is_Some (thread_ p)))) <$> processors b).
End Construction.

Module ConstructionProofs.
Import Outcome Threads Construction.

(** *** The loop of [CreateProcessor] *)
Section loop.
Context (ctx : pctx) (cpus : list Z) (affinity spolicy : string) (prio : Z).

(** The calls for the processors [k], [k+1], ..., [n] of them, the first being
    the [i]th of its kind. *)
Fixpoint loop_calls (n i k : nat) : list call :=
  match n with
  | O => []
  | S n => affinity_calls cpus affinity i (Worker k) ++ policy_calls spolicy prio (Worker k) ++ loop_calls n (S i) (S k)
  end.
Definition workers (n k : nat) : list processor := (λ j, mkproc (Some ctx) (Some (Worker j))) <$> seq k n.

Definition grow (n i : nat) (b : built) : built :=
  mkbuilt (pctxs b ++ replicate n ctx) (processors b ++ workers n (length (processors b)))
    (if bool_decide (n = 0%nat) then queues b else init_queues ctx (queues b)) (task_pool_size b) (inner_thr_confs b)
    (calls b ++ loop_calls n i (length (processors b))).

Lemma create_one_spec i b :
  create_one ctx cpus affinity spolicy prio i b =
  if bool_decide (affinity_ok cpus affinity (S i)) then Done (grow 1 i b) else Undefined.
Proof.
  unfold create_one. rewrite SetSchedAffinity_bound, SetSchedPolicy_bound. case_bool_decide; [|done].
  unfold grow. cbn. by rewrite app_nil_r.
Qed.

Lemma init_queues_twice gs : init_queues ctx (init_queues ctx gs) = init_queues ctx gs.
Proof.
  destruct ctx as [|c]; [done|]. cbn. unfold InitGroup. destruct (gs !! _) eqn:E; [by rewrite E|]. by rewrite lookup_insert_eq.
Qed.

Lemma grow_S n i b : grow n (S i) (grow 1 i b) = grow (S n) i b.
Proof.
  unfold grow. cbn. f_equal; rewrite <-?app_assoc; cbn.
  - done.
  - by rewrite length_app, Nat.add_1_r.
  - case_bool_decide; [done|]. apply init_queues_twice.
  - by rewrite length_app, Nat.add_1_r.
Qed.

Lemma affinity_ok_le m n : (m <= n)%nat → affinity_ok cpus affinity n → affinity_ok cpus affinity m.
Proof. unfold affinity_ok. intros Hm Hn Ha. destruct (Hn Ha); [by left|right; lia]. Qed.

Lemma create_loop_done n i b :
  affinity_ok cpus affinity (i + n) → create_loop ctx cpus affinity spolicy prio n i b = Done (grow n i b).
Proof.
  revert i b. induction n as [|n IH]; intros i b Hok; cbn.
  - unfold grow. cbn. rewrite !app_nil_r. by destruct b.
  - rewrite create_one_spec, bool_decide_eq_true_2 by (eapply affinity_ok_le; [|exact Hok]; lia). cbn.
    rewrite IH by (by rewrite Nat.add_succ_comm). by rewrite grow_S.
Qed.

Lemma create_loop_undefined n i b :
  ¬ affinity_ok cpus affinity (i + n) → affinity_ok cpus affinity i → create_loop ctx cpus affinity spolicy prio n i b = Undefined.
Proof.
  revert i b. induction n as [|n IH]; intros i b Hno Hi; [by rewrite Nat.add_0_r in Hno|]. cbn. rewrite create_one_spec.
  case_bool_decide as HS; [|done]. cbn. apply IH; [by rewrite Nat.add_succ_comm|done].
Qed.

Lemma create_loop_iff n b b' :
  create_loop ctx cpus affinity spolicy prio n 0 b = Done b' ↔ affinity_ok cpus affinity n ∧ b' = grow n 0 b.
Proof.
  destruct (decide (affinity_ok cpus affinity n)) as [Hok|Hno].
  - rewrite create_loop_done by done. naive_solver.
  - rewrite create_loop_undefined; [naive_solver|done|]. intros _. right. lia.
Qed.
End loop.

Lemma bind_Done {A B} (x : outcome A) (f : A → outcome B) r : (x ≫= f) = Done r ↔ ∃ a, x = Done a ∧ f a = Done r.
Proof. destruct x; cbn; naive_solver. Qed.

(** *** The processors stand beside their contexts *)
Definition processors_bound (b : built) : Prop :=
  processors b = imap (λ i ctx, mkproc (Some ctx) (Some (Worker i))) (pctxs b).

(** No group has a routine yet. *)
Definition queues_empty (gs : gmap string (list (list nat))) : Prop :=
  ∀ g, ClassicContext.group_queues gs g = ClassicContext.no_queues.

Record sound (b : built) : Prop := { so_bound : processors_bound b; so_queues : queues_empty (queues b) }.

Lemma workers_imap ctx n k : workers ctx n k = imap (λ i ctx, mkproc (Some ctx) (Some (Worker (k + i)))) (replicate n ctx).
Proof.
  unfold workers. revert k. induction n as [|n IH]; intros k; cbn; [done|]. rewrite Nat.add_0_r. f_equal.
  rewrite IH. apply imap_ext. intros i x _. cbn. by rewrite Nat.add_succ_r.
Qed.

Lemma InitGroup_empty g gs : queues_empty gs → queues_empty (InitGroup g gs).
Proof.
  intros Hq g'. unfold InitGroup. destruct (gs !! g) eqn:E; [done|]. unfold ClassicContext.group_queues. rewrite lookup_insert.
  case_decide; [done|apply Hq].
Qed.

Lemma grow_sound ctx cpus affinity spolicy prio n i b : sound b → sound (grow ctx cpus affinity spolicy prio n i b).
Proof.
  intros [Hb Hq]. split.
  - unfold processors_bound in *. cbn. rewrite imap_app, Hb, length_imap, workers_imap. done.
  - cbn. case_bool_decide; [done|]. destruct ctx as [|c]; [done|]. by apply InitGroup_empty.
Qed.

Lemma configure_threads_sound sc b : configure_threads sc = Done b → sound b ∧ pctxs b = [] ∧ task_pool_size b = 0.
Proof.
  unfold configure_threads. assert (queues_empty ∅) as He.
  { intros g. unfold ClassicContext.group_queues. by rewrite lookup_empty. }
  destruct (sc_process_level_cpuset sc); [intros (? & _ & [= <-])%bind_Done|intros [= <-]]; by split_and!.
Qed.

Lemma start_pool_ok pooled b : sound b → Pool.pool_ok pooled ∅ ∅ (queues b).
Proof.
  intros [_ Hq]. assert (∀ g prio, RunQueues.queue (queues b) g prio = []) as He.
  { intros g prio. rewrite <- (RunQueues.queue_empty g prio). unfold RunQueues.queue. rewrite Hq.
    unfold ClassicContext.group_queues. by rewrite lookup_empty. }
  split.
  - intros g. by rewrite Hq.
  - intros id a. by rewrite lookup_empty.
  - intros id a c. by rewrite lookup_empty.
  - intros g prio a. rewrite He. split; [by intros []%elem_of_nil|]. intros (c & Hc & _). by rewrite lookup_empty in Hc.
  - intros g prio. rewrite He. constructor.
Qed.

Lemma start_named hash b : Tasks.named hash (start b).
Proof. split; [intros i n; cbn; by rewrite lookup_empty|]. intros i. cbn. rewrite lookup_empty. by intros []. Qed.

(** *** The classic policy *)
Definition group_ctx (g : sched_group) : pctx := Classic (ClassicContext.ClassicContext (sg_name g)).
Definition group_size (g : sched_group) : nat := Z.to_nat (sg_processor_num g).
Definition group_ok (g : sched_group) : Prop :=
  ∃ cpus, Cpuset.ParseCpuset (sg_cpuset g) = Done cpus ∧ affinity_ok cpus (sg_affinity g) (group_size g).

Lemma create_group_done g b b' :
  create_group g b = Done b' →
  group_ok g ∧ pctxs b' = pctxs b ++ replicate (group_size g) (group_ctx g) ∧
  task_pool_size b' = task_pool_size b `max` sg_processor_num g ∧ (sound b → sound b').
Proof.
  intros (cpus & Hp & [Hok ->]%create_loop_iff)%bind_Done. split_and!; [by exists cpus|done|done|].
  intros [Hb Hq]. by apply grow_sound.
Qed.

Lemma create_groups_done gs b b' :
  CreateProcessor_classic gs b = Done b' →
  Forall group_ok gs ∧ pctxs b' = pctxs b ++ concat ((λ g, replicate (group_size g) (group_ctx g)) <$> gs) ∧
  task_pool_size b' = foldl Z.max (task_pool_size b) (sg_processor_num <$> gs) ∧ (sound b → sound b').
Proof.
  revert b. induction gs as [|g gs IH]; intros b; cbn.
  - intros [= <-]. by rewrite app_nil_r.
  - intros (b1 & (Hg & Hc & Hn & Hs)%create_group_done & (Hgs & Hcs & Hns & Hss)%IH)%bind_Done.
    split_and!; [by constructor| |congruence|auto]. by rewrite Hcs, Hc, <-app_assoc.
Qed.

Lemma create_groups_ok gs b : Forall group_ok gs → ∃ b', CreateProcessor_classic gs b = Done b'.
Proof.
  intros Hgs. revert b. induction Hgs as [|g gs (cpus & Hp & Ha) _ IH]; intros b; cbn; [by eexists|].
  unfold create_group. rewrite Hp. cbn. rewrite (proj2 (create_loop_iff _ _ _ _ _ _ _ _) (conj Ha eq_refl)). apply IH.
Qed.

(** The groups that are constructed: those of the file, or one default group. *)
Definition groups_of (file : option scheduler_conf) (global : option Z) : list sched_group :=
  match file with Some sc => sc_classic sc | None => [default_group (default 2 global)] end.
Definition process_ok (file : option scheduler_conf) : Prop :=
  match file ≫= sc_process_level_cpuset with Some str => ∃ cpus, Cpuset.ParseCpuset str = Done cpus | None => True end.

Lemma configure_threads_ok sc : process_ok (Some sc) ↔ ∃ b, configure_threads sc = Done b.
Proof.
  unfold process_ok, configure_threads, ProcessLevelResourceControl. cbn. destruct (sc_process_level_cpuset sc) as [str|].
  - split; [intros [cpus ->]; by eexists|]. intros (b & (l & (cpus & E & _)%bind_Done & _)%bind_Done). by exists cpus.
  - split; [by eexists|done].
Qed.

(** The classic policy is constructed exactly if every list of CPUs can be
    read and, where processors get a CPU each, the list has one for each of
    them.  Then every group has as many contexts as its configuration says, each
    processor runs its context, the pool is as large as the largest group, and
    whatever is done to tasks from there on, the queues and the registered
    routines agree. *)
Theorem classic_construction hash file global :
  0 <= default 2 global → ((∃ r, SchedulerClassic file global = Done r) ↔ process_ok file ∧ Forall group_ok (groups_of file global)) ∧
  ∀ cf b, SchedulerClassic file global = Done (cf, b) →
    SchedulerClassic.groups cf = sg_name <$> groups_of file global ∧
    pctxs b = concat ((λ g, replicate (group_size g) (group_ctx g)) <$> groups_of file global) ∧
    processors_bound b ∧ task_pool_size b = foldl Z.max 0 (sg_processor_num <$> groups_of file global) ∧
    (groups_of file global ≠ [] → ∀ s, reachable (Tasks.step (P := SchedulerClassic.policy cf) hash) (start b) s →
      SchedulerClassic.wf s).
Proof.
  intros Hglobal. split.
  - destruct file as [sc|]; cbn [SchedulerClassic groups_of].
    + rewrite configure_threads_ok. split.
      * intros (r & (b & Hb & (b' & (Hg & _)%create_groups_done & _)%bind_Done)%bind_Done). eauto.
      * intros [[b ->] Hg]. cbn. destruct (create_groups_ok (sc_classic sc) b Hg) as [b' ->]. by eexists.
    + split; [|intros [_ Hg]; destruct (create_groups_ok _ (set_pool_size (default 2 global) unconfigured) Hg) as [b' ->]; by eexists].
      intros (r & (b & (Hg & _)%create_groups_done & _)%bind_Done). done.
  - intros cf b H.
    assert (SchedulerClassic.groups cf = sg_name <$> groups_of file global ∧
      ∃ b0, CreateProcessor_classic (groups_of file global) b0 = Done b ∧ sound b0 ∧ pctxs b0 = [] ∧
        foldl Z.max (task_pool_size b0) (sg_processor_num <$> groups_of file global) =
        foldl Z.max 0 (sg_processor_num <$> groups_of file global)) as (Hn & b0 & Hb & Hs & Hc & Hp).
    { destruct file as [sc|]; cbn [SchedulerClassic groups_of] in *.
      - apply bind_Done in H as (b0 & (Hs & Hc & Hp)%configure_threads_sound & (b1 & Hb & [= <- <-])%bind_Done).
        split; [done|]. exists b0. by rewrite Hp.
      - apply bind_Done in H as (b1 & Hb & [= <- <-]). split; [done|]. eexists. split_and!; [exact Hb| |done|cbn; lia].
        split; [done|]. intros g. cbn. unfold ClassicContext.group_queues. by rewrite lookup_empty. }
    apply create_groups_done in Hb as (_ & Hcs & Hps & Hss). specialize (Hss Hs) as Hsb. rewrite Hc in Hcs. rewrite Hp in Hps.
    split_and!; [done|done|apply Hsb|done|]. intros Hne s Hr.
    assert (SchedulerClassic.groups cf ≠ []) as Hg by (rewrite Hn; by destruct (groups_of file global)).
    pose proof (SchedulerClassic.laws cf Hg) as L.
    exact (proj1 (Tasks.tasks_reachable hash SchedulerClassic.wf (start b) s (start_pool_ok _ b Hsb) (start_named hash b) Hr)).
Qed.

(** *** The choreography policy *)
Definition chconf_of (file : option scheduler_conf) : choreography_conf := from_option sc_choreography no_choreography file.
(** How many processors have routines of their own, and how many share. *)
Definition chsizes (file : option scheduler_conf) (global : option Z) : Z * Z :=
  let cc := chconf_of file in
  if choreography_processor_num cc =? 0 then (default 2 global, default 2 global)
  else (choreography_processor_num cc, pool_processor_num cc).
Definition ch_ok (file : option scheduler_conf) (global : option Z) : Prop :=
  let cc := chconf_of file in
  ∃ cpus pool_cpus,
    Cpuset.ParseCpuset (choreography_cpuset cc) = Done cpus ∧ Cpuset.ParseCpuset (pool_cpuset cc) = Done pool_cpus ∧
    affinity_ok cpus (choreography_affinity cc) (Z.to_nat (chsizes file global).1) ∧
    affinity_ok pool_cpus (pool_affinity cc) (Z.to_nat (chsizes file global).2).

Definition ch_ctxs (proc_num pool : Z) : list pctx :=
  replicate (Z.to_nat proc_num) (Choreography ChoreographyContext.ChoreographyContext) ++
  replicate (Z.to_nat pool) (Classic (ClassicContext.ClassicContext ClassicContext.DEFAULT_GROUP_NAME)).

Lemma create_choreography_iff cc cpus pool_cpus proc_num b b' :
  CreateProcessor_choreography cc cpus pool_cpus proc_num b = Done b' →
  affinity_ok cpus (choreography_affinity cc) (Z.to_nat proc_num) ∧
  affinity_ok pool_cpus (pool_affinity cc) (Z.to_nat (task_pool_size b)) ∧
  pctxs b' = pctxs b ++ ch_ctxs proc_num (task_pool_size b) ∧ task_pool_size b' = task_pool_size b ∧ (sound b → sound b').
Proof.
  unfold CreateProcessor_choreography. intros (b1 & [Ha ->]%create_loop_iff & [Hp ->]%create_loop_iff)%bind_Done.
  split_and!; [done|exact Hp| |done|].
  - cbn. unfold ch_ctxs. by rewrite <-app_assoc.
  - intros Hs. by do 2 apply grow_sound.
Qed.

Lemma create_choreography_ok cc cpus pool_cpus proc_num b :
  affinity_ok cpus (choreography_affinity cc) (Z.to_nat proc_num) →
  affinity_ok pool_cpus (pool_affinity cc) (Z.to_nat (task_pool_size b)) →
  ∃ b', CreateProcessor_choreography cc cpus pool_cpus proc_num b = Done b'.
Proof.
  intros Ha Hp. unfold CreateProcessor_choreography. rewrite create_loop_done by done. cbn. rewrite create_loop_done by done. by eexists.
Qed.

Lemma start_choreography_wf cf pool b :
  sound b → pctxs b = ch_ctxs (SchedulerChoreography.proc_num_ cf) pool → SchedulerChoreography.wf cf (start b).
Proof.
  intros Hs Hc. split; cbn.
  - by apply start_pool_ok.
  - intros id a c. by rewrite lookup_empty.
  - intros i Hi. destruct (SchedulerChoreography.cw_ctx cf _ (SchedulerChoreography.choreography_initial_wf cf (Z.to_nat pool)) i Hi)
      as (ctx & Hl & Hok). exists ctx. split; [|exact Hok]. rewrite Hc. exact Hl.
  - intros i ctx Hi. rewrite Hc in Hi.
    exact (SchedulerChoreography.cw_rest cf _ (SchedulerChoreography.choreography_initial_wf cf (Z.to_nat pool)) i ctx Hi).
Qed.

(** The file, or the absence of one, before the processors are made. *)
Definition prepare (file : option scheduler_conf) : outcome built :=
  match file with Some sc => configure_threads sc | None => Done unconfigured end.

Lemma prepare_sound file b : prepare file = Done b → sound b ∧ pctxs b = [].
Proof.
  destruct file as [sc|]; [by intros (? & ? & _)%configure_threads_sound|]. intros [= <-]. split; [|done]. split; [done|].
  intros g. cbn. unfold ClassicContext.group_queues. by rewrite lookup_empty.
Qed.

Lemma prepare_ok file : process_ok file ↔ ∃ b, prepare file = Done b.
Proof. destruct file as [sc|]; [apply configure_threads_ok|]. split; [by eexists|done]. Qed.

Lemma SchedulerChoreography_unfold file global r :
  SchedulerChoreography file global = Done r ↔
  ∃ b0 cpus pool_cpus b, prepare file = Done b0 ∧ Cpuset.ParseCpuset (choreography_cpuset (chconf_of file)) = Done cpus ∧
    Cpuset.ParseCpuset (pool_cpuset (chconf_of file)) = Done pool_cpus ∧
    CreateProcessor_choreography (chconf_of file) cpus pool_cpus (chsizes file global).1
      (set_pool_size (chsizes file global).2 b0) = Done b ∧
    r = (SchedulerChoreography.mkconf (chtask_confs (ch_tasks (chconf_of file))) (chsizes file global).1, b).
Proof.
  unfold SchedulerChoreography, chsizes. fold (prepare file) (chconf_of file). cbv zeta. rewrite bind_Done. split.
  - intros (b0 & H0 & (cpus & H1 & (pool_cpus & H2 & H)%bind_Done)%bind_Done). exists b0, cpus, pool_cpus.
    case_match; apply bind_Done in H as (b & Hb & [= <-]); exists b; by split_and!.
  - intros (b0 & cpus & pool_cpus & b & H0 & H1 & H2 & Hb & ->). exists b0. split; [done|]. rewrite H1, H2. cbn.
    case_match; cbn in *; by rewrite Hb.
Qed.

(** C29: the choreography policy is constructed exactly if the lists of CPUs can
    be read and are long enough where processors get a CPU each.  Then the first
    contexts are the processors that tasks can be bound to, the pool's follow,
    each processor runs its context, and if tasks are bound to existing
    processors only, the queues and the registered routines agree whatever is
    done to tasks from there on. *)
Theorem choreography_construction hash file global :
  ((∃ r, SchedulerChoreography file global = Done r) ↔ process_ok file ∧ ch_ok file global) ∧
  ∀ cf b, SchedulerChoreography file global = Done (cf, b) →
    SchedulerChoreography.proc_num_ cf = (chsizes file global).1 ∧ task_pool_size b = (chsizes file global).2 ∧
    pctxs b = ch_ctxs (chsizes file global).1 (chsizes file global).2 ∧ processors_bound b ∧
    (SchedulerChoreography.conf_ok cf → ∀ s, reachable (Tasks.step (P := SchedulerChoreography.policy cf) hash) (start b) s →
      SchedulerChoreography.wf cf s).
Proof.
  split.
  - rewrite prepare_ok. split.
    + intros (r & (b0 & cpus & pool_cpus & b & H0 & H1 & H2 & (Ha & Hp & _)%create_choreography_iff & _)%SchedulerChoreography_unfold).
      split; [by eexists|]. by exists cpus, pool_cpus.
    + intros [[b0 H0] (cpus & pool_cpus & H1 & H2 & Ha & Hp)].
      destruct (create_choreography_ok (chconf_of file) cpus pool_cpus (chsizes file global).1
        (set_pool_size (chsizes file global).2 b0) Ha Hp) as [b Hb].
      eexists. apply SchedulerChoreography_unfold. by exists b0, cpus, pool_cpus, b.
  - intros cf b (b0 & cpus & pool_cpus & b' & [Hs Hc]%prepare_sound & _ & _ & (_ & _ & Hcs & Hn & Hss)%create_choreography_iff & [= -> ->])%SchedulerChoreography_unfold.
    assert (sound b') as Hsb by (apply Hss; by destruct Hs). cbn in Hcs. rewrite Hc in Hcs.
    split_and!; [done|done|done|apply Hsb|]. intros Hok s Hr. pose proof (SchedulerChoreography.laws _ Hok) as L.
    eapply (λ w, proj1 (Tasks.tasks_reachable hash _ (start b') s w (start_named hash b') Hr)).
    by eapply start_choreography_wf.
Qed.
End ConstructionProofs.

(** ** The one scheduler of the process *)
Module Factory.
Import Outcome Construction.

(** [scheduler_instance], whether its [once_flag] is set, and whether what it
    points to was deleted. *)
Record t := mk { once : bool; instance : option scheduler; deleted : bool }.
Definition initial : t := mk false None false.

(** Answered is the pointer.  A constructor that throws leaves the flag. *)
Definition Instance (file : option scheduler_conf) (global : option Z) (s : t) : outcome (option scheduler * t) :=
  if once s then Done (instance s, s)
  else sched ← Instance_ file global; Done (Some sched, mk true (Some sched) (deleted s)).

(** The shutdown itself is [Scheduler.Shutdown]. *)
Definition CleanUp (s : t) : outcome t :=
  match instance s with
  | None => Done s
  | Some _ => if deleted s then Undefined else Done (mk (once s) (instance s) true)
  end.

Definition is_choreography (sched : scheduler) : bool := match sched with AChoreography _ _ => true | AClassic _ _ => false end.

(** The configuration file is looked at once.  The first caller gets the
    choreography policy if the file says so by name, and the classic one for
    any other word, for none and without a file; later callers get the same
    scheduler, whatever the file says then, also after it was deleted. *)
Theorem instance_once file global file' global' r s :
  Instance file global initial = Done (r, s) →
  (∃ sched, r = Some sched ∧ is_choreography sched = bool_decide (sc_policy <$> file = Some "choreography"%string)) ∧
  Instance file' global' s = Done (r, s) ∧
  ∃ s', CleanUp s = Done s' ∧ Instance file' global' s' = Done (r, s') ∧ CleanUp s' = Undefined.
Proof.
  unfold Instance. cbn [once initial]. intros (sched & H & [= <- <-])%ConstructionProofs.bind_Done. split; [|split; [done|by eexists]].
  exists sched. split; [done|]. unfold Instance_ in H. destruct file as [sc|]; cbn in H |- *.
  - destruct (decide (sc_policy sc = "classic"%string)) as [E|E].
    + rewrite (bool_decide_eq_true_2 _ E) in H. apply ConstructionProofs.bind_Done in H as ([cf b] & _ & [= <-]).
      rewrite bool_decide_eq_false_2; [done|]. rewrite E. by intros [=].
    + rewrite (bool_decide_eq_false_2 _ E) in H. destruct (decide (sc_policy sc = "choreography"%string)) as [E'|E'].
      * rewrite (bool_decide_eq_true_2 _ E') in H. apply ConstructionProofs.bind_Done in H as ([cf b] & _ & [= <-]).
        rewrite bool_decide_eq_true_2; [done|]. by rewrite E'.
      * rewrite (bool_decide_eq_false_2 _ E') in H. apply ConstructionProofs.bind_Done in H as ([cf b] & _ & [= <-]).
        rewrite bool_decide_eq_false_2; [done|]. by intros [= ?].
  - rewrite bool_decide_eq_true_2 in H by done. apply ConstructionProofs.bind_Done in H as ([cf b] & _ & [= <-]). done.
Qed.
End Factory.

(** ** Sample configurations *)
Module ConfSample.
Import Outcome Threads Construction ConstructionProofs.
Local Open Scope string_scope.

(** Two processors in one group, a CPU each, and one in another. *)
Definition cpus01 : list Z := string_bytes "0-1".
Definition groups : list sched_group :=
  [mkgroup "g1" 2 "1to1" cpus01 "SCHED_RR" 10 [mkctask "cam" 25]; mkgroup "g2" 1 "range" cpus01 "SCHED_OTHER" (-5) []].
Definition bound : choreography_conf :=
  mkchconf 2 "range" "SCHED_FIFO" 10 cpus01 1 "range" "" 0 (string_bytes "2") [mkchtask "cam" (Some 1) 3].
Definition file (policy : string) : scheduler_conf :=
  mksconf policy None (Some (string_bytes "0-3")) [("shm_disp", mkinner (string_bytes "3") "SCHED_FIFO" 10)] groups bound.

(** A group of three processors that are to have a CPU each of two. *)
Definition short : scheduler_conf :=
  mksconf "classic" None None [] [mkgroup "g1" 3 "1to1" cpus01 "" 0 []] no_choreography.

Lemma classic_construction_witness :
  ∃ cf b, SchedulerClassic (Some (file "classic")) None = Done (cf, b) ∧ length (pctxs b) = 3%nat ∧ processors_bound b ∧
    task_pool_size b = 2 ∧
    calls b = [SetAffinity Caller (cpu_set [0; 1; 2; 3]); SetAffinity (Worker 0) (cpu_set [0]); SetSchedParam (Worker 0) RR 10;
      SetAffinity (Worker 1) (cpu_set [1]); SetSchedParam (Worker 1) RR 10;
      SetAffinity (Worker 2) (cpu_set [0; 1]); SetPriority (Worker 2) (-5)] ∧
    SchedulerClassic.wf (start b) ∧ ¬ (∃ r, SchedulerClassic (Some short) None = Done r).
Proof.
  destruct (SchedulerClassic (Some (file "classic")) None) as [[cf b]| | | |] eqn:E; try (vm_compute in E; discriminate).
  exists cf, b. destruct (proj2 (classic_construction GlobalData.demo_hash (Some (file "classic")) None ltac:(done)) cf b E)
    as (_ & _ & Hp & _ & Hw).
  assert (SchedulerClassic.wf (start b)) as Hwf by (apply Hw; [done|constructor]).
  split_and!; [done| |exact Hp| | |exact Hwf|].
  1-3: clear -E; vm_compute in E; injection E as <- <-; vm_compute; reflexivity.
  intros Hr. apply (proj1 (classic_construction GlobalData.demo_hash (Some short) None ltac:(done))) in Hr as [_ Hok].
  apply Forall_inv in Hok as (cpus & [= <-] & Ha). destruct (Ha eq_refl) as [Hn|Hn]; [by vm_compute in Hn|vm_compute in Hn; lia].
Defined.

(** The construction reads past the end of the list of CPUs. *)
Lemma classic_short : SchedulerClassic (Some short) None = Undefined.
Proof. by vm_compute. Qed.

Lemma choreography_construction_witness :
  ∃ cf b, SchedulerChoreography (Some (file "choreography")) None = Done (cf, b) ∧ length (pctxs b) = 3%nat ∧
    task_pool_size b = 1 ∧ processors_bound b ∧ SchedulerChoreography.wf cf (start b).
Proof.
  destruct (SchedulerChoreography (Some (file "choreography")) None) as [[cf b]| | | |] eqn:E; try (vm_compute in E; discriminate).
  exists cf, b. destruct (proj2 (choreography_construction GlobalData.demo_hash (Some (file "choreography")) None) cf b E)
    as (Hn & _ & _ & Hp & Hw).
  split_and!; [done| | |exact Hp|].
  1-2: clear -E; vm_compute in E; injection E as <- <-; vm_compute; reflexivity.
  apply Hw; [|constructor]. clear -E Hn. split; [rewrite Hn; vm_compute; split; [discriminate|done]|].
  assert (SchedulerChoreography.cr_confs_ cf = {["cam" := (3%N, Some 1)]}) as ->.
  { vm_compute in E. injection E as <- _. vm_compute. reflexivity. }
  intros name prio p [_ [= _ <-]]%lookup_singleton_Some. right. rewrite Hn. by vm_compute.
Defined.

Lemma instance_once_witness :
  ∃ r s, Factory.Instance (Some (file "choreography")) None Factory.initial = Done (r, s) ∧
    Factory.Instance None None s = Done (r, s).
Proof.
  destruct (Factory.Instance (Some (file "choreography")) None Factory.initial) as [[r s]| | | |] eqn:E;
    try (vm_compute in E; discriminate).
  exists r, s. split; [done|]. exact (proj1 (proj2 (Factory.instance_once _ _ None None r s E))).
Defined.

(** The thread of the shared-memory dispatcher, a thread that is not configured,
    and none at all. *)
Lemma inner_threads :
  let confs := foldl (λ m p, <[p.1 := p.2]> m) ∅ (sc_threads (file "classic")) in
  SetInnerThreadAttr confs "shm_disp" true =
    Done [SetAffinity (Inner "shm_disp") (cpu_set [3]); SetSchedParam (Inner "shm_disp") FIFO 10] ∧
  SetInnerThreadAttr confs "timer" true = Done [] ∧ SetInnerThreadAttr confs "shm_disp" false = Done [].
Proof. by vm_compute. Qed.
End ConfSample.
