(* ===== verification/File.v ===== *)
(** * Paths and files ([cyber/common/file.cc], [environment.h])

    [Paths]: the functions on path names.  [FileSystem]: the calls of the C
    library that the rest of the file makes, as an interface with laws;
    [Directories], [Files] and [ProtoFiles] are written over it.  [Tree] is a
    file system in memory that keeps the laws.

    A path is a list of characters without NUL. *)

From S2P Require Import Prelude.

Local Open Scope Z_scope.
Local Open Scope cyber_scope.

Abbreviation path := (list Z).
Definition slash : Z := 47.
Definition dot : Z := 46.

(** ** Path names *)
Module Paths.

(** [std::string::rfind]. *)
Fixpoint rfind (c : Z) (s : path) : option nat :=
  match s with
  | [] => None
  | x :: s => match rfind c s with Some i => Some (S i) | None => if x =? c then Some 0%nat else None end
  end.

(** [std::string::substr], without a length up to the end. *)
Definition substr (pos : nat) (len : option nat) (s : path) : path :=
  match len with Some n => take n (drop pos s) | None => drop pos s end.

Definition GetAbsolutePath (prefix relative_path : path) : path :=
  match relative_path with
  | [] => prefix
  | c :: _ =>
      if bool_decide (prefix = []) || (c =? slash) then relative_path
      else if bool_decide (last prefix = Some slash) then prefix ++ relative_path
      else prefix ++ [slash] ++ relative_path
  end.

Definition GetFileName (p : path) (remove_extension : bool) : path :=
  let start := match rfind slash p with Some i => S i | None => 0%nat end in
  let e := if remove_extension
           then match rfind dot p with Some e => if (e <? start)%nat then None else Some e | None => None end
           else None in
  substr start ((λ e, e - start)%nat <$> e) p.

(** [GetEnv] and [WorkRoot] of [environment.h]; [env] is [getenv]. *)
Definition GetEnv (env : path → option path) (var_name : path) : path := default [] (env var_name).
Definition WorkRoot (env : path → option path) : path :=
  let work_root := GetEnv env (string_bytes "CYBER_PATH") in
  if bool_decide (work_root = []) then string_bytes "/apollo/cyber" else work_root.

(** *** Where a path ends *)
Lemma rfind_none c s : rfind c s = None ↔ c ∉ s.
Proof.
  induction s as [|x s IH]; cbn; [split; [intros _ H; by apply elem_of_nil in H|done]|]. rewrite not_elem_of_cons.
  destruct (rfind c s) as [i|] eqn:E; [naive_solver|]. destruct (Z.eqb_spec x c); naive_solver.
Qed.

Lemma rfind_some c a b : c ∉ b → rfind c (a ++ c :: b) = Some (length a).
Proof.
  intros Hb. induction a as [|x a IH]; cbn; [|by rewrite IH]. by rewrite (proj2 (rfind_none c b) Hb), Z.eqb_refl.
Qed.

Lemma last_occurrence c (s : path) : c ∈ s → ∃ a b, s = a ++ c :: b ∧ c ∉ b.
Proof. intros H. by apply list_elem_of_split_r in H. Qed.

(** The directory of a path, with its slash, and its last name. *)
Lemma path_split p : ∃ d n, p = d ++ n ∧ slash ∉ n ∧ (d = [] ∨ last d = Some slash) ∧
  (match rfind slash p with Some i => S i | None => 0%nat end) = length d.
Proof.
  destruct (decide (slash ∈ p)) as [(a & b & -> & Hb)%last_occurrence|Hp].
  - exists (a ++ [slash]), b. rewrite rfind_some by done. rewrite <-app_assoc, length_app, last_snoc. cbn.
    split_and!; [done|done|by right|lia].
  - exists [], p. rewrite (proj2 (rfind_none _ _) Hp). split_and!; [done|done|by left|done].
Qed.

Lemma GetFileName_plain d n : slash ∉ n → d = [] ∨ last d = Some slash → GetFileName (d ++ n) false = n.
Proof.
  intros Hn Hd. unfold GetFileName. cbn [fmap option_fmap option_map substr].
  destruct Hd as [-> |[d' ->]%last_Some].
  - by rewrite app_nil_l, (proj2 (rfind_none _ _) Hn).
  - rewrite <-app_assoc. cbn [app]. rewrite rfind_some by done.
    change (slash :: n) with ([slash] ++ n). rewrite app_assoc, drop_app_length'; [done|]. rewrite length_app. cbn. lia.
Qed.

Lemma GetFileName_extension d n :
  slash ∉ n → d = [] ∨ last d = Some slash →
  ∃ ext, n = GetFileName (d ++ n) true ++ ext ∧ ((ext = [] ∧ dot ∉ n) ∨ ∃ e, ext = dot :: e ∧ dot ∉ e).
Proof.
  intros Hn Hd. assert ((match rfind slash (d ++ n) with Some i => S i | None => 0%nat end) = length d) as Hstart.
  { destruct Hd as [-> |[d' ->]%last_Some].
    - by rewrite app_nil_l, (proj2 (rfind_none _ _) Hn).
    - rewrite <-app_assoc. cbn [app]. rewrite rfind_some by done. rewrite length_app. cbn. lia. }
  unfold GetFileName. rewrite Hstart. destruct (decide (dot ∈ n)) as [(a & b & -> & Hb)%last_occurrence|Hdot].
  - exists (dot :: b). split; [|right; by exists b]. rewrite app_assoc, rfind_some by done. rewrite length_app.
    destruct (Nat.ltb_spec (length d + length a) (length d)); [lia|]. cbn. rewrite <-app_assoc, drop_app_length.
    by rewrite take_app_length' by lia.
  - exists []. split; [|by left]. rewrite app_nil_r.
    assert (∀ e, rfind dot (d ++ n) = Some e → (e < length d)%nat) as He.
    { intros e He. destruct (decide (dot ∈ d)) as [(a & b & -> & Hb)%last_occurrence|Hnd].
      - rewrite <-app_assoc in He. cbn [app] in He. rewrite rfind_some in He by (rewrite elem_of_app; naive_solver).
        injection He as <-. rewrite length_app. cbn. lia.
      - rewrite (proj2 (rfind_none _ _)) in He; [done|]. rewrite elem_of_app. naive_solver. }
    destruct (rfind dot (d ++ n)) as [e|]; [specialize (He e eq_refl)|]; [destruct (Nat.ltb_spec e (length d)); [|lia]|];
      cbn; by rewrite drop_app_length.
Qed.

(** The last name of a path.  What [GetFileName] answers is what follows the
    last slash; with the extension removed, what stands before the last dot of
    that name, dots in directories do not count. *)
Theorem file_name p :
  ∃ d, p = d ++ GetFileName p false ∧ slash ∉ GetFileName p false ∧ (d = [] ∨ last d = Some slash) ∧
    ∃ ext, GetFileName p false = GetFileName p true ++ ext ∧
      ((ext = [] ∧ dot ∉ GetFileName p false) ∨ ∃ e, ext = dot :: e ∧ dot ∉ e).
Proof.
  destruct (path_split p) as (d & n & -> & Hn & Hd & _). rewrite (GetFileName_plain d n Hn Hd). exists d.
  split_and!; [done|done|done|]. by apply GetFileName_extension.
Qed.

(** Joining paths.  An absolute path stays as it is; otherwise exactly one
    slash stands between the two, the last name is that of the second, and
    joining again changes nothing if the prefix was absolute. *)
Theorem absolute_path prefix rel :
  (rel = [] → GetAbsolutePath prefix rel = prefix) ∧
  (head rel = Some slash → GetAbsolutePath prefix rel = rel) ∧
  (rel ≠ [] → head rel ≠ Some slash → prefix ≠ [] →
     ∃ dir, (prefix = dir ++ [slash] ∨ (prefix = dir ∧ last dir ≠ Some slash)) ∧
       GetAbsolutePath prefix rel = dir ++ [slash] ++ rel ∧
       GetFileName (GetAbsolutePath prefix rel) false = GetFileName rel false) ∧
  (∀ prefix', head prefix = Some slash → GetAbsolutePath prefix' (GetAbsolutePath prefix rel) = GetAbsolutePath prefix rel).
Proof.
  split_and!.
  - by intros ->.
  - destruct rel as [|c rel]; [done|]. intros [= ->]. cbn. by rewrite orb_true_r.
  - intros Hr Hh Hp. destruct rel as [|c rel]; [done|]. cbn [GetAbsolutePath head] in *.
    rewrite bool_decide_eq_false_2 by done. cbn [orb]. rewrite (proj2 (Z.eqb_neq c slash)) by congruence.
    assert (∀ dir, GetFileName (dir ++ [slash] ++ c :: rel) false = GetFileName (c :: rel) false) as Hname.
    { intros dir. destruct (path_split (c :: rel)) as (d & n & -> & Hn & Hd & _).
      rewrite (GetFileName_plain d n Hn Hd), !app_assoc. apply GetFileName_plain; [done|]. right.
      destruct Hd as [-> |Hd]; [by rewrite app_nil_r, last_snoc|]. by rewrite last_app, Hd. }
    case_bool_decide as Hl.
    + apply last_Some in Hl as [dir ->]. exists dir. rewrite <-app_assoc. split_and!; [by left|done|apply Hname].
    + exists prefix. split_and!; [by right|done|apply Hname].
  - intros prefix' Hh. destruct prefix as [|c0 prefix]; [done|]. injection Hh as ->.
    destruct rel as [|c rel]; cbn; [by rewrite orb_true_r|]. destruct (Z.eqb_spec c slash) as [-> |Hc]; cbn.
    + by rewrite orb_true_r.
    + case_bool_decide; cbn; by rewrite orb_true_r.
Qed.

(** The cases of the code's own tests. *)
Lemma path_examples :
  GetAbsolutePath (string_bytes "/home/work/") (string_bytes "xx.txt") = string_bytes "/home/work/xx.txt" ∧
  GetAbsolutePath [] (string_bytes "./xx.txt") = string_bytes "./xx.txt" ∧
  GetFileName (string_bytes "./xx.txt") true = string_bytes "xx" ∧
  GetFileName (string_bytes "./.txt") true = [] ∧
  GetFileName (string_bytes "/path/.to/txt") true = string_bytes "txt" ∧
  GetFileName (string_bytes "/path/to/") false = [].
Proof. by vm_compute. Qed.

Lemma absolute_path_witness :
  GetAbsolutePath (string_bytes "/home") (string_bytes "a/b") = string_bytes "/home/a/b" ∧
  GetFileName (GetAbsolutePath (string_bytes "/home") (string_bytes "a/b")) false = string_bytes "b".
Proof.
  destruct (proj1 (proj2 (proj2 (absolute_path (string_bytes "/home") (string_bytes "a/b"))))) as (d & _ & _ & ->); [done..|].
  by vm_compute.
Defined.
End Paths.

(** ** The file system *)

(** The type of an entry, of [stat] and of [readdir]. *)
Inductive kind := Dir | Reg | OtherKind.
#[export] Instance kind_eq_dec : EqDecision kind.
Proof. solve_decision. Defined.

Inductive made := Made | Exists | NotMade.

(** The calls: [stat]; [mkdir]; [unlink]; [opendir] and [readdir]; an [ifstream]
    read to its end; an [ofstream] opened, which empties the file; and what is
    put into it.  [entry]: what stands under a name, links not followed. *)
Class FileSystem (W : Type) := {
  entry : path → W → option kind;
  stat : path → W → option kind;
  mkdir : path → W → made * W;
  unlink : path → W → bool * W;
  readdir : path → W → option (list (path * kind));
  read : path → W → option (list Z);
  open_write : path → W → option W;
  put : path → list Z → W → W;
}.

Class FileSystemLaws (W : Type) `{FileSystem W} := {
  stat_dir p w : entry p w = Some Dir → stat p w = Some Dir;
  mkdir_law p w :
    match mkdir p w with
    | (Made, w') => entry p w = None ∧ entry p w' = Some Dir ∧
        (∀ q k, entry q w = Some k → entry q w' = Some k) ∧ (∀ q, entry q w = None → entry q w' = None ∨ entry q w' = Some Dir)
    | (Exists, w') => w' = w ∧ is_Some (entry p w)
    | (NotMade, w') => w' = w
    end;
  unlink_law p w :
    match unlink p w with
    | (true, w') => entry p w ≠ Some Dir ∧ entry p w' = None ∧
        (∀ q, entry q w = Some Dir → entry q w' = Some Dir) ∧ (∀ q, entry q w = None → entry q w' = None)
    | (false, w') => w' = w
    end;
  open_write_law p w w' : open_write p w = Some w' → read p w' = Some [];
  put_law p d w : read p w = Some [] → read p (put p d w) = Some d;
}.

Definition dots (name : path) : bool := bool_decide (name = [dot]) || bool_decide (name = [dot; dot]).

Module Directories.
Section directories.
Context `{FileSystemLaws W}.

Definition PathExists (p : path) (w : W) : bool := bool_decide (is_Some (stat p w)).
Definition DirectoryExists (p : path) (w : W) : bool := bool_decide (stat p w = Some Dir).

(** The loop of [EnsureDirectory]: [pre] has been passed, and a slash that is
    not the first character ends a path that is made. *)
Definition make (p : path) (w : W) : bool * W :=
  match mkdir p w with (NotMade, w) => (false, w) | (_, w) => (true, w) end.
Fixpoint ensure_loop (pre rest : path) (w : W) : bool * W :=
  match rest with
  | [] => make pre w
  | c :: rest =>
      if (c =? slash) && negb (bool_decide (pre = [])) then
        let '(ok, w) := make pre w in
        if ok then ensure_loop (pre ++ [c]) rest w else (false, w)
      else ensure_loop (pre ++ [c]) rest w
  end.
Definition EnsureDirectory (p : path) (w : W) : bool * W := ensure_loop [] p w.

(** The loop over the entries. *)
Fixpoint remove_entries (d : path) (l : list (path * kind)) (w : W) : bool * W :=
  match l with
  | [] => (true, w)
  | (name, _) :: l =>
      if dots name then remove_entries d l w
      else
        let '(ok, w) := unlink (d ++ [slash] ++ name) w in
        if ok then remove_entries d l w else (false, w)
  end.
Definition RemoveAllFiles (d : path) (w : W) : bool * W :=
  match readdir d w with None => (false, w) | Some l => remove_entries d l w end.

Definition ListSubPaths (d : path) (d_type : kind) (w : W) : list path :=
  match readdir d w with
  | None => []
  | Some l => fst <$> filter (λ x, x.2 = d_type ∧ dots x.1 = false) l
  end.

(** *** What is there stays, and what is new is a directory *)
Record grows (w w' : W) : Prop := {
  gr_old q k : entry q w = Some k → entry q w' = Some k;
  gr_new q : entry q w = None → entry q w' = None ∨ entry q w' = Some Dir;
}.

Lemma grows_refl w : grows w w.
Proof. split; auto. Qed.

Lemma grows_trans w1 w2 w3 : grows w1 w2 → grows w2 w3 → grows w1 w3.
Proof. intros [Ho Hn] [Ho' Hn']. split; [auto|]. intros q Hq. destruct (Hn q Hq); auto. Qed.

Lemma make_spec p w : let '(ok, w') := make p w in grows w w' ∧ (ok = true → is_Some (entry p w')).
Proof.
  unfold make. pose proof (mkdir_law p w) as Hl. destruct (mkdir p w) as [[] w'].
  - destruct Hl as (_ & -> & ? & ?). split; [by split|by eexists].
  - destruct Hl as [-> ?]. split; [apply grows_refl|done].
  - subst. split; [apply grows_refl|done].
Qed.

(** The paths that [EnsureDirectory] makes: every part that ends before a slash,
    but for the first character, and the whole. *)
Definition part (p q : path) : Prop := q = p ∨ (q ≠ [] ∧ ∃ r, p = q ++ slash :: r).

Lemma part_here pre c rest q :
  part (pre ++ c :: rest) q → (length pre <= length q)%nat →
  (q = pre ∧ c = slash ∧ pre ≠ []) ∨ (length (pre ++ [c]) <= length q)%nat.
Proof.
  intros Hq Hle. destruct (decide (length q = length pre)) as [E|E]; [left|right; rewrite length_app; cbn; lia].
  destruct Hq as [-> |(Hne & r & Hr)]; [rewrite length_app in E; cbn in E; lia|].
  apply app_inj_1 in Hr as [<- [= -> _]]; [done|done].
Qed.

Lemma ensure_loop_spec pre rest w :
  let '(ok, w') := ensure_loop pre rest w in
  grows w w' ∧ (ok = true → ∀ q, part (pre ++ rest) q → (length pre <= length q)%nat → is_Some (entry q w')).
Proof.
  revert pre w. induction rest as [|c rest IH]; intros pre w; cbn [ensure_loop].
  - pose proof (make_spec pre w) as Hm. destruct (make pre w) as [ok w']. destruct Hm as [Hg Hs]. split; [done|].
    rewrite app_nil_r. intros Hok q [-> |(_ & r & ->)] Hle; [auto|]. rewrite length_app in Hle. cbn in Hle. lia.
  - pose proof (make_spec pre w) as Hm. destruct ((c =? slash) && negb (bool_decide (pre = []))) eqn:Hc.
    + destruct (make pre w) as [[] w1]; [|split; [apply Hm|done]]. destruct Hm as [Hg1 Hs1].
      specialize (IH (pre ++ [c]) w1). destruct (ensure_loop (pre ++ [c]) rest w1) as [ok w']. destruct IH as [Hg IH].
      split; [by eapply grows_trans|]. intros Hok q Hq Hle. rewrite <-app_assoc in IH.
      destruct (part_here pre c rest q Hq Hle) as [(-> & _)|Hlt]; [|by apply IH].
      destruct (Hs1 eq_refl) as [k Hk]. exists k. by apply Hg.
    + specialize (IH (pre ++ [c]) w). destruct (ensure_loop (pre ++ [c]) rest w) as [ok w']. destruct IH as [Hg IH].
      split; [done|]. intros Hok q Hq Hle. rewrite <-app_assoc in IH.
      destruct (part_here pre c rest q Hq Hle) as [(-> & -> & Hne)|Hlt]; [|by apply IH].
      rewrite Z.eqb_refl, bool_decide_eq_false_2 in Hc; done.
Qed.

(** [EnsureDirectory] changes nothing that is there and makes nothing but
    directories.  When it answers true, something stands under the path and
    under every part of it that ends at a slash, and each of these is a
    directory unless something else stood there before. *)
Theorem ensure_directory p w :
  let '(ok, w') := EnsureDirectory p w in
  grows w w' ∧
  (ok = true → ∀ q, part p q →
     is_Some (entry q w') ∧ (entry q w = None ∨ entry q w = Some Dir → DirectoryExists q w' = true)).
Proof.
  pose proof (ensure_loop_spec [] p w) as Hs. unfold EnsureDirectory. destruct (ensure_loop [] p w) as [ok w'].
  destruct Hs as [Hg Hs]. split; [done|]. intros Hok q Hq. assert (is_Some (entry q w')) as Hse by (apply Hs; [done|done|cbn; lia]).
  split; [done|]. intros Hold. apply bool_decide_eq_true_2, stat_dir. destruct Hse as [k Hk].
  destruct Hold as [Hn|Hd]; [|by apply Hg]. destruct (gr_new _ _ Hg q Hn); congruence.
Qed.

(** *** Emptying a directory *)
Lemma remove_entries_spec d l w :
  let '(ok, w') := remove_entries d l w in
  (∀ q, entry q w = Some Dir → entry q w' = Some Dir) ∧ (∀ q, entry q w = None → entry q w' = None) ∧
  (ok = true → ∀ name k, (name, k) ∈ l → dots name = false →
     entry (d ++ [slash] ++ name) w ≠ Some Dir ∧ entry (d ++ [slash] ++ name) w' = None).
Proof.
  revert w. induction l as [|[name k] l IH]; intros w; cbn [remove_entries].
  { split_and!; [done|done|]. intros _ name k Hin. by apply elem_of_nil in Hin. }
  destruct (dots name) eqn:Hdots.
  - specialize (IH w). destruct (remove_entries d l w) as [ok w']. destruct IH as (Hd & Hn & Hok). split_and!; [done|done|].
    intros Ho name' k' [[= -> ->]|Hin]%elem_of_cons Hnd; [congruence|]. by eapply Hok.
  - pose proof (unlink_law (d ++ [slash] ++ name) w) as Hu. destruct (unlink (d ++ [slash] ++ name) w) as [[] w1].
    + destruct Hu as (Hnotdir & Hgone & Hd1 & Hn1). specialize (IH w1). destruct (remove_entries d l w1) as [ok w'].
      destruct IH as (Hd & Hn & Hok). split_and!; [auto|auto|].
      intros Ho name' k' [[= -> ->]|Hin]%elem_of_cons Hnd; [split; [done|auto]|].
      destruct (Hok Ho name' k' Hin Hnd) as [Hx Hy]. split; [|done]. intros Hx'. by apply Hx, Hd1.
    + subst. split_and!; done.
Qed.

(** C39: [RemoveAllFiles] leaves every directory alone.  When it answers true, all
    that was listed is gone; so it answers false whenever a directory is among
    the entries, and what is listed after the first one stays. *)
Theorem remove_all_files d w l :
  readdir d w = Some l →
  let '(ok, w') := RemoveAllFiles d w in
  (∀ q, entry q w = Some Dir → entry q w' = Some Dir) ∧
  (ok = true → ∀ name k, (name, k) ∈ l → dots name = false → entry (d ++ [slash] ++ name) w' = None) ∧
  (∀ name, (name, Dir) ∈ l → dots name = false → entry (d ++ [slash] ++ name) w = Some Dir → ok = false) ∧
  (∀ l1 name l2, l = l1 ++ (name, Dir) :: l2 → dots name = false → entry (d ++ [slash] ++ name) w = Some Dir →
     (ok, w') = (false, (remove_entries d l1 w).2)).
Proof.
  intros Hl. unfold RemoveAllFiles. rewrite Hl.
  assert (∀ l1 name l2, l = l1 ++ (name, Dir) :: l2 → dots name = false → entry (d ++ [slash] ++ name) w = Some Dir →
     remove_entries d l w = (false, (remove_entries d l1 w).2)) as Hcut.
  { intros l1 name l2 -> Hnd. clear Hl. revert w. induction l1 as [|[name1 k1] l1 IH]; intros w He.
    - cbn [app remove_entries]. rewrite Hnd. change (slash :: name) with ([slash] ++ name). pose proof (unlink_law (d ++ [slash] ++ name) w) as Hu.
      destruct (unlink (d ++ [slash] ++ name) w) as [[] w1]; [by destruct Hu as [Hu _]|by rewrite Hu].
    - cbn [app remove_entries]. destruct (dots name1); [by apply IH|]. change (slash :: name1) with ([slash] ++ name1). pose proof (unlink_law (d ++ [slash] ++ name1) w) as Hu.
      destruct (unlink (d ++ [slash] ++ name1) w) as [[] w1]; [|done]. apply IH. destruct Hu as (_ & _ & Hd & _). by apply Hd. }
  pose proof (remove_entries_spec d l w) as Hs. destruct (remove_entries d l w) as [ok w'] eqn:E. destruct Hs as (Hd & _ & Hok).
  split_and!; [done| | |].
  - intros Ho name k Hin Hnd. by apply (Hok Ho name k).
  - intros name Hin Hnd He. destruct ok; [|done]. by destruct (Hok eq_refl name Dir Hin Hnd).
  - intros l1 name l2 Hl12 Hnd He. exact (Hcut l1 name l2 Hl12 Hnd He).
Qed.
End directories.
End Directories.

Module Files.
Section files.
Context `{FileSystemLaws W}.
Import Directories.

Definition GetContent (p : path) (w : W) : option (list Z) := read p w.

(** The source is read after the target has been opened. *)
Definition CopyFile (from to : path) (w : W) : bool * W :=
  match read from w with
  | None => (false, w)
  | Some _ =>
      match open_write to w with
      | None => (false, w)
      | Some w => (true, put to (default [] (read from w)) w)
      end
  end.

(** The loop over the entries, [copy] being the function itself. *)
Fixpoint copy_entries (copy : path → path → W → option (bool * W)) (from to : path) (l : list (path * kind)) (ret : bool) (w : W) :
    option (bool * W) :=
  match l with
  | [] => Some (ret, w)
  | (name, k) :: l =>
      if dots name then copy_entries copy from to l ret w
      else
        let sub_from := from ++ [slash] ++ name in
        let sub_to := to ++ [slash] ++ name in
        '(ok, w) ← (if bool_decide (k = Dir) then copy sub_from sub_to w else Some (CopyFile sub_from sub_to w));
        copy_entries copy from to l (ret && ok) w
  end.

(** [fuel]: the depth of directories; there is no end to it when a directory is
    copied into itself. *)
Fixpoint CopyDir (fuel : nat) (from to : path) (w : W) : option (bool * W) :=
  match fuel with
  | O => None
  | S fuel =>
      match readdir from w with
      | None => Some (false, w)
      | Some _ =>
          let '(ok, w) := EnsureDirectory to w in
          if ok then copy_entries (CopyDir fuel) from to (default [] (readdir from w)) true w else Some (false, w)
      end
  end.

Definition Copy (fuel : nat) (from to : path) (w : W) : option (bool * W) :=
  if DirectoryExists from w then CopyDir fuel from to w else Some (CopyFile from to w).

(** Copying a file.  If opening the target does not change what can be read
    of the source, the target has the source's content afterwards; if both are
    the same file, it is empty; the answer is true in both cases. *)
Theorem copy_file from to w w1 d :
  read from w = Some d → open_write to w = Some w1 →
  let '(ok, w') := CopyFile from to w in
  ok = true ∧ (read from w1 = Some d → read to w' = Some d) ∧
  (read from w1 = read to w1 → read to w' = Some []).
Proof.
  intros Hr Ho. unfold CopyFile. rewrite Hr, Ho. pose proof (open_write_law to w w1 Ho) as He. split_and!; [done| |].
  - intros ->. by apply put_law.
  - intros ->. rewrite He. by apply put_law.
Qed.

Lemma copy_entries_mono (copy copy' : path → path → W → option (bool * W)) from to l ret w r :
  (∀ f t w r, copy f t w = Some r → copy' f t w = Some r) →
  copy_entries copy from to l ret w = Some r → copy_entries copy' from to l ret w = Some r.
Proof.
  intros Hc. revert ret w. induction l as [|[name k] l IH]; intros ret w; cbn [copy_entries]; [done|].
  destruct (dots name); [apply IH|]. case_bool_decide.
  - destruct (copy _ _ w) as [[ok w1]|] eqn:E; [|done]. apply Hc in E. cbn in E |- *. rewrite E. apply IH.
  - cbn. destruct (CopyFile _ _ w) as [ok w1]. apply IH.
Qed.

(** More depth than needed changes nothing. *)
Lemma copy_dir_mono fuel from to w r : CopyDir fuel from to w = Some r → CopyDir (S fuel) from to w = Some r.
Proof.
  revert from to w r. induction fuel as [|fuel IH]; intros from to w r; [done|].
  cbn [CopyDir]. destruct (readdir from w); [|done]. destruct (EnsureDirectory to w) as [[] w1]; [|done].
  apply copy_entries_mono. intros f t w2 r2. apply IH.
Qed.
End files.
End Files.

(** ** Messages in files *)
Module ProtoFiles.
Section messages.
Context `{FileSystemLaws W} {M : Type}.

(** [TextFormat::Print] and [Parse], [SerializeToOstream] and
    [ParseFromIstream]; what a failure leaves. *)
Context (PrintText SerializeBinary : M → bool * list Z) (ParseText ParseBinary : list Z → M → bool * M).

Definition set_proto (out : M → bool * list Z) (m : M) (p : path) (w : W) : bool * W :=
  match open_write p w with
  | None => (false, w)
  | Some w => let '(ok, d) := out m in (ok, put p d w)
  end.
Definition SetProtoToASCIIFile := set_proto PrintText.
Definition SetProtoToBinaryFile := set_proto SerializeBinary.

Definition get_proto (parse : list Z → M → bool * M) (p : path) (m : M) (w : W) : bool * M :=
  match read p w with None => (false, m) | Some d => parse d m end.
Definition GetProtoFromASCIIFile := get_proto ParseText.
Definition GetProtoFromBinaryFile := get_proto ParseBinary.

Definition kBinExt : path := string_bytes ".bin".

(** [std::equal] from the ends; it reads the name as far as the extension agrees
    with it, also past its beginning: that is [None]. *)
Fixpoint equal_from (ext name : path) : option bool :=
  match ext, name with
  | [], _ => Some true
  | _, [] => None
  | c :: ext, c' :: name => if c =? c' then equal_from ext name else Some false
  end.
Definition is_bin (file_name : path) : option bool := equal_from (reverse kBinExt) (reverse file_name).

Definition GetProtoFromFile (file_name : path) (m : M) (w : W) : option (bool * M) :=
  bin ← is_bin file_name;
  let first := if bin : bool then GetProtoFromBinaryFile else GetProtoFromASCIIFile in
  let second := if bin : bool then GetProtoFromASCIIFile else GetProtoFromBinaryFile in
  let '(ok, m) := first file_name m w in
  Some (if ok : bool then (true, m) else second file_name m w).

Lemma equal_from_true ext name : equal_from ext name = Some true ↔ ext `prefix_of` name.
Proof.
  revert name. induction ext as [|c ext IH]; intros name; cbn; [split; [intros _; apply prefix_nil|done]|].
  destruct name as [|c' name]; [split; [done|by intros ?%prefix_nil_inv]|].
  destruct (Z.eqb_spec c c') as [-> |Hne].
  - rewrite IH. split; [apply prefix_cons|by intros ?%prefix_cons_inv_2].
  - split; [done|by intros ?%prefix_cons_inv_1].
Qed.

Lemma equal_from_none ext name : equal_from ext name = None ↔ name `prefix_of` ext ∧ name ≠ ext.
Proof.
  revert name. induction ext as [|c ext IH]; intros name; cbn.
  { split; [done|]. intros [->%prefix_nil_inv Hne]. done. }
  destruct name as [|c' name]; [split; [intros _; split; [apply prefix_nil|done]|done]|].
  destruct (Z.eqb_spec c c') as [-> |Hne].
  - rewrite IH. split; [intros [Hp Hn]; split; [by apply prefix_cons|congruence]|].
    intros [Hp Hn]. split; [by apply prefix_cons_inv_2 in Hp|congruence].
  - split; [done|]. intros [Hp _]. by apply prefix_cons_inv_1 in Hp.
Qed.

(** Which format is tried first, and that the test reads before the beginning
    of a name that is shorter than the extension and agrees with it: "", "n",
    "in" and "bin". *)
Theorem bin_extension file_name :
  (is_bin file_name = Some true ↔ kBinExt `suffix_of` file_name) ∧
  (is_bin file_name = None ↔ file_name `suffix_of` kBinExt ∧ file_name ≠ kBinExt).
Proof.
  unfold is_bin. rewrite equal_from_true, equal_from_none. split.
  - symmetry. apply suffix_prefix_reverse.
  - rewrite <- suffix_prefix_reverse. split; intros [Hs Hn]; (split; [done|congruence || by intros ?%(inj reverse)]).
Qed.

(** A message is read from the file it was written to: by the first parser
    if it was written in the format its name says, by the second if the first
    does not take it for its own; and what is neither is refused. *)
Theorem proto_file_roundtrip p m m0 w w' b :
  (∀ m m0 d, PrintText m = (true, d) → ParseText d m0 = (true, m)) →
  (∀ m m0 d, SerializeBinary m = (true, d) → ParseBinary d m0 = (true, m)) →
  is_bin p = Some b →
  ((if b then SetProtoToBinaryFile else SetProtoToASCIIFile) m p w = (true, w') → GetProtoFromFile p m0 w' = Some (true, m)) ∧
  ((if b then SetProtoToASCIIFile else SetProtoToBinaryFile) m p w = (true, w') →
     (∀ d m1, read p w' = Some d → ((if b then ParseBinary else ParseText) d m1).1 = false) →
     GetProtoFromFile p m0 w' = Some (true, m)).
Proof.
  intros Htext Hbin Hb.
  assert (∀ out parse, (∀ m m0 d, out m = (true, d) → parse d m0 = (true, m)) →
    set_proto out m p w = (true, w') → ∃ d, read p w' = Some d ∧ ∀ m1, get_proto parse p m1 w' = (true, m)) as Hset.
  { intros out parse Hrt. unfold set_proto. destruct (open_write p w) as [w1|] eqn:Ho; [|done].
    destruct (out m) as [ok d] eqn:Hout. intros [= -> <-]. pose proof (put_law p d w1 (open_write_law p w w1 Ho)) as Hr.
    exists d. split; [done|]. intros m1. unfold get_proto. rewrite Hr. by eapply Hrt. }
  unfold GetProtoFromFile. rewrite Hb. cbn [mbind option_bind].
  unfold GetProtoFromBinaryFile, GetProtoFromASCIIFile, SetProtoToBinaryFile, SetProtoToASCIIFile. split.
  - intros Hs. destruct b.
    + destruct (Hset _ _ Hbin Hs) as (d & _ & Hg). by rewrite Hg.
    + destruct (Hset _ _ Htext Hs) as (d & _ & Hg). by rewrite Hg.
  - intros Hs Hno. destruct b.
    + destruct (Hset _ _ Htext Hs) as (d & Hr & Hg). specialize (Hno d m0 Hr). unfold get_proto at 1. rewrite Hr.
      destruct (ParseBinary d m0) as [ok m1]. cbn in Hno. subst. by rewrite Hg.
    + destruct (Hset _ _ Hbin Hs) as (d & Hr & Hg). specialize (Hno d m0 Hr). unfold get_proto at 1. rewrite Hr.
      destruct (ParseText d m0) as [ok m1]. cbn in Hno. subst. by rewrite Hg.
Qed.
End messages.
End ProtoFiles.

(** ** A file system in memory *)
Module Tree.

(** Without links and without "..": the nodes below the root, by the names that
    lead to them. *)
Inductive node := NDir | NFile (d : list Z).
Abbreviation tree := (gmap (list path) node).

Fixpoint split (cur s : path) : list path :=
  match s with
  | [] => [cur]
  | c :: s => if c =? slash then cur :: split [] s else split (cur ++ [c]) s
  end.
Definition resolve (p : path) : list path := filter (λ c, c ≠ [] ∧ c ≠ [dot]) (split [] p).

Definition at_ (c : list path) (w : tree) : option node := match c with [] => Some NDir | _ => w !! c end.
Definition look (p : path) (w : tree) : option node := at_ (resolve p) w.
Definition kind_of (n : node) : kind := match n with NDir => Dir | NFile _ => Reg end.
Definition parent_dir (c : list path) (w : tree) : bool :=
  match at_ (take (pred (length c)) c) w with Some NDir => true | _ => false end.

Definition tree_entry (p : path) (w : tree) : option kind := kind_of <$> look p w.

Definition tree_mkdir (p : path) (w : tree) : made * tree :=
  match look p w with
  | Some _ => (Exists, w)
  | None => if parent_dir (resolve p) w then (Made, <[resolve p := NDir]> w) else (NotMade, w)
  end.

Definition tree_unlink (p : path) (w : tree) : bool * tree :=
  match look p w with Some (NFile _) => (true, delete (resolve p) w) | _ => (false, w) end.

(** The names one below [c]. *)
Definition child (c : list path) (x : list path * node) : option (path * kind) :=
  match reverse x.1 with n :: r => if bool_decide (reverse r = c) then Some (n, kind_of x.2) else None | [] => None end.
Definition tree_readdir (p : path) (w : tree) : option (list (path * kind)) :=
  match look p w with
  | Some NDir => Some (([dot], Dir) :: ([dot; dot], Dir) :: omap (child (resolve p)) (map_to_list w))
  | _ => None
  end.

Definition tree_read (p : path) (w : tree) : option (list Z) := match look p w with Some (NFile d) => Some d | _ => None end.
Definition tree_open_write (p : path) (w : tree) : option tree :=
  match look p w with
  | Some NDir => None
  | Some (NFile _) => Some (<[resolve p := NFile []]> w)
  | None => if parent_dir (resolve p) w then Some (<[resolve p := NFile []]> w) else None
  end.
Definition tree_put (p : path) (d : list Z) (w : tree) : tree :=
  match look p w with Some (NFile old) => <[resolve p := NFile (old ++ d)]> w | _ => w end.

#[export] Instance tree_fs : FileSystem tree := {
  entry := tree_entry; stat := tree_entry; mkdir := tree_mkdir; unlink := tree_unlink;
  readdir := tree_readdir; read := tree_read; open_write := tree_open_write; put := tree_put }.

Lemma at_insert c c' n w : c ≠ [] → at_ c' (<[c := n]> w) = if decide (c = c') then Some n else at_ c' w.
Proof. intros Hc. destruct c' as [|x c']; cbn; [by rewrite decide_False|]. rewrite lookup_insert. by case_decide. Qed.

Lemma at_delete c c' w : c ≠ [] → at_ c' (delete c w) = if decide (c = c') then None else at_ c' w.
Proof. intros Hc. destruct c' as [|x c']; cbn; [by rewrite decide_False|]. rewrite lookup_delete. by case_decide. Qed.

Lemma at_none (c : list path) (w : tree) : at_ c w = None → c ≠ [].
Proof. by destruct c. Qed.

Lemma at_file (c : list path) (w : tree) d : at_ c w = Some (NFile d) → c ≠ [].
Proof. by destruct c. Qed.

#[export] Instance tree_laws : FileSystemLaws tree.
Proof.
  split; cbn.
  - done.
  - intros p w. unfold tree_mkdir, tree_entry, look. destruct (at_ (resolve p) w) as [n|] eqn:E; [split; [done|by eexists]|].
    destruct (parent_dir (resolve p) w); [|done]. pose proof (at_none _ _ E) as Hne. split_and!.
    + done.
    + by rewrite at_insert, decide_True.
    + intros q k. rewrite at_insert by done. case_decide as Hq; [|done]. by rewrite <-Hq, E.
    + intros q Hq. rewrite at_insert by done. case_decide; [by right|by left].
  - intros p w. unfold tree_unlink, tree_entry, look. destruct (at_ (resolve p) w) as [[|d]|] eqn:E; [done| |done].
    pose proof (at_file _ _ _ E) as Hne. split_and!.
    + done.
    + by rewrite at_delete, decide_True.
    + intros q. rewrite at_delete by done. case_decide as Hq; [|done]. by rewrite <-Hq, E.
    + intros q. rewrite at_delete by done. by case_decide.
  - intros p w w'. unfold tree_open_write, tree_read, look. destruct (at_ (resolve p) w) as [[|d]|] eqn:E; [done| |].
    + intros [= <-]. by rewrite at_insert, decide_True by (done || by eapply at_file).
    + destruct (parent_dir (resolve p) w); [|done]. intros [= <-]. by rewrite at_insert, decide_True by (done || by eapply at_none).
  - intros p d w. unfold tree_put, tree_read, look. destruct (at_ (resolve p) w) as [[|old]|] eqn:E; [done| |done].
    intros [= ->]. by rewrite at_insert, decide_True by (done || by eapply at_file).
Qed.
End Tree.

(** ** Sample trees *)
Module FileSample.
Import Paths Directories Files ProtoFiles Tree.

Definition s (x : string) : path := string_bytes x.
Arguments s x%_string.

(** A file and a directory with two files and a directory between them. *)
Definition sample : tree :=
  list_to_map [([s "f"], NFile [1; 2]); ([s "d"], NDir); ([s "d"; s "a"], NFile [3]); ([s "d"; s "b"], NDir);
    ([s "d"; s "b"; s "x"], NFile [4]); ([s "d"; s "c"], NFile [5])].

Lemma ensure_directory_witness :
  let '(ok, w') := EnsureDirectory (s "/d/e/g") sample in
  ok = true ∧ DirectoryExists (s "/d/e") w' = true ∧ grows sample w'.
Proof.
  pose proof (ensure_directory (s "/d/e/g") sample) as Hs.
  destruct (EnsureDirectory (s "/d/e/g") sample) as [ok w'] eqn:E. destruct Hs as [Hg Hs].
  assert (fst (EnsureDirectory (s "/d/e/g") sample) = true) as Hok by (vm_compute; reflexivity). rewrite E in Hok. cbn in Hok. subst ok.
  split_and!; [done| |exact Hg]. apply (Hs eq_refl); [right; split; [done|]; by exists (s "g")|left; vm_compute; reflexivity].
Defined.

(** A file where the directory should be: the answer is true all the same. *)
Lemma ensure_directory_file :
  EnsureDirectory (s "/f") sample = (true, sample) ∧ DirectoryExists (s "/f") sample = false ∧
  (EnsureDirectory (s "/f/g") sample).1 = false.
Proof. split; [|split]; vm_compute; reflexivity. Qed.

Lemma remove_all_files_witness :
  let '(ok, w') := RemoveAllFiles (s "d") sample in
  ok = false ∧ entry (s "d/b") w' = Some Dir.
Proof.
  destruct (readdir (s "d") sample) as [l|] eqn:Hl; [|vm_compute in Hl; discriminate Hl].
  pose proof (remove_all_files (s "d") sample l Hl) as Hs.
  destruct (RemoveAllFiles (s "d") sample) as [ok w']. destruct Hs as (Hd & _ & Hf & _). split.
  - apply (Hf (s "b")); [|by vm_compute|by vm_compute]. vm_compute in Hl. injection Hl as <-. clear.
    apply list_elem_of_In. vm_compute. tauto.
  - apply Hd. by vm_compute.
Defined.

Lemma copy_file_witness :
  let '(ok, w') := CopyFile (s "f") (s "d/f") sample in ok = true ∧ read (s "d/f") w' = Some [1; 2].
Proof.
  assert (match open_write (s "d/f") sample with Some w => bool_decide (read (s "f") w = Some [1; 2]) | None => false end = true) as Hb
    by (vm_compute; reflexivity).
  destruct (open_write (s "d/f") sample) as [w1|] eqn:Ho; [|discriminate Hb]. apply bool_decide_eq_true in Hb.
  assert (read (s "f") sample = Some [1; 2]) as Hr by (vm_compute; reflexivity).
  pose proof (copy_file (s "f") (s "d/f") sample w1 [1; 2] Hr Ho) as Hs.
  destruct (CopyFile (s "f") (s "d/f") sample) as [ok w']. destruct Hs as (Hok & Hc & _). split; [exact Hok|].
  exact (Hc Hb).
Defined.

(** Onto itself, a file is emptied and the answer is true. *)
Lemma copy_file_self :
  let '(ok, w') := CopyFile (s "/f") (s "f") sample in ok = true ∧ read (s "f") w' = Some [].
Proof. by vm_compute. Qed.

(** A directory is copied with what is below it; into itself, without end. *)
Lemma copy_dir_sample :
  (let r := CopyDir 3 (s "d") (s "n/d") sample in
   (fst <$> r) = Some true ∧ (r ≫= λ x, read (s "n/d/b/x") x.2) = Some [4] ∧ (r ≫= λ x, read (s "n/d/c") x.2) = Some [5]) ∧
  CopyDir 9 (s "d") (s "d/b") sample = None.
Proof. by vm_compute. Qed.

(** Messages are numbers; a text is a 1 and the number, and a binary form a 2. *)
Definition print (tag m : Z) : bool * list Z := (true, [tag; m]).
Definition parse (tag : Z) (d : list Z) (m0 : Z) : bool * Z :=
  match d with [t; m] => if t =? tag then (true, m) else (false, 0) | _ => (false, 0) end.
Definition get_proto_file := GetProtoFromFile (parse 1) (parse 2).

Lemma proto_file_roundtrip_witness :
  let '(ok, w') := SetProtoToASCIIFile (print 1) 7 (s "d/m.bin") sample in
  ok = true ∧ get_proto_file (s "d/m.bin") 0 w' = Some (true, 7).
Proof.
  destruct (SetProtoToASCIIFile (print 1) 7 (s "d/m.bin") sample) as [ok w'] eqn:E.
  assert (fst (SetProtoToASCIIFile (print 1) 7 (s "d/m.bin") sample) = true) as Hok by (vm_compute; reflexivity).
  rewrite E in Hok. cbn in Hok. subst ok. split; [done|].
  refine (proj2 (proto_file_roundtrip (print 1) (print 2) (parse 1) (parse 2) (s "d/m.bin") 7 0 sample w' true _ _ _) E _).
  - intros m m0 d [= <-]. reflexivity.
  - intros m m0 d [= <-]. reflexivity.
  - vm_compute. reflexivity.
  - intros d m1 Hd. assert (w' = (SetProtoToASCIIFile (print 1) 7 (s "d/m.bin") sample).2) as -> by (by rewrite E).
    vm_compute in Hd. injection Hd as <-. reflexivity.
Defined.

(** Short names are read past their beginning. *)
Lemma short_names : is_bin (s "n") = None ∧ is_bin (s "bin") = None ∧ is_bin (s "a.bin") = Some true ∧ is_bin (s "a") = Some false.
Proof. by vm_compute. Qed.
End FileSample.
