(* ===== verification/GlobalInfo.v ===== *)
(** * What a process knows of itself ([cyber/common/global_data.cc])

    The constructor of [GlobalData] (host, configuration, process group, run
    mode) with its setters, and the configuration file of the scheduler.  The
    registries of names are in [Scheduler.GlobalData].  The environment, the
    interfaces of the host, [readlink] and the parsers of protobuf are
    arguments; files are those of [File.FileSystem]. *)

From S2P Require Import Prelude File Scheduler SchedulerConf.
Import Outcome Paths Directories ProtoFiles.

Local Open Scope Z_scope.
Local Open Scope cyber_scope.

Module GlobalInfo.

(** *** The host *)

(** An interface: its address if it has one, whether that is of [AF_INET], and
    its number if [getnameinfo] knows it. *)
Abbreviation interface := (option (bool * option path)).

Definition starts (ip : path) : path := substr 0 (Some 3%nat) ip.
Definition loopback : path := string_bytes "127".
Definition default_ip : path := string_bytes "127.0.0.1".

Fixpoint first_ip (l : list interface) : option path :=
  match l with
  | [] => None
  | Some (true, Some ip) :: l => if bool_decide (starts ip = loopback) then first_ip l else Some ip
  | _ :: l => first_ip l
  end.

(** The rest of [InitHostInfo], after [CYBER_IP]; [None]: [getifaddrs] fails. *)
Definition ip_of_interfaces (l : option (list interface)) : path := default default_ip (l ≫= first_ip).
Definition InitHostInfo (env : path → option path) (l : option (list interface)) : path :=
  match env (string_bytes "CYBER_IP") with
  | Some ip => if bool_decide (starts ip = loopback) then ip_of_interfaces l else ip
  | None => ip_of_interfaces l
  end.

(** The address of the host is the one in [CYBER_IP] unless that begins with
    127, else the first one of its interfaces that does not, else 127.0.0.1; the
    loop-back address is taken only if there is no other. *)
Theorem host_ip env l :
  (∀ ip, env (string_bytes "CYBER_IP") = Some ip → starts ip ≠ loopback → InitHostInfo env l = ip) ∧
  ((∀ ip, env (string_bytes "CYBER_IP") = Some ip → starts ip = loopback) →
     (∀ l1 ip l2, l = Some (l1 ++ Some (true, Some ip) :: l2) → starts ip ≠ loopback →
        (∀ ip', Some (true, Some ip') ∈ l1 → starts ip' = loopback) → InitHostInfo env l = ip) ∧
     (starts (InitHostInfo env l) = loopback → InitHostInfo env l = default_ip ∧
        ∀ ls ip, l = Some ls → Some (true, Some ip) ∈ ls → starts ip = loopback)).
Proof.
  unfold InitHostInfo. split.
  { intros ip -> Hip. by rewrite bool_decide_eq_false_2. }
  intros Henv. assert ((match env (string_bytes "CYBER_IP") with
    | Some ip => if bool_decide (starts ip = loopback) then ip_of_interfaces l else ip | None => ip_of_interfaces l end) = ip_of_interfaces l) as ->.
  { destruct (env _) as [ip|]; [|done]. by rewrite bool_decide_eq_true_2 by auto. }
  assert (∀ ls, match first_ip ls with Some ip => starts ip ≠ loopback | None => ∀ ip, Some (true, Some ip) ∈ ls → starts ip = loopback end) as Hfirst.
  { induction ls as [|x ls IH]; [by intros ip ?%elem_of_nil|].
    destruct (first_ip (x :: ls)) as [ip|] eqn:E; destruct x as [[[] [ip'|]]|]; cbn [first_ip] in E; try case_bool_decide;
      rewrite ?E in IH; try congruence; intros ip0 [Heq|Hin]%elem_of_cons; auto; congruence. }
  unfold ip_of_interfaces. split.
  - intros l1 ip l2 -> Hip Hl1. cbn. assert (first_ip (l1 ++ Some (true, Some ip) :: l2) = Some ip) as ->; [|done].
    induction l1 as [|[[[] [ip'|]]|] l1 IH]; cbn [app first_ip].
    + by rewrite bool_decide_eq_false_2.
    + rewrite bool_decide_eq_true_2; [|apply Hl1, elem_of_cons; by left]. apply IH. intros; apply Hl1, elem_of_cons; by right.
    + apply IH. intros; apply Hl1, elem_of_cons; by right.
    + apply IH. intros; apply Hl1, elem_of_cons; by right.
    + apply IH. intros; apply Hl1, elem_of_cons; by right.
    + apply IH. intros; apply Hl1, elem_of_cons; by right.
  - destruct l as [ls|]; cbn; [|by split]. specialize (Hfirst ls). destruct (first_ip ls) as [ip|]; cbn; [done|].
    intros _. split; [done|]. intros ls' ip [= <-]. apply Hfirst.
Qed.

(** *** The process *)

(** [readlink] gives at most [PATH_MAX] characters; the one after them is
    written, which is past the buffer if there are so many. *)
Definition PATH_MAX : nat := Z.to_nat 4096.
Definition program_path (exe : option path) : outcome (option path) :=
  match exe with
  | None => Done None
  | Some p => if (PATH_MAX <=? length p)%nat then Undefined else Done (Some p)
  end.

Definition underscore : path := string_bytes "_".
Definition process_group (prog_path : option path) (pid : Z) : path :=
  match prog_path with
  | Some p => GetFileName p false ++ underscore ++ Cpuset.decimal pid
  | None => string_bytes "cyber_default_" ++ Cpuset.decimal pid
  end.

(** The parts of [CyberConfig] that this library looks at. *)
Record config := mkconfig { cc_scheduler : option Construction.scheduler_conf; cc_simulation : option bool }.

Record t := mk {
  config_ : config;
  host_ip_ : path;
  host_name_ : path;
  process_id_ : Z;
  process_group_ : path;
  sched_name_ : path;
  is_reality_mode_ : bool;
}.

Definition SetProcessGroup (g : path) (s : t) : t :=
  mk (config_ s) (host_ip_ s) (host_name_ s) (process_id_ s) g (sched_name_ s) (is_reality_mode_ s).
Definition SetSchedName (n : path) (s : t) : t :=
  mk (config_ s) (host_ip_ s) (host_name_ s) (process_id_ s) (process_group_ s) n (is_reality_mode_ s).
Definition set_reality (b : bool) (s : t) : t :=
  mk (config_ s) (host_ip_ s) (host_name_ s) (process_id_ s) (process_group_ s) (sched_name_ s) b.
Definition EnableSimulationMode : t → t := set_reality false.
Definition DisableSimulationMode : t → t := set_reality true.

Section process.
Context `{FileSystemLaws W}.
Context (ParseText ParseBinary : list Z → config → bool * config).

(** A message in which nothing is set. *)
Definition no_config : config := mkconfig None None.

(** [GetProtoFromFile] into a new message. *)
Definition read_config (p : path) (w : W) : outcome (option config) :=
  match GetProtoFromFile ParseText ParseBinary p no_config w with
  | None => Undefined
  | Some (ok, m) => Done (if ok : bool then Some m else None)
  end.

(** What the constructor asks of the system. *)
Record host := mkhost {
  env : path → option path;
  hostname : path;
  interfaces : option (list interface);
  exe : option path;
  pid : Z;
}.

Definition config_path (h : host) : path := GetAbsolutePath (WorkRoot (env h)) (string_bytes "conf/cyber.pb.conf").

(** [CHECK] ends the process when the configuration cannot be read. *)
Definition GlobalData (h : host) (w : W) : outcome t :=
  let ip := InitHostInfo (env h) (interfaces h) in
  c ← read_config (config_path h) w;
  match c with
  | None => Exits
  | Some c =>
      prog ← program_path (exe h);
      let conf_mode := negb (bool_decide (cc_simulation c = Some true)) in
      let reality := if bool_decide (env h (string_bytes "CYBER_RUN_MODE") = Some (string_bytes "simulation")) then false else conf_mode in
      Done (mk c ip (hostname h) (pid h) (process_group prog (pid h)) (string_bytes "CYBER_DEFAULT") reality)
  end.

(** The file that both policies and the factory read, and what they get of it:
    [PathExists(cfg_file) && GetProtoFromFile(cfg_file, &cfg)]. *)
Definition cfg_file (h : host) (group : path) : path :=
  GetAbsolutePath (WorkRoot (env h)) (string_bytes "conf/" ++ group ++ string_bytes ".conf").
Definition scheduler_file (h : host) (group : path) (w : W) : outcome (option Construction.scheduler_conf) :=
  if PathExists (cfg_file h group) w then c ← read_config (cfg_file h group) w; Done (c ≫= cc_scheduler)
  else Done None.

(** *** Names that end in ".conf" are read as text first *)
Lemma is_bin_conf (p : path) : is_bin (p ++ string_bytes ".conf") = Some false.
Proof. unfold is_bin. rewrite reverse_app. reflexivity. Qed.

Lemma absolute_conf (prefix : path) (c : Z) (rel : path) :
  ∃ q, GetAbsolutePath prefix (c :: rel ++ string_bytes ".conf") = q ++ string_bytes ".conf".
Proof.
  cbn [GetAbsolutePath]. destruct (_ || _); [by exists (c :: rel)|]. case_bool_decide.
  - exists (prefix ++ c :: rel). by rewrite <-app_assoc.
  - exists (prefix ++ [slash] ++ c :: rel). by rewrite <-!app_assoc.
Qed.

(** The parser of texts, and if it refuses that of binaries. *)
Lemma read_config_text p w d :
  is_bin p = Some false → read p w = Some d →
  read_config p w = Done (if (ParseText d no_config).1 then Some (ParseText d no_config).2
                          else let '(ok, m) := ParseBinary d (ParseText d no_config).2 in if ok then Some m else None).
Proof.
  intros Hb Hr. unfold read_config, GetProtoFromFile. rewrite Hb. cbn [mbind option_bind].
  unfold GetProtoFromASCIIFile, GetProtoFromBinaryFile, get_proto. rewrite Hr.
  destruct (ParseText d no_config) as [[] m]; cbn; [done|]. by destruct (ParseBinary d m) as [[] m'].
Qed.

Lemma read_config_missing p w : is_bin p = Some false → read p w = None → read_config p w = Done None.
Proof.
  intros Hb Hr. unfold read_config, GetProtoFromFile. rewrite Hb. cbn [mbind option_bind].
  unfold GetProtoFromASCIIFile, GetProtoFromBinaryFile, get_proto. by rewrite Hr.
Qed.

Lemma config_path_text h : is_bin (config_path h) = Some false.
Proof.
  unfold config_path. change (string_bytes "conf/cyber.pb.conf") with (99 :: string_bytes "onf/cyber.pb" ++ string_bytes ".conf").
  destruct (absolute_conf (WorkRoot (env h)) 99 (string_bytes "onf/cyber.pb")) as [q ->]. apply is_bin_conf.
Qed.

Lemma cfg_file_text h group : is_bin (cfg_file h group) = Some false.
Proof.
  unfold cfg_file. change (string_bytes "conf/" ++ group ++ string_bytes ".conf") with (99 :: (string_bytes "onf/" ++ group ++ string_bytes ".conf")).
  rewrite (app_assoc (string_bytes "onf/")). destruct (absolute_conf (WorkRoot (env h)) 99 (string_bytes "onf/" ++ group)) as [q ->].
  apply is_bin_conf.
Qed.

(** Starting up.  The constructor does not return if the configuration is
    missing or refused by both parsers; otherwise, for an executable whose path
    fits its buffer, the process group is the last name of that path with the
    process id, and the mode is simulation exactly if the configuration or
    [CYBER_RUN_MODE] says so.  Neither file name is ever read past its
    beginning. *)
Theorem global_data_constructed h w :
  (read (config_path h) w = None → GlobalData h w = Exits) ∧
  (∀ d c, read (config_path h) w = Some d → ParseText d no_config = (true, c) →
     (∀ p, exe h = Some p → (length p < PATH_MAX)%nat) →
     ∃ s, GlobalData h w = Done s ∧ config_ s = c ∧ process_id_ s = pid h ∧
       (is_reality_mode_ s = false ↔ cc_simulation c = Some true ∨ env h (string_bytes "CYBER_RUN_MODE") = Some (string_bytes "simulation")) ∧
       (∀ p, exe h = Some p → ∃ name, process_group_ s = name ++ underscore ++ Cpuset.decimal (pid h) ∧ slash ∉ name ∧
          ∃ d', p = d' ++ name)) ∧
  (∀ group, ∃ file, scheduler_file h group w = Done file).
Proof.
  split_and!.
  - intros Hr. unfold GlobalData. by rewrite (read_config_missing _ w (config_path_text h) Hr).
  - intros d c Hr Hp Hexe. unfold GlobalData. rewrite (read_config_text _ w d (config_path_text h) Hr), Hp. cbn [fst snd mbind outcome_bind].
    assert (program_path (exe h) = Done (exe h)) as ->.
    { unfold program_path. destruct (exe h) as [p|]; [|done]. specialize (Hexe p eq_refl). by rewrite (proj2 (Nat.leb_gt _ _)). }
    cbn [mbind outcome_bind]. eexists. split; [done|]. cbn [config_ process_id_ is_reality_mode_ process_group_]. split_and!; [done|done| |].
    + repeat case_bool_decide; cbn; naive_solver.
    + intros p ->. cbn [process_group]. eexists. split; [done|]. destruct (path_split p) as (d' & n & -> & Hn & Hd' & _).
      rewrite (GetFileName_plain d' n Hn Hd'). split; [done|]. by exists d'.
  - intros group. unfold scheduler_file. destruct (PathExists _ w); [|by eexists].
    destruct (read (cfg_file h group) w) as [d|] eqn:Hr.
    + rewrite (read_config_text _ w d (cfg_file_text h group) Hr). cbn. by eexists.
    + rewrite (read_config_missing _ w (cfg_file_text h group) Hr). cbn. by eexists.
Qed.
End process.
End GlobalInfo.

(** ** A host *)
Module InfoSample.
Import GlobalInfo Tree.

Definition s (x : string) : path := string_bytes x.
Arguments s x%_string.

Definition no_env (_ : path) : option path := None.
Definition set_env (var value : string) (x : path) : option path := if bool_decide (x = s var) then Some (s value) else None.
Arguments set_env (var value)%_string x.

Definition eth : list interface :=
  [Some (true, Some (s "127.0.0.1")); None; Some (false, Some (s "::1")); Some (true, None); Some (true, Some (s "10.0.0.7"))].
Definition machine (e : path → option path) : host := mkhost e (s "pi") (Some eth) (Some (s "/usr/bin/talker")) 42.

(** One file, the configuration; a text of one character is the mode. *)
Definition files : tree :=
  list_to_map [([s "apollo"], NDir); ([s "apollo"; s "cyber"], NDir); ([s "apollo"; s "cyber"; s "conf"], NDir);
    ([s "apollo"; s "cyber"; s "conf"; s "cyber.pb.conf"], NFile [1])].
Definition text (d : list Z) (c : config) : bool * config :=
  match d with [b] => (true, mkconfig None (Some (b =? 1))) | _ => (false, no_config) end.
Definition binary (d : list Z) (c : config) : bool * config := (false, no_config).

Lemma host_ip_witness :
  InitHostInfo no_env (Some eth) = s "10.0.0.7" ∧ InitHostInfo (set_env "CYBER_IP" "127.0.0.1") None = default_ip ∧
  InitHostInfo (set_env "CYBER_IP" "192.168.1.2") (Some eth) = s "192.168.1.2".
Proof.
  split_and!.
  - refine (proj1 (proj2 (host_ip no_env (Some eth)) _) (take 4 eth) (s "10.0.0.7") [] _ _ _); [done|by vm_compute|by vm_compute|].
    intros ip Hin%list_elem_of_In. vm_compute in Hin.
    repeat (destruct Hin as [Heq|Hin]; [try discriminate Heq; injection Heq as <-; reflexivity|]). done.
  - by vm_compute.
  - apply (proj1 (host_ip (set_env "CYBER_IP" "192.168.1.2") (Some eth))); [by vm_compute|by vm_compute].
Defined.

(** A variable that is set to nothing is taken for the address. *)
Lemma host_ip_empty : InitHostInfo (set_env "CYBER_IP" "") (Some eth) = [].
Proof. by vm_compute. Qed.

Lemma global_data_constructed_witness :
  ∃ g, GlobalData text binary (machine no_env) files = Done g ∧ is_reality_mode_ g = false ∧
    process_group_ g = s "talker_42" ∧ scheduler_file text binary (machine no_env) (process_group_ g) files = Done None ∧
    GlobalData text binary (machine (set_env "CYBER_PATH" "/opt")) files = Exits.
Proof.
  destruct (global_data_constructed text binary (machine no_env) files) as (_ & Hc & _).
  destruct (Hc [1] (mkconfig None (Some true))) as (g & Hg & _ & _ & Hmode & _).
  - vm_compute. reflexivity.
  - reflexivity.
  - intros p [= <-]. apply Nat.ltb_lt. vm_compute. reflexivity.
  - exists g. split; [exact Hg|]. split; [apply Hmode; by left|].
    assert ((g ← GlobalData text binary (machine no_env) files; Done (process_group_ g)) = Done (s "talker_42")) as Hp by (vm_compute; reflexivity).
    rewrite Hg in Hp. cbn [mbind outcome_bind] in Hp. apply (f_equal (λ x, match x with Done y => y | _ => [] end)) in Hp. cbn beta iota in Hp.
    rewrite Hp. split_and!; [vm_compute; reflexivity|vm_compute; reflexivity|].
    apply (proj1 (global_data_constructed text binary (machine (set_env "CYBER_PATH" "/opt")) files)). vm_compute. reflexivity.
Defined.
End InfoSample.
