(* ===== verification/ProtoFactory.v ===== *)
(** * Message types from descriptors ([cyber/message/protobuf_factory.cc])

    A process sends the descriptors of its message types along, with the files
    they import; a process that has not been built with them registers them in a
    pool and makes messages of these types.  Protobuf is an interface,
    [Protobuf], with what its documentation says of descriptor pools as
    [ProtobufLaws]. *)

From S2P Require Import Prelude.

Local Open Scope cyber_scope.

(** ** Protobuf *)

(** A file's descriptor: the message that describes it, and the descriptors of
    the files it imports. *)
Inductive descriptor (F : Type) := FileDescriptor (proto : F) (dependencies : list (descriptor F)).
Arguments FileDescriptor {F} proto dependencies.

Definition CopyTo {F} (d : descriptor F) : F := match d with FileDescriptor f _ => f end.

(** [ProtoDesc] of [proto_desc.proto]. *)
Inductive ProtoDesc := mkProtoDesc (desc : list Z) (dependencies : list ProtoDesc).

(** [F]: [FileDescriptorProto]; [P]: [DescriptorPool]; [files]: what a pool
    holds, by name; [find]: [FindMessageTypeByName], the file of a type. *)
Class Protobuf (F P : Type) := {
  fp_name : F → string;
  fp_imports : F → list string;
  fp_types : F → list string;
  links : F → list F → Prop;
  serialize : F → option (list Z);
  parse : list Z → bool * F;
  serialize_desc : ProtoDesc → option (list Z);
  parse_desc : list Z → bool * ProtoDesc;
  files : P → gmap string F;
  BuildFile : F → P → bool * P;
  find : string → P → option (descriptor F);
}.

Section trees.
Context {F P : Type} `{Protobuf F P}.

(** A file of a descriptor. *)
Inductive holds : descriptor F → F → Prop :=
| holds_here f ds : holds (FileDescriptor f ds) f
| holds_below f ds d g : d ∈ ds → holds d g → holds (FileDescriptor f ds) g.

(** A descriptor as a pool makes it: what it imports is there, by name, and it
    has been linked to it. *)
Inductive linked : descriptor F → Prop :=
| linked_file f ds :
    fp_imports f = (λ d, fp_name (CopyTo d)) <$> ds → links f (CopyTo <$> ds) → Forall linked ds →
    linked (FileDescriptor f ds).

(** Files that can be in one pool. *)
Definition coherent (u : F → Prop) : Prop :=
  ∀ f g, u f → u g → fp_name f = fp_name g ∨ (∃ t, t ∈ fp_types f ∧ t ∈ fp_types g) → f = g.
End trees.

(** A file is built if the files it imports are in the pool, it links to them and
    nothing in the pool has its name or its types; building it again changes
    nothing; a failure neither. *)
Class ProtobufLaws (F P : Type) `{Protobuf F P} := {
  parse_serialize f s : serialize f = Some s → parse s = (true, f);
  parse_serialize_desc d s : serialize_desc d = Some s → parse_desc s = (true, d);
  files_named p n f : files p !! n = Some f → fp_name f = n;
  build_new f gs p :
    fp_imports f = fp_name <$> gs → Forall (λ g, files p !! fp_name g = Some g) gs → links f gs →
    files p !! fp_name f = None →
    (∀ n g t, files p !! n = Some g → t ∈ fp_types g → t ∉ fp_types f) →
    ∃ p', BuildFile f p = (true, p') ∧ files p' = <[fp_name f := f]> (files p);
  build_same f p : files p !! fp_name f = Some f → ∃ p', BuildFile f p = (true, p') ∧ files p' = files p;
  build_fails f p p' : BuildFile f p = (false, p') → files p' = files p;
  find_known t p n f : files p !! n = Some f → t ∈ fp_types f → is_Some (find t p);
}.

Module ProtobufFactory.
Section factory.
Context {F P : Type} `{ProtobufLaws F P}.

(** *** Registering *)

(** Whether the message could be parsed is not looked at. *)
Definition register_string (s : list Z) (p : P) : bool * P := BuildFile (parse s).2 p.
Definition RegisterPythonMessage := register_string.

(** [RegisterMessage(const Descriptor&)]: the file alone. *)
Definition register_descriptor (d : descriptor F) (p : P) : bool * P := BuildFile (CopyTo d) p.

(** [RegisterMessage(const ProtoDesc&)]: the dependencies first. *)
Fixpoint register_desc (d : ProtoDesc) (p : P) : bool * P :=
  match d with
  | mkProtoDesc desc deps =>
      let '(ok, p) := (fix loop (l : list ProtoDesc) (p : P) : bool * P :=
                         match l with
                         | [] => (true, p)
                         | d :: l => let '(ok, p) := register_desc d p in if ok then loop l p else (false, p)
                         end) deps p in
      if ok then register_string desc p else (false, p)
  end.

(** The loop by itself. *)
Fixpoint register_all (l : list ProtoDesc) (p : P) : bool * P :=
  match l with
  | [] => (true, p)
  | d :: l => let '(ok, p) := register_desc d p in if ok then register_all l p else (false, p)
  end.

Lemma register_desc_eq desc deps p :
  register_desc (mkProtoDesc desc deps) p =
  let '(ok, p) := register_all deps p in if ok then register_string desc p else (false, p).
Proof.
  cbn [register_desc]. assert (∀ l p, (fix loop (l : list ProtoDesc) (p : P) : bool * P :=
    match l with [] => (true, p) | d :: l => let '(ok, p) := register_desc d p in if ok then loop l p else (false, p) end) l p =
    register_all l p) as ->; [|done].
  clear. intros l. induction l as [|d l IH]; intros p; cbn; [done|]. destruct (register_desc d p) as [[] p']; [apply IH|done].
Qed.

Definition RegisterMessage (s : list Z) (p : P) : bool * P := register_desc (parse_desc s).2 p.

(** *** Describing *)
Fixpoint GetProtoDesc (d : descriptor F) : option ProtoDesc :=
  match d with
  | FileDescriptor f ds => s ← serialize f; l ← mapM GetProtoDesc ds; Some (mkProtoDesc s l)
  end.

(** [GetDescriptorString] of a descriptor; [None]: the string is left alone. *)
Definition descriptor_string (d : descriptor F) : option (list Z) := GetProtoDesc d ≫= serialize_desc.

(** By name: the types the process was built with, [generated], then those that
    were registered. *)
Definition GetDescriptorString (generated : string → option (descriptor F)) (type : string) (p : P) : option (list Z) :=
  match generated type with
  | Some d => descriptor_string d
  | None => find type p ≫= descriptor_string
  end.

(** [GenerateMessageByType]: the descriptor the new message has;
    [generated_prototype], [prototype]: do the two factories have one for it? *)
Definition GetMessageByGeneratedType (generated : string → option (descriptor F)) (generated_prototype : descriptor F → bool) (type : string) :
    option (descriptor F) :=
  d ← generated type; if generated_prototype d then Some d else None.

Definition GenerateMessageByType (generated : string → option (descriptor F)) (generated_prototype prototype : descriptor F → bool)
    (type : string) (p : P) : option (descriptor F) :=
  match GetMessageByGeneratedType generated generated_prototype type with
  | Some d => Some d
  | None => d ← find type p; if prototype d then Some d else None
  end.

(** *** Induction on descriptors *)
Lemma descriptor_induction (Q : descriptor F → Prop) :
  (∀ f ds, Forall Q ds → Q (FileDescriptor f ds)) → ∀ d, Q d.
Proof.
  intros IH. fix rec 1. intros [f ds]. apply IH. induction ds as [|d ds IHds]; constructor; [apply rec|exact IHds].
Qed.

Lemma holds_self (d : descriptor F) : holds d (CopyTo d).
Proof. destruct d. constructor. Qed.

(** What registering the files [u'] leads to, all of them and the pool's being
    among the coherent files [u]. *)
Record added (u u' : F → Prop) (p p' : P) : Prop := {
  ad_old : files p ⊆ files p';
  ad_new f : u' f → files p' !! fp_name f = Some f;
  ad_all n f : files p' !! n = Some f → u f;
  ad_only n f : files p' !! n = Some f → files p !! n = Some f ∨ u' f;
}.

Definition pool_in (u : F → Prop) (p : P) : Prop := ∀ n f, files p !! n = Some f → u f.

Lemma register_file_added u f gs p :
  coherent u → pool_in u p → u f → fp_imports f = fp_name <$> gs → links f gs →
  Forall (λ g, files p !! fp_name g = Some g) gs →
  ∃ p', BuildFile f p = (true, p') ∧ added u (eq f) p p'.
Proof.
  intros Hu Hp Hf Hi Hl Hgs. destruct (files p !! fp_name f) as [g|] eqn:E.
  - assert (g = f) as -> by (apply Hu; [by eapply Hp|done|left; by eapply files_named]).
    destruct (build_same f p E) as (p' & Hb & Hfs). exists p'. split; [done|]. split.
    + by rewrite Hfs.
    + intros f' <-. by rewrite Hfs.
    + intros n g. rewrite Hfs. apply Hp.
    + intros n g. rewrite Hfs. by left.
  - destruct (build_new f gs p Hi Hgs Hl E) as (p' & Hb & Hfs).
    { intros n g t Hg Ht Ht'. assert (g = f) as -> by (apply Hu; [by eapply Hp|done|right; by exists t]).
      pose proof (files_named p n f Hg) as <-. congruence. }
    exists p'. split; [done|]. split.
    + rewrite Hfs. by apply insert_subseteq.
    + intros f' <-. by rewrite Hfs, lookup_insert_eq.
    + intros n g. rewrite Hfs, lookup_insert. case_decide; [by intros [= <-]|by apply Hp].
    + intros n g. rewrite Hfs, lookup_insert. case_decide; [intros [= <-]; by right|by left].
Qed.

Lemma added_trans u u1 u2 p1 p2 p3 : added u u1 p1 p2 → added u u2 p2 p3 → added u (λ f, u1 f ∨ u2 f) p1 p3.
Proof.
  intros [Ho Hn Ha Hw] [Ho' Hn' Ha' Hw']. split; [by etrans| |done|].
  - intros f [Hf|Hf]; [|by apply Hn']. eapply lookup_weaken; [by apply Hn|done].
  - intros n f Hf. destruct (Hw' n f Hf) as [Hf'|]; [|by auto]. destruct (Hw n f Hf'); auto.
Qed.

Lemma added_ext u u1 u2 p p' : (∀ f, u1 f ↔ u2 f) → added u u1 p p' → added u u2 p p'.
Proof. intros Heq [Ho Hn Ha Hw]. split; [done| |done|]; [intros f Hf; apply Hn; by apply Heq|]. intros n f Hf. rewrite <- Heq. auto. Qed.

Lemma register_desc_added u d : ∀ pd p,
  coherent u → (∀ f, holds d f → u f) → linked d → pool_in u p → GetProtoDesc d = Some pd →
  ∃ p', register_desc pd p = (true, p') ∧ added u (holds d) p p'.
Proof.
  induction d as [f ds IH] using descriptor_induction. intros pd p Hu Hholds Hlink Hp Hpd.
  inversion Hlink as [f' ds' Hi Hl Hds]; subst. cbn in Hpd. destruct (serialize f) as [s|] eqn:Es; [|done]. cbn in Hpd.
  destruct (mapM GetProtoDesc ds) as [pds|] eqn:Em; [|done]. cbn in Hpd. injection Hpd as <-. rewrite register_desc_eq.
  assert (∃ p1, register_all pds p = (true, p1) ∧ added u (λ g, ∃ d, d ∈ ds ∧ holds d g) p p1) as (p1 & E1 & Ha1).
  { assert (∀ d g, d ∈ ds → holds d g → u g) as Hsub by (intros d g Hd Hg; apply Hholds; by econstructor).
    clear Hholds Hlink Hi Hl Es. revert pds p Em Hp. induction ds as [|d ds IHds]; intros pds p Em Hp; cbn in Em.
    - injection Em as <-. exists p. split; [done|]. split; [done| |done|by left]. intros g (d & Hd & _). by apply elem_of_nil in Hd.
    - destruct (GetProtoDesc d) as [pd|] eqn:Ed; [|done]. cbn in Em. destruct (mapM GetProtoDesc ds) as [pds'|]; [|done].
      cbn in Em. injection Em as <-. apply Forall_cons in IH as [IHd IH]. apply Forall_cons in Hds as [Hd Hds].
      destruct (IHd pd p Hu) as (p1 & E1 & Ha1); [|done|done|done|].
      { intros g Hg. apply (Hsub d g); [apply elem_of_cons; by left|done]. }
      destruct (IHds IH Hds) with (pds := pds') (p := p1) as (p2 & E2 & Ha2); [|done|exact (ad_all _ _ _ _ Ha1)|].
      { intros d' g Hd' Hg. apply (Hsub d' g); [apply elem_of_cons; by right|done]. }
      exists p2. cbn [register_all]. rewrite E1. split; [done|]. eapply added_ext; [|by eapply added_trans].
      intros g. cbn. setoid_rewrite elem_of_cons. split; [intros [Hg|(d' & ? & ?)]; eauto|].
      intros (d' & [-> |Hin] & Hg); [by left|right; eauto]. }
  rewrite E1. unfold register_string. rewrite (parse_serialize f s Es). cbn [snd].
  destruct (register_file_added u f (CopyTo <$> ds) p1 Hu (ad_all _ _ _ _ Ha1)) as (p2 & E2 & Ha2).
  - apply Hholds. constructor.
  - rewrite Hi, <- list_fmap_compose. done.
  - done.
  - apply Forall_fmap, Forall_forall. intros d Hd. apply (ad_new _ _ _ _ Ha1). exists d. split; [done|apply holds_self].
  - exists p2. split; [done|]. eapply added_ext; [|by eapply added_trans]. intros g. cbn. split.
    + intros [(d & Hd & Hg)| <-]; [by econstructor|constructor].
    + inversion 1; subst; [by right|left; eauto].
Qed.

(** C18: what one process describes another can make.  If the description that a
    process gives of a type, registered or built in, is registered in any pool
    whose files do not contradict it, then registering succeeds, what the pool
    held is still there, every file of the description is in it and nothing
    else, and messages of the type, and of every other type of these files, can
    be made if the factories have their prototypes. *)
Theorem descriptor_roundtrip generated generated' type p q d s u :
  (generated type = Some d ∨ generated type = None ∧ find type p = Some d) → linked d → GetDescriptorString generated type p = Some s →
  coherent u → (∀ f, holds d f → u f) → pool_in u q →
  ∃ q', RegisterMessage s q = (true, q') ∧ files q ⊆ files q' ∧
    (∀ n f, files q' !! n = Some f → files q !! n = Some f ∨ holds d f) ∧
    ∀ f t, holds d f → t ∈ fp_types f → is_Some (GenerateMessageByType generated' (λ _, true) (λ _, true) t q').
Proof.
  intros Hg Hlink Hs Hu Hholds Hq.
  assert (descriptor_string d = Some s) as Hd.
  { unfold GetDescriptorString in Hs. destruct Hg as [Hg|[Hg Hf]]; rewrite Hg in Hs; [done|by rewrite Hf in Hs]. }
  unfold descriptor_string in Hd. destruct (GetProtoDesc d) as [pd|] eqn:Epd; [|done]. cbn in Hd.
  destruct (register_desc_added u d pd q Hu Hholds Hlink Hq Epd) as (q' & E & Ha).
  exists q'. unfold RegisterMessage. rewrite (parse_serialize_desc pd s Hd). split_and!; [done|apply Ha|apply Ha|].
  intros f t Hf Ht. unfold GenerateMessageByType, GetMessageByGeneratedType. destruct (generated' t); cbn; [by eexists|].
  destruct (find_known t q' (fp_name f) f) as [d' ->]; [by apply (ad_new _ _ _ _ Ha)|done|]. by eexists.
Qed.

(** ** Shared imports *)

(** How many files a description has, one counted as often as it is written. *)
Fixpoint desc_size (d : ProtoDesc) : nat :=
  match d with mkProtoDesc _ deps => S (foldr (λ d n, desc_size d + n)%nat 0%nat deps) end.

(** A file that imports two that import the same, [n] times. *)
Fixpoint diamonds (name : string → F) (n : nat) : descriptor F :=
  match n with
  | O => FileDescriptor (name "base"%string) []
  | S n =>
      let below := diamonds name n in
      FileDescriptor (name "top"%string)
        [FileDescriptor (name "left"%string) [below]; FileDescriptor (name "right"%string) [below]]
  end.

(** A file that is imported on several ways is described once for each of
    them: [n] diamonds on top of each other, which are [3 * n + 1] files, are
    [2 ^ (n + 2) - 3] descriptions. *)
Theorem shared_imports name n pd : GetProtoDesc (diamonds name n) = Some pd → (desc_size pd + 3 = 2 ^ (n + 2))%nat.
Proof.
  revert pd. induction n as [|n IH]; intros pd; cbn [diamonds GetProtoDesc].
  - destruct (serialize (name _)); [|done]. by intros [= <-].
  - destruct (serialize (name "top"%string)) as [top|]; [|done]. cbn.
    destruct (serialize (name "left"%string)) as [left|]; cbn; [|done].
    destruct (GetProtoDesc (diamonds name n)) as [below|]; cbn; [|done]. specialize (IH below eq_refl).
    destruct (serialize (name "right"%string)) as [right|]; cbn; [|done]. intros [= <-]. cbn [desc_size foldr].
    change (2 ^ (S n + 2))%nat with (2 * 2 ^ (n + 2))%nat. lia.
Qed.
End factory.
End ProtobufFactory.

(** ** An instance: files with their names, imports and types *)
Module Demo.

Record file := mkfile { f_name : string; f_imports : list string; f_types : list string }.
#[export] Instance file_eq_dec : EqDecision file.
Proof. solve_decision. Defined.

Definition of_file (f : file) : string * list string * list string := (f_name f, f_imports f, f_types f).
Definition to_file (x : string * list string * list string) : file := mkfile x.1.1 x.1.2 x.2.

Definition empty_file : file := mkfile "" [] [].
Definition demo_serialize (f : file) : option (list Z) := Some [Zpos (encode (of_file f))].
Definition demo_parse (s : list Z) : bool * file :=
  match s with
  | [Zpos c] => match decode c with Some x => (true, to_file x) | None => (false, empty_file) end
  | _ => (false, empty_file)
  end.

Fixpoint of_desc (d : ProtoDesc) : gen_tree (list Z) :=
  match d with mkProtoDesc s l => GenNode 0 (GenLeaf s :: (of_desc <$> l)) end.
Fixpoint to_desc (t : gen_tree (list Z)) : ProtoDesc :=
  match t with
  | GenNode _ (GenLeaf s :: l) => mkProtoDesc s (to_desc <$> l)
  | _ => mkProtoDesc [] []
  end.
Definition demo_serialize_desc (d : ProtoDesc) : option (list Z) := Some [Zpos (encode (of_desc d))].
Definition demo_parse_desc (s : list Z) : bool * ProtoDesc :=
  match s with
  | [Zpos c] => match decode c with Some t => (true, to_desc t) | None => (false, mkProtoDesc [] []) end
  | _ => (false, mkProtoDesc [] [])
  end.

Lemma to_of_desc d : to_desc (of_desc d) = d.
Proof.
  revert d. fix rec 1. intros [s l]. cbn. f_equal. induction l as [|d l IH]; cbn; [done|]. by rewrite rec, IH.
Qed.

Abbreviation pool := (list (descriptor file)).

#[export] Instance shared_dec (l l' : list string) : Decision (∃ t, t ∈ l ∧ t ∈ l').
Proof.
  destruct (decide (Exists (λ t, t ∈ l') l)) as [H|H]; rewrite Exists_exists in H; [by left|by right].
Defined.

Definition entry_of (d : descriptor file) : string * file := (f_name (CopyTo d), CopyTo d).
Definition demo_files (p : pool) : gmap string file := list_to_map (entry_of <$> p).
Fixpoint get (n : string) (p : pool) : option (descriptor file) :=
  match p with [] => None | d :: p => if bool_decide (f_name (CopyTo d) = n) then Some d else get n p end.
Definition clash (f : file) (d : descriptor file) : bool := bool_decide (∃ t, t ∈ f_types (CopyTo d) ∧ t ∈ f_types f).

(** A file of the pool, not one that another hides. *)
Definition visible (p : pool) (d : descriptor file) : bool :=
  bool_decide (CopyTo <$> get (f_name (CopyTo d)) p = Some (CopyTo d)).

Definition demo_build (f : file) (p : pool) : bool * pool :=
  match get (f_name f) p with
  | Some d => (bool_decide (CopyTo d = f), p)
  | None =>
      match mapM (λ i, get i p) (f_imports f) with
      | Some ds => if existsb (λ d, visible p d && clash f d) p then (false, p) else (true, FileDescriptor f ds :: p)
      | None => (false, p)
      end
  end.
Fixpoint demo_find (t : string) (p : pool) : option (descriptor file) :=
  match p with [] => None | d :: p => if bool_decide (t ∈ f_types (CopyTo d)) then Some d else demo_find t p end.

#[export] Instance demo_protobuf : Protobuf file pool := {
  fp_name := f_name; fp_imports := f_imports; fp_types := f_types; links := λ _ _, True;
  serialize := demo_serialize; parse := demo_parse; serialize_desc := demo_serialize_desc; parse_desc := demo_parse_desc;
  files := demo_files; BuildFile := demo_build; find := demo_find }.

Lemma files_get n p : demo_files p !! n = CopyTo <$> get n p.
Proof.
  unfold demo_files. induction p as [|d p IH]; cbn; [apply lookup_empty|]. rewrite lookup_insert.
  case_decide as Hn; case_bool_decide; [done|congruence|congruence|exact IH].
Qed.

Lemma get_in n p d : get n p = Some d → d ∈ p ∧ f_name (CopyTo d) = n.
Proof.
  induction p as [|d' p IH]; cbn; [done|]. case_bool_decide.
  - intros [= ->]. split; [|done]. apply elem_of_cons. by left.
  - intros Hd. destruct (IH Hd). split; [|done]. apply elem_of_cons. by right.
Qed.

#[export] Instance demo_laws : ProtobufLaws file pool.
Proof.
  split; cbn.
  - intros f s [= <-]. cbn. rewrite decode_encode. by destruct f.
  - intros d s [= <-]. cbn. by rewrite decode_encode, to_of_desc.
  - intros p n f. rewrite files_get. destruct (get n p) as [d|] eqn:E; [|done]. intros [= <-]. by apply get_in in E as [_ ?].
  - intros f gs p Hi Hgs _ Hnone Hclash. rewrite files_get in Hnone. unfold demo_build.
    destruct (get (f_name f) p) eqn:E; [done|]. rewrite Hi.
    assert (∃ ds, mapM (λ i, get i p) (f_name <$> gs) = Some ds) as [ds ->].
    { clear Hi. induction Hgs as [|g gs Hg _ IH]; [by eexists|]. destruct IH as [ds IH]. rewrite files_get in Hg.
      destruct (get (f_name g) p) as [d|] eqn:Eg; [|done]. exists (d :: ds). cbn. rewrite Eg. cbn. by rewrite IH. }
    assert (existsb (λ d, visible p d && clash f d) p = false) as ->.
    { apply not_true_iff_false. intros (d & _ & [Hv%bool_decide_eq_true (t & Ht & Ht')%bool_decide_eq_true]%andb_true_iff)%existsb_exists.
      by eapply (Hclash _ (CopyTo d) t); [rewrite files_get|..]. }
    eexists. split; [done|]. unfold demo_files. reflexivity.
  - intros f p. rewrite files_get. unfold demo_build. destruct (get (f_name f) p) as [d|]; [|done]. intros [= <-].
    exists p. by rewrite bool_decide_eq_true_2.
  - intros f p p'. unfold demo_build. destruct (get (f_name f) p); [by intros [= _ <-]|].
    destruct (mapM _ _); [|by intros [= <-]]. destruct (existsb _ p); [by intros [= <-]|done].
  - intros t p n f. rewrite files_get. destruct (get n p) as [d|] eqn:E; [|done]. intros [= <-] Ht. apply get_in in E as [Hd _].
    induction p as [|d' p IH]; cbn; [by apply elem_of_nil in Hd|]. case_bool_decide; [by eexists|].
    apply elem_of_cons in Hd as [-> |Hd]; [done|auto].
Qed.

(** A message type in a file that imports another. *)
Definition base : file := mkfile "base.proto" [] ["Header"].
Definition chatter : file := mkfile "chatter.proto" ["base.proto"] ["Chatter"].
Definition sender : pool := (demo_build chatter (demo_build base []).2).2.
Definition described : descriptor file := FileDescriptor chatter [FileDescriptor base []].

Lemma demo_coherent : coherent (λ f, f = base ∨ f = chatter).
Proof.
  intros f g [-> | ->] [-> | ->] [Hn|(t & Ht & Ht')]; try done.
  - apply list_elem_of_singleton in Ht as ->. by apply list_elem_of_singleton in Ht'.
  - apply list_elem_of_singleton in Ht as ->. by apply list_elem_of_singleton in Ht'.
Qed.

Lemma descriptor_roundtrip_witness :
  ∃ s q, ProtobufFactory.GetDescriptorString (λ _, None) "Chatter" sender = Some s ∧
    ProtobufFactory.RegisterMessage s [] = (true, q) ∧
    is_Some (ProtobufFactory.GenerateMessageByType (λ _, None) (λ _, true) (λ _, true) "Header" q).
Proof.
  destruct (ProtobufFactory.GetDescriptorString (λ _, None) "Chatter" sender) as [s|] eqn:E; [|discriminate E].
  assert (linked described) as Hl.
  { constructor; [done|done|]. constructor; [constructor; [done|done|constructor]|constructor]. }
  assert (∀ f, holds described f → f = base ∨ f = chatter) as Hh.
  { intros f Hf. inversion Hf as [|f0 ds0 d0 g0 Hd Hg]; subst; [by right|]. apply list_elem_of_singleton in Hd as ->.
    inversion Hg as [|f1 ds1 d1 g1 Hd1]; subst; [by left|]. by apply elem_of_nil in Hd1. }
  destruct (ProtobufFactory.descriptor_roundtrip (λ _, None) (λ _, None) "Chatter" sender [] described s (λ f, f = base ∨ f = chatter))
    as (q & Hq & _ & _ & Hall); [right; split; reflexivity|exact Hl|exact E|exact demo_coherent|exact Hh|by intros n f Hf; discriminate Hf|].
  exists s, q. split_and!; [done|exact Hq|]. apply (Hall base "Header").
  - apply (holds_below _ _ (FileDescriptor base [])); [by apply list_elem_of_singleton|constructor].
  - by apply list_elem_of_singleton.
Defined.

Lemma shared_imports_witness :
  ∃ pd, ProtobufFactory.GetProtoDesc (ProtobufFactory.diamonds (λ n, mkfile n [] []) 3) = Some pd ∧
    (ProtobufFactory.desc_size pd + 3 = 2 ^ 5)%nat.
Proof.
  destruct (ProtobufFactory.GetProtoDesc (ProtobufFactory.diamonds (λ n, mkfile n [] []) 3)) as [pd|] eqn:E; [|discriminate E].
  exists pd. split; [done|]. exact (ProtobufFactory.shared_imports (λ n, mkfile n [] []) 3 pd E).
Defined.
End Demo.
