(* ===== verification/Rtps.v ===== *)
(** * Quality of service and the participant ([cyber/transport/qos/],
    [cyber/transport/rtps/attributes_filler.cc], [participant.cc])

    [Qos]: the profiles of the runtime and the attributes that publishers and
    subscribers get of them.  [Participant]: the participant of Fast-RTPS, made
    when it is first asked for.  The types of Fast-RTPS are records of the fields
    that the code sets; what Fast-RTPS answers is an argument. *)

From S2P Require Import Prelude Message SchedulerConf.

Local Open Scope Z_scope.
Local Open Scope cyber_scope.

Module Qos.

Inductive QosReliabilityPolicy := RELIABILITY_SYSTEM_DEFAULT | RELIABILITY_RELIABLE | RELIABILITY_BEST_EFFORT.

(** [QosProfile] of [qos_profile.proto]. *)
Record t := mk {
  history : History.QosHistoryPolicy;
  depth : Z;
  mps : Z;
  reliability : QosReliabilityPolicy;
  durability : RoleAttributes.QosDurabilityPolicy;
}.

(** What the rest of the transport looks at. *)
Definition to_role (q : t) : RoleAttributes.QosProfile := RoleAttributes.qos (history q) (depth q) (durability q).

(** ** [QosProfileConf] *)
Definition CreateQosProfile := mk.
Definition QOS_HISTORY_DEPTH_SYSTEM_DEFAULT : Z := 0.
Definition QOS_MPS_SYSTEM_DEFAULT : Z := 0.
Definition QOS_PROFILE_DEFAULT : t :=
  CreateQosProfile History.HISTORY_KEEP_LAST 1 QOS_MPS_SYSTEM_DEFAULT RELIABILITY_RELIABLE RoleAttributes.DURABILITY_VOLATILE.
Definition QOS_PROFILE_SENSOR_DATA : t :=
  CreateQosProfile History.HISTORY_KEEP_LAST 5 QOS_MPS_SYSTEM_DEFAULT RELIABILITY_BEST_EFFORT RoleAttributes.DURABILITY_VOLATILE.
Definition QOS_PROFILE_PARAMETERS : t :=
  CreateQosProfile History.HISTORY_KEEP_LAST 1000 QOS_MPS_SYSTEM_DEFAULT RELIABILITY_RELIABLE RoleAttributes.DURABILITY_VOLATILE.
Definition QOS_PROFILE_SERVICES_DEFAULT : t :=
  CreateQosProfile History.HISTORY_KEEP_LAST 10 QOS_MPS_SYSTEM_DEFAULT RELIABILITY_RELIABLE RoleAttributes.DURABILITY_TRANSIENT_LOCAL.
Definition QOS_PROFILE_PARAM_EVENT : t :=
  CreateQosProfile History.HISTORY_KEEP_LAST 1000 QOS_MPS_SYSTEM_DEFAULT RELIABILITY_RELIABLE RoleAttributes.DURABILITY_VOLATILE.
Definition QOS_PROFILE_SYSTEM_DEFAULT : t :=
  CreateQosProfile History.HISTORY_SYSTEM_DEFAULT QOS_HISTORY_DEPTH_SYSTEM_DEFAULT QOS_MPS_SYSTEM_DEFAULT RELIABILITY_RELIABLE
    RoleAttributes.DURABILITY_TRANSIENT_LOCAL.
Definition QOS_PROFILE_TF_STATIC : t :=
  CreateQosProfile History.HISTORY_KEEP_ALL 10 QOS_MPS_SYSTEM_DEFAULT RELIABILITY_RELIABLE RoleAttributes.DURABILITY_TRANSIENT_LOCAL.
Definition QOS_PROFILE_TOPO_CHANGE : t :=
  CreateQosProfile History.HISTORY_KEEP_ALL 10 QOS_MPS_SYSTEM_DEFAULT RELIABILITY_RELIABLE RoleAttributes.DURABILITY_TRANSIENT_LOCAL.

(** ** The attributes of Fast-RTPS *)
Inductive HistoryQosKind := KEEP_LAST_HISTORY_QOS | KEEP_ALL_HISTORY_QOS.
Inductive DurabilityQosKind :=
  VOLATILE_DURABILITY_QOS | TRANSIENT_LOCAL_DURABILITY_QOS | TRANSIENT_DURABILITY_QOS | PERSISTENT_DURABILITY_QOS.
Inductive ReliabilityQosKind := BEST_EFFORT_RELIABILITY_QOS | RELIABLE_RELIABILITY_QOS.

(** Topic and policies, which publishers and subscribers share; [with_key],
    [dynamic]: the topic's kind and the memory policy. *)
Record attributes := mkattr {
  topicName : string;
  topicDataType : string;
  with_key : bool;
  history_kind : HistoryQosKind;
  history_depth : Z;
  m_durability : DurabilityQosKind;
  m_reliability : ReliabilityQosKind;
  dynamic : bool;
  max_samples : Z;
}.

(** [Duration_t]: seconds and a fraction of [2 ^ 32]. *)
Record PublisherAttributes := mkpub { pub : attributes; heartbeatPeriod : Z * Z; asynchronous : bool }.

Definition set_memory (a : attributes) : attributes :=
  mkattr (topicName a) (topicDataType a) (with_key a) (history_kind a) (history_depth a) (m_durability a) (m_reliability a) true 10000.

(** What both functions do first, up to the depth. *)
Definition fill_topic (channel_name : string) (qos : t) (a : attributes) : attributes :=
  mkattr channel_name "UnderlayMessage" false
    (match history qos with
     | History.HISTORY_KEEP_LAST => KEEP_LAST_HISTORY_QOS
     | History.HISTORY_KEEP_ALL => KEEP_ALL_HISTORY_QOS
     | History.HISTORY_SYSTEM_DEFAULT => history_kind a
     end)
    (if negb (depth qos =? QOS_HISTORY_DEPTH_SYSTEM_DEFAULT) then i32 (depth qos) else history_depth a)
    (match durability qos with
     | RoleAttributes.DURABILITY_TRANSIENT_LOCAL => TRANSIENT_LOCAL_DURABILITY_QOS
     | RoleAttributes.DURABILITY_VOLATILE => VOLATILE_DURABILITY_QOS
     | RoleAttributes.DURABILITY_SYSTEM_DEFAULT => m_durability a
     end)
    (match reliability qos with
     | RELIABILITY_BEST_EFFORT => BEST_EFFORT_RELIABILITY_QOS
     | RELIABILITY_RELIABLE => RELIABLE_RELIABILITY_QOS
     | RELIABILITY_SYSTEM_DEFAULT => m_reliability a
     end)
    (dynamic a) (max_samples a).

(** Messages per second as the period of heartbeats. *)
Definition heartbeat (mps : Z) : Z * Z :=
  if mps =? 0 then (1, 0)
  else
    let mps := if 1024 <? mps then 1024 else if mps <? 64 then 64 else mps in
    let fractions := Z.shiftl 256 32 / mps in
    (i32 (Z.shiftr fractions 32), u32 (Z.land fractions 4294967295)).

Definition FillInPubAttr (channel_name : string) (qos : t) (p : PublisherAttributes) : bool * PublisherAttributes :=
  let a := fill_topic channel_name qos (pub p) in
  if history_depth a <? 0 then (false, mkpub a (heartbeatPeriod p) (asynchronous p))
  else (true, mkpub (set_memory a) (heartbeat (mps qos)) true).

Definition FillInSubAttr (channel_name : string) (qos : t) (a : attributes) : bool * attributes :=
  let a := fill_topic channel_name qos a in
  if history_depth a <? 0 then (false, a) else (true, set_memory a).

(** *** Heartbeats *)

(** A period in units of [2 ^ -32] seconds. *)
Definition units (d : Z * Z) : Z := d.1 * 2 ^ 32 + d.2.

Lemma heartbeat_units m : 0 < m < 2 ^ 32 → units (heartbeat m) = 2 ^ 40 / (64 `max` (m `min` 1024)).
Proof.
  intros Hm. unfold heartbeat. rewrite (proj2 (Z.eqb_neq m 0)) by lia.
  assert ((if 1024 <? m then 1024 else if m <? 64 then 64 else m) = 64 `max` (m `min` 1024)) as ->.
  { destruct (Z.ltb_spec 1024 m); [lia|]. destruct (Z.ltb_spec m 64); lia. }
  set (c := 64 `max` (m `min` 1024)). assert (64 <= c <= 1024) as Hc by lia.
  change (Z.shiftl 256 32) with (2 ^ 40). set (f := 2 ^ 40 / c).
  assert (2 ^ 30 <= f <= 2 ^ 34) as Hf.
  { unfold f. split; [apply Z.div_le_lower_bound; lia|apply Z.div_le_upper_bound; lia]. }
  unfold units. cbn [fst snd]. rewrite Z.shiftr_div_pow2 by lia. change 4294967295 with (Z.ones 32). rewrite Z.land_ones by lia.
  pose proof (Z.mod_pos_bound f (2 ^ 32) ltac:(lia)). pose proof (Z.div_mod f (2 ^ 32) ltac:(lia)).
  assert (0 <= f / 2 ^ 32 <= 4) by (split; [apply Z.div_pos; lia|apply Z.div_le_upper_bound; lia]).
  rewrite i32_small, u32_small by lia. lia.
Qed.

(** Heartbeats.  Without a rate the period is a second; otherwise it is the
    time of 256 messages at the rate, taken between 64 and 1024 a second and
    rounded down to [2 ^ -32] seconds: from a quarter of a second to four, and
    not longer for a higher rate. *)
Theorem heartbeat_period m m' :
  0 <= m < 2 ^ 32 → 0 < m' < 2 ^ 32 →
  units (heartbeat 0) = 2 ^ 32 ∧
  (m ≠ 0 → units (heartbeat m) = 2 ^ 40 / (64 `max` (m `min` 1024))) ∧
  2 ^ 30 <= units (heartbeat m) <= 2 ^ 34 ∧
  (0 <= (heartbeat m).2 < 2 ^ 32) ∧
  (m ≠ 0 → m <= m' → units (heartbeat m') <= units (heartbeat m)).
Proof.
  intros Hm Hm'. split; [done|]. split; [|split; [|split]].
  - intros H0. apply heartbeat_units. lia.
  - destruct (decide (m = 0)) as [-> |H0]; [by vm_compute|]. rewrite heartbeat_units by lia.
    split; [apply Z.div_le_lower_bound; lia|apply Z.div_le_upper_bound; lia].
  - unfold heartbeat. destruct (m =? 0); cbn [snd]; [lia|]. apply u32_range.
  - intros H0 Hle. rewrite !heartbeat_units by lia. apply Z.div_le_compat_l; lia.
Qed.

(** Attributes.  Both functions refuse exactly a depth that is negative as a
    signed number, which of the profile's own is one of [2 ^ 31] or more; else
    the attributes of a publisher and of a subscriber of the same profile are
    the same, so that they match, and nothing of the profile is lost. *)
Theorem attributes_filled channel_name qos p a :
  0 <= depth qos < 2 ^ 32 → pub p = a →
  let '(ok, p') := FillInPubAttr channel_name qos p in
  let '(ok', a') := FillInSubAttr channel_name qos a in
  ok = ok' ∧ pub p' = a' ∧ topicName a' = channel_name ∧
  (ok = false ↔ (depth qos = 0 ∧ history_depth a < 0) ∨ 2 ^ 31 <= depth qos) ∧
  (ok = true → history_depth a' = (if decide (depth qos = 0) then history_depth a else depth qos) ∧ max_samples a' = 10000 ∧
     heartbeatPeriod p' = heartbeat (mps qos) ∧
     (history qos ≠ History.HISTORY_SYSTEM_DEFAULT → (history_kind a' = KEEP_ALL_HISTORY_QOS ↔ history qos = History.HISTORY_KEEP_ALL)) ∧
     (reliability qos ≠ RELIABILITY_SYSTEM_DEFAULT → (m_reliability a' = RELIABLE_RELIABILITY_QOS ↔ reliability qos = RELIABILITY_RELIABLE)) ∧
     (durability qos ≠ RoleAttributes.DURABILITY_SYSTEM_DEFAULT →
        (m_durability a' = TRANSIENT_LOCAL_DURABILITY_QOS ↔ durability qos = RoleAttributes.DURABILITY_TRANSIENT_LOCAL))).
Proof.
  intros Hd Hp. unfold FillInPubAttr, FillInSubAttr. rewrite Hp.
  assert (history_depth (fill_topic channel_name qos a) =
    if decide (depth qos = 0) then history_depth a else if decide (depth qos < 2 ^ 31) then depth qos else depth qos - 2 ^ 32) as Hdepth.
  { cbn. destruct (decide (depth qos = 0)) as [E|E].
    - by rewrite E.
    - rewrite (proj2 (Z.eqb_neq _ _)) by (unfold QOS_HISTORY_DEPTH_SYSTEM_DEFAULT; lia). cbn. destruct (decide (depth qos < 2 ^ 31)).
      + by rewrite i32_small by lia.
      + unfold i32. rewrite (Z.mod_eq _ (2 ^ 32)) by lia. replace ((depth qos + 2 ^ 31) / 2 ^ 32) with 1; [lia|].
        apply Z.div_unique with (depth qos - 2 ^ 31); lia. }
  destruct (Z.ltb_spec (history_depth (fill_topic channel_name qos a)) 0) as [Hneg|Hpos]; rewrite Hdepth in *;
    (split_and!; [done|done|done| |]).
  - split; [|done]. intros _. destruct (decide (depth qos = 0)); [by left|]. destruct (decide (depth qos < 2 ^ 31)); [lia|right; lia].
  - done.
  - split; [done|]. intros Hbad. destruct (decide (depth qos = 0)); [lia|]. destruct (decide (depth qos < 2 ^ 31)); lia.
  - intros _. split_and!.
    + change (history_depth (set_memory (fill_topic channel_name qos a))) with (history_depth (fill_topic channel_name qos a)).
      rewrite Hdepth. destruct (decide (depth qos = 0)); [done|]. destruct (decide (depth qos < 2 ^ 31)); [done|lia].
    + done.
    + done.
    + cbn. by destruct (history qos).
    + cbn. by destruct (reliability qos).
    + cbn. by destruct (durability qos).
Qed.
End Qos.

(** ** [UnderlayMessage], what travels over Fast-RTPS *)

(** Fast-CDR: what it appends to a buffer at an offset from the point that
    alignment is counted from, and what it reads there. *)
Class Cdr := {
  alignment : nat → nat → nat;
  put_i32 : nat → Z → list Z;
  put_string : nat → list Z → list Z;
  get_i32 : nat → list Z → option (Z * list Z);
  get_string : nat → list Z → option (list Z * list Z);
  encapsulation : list Z;
  read_encapsulation : list Z → option (list Z);
}.

(** What the code relies on: values are aligned as [alignment] says; a string is
    its length, its bytes and a NUL; and what was written is read. *)
Class CdrLaws `(C : Cdr) : Prop := {
  alignment_4 o : alignment o 4 = ((4 - o mod 4) mod 4)%nat;
  put_i32_length o z : length (put_i32 o z) = (4 + alignment o 4)%nat;
  put_string_length o s : length (put_string o s) = (4 + alignment o 4 + length s + 1)%nat;
  get_put_i32 o z rest : - 2 ^ 31 <= z < 2 ^ 31 → get_i32 o (put_i32 o z ++ rest) = Some (z, rest);
  get_put_string o s rest : Z.of_nat (length s) < 2 ^ 32 - 1 → get_string o (put_string o s ++ rest) = Some (s, rest);
  encapsulation_length : length encapsulation = 4%nat;
  read_encapsulated rest : read_encapsulation (encapsulation ++ rest) = Some rest;
}.

Module UnderlayMessage.
Import Outcome.
Section message.
Context `{Cdr}.

Record t := mk { m_timestamp : Z; m_seq : Z; m_data : list Z; m_datatype : list Z }.

(** The data members that the constructor does not set are empty strings. *)
Definition UnderlayMessage : t := mk 0 0 [] [].
Definition data (d : list Z) (m : t) : t := mk (m_timestamp m) (m_seq m) d (m_datatype m).

Definition aligned (n current_alignment : nat) : nat := (current_alignment + n + alignment current_alignment 4)%nat.
Definition getMaxCdrSerializedSize (current_alignment : nat) : nat :=
  (aligned 260 (aligned 260 (aligned 4 (aligned 4 current_alignment))) - current_alignment)%nat.
Definition getCdrSerializedSize (m : t) (current_alignment : nat) : nat :=
  (aligned (4 + length (m_datatype m) + 1) (aligned (4 + length (m_data m) + 1) (aligned 4 (aligned 4 current_alignment)))
     - current_alignment)%nat.

(** What [f] appends to what was written from offset [o] on. *)
Definition write (o : nat) (f : nat → list Z) (buf : list Z) : list Z := buf ++ f (o + length buf)%nat.
Definition serialize (m : t) (o : nat) : list Z :=
  write o (λ o, put_string o (m_datatype m)) (write o (λ o, put_string o (m_data m))
    (write o (λ o, put_i32 o (m_seq m)) (write o (λ o, put_i32 o (m_timestamp m)) []))).

(** The offset is what was read of the buffer; [None]: Fast-CDR throws. *)
Definition deserialize (o : nat) (buf : list Z) : option (t * list Z) :=
  let at_ (rest : list Z) := (o + (length buf - length rest))%nat in
  '(ts, r) ← get_i32 (at_ buf) buf;
  '(sq, r) ← get_i32 (at_ r) r;
  '(d, r) ← get_string (at_ r) r;
  '(dt, r) ← get_string (at_ r) r;
  Some (mk ts sq d dt, r).

(** ** [UnderlayMessageType] *)

(** [max_size]: of the payload.  A message that does not fit throws. *)
Definition type_serialize (m : t) (max_size : nat) : outcome (list Z) :=
  let buf := encapsulation ++ serialize m 0 in
  if (length buf <=? max_size)%nat then Done buf else Throws.
Definition type_deserialize (payload : list Z) : outcome t :=
  match read_encapsulation payload with
  | None => Throws
  | Some body => match deserialize 0 body with Some (m, _) => Done m | None => Throws end
  end.
Definition m_typeSize : Z := u32 (u32 (Z.of_nat (getMaxCdrSerializedSize 0)) + 4).
Definition getSerializedSizeProvider (m : t) : Z := u32 (u32 (Z.of_nat (getCdrSerializedSize m 0)) + 4).

(** ** Properties *)
Record fits (m : t) : Prop := {
  fits_timestamp : - 2 ^ 31 <= m_timestamp m < 2 ^ 31;
  fits_seq : - 2 ^ 31 <= m_seq m < 2 ^ 31;
  fits_data : Z.of_nat (length (m_data m)) < 2 ^ 32 - 1;
  fits_datatype : Z.of_nat (length (m_datatype m)) < 2 ^ 32 - 1;
}.

Context `{!CdrLaws H}.

Lemma write_length o f buf : length (write o f buf) = (length buf + length (f (o + length buf)))%nat.
Proof. apply length_app. Qed.

Lemma write_i32 o z buf : (o + length (write o (λ o, put_i32 o z) buf) = aligned 4 (o + length buf))%nat.
Proof. rewrite write_length, put_i32_length. unfold aligned. lia. Qed.

Lemma write_string o d buf : (o + length (write o (λ o, put_string o d) buf) = aligned (4 + length d + 1) (o + length buf))%nat.
Proof. rewrite write_length, put_string_length. unfold aligned. lia. Qed.

Lemma aligned_le n o : (o <= aligned n o)%nat.
Proof. unfold aligned. lia. Qed.

Lemma serialize_length m o : length (serialize m o) = getCdrSerializedSize m o.
Proof.
  enough (o + length (serialize m o) = o + getCdrSerializedSize m o)%nat by lia.
  unfold serialize. rewrite !write_string, !write_i32. cbn [length]. rewrite Nat.add_0_r. unfold getCdrSerializedSize, aligned. lia.
Qed.

Lemma deserialize_serialize m o rest : fits m → deserialize o (serialize m o ++ rest) = Some (m, rest).
Proof.
  intros [H1 H2 H3 H4]. destruct m as [ts sq d dt]. cbn in *. unfold serialize, write. cbn [m_timestamp m_seq m_data m_datatype].
  cbn [app length]. rewrite Nat.add_0_r. set (e1 := put_i32 o ts). set (e2 := put_i32 _ sq). set (e3 := put_string _ d). set (e4 := put_string _ dt).
  unfold deserialize. cbv zeta beta. set (buf := (_ ++ rest)).
  assert (∀ a b, buf = a ++ b → (o + (length buf - length b) = o + length a)%nat) as Hat by (intros a b ->; rewrite length_app; lia).
  rewrite (Hat [] buf) by done. cbn [length]. rewrite Nat.add_0_r.
  assert (buf = e1 ++ e2 ++ e3 ++ e4 ++ rest) as B by (unfold buf; by rewrite <-!app_assoc).
  rewrite B at 1. unfold e1 at 1. rewrite get_put_i32 by done. cbn [mbind option_bind].
  rewrite (Hat e1) by done. unfold e2 at 1. rewrite get_put_i32 by done. cbn [mbind option_bind].
  rewrite (Hat (e1 ++ e2)) by (by rewrite B, <-!app_assoc). unfold e3 at 1. rewrite get_put_string by done. cbn [mbind option_bind].
  rewrite (Hat ((e1 ++ e2) ++ e3)) by (by rewrite B, <-!app_assoc). unfold e4 at 1. by rewrite get_put_string.
Qed.

(** The message type.  The size that is announced for a message is that of
    the bytes written for it, whatever the alignment, so that a payload of that
    size is enough and one that is smaller throws; and a message whose fields
    have their C++ types is read as it was written, from a payload with more
    bytes behind it too. *)
Theorem underlay_roundtrip m max_size rest :
  fits m → Z.of_nat (getCdrSerializedSize m 0) + 4 < 2 ^ 32 →
  getSerializedSizeProvider m = Z.of_nat (length (encapsulation ++ serialize m 0)) ∧
  (type_serialize m max_size = Throws ↔ Z.of_nat max_size < getSerializedSizeProvider m) ∧
  (getSerializedSizeProvider m <= Z.of_nat max_size →
     ∃ payload, type_serialize m max_size = Done payload ∧ Z.of_nat (length payload) = getSerializedSizeProvider m ∧
       type_deserialize (payload ++ rest) = Done m).
Proof.
  intros Hm Hsize. assert (getSerializedSizeProvider m = Z.of_nat (length (encapsulation ++ serialize m 0))) as E.
  { unfold getSerializedSizeProvider. rewrite length_app, encapsulation_length, serialize_length. rewrite (u32_small (Z.of_nat _)), u32_small by lia. lia. }
  split; [done|]. rewrite E. unfold type_serialize. destruct (Nat.leb_spec (length (encapsulation ++ serialize m 0)) max_size).
  - split; [split; [done|lia]|]. intros _. eexists. split; [done|]. split; [done|].
    unfold type_deserialize. by rewrite <-(assoc app), read_encapsulated, deserialize_serialize.
  - split; [split; [lia|done]|lia].
Qed.

(** What follows a value that ends at or before a multiple of four starts there. *)
Lemma aligned_up n o b : (o <= 4 * b)%nat → (aligned n o <= 4 * b + n)%nat.
Proof.
  intros Ho. unfold aligned. rewrite alignment_4. pose proof (Nat.div_mod_eq o 4). pose proof (Nat.mod_upper_bound o 4 ltac:(lia)).
  assert ((4 - o mod 4) mod 4 = if decide (o mod 4 = 0) then 0 else 4 - o mod 4)%nat as ->.
  { case_decide as Hx; [by rewrite Hx|]. apply Nat.mod_small. lia. }
  case_decide; lia.
Qed.

(** The size announced for the type, which Fast-RTPS allocates first, is enough
    for messages with at most 255 bytes of data. *)
Theorem type_size m max_size :
  (length (m_data m) <= 255)%nat → (length (m_datatype m) <= 255)%nat → m_typeSize <= Z.of_nat max_size →
  m_typeSize = 532 ∧ type_serialize m max_size ≠ Throws.
Proof.
  intros Hd Ht Hmax. assert (m_typeSize = 532) as E.
  { unfold m_typeSize, getMaxCdrSerializedSize, aligned. rewrite !alignment_4. done. }
  split; [done|]. unfold type_serialize. rewrite length_app, encapsulation_length, serialize_length.
  destruct (Nat.leb_spec (4 + getCdrSerializedSize m 0) max_size) as [|Hbad]; [done|]. exfalso. revert Hbad.
  unfold getCdrSerializedSize.
  pose proof (aligned_up 4 0 0 ltac:(lia)) as H1. set (o1 := aligned 4 0) in *.
  pose proof (aligned_up 4 o1 1 ltac:(lia)) as H2. set (o2 := aligned 4 o1) in *.
  pose proof (aligned_up (4 + length (m_data m) + 1) o2 2 ltac:(lia)) as H3. set (o3 := aligned _ o2) in *.
  pose proof (aligned_up (4 + length (m_datatype m) + 1) o3 67 ltac:(lia)) as H4. lia.
Qed.
End message.
End UnderlayMessage.

(** ** [Participant] *)
Module Participant.
Import Outcome.

(** [RtpsParticipantAttr] of [transport_conf.proto]. *)
Record conf := mkconf { lease_duration : Z; announcement_period : Z; domain_id_gain : Z; port_base : Z }.
Definition default_conf : conf := mkconf 12 3 200 10000.

Definition u16 (z : Z) : Z := z mod 2 ^ 16.

(** [Locator_t] of UDPv4; the address is what [set_IP4_address] makes of its
    argument. *)
Record Locator (address : Type) := locator { ip : address; port : Z }.
#[global] Arguments locator {_}.
#[global] Arguments ip {_}.
#[global] Arguments port {_}.

(** The fields of [ParticipantAttributes] that the code sets besides constants. *)
Record attributes (address : Type) := mkattr {
  defaultSendPort : Z;
  domainIDGain : Z;
  portBase : Z;
  domainId : Z;
  leaseDuration : Z;
  announcementPeriod : Z;
  name : list Z;
  unicast : list (Locator address);
  out : list (Locator address);
  metatrafficUnicast : list (Locator address);
  metatrafficMulticast : list (Locator address);
}.
#[global] Arguments mkattr {_}.
#[global] Arguments domainId {_}.
#[global] Arguments unicast {_}.

(** A C string of a [std::string]. *)
Fixpoint c_str (s : list Z) : list Z :=
  match s with c :: s => if c =? 0 then [] else c :: c_str s | [] => [] end.

Section attributes.
Context {address : Type} (set_IP4_address : list Z → option address) (multicast : address).

(** The first part of [CreateFastRtpsParticipant], up to the call of
    [createParticipant]; [None]: it returns before.  [global_conf]: the
    configuration's [participant_attr], if it has one. *)
Definition domain_id (env : list Z → option (list Z)) : option Z :=
  match env (string_bytes "CYBER_DOMAIN_ID") with
  | None => Some 80
  | Some val => match Cpuset.stoi val with Done v => Some (u32 v) | _ => None end
  end.

Definition ip_env (env : list Z → option (list Z)) : option (list Z) :=
  match env (string_bytes "CYBER_IP") with
  | None => Some (string_bytes "127.0.0.1")
  | Some [] => None
  | Some ip => Some ip
  end.

Definition participant_attributes (env : list Z → option (list Z)) (global_conf : option conf) (name : list Z) (send_port : Z) :
    option (attributes address) :=
  domain_id ← domain_id env;
  let part_attr_conf := default default_conf global_conf in
  ip ← ip_env env;
  a ← set_IP4_address ip;
  let l := locator a 0 in
  Some (mkattr (u32 send_port) (u16 (domain_id_gain part_attr_conf)) (u16 (port_base part_attr_conf)) domain_id
          (lease_duration part_attr_conf) (announcement_period part_attr_conf) (c_str name) [l] [l] [l] [locator multicast 0]).
End attributes.

(** With usable variables, or none, there are attributes: the domain that was
    asked for or 80, the one address everywhere, and ports from the
    configuration, cut to sixteen bits. *)
Theorem participant_configured {address} (set_IP4_address : list Z → option address) multicast env global_conf name send_port n ip a :
  0 <= n < 2 ^ 31 →
  (env (string_bytes "CYBER_DOMAIN_ID") = Some (Cpuset.decimal n) ∨ env (string_bytes "CYBER_DOMAIN_ID") = None ∧ n = 80) →
  (env (string_bytes "CYBER_IP") = Some ip ∧ ip ≠ [] ∨ env (string_bytes "CYBER_IP") = None ∧ ip = string_bytes "127.0.0.1") →
  set_IP4_address ip = Some a →
  ∃ r, participant_attributes set_IP4_address multicast env global_conf name send_port = Some r ∧
    domainId r = n ∧ (∀ l, l ∈ unicast r ++ out _ r ++ metatrafficUnicast _ r → l = locator a 0) ∧
    0 <= portBase _ r < 2 ^ 16 ∧ 0 <= domainIDGain _ r < 2 ^ 16 ∧
    (global_conf = None → portBase _ r = 10000 ∧ domainIDGain _ r = 200).
Proof.
  intros Hn Hid Hip Ha. assert (domain_id env = Some n) as E1.
  { unfold domain_id. destruct Hid as [-> |[-> ->]]; [|done]. rewrite Cpuset.stoi_decimal by done. by rewrite u32_small by lia. }
  assert (ip_env env = Some ip) as E2.
  { unfold ip_env. destruct Hip as [[-> Hne]|[-> ->]]; [|done]. by destruct ip. }
  unfold participant_attributes. rewrite E1. cbn [mbind option_bind]. rewrite E2. cbn [mbind option_bind]. rewrite Ha. cbn.
  eexists. split; [done|]. cbn. split; [done|]. split.
  { intros l Hl. rewrite !elem_of_cons in Hl. destruct Hl as [-> |[-> |[-> |Hl]]]; try done. by apply elem_of_nil in Hl. }
  unfold u16. split; [apply Z.mod_pos_bound; lia|]. split; [apply Z.mod_pos_bound; lia|]. by intros ->.
Qed.

(** *** The object

    A participant of Fast-RTPS is a number. *)
Record t := mk { shutdown_ : bool; listener_ : bool; fastrtps_participant_ : option nat }.
Definition Participant (listener : bool) : t := mk false listener None.

(** Threads between the look at [shutdown_] and the lock of [mutex_]. *)
Inductive pc := Asking | ShuttingDown.

(** [live]: the participants of [Domain]; [answers]: what was returned to whom. *)
Record sys := mksys {
  self : t;
  threads : gmap nat pc;
  live : gset nat;
  next : nat;
  answers : list (nat * option nat);
}.
Definition init (listener : bool) : sys := mksys (Participant listener) ∅ ∅ 0 [].

(** The rest of both functions runs under [mutex_].  [made]: are there attributes,
    and does Fast-RTPS create the participant? *)
Definition ask_locked (made : bool) (x : sys) : option nat * sys :=
  match fastrtps_participant_ (self x) with
  | Some p => (Some p, x)
  | None =>
      if made then
        (Some (next x), mksys (mk (shutdown_ (self x)) (listener_ (self x)) (Some (next x))) (threads x) ({[next x]} ∪ live x)
                          (S (next x)) (answers x))
      else (None, x)
  end.
Definition shutdown_locked (x : sys) : sys :=
  match fastrtps_participant_ (self x) with
  | Some p => mksys (mk (shutdown_ (self x)) false None) (threads x) (live x ∖ {[p]}) (next x) (answers x)
  | None => x
  end.

Inductive label := LAsk (tid : nat) | LShutdown (tid : nat) | LLocked (tid : nat) (made : bool).

Definition answer (tid : nat) (p : option nat) (x : sys) : sys := mksys (self x) (threads x) (live x) (next x) (answers x ++ [(tid, p)]).
Definition set_threads (ts : gmap nat pc) (x : sys) : sys := mksys (self x) ts (live x) (next x) (answers x).

Definition step (l : label) (x : sys) : option sys :=
  match l with
  | LAsk tid =>
      match threads x !! tid with
      | Some _ => None
      | None => Some (if shutdown_ (self x) then answer tid None x else set_threads (<[tid := Asking]> (threads x)) x)
      end
  | LShutdown tid =>
      match threads x !! tid with
      | Some _ => None
      | None =>
          Some (if shutdown_ (self x) then x
                else mksys (mk true (listener_ (self x)) (fastrtps_participant_ (self x))) (<[tid := ShuttingDown]> (threads x))
                       (live x) (next x) (answers x))
      end
  | LLocked tid made =>
      match threads x !! tid with
      | None => None
      | Some Asking => let '(p, x') := ask_locked made x in Some (answer tid p (set_threads (delete tid (threads x)) x'))
      | Some ShuttingDown => Some (set_threads (delete tid (threads x)) (shutdown_locked x))
      end
  end.

(** Both functions from end to end. *)
Definition fastrtps_participant (made : bool) (x : sys) : option nat * sys :=
  if shutdown_ (self x) then (None, x) else ask_locked made x.
Definition Shutdown (x : sys) : sys :=
  if shutdown_ (self x) then x
  else shutdown_locked (mksys (mk true (listener_ (self x)) (fastrtps_participant_ (self x))) (threads x) (live x) (next x) (answers x)).

(** *** Properties *)
Definition owned (p : option nat) : gset nat := match p with Some p => {[p]} | None => ∅ end.

Record sys_ok (x : sys) : Prop := {
  so_live : live x = owned (fastrtps_participant_ (self x));
  so_next p : fastrtps_participant_ (self x) = Some p → (p < next x)%nat;
  so_answers tid p : shutdown_ (self x) = false → (tid, Some p) ∈ answers x → fastrtps_participant_ (self x) = Some p;
  so_down tid : shutdown_ (self x) = false → threads x !! tid ≠ Some ShuttingDown;
}.

Lemma init_sys_ok b : sys_ok (init b).
Proof. split; try done. by intros tid p _ ?%elem_of_nil. Qed.

Lemma ask_locked_ok made x : sys_ok x →
  let '(p, x') := ask_locked made x in
  sys_ok x' ∧ fastrtps_participant_ (self x') = p ∧ shutdown_ (self x') = shutdown_ (self x) ∧ threads x' = threads x ∧ answers x' = answers x.
Proof.
  intros Hx. pose proof Hx as [Hl Hn Ha Hd]. unfold ask_locked. destruct (fastrtps_participant_ (self x)) as [p|] eqn:E; [done|].
  destruct made; [|done]. split_and!; try done. split; cbn.
  - rewrite Hl. cbn. set_solver.
  - intros p [= <-]. lia.
  - intros tid p Hs Hin. specialize (Ha tid p Hs Hin). congruence.
  - done.
Qed.

Lemma step_sys_ok l x x' : sys_ok x → step l x = Some x' → sys_ok x'.
Proof.
  intros Hx. pose proof Hx as [Hl Hn Ha Hd]. destruct l as [tid|tid|tid made]; cbn.
  - destruct (threads x !! tid) eqn:Et; [done|]. intros [= <-]. destruct (shutdown_ (self x)) eqn:Es; split; cbn; rewrite ?Es; try done.
    intros tid' _. destruct (decide (tid' = tid)) as [-> |]; [by rewrite lookup_insert_eq|]. rewrite lookup_insert_ne by done. auto.
  - destruct (threads x !! tid) eqn:Et; [done|]. intros [= <-]. destruct (shutdown_ (self x)) eqn:Es; [done|]. by split.
  - destruct (threads x !! tid) as [[]|] eqn:Et; [| |done].
    + pose proof (ask_locked_ok made x Hx) as Hask. destruct (ask_locked made x) as [p x1]. destruct Hask as ([Hl1 Hn1 Ha1 Hd1] & Hp & Hs & Ht & Hans).
      intros [= <-]. split; cbn; try done.
      * intros tid' p' Hdown [Hin|Heq%list_elem_of_singleton]%elem_of_app; [by apply (Ha1 tid')|]. congruence.
      * intros tid' Hdown. destruct (decide (tid' = tid)) as [-> |]; [by rewrite lookup_delete_eq|].
        rewrite lookup_delete_ne by done. apply Hd. congruence.
    + intros [= <-]. destruct (shutdown_ (self x)) eqn:Es; [|by destruct (Hd tid eq_refl)].
      unfold shutdown_locked. destruct (fastrtps_participant_ (self x)) as [p|] eqn:Ep; split; cbn; rewrite ?Es, ?Ep; try done.
      rewrite Hl. cbn. set_solver.
Qed.

(** After a shutdown that nobody overlaps with, nothing changes but that whoever
    asks gets nothing. *)
Lemma quiet_stable x x' :
  shutdown_ (self x) = true → threads x = ∅ → reachable step x x' →
  self x' = self x ∧ threads x' = ∅ ∧ live x' = live x ∧ ∃ more, answers x' = answers x ++ more ∧ Forall (λ a, a.2 = None) more.
Proof.
  intros Hs Ht. apply (reachable_inv step (λ x', self x' = self x ∧ threads x' = ∅ ∧ live x' = live x ∧
    ∃ more, answers x' = answers x ++ more ∧ Forall (λ a, a.2 = None) more)).
  - split_and!; try done. exists []. by rewrite app_nil_r.
  - intros l x1 x2 (H1 & H2 & H3 & more & H4 & H5) Hstep. destruct l as [tid|tid|tid made]; cbn in Hstep;
      rewrite ?H1, ?H2, ?lookup_empty, ?Hs in Hstep; try discriminate Hstep; injection Hstep as <-.
    + split_and!; try done. exists (more ++ [(tid, None)]). cbn. rewrite H4, (assoc app). split; [done|]. apply Forall_app. by split; [|constructor].
    + split_and!; try done. by exists more.
Qed.

(** C19: the life of the participant.  However threads ask for it and shut it
    down, the object owns whatever participants of Fast-RTPS there are, which is
    one at most, and before the shutdown everyone was given the same one.  A
    shutdown that nobody overlaps with removes it, for good. *)
Theorem participant_lifetime b x :
  reachable step (init b) x →
  live x = owned (fastrtps_participant_ (self x)) ∧
  (shutdown_ (self x) = false → ∀ tid p, (tid, Some p) ∈ answers x → live x = {[p]}) ∧
  (threads x = ∅ → shutdown_ (self x) = false → ∀ tid made x1 x2,
     run step [LShutdown tid; LLocked tid made] x = Some x1 → reachable step x1 x2 →
     live x2 = ∅ ∧ ∃ more, answers x2 = answers x ++ more ∧ Forall (λ a, a.2 = None) more).
Proof.
  intros Hr. assert (sys_ok x) as [Hl Hn Ha Hd].
  { revert Hr. apply reachable_inv; [apply init_sys_ok|]. intros l x1 x2 H1 H2. by apply (step_sys_ok l x1). }
  split_and!; [done| |].
  - intros Hs tid p Hin. by rewrite Hl, (Ha tid p Hs Hin).
  - intros Ht Hs tid made x1 x2. cbn. rewrite Ht, lookup_empty, Hs. cbn. rewrite lookup_insert_eq. cbn. intros [= <-] Hr2.
    apply quiet_stable in Hr2 as (_ & _ & -> & Hans).
    + unfold shutdown_locked in *. cbn in *. destruct (fastrtps_participant_ (self x)); cbn in *; (split; [|done]); rewrite Hl; cbn; set_solver.
    + unfold shutdown_locked. cbn. by destruct (fastrtps_participant_ (self x)).
    + unfold shutdown_locked. cbn. destruct (fastrtps_participant_ (self x)); cbn; by rewrite delete_insert_id.
Qed.

(** A thread that looked at [shutdown_] just before it was set makes a
    participant after the shutdown, which nothing removes. *)
Theorem participant_outlives_shutdown b :
  ∃ x, run step [LAsk 1; LShutdown 2; LLocked 2 true; LLocked 1 true] (init b) = Some x ∧
    shutdown_ (self x) = true ∧ threads x = ∅ ∧ answers x = [(1%nat, Some 0%nat)] ∧
    ∀ x', reachable step x x' → live x' = {[0%nat]}.
Proof.
  eexists. split; [reflexivity|]. split_and!; try done. intros x' Hr. apply quiet_stable in Hr as (_ & _ & -> & _); by try vm_compute.
Qed.
End Participant.

(** ** Samples

    Fast-CDR in little-endian order. *)
Module RtpsSample.
Import Outcome UnderlayMessage.

Definition pad (o n : nat) : nat := ((n - o mod n) mod n)%nat.
Definition get_bytes (o n : nat) (buf : list Z) : option (list Z * list Z) :=
  let body := drop (pad o 4) buf in if (length body <? n)%nat then None else Some (take n body, drop n body).

#[global] Instance little_endian : Cdr := {
  alignment := pad;
  put_i32 o z := replicate (pad o 4) 0 ++ bytes_of 4 (u32 z);
  put_string o s := replicate (pad o 4) 0 ++ bytes_of 4 (Z.of_nat (length s) + 1) ++ s ++ [0];
  get_i32 o buf := '(b, r) ← get_bytes o 4 buf; Some (i32 (of_bytes b), r);
  get_string o buf :=
    '(b, r) ← get_bytes o 4 buf;
    let n := Z.to_nat (of_bytes b) in
    if (length r <? n)%nat then None else Some (take (n - 1) r, drop n r);
  encapsulation := [0; 1; 0; 0];
  read_encapsulation buf := if (length buf <? 4)%nat then None else Some (drop 4 buf);
}.

Lemma get_bytes_put o v rest : get_bytes o 4 (replicate (pad o 4) 0 ++ bytes_of 4 v ++ rest) = Some (bytes_of 4 v, rest).
Proof.
  unfold get_bytes. rewrite drop_app_length' by (by rewrite length_replicate). rewrite length_app, length_bytes_of.
  destruct (Nat.ltb_spec (4 + length rest) 4); [lia|]. rewrite take_app_length', drop_app_length' by (by rewrite length_bytes_of). done.
Qed.

#[global] Instance little_endian_laws : CdrLaws little_endian.
Proof.
  split.
  - done.
  - intros o z. cbn -[bytes_of]. rewrite length_app, length_replicate, length_bytes_of. lia.
  - intros o s. cbn -[bytes_of]. rewrite !length_app, length_replicate, length_bytes_of. cbn. lia.
  - intros o z rest Hz. cbn -[bytes_of of_bytes pad]. rewrite <-(assoc app), get_bytes_put. cbn -[bytes_of of_bytes].
    rewrite of_bytes_of by (apply u32_range). f_equal. f_equal. unfold i32, u32. rewrite Z.add_mod_idemp_l by lia. by apply i32_small.
  - intros o s rest Hs. cbn -[bytes_of of_bytes pad Nat.ltb]. rewrite <-!(assoc app), get_bytes_put. cbn -[bytes_of of_bytes Nat.ltb].
    rewrite of_bytes_of by (cbn; lia). replace (Z.to_nat (Z.of_nat (length s) + 1)) with (length s + 1)%nat by lia.
    rewrite !length_app. cbn [length]. destruct (Nat.ltb_spec (length s + S (length rest)) (length s + 1)); [lia|].
    replace (length s + 1 - 1)%nat with (length s) by lia. rewrite take_app_length, drop_app_ge by lia.
    by replace (length s + 1 - length s)%nat with 1%nat by lia.
  - done.
  - done.
Qed.

Definition hello : t := data [104; 105] UnderlayMessage.

Lemma hello_fits : fits hello.
Proof. by split; vm_compute. Qed.

Example hello_payload :
  type_serialize hello 532 = Done [0; 1; 0; 0; 0; 0; 0; 0; 0; 0; 0; 0; 3; 0; 0; 0; 104; 105; 0; 0; 1; 0; 0; 0; 0].
Proof. by vm_compute. Qed.

Lemma underlay_roundtrip_witness :
  ∃ payload, type_serialize hello 25 = Done payload ∧ Z.of_nat (length payload) = 25 ∧ type_deserialize (payload ++ [7; 7]) = Done hello.
Proof.
  assert (Z.of_nat (getCdrSerializedSize hello 0) + 4 < 2 ^ 32) as Hsize by (vm_compute; reflexivity).
  assert (getSerializedSizeProvider hello = 25) as E by (vm_compute; reflexivity).
  destruct (underlay_roundtrip hello 25 [7; 7] hello_fits Hsize) as (_ & _ & Hok). rewrite E in Hok.
  apply Hok. reflexivity.
Defined.

Lemma heartbeat_period_witness : Qos.units (Qos.heartbeat 1000) <= Qos.units (Qos.heartbeat 100).
Proof.
  destruct (Qos.heartbeat_period 100 1000 ltac:(lia) ltac:(lia)) as (_ & _ & _ & _ & Hle). apply Hle; lia.
Defined.

Definition attrs : Qos.attributes :=
  Qos.mkattr "" "" true Qos.KEEP_ALL_HISTORY_QOS 1 Qos.VOLATILE_DURABILITY_QOS Qos.BEST_EFFORT_RELIABILITY_QOS false 5.

Lemma attributes_filled_witness :
  Qos.history_depth (Qos.FillInSubAttr "chatter" Qos.QOS_PROFILE_PARAMETERS attrs).2 = 1000.
Proof.
  pose proof (Qos.attributes_filled "chatter" Qos.QOS_PROFILE_PARAMETERS (Qos.mkpub attrs (3, 0) false) attrs ltac:(by vm_compute) eq_refl) as H.
  destruct (Qos.FillInPubAttr _ _ _) as [ok p] eqn:E1. destruct (Qos.FillInSubAttr _ _ _) as [ok' a] eqn:E2.
  vm_compute in E1, E2. injection E1 as <- <-. injection E2 as <- <-.
  destruct H as (_ & _ & _ & _ & Hok). destruct (Hok eq_refl) as [H1 _]. exact H1.
Defined.

(** A negative domain is taken as the number of its bits. *)
Example negative_domain :
  Participant.domain_id (λ v, if decide (v = string_bytes "CYBER_DOMAIN_ID") then Some (string_bytes "-1") else None) = Some 4294967295.
Proof. by vm_compute. Qed.

Lemma participant_configured_witness :
  ∃ r, Participant.participant_attributes (λ ip, Some ip) [239; 255; 0; 1] (λ _, None) None (string_bytes "host+1") 11512 = Some r ∧
    Participant.domainId r = 80.
Proof.
  destruct (Participant.participant_configured (λ ip, Some ip) [239; 255; 0; 1] (λ _, None) None (string_bytes "host+1") 11512 80
    (string_bytes "127.0.0.1") (string_bytes "127.0.0.1") ltac:(lia) (or_intror (conj eq_refl eq_refl)) (or_intror (conj eq_refl eq_refl)) eq_refl)
    as (r & Hr & Hid & _).
  by exists r.
Defined.

Lemma participant_lifetime_witness :
  ∃ x x1, run Participant.step [Participant.LAsk 1; Participant.LLocked 1 true; Participant.LAsk 2; Participant.LLocked 2 true] (Participant.init true) = Some x ∧
    run Participant.step [Participant.LShutdown 3; Participant.LLocked 3 true] x = Some x1 ∧
    Participant.live x = {[0%nat]} ∧ Participant.live x1 = ∅.
Proof.
  eexists _, _. split; [reflexivity|]. split; [reflexivity|].
  destruct (Participant.participant_lifetime true _ (run_reachable Participant.step (Participant.init true)
    [Participant.LAsk 1; Participant.LLocked 1 true; Participant.LAsk 2; Participant.LLocked 2 true] _ eq_refl))
    as (Hlive & _ & Hdown).
  split; [exact Hlive|]. refine (proj1 (Hdown eq_refl eq_refl 3%nat true _ _ eq_refl (reach_init _ _))).
Defined.
End RtpsSample.
