(* ===== verification/Transport.v ===== *)
(** * The transport ([cyber/transport/transport.h], [transport.cc])

    The object that creates transmitters and receivers of a mode and shuts the
    parts down: the participant of [Rtps], the notifier (any that keeps the laws
    of [NotifierLife]) and the three dispatchers of [Receivers]. *)

From S2P Require Import Prelude HashMaps Listener Message Shm Dispatcher Transmitters Receivers Rtps NotifierLife.
From stdpp Require Import pretty.

Local Open Scope Z_scope.
Local Open Scope cyber_scope.

Abbreviation role := RoleAttributes.t.

Module Transport.
Section transport.
Context {Msg : Type} `{MessageType Msg}.
Context {M : Type} `{IntMap M nat} (empty : M).
Context {S : Type} `{BlockReader S} {W : Type} `{BlockWriter W}.
Context {N P L : Type} `{NotifierBase N P L}.
Context (Hash : list Z → Z).
Context {address : Type} (set_IP4_address : list Z → option address) (multicast : address).

(** What the process is and how Fast-RTPS answers: is a participant created of
    these attributes, is a publisher or subscriber created for a participant;
    [pub0], [sub0]: attributes as they are constructed. *)
Record outside := mkoutside {
  env : list Z → option (list Z);
  host_name : string;
  process_id : Z;
  host_ip : string;
  participant_attr : option Participant.conf;
  communication_mode : option CommunicationMode;
  limit : option Z;
  pub0 : Qos.PublisherAttributes;
  sub0 : Qos.attributes;
  createParticipant : Participant.attributes address → bool;
  createEndpoint : option nat → bool;
}.

(** [participant_] points to [domain] or is null. *)
Record t := mk {
  is_shutdown_ : bool;
  participant_ : bool;
  notifier_ : N;
  dispatchers : process (M := M) (S := S);
  domain : Participant.sys;
}.

(** [CreateParticipant] and the constructor; [notifier]: of the factory. *)
Definition participant_name (x : outside) : list Z :=
  string_bytes (host_name x +:+ "+" +:+ pretty (process_id x)).
Definition send_port : Z := 11512.
Definition Transport (x : outside) (notifier : N) : t :=
  mk false true notifier (Process empty Hash (string_bytes (host_ip x)) true) (Participant.init false).

Definition Shutdown (T : t) : t :=
  if is_shutdown_ T then T
  else
    let p := dispatchers T in
    mk true false (NotifierLife.Shutdown (notifier_ T))
      (proc (Dispatcher.Shutdown (intra p)) (ShmDispatcher.Shutdown (shm p)) (RtpsDispatcher.Shutdown (rtps p)))
      (if participant_ T then Participant.Shutdown (domain T) else domain T).

(** ** What both functions do first: the default profile. *)
Definition modified_attr (attr : role) (qos_profile : option Qos.t) : Qos.t * role :=
  let q := default Qos.QOS_PROFILE_DEFAULT qos_profile in (q, RoleAttributes.set_qos (Qos.to_role q) attr).

(** [Participant::fastrtps_participant()] of this process. *)
Definition made (x : outside) : bool :=
  match Participant.participant_attributes set_IP4_address multicast (env x) (participant_attr x) (participant_name x) send_port with
  | Some a => createParticipant x a
  | None => false
  end.
Definition ask (x : outside) (d : Participant.sys) : option nat * Participant.sys := Participant.fastrtps_participant (made x) d.

(** ** Transmitters

    [TransmitterBase]: one medium, with the state of [Transmitter<M>]. *)
Inductive created_transmitter :=
| Basic (endpoint : Endpoint.t) (medium_ : transmitter W)
| Hybrid (h : HybridTransmitter.t (Msg := Msg) (W := W)).

Definition enable_transmitter (x : outside) (q : Qos.t) (t : transmitter W) (d : Participant.sys) : transmitter W * Participant.sys :=
  match t with
  | TRtps r =>
      if rt_enabled r then (t, d)
      else if negb (rt_participant r) then (t, d)
      else if negb (Qos.FillInPubAttr (RoleAttributes.channel_name (rt_attr r)) q (pub0 x)).1 then (t, d)
      else let '(p, d) := ask x d in (Transmitters.Enable (Transmitters.mkenv (createEndpoint x p) true false true) t, d)
  | _ => (Transmitters.Enable (Transmitters.mkenv true true false true) t, d)
  end.

Definition CreateTransmitter (x : outside) (uuid : list Z) (attr : role) (qos_profile : option Qos.t) (mode : OptionalMode) (T : t) :
    option created_transmitter * t :=
  if is_shutdown_ T then (None, T)
  else
    let '(q, modified) := modified_attr attr qos_profile in
    let ep := Endpoint.Endpoint Hash uuid (host_name x) (process_id x) modified in
    if decide (mode = HYBRID) then
      (Some (Hybrid (HybridTransmitter.HybridTransmitter Hash (communication_mode x) (limit x) (participant_ T) ep)), T)
    else
      let t := HybridTransmitter.create Hash (Endpoint.attr_ ep) (participant_ T) mode in
      let '(t, d) := enable_transmitter x q t (domain T) in
      (Some (Basic ep t), mk (is_shutdown_ T) (participant_ T) (notifier_ T) (dispatchers T) d).

(** ** Receivers *)
Inductive created_receiver :=
| BasicReceiver (mode : OptionalMode) (attr : role) (l : nat) (enabled : bool)
| Hybrid_ (r : HybridReceiver).

(** [Enable] of a receiver of one medium; [RtpsDispatcher::AddSubscriber] asks for
    the participant when it comes to that. *)
Definition enable_receiver (x : outside) (q : Qos.t) (mode : OptionalMode) (attr : role) (l : nat) (T : t) : bool * t :=
  let p := dispatchers T in
  let filled := (Qos.FillInSubAttr (RoleAttributes.channel_name attr) q (sub0 x)).1 in
  let asks := bool_decide (mode = RTPS) && RtpsDispatcher.participant_ (rtps p) &&
              bool_decide (RoleAttributes.channel_id attr ∉ RtpsDispatcher.subs_ (rtps p)) && filled in
  let '(pt, d) := if asks then ask x (domain T) else (None, domain T) in
  let '(enabled, p) := Receivers.Enable (mkanswers filled (createEndpoint x pt)) mode attr l false p in
  (enabled, mk (is_shutdown_ T) (participant_ T) (notifier_ T) p d).

Definition CreateReceiver (x : outside) (uuid : list Z) (attr : role) (qos_profile : option Qos.t) (l : nat) (mode : OptionalMode) (T : t) :
    option created_receiver * t :=
  if is_shutdown_ T then (None, T)
  else
    let '(q, modified) := modified_attr attr qos_profile in
    let attr_ := Endpoint.attr_ (Endpoint.Endpoint Hash uuid (host_name x) (process_id x) modified) in
    if decide (mode = HYBRID) then (Some (Hybrid_ (create_receiver (communication_mode x) attr_ l)), T)
    else
      let '(enabled, T) := enable_receiver x q mode attr_ l T in (Some (BasicReceiver mode attr_ l enabled), T).

(** ** Shutting down *)

Lemma OnMessage_down ty c sender (d : Dispatcher.t (M := M)) : Dispatcher.is_shutdown_ d = true → Dispatcher.OnMessage ty c sender d = ([], d).
Proof. intros Hd. unfold Dispatcher.OnMessage. by rewrite Hd. Qed.

(** Nobody hears anything of dispatchers that are shut down. *)
Lemma hear_down parse rel (e : emission Msg) p :
  Dispatcher.is_shutdown_ (intra p) = true → Dispatcher.is_shutdown_ (ShmDispatcher.base (shm p)) = true →
  Dispatcher.is_shutdown_ (RtpsDispatcher.base (rtps p)) = true → (hear (S := S) Hash parse rel e p).1 = [].
Proof.
  intros Hi Hs Hr. unfold hear. destruct e as [c msg info|ri rb|topic data identity].
  - case_decide; [|done]. by rewrite OnMessage_down.
  - case_decide; [done|]. destruct (negb _); [done|]. destruct (_ !! _); [|done].
    unfold ShmDispatcher.on_block. destruct (MessageInfo.DeserializeFrom _ _ _) as [[] info]; [|done].
    unfold ShmDispatcher.OnMessage. by rewrite OnMessage_down.
  - case_decide; [|done]. unfold RtpsDispatcher.onNewDataMessage, RtpsDispatcher.OnMessage. cbn [negb]. by rewrite OnMessage_down.
Qed.

(** C26: shutting the transport down.  Whatever was created before: afterwards
    every part is down, there is no participant of Fast-RTPS if nobody was just
    asking for it, no message reaches a listener, nothing can be created any
    more, and a second call does nothing. *)
Theorem transport_shutdown `{!NotifierLaws N P L} T x uuid attr q mode l parse rel e :
  is_shutdown_ T = false →
  let T' := Shutdown T in
  is_shutdown_ T' = true ∧ is_down (notifier_ T') = true ∧
  (participant_ T = true → Participant.sys_ok (domain T) → Participant.threads (domain T) = ∅ →
     Participant.shutdown_ (Participant.self (domain T)) = false →
     Participant.live (domain T') = ∅ ∧ ask x (domain T') = (None, domain T')) ∧
  (hear (S := S) Hash parse rel e (dispatchers T')).1 = [] ∧
  CreateTransmitter x uuid attr q mode T' = (None, T') ∧
  CreateReceiver x uuid attr q l mode T' = (None, T') ∧
  Shutdown T' = T'.
Proof.
  intros HT T'. assert (is_shutdown_ T' = true) as Hdown by (unfold T', Shutdown; by rewrite HT).
  assert (dispatchers T' = proc (Dispatcher.Shutdown (intra (dispatchers T))) (ShmDispatcher.Shutdown (shm (dispatchers T)))
    (RtpsDispatcher.Shutdown (rtps (dispatchers T)))) as Hp by (unfold T', Shutdown; by rewrite HT).
  split; [done|]. split; [unfold T', Shutdown; rewrite HT; apply (shutdown_down (S := N) (N := P) (L := L))|]. split; [|split; [|split; [|split]]].
  - intros Hpart [Hl _ _ _] Hth Hup. assert (domain T' = Participant.Shutdown (domain T)) as -> by (unfold T', Shutdown; by rewrite HT, Hpart).
    unfold ask, Participant.fastrtps_participant, Participant.Shutdown. rewrite Hup. unfold Participant.shutdown_locked. cbn.
    destruct (Participant.fastrtps_participant_ (Participant.self (domain T))) eqn:Ep; cbn; (split; [|done]); rewrite Hl; [apply difference_diag_L|done].
  - rewrite Hp. apply hear_down; cbn; [done| |].
    + unfold ShmDispatcher.Shutdown. by destruct (Dispatcher.is_shutdown_ (ShmDispatcher.base (shm (dispatchers T)))) eqn:E.
    + unfold RtpsDispatcher.Shutdown. by destruct (Dispatcher.is_shutdown_ (RtpsDispatcher.base (rtps (dispatchers T)))) eqn:E.
  - unfold CreateTransmitter. by rewrite Hdown.
  - unfold CreateReceiver. by rewrite Hdown.
  - unfold Shutdown at 1. by rewrite Hdown.
Qed.

(** ** Creating *)

(** Asking the participant of a transport that is up. *)
Lemma ask_up x d : Participant.shutdown_ (Participant.self d) = false →
  Participant.shutdown_ (Participant.self (ask x d).2) = false ∧ (made x = true → ∃ p, (ask x d).1 = Some p).
Proof.
  intros Hd. unfold ask, Participant.fastrtps_participant. rewrite Hd. unfold Participant.ask_locked.
  destruct (Participant.fastrtps_participant_ _); [split; [done|by eexists]|]. destruct (made x); [split; [done|by eexists]|done].
Qed.

(** Creating a transmitter.  One that is not hybrid is of the medium asked
    for and is enabled at once; over Fast-RTPS it is so exactly if the profile's
    depth can be used and a publisher is created.  Nothing else changes, but that
    the participant may have been made. *)
Theorem transmitter_created x uuid attr q mode T :
  is_shutdown_ T = false → participant_ T = true → mode ≠ HYBRID →
  let '(r, T') := CreateTransmitter x uuid attr q mode T in
  ∃ ep t, r = Some (Basic ep t) ∧
    RoleAttributes.qos_profile (Endpoint.attr_ ep) = Qos.to_role (default Qos.QOS_PROFILE_DEFAULT q) ∧
    HybridTransmitter.kind Hash (Endpoint.attr_ ep) true mode t ∧
    enabled t = (if decide (mode = RTPS)
                 then (Qos.FillInPubAttr (RoleAttributes.channel_name attr) (default Qos.QOS_PROFILE_DEFAULT q) (pub0 x)).1 &&
                      createEndpoint x (ask x (domain T)).1
                 else true) ∧
    T' = mk false true (notifier_ T) (dispatchers T) (domain T') ∧
    (domain T' = domain T ∨ domain T' = (ask x (domain T)).2).
Proof.
  intros HT Hpart Hm. unfold CreateTransmitter. rewrite HT, Hpart. cbn [modified_attr]. rewrite decide_False by done.
  destruct mode; [done| | |]; cbn [HybridTransmitter.create enable_transmitter rt_enabled rt_participant negb].
  - eexists _, _. split_and!; try done. by left.
  - eexists _, _. split_and!; try done. by left.
  - cbn [rt_attr Endpoint.attr_ Endpoint.Endpoint RoleAttributes.channel_name RoleAttributes.set_qos].
    destruct (Qos.FillInPubAttr _ _ _).1; cbn [negb andb].
    + destruct (ask x (domain T)) as [pt d]. cbn [fst snd]. eexists _, _. split_and!; try done; [| |by right].
      * cbn. unfold Rtps_Enable. cbn. by destruct (createEndpoint x pt).
      * cbn. unfold Rtps_Enable. cbn. by destruct (createEndpoint x pt).
    + eexists _, _. split_and!; try done. by left.
Qed.

(** What is known of a transmitter that was created and is not hybrid. *)
Lemma created_basic x uuid attr q mode T ep t T' :
  CreateTransmitter x uuid attr q mode T = (Some (Basic ep t), T') → participant_ T = true →
  mode ≠ HYBRID ∧ HybridTransmitter.kind Hash (Endpoint.attr_ ep) true mode t ∧
  RoleAttributes.channel_id (Endpoint.attr_ ep) = RoleAttributes.channel_id attr ∧
  RoleAttributes.host_ip (Endpoint.attr_ ep) = RoleAttributes.host_ip attr.
Proof.
  intros Hc Hpart. assert (is_shutdown_ T = false) as HT by (unfold CreateTransmitter in Hc; by destruct (is_shutdown_ T)).
  assert (mode ≠ HYBRID) as Hm.
  { intros ->. unfold CreateTransmitter in Hc. rewrite HT in Hc. cbn [modified_attr] in Hc. by rewrite decide_True in Hc. }
  pose proof (transmitter_created x uuid attr q mode T HT Hpart Hm) as Hk. rewrite Hc in Hk. destruct Hk as (ep' & t' & [= <- <-] & _ & Hk & _).
  split; [done|]. split; [done|]. unfold CreateTransmitter in Hc. rewrite HT in Hc. cbn [modified_attr] in Hc. rewrite decide_False in Hc by done.
  destruct (enable_transmitter _ _ _ _) as [t' d]. by injection Hc as <- _ _.
Qed.

(** ** The receivers of a process

    The calls of [CreateReceiver] of a process, and what a call registers. *)
Record request := req { r_uuid : list Z; r_attr : role; r_qos : option Qos.t; r_listener : nat; r_mode : OptionalMode }.

Definition create_all (x : outside) (rs : list request) (T : t) : t :=
  foldl (λ T r, (CreateReceiver x (r_uuid r) (r_attr r) (r_qos r) (r_listener r) (r_mode r) T).2) T rs.

Abbreviation r_channel r := (RoleAttributes.channel_id (r_attr r)).
Abbreviation for_channel k c := (λ r, r_mode r = k ∧ r_channel r = c).

(** A profile that Fast-RTPS is given. *)
Definition usable (x : outside) (r : request) : Prop :=
  made x = true ∧ (∀ p, createEndpoint x (Some p) = true) ∧
  0 <= Qos.depth (default Qos.QOS_PROFILE_DEFAULT (r_qos r)) < 2 ^ 31 ∧ 0 <= Qos.history_depth (sub0 x).

Lemma usable_filled x r channel_name :
  usable x r → (Qos.FillInSubAttr channel_name (default Qos.QOS_PROFILE_DEFAULT (r_qos r)) (sub0 x)).1 = true.
Proof.
  intros (_ & _ & Hd & Hs). unfold Qos.FillInSubAttr. set (q := default _ _) in *.
  assert (0 <= Qos.history_depth (Qos.fill_topic channel_name q (sub0 x))) as Hdepth.
  { cbn. destruct (negb _); [rewrite i32_small by lia; lia|done]. }
  by rewrite (proj2 (Z.ltb_ge _ _) Hdepth).
Qed.

Lemma base_AddListener e m k attr l p :
  proper m → proper k →
  base (S := S) k (AddListener e m attr l p) =
    if decide (m = k) then Dispatcher.AddListener (type_of k) attr l (base k p) else base k p.
Proof.
  unfold proper. intros Hm Hk. destruct m, k; try done; cbn;
    unfold ShmDispatcher.AddListener, ShmDispatcher.AddSegment, RtpsDispatcher.AddListener, RtpsDispatcher.AddSubscriber;
    repeat case_match; done.
Qed.

Lemma spec_add_all ty c self l A :
  typed ty A →
  let A' := Dispatcher.spec_add ty c (ListenerHandler.OConnect self l) A in
  typed ty A' ∧ (∀ c' o, peers_at A' c' o = peers_at A c' o) ∧
  ∀ c', alls_at A' c' = if decide (c = c') then ListenerHandler.add self l (alls_at A c) else alls_at A c'.
Proof.
  intros Ht A'. unfold A', Dispatcher.spec_add, peers_at, alls_at. destruct (A !! c) as [[ty' a]|] eqn:E.
  - rewrite decide_True by (by eapply Ht). split_and!.
    + intros c' ty'' a'. rewrite lookup_insert. case_decide; [intros [= <- <-]|]; by eapply Ht.
    + intros c' o. rewrite lookup_insert. case_decide; [subst; by rewrite E|done].
    + intros c'. rewrite lookup_insert. by case_decide.
  - split_and!.
    + intros c' ty'' a'. rewrite lookup_insert. case_decide; [by intros [= <- <-]|by eapply Ht].
    + intros c' o. rewrite lookup_insert. case_decide; [subst; rewrite E|done]. unfold ListenerHandler.peer_entries. cbn. by rewrite lookup_empty.
    + intros c'. rewrite lookup_insert. by case_decide.
Qed.

Lemma add_listeners self l es : ListenerHandler.e_listener <$> ListenerHandler.add self l es = (ListenerHandler.e_listener <$> es) ++ [l].
Proof.
  unfold ListenerHandler.add. rewrite fmap_app, <- list_fmap_compose. cbn. f_equal. apply list_fmap_ext. intros i e _.
  cbn. unfold ListenerHandler.orphan. by case_decide.
Qed.

Abbreviation spec := (gmap Z (message_type * ListenerHandler.spec)).

(** What the dispatchers know after the calls [rs]. *)
Record installed (x : outside) (rs : list request) (As : OptionalMode → spec) (T : t) : Prop := {
  in_up : is_shutdown_ T = false;
  in_impl k : proper k → Dispatcher.implements (base k (dispatchers T)) (false, As k);
  in_typed k : proper k → typed (type_of k) (As k);
  in_peers k c o : proper k → peers_at (As k) c o = [];
  in_listeners k c : proper k → ListenerHandler.e_listener <$> alls_at (As k) c = r_listener <$> filter (for_channel k c) rs;
  in_host : ShmDispatcher.host_id_ (shm (dispatchers T)) = Hash (string_bytes (host_ip x));
  in_participant : RtpsDispatcher.participant_ (rtps (dispatchers T)) = true;
  in_domain : Participant.shutdown_ (Participant.self (domain T)) = false;
  in_segments r : r ∈ rs → r_mode r = SHM → is_Some (ShmDispatcher.segments_ (shm (dispatchers T)) !! r_channel r);
  in_subs r : r ∈ rs → r_mode r = RTPS → r_channel r ∈ RtpsDispatcher.subs_ (rtps (dispatchers T));
}.

Hypothesis Hempty : im_rep empty ∅.

Lemma Transport_installed x notifier : installed x [] (λ _, ∅) (Transport x notifier).
Proof.
  constructor; try done.
  - intros k Hk. pose proof (Dispatcher.implements_new empty Hempty) as Hn. by destruct k.
  - intros r Hr. by apply elem_of_nil in Hr.
  - intros r Hr. by apply elem_of_nil in Hr.
Qed.

(** What [AddListener] leaves alone, and which channels are watched after it. *)
Lemma AddListener_rest e m attr l p :
  proper m →
  let p' := AddListener (S := S) e m attr l p in
  ShmDispatcher.host_id_ (shm p') = ShmDispatcher.host_id_ (shm p) ∧
  RtpsDispatcher.participant_ (rtps p') = RtpsDispatcher.participant_ (rtps p) ∧
  (∀ c, is_Some (ShmDispatcher.segments_ (shm p) !! c) ∨ m = SHM ∧ c = RoleAttributes.channel_id attr →
     is_Some (ShmDispatcher.segments_ (shm p') !! c)) ∧
  (∀ c, c ∈ RtpsDispatcher.subs_ (rtps p) ∨
     m = RTPS ∧ c = RoleAttributes.channel_id attr ∧ RtpsDispatcher.participant_ (rtps p) = true ∧
       (c ∉ RtpsDispatcher.subs_ (rtps p) → filled e = true ∧ created e = true) →
     c ∈ RtpsDispatcher.subs_ (rtps p')).
Proof.
  intros Hm. destruct m; [done| | |]; cbn; unfold ShmDispatcher.AddListener, ShmDispatcher.AddSegment, RtpsDispatcher.AddListener, RtpsDispatcher.AddSubscriber.
  - split_and!; try done; intros c [Hc|[? _]]; done.
  - cbn. destruct (ShmDispatcher.segments_ (shm p) !! RoleAttributes.channel_id attr) eqn:E; cbn.
    + split_and!; try done; [|by intros c [Hc|[? _]]]. intros c [Hc|[_ ->]]; [done|by eexists].
    + split_and!; try done; [|by intros c [Hc|[? _]]]. intros c Hc. rewrite lookup_insert. case_decide; [by eexists|]. destruct Hc as [|[_ ->]]; done.
  - split; [done|]. cbn. destruct (RtpsDispatcher.participant_ (rtps p)) eqn:Ep; cbn.
    + case_decide as Hin; cbn.
      { split_and!; [done|by intros c [?|[? _]]|]. by intros c [|[_ [-> _]]]. }
      destruct (filled e) eqn:Ef; cbn; [destruct (created e) eqn:Ec; cbn|]; (split_and!; [done|by intros c [?|[? _]]|]);
        (intros c [?|(_ & -> & _ & Hok)]; [set_solver|destruct (Hok Hin); set_solver]).
    + split_and!; [done|by intros c [?|[? _]]|]. by intros c [|(_ & _ & ? & _)].
Qed.

(** A call registers its listener, and nothing is lost. *)
Lemma create_installed x rs As r T :
  installed x rs As T → r_mode r ≠ HYBRID → (r_mode r = RTPS → usable x r) →
  ∃ As', installed x (rs ++ [r]) As' (CreateReceiver x (r_uuid r) (r_attr r) (r_qos r) (r_listener r) (r_mode r) T).2.
Proof.
  intros [Hup Himpl Htyped Hpeers Hlist Hhost Hpart Hdom Hseg Hsub] Hm Hus. unfold CreateReceiver. rewrite Hup. cbn [modified_attr].
  rewrite decide_False by done. set (attr := Endpoint.attr_ _).
  assert (RoleAttributes.channel_id attr = r_channel r) as Hc by done.
  set (q := default _ _). set (m := r_mode r) in *.
  set (A' := Dispatcher.spec_add (type_of m) (r_channel r) (ListenerHandler.OConnect (RoleAttributes.id attr) (r_listener r)) (As m)).
  destruct (spec_add_all (type_of m) (r_channel r) (RoleAttributes.id attr) (r_listener r) (As m) (Htyped m Hm)) as (Ht' & Hp' & Ha').
  exists (λ k, if decide (m = k) then A' else As k). cbn zeta in *.
  unfold enable_receiver. fold q. set (filled := (Qos.FillInSubAttr _ q _).1). set (asks := _ && _ && _ && _).
  destruct (if asks then ask x (domain T) else (None, domain T)) as [pt d] eqn:Ed. cbn [Receivers.Enable snd].
  assert (Participant.shutdown_ (Participant.self d) = false) as Hd.
  { destruct (ask_up x (domain T) Hdom) as [H1' _]. destruct asks; [by rewrite Ed in H1'|]. by injection Ed as _ <-. }
  destruct (AddListener_rest (mkanswers filled (createEndpoint x pt)) m attr (r_listener r) (dispatchers T) Hm) as (R1 & R2 & R3 & R4).
  constructor; cbn [snd is_shutdown_ dispatchers domain]; try done; rewrite ?R1, ?R2; try done.
  - intros k Hk. rewrite base_AddListener by done. destruct (decide (m = k)) as [<-|]; [|by apply Himpl].
    exact (Dispatcher.exec_tracks (Dispatcher.OAdd (type_of m) attr (r_listener r)) _ _ (Himpl m Hm)).
  - intros k Hk. destruct (decide (m = k)) as [<-|]; [done|by apply Htyped].
  - intros k c o Hk. destruct (decide (m = k)) as [<-|]; [by rewrite Hp', Hpeers|by apply Hpeers].
  - intros k c Hk. rewrite filter_app, fmap_app, <- Hlist by done. cbn [filter list_filter]. fold m. destruct (decide (m = k)) as [<-|].
    + rewrite Ha'. destruct (decide (r_channel r = c)) as [<-|].
      * rewrite add_listeners. by rewrite decide_True.
      * rewrite decide_False by naive_solver. by rewrite app_nil_r.
    + rewrite decide_False by naive_solver. by rewrite app_nil_r.
  - intros r' [Hr|Heq%list_elem_of_singleton]%elem_of_app Hm'; apply R3; [left; by apply Hseg|subst r'; by right].
  - intros r' [Hr|Heq%list_elem_of_singleton]%elem_of_app Hm'; apply R4; [left; by apply Hsub|subst r'; right].
    split; [done|]. split; [done|]. split; [done|]. intros Hin. cbn. pose proof (Hus Hm') as Hu.
    assert (filled = true) as Hf by (by apply (usable_filled x r)). split; [done|].
    assert (asks = true) as Ha.
    { unfold asks. rewrite Hf, Hpart, !bool_decide_eq_true_2 by done. done. }
    rewrite Ha in Ed. destruct (ask_up x (domain T) Hdom) as [_ Hmade]. destruct (Hmade (proj1 Hu)) as [p Hp].
    rewrite Ed in Hp. cbn in Hp. subst pt. by apply Hu.
Qed.

Lemma create_all_installed x notifier rs :
  (∀ r, r ∈ rs → r_mode r ≠ HYBRID) → (∀ r, r ∈ rs → r_mode r = RTPS → usable x r) →
  ∃ As, installed x rs As (create_all x rs (Transport x notifier)).
Proof.
  induction rs as [|r rs IH] using rev_ind; intros Hm Hu.
  { eexists. apply Transport_installed. }
  destruct IH as [As Hin]; [intros; apply Hm, elem_of_app; by left|intros r' Hr'; apply Hu, elem_of_app; by left|].
  unfold create_all. rewrite foldl_snoc. apply (create_installed x rs As r _ Hin).
  - apply Hm, elem_of_app. right. by apply list_elem_of_singleton.
  - apply Hu, elem_of_app. right. by apply list_elem_of_singleton.
Qed.

(** The listener of a receiver is listed once for the channel, in its mode only. *)
Lemma listed_once rs r k c :
  NoDup (r_listener <$> rs) → r ∈ rs → r_channel r = c →
  filter (λ l, l = r_listener r) (r_listener <$> filter (for_channel k c) rs) = if decide (r_mode r = k) then [r_listener r] else [].
Proof.
  intros Hnd Hin Hc.
  assert (∀ rs, r_listener r ∉ r_listener <$> rs → filter (λ l, l = r_listener r) (r_listener <$> filter (for_channel k c) rs) = []) as Hno.
  { clear. induction rs as [|r' rs IH]; intros Hn; [done|]. rewrite fmap_cons, not_elem_of_cons in Hn. destruct Hn as [Hn1 Hn2].
    rewrite filter_cons. destruct (decide _); [|by apply IH]. rewrite fmap_cons, filter_cons, decide_False by congruence. by apply IH. }
  induction rs as [|r' rs IH]; [by apply elem_of_nil in Hin|]. rewrite fmap_cons in Hnd. apply NoDup_cons in Hnd as [Hn Hnd].
  rewrite filter_cons. apply elem_of_cons in Hin as [<-|Hin].
  - destruct (decide (r_mode r = k)) as [Hk|Hk].
    + rewrite decide_True by done. rewrite fmap_cons, filter_cons, decide_True by done. by rewrite Hno.
    + rewrite decide_False by naive_solver. by apply Hno.
  - assert (r_listener r' ≠ r_listener r) as Hne by (intros E; apply Hn; rewrite E; by apply list_elem_of_fmap_2).
    destruct (decide (r_mode r' = k ∧ _)); [rewrite fmap_cons, filter_cons, decide_False by done|]; by apply IH.
Qed.

(** C6: what the transport creates fits together.  The transport of some
    process created a transmitter of mode [INTRA], [SHM] or [RTPS] (a hybrid one is
    the subject of [Receivers.hybrid_exactly_once]), and it is enabled; that of
    another process, or the same, created receivers of any modes but the hybrid
    one on any channels, with distinct listeners.  If Fast-RTPS works for those that
    need it, a message that serialises and parses back, with a number below [2^64],
    sent when the medium works, calls the listener of every receiver of the same mode
    on the channel exactly once, with the message, if the medium reaches its process
    ([INTRA]: the same process; [SHM]: the same host; [RTPS]: any), and not at all if
    it does not; and it calls no other receiver on the channel. *)
Theorem created_exactly_once xt uuid attr q mode Tt ep (tr : transmitter W) Tt' x notifier rs r msg data seq rel e parse l :
  CreateTransmitter xt uuid attr q mode Tt = (Some (Basic ep tr), Tt') → participant_ Tt = true → enabled tr = true → sender_ok Hash ep →
  (∀ r, r ∈ rs → r_mode r ≠ HYBRID) → (∀ r, r ∈ rs → r_mode r = RTPS → usable x r) → NoDup (r_listener <$> rs) →
  r ∈ rs → l = r_listener r → r_channel r = RoleAttributes.channel_id attr → 0 <= seq < 2 ^ 64 →
  HybridTransmitter.working e → HybridTransmitter.room msg tr → ser msg = Some data → parse l data = Some msg →
  (reaches rel SHM = true → host_ip x = RoleAttributes.host_ip attr) →
  calls_of l (hear_all (S := S) Hash parse rel
      (Transmit e msg (MessageInfo.MessageInfo2 Hash (Endpoint.id_ ep) seq) tr).1.2 (dispatchers (create_all x rs (Transport x notifier)))).1 =
    if decide (r_mode r = mode) then if reaches rel mode then [(l, msg)] else [] else [].
Proof.
  intros Hct Hpt Hen (Hw & Hupd & Hid & Ht) Hm Hu Hnd Hr -> Hc Hseq He Hroom Hser Hparse Hhost.
  destruct (created_basic xt uuid attr q mode Tt ep tr Tt' Hct Hpt) as (Hmode & Hkind & Hch & Hip). rewrite <- Hch in Hc. rewrite <- Hip in Hhost.
  destruct (create_all_installed x notifier rs Hm Hu) as [As Hin]. pose proof Hin as [].
  set (info := MessageInfo.MessageInfo2 _ _ _).
  pose proof (HybridTransmitter.Transmit_emits Hash (Endpoint.attr_ ep) mode e msg data info tr Hkind Hmode He Hroom Hser) as Hemit.
  rewrite Hen in Hemit. destruct Hemit as (y & -> & Hy & Hcarries).
  assert (sending Hash (Endpoint.attr_ ep) info (RoleAttributes.id (Endpoint.attr_ ep))) as Hsend.
  { constructor; [|done|done|done]. unfold MessageInfo.well_typed. split; [done|]. split; [done|]. split; [done|]. repeat constructor; done. }
  set (o := RoleAttributes.id (Endpoint.attr_ ep)) in *.
  assert (∀ k, proper k → filter (λ l', l' = r_listener r) (fst <$> Dispatcher.deliveries (type_of k) (r_channel r) o (false, As k)) =
    if decide (r_mode r = k) then [r_listener r] else []) as Hlisted.
  { intros k Hk. rewrite deliveries_typed by (by apply in_typed0). rewrite in_peers0, app_nil_r, in_listeners0 by done. by apply listed_once. }
  cbn [hear_all].
  pose proof (hear_delivers Hash parse As (dispatchers (create_all x rs (Transport x notifier))) (r_listener r) (Endpoint.attr_ ep) msg data info o rel y) as Hcalls.
  cbv zeta beta in Hcalls. rewrite <- Hc, Hy, !Hlisted in Hcalls by done.
  destruct (hear Hash parse rel y _) as [calls p]. cbn [fst] in *. rewrite app_nil_r, Hcalls; try done.
  - destruct (reaches rel mode), (decide (r_mode r = mode)); done.
  - destruct (decide (r_mode r = SHM)) as [E|]; [|done]. intros _. by apply in_segments0.
  - destruct (decide (r_mode r = RTPS)) as [E|]; [|done]. intros _. by apply in_subs0.
  - intros Hreach. by rewrite in_host0, (Hhost Hreach).
Qed.
End transport.
End Transport.

(** ** Samples

    A process with a receiver of each mode, and a transmitter of another process
    of the host that uses shared memory. *)
Module TransportSample.
Import TransmittersSample ReceiversSample DispatcherSample Transport.

Definition attrs : Qos.attributes :=
  Qos.mkattr "" "" true Qos.KEEP_LAST_HISTORY_QOS 1 Qos.VOLATILE_DURABILITY_QOS Qos.BEST_EFFORT_RELIABILITY_QOS false 5000.
Definition world : outside (address := list Z) :=
  mkoutside (λ _, None) "rpi" 8 "10.0.0.1" None None None (Qos.mkpub attrs (3, 0) false) attrs (λ _, true)
    (λ p, bool_decide (is_Some p)).

Definition notifier : ConditionLife.t := ConditionLife.mk ConditionLife.Null None 0 false.
Definition first : Transport.t (M := AtomicHashMap.t (V := nat)) (S := option ReadableBlock) (N := ConditionLife.t) :=
  Transport map_empty MessageSample.sum_hash world notifier.

Definition requests : list request :=
  [req [] (role_of None "10.0.0.1" 8) None 11 SHM; req [] (role_of None "10.0.0.1" 8) None 22 RTPS;
   req [] (role_of None "10.0.0.1" 8) (Some Qos.QOS_PROFILE_SENSOR_DATA) 33 INTRA].

(** Another process of the host, its transmitter. *)
Definition other : outside (address := list Z) :=
  mkoutside (λ _, None) "rpi" 7 "10.0.0.1" None None None (Qos.mkpub attrs (3, 0) false) attrs (λ _, true) (λ p, bool_decide (is_Some p)).
Definition second : Transport.t (M := AtomicHashMap.t (V := nat)) (S := option ReadableBlock) (N := ConditionLife.t) :=
  Transport map_empty MessageSample.sum_hash other notifier.
Definition sender_uuid : list Z := [1; 2; 3; 4; 5; 6; 7; 8; 9; 10; 11; 12; 13; 14; 15; 16].
Definition sender_ep : Endpoint.t :=
  Endpoint.Endpoint MessageSample.sum_hash sender_uuid "rpi" 7 (modified_attr (role_of None "10.0.0.1" 7) None).2.
Definition made_shm : transmitter (list Z) :=
  Transmitters.Enable good (HybridTransmitter.create MessageSample.sum_hash (Endpoint.attr_ sender_ep) true SHM).

Lemma transmitter_created_witness :
  ∃ e t T', CreateTransmitter (Msg := list Z) (W := list Z) MessageSample.sum_hash Some [239; 255; 0; 1] world (replicate 16 7)
      (role_of None "10.0.0.1" 8) None RTPS first = (Some (Basic e t), T') ∧ enabled t = true.
Proof.
  pose proof (transmitter_created (Msg := list Z) (W := list Z) MessageSample.sum_hash Some [239; 255; 0; 1] world (replicate 16 7)
    (role_of None "10.0.0.1" 8) None RTPS first eq_refl eq_refl ltac:(discriminate)) as H.
  destruct (CreateTransmitter _ _ _ _ _ _ _ _ _) as [r T']. destruct H as (e & t & -> & _ & _ & Hen & _).
  exists e, t, T'. split; [reflexivity|]. rewrite Hen. vm_compute. reflexivity.
Defined.

#[local] Existing Instances ConditionLife.condition_notifier ConditionLife.condition_laws.
Abbreviation rings := ConditionLife.rings.
Definition stopped : Transport.t (M := AtomicHashMap.t (V := nat)) (S := option ReadableBlock) (N := ConditionLife.t) :=
  Shutdown (P := rings) (L := nat → option rings) first.

Lemma transport_shutdown_witness :
  ConditionLife.is_shutdown_ (notifier_ stopped) = true ∧
  CreateReceiver (Msg := list Z) MessageSample.sum_hash Some [239; 255; 0; 1] world [] (role_of None "10.0.0.1" 8) None 11 SHM stopped = (None, stopped).
Proof.
  destruct (transport_shutdown (Msg := list Z) (W := list Z) (P := rings) (L := nat → option rings) MessageSample.sum_hash Some [239; 255; 0; 1]
    first world [] (role_of None "10.0.0.1" 8) None SHM 11 parse SAME_PROC (ToIntra 1 [] MessageSample.info) eq_refl) as (_ & H1 & _ & _ & _ & H2 & _).
  exact (conj H1 H2).
Defined.

Lemma requests_usable r : r ∈ requests → r_mode r = RTPS → usable Some [239; 255; 0; 1] world r.
Proof.
  intros Hr Hm. assert (default Qos.QOS_PROFILE_DEFAULT (r_qos r) = Qos.QOS_PROFILE_DEFAULT) as Hq.
  { unfold requests in Hr. repeat (apply elem_of_cons in Hr as [-> |Hr]; [first [reflexivity|discriminate Hm]|]). by apply elem_of_nil in Hr. }
  split; [vm_compute; reflexivity|]. split; [intros p; apply bool_decide_eq_true_2; by eexists|]. rewrite Hq. split; [split; vm_compute; congruence|].
  vm_compute. discriminate.
Qed.

Lemma requests_modes r : r ∈ requests → r_mode r ≠ HYBRID.
Proof. intros Hr. repeat (apply elem_of_cons in Hr as [-> |Hr]; [discriminate|]). by apply elem_of_nil in Hr. Qed.

Lemma created_exactly_once_witness :
  calls_of 11 (hear_all (S := option ReadableBlock) MessageSample.sum_hash parse DIFF_PROC
    (Transmit good [4] (MessageInfo.MessageInfo2 MessageSample.sum_hash (Endpoint.id_ sender_ep) 1) made_shm).1.2
    (dispatchers (create_all (Msg := list Z) MessageSample.sum_hash Some [239; 255; 0; 1] world requests first))).1 = [(11%nat, [4])].
Proof.
  pose proof (created_exactly_once (W := list Z) map_empty MessageSample.sum_hash Some [239; 255; 0; 1] map_empty_rep
    other sender_uuid (role_of None "10.0.0.1" 7) None SHM second sender_ep made_shm second world notifier requests
    (req [] (role_of None "10.0.0.1" 8) None 11 SHM) [4] [4] 1 DIFF_PROC good parse 11 eq_refl eq_refl eq_refl) as H.
  etransitivity; [apply H|reflexivity].
  - unfold sender_ok. split; [|split; [|split]]; try reflexivity. split; [reflexivity|]. cbn. unfold byte. repeat constructor; lia.
  - exact requests_modes.
  - exact requests_usable.
  - apply (bool_decide_unpack _). vm_compute. exact I.
  - by left.
  - reflexivity.
  - reflexivity.
  - lia.
  - split; [reflexivity|]. split; reflexivity.
  - cbn. intros sg Hsg. by eexists.
  - reflexivity.
  - reflexivity.
  - reflexivity.
Defined.
End TransportSample.
