(* ===== verification/Runtime.v ===== *)
(** * Starting and stopping the runtime ([cyber/state.h], [cyber/state.cc],
    [cyber/init.cc], [cyber/cyber.cc])

    The state of the process, [Init] and [Clear] in any threads, and the handler
    of SIGINT, which can come between any two accesses to the state. *)

From S2P Require Import Prelude.

Module Runtime.

Inductive State := STATE_UNINITIALIZED | STATE_INITIALIZED | STATE_SHUTTING_DOWN | STATE_SHUTDOWN.
#[export] Instance State_eq_dec : EqDecision State.
Proof. solve_decision. Defined.

Definition OK (s : State) : bool := bool_decide (s = STATE_INITIALIZED).
Definition IsShutdown (s : State) : bool := bool_decide (s = STATE_SHUTTING_DOWN ∨ s = STATE_SHUTDOWN).

(** [CreateNode] makes a node of these: not in reality mode unless [Init] was
    called. *)
Definition CreateNode {A} (is_reality_mode : bool) (s : State) (node : A) : option A :=
  if is_reality_mode && negb (OK s) then None else Some node.

(** [InitLogger]'s name of the binary: what follows the last slash. *)
Fixpoint base_name (acc path : list Z) : list Z :=
  match path with
  | [] => acc
  | c :: path => if (c =? 47)%Z then base_name path path else base_name acc path
  end.
Definition binary_name (path : list Z) : list Z := base_name path path.

(** What [Init] and [Clear] do to the rest of the program, in order. *)
Inductive singleton := TaskManager | TimingWheel | Scheduler | TopologyManager | Transport.
Inductive action := StartLogger (n : nat) | Register | CleanUp (c : singleton) | StopLogger (n : nat).
#[export] Instance singleton_eq_dec : EqDecision singleton.
Proof. solve_decision. Defined.
#[export] Instance action_eq_dec : EqDecision action.
Proof. solve_decision. Defined.

(** A thread in [Init] before [std::atexit] and before it sets the state; in
    [Clear] before its [i]-th action; a handler before it sets the state. *)
Inductive pc := InitAtexit | InitSet | ClearAt (i : nat) | HandlerSet.

#[export] Instance pc_eq_dec : EqDecision pc.
Proof. solve_decision. Defined.

(** [g_mutex]: its owner; [handler]: is the handler of SIGINT installed; [log]:
    what was done; [returned]: the results of [Init]. *)
Record t := mk {
  g_cyber_state : State;
  g_atexit_registered : bool;
  async_logger : option nat;
  g_mutex : option nat;
  handler : bool;
  threads : gmap nat pc;
  log : list action;
  returned : list (nat * bool);
}.
Definition start : t := mk STATE_UNINITIALIZED false None None false ∅ [] [].

Definition SetState (x : State) (s : t) : t :=
  mk x (g_atexit_registered s) (async_logger s) (g_mutex s) (handler s) (threads s) (log s) (returned s).
Definition goto (tid : nat) (p : pc) (s : t) : t :=
  mk (g_cyber_state s) (g_atexit_registered s) (async_logger s) (g_mutex s) (handler s) (<[tid := p]> (threads s)) (log s) (returned s).
Definition leave (tid : nat) (s : t) : t :=
  mk (g_cyber_state s) (g_atexit_registered s) (async_logger s) (g_mutex s) (handler s) (delete tid (threads s)) (log s) (returned s).
Definition lock (m : option nat) (s : t) : t :=
  mk (g_cyber_state s) (g_atexit_registered s) (async_logger s) m (handler s) (threads s) (log s) (returned s).
Definition act (a : list action) (s : t) : t :=
  mk (g_cyber_state s) (g_atexit_registered s) (async_logger s) (g_mutex s) (handler s) (threads s) (log s ++ a) (returned s).
Definition return_ (tid : nat) (b : bool) (s : t) : t :=
  mk (g_cyber_state s) (g_atexit_registered s) (async_logger s) (g_mutex s) (handler s) (threads s) (log s) (returned s ++ [(tid, b)]).

(** [InitLogger] and the lines up to [std::signal]; loggers are numbered. *)
Definition is_start (a : action) : bool := match a with StartLogger _ => true | _ => false end.
Definition loggers (s : t) : nat := length (filter (λ a, is_start a = true) (log s)).
Definition InitLogger (s : t) : t :=
  let n := loggers s in
  mk (g_cyber_state s) (g_atexit_registered s) (Some n) (g_mutex s) true (threads s) (log s ++ [StartLogger n]) (returned s).
Definition stop_logger (s : t) : list action := match async_logger s with Some n => [StopLogger n] | None => [] end.

(** The lines of [Clear]. *)
Definition clear_action (i : nat) (s : t) : list action :=
  match i with
  | 0 => [CleanUp TaskManager] | 1 => [CleanUp TimingWheel] | 2 => [CleanUp Scheduler]
  | 3 => [CleanUp TopologyManager] | 4 => [CleanUp Transport] | _ => stop_logger s
  end%nat.

Inductive label := LInit (tid : nat) | LClear (tid : nat) | LSignal (tid : nat) | LNext (tid : nat) (atexit_ok : bool).

(** [LNext]: the next step of a thread; the two functions hold the mutex from
    their first step to their last. *)
Definition step (l : label) (s : t) : option t :=
  match l with
  | LInit tid =>
      match threads s !! tid, g_mutex s with
      | None, None =>
          Some (if decide (g_cyber_state s = STATE_UNINITIALIZED) then goto tid InitAtexit (InitLogger (lock (Some tid) s))
                else return_ tid false s)
      | _, _ => None
      end
  | LClear tid =>
      match threads s !! tid, g_mutex s with
      | None, None =>
          Some (if decide (g_cyber_state s = STATE_SHUTDOWN ∨ g_cyber_state s = STATE_UNINITIALIZED) then s
                else goto tid (ClearAt 0) (lock (Some tid) s))
      | _, _ => None
      end
  | LSignal tid =>
      match threads s !! tid with
      | None =>
          if handler s then Some (if decide (g_cyber_state s = STATE_SHUTDOWN) then s else goto tid HandlerSet s) else None
      | Some _ => None
      end
  | LNext tid atexit_ok =>
      match threads s !! tid with
      | None => None
      | Some InitAtexit =>
          Some (if g_atexit_registered s then goto tid InitSet s
                else if atexit_ok then
                  goto tid InitSet (act [Register] (mk (g_cyber_state s) true (async_logger s) (g_mutex s) (handler s) (threads s) (log s) (returned s)))
                else return_ tid false (lock None (leave tid s)))
      | Some InitSet => Some (return_ tid true (lock None (leave tid (SetState STATE_INITIALIZED s))))
      | Some (ClearAt i) =>
          Some (if (i <? 6)%nat then goto tid (ClearAt (S i)) (act (clear_action i s) s)
                else lock None (leave tid (SetState STATE_SHUTDOWN s)))
      | Some HandlerSet => Some (leave tid (SetState STATE_SHUTTING_DOWN s))
      end
  end.

(** ** Properties *)

(** The lines of [Clear], as they appear in the log. *)
Definition clear_line (a : action) : option nat :=
  match a with
  | CleanUp TaskManager => Some 0 | CleanUp TimingWheel => Some 1 | CleanUp Scheduler => Some 2
  | CleanUp TopologyManager => Some 3 | CleanUp Transport => Some 4 | StopLogger _ => Some 5
  | StartLogger _ | Register => None
  end%nat.
Definition cleared (s : t) : list nat := omap clear_line (log s).

(** How far [Clear] is. *)
Definition progress (s : t) : nat :=
  match g_mutex s ≫= (λ tid, threads s !! tid) with Some (ClearAt i) => i | _ => 0%nat end.

(** A handler that has looked at the state and not set it. *)
Definition halfway (s : t) : Prop := ∃ tid, threads s !! tid = Some HandlerSet.

Record ok (n : nat) (s : t) : Prop := {
  ok_owner tid p : threads s !! tid = Some p → p ≠ HandlerSet → g_mutex s = Some tid;
  ok_held tid : g_mutex s = Some tid → ∃ p, threads s !! tid = Some p ∧ p ≠ HandlerSet;
  ok_handler tid : threads s !! tid = Some HandlerSet → handler s = true;
  ok_logger : handler s = true → is_Some (async_logger s);
  ok_state : g_cyber_state s ≠ STATE_UNINITIALIZED → handler s = true;
  ok_init tid p : threads s !! tid = Some p → p = InitAtexit ∨ p = InitSet → handler s = true;
  ok_clear tid i : threads s !! tid = Some (ClearAt i) → (i <= 6)%nat ∧ handler s = true;
  ok_cleared : cleared s = mjoin (replicate n (seq 0 6)) ++ seq 0 (progress s);
}.

Lemma start_ok : ok 0 start.
Proof. split; try done; cbn; intros *; rewrite lookup_empty; done. Qed.

(** Nobody holds the mutex: only handlers are on their way. *)
Lemma free_handlers n s tid p : ok n s → g_mutex s = None → threads s !! tid = Some p → p = HandlerSet.
Proof. intros Hs Hm Hp. apply dec_stable. intros Hne. pose proof (ok_owner n s Hs tid p Hp). naive_solver. Qed.

(** The owner's thread is the only one on its way but handlers. *)
Lemma owner_unique n s tid tid' p p' :
  ok n s → threads s !! tid = Some p → p ≠ HandlerSet → threads s !! tid' = Some p' → p' ≠ HandlerSet → tid' = tid.
Proof. intros Hs Hp Hne Hp' Hne'. pose proof (ok_owner n s Hs tid p Hp Hne). pose proof (ok_owner n s Hs tid' p' Hp' Hne'). congruence. Qed.

(** Taking the mutex. *)
Lemma taken n s s1 tid p :
  ok n s → g_mutex s = None → threads s !! tid = None → p ≠ HandlerSet →
  threads s1 = <[tid := p]> (threads s) → g_mutex s1 = Some tid →
  handler s1 = true → is_Some (async_logger s1) → (∀ i, p = ClearAt i → i = 0%nat) →
  cleared s1 = cleared s → ok n s1.
Proof.
  intros Hs Hm Ht Hp Hts Hm1 Hh Hl Hi Hc. pose proof (free_handlers n s) as Hfree. pose proof Hs as [H1 H2 H3 H4 H5 H6 H7 H8].
  split; rewrite ?Hts, ?Hm1; try done.
  - intros tid' p' [[<- <-]|[_ Hp']]%lookup_insert_Some Hne; [done|]. by destruct Hne; eapply Hfree.
  - intros tid' [= <-]. exists p. by rewrite lookup_insert_eq.
  - intros tid' i [[<- ->]|[_ Hp']]%lookup_insert_Some; [rewrite (Hi i eq_refl); split; [lia|done]|]. by apply Hfree in Hp'.
  - rewrite Hc, H8. f_equal. f_equal. unfold progress. rewrite Hm, Hm1, Hts. cbn. rewrite lookup_insert_eq.
    destruct p; try done. by rewrite (Hi i eq_refl).
Qed.

Lemma init_ok n s tid s' : ok n s → step (LInit tid) s = Some s' → ok n s'.
Proof.
  intros Hs. cbn [step]. destruct (threads s !! tid) as [p|] eqn:Et, (g_mutex s) as [o|] eqn:Em; try done.
  intros [= <-]. case_decide as Hst; [|by destruct Hs].
  apply (taken n s _ tid InitAtexit); try done. unfold cleared. cbn. by rewrite omap_app, app_nil_r.
Qed.

Lemma clear_ok n s tid s' : ok n s → step (LClear tid) s = Some s' → ok n s'.
Proof.
  intros Hs. cbn [step]. destruct (threads s !! tid) as [p|] eqn:Et, (g_mutex s) as [o|] eqn:Em; try done.
  intros [= <-]. case_decide as Hst; [done|]. assert (handler s = true) as Hh by (apply (ok_state n s Hs); tauto).
  apply (taken n s _ tid (ClearAt 0)); try done; [by apply (ok_logger n s Hs)|]. by intros i [= <-].
Qed.

Lemma signal_ok n s tid s' : ok n s → step (LSignal tid) s = Some s' → ok n s'.
Proof.
  intros Hs. cbn [step]. destruct (threads s !! tid) as [p|] eqn:Et; [done|]. destruct (handler s) eqn:Eh; [|done].
  intros [= <-]. case_decide as Hst; [done|]. pose proof Hs as [H1 H2 H3 H4 H5 H6 H7 H8]. split; try done; cbn.
  - intros tid' p' [[<- <-]|[_ Hp']]%lookup_insert_Some Hne; [done|]. by eapply H1.
  - intros tid' Hm. destruct (H2 tid' Hm) as (p & Hp & Hne). exists p. split; [|done]. rewrite lookup_insert_ne; [done|congruence].
  - by intros tid' i [[<- ?]|[_ Hp']]%lookup_insert_Some; [|apply H7 in Hp'].
  - etransitivity; [exact H8|]. f_equal. f_equal. unfold progress. cbn. destruct (g_mutex s) as [o|] eqn:Em; [|done]. cbn.
    rewrite lookup_insert_ne; [done|]. intros <-. destruct (H2 tid eq_refl) as (p & Hp & _). congruence.
Qed.

(** Giving the mutex back, with [m] more rounds done. *)
Lemma given_back n m s s1 tid p :
  ok n s → threads s !! tid = Some p → p ≠ HandlerSet →
  threads s1 = delete tid (threads s) → g_mutex s1 = None → handler s1 = handler s → handler s = true → async_logger s1 = async_logger s →
  cleared s1 = mjoin (replicate (m + n) (seq 0 6)) → ok (m + n) s1.
Proof.
  intros Hs Hp Hne Hts Hm1 Hh Hh1 Hl Hc. pose proof Hs as [H1 H2 H3 H4 H5 H6 H7 H8].
  assert (∀ tid' p', threads s1 !! tid' = Some p' → p' = HandlerSet) as Hfree.
  { rewrite Hts. intros tid' p' [Hneq Hp']%lookup_delete_Some. apply dec_stable. intros Hne'. apply Hneq. symmetry.
    by apply (owner_unique n s tid tid' p p'). }
  split; rewrite ?Hm1, ?Hh, ?Hl; try done; auto.
  - intros tid' p' Hp'. by rewrite (Hfree tid' p' Hp').
  - intros tid' i Hp'. by apply Hfree in Hp'.
  - rewrite Hc. unfold progress. rewrite Hm1. cbn. by rewrite app_nil_r.
Qed.

(** A step of the owner that keeps the mutex. *)
Lemma moved n s s1 tid p q :
  ok n s → threads s !! tid = Some p → p ≠ HandlerSet → q ≠ HandlerSet →
  threads s1 = <[tid := q]> (threads s) → g_mutex s1 = g_mutex s → handler s1 = handler s → handler s = true →
  async_logger s1 = async_logger s → (∀ i, q = ClearAt i → (i <= 6)%nat) →
  cleared s1 = mjoin (replicate n (seq 0 6)) ++ seq 0 (match q with ClearAt i => i | _ => 0%nat end) → ok n s1.
Proof.
  intros Hs Hp Hne Hq Hts Hm1 Hh Hh1 Hl Hi Hc. pose proof Hs as [H1 H2 H3 H4 H5 H6 H7 H8]. pose proof (H1 tid p Hp Hne) as Hm.
  split; rewrite ?Hts, ?Hm1, ?Hh, ?Hl; try done; auto.
  - intros tid' p' [[<- <-]|[_ Hp']]%lookup_insert_Some Hne'; [done|]. by eapply H1.
  - intros tid' Hm'. assert (tid' = tid) as -> by congruence. exists q. by rewrite lookup_insert_eq.
  - intros tid' i [[<- ->]|[_ Hp']]%lookup_insert_Some; [by split; [apply Hi|]|by apply H7 in Hp'].
  - rewrite Hc. unfold progress. rewrite Hm1, Hm, Hts. cbn. by rewrite lookup_insert_eq.
Qed.

Lemma clear_line_action i s : (i < 6)%nat → is_Some (async_logger s) → omap clear_line (clear_action i s) = [i].
Proof.
  intros Hi [n Hn]. do 5 (destruct i as [|i]; [done|]). assert (i = 0%nat) as -> by lia. cbn. unfold stop_logger. by rewrite Hn.
Qed.

Lemma progress_at n s tid i : ok n s → threads s !! tid = Some (ClearAt i) → progress s = i.
Proof. intros Hs Hp. unfold progress. rewrite (ok_owner n s Hs tid _ Hp ltac:(done)). cbn. by rewrite Hp. Qed.

Lemma progress_init n s tid p : ok n s → threads s !! tid = Some p → p = InitAtexit ∨ p = InitSet → progress s = 0%nat.
Proof.
  intros Hs Hp Hi. assert (p ≠ HandlerSet) as Hne by (destruct Hi as [-> | ->]; discriminate).
  unfold progress. rewrite (ok_owner n s Hs tid _ Hp Hne). cbn. rewrite Hp. by destruct Hi as [-> | ->].
Qed.

Lemma rounds_S n : mjoin (replicate n (seq 0 6)) ++ seq 0 6 = mjoin (replicate (1 + n) (seq 0 6)).
Proof. rewrite Nat.add_1_r || rewrite Nat.add_comm. rewrite replicate_add, join_app. cbn [replicate mjoin list_join]. by rewrite app_nil_r. Qed.

(** A step of a thread that is on its way; the last one of [Clear] ends a round. *)
Lemma next_ok n s tid a s' :
  ok n s → step (LNext tid a) s = Some s' →
  if decide (threads s !! tid = Some (ClearAt 6)) then ok (1 + n) s' ∧ g_cyber_state s' = STATE_SHUTDOWN
  else ok n s' ∧ (g_cyber_state s' = STATE_SHUTDOWN → g_cyber_state s = STATE_SHUTDOWN).
Proof.
  intros Hs. cbn [step]. destruct (threads s !! tid) as [p|] eqn:Et; [|done]. pose proof Hs as [H1 H2 H3 H4 H5 H6 H7 H8].
  destruct p as [| |i|].
  - rewrite decide_False by done. pose proof (H6 tid _ Et (or_introl eq_refl)) as Hh. rewrite (progress_init n s tid InitAtexit Hs Et) in H8 by auto.
    destruct (g_atexit_registered s); [|destruct a]; intros [= <-]; (split; [|done]).
    + apply (moved n s _ tid InitAtexit InitSet); try done. 
    + apply (moved n s _ tid InitAtexit InitSet); try done. unfold cleared. cbn. rewrite omap_app. cbn. rewrite app_nil_r. exact H8.
    + apply (given_back n 0 s _ tid InitAtexit); try done. rewrite app_nil_r in H8. exact H8.
  - rewrite decide_False by done. pose proof (H6 tid _ Et (or_intror eq_refl)) as Hh. rewrite (progress_init n s tid InitSet Hs Et) in H8 by auto.
    intros [= <-]. split; [|done]. apply (given_back n 0 s _ tid InitSet); try done. rewrite app_nil_r in H8. exact H8.
  - destruct (H7 tid i Et) as [Hi Hh]. rewrite (progress_at n s tid i Hs Et) in H8. destruct (Nat.ltb_spec i 6) as [Hlt|Hge]; intros [= <-].
    + rewrite decide_False by (intros [= ->]; lia). split; [|done]. apply (moved n s _ tid (ClearAt i) (ClearAt (S i))); try done.
      { by intros j [= <-]. }
      unfold cleared in *. cbn [goto act log]. rewrite omap_app, H8, clear_line_action by auto. by rewrite <-app_assoc, (seq_S i).
    + assert (i = 6%nat) as -> by lia. rewrite decide_True by done. split; [|done].
      apply (given_back n 1 s _ tid (ClearAt 6)); try done. rewrite <-rounds_S. exact H8.
  - rewrite decide_False by done. intros [= <-]. split; [|done].
    pose proof (H3 tid Et) as Hh. split; try done; cbn.
    + intros tid' p' [_ Hp']%lookup_delete_Some Hne. by eapply H1.
    + intros tid' Hm. destruct (H2 tid' Hm) as (p & Hp & Hne). exists p. split; [|done]. apply lookup_delete_Some. split; [congruence|done].
    + intros tid' i [_ Hp']%lookup_delete_Some. by apply (H7 tid').
    + etransitivity; [exact H8|]. f_equal. f_equal. unfold progress. cbn. destruct (g_mutex s) as [o|] eqn:Em; [|done]. cbn.
      rewrite lookup_delete_ne; [done|]. intros <-. destruct (H2 tid eq_refl) as (p & Hp & Hne). congruence.
Qed.

Lemma step_ok n l s s' : ok n s → step l s = Some s' → ∃ n', ok n' s'.
Proof.
  intros Hs. destruct l as [tid|tid|tid|tid a]; intros Hstep; [exists n; by eapply init_ok|exists n; by eapply clear_ok|exists n; by eapply signal_ok|].
  pose proof (next_ok n s tid a s' Hs Hstep) as H. destruct (decide _) as [|]; destruct H as [H _]; by eexists.
Qed.

(** The order of the end.  However threads call [Init] and [Clear], and
    whenever signals come: one thread at a time is in either, and what is cleaned
    up is whole rounds of tasks, timers, scheduler, topology, transport, logger,
    in this order, and the beginning of one that is not finished. *)
Theorem clear_in_order s :
  reachable step start s →
  (∃ n, cleared s = mjoin (replicate n (seq 0 6)) ++ seq 0 (progress s)) ∧ (progress s <= 6)%nat ∧
  (∀ tid tid' p p', threads s !! tid = Some p → threads s !! tid' = Some p' → p ≠ HandlerSet → p' ≠ HandlerSet → tid = tid').
Proof.
  intros Hr. assert (∃ n, ok n s) as [n Hs].
  { revert Hr. apply (reachable_inv step (λ s, ∃ n, ok n s)); [exists 0%nat; apply start_ok|]. intros l s1 s2 [n Hs]. by apply (step_ok n). }
  split; [exists n; apply Hs|]. split.
  - unfold progress. destruct (g_mutex s ≫= _) as [[| |i|]|] eqn:E; try lia.
    apply bind_Some in E as (tid & _ & Hp). by apply (ok_clear n s Hs tid i).
  - intros tid tid' p p' Hp Hp' Hne Hne'. by apply (owner_unique n s tid' tid p' p).
Qed.

(** After the end nothing changes: no thread, no log, and [Init] refuses. *)
Lemma at_rest s s' :
  g_cyber_state s = STATE_SHUTDOWN → threads s = ∅ → g_mutex s = None → reachable step s s' →
  g_cyber_state s' = STATE_SHUTDOWN ∧ threads s' = ∅ ∧ g_mutex s' = None ∧ log s' = log s ∧
  ∃ more, returned s' = returned s ++ more ∧ Forall (λ x, x.2 = false) more.
Proof.
  intros Hst Ht Hm. apply (reachable_inv step (λ s', g_cyber_state s' = STATE_SHUTDOWN ∧ threads s' = ∅ ∧ g_mutex s' = None ∧ log s' = log s ∧
    ∃ more, returned s' = returned s ++ more ∧ Forall (λ x, x.2 = false) more)).
  - split_and!; try done. exists []. by rewrite app_nil_r.
  - intros l s1 s2 (H1 & H2 & H3 & H4 & more & H5 & H6) Hstep.
    destruct l as [tid|tid|tid|tid a]; cbn in Hstep; rewrite ?H1, ?H2, ?H3, ?lookup_empty in Hstep; cbn in Hstep; try discriminate Hstep.
    + injection Hstep as <-. split_and!; try done. exists (more ++ [(tid, false)]). cbn. rewrite H5, app_assoc. split; [done|].
      apply Forall_app. split; [done|]. by constructor.
    + injection Hstep as <-. split_and!; try done. by exists more.
    + destruct (handler s1); [|done]. injection Hstep as <-. split_and!; try done. by exists more.
Qed.

(** No handler is halfway when [Clear] sets the state. *)
Definition halfwayb (s : t) : bool := existsb (λ x, bool_decide (x.2 = HandlerSet)) (map_to_list (threads s)).
Definition prompt_step (l : label) (s : t) : option t :=
  match l with
  | LNext tid _ => if bool_decide (threads s !! tid = Some (ClearAt 6)) && halfwayb s then None else step l s
  | _ => step l s
  end.

Lemma not_halfway s tid : halfwayb s = false → threads s !! tid ≠ Some HandlerSet.
Proof.
  intros Hh Hp. assert (halfwayb s = true); [|congruence]. apply existsb_exists. exists (tid, HandlerSet).
  split; [|by apply bool_decide_eq_true]. apply list_elem_of_In. by apply elem_of_map_to_list.
Qed.

(** The rounds that are done. *)
Definition once (s : t) : Prop :=
  if decide (g_cyber_state s = STATE_SHUTDOWN) then ok 1 s ∧ threads s = ∅ else ok 0 s.

Lemma prompt_once l s s' : once s → prompt_step l s = Some s' → once s'.
Proof.
  unfold once. destruct (decide (g_cyber_state s = STATE_SHUTDOWN)) as [Hst|Hst].
  - intros [Hs Ht] Hstep. assert (step l s = Some s') as Hstep'.
    { destruct l as [| | |tid a]; try done. cbn in Hstep. rewrite Ht, lookup_empty in Hstep. cbn in Hstep. by rewrite ?Ht, ?lookup_empty in Hstep. }
    assert (g_mutex s = None) as Hm.
    { destruct (g_mutex s) eqn:E; [|done]. destruct (ok_held 1 s Hs _ E) as (p & Hp & _). by rewrite Ht, lookup_empty in Hp. }
    destruct (at_rest s s' Hst Ht Hm) as (H1 & H2 & _); [econstructor; [constructor|done]|]. rewrite decide_True by done. split; [|done].
    destruct l as [tid|tid|tid|tid a]; [by eapply init_ok|by eapply clear_ok|by eapply signal_ok|].
    cbn in Hstep'. by rewrite Ht, lookup_empty in Hstep'.
  - intros Hs Hstep. destruct l as [tid|tid|tid|tid a]; cbn [prompt_step] in Hstep.
    + pose proof (init_ok 0 s tid s' Hs Hstep). cbn in Hstep. destruct (threads s !! tid), (g_mutex s); try done.
      injection Hstep as <-. case_decide; cbn in *; by rewrite decide_False.
    + pose proof (clear_ok 0 s tid s' Hs Hstep). cbn in Hstep. destruct (threads s !! tid), (g_mutex s); try done.
      injection Hstep as <-. case_decide; cbn in *; by rewrite decide_False.
    + pose proof (signal_ok 0 s tid s' Hs Hstep). cbn in Hstep. destruct (threads s !! tid), (handler s); try done.
      injection Hstep as <-. case_decide; cbn in *; by rewrite decide_False.
    + destruct (bool_decide (threads s !! tid = Some (ClearAt 6)) && halfwayb s) eqn:Eb; [done|].
      pose proof (next_ok 0 s tid a s' Hs Hstep) as Hn. destruct (decide (threads s !! tid = Some (ClearAt 6))) as [E|E].
      * destruct Hn as [Hn ->]. rewrite decide_True by done. split; [done|]. rewrite bool_decide_eq_true_2 in Eb by done. cbn in Eb.
        cbn [step] in Hstep. rewrite E in Hstep. injection Hstep as <-. cbn. apply map_empty. intros tid'.
        destruct (decide (tid = tid')) as [<-|Hne]; [by rewrite lookup_delete_eq|]. rewrite lookup_delete_ne by done.
        destruct (threads s !! tid') as [p|] eqn:Ep; [|done]. destruct (decide (p = HandlerSet)) as [-> |Hp]; [by apply not_halfway in Ep|].
        destruct Hne. symmetry. by apply (owner_unique 0 s tid tid' (ClearAt 6) p).
      * destruct Hn as [Hn1 Hn2]. rewrite decide_False by tauto. done.
Qed.

(** C32: cleared once.  If no handler of a signal is between its look at the state
    and its write when [Clear] ends, then everything is cleaned up exactly once,
    in order, and after that nothing changes any more: further calls and signals
    do nothing, and the runtime cannot be started again. *)
Theorem cleared_once s :
  reachable prompt_step start s →
  if decide (g_cyber_state s = STATE_SHUTDOWN) then
    cleared s = seq 0 6 ∧
    ∀ s', reachable step s s' → g_cyber_state s' = STATE_SHUTDOWN ∧ log s' = log s ∧
      ∃ more, returned s' = returned s ++ more ∧ Forall (λ x, x.2 = false) more
  else cleared s = seq 0 (progress s).
Proof.
  intros Hr. assert (once s) as Hs.
  { revert Hr. apply (reachable_inv prompt_step once); [exact start_ok|]. intros l s1 s2. apply prompt_once. }
  unfold once in Hs. destruct (decide (g_cyber_state s = STATE_SHUTDOWN)) as [Hst|Hst]; [|apply Hs].
  destruct Hs as [Hs Ht]. assert (g_mutex s = None) as Hm.
  { destruct (g_mutex s) eqn:E; [|done]. destruct (ok_held 1 s Hs _ E) as (p & Hp & _). by rewrite Ht, lookup_empty in Hp. }
  split.
  - rewrite (ok_cleared 1 s Hs). unfold progress. by rewrite Hm.
  - intros s' Hr'. destruct (at_rest s s' Hst Ht Hm Hr') as (H1 & _ & _ & H2 & H3). by split_and!.
Qed.
End Runtime.

(** ** Samples *)
Module RuntimeSample.
Import Runtime.

Definition initialise (tid : nat) : list label := [LInit tid; LNext tid true; LNext tid true].
Definition clear (tid : nat) : list label := LClear tid :: replicate 7 (LNext tid true).

(** From the start to the end, with a signal before [Clear]. *)
Definition demo : list label := initialise 1 ++ [LSignal 2; LNext 2 true; LInit 3] ++ clear 1.

Lemma clear_in_order_witness :
  ∃ s, run step (demo ++ [LClear 4; LInit 4]) start = Some s ∧ ∃ n, cleared s = mjoin (replicate n (seq 0 6)) ++ seq 0 (progress s).
Proof.
  destruct (run step (demo ++ [LClear 4; LInit 4]) start) as [s|] eqn:E; [|vm_compute in E; discriminate E].
  exists s. split; [reflexivity|]. exact (proj1 (clear_in_order s (run_reachable step start _ s E))).
Defined.

Lemma cleared_once_witness :
  ∃ s, run prompt_step demo start = Some s ∧ g_cyber_state s = STATE_SHUTDOWN ∧ cleared s = seq 0 6.
Proof.
  assert (g_cyber_state <$> run prompt_step demo start = Some STATE_SHUTDOWN) as Hst by (vm_compute; reflexivity).
  destruct (run prompt_step demo start) as [s|] eqn:E; [|discriminate Hst]. injection Hst as Hst.
  exists s. split; [reflexivity|]. split; [exact Hst|].
  pose proof (cleared_once s (run_reachable prompt_step start demo s E)) as H. rewrite decide_True in H by exact Hst. exact (proj1 H).
Defined.

(** A signal that comes before [Init] sets the state is lost: the handler asks
    for the end, and the runtime is up. *)
Lemma signal_lost :
  ∃ s, run step [LInit 1; LSignal 2; LNext 2 true; LNext 1 true; LNext 1 true] start = Some s ∧
    g_cyber_state s = STATE_INITIALIZED ∧ returned s = [(1%nat, true)].
Proof. eexists. by split_and!; [vm_compute; reflexivity|..]. Qed.

(** A handler that looked at the state before the end and sets it after makes
    the runtime shut down again: everything is cleaned up twice. *)
Lemma cleared_twice :
  ∃ s, run step (initialise 1 ++ [LSignal 2] ++ clear 1 ++ [LNext 2 true] ++ clear 3) start = Some s ∧
    cleared s = seq 0 6 ++ seq 0 6.
Proof. eexists. by split; [vm_compute; reflexivity|]. Qed.

(** If the exit handler cannot be registered, [Init] fails with a logger running;
    the next one starts another, and [Clear] stops only that one. *)
Lemma logger_leaked :
  ∃ s, run step ([LInit 1; LNext 1 false] ++ initialise 1 ++ clear 1) start = Some s ∧
    StartLogger 0 ∈ log s ∧ StopLogger 1 ∈ log s ∧ StopLogger 0 ∉ log s.
Proof. eexists. split; [vm_compute; reflexivity|]. split_and!; apply (bool_decide_unpack _); by vm_compute. Qed.

Example name_of_path : binary_name (string_bytes "/usr/bin/talker") = string_bytes "talker".
Proof. by vm_compute. Qed.
End RuntimeSample.
