(* ===== verification/PerfEvents.v ===== *)
(** * Performance events ([cyber/event/perf_event.h],
    [cyber/event/perf_event_cache.cc])

    [PerfEvent]: events and their lines.  [PerfEventCache]: the threads that add
    events, the thread that writes them, the destructor and [Shutdown] as steps
    around a [BoundedQueue], whose operations are one step each. *)

From S2P Require Import Prelude WaitStrategy BoundedQueue SchedulerConf File.
Import Outcome.

Local Open Scope Z_scope.
Local Open Scope cyber_scope.

Module PerfEvent.

Inductive TransPerf := TRANS_FROM | TRANS_TO | WRITE_NOTIFY.
Inductive SchedPerf := SWAP_IN | SWAP_OUT | NOTIFY_IN | NEXT_RT | RT_CREATE.
Definition trans_number (x : TransPerf) : Z := match x with TRANS_FROM => 1 | TRANS_TO => 2 | WRITE_NOTIFY => 3 end.
Definition sched_number (x : SchedPerf) : Z :=
  match x with SWAP_IN => 1 | SWAP_OUT => 2 | NOTIFY_IN => 3 | NEXT_RT => 4 | RT_CREATE => 5 end.

(** [SchedEvent] and [TransportEvent]; the type of event is the constructor. *)
Inductive event :=
  | SchedEvent (eid cr_id proc_id cr_state stamp : Z)
  | TransportEvent (eid channel_id msg_seq stamp : Z).

(** [operator<<] of an integer of at most 64 bits. *)
Definition show (z : Z) : list Z := if z <? 0 then 45 :: Cpuset.digits 20 (- z) else Cpuset.digits 20 z.
Definition tab : Z := 9.

Section lines.
Context (GetTaskNameById GetChannelById : Z → list Z).

Definition fields_of (e : event) : list (list Z) :=
  match e with
  | SchedEvent eid cr_id proc_id cr_state stamp => [show 0; show eid; GetTaskNameById cr_id; show proc_id; show cr_state; show stamp]
  | TransportEvent eid channel_id msg_seq stamp => [show 1; show eid; GetChannelById channel_id; show msg_seq; show stamp]
  end.
Definition SerializeToString (e : event) : list Z := Cpuset.join tab (fields_of e).

(** *** A line gives its event back *)
Lemma digits_fold_pow fuel n : 0 <= n < 10 ^ Z.of_nat (S fuel) → foldl (λ v c, v * 10 + (c - 48)) 0 (Cpuset.digits (S fuel) n) = n.
Proof.
  revert n. induction fuel as [|fuel IH]; intros n Hn; cbn [Cpuset.digits]; (destruct (Z.ltb_spec n 10); [cbn; lia|]).
  - change (10 ^ Z.of_nat 1) with 10 in Hn. lia.
  - rewrite foldl_app. change (if n / 10 <? 10 then [48 + n / 10] else Cpuset.digits fuel (n / 10 / 10) ++ [48 + n / 10 mod 10]) with (Cpuset.digits (S fuel) (n / 10)).
    rewrite IH.
    + cbn. pose proof (Z.div_mod n 10). lia.
    + rewrite Nat2Z.inj_succ, Z.pow_succ_r in Hn by lia. split; [apply Z.div_pos; lia|]. apply Z.div_lt_upper_bound; lia.
Qed.

Definition value (s : list Z) : Z :=
  match s with
  | c :: l => if c =? 45 then - foldl (λ v c, v * 10 + (c - 48)) 0 l else foldl (λ v c, v * 10 + (c - 48)) 0 s
  | [] => 0
  end.

Definition word (z : Z) : Prop := - 2 ^ 63 <= z < 2 ^ 64.

Lemma value_show z : word z → value (show z) = z.
Proof.
  unfold word. intros Hz. unfold show. destruct (Z.ltb_spec z 0).
  - cbn [value]. rewrite Z.eqb_refl, digits_fold_pow by lia. lia.
  - pose proof (Cpuset.digits_digits 20 z ltac:(lia)) as Hd. pose proof (digits_fold_pow 19 z ltac:(lia)) as Hv. revert Hd Hv.
    generalize (Cpuset.digits 20 z). intros [|c l] Hd Hv; [done|]. apply Forall_inv in Hd. unfold value. unfold Cpuset.is_digit in Hd.
    destruct (Z.eqb_spec c 45); [lia|done].
Qed.

Lemma show_plain z : word z → (tab ∉ show z) ∧ show z ≠ [].
Proof.
  unfold word. intros Hz. unfold show. assert (∀ n, 0 <= n → tab ∉ Cpuset.digits 20 n) as Ht.
  { intros n Hn Hin. pose proof (Cpuset.digits_digits 20 n Hn) as Hd. rewrite Forall_forall in Hd. by specialize (Hd _ Hin). }
  destruct (z <? 0) eqn:E.
  - split; [|done]. apply not_elem_of_cons. split; [done|]. apply Ht. lia.
  - split; [apply Ht; lia|apply Cpuset.digits_nonempty].
Qed.

Definition named (s : list Z) : Prop := (tab ∉ s) ∧ s ≠ [].
Definition event_ok (e : event) : Prop :=
  match e with
  | SchedEvent eid cr_id proc_id cr_state stamp => word eid ∧ word proc_id ∧ word cr_state ∧ word stamp ∧ named (GetTaskNameById cr_id)
  | TransportEvent eid channel_id msg_seq stamp => word eid ∧ word msg_seq ∧ word stamp ∧ named (GetChannelById channel_id)
  end.

(** A line can be taken apart: if names have no tab, its fields are those of the
    event; and if names are not shared either, two events with the same line are
    the same. *)
Theorem event_lines e e' :
  event_ok e → event_ok e' →
  Cpuset.getlines tab (SerializeToString e) = fields_of e ∧
  ((∀ i j, GetTaskNameById i = GetTaskNameById j → i = j) → (∀ i j, GetChannelById i = GetChannelById j → i = j) →
     SerializeToString e = SerializeToString e' → e = e').
Proof.
  assert (∀ e, event_ok e → Cpuset.getlines tab (SerializeToString e) = fields_of e) as Hget.
  { clear. intros e He. apply Cpuset.getlines_join. destruct e; cbn [fields_of event_ok] in *; destruct_and?;
      repeat (apply Forall_cons_2; [first [by apply show_plain|done|apply show_plain; unfold word; lia]|]); apply Forall_nil_2. }
  intros He He'. split; [by apply Hget|]. intros Ht Hc E. assert (fields_of e = fields_of e') as Ef by (rewrite <-!Hget by done; by rewrite E).
  assert (∀ a b, word a → word b → show a = show b → a = b) as Hinj.
  { intros a b Ha Hb Heq. rewrite <-(value_show a), <-(value_show b) by done. by rewrite Heq. }
  destruct e, e'; cbn [fields_of event_ok] in *; destruct_and?; try discriminate Ef; injection Ef; intros; f_equal; auto.
Qed.
End lines.
End PerfEvent.

Module PerfEventCache.
Import Paths PerfEvent.

Definition kFlushSize : nat := 512.
Definition kEventQueueSize : Z := 8192.

(** What stands in the slots of the pool at first: a null pointer. *)
Definition null_event : event := TransportEvent 0 0 0 0.

(** The thread [Run]: at the test of the loop, in [WaitDequeue] before the test
    of [break_all_wait_], before it writes an event, returned.  Who ends it: the
    destructor before [BreakAllWait], before the join, before the last line, or
    [Shutdown] before the join; [Ended]: the one that came first has returned. *)
Inductive io := RTest | RWait | RWrite (e : event) | RReturned.
Inductive closer := Nobody | Breaking | Joining | Stamping | ShutdownJoins | Ended.

(** [lines]: of [of_], flushed by [std::endl]; [written]: the events among them;
    [accepted]: the events that were stored; [cyber_shutdown]: [IsShutdown()]. *)
Record t := mk {
  enable_trans_perf_ : bool; enable_sched_perf_ : bool; shutdown_ : bool;
  event_queue_ : BoundedQueue.t event;
  thread : io; buf_size : nat; by_ : closer; cyber_shutdown : bool;
  lines : list (list Z); accepted : list event; written : list event;
}.

(** *** The constructor *)
Definition enabled (env : path → option path) (var : string) : outcome bool :=
  let v := GetEnv env (string_bytes var) in
  if bool_decide (v = []) then Done false else n ← Cpuset.stoi v; Done (negb (n =? 0)).

(** [calloc_ok]: does the queue's memory come; [now]: nanoseconds.  An exception
    leaves the constructor. *)
Definition PerfEventCache (env : path → option path) (calloc_ok : bool) (now : Z) : outcome t :=
  trans ← enabled env "cyber_trans_perf";
  sched ← enabled env "cyber_sched_perf";
  if (sched : bool) || (trans : bool) then
    let '(ok, q) := BoundedQueue.Init_default null_event calloc_ok kEventQueueSize BoundedQueue.BoundedQueue in
    if (ok : bool) then Done (mk trans sched false q RTest 0 Nobody false [show now] [] []) else Throws
  else Done (mk trans sched false BoundedQueue.BoundedQueue RReturned 0 Nobody false [] [] []).

Section cache.
Context (line : event → list Z).

Definition set_thread (p : io) (s : t) : t :=
  mk (enable_trans_perf_ s) (enable_sched_perf_ s) (shutdown_ s) (event_queue_ s) p (buf_size s) (by_ s) (cyber_shutdown s)
    (lines s) (accepted s) (written s).
Definition set_closer (shutdown : bool) (c : closer) (s : t) : t :=
  mk (enable_trans_perf_ s) (enable_sched_perf_ s) shutdown (event_queue_ s) (thread s) (buf_size s) c (cyber_shutdown s)
    (lines s) (accepted s) (written s).
Definition set_queue (q : BoundedQueue.t event) (acc : list event) (s : t) : t :=
  mk (enable_trans_perf_ s) (enable_sched_perf_ s) (shutdown_ s) q (thread s) (buf_size s) (by_ s) (cyber_shutdown s)
    (lines s) acc (written s).

(** *** Adding *)
Definition Enqueue (e : event) (s : t) : option t :=
  '(stored, q) ← BoundedQueue.Enqueue (event_queue_ s) e;
  Some (set_queue q (if (stored : bool) then accepted s ++ [e] else accepted s) s).
Definition AddSchedEvent (event_id : SchedPerf) (cr_id proc_id cr_state now : Z) (s : t) : option t :=
  if negb (enable_sched_perf_ s) then Some s
  else Enqueue (SchedEvent (sched_number event_id) cr_id proc_id cr_state now) s.
Definition AddTransportEvent (event_id : TransPerf) (channel_id msg_seq now : Z) (s : t) : option t :=
  if negb (enable_trans_perf_ s) then Some s
  else Enqueue (TransportEvent (trans_number event_id) channel_id msg_seq now) s.

(** *** The thread *)
Definition Run_step (s : t) : option t :=
  match thread s with
  | RTest => Some (set_thread (if negb (shutdown_ s) && negb (cyber_shutdown s) then RWait else RReturned) s)
  | RWait =>
      if BoundedQueue.break_all_wait_ (event_queue_ s) then Some (set_thread RTest s)
      else
        '(e, q) ← BoundedQueue.Dequeue (event_queue_ s);
        match e with
        | Some e => Some (set_thread (RWrite e) (set_queue q (accepted s) s))
        | None => Some s  (* [SleepWaitStrategy::EmptyWait] answers true *)
        end
  | RWrite e =>
      let n := S (buf_size s) in
      Some (mk (enable_trans_perf_ s) (enable_sched_perf_ s) (shutdown_ s) (event_queue_ s) RTest (if (kFlushSize <=? n)%nat then 0%nat else n)
              (by_ s) (cyber_shutdown s) (lines s ++ [line e]) (accepted s) (written s ++ [e]))
  | RReturned => None
  end.

(** *** The ends *)
Definition destroy (s : t) : t :=
  if negb (enable_sched_perf_ s) && negb (enable_trans_perf_ s) then s
  else if shutdown_ s then s
  else set_closer true Breaking s.
Definition Shutdown (s : t) : t :=
  if shutdown_ s then s else set_closer true (if enable_sched_perf_ s || enable_trans_perf_ s then ShutdownJoins else Ended) s.
(** The one that came first goes on. *)
Definition close_step (now : Z) (s : t) : option t :=
  match by_ s with
  | Breaking => q ← BoundedQueue.BreakAllWait (event_queue_ s); Some (set_closer (shutdown_ s) Joining (set_queue q (accepted s) s))
  | Joining => match thread s with RReturned => Some (set_closer (shutdown_ s) Stamping s) | _ => None end
  | Stamping =>
      Some (mk (enable_trans_perf_ s) (enable_sched_perf_ s) (shutdown_ s) (event_queue_ s) (thread s) (buf_size s) Ended (cyber_shutdown s)
              (lines s ++ [show now]) (accepted s) (written s))
  | ShutdownJoins => match thread s with RReturned => Some (set_closer (shutdown_ s) Ended s) | _ => None end
  | Nobody | Ended => None
  end.

Inductive label :=
  | LSched (event_id : SchedPerf) (cr_id proc_id cr_state now : Z)
  | LTrans (event_id : TransPerf) (channel_id msg_seq now : Z)
  | LRun | LDestroy | LShutdown | LClose (now : Z) | LCyberShutdown.

Definition step (l : label) (s : t) : option t :=
  match l with
  | LSched event_id cr_id proc_id cr_state now => AddSchedEvent event_id cr_id proc_id cr_state now s
  | LTrans event_id channel_id msg_seq now => AddTransportEvent event_id channel_id msg_seq now s
  | LRun => Run_step s
  | LDestroy => Some (destroy s)
  | LShutdown => Some (Shutdown s)
  | LClose now => close_step now s
  | LCyberShutdown =>
      Some (mk (enable_trans_perf_ s) (enable_sched_perf_ s) (shutdown_ s) (event_queue_ s) (thread s) (buf_size s) (by_ s) true
              (lines s) (accepted s) (written s))
  end.

(** *** The queue *)
Abbreviation represents := (BoundedQueue.represents kEventQueueSize).

Lemma break_represents (q : BoundedQueue.t event) n l :
  represents q n l → ∃ q', BoundedQueue.BreakAllWait q = Some q' ∧ represents q' n l ∧ BoundedQueue.break_all_wait_ q' = true.
Proof.
  intros (h & o & [] & Hc & Hn & Hh). destruct qi_strategy as [st Hst]. unfold BoundedQueue.BreakAllWait. rewrite Hst. cbn. eexists. split; [done|].
  split; [|done]. exists h, o. split_and!; try done.
Qed.

Lemma enqueue_break (q q' : BoundedQueue.t event) e b :
  BoundedQueue.Enqueue q e = Some (b, q') → BoundedQueue.break_all_wait_ q' = BoundedQueue.break_all_wait_ q.
Proof. unfold BoundedQueue.Enqueue, BoundedQueue.pool_write. intros H. split_step H; done. Qed.

Lemma dequeue_break (q q' : BoundedQueue.t event) e :
  BoundedQueue.Dequeue q = Some (e, q') → BoundedQueue.break_all_wait_ q' = BoundedQueue.break_all_wait_ q.
Proof. unfold BoundedQueue.Dequeue. intros H. split_step H; done. Qed.

(** *** The invariant *)
Definition in_hand (p : io) : list event := match p with RWrite e => [e] | _ => [] end.

Record inv (now : Z) (s : t) : Prop := {
  pi_queue : ∃ pending, accepted s = written s ++ in_hand (thread s) ++ pending ∧ represents (event_queue_ s) (length (accepted s)) pending;
  pi_lines : ∃ last, lines s = show now :: (line <$> written s) ++ last ∧
    (last = [] ∨ by_ s = Ended ∧ thread s = RReturned ∧ ∃ stamp, last = [show stamp]);
  pi_buf : buf_size s = (length (written s) mod kFlushSize)%nat;
  pi_by : by_ s = Nobody ↔ shutdown_ s = false;
  pi_break : by_ s = Joining → BoundedQueue.break_all_wait_ (event_queue_ s) = true;
  pi_stamp : by_ s = Stamping → thread s = RReturned;
  pi_on : enable_sched_perf_ s || enable_trans_perf_ s = true;
}.

(** Fewer events than the counters of the queue have numbers. *)
Definition in_range (s : t) : Prop := 2 + Z.of_nat (length (accepted s)) < 2 ^ 64.

Lemma started env now s : PerfEventCache env true now = Done s → enable_sched_perf_ s || enable_trans_perf_ s = true → inv now s.
Proof.
  unfold PerfEventCache. destruct (enabled env "cyber_trans_perf") as [tr| | | |]; try done.
  destruct (enabled env "cyber_sched_perf") as [sc| | | |]; try done. cbn [mbind outcome_bind].
  destruct (sc || tr) eqn:Eon; intros [= <-] Hon; [|by rewrite <-Eon in Hon; cbn in Hon; congruence]. split; try done; cbn.
  - exists []. split; [done|]. by apply (BoundedQueue.represents_initial null_event kEventQueueSize WaitStrategy.default_sleep).
  - exists []. split; [done|by left].
Qed.

Lemma Enqueue_inv now e s s' : inv now s → in_range s → Enqueue e s = Some s' → inv now s'.
Proof.
  intros [(pending & Hacc & Hq) Hl Hb Hby Hbr Hst Hon] Hn. unfold Enqueue.
  pose proof (BoundedQueue.represents_enqueue kEventQueueSize ltac:(done) _ _ _ e Hq Hn) as He. case_decide.
  - destruct He as (q & He & Hq'). pose proof (enqueue_break _ _ _ _ He) as Hbq. rewrite He. cbn. intros [= <-]. split; cbn; try done.
    + exists (pending ++ [e]). rewrite length_app, Nat.add_1_r. split; [by rewrite Hacc, <-!app_assoc|done].
    + by rewrite Hbq.
  - rewrite He. cbn. intros [= <-]. split; cbn; try done. by exists pending.
Qed.

Lemma Run_inv now s s' : inv now s → in_range s → Run_step s = Some s' → inv now s'.
Proof.
  intros [(pending & Hacc & Hq) (last & Hl & Hlast) Hb Hby Hbr Hst Hon] Hn. unfold Run_step.
  destruct (thread s) as [| |e|] eqn:Et; cbn [in_hand app] in Hacc; [| | |done].
  - assert (last = []) as -> by (destruct Hlast as [|(_ & ? & _)]; done). intros [= <-]. split; cbn; try done.
    + exists pending. by destruct (negb (shutdown_ s) && _).
    + exists []. split; [done|by left].
    + intros Hs. by specialize (Hst Hs).
  - assert (last = []) as -> by (destruct Hlast as [|(_ & ? & _)]; done).
    destruct (BoundedQueue.break_all_wait_ (event_queue_ s)) eqn:Ebr.
    { intros [= <-]. split; cbn; try done; [by exists pending|exists []; split; [done|by left]|intros Hs; by specialize (Hst Hs)]. }
    pose proof (BoundedQueue.represents_dequeue kEventQueueSize _ _ _ Hq Hn) as Hd. destruct pending as [|e pending].
    + rewrite Hd. cbn. intros [= <-]. split; rewrite ?Et; try done; [by exists []|exists []; split; [done|by left]|by rewrite Ebr].
    + destruct Hd as (q & Hd & Hq'). pose proof (dequeue_break _ _ _ Hd) as Hbq. rewrite Hd. cbn. intros [= <-].
      split; cbn; try done; [by exists pending|exists []; split; [done|by left]|by rewrite Hbq, Ebr|intros Hs; by specialize (Hst Hs)].
  - assert (last = []) as -> by (destruct Hlast as [|(_ & ? & _)]; done). intros <-%(inj Some). split; cbn [by_ thread lines written buf_size event_queue_ accepted]; try done.
    + exists pending. split; [by rewrite Hacc, <-app_assoc|done].
    + exists []. rewrite Hl, !app_nil_r, fmap_app. split; [done|by left].
    + rewrite length_app, Nat.add_1_r, Hb. unfold kFlushSize.
      pose proof (Nat.mod_upper_bound (length (written s)) 512 ltac:(lia)). pose proof (Nat.div_mod_eq (length (written s)) 512) as Hdm.
      destruct (Nat.leb_spec 512 (S (length (written s) mod 512))).
      * apply Nat.mod_unique with (S (length (written s) / 512)); lia.
      * apply Nat.mod_unique with (length (written s) / 512)%nat; lia.
    + intros Hs. by specialize (Hst Hs).
Qed.

Lemma perf_close_inv now t s s' : inv now s → close_step t s = Some s' → inv now s'.
Proof.
  intros [(pending & Hacc & Hq) (last & Hl & Hlast) Hb Hby Hbr Hst Hon]. unfold close_step.
  destruct (by_ s) eqn:Eby; try done.
  - assert (last = []) as -> by (destruct Hlast as [|(? & _)]; done). destruct (break_represents _ _ _ Hq) as (q & -> & Hq' & Hbq).
    cbn. intros [= <-]. split; cbn; try done; [by exists pending|by exists []; split; [|left]|].
    split; [done|]. intros Hs. by apply Hby in Hs.
  - assert (last = []) as -> by (destruct Hlast as [|(? & _)]; done). destruct (thread s) eqn:Et; try done.
    intros [= <-]. split; cbn; rewrite ?Et; try done; [by exists pending|by exists []; split; [|left]|].
    split; [done|]. intros Hs. by apply Hby in Hs.
  - assert (last = []) as -> by (destruct Hlast as [|(? & _)]; done). intros [= <-]. specialize (Hst eq_refl). split; cbn; try done.
    + by exists pending.
    + exists [show t]. rewrite Hl, app_nil_r. split; [done|]. right. split; [done|]. split; [done|]. by exists t.
    + split; [done|]. intros Hs. by apply Hby in Hs.
  - assert (last = []) as -> by (destruct Hlast as [|(? & _)]; done). destruct (thread s) eqn:Et; try done.
    intros [= <-]. split; cbn; rewrite ?Et; try done; [by exists pending|by exists []; split; [|left]|].
    split; [done|]. intros Hs. by apply Hby in Hs.
Qed.

Lemma perf_step_inv now l s s' : inv now s → in_range s → step l s = Some s' → inv now s'.
Proof.
  intros Hs Hn. destruct l as [ev cr pr st t|ev ch sq t| | | |t|]; cbn [step].
  - unfold AddSchedEvent. destruct (negb _); [by intros [= <-]|by apply Enqueue_inv].
  - unfold AddTransportEvent. destruct (negb _); [by intros [= <-]|by apply Enqueue_inv].
  - by apply Run_inv.
  - intros [= <-]. unfold destroy. destruct (negb _ && _); [done|]. destruct (shutdown_ s) eqn:E; [done|].
    destruct Hs as [Hq (last & Hl & Hlast) Hb Hby Hbr Hst Hon]. pose proof (proj2 Hby E) as Eby. split; try done. cbn.
    exists last. split; [done|]. destruct Hlast as [|(? & _)]; [by left|congruence].
  - intros [= <-]. unfold Shutdown. destruct (shutdown_ s) eqn:E; [done|].
    destruct Hs as [Hq (last & Hl & Hlast) Hb Hby Hbr Hst Hon]. pose proof (proj2 Hby E) as Eby. rewrite Hon. split; try done. cbn.
    exists last. split; [done|]. destruct Hlast as [|(? & _)]; [by left|congruence].
  - by apply perf_close_inv.
  - intros [= <-]. by destruct Hs.
Qed.

Lemma perf_step_grows l s s' : step l s = Some s' → in_range s' → in_range s.
Proof.
  unfold in_range. assert (∀ e s s', Enqueue e s = Some s' → (length (accepted s) <= length (accepted s'))%nat) as He.
  { unfold Enqueue. clear. intros e s s'. destruct (BoundedQueue.Enqueue _ _) as [[[] q]|]; cbn; intros [= <-]; cbn; rewrite ?length_app; lia. }
  destruct l as [ev cr pr st t|ev ch sq t| | | |t|]; cbn [step].
  - unfold AddSchedEvent. destruct (negb _); [by intros [= <-]|]. intros H%He. lia.
  - unfold AddTransportEvent. destruct (negb _); [by intros [= <-]|]. intros H%He. lia.
  - unfold Run_step. intros H. split_step H; cbn; done.
  - intros [= <-]. unfold destroy. by repeat case_match.
  - intros [= <-]. unfold Shutdown. by repeat case_match.
  - unfold close_step. intros H. split_step H; cbn; done.
  - by intros [= <-].
Qed.

Lemma perf_reachable_inv env now s0 s :
  PerfEventCache env true now = Done s0 → enable_sched_perf_ s0 || enable_trans_perf_ s0 = true → reachable step s0 s → in_range s → inv now s.
Proof.
  intros H0 Hon. apply (reachable_inv_while step in_range (inv now)); [by eapply started|apply perf_step_grows|].
  intros l s1 s2 Hi Hn _. by apply perf_step_inv.
Qed.

(** Once the flag is set and the waits are broken the thread returns. *)
Lemma thread_returns s :
  shutdown_ s = true → BoundedQueue.break_all_wait_ (event_queue_ s) = true →
  ∃ n s', (n <= 2)%nat ∧ run step (replicate n LRun) s = Some s' ∧ by_ s' = by_ s ∧ thread s' = RReturned ∧
    ∃ more, lines s' = lines s ++ (line <$> more) ∧ written s' = written s ++ more.
Proof.
  intros Hdown Hb.
  assert (∀ s, thread s = RTest → shutdown_ s = true → Run_step s = Some (set_thread RReturned s)) as Htest.
  { intros s' Ht Hs. unfold Run_step. by rewrite Ht, Hs. }
  destruct (thread s) as [| |e|] eqn:Et.
  - exists 1%nat, (set_thread RReturned s). split; [lia|]. split; [cbn [run replicate step]; by rewrite Htest|].
    split; [done|]. split; [done|]. exists []. by rewrite !app_nil_r.
  - assert (Run_step s = Some (set_thread RTest s)) as Hw by (unfold Run_step; by rewrite Et, Hb).
    exists 2%nat, (set_thread RReturned (set_thread RTest s)). split; [lia|]. split.
    { cbn [run replicate step]. rewrite Hw. cbn [mbind option_bind]. by rewrite Htest. }
    split; [done|]. split; [done|]. exists []. by rewrite !app_nil_r.
  - destruct (Run_step s) as [s1|] eqn:Hw0; [|unfold Run_step in Hw0; by rewrite Et in Hw0]. pose proof Hw0 as Hw.
    exists 2%nat, (set_thread RReturned s1). unfold Run_step in Hw. rewrite Et in Hw. apply (inj Some) in Hw. split; [lia|]. split.
    { cbn [run replicate step]. rewrite Hw0. cbn [mbind option_bind]. rewrite Htest by (by rewrite <-Hw). done. }
    split; [by rewrite <-Hw|]. split; [done|]. exists [e]. by rewrite <-Hw.
  - exists 0%nat, s. split; [lia|]. split; [done|]. split; [done|]. split; [done|]. exists []. by rewrite !app_nil_r.
Qed.

(** Nobody takes part in the end but who came first: its remaining steps and the
    thread's, from [BreakAllWait] on. *)
Lemma breaking_ends now t s :
  inv now s → by_ s = Breaking → ∃ n s', (n <= 2)%nat ∧
    run step ([LClose t] ++ replicate n LRun ++ [LClose t; LClose t]) s = Some s' ∧ by_ s' = Ended ∧ thread s' = RReturned ∧
    lines s' = show now :: (line <$> written s') ++ [show t].
Proof.
  intros Hs Hby. pose proof Hs as [(pending & Hacc & Hq) _ _ Hsh _ _ _].
  assert (shutdown_ s = true) as Hdown by (destruct (shutdown_ s) eqn:E; [done|]; by rewrite (proj2 Hsh) in Hby).
  destruct (break_represents _ _ _ Hq) as (q & Hbq & Hq' & Hb).
  set (s1 := set_closer (shutdown_ s) Joining (set_queue q (accepted s) s)).
  assert (step (LClose t) s = Some s1) as H1 by (cbn; unfold close_step; by rewrite Hby, Hbq).
  pose proof (perf_close_inv now t s s1 Hs H1) as Hs1.
  destruct (thread_returns s1 Hdown Hb) as (n & s2 & Hn & H2 & Hby2 & Ht2 & more & Hl2 & Hw2). change (by_ s1) with Joining in Hby2.
  destruct (pi_lines now s1 Hs1) as (last & Hl & Hlast). assert (last = []) as -> by (destruct Hlast as [|(? & _)]; done). rewrite app_nil_r in Hl.
  assert (close_step t s2 = Some (set_closer (shutdown_ s2) Stamping s2)) as H3 by (unfold close_step; by rewrite Hby2, Ht2).
  exists n. eexists. split; [done|]. rewrite run_app. cbn [run]. rewrite H1. cbn [mbind option_bind]. rewrite run_app, H2. cbn [mbind option_bind run step].
  rewrite H3. cbn [mbind option_bind]. unfold close_step. cbn [by_ set_closer]. split; [reflexivity|]. split; [done|]. split; [done|].
  cbn [lines written set_closer]. rewrite Hl2, Hw2, Hl, fmap_app. cbn. by rewrite <-!app_assoc.
Qed.

(** C34: what the file of performance events holds.  Whatever is added and whoever
    ends it: the events that were stored are the ones written, in order, one
    that the thread holds, and those in the queue; a line follows for each after
    the first stamp.  When the destructor has set the flag, it and the thread
    return after at most two steps of the thread, and the last line is a
    stamp. *)
Theorem perf_events_written env now s0 s :
  PerfEventCache env true now = Done s0 → enable_sched_perf_ s0 || enable_trans_perf_ s0 = true → reachable step s0 s → in_range s →
  (∃ pending, accepted s = written s ++ in_hand (thread s) ++ pending ∧ Z.of_nat (length pending) <= kEventQueueSize) ∧
  (∃ last, lines s = show now :: (line <$> written s) ++ last ∧ (length last <= 1)%nat ∧ (by_ s ≠ Ended → last = [])) ∧
  (by_ s = Breaking → ∀ t, ∃ n s', (n <= 2)%nat ∧
     run step ([LClose t] ++ replicate n LRun ++ [LClose t; LClose t]) s = Some s' ∧ by_ s' = Ended ∧ thread s' = RReturned ∧
     lines s' = show now :: (line <$> written s') ++ [show t]).
Proof.
  intros H0 Hon Hr Hn. pose proof (perf_reachable_inv env now s0 s H0 Hon Hr Hn) as Hs. split; [|split].
  - destruct (pi_queue now s Hs) as (pending & Hacc & Hq). exists pending. split; [done|].
    by destruct (BoundedQueue.represents_size kEventQueueSize _ _ _ Hq Hn).
  - destruct (pi_lines now s Hs) as (last & Hl & Hlast). exists last. split; [done|].
    destruct Hlast as [-> |(Hby & _ & t & ->)]; [split; [cbn; lia|done]|]. split; [cbn; lia|done].
  - intros Hby t. by apply breaking_ends.
Qed.

(** No more events. *)
Definition quiet_step (l : label) (s : t) : option t :=
  match l with LSched _ _ _ _ _ | LTrans _ _ _ _ => None | _ => step l s end.

(** [Shutdown] may wait for ever.  It does not break the waits of the queue:
    if the thread waits on an empty queue when [Shutdown] is called, then unless
    another event is added neither of them ever returns. *)
Theorem shutdown_waits env now s0 s1 s :
  PerfEventCache env true now = Done s0 → enable_sched_perf_ s0 || enable_trans_perf_ s0 = true →
  run step [LRun; LShutdown] s0 = Some s1 → reachable quiet_step s1 s →
  thread s = RWait ∧ by_ s = ShutdownJoins.
Proof.
  intros H0 Hon H1 Hr. pose proof (started env now s0 H0 Hon) as Hs0. unfold PerfEventCache in H0.
  destruct (enabled env "cyber_trans_perf") as [tr| | | |]; try done. destruct (enabled env "cyber_sched_perf") as [sc| | | |]; try done.
  cbn [mbind outcome_bind] in H0. destruct (sc || tr) eqn:Eon; [|injection H0 as <-; cbn in Hon; congruence].
  assert (∃ q, BoundedQueue.Init_default null_event true kEventQueueSize BoundedQueue.BoundedQueue = (true, q) ∧
    BoundedQueue.break_all_wait_ q = false) as (q & Eq & Hbq) by (eexists; by split).
  rewrite Eq in H0. apply (f_equal (λ o, match o with Done s => s | _ => s0 end)) in H0. subst s0. cbn in Hon.
  cbn in H1. unfold Shutdown in H1. cbn in H1. rewrite Hon in H1. apply (inj Some) in H1. subst s1.
  destruct (pi_queue now _ Hs0) as (pending & Hacc & Hq). cbn in Hacc. subst pending. cbn [length accepted event_queue_] in Hq.
  pose proof (BoundedQueue.represents_dequeue kEventQueueSize _ _ _ Hq ltac:(done)) as Hd. cbn iota in Hd. revert Hr.
  enough (∀ s, thread s = RWait ∧ by_ s = ShutdownJoins ∧ shutdown_ s = true ∧ event_queue_ s = q → ∀ s', reachable quiet_step s s' →
    thread s' = RWait ∧ by_ s' = ShutdownJoins ∧ shutdown_ s' = true ∧ event_queue_ s' = q) as Hall.
  { intros Hr. refine ((λ H, conj (proj1 H) (proj1 (proj2 H))) (Hall _ _ _ Hr)). by split_and!. }
  clear s Hs0. intros s Hs s'. apply (reachable_inv quiet_step (λ s, thread s = RWait ∧ by_ s = ShutdownJoins ∧ shutdown_ s = true ∧ event_queue_ s = q)); [done|].
  intros l s2 s3 (E1 & E2 & E3 & E4) Hstep. destruct l; cbn in Hstep; try done.
  - unfold Run_step in Hstep. rewrite E1, E4 in Hstep. rewrite Hbq, Hd in Hstep. injection Hstep as <-. done.
  - unfold destroy in Hstep. rewrite E3 in Hstep. destruct (negb _ && _); by injection Hstep as <-.
  - unfold Shutdown in Hstep. rewrite E3 in Hstep. by injection Hstep as <-.
  - unfold close_step in Hstep. by rewrite E2, E1 in Hstep.
  - by injection Hstep as <-.
Qed.
End cache.
End PerfEventCache.

(** ** Samples *)
Module PerfSample.
Import PerfEvent PerfEventCache.

Definition env (var : path) : option path :=
  if bool_decide (var = string_bytes "cyber_sched_perf") then Some (string_bytes "1") else None.
Definition name (i : Z) : list Z := 110 :: show i.
Abbreviation demo_line := (SerializeToString name name).

Example sched_line : demo_line (SchedEvent 4 7 (-1) 2 1000) = string_bytes "0" ++ [9] ++ string_bytes "4" ++ [9] ++ string_bytes "n7" ++ [9] ++
  string_bytes "-1" ++ [9] ++ string_bytes "2" ++ [9] ++ string_bytes "1000".
Proof. by vm_compute. Qed.

Lemma event_lines_witness : Cpuset.getlines tab (demo_line (SchedEvent 4 7 (-1) 2 1000)) = [[48]; [52]; [110; 55]; [45; 49]; [50]; [49; 48; 48; 48]].
Proof.
  assert (event_ok name name (SchedEvent 4 7 (-1) 2 1000)) as H.
  { cbn. unfold word. split_and!; try lia. split; [|discriminate]. apply (bool_decide_unpack _). vm_compute. exact I. }
  destruct (event_lines name name _ _ H H) as [E _]. etransitivity; [exact E|]. vm_compute. reflexivity.
Defined.

(** Two events are added, one is written and the other is held; then the cache is
    destroyed. *)
Definition demo : list label :=
  [LSched SWAP_IN 7 1 2 10; LRun; LSched SWAP_OUT 7 1 2 20; LRun; LRun; LTrans TRANS_TO 3 1 25; LRun; LRun; LDestroy].

Lemma perf_events_written_witness :
  ∃ s0 s, PerfEventCache env true 5 = Done s0 ∧ run (step demo_line) demo s0 = Some s ∧
    ∃ n s', (n <= 2)%nat ∧ run (step demo_line) ([LClose 30] ++ replicate n LRun ++ [LClose 30; LClose 30]) s = Some s' ∧
      lines s' = show 5 :: (demo_line <$> written s') ++ [show 30].
Proof.
  assert ((s0 ← PerfEventCache env true 5; match run (step demo_line) demo s0 with
    | Some s => Done (enable_sched_perf_ s0, bool_decide (length (accepted s) = 2%nat), match by_ s with Breaking => true | _ => false end) | None => Throws end)
    = Done (true, true, true)) as Hall by (vm_compute; reflexivity).
  destruct (PerfEventCache env true 5) as [s0| | | |] eqn:E0; try discriminate Hall. cbn [mbind outcome_bind] in Hall.
  destruct (run (step demo_line) demo s0) as [s|] eqn:E; [|discriminate Hall]. injection Hall as Hon Hlen Hby. apply bool_decide_eq_true in Hlen.
  exists s0, s. split; [reflexivity|]. split; [exact E|].
  destruct (perf_events_written demo_line env 5 s0 s E0 ltac:(by rewrite Hon) (run_reachable _ s0 demo s E)) as (_ & _ & Hend).
  { unfold in_range. rewrite Hlen. lia. }
  destruct (Hend ltac:(by destruct (by_ s)) 30) as (n & s' & Hn & Hr & _ & _ & Hl). by exists n, s'.
Defined.

Lemma shutdown_waits_witness :
  ∃ s0 s1, PerfEventCache env true 5 = Done s0 ∧ run (step demo_line) [LRun; LShutdown] s0 = Some s1 ∧
    ∀ s, reachable (quiet_step demo_line) s1 s → by_ s = ShutdownJoins.
Proof.
  assert ((s0 ← PerfEventCache env true 5; match run (step demo_line) [LRun; LShutdown] s0 with
    | Some s => Done (enable_sched_perf_ s0) | None => Throws end) = Done true) as Hall by (vm_compute; reflexivity).
  destruct (PerfEventCache env true 5) as [s0| | | |] eqn:E0; try discriminate Hall. cbn [mbind outcome_bind] in Hall.
  destruct (run (step demo_line) [LRun; LShutdown] s0) as [s1|] eqn:E; [|discriminate Hall]. injection Hall as Hon.
  exists s0, s1. split; [reflexivity|]. split; [exact E|]. intros s Hr.
  exact (proj2 (shutdown_waits demo_line env 5 s0 s1 s E0 ltac:(by rewrite Hon) E Hr)).
Defined.
End PerfSample.
